(* ===== verification/_CoqProject ===== *)
-Q . S2P
Prelude.v
GoStrings.v
GoNet.v
Packet.v
PacketReader.v
RollingCounter.v
ServiceMap.v
Service.v
Socket.v
Wire.v
Server.v
Blocking.v
Connection.v
World.v
Client.v
Sync.v
Pipe.v
ShellV2.v
Session.v
HostCommands.v
Scanner.v
Track.v
DeviceCommands.v
Screen.v
Bridge.v
Flag.v
UsbBridge.v
Cli.v
