(* ===== verification/Prelude.v ===== *)
(** * go-adbkit

    A verification of go-adbkit, an implementation of both ends of the Android
    Debug Bridge in Go.

    The program has two packages.  [src/tcpusb] is a bridge: it listens on TCP,
    speaks the ADB device protocol (24-byte packet headers, an authentication
    handshake, multiplexed streams with acknowledgements) to remote [adb]
    clients, and joins every stream they open with a fresh transport connection
    to a device.  [src/adb] is a client of the local ADB server: it opens those
    transport connections and offers the host, device, shell, file transfer,
    forwarding, package, intent and screen operations.  The bridge calls the
    client through [Device.Transport]; Bridge.v joins the two.  Two programs use
    the packages: [src/cmd/usb-bridge] runs a bridge, [src/examples/basic] is a
    small [adb].

    ** Conventions

    A Go string or byte slice is a [list byte]; a slice whose nil-ness matters
    is an [option].  A [uint32] is a [Z] with its wrap-around written out.  A
    fallible operation has an [outcome]: a value, a Go error, a run-time panic,
    or an exhausted fuel argument, the last two being different things that
    theorems must exclude.  [io S A] is the state and outcome monad; [defer],
    [attempt] and [on_error] mirror Go's idioms.  A connection (GoNet.v) is a
    script of what successive reads deliver and writes accept; theorems
    quantify over the script, and [feeds tl evs s] says that the events [evs]
    deliver the bytes [s], in any fragmentation, before [tl].  A [world]
    (World.v) is the outcome of future dials and the list of all connections
    opened so far.  The status of a host request is read by a single [Read];
    theorems about requests assume that it delivers the four bytes, with or
    without more behind them ([Client.replies], [Client.answers]), and
    [sendADBCommand_short_read] shows what happens otherwise.

    Goroutines are program counters over shared records.  A method that holds a
    mutex is one action; a goroutine's code is cut at every point where another
    goroutine can observe or change what it uses; the step relation interleaves
    actions arbitrarily, so invariants hold for every schedule.  Whether a
    goroutine gets the locks it needs is treated apart, in Blocking.v, where a
    method is the sequence of its locks and blocking operations.

    ** Files

    - Prelude.v: bytes, little-endian words, [outcome] and [io], the Go errors
      the code compares, tactics and the hint database [adb].
    - GoStrings.v: what the sources use of [strings], [strconv] and [fmt], with
      the round trips of decimal and hexadecimal formatting.
    - GoNet.v: [net.Conn], [io.ReadFull] and [io.ReadAll].
    - Packet.v, PacketReader.v: packet.go and packet_reader.go.
      [ReadPacket_refines] and [read_packets_roundtrip] say that the buffered
      reader computes the reference parser [parse_packet] and inverts
      [Assemble]; [ReadPacket_safe] that it is total on hostile input, a slice
      out of range being a panic.
    - RollingCounter.v, ServiceMap.v: rolling_counter.go and service_map.go,
      identifiers and the refinement of a partial map.
    - Service.v: service.go.  [opener] and [forwarder] are the program counters
      of [handleOpenPacket] and [forwardFromDevice]; [sstep] interleaves them
      with [Handle], [End] and failures of the client connection.  The theorems
      are flow control, fidelity of both directions, packet discipline,
      progress and shutdown, and the race that crashes the opener.
    - Socket.v: socket.go.  [kexec] runs the actions of the reader ([Start]),
      of every service's goroutines and of [End]; each service embedded in a
      reachable socket is reachable in the sense of Service.v.  The theorems are
      that composition, the authentication gate, totality of [handle], and what
      [End] guarantees and what it does not.
    - Wire.v: the stream of packets one client receives.  [wtrace] records what
      the socket and all services write, in order; the stream is well typed,
      decodable and an interleaving of the senders' packets.
    - Server.v: server.go.  [vexec] runs [Listen], its goroutines and calls of
      [Close] on top of Socket.v: tracking of connections, completeness of
      [Close], and its races.
    - Blocking.v: the locks of server.go, socket.go, service.go and
      service_map.go.  [bridge_locks_progress] says that no set of goroutines
      deadlocks on them and which blocking operations can hold others up;
      [close_hangs] that a client that does not read holds up [Close].
    - Connection.v: connection.go, status.go and the methods of [Transport].
    - World.v: client.go; the class [Connector] is the Go interface, and
      [ConnectorLaws] what the rest of the client relies on, discharged by both
      implementations.
    - Client.v: descriptors, host requests, device transports, shells.
    - Sync.v: sync.go, device_file.go: push and pull are inverse, listings,
      totality of the loops, and truncated transfers.
    - Pipe.v: the goroutine and the [io.Pipe] behind [Pull], interleaved with
      the reader: every schedule delivers what Sync.v computes sequentially, the
      download makes progress, and closing the reader stops the goroutine.
    - ShellV2.v: device_shell_v2.go: packets, stream buffers, sessions run to
      their end.
    - Session.v: an interactive session, its read loop interleaved with the
      caller's reads, writes and [Close]: delivery, agreement with the
      sequential model of ShellV2.v, and that the session ends.
    - HostCommands.v, DeviceCommands.v: the commands of client_commands.go,
      device_features.go, device_info.go, device_forward.go, device_network.go,
      device_package.go and device_intent.go; parsers are shown to invert the
      formats they read, and [client_operations_tidy] that connections are
      closed, with [WaitForDeviceWithTimeout] as an exception when its timer
      fires first.
    - Scanner.v, Track.v: [bufio.Scanner] on lines and
      [TrackDevicesWithCallback], which calls back once per non-blank line of
      the stream and misreads the server's length-prefixed updates.
    - Screen.v: device_screen.go and its pixel arithmetic.
    - Bridge.v: bridge.go and a stream opened through both packages.
    - Flag.v: Go's [flag] package as the programs use it.
    - UsbBridge.v: [Bridge.Start] and [StartWithServer] over Server.v, and
      cmd/usb-bridge/main.go with its signals, run-time panics and exit status.
    - Cli.v: examples/basic/main.go over the network, a file system and the
      printed output.

    ** Fuel

    [ReadPacket] runs its loop with [S (reader_measure pr)], where the measure
    counts twice the bytes and events left on the stream; every iteration
    lowers it, so the fuel is never used up ([ReadPacket_safe]).  [Readdir],
    [readData] and the shell's read loop run with [S (conn_size c)], more than
    the reads left on the connection ([sync_loops_total],
    [RunCommandV2_result]).  A scanner loop runs with [2 + conn_size c] and each
    [Scan] with [S (S (conn_size c))]; [for_scan_spec] gives their result.  Flag
    parsing runs with one more than the number of arguments ([Parse_total]).
    The write loops run for the length of their data,
    each iteration writing at least one byte.  [StartActivity] and
    [StartService] call themselves without a bound; their models take fuel, and
    [StartActivity_retry_futile] shows that no amount need be enough.

    ** Not modelled

    Logging.  Constructors and accessors that only wrap a value ([NewTransport],
    [Client.Device], [Stdout], [Stderr]) and the unused type [PushOptions];
    [Service.Wait] is the position [OWait] of its caller.  Timers: what a context
    or a timeout answers during a call is an argument ([ctx]).

    Three things are coarser than the code.  The reader's lookup of a service and
    the call of its [Handle] are one action of Socket.v, so a [Handle] of a
    service removed in between is not among its schedules.  A write to the client
    that fails leaves nothing on the wire, where TCP may have sent part of the
    packet, after which the connection is of no use.  And the step relations of
    Service.v, Socket.v and Server.v say nothing of waiting: an operation that
    blocks is an action not yet taken, and what waits for it under a lock is
    Blocking.v's subject.

    Code outside the repository is a parameter: what the network does is the
    script of a connection, random tokens and the device's properties are
    inputs of the socket's actions ([inputs]), the authentication handler is an
    argument of Socket.v and Server.v, Go's image decoders are an argument of
    [Screencap], the digest and the RSA check arguments of [verifySignature],
    [time.ParseDuration], the text of a duration and the PNG encoder arguments
    of the programs, and the iteration order of a Go map is the order of a list.

    ** Shared prelude

    The rest of this file is the prelude the components share. *)

From stdpp Require Export base option list gmap strings numbers sorting.
From Stdlib Require Export Init.Byte.
From Stdlib Require Strings.Byte.
From Stdlib Require Import ZArith Lia.

Local Open Scope Z_scope.

(** ** Bytes *)

(** A Go [[]byte] and a Go [string] are both sequences of bytes. *)
Abbreviation bytes := (list byte).

Definition byte_to_Z (b : byte) : Z := Z.of_N (Byte.to_N b).

(** Truncating conversion [byte(z)]. *)
Definition byte_of_Z (z : Z) : byte :=
  match Byte.of_N (Z.to_N (z mod 256)) with
  | Some b => b
  | None => x00
  end.

(** A Go string literal. *)
Definition str (s : string) : bytes := String.list_byte_of_string s.

#[global] Instance byte_eq_dec : EqDecision byte.
Proof. intros x y. destruct (Byte.byte_eq_dec x y); [by left | by right]. Defined.

#[global] Instance byte_countable : Countable byte :=
  inj_countable Byte.to_N Byte.of_N Byte.of_to_N.

(** The length of a slice as a Go [int]. *)
Definition zlen {A} (l : list A) : Z := Z.of_nat (length l).

(** ** Fixed-width unsigned integers

    A Go [uint32] is a [Z] in [0, 2^32); arithmetic that can leave the range
    is wrapped explicitly. *)

Definition wrap8 (z : Z) : Z := z mod 2 ^ 8.
Definition wrap32 (z : Z) : Z := z mod 2 ^ 32.
Definition is_u32 (z : Z) : Prop := 0 <= z < 2 ^ 32.

#[global] Instance is_u32_dec z : Decision (is_u32 z).
Proof. unfold is_u32. apply _. Defined.

(** ** Little-endian encoding: [binary.LittleEndian] *)

Definition PutUint32 (v : Z) : bytes :=
  [byte_of_Z v; byte_of_Z (Z.shiftr v 8); byte_of_Z (Z.shiftr v 16); byte_of_Z (Z.shiftr v 24)].

(** Every call in the sources is on a slice of at least four bytes; on a
    shorter one Go panics, and the value here is irrelevant. *)
Definition Uint32 (b : bytes) : Z :=
  match b with
  | b0 :: b1 :: b2 :: b3 :: _ =>
      Z.lor (Z.lor (Z.lor (byte_to_Z b0) (Z.shiftl (byte_to_Z b1) 8))
                   (Z.shiftl (byte_to_Z b2) 16))
            (Z.shiftl (byte_to_Z b3) 24)
  | _ => 0
  end.

(** A slice [b[i:j]] whose bounds are in range. *)
Definition slice (i j : nat) (b : bytes) : bytes := take (j - i) (drop i b).

#[global] Arguments byte_to_Z : simpl never.
#[global] Arguments byte_of_Z : simpl never.
#[global] Arguments PutUint32 : simpl never.
#[global] Arguments Uint32 : simpl never.
#[global] Arguments wrap8 : simpl never.
#[global] Arguments wrap32 : simpl never.
#[global] Arguments zlen : simpl never.

(** ** Tactics *)

(** Case on the scrutinee of every [match] in the goal or context. *)
Ltac case_all := repeat (case_match; simplify_eq/=; try done).

(** Solve goals on list lengths after normalising [length]. *)
Ltac len := rewrite ?length_app, ?length_take, ?length_drop, ?length_replicate,
                    ?length_fmap in *; simpl in *; try lia.

(** ** Byte lemmas *)

Lemma byte_to_Z_range b : 0 <= byte_to_Z b < 256.
Proof.
  unfold byte_to_Z. pose proof (Byte.to_N_bounded b). lia.
Qed.

Lemma byte_of_to_Z b : byte_of_Z (byte_to_Z b) = b.
Proof.
  unfold byte_of_Z. rewrite Z.mod_small by apply byte_to_Z_range.
  unfold byte_to_Z. by rewrite N2Z.id, Byte.of_to_N.
Qed.

Lemma byte_to_of_Z z : byte_to_Z (byte_of_Z z) = z mod 256.
Proof.
  unfold byte_of_Z, byte_to_Z.
  pose proof (Z.mod_pos_bound z 256 ltac:(lia)) as Hz.
  destruct (Byte.of_N _) as [b|] eqn:E.
  - apply Byte.to_of_N in E. rewrite E. lia.
  - apply Byte.of_N_None_iff in E. lia.
Qed.

#[global] Instance byte_to_Z_inj : Inj (=) (=) byte_to_Z.
Proof. intros x y H. by rewrite <- (byte_of_to_Z x), H, byte_of_to_Z. Qed.

Lemma lor_shiftl_add a b n :
  0 <= n -> 0 <= a < 2 ^ n -> Z.lor a (Z.shiftl b n) = a + b * 2 ^ n.
Proof.
  intros Hn Ha. rewrite <- Z.shiftl_mul_pow2 by done.
  symmetry. apply Z.add_nocarry_lor.
  apply Z.bits_inj'. intros i Hi.
  rewrite Z.land_spec, Z.bits_0, Z.shiftl_spec by done.
  destruct (decide (i < n)).
  - rewrite (Z.testbit_neg_r b (i - n)) by lia. apply andb_false_r.
  - destruct (decide (a = 0)) as [->|]; [by rewrite Z.bits_0|].
    rewrite (Z.bits_above_log2 a i); [done | lia | ].
    apply Z.log2_lt_pow2; [lia|]. pose proof (Z.pow_le_mono_r 2 n i). lia.
Qed.

Lemma Uint32_sum b0 b1 b2 b3 r :
  Uint32 (b0 :: b1 :: b2 :: b3 :: r) =
  byte_to_Z b0 + byte_to_Z b1 * 2 ^ 8 + byte_to_Z b2 * 2 ^ 16 + byte_to_Z b3 * 2 ^ 24.
Proof.
  unfold Uint32.
  pose proof (byte_to_Z_range b0). pose proof (byte_to_Z_range b1).
  pose proof (byte_to_Z_range b2). pose proof (byte_to_Z_range b3).
  rewrite (lor_shiftl_add _ _ 8) by lia.
  rewrite (lor_shiftl_add _ _ 16) by lia.
  rewrite (lor_shiftl_add _ _ 24) by lia. done.
Qed.

Lemma Uint32_range b : is_u32 (Uint32 b).
Proof.
  unfold is_u32.
  destruct b as [|b0 [|b1 [|b2 [|b3 r]]]]; try (unfold Uint32; lia).
  rewrite Uint32_sum.
  pose proof (byte_to_Z_range b0). pose proof (byte_to_Z_range b1).
  pose proof (byte_to_Z_range b2). pose proof (byte_to_Z_range b3). lia.
Qed.

Lemma PutUint32_length v : length (PutUint32 v) = 4%nat.
Proof. done. Qed.

Lemma Uint32_PutUint32_wrap v r : Uint32 (PutUint32 v ++ r) = wrap32 v.
Proof.
  unfold PutUint32. cbn [app]. rewrite Uint32_sum, !byte_to_of_Z.
  unfold wrap32. rewrite !Z.shiftr_div_pow2 by lia.
  change (2 ^ 8) with 256. change (2 ^ 16) with 65536.
  change (2 ^ 24) with 16777216. change (2 ^ 32) with 4294967296.
  pose proof (Z.div_mod v 256). Z.div_mod_to_equations. lia.
Qed.

(** Decoding an encoded [uint32] gives it back. *)
Lemma Uint32_PutUint32 v r : is_u32 v -> Uint32 (PutUint32 v ++ r) = v.
Proof. intros Hv. rewrite Uint32_PutUint32_wrap. by apply Z.mod_small. Qed.

Lemma Uint32_PutUint32_nil v : is_u32 v -> Uint32 (PutUint32 v) = v.
Proof. intros. rewrite <- (app_nil_r (PutUint32 v)). by apply Uint32_PutUint32. Qed.

Lemma PutUint32_Uint32 b : length b = 4%nat -> PutUint32 (Uint32 b) = b.
Proof.
  destruct b as [|b0 [|b1 [|b2 [|b3 [|]]]]]; intros Hl; simplify_eq/=.
  pose proof (byte_to_Z_range b0). pose proof (byte_to_Z_range b1).
  pose proof (byte_to_Z_range b2). pose proof (byte_to_Z_range b3).
  unfold PutUint32. rewrite Uint32_sum.
  rewrite !Z.shiftr_div_pow2 by lia.
  repeat f_equal; apply (inj byte_to_Z); rewrite byte_to_of_Z;
    change (2 ^ 8) with 256; change (2 ^ 16) with 65536;
    change (2 ^ 24) with 16777216; Z.div_mod_to_equations; lia.
Qed.

(** ** Errors, results and effects *)

(** Go error values. A message built by [fmt.Errorf] from plain [%s]/[%d]
    verbs is kept as its text; messages that quote ([%q]) keep their operands. *)
Inductive goerror :=
  | EOF                                     (* io.EOF *)
  | ErrUnexpectedEOF                        (* io.ErrUnexpectedEOF *)
  | ErrShortWrite                           (* io.ErrShortWrite *)
  | ErrNoProgress                           (* io.ErrNoProgress *)
  | ErrClosedPipe                           (* io.ErrClosedPipe *)
  | ErrTooLong                              (* bufio.ErrTooLong *)
  | NetError (msg : bytes)                  (* an error that implements net.Error *)
  | CtxError (deadline : bool)              (* ctx.Err(): deadline exceeded or cancelled *)
  | NumSyntax (s : bytes)                   (* strconv.ErrSyntax on s *)
  | NumRange (s : bytes)                    (* strconv.ErrRange on s *)
  | ErrInvalidHex (s : bytes) (e : goerror) (* invalid hex string %q: %w *)
  | ErrInvalidVersion (s : bytes) (e : goerror) (* invalid version format %q: %w *)
  | Errorf (msg : bytes)
  | Wrapf (msg : bytes) (e : goerror)       (* fmt.Errorf with a trailing %w *)
  | ErrServiceExists | ErrUnauthorized | ErrAuthFailed
  | ErrPrematurePacket | ErrLateTransport.  (* tcpusb/errors.go *)

#[global] Instance goerror_eq_dec : EqDecision goerror.
Proof. solve_decision. Defined.

(** [_, ok := err.(net.Error)] *)
Definition is_net_error (e : goerror) : bool :=
  match e with NetError _ => true | _ => false end.

(** What a call produces: a value, a non-nil error, a run-time panic, or no
    result within the fuel given to a loop. *)
Inductive outcome (A : Type) :=
  | Ok (a : A)
  | Err (e : goerror)
  | Panic
  | OutOfFuel.
Arguments Ok {A} a.
Arguments Err {A} e.
Arguments Panic {A}.
Arguments OutOfFuel {A}.

(** The call came back, with a value or an error. *)
Definition returns {A} (o : outcome A) : Prop := match o with Ok _ | Err _ => True | _ => False end.

#[global] Instance outcome_eq_dec `{EqDecision A} : EqDecision (outcome A).
Proof. solve_decision. Defined.

#[global] Instance Ok_inj A : Inj (=) (=) (@Ok A).
Proof. by intros x y [=]. Qed.

#[global] Instance outcome_ret : MRet outcome := fun _ a => Ok a.
#[global] Instance outcome_bind : MBind outcome := fun _ _ f m =>
  match m with Ok a => f a | Err e => Err e | Panic => Panic | OutOfFuel => OutOfFuel end.

#[global] Instance outcome_fmap : FMap outcome := fun _ _ f m =>
  match m with Ok a => Ok (f a) | Err e => Err e | Panic => Panic | OutOfFuel => OutOfFuel end.

(** Computations over a mutable state [S]. *)
Definition io (S A : Type) : Type := S -> outcome A * S.

Section io.
Context {S : Type}.

#[global] Instance io_ret : MRet (io S) := fun _ a s => (Ok a, s).
#[global] Instance io_bind : MBind (io S) := fun _ _ f m s =>
  match m s with
  | (Ok a, s') => f a s'
  | (Err e, s') => (Err e, s')
  | (Panic, s') => (Panic, s')
  | (OutOfFuel, s') => (OutOfFuel, s')
  end.

(** [return ..., err] *)
Definition fail {A} (e : goerror) : io S A := fun s => (Err e, s).
Definition gopanic {A} : io S A := fun s => (Panic, s).
Definition out_of_fuel {A} : io S A := fun s => (OutOfFuel, s).

(** A pure result inside a computation. *)
Definition of_outcome {A} (o : outcome A) : io S A := fun s => (o, s).

(** [v, err := m]: the error becomes a value, panics still propagate. *)
Definition attempt {A} (m : io S A) : io S (A + goerror) := fun s =>
  match m s with
  | (Ok a, s') => (Ok (inl a), s')
  | (Err e, s') => (Ok (inr e), s')
  | (Panic, s') => (Panic, s')
  | (OutOfFuel, s') => (OutOfFuel, s')
  end.

(** [if err != nil { cleanup; return err }] around [m]. *)
Definition on_error {A} (m : io S A) (cleanup : io S unit) : io S A := fun s =>
  match m s with
  | (Err e, s') => (Err e, (cleanup s').2)
  | r => r
  end.

(** [defer d] followed by [m]: [d] runs on every exit and its result is dropped. *)
Definition defer {A B} (d : io S B) (m : io S A) : io S A := fun s =>
  match m s with
  | (OutOfFuel, s') => (OutOfFuel, s')
  | (o, s') => (o, (d s').2)
  end.

Lemma io_bind_Ok {A B} (m : io S A) (f : A -> io S B) s a s' :
  m s = (Ok a, s') -> (m ≫= f) s = f a s'.
Proof. intros H. unfold mbind, io_bind. by rewrite H. Qed.

Lemma io_bind_Err {A B} (m : io S A) (f : A -> io S B) s e s' :
  m s = (Err e, s') -> (m ≫= f) s = (Err e, s').
Proof. intros H. unfold mbind, io_bind. by rewrite H. Qed.

Lemma attempt_Ok {A} (m : io S A) s a s' :
  m s = (Ok a, s') -> attempt m s = (Ok (inl a), s').
Proof. intros H. unfold attempt. by rewrite H. Qed.

Lemma attempt_Err {A} (m : io S A) s e s' :
  m s = (Err e, s') -> attempt m s = (Ok (inr e), s').
Proof. intros H. unfold attempt. by rewrite H. Qed.

Lemma on_error_Ok {A} (m : io S A) c s a s' :
  m s = (Ok a, s') -> on_error m c s = (Ok a, s').
Proof. intros H. unfold on_error. by rewrite H. Qed.

Lemma on_error_Err {A} (m : io S A) c s e s' :
  m s = (Err e, s') -> on_error m c s = (Err e, (c s').2).
Proof. intros H. unfold on_error. by rewrite H. Qed.
End io.

(** Rewrite one step of a computation with a lemma about its head. *)
Tactic Notation "step_ok" uconstr(H) := rewrite (io_bind_Ok _ _ _ _ _ H).
Tactic Notation "step_err" uconstr(H) := rewrite (io_bind_Err _ _ _ _ _ H).

(** Read off the result of a computation that has returned. *)
Ltac ret_inv E := unfold mret, io_ret, fail, gopanic, out_of_fuel in E; simplify_eq.

(** Hints shared by the components. *)
Create HintDb adb.
#[export] Hint Resolve byte_to_Z_range Uint32_range PutUint32_length : adb.
Create Rewrite HintDb adb.
#[export] Hint Rewrite @length_app @length_take @length_drop PutUint32_length : adb.
