(* ===== verification/GoStrings.v ===== *)
(** * The parts of Go's [strings], [strconv] and [fmt] packages the sources use

    Go strings are byte sequences. White space is Unicode white space in its
    UTF-8 encoding, as [strings.TrimSpace] and [strings.Fields] define it. *)

From stdpp Require Import base list numbers.
From Stdlib Require Import ZArith Lia.
From S2P Require Import Prelude.

Local Open Scope Z_scope.

(** ** Prefixes and substrings *)

(** [strings.HasPrefix] *)
Fixpoint HasPrefix (s prefix : bytes) : bool :=
  match prefix, s with
  | [], _ => true
  | p :: ps, c :: cs => bool_decide (c = p) && HasPrefix cs ps
  | _ :: _, [] => false
  end.

(** [strings.HasSuffix] *)
Definition HasSuffix (s suffix : bytes) : bool := HasPrefix (reverse s) (reverse suffix).

(** [strings.TrimPrefix] *)
Definition TrimPrefix (s prefix : bytes) : bytes :=
  if HasPrefix s prefix then drop (length prefix) s else s.

(** [strings.Index], [None] for -1. *)
Fixpoint Index (s sep : bytes) : option nat :=
  if HasPrefix s sep then Some 0%nat
  else match s with
       | [] => None
       | _ :: s' => S <$> Index s' sep
       end.

(** [strings.Contains] *)
Definition Contains (s sep : bytes) : bool := bool_decide (is_Some (Index s sep)).

(** ** White space *)

(** The number of bytes of the white-space rune a string starts with, 0 if
    it does not start with one ([unicode.IsSpace] on the decoded rune). *)
Definition space_at (s : bytes) : nat :=
  match s with
  | ("009" | "010" | "011" | "012" | "013" | " ")%byte :: _ => 1
  | "194"%byte :: ("133" | "160")%byte :: _ => 2
  | "225"%byte :: "154"%byte :: "128"%byte :: _ => 3
  | "226"%byte :: "128"%byte ::
      ("128" | "129" | "130" | "131" | "132" | "133" | "134" | "135" | "136"
       | "137" | "138" | "168" | "169" | "175")%byte :: _ => 3
  | "226"%byte :: "129"%byte :: "159"%byte :: _ => 3
  | "227"%byte :: "128"%byte :: "128"%byte :: _ => 3
  | _ => 0
  end.

(** The same at the end of a string, which is given reversed. *)
Definition space_before (r : bytes) : nat :=
  match r with
  | ("009" | "010" | "011" | "012" | "013" | " ")%byte :: _ => 1
  | ("133" | "160")%byte :: "194"%byte :: _ => 2
  | "128"%byte :: "154"%byte :: "225"%byte :: _ => 3
  | ("128" | "129" | "130" | "131" | "132" | "133" | "134" | "135" | "136"
     | "137" | "138" | "168" | "169" | "175")%byte :: "128"%byte :: "226"%byte :: _ => 3
  | "159"%byte :: "129"%byte :: "226"%byte :: _ => 3
  | "128"%byte :: "128"%byte :: "227"%byte :: _ => 3
  | _ => 0
  end.

(** Drop runes from the front while [sp] measures one there; [skip] is what is
    left of the rune being dropped. *)
Fixpoint trim_front (sp : bytes -> nat) (skip : nat) (s : bytes) : bytes :=
  match s with
  | [] => []
  | _ :: cs =>
      match skip with
      | S k => trim_front sp k cs
      | O => match sp s with O => s | S k => trim_front sp k cs end
      end
  end.

(** [strings.TrimSpace] *)
Definition TrimSpace (s : bytes) : bytes :=
  reverse (trim_front space_before 0 (reverse (trim_front space_at 0 s))).

Definition char_at (c : byte) (s : bytes) : nat :=
  match s with d :: _ => if bool_decide (d = c) then 1 else 0 | [] => 0 end.

(** [strings.Trim] with a one-byte cut set. *)
Definition TrimByte (c : byte) (s : bytes) : bytes :=
  reverse (trim_front (char_at c) 0 (reverse (trim_front (char_at c) 0 s))).

(** ** Splitting and joining *)

(** [strings.Split] with a one-byte separator. *)
Fixpoint Split (s : bytes) (c : byte) : list bytes :=
  match s with
  | [] => [[]]
  | d :: s' =>
      if bool_decide (d = c) then [] :: Split s' c
      else match Split s' c with
           | [] => [[d]]
           | p :: ps => (d :: p) :: ps
           end
  end.

(** [strings.SplitN(s, sep, 2)] with a one-byte separator that occurs in [s]:
    the parts before and after its first occurrence. *)
Fixpoint cut (s : bytes) (c : byte) : option (bytes * bytes) :=
  match s with
  | [] => None
  | d :: s' =>
      if bool_decide (d = c) then Some ([], s')
      else '(a, b) ← cut s' c; Some (d :: a, b)
  end.

(** Scan for [strings.Fields]: [cur] is the field being read, reversed. *)
Fixpoint fields_from (skip : nat) (cur s : bytes) : list bytes :=
  match s with
  | [] => match cur with [] => [] | _ => [reverse cur] end
  | c :: s' =>
      match skip with
      | S k => fields_from k cur s'
      | O =>
          match space_at s with
          | O => fields_from 0 (c :: cur) s'
          | S k => match cur with
                   | [] => fields_from k [] s'
                   | _ => reverse cur :: fields_from k [] s'
                   end
          end
      end
  end.

(** [strings.Fields] *)
Definition Fields (s : bytes) : list bytes := fields_from 0 [] s.

(** [strings.Join] *)
Fixpoint Join (l : list bytes) (sep : bytes) : bytes :=
  match l with
  | [] => []
  | [x] => x
  | x :: l' => x ++ sep ++ Join l' sep
  end.

(** ** Numbers *)

Definition digit_val (c : byte) : option Z :=
  let z := byte_to_Z c in
  if (48 <=? z) && (z <=? 57) then Some (z - 48)
  else if (97 <=? z) && (z <=? 122) then Some (z - 87)
  else if (65 <=? z) && (z <=? 90) then Some (z - 55)
  else None.

(** The digit loop of [strconv.ParseUint] with 64 bits. *)
Fixpoint parse_digits (base : Z) (s0 s : bytes) (n : Z) : outcome Z :=
  match s with
  | [] => Ok n
  | c :: s' =>
      match digit_val c with
      | None => Err (NumSyntax s0)
      | Some d =>
          if base <=? d then Err (NumSyntax s0)
          else if 2 ^ 64 <=? n * base + d then Err (NumRange s0)
          else parse_digits base s0 s' (n * base + d)
      end
  end.

Definition ParseUint (base : Z) (s0 s : bytes) : outcome Z :=
  match s with [] => Err (NumSyntax s0) | _ => parse_digits base s0 s 0 end.

(** [strconv.ParseInt(s, base, 64)] for a base other than 0; [strconv.Atoi] is base 10. *)
Definition ParseInt (s : bytes) (base : Z) : outcome Z :=
  match s with
  | "+"%byte :: s' => un ← ParseUint base s s';
      if 2 ^ 63 <=? un then Err (NumRange s) else Ok un
  | "-"%byte :: s' => un ← ParseUint base s s';
      if 2 ^ 63 <? un then Err (NumRange s) else Ok (- un)
  | _ => un ← ParseUint base s s;
      if 2 ^ 63 <=? un then Err (NumRange s) else Ok un
  end.

Definition Atoi (s : bytes) : outcome Z := ParseInt s 10.

Definition digit_char (d : Z) : byte := byte_of_Z (if d <? 10 then 48 + d else 87 + d).

(** The digits of [n >= 0], most significant first, in front of [acc]. *)
Fixpoint digits_acc (base : Z) (fuel : nat) (n : Z) (acc : bytes) : bytes :=
  match fuel with
  | O => acc
  | S k =>
      let acc' := digit_char (n mod base) :: acc in
      if n / base =? 0 then acc' else digits_acc base k (n / base) acc'
  end.

Definition format_uint (base n : Z) : bytes :=
  digits_acc base (S (Z.to_nat (Z.log2 n))) n [].

(** [%d] *)
Definition fmt_d (n : Z) : bytes :=
  if n <? 0 then "-"%byte :: format_uint 10 (- n) else format_uint 10 n.

(** [%04x] and [%08x] of a non-negative number *)
Definition fmt_x (width : nat) (n : Z) : bytes :=
  let ds := format_uint 16 n in replicate (width - length ds) "0"%byte ++ ds.

(** ** Lemmas: numbers *)

Lemma digit_val_char d : 0 <= d < 16 -> digit_val (digit_char d) = Some d.
Proof.
  intros Hd. unfold digit_val, digit_char. rewrite byte_to_of_Z.
  destruct (Z.ltb_spec d 10); rewrite Z.mod_small by lia.
  - destruct (Z.leb_spec 48 (48 + d)), (Z.leb_spec (48 + d) 57); simpl; try lia.
    f_equal; lia.
  - destruct (Z.leb_spec 48 (87 + d)), (Z.leb_spec (87 + d) 57); simpl; try lia.
    destruct (Z.leb_spec 97 (87 + d)), (Z.leb_spec (87 + d) 122); simpl; try lia.
    f_equal; lia.
Qed.

Lemma parse_digits_digits base s0 fuel n acc :
  2 <= base <= 16 -> 0 <= n < 2 ^ Z.of_nat fuel -> n < 2 ^ 64 ->
  parse_digits base s0 (digits_acc base fuel n acc) 0 = parse_digits base s0 acc n.
Proof.
  intros Hb. revert n acc. induction fuel as [|k IH]; intros n acc Hn H64.
  { simpl. f_equal. change (2 ^ Z.of_nat 0) with 1 in Hn. lia. }
  rewrite Nat2Z.inj_succ, Z.pow_succ_r in Hn by lia.
  pose proof (Z.mod_pos_bound n base ltac:(lia)) as Hm.
  pose proof (Z.div_mod n base ltac:(lia)) as Hdm.
  pose proof (Z.div_pos n base ltac:(lia) ltac:(lia)) as Hq.
  assert (Hstep : forall a, n = a * base + n mod base ->
    parse_digits base s0 (digit_char (n mod base) :: acc) a = parse_digits base s0 acc n).
  { intros a Ha. cbn [parse_digits]. rewrite digit_val_char by lia.
    rewrite <- Ha, (proj2 (Z.leb_gt _ _)) by lia.
    by rewrite (proj2 (Z.leb_gt _ _)) by lia. }
  cbn [digits_acc]. destruct (Z.eqb_spec (n / base) 0) as [E|E].
  - apply Hstep. lia.
  - rewrite IH; [apply Hstep; lia | | nia].
    split; [done|]. apply Z.div_lt_upper_bound; [lia|]. nia.
Qed.

Lemma parse_digits_zeros base s0 k s :
  1 <= base -> parse_digits base s0 (replicate k "0"%byte ++ s) 0 = parse_digits base s0 s 0.
Proof.
  intros Hb. induction k as [|k IH]; [done|].
  cbn [replicate app parse_digits]. rewrite <- IH at 1.
  change (digit_val "0"%byte) with (Some 0).
  cbv beta iota. by rewrite (proj2 (Z.leb_gt base 0)) by lia.
Qed.

Lemma log2_fuel n : 0 <= n -> n < 2 ^ Z.of_nat (S (Z.to_nat (Z.log2 n))).
Proof.
  intros Hn. pose proof (Z.log2_nonneg n).
  rewrite Nat2Z.inj_succ, Z2Nat.id by done.
  destruct (decide (n = 0)) as [->|]; [done|]. apply Z.log2_spec. lia.
Qed.

Lemma digits_acc_head base fuel n acc :
  2 <= base <= 16 -> 0 <= n -> (fuel <> 0)%nat ->
  exists d r, 0 <= d < 16 /\ digits_acc base fuel n acc = digit_char d :: r.
Proof.
  intros Hb. revert n acc. induction fuel as [|[|k] IH]; intros n acc Hn Hf; [done| |].
  - pose proof (Z.mod_pos_bound n base ltac:(lia)). cbn [digits_acc].
    case_match; eexists _, _; (split; [|done]); lia.
  - pose proof (Z.mod_pos_bound n base ltac:(lia)).
    pose proof (Z.div_pos n base ltac:(lia) ltac:(lia)).
    cbn [digits_acc]. destruct (n / base =? 0).
    + eexists _, _. split; [|done]. lia.
    + apply (IH (n / base) (digit_char (n mod base) :: acc)); lia.
Qed.

Lemma digits_acc_length base fuel n acc j :
  2 <= base -> 0 <= n < base ^ Z.of_nat j -> (1 <= j)%nat ->
  (length (digits_acc base fuel n acc) <= j + length acc)%nat.
Proof.
  intros Hb. revert fuel n acc. induction j as [|[|j] IH]; intros fuel n acc Hn Hj; [lia| |].
  - change (Z.of_nat 1) with 1 in Hn. rewrite Z.pow_1_r in Hn.
    destruct fuel; simpl; [lia|]. rewrite Z.div_small by lia. simpl. lia.
  - destruct fuel as [|k]; [simpl; lia|]. cbn [digits_acc].
    destruct (n / base =? 0); [simpl; lia|].
    rewrite Nat2Z.inj_succ, Z.pow_succ_r in Hn by lia.
    pose proof (IH k (n / base) (digit_char (n mod base) :: acc)) as IH'.
    cbn [length] in IH'. enough (0 <= n / base < base ^ Z.of_nat (S j)) by lia.
    split; [apply Z.div_pos; lia|]. apply Z.div_lt_upper_bound; lia.
Qed.

Lemma ParseInt_digit base d r :
  0 <= d < 16 ->
  ParseInt (digit_char d :: r) base =
    (un ← ParseUint base (digit_char d :: r) (digit_char d :: r);
     if 2 ^ 63 <=? un then Err (NumRange (digit_char d :: r)) else Ok un).
Proof.
  intros Hd. assert (Hc : digit_char d <> "+"%byte /\ digit_char d <> "-"%byte).
  { split; intros E; pose proof (digit_val_char d Hd) as Hv; by rewrite E in Hv. }
  unfold ParseInt. destruct (digit_char d); try done; by destruct Hc.
Qed.

(** Parsing padded hexadecimal output gives the number back. *)
Lemma ParseInt_fmt_x w n : 0 <= n < 2 ^ 63 -> ParseInt (fmt_x w n) 16 = Ok n.
Proof.
  intros Hn. set (s := fmt_x w n).
  assert (Hp : parse_digits 16 s s 0 = Ok n).
  { unfold s at 2, fmt_x, format_uint. rewrite parse_digits_zeros by lia.
    rewrite parse_digits_digits; [done | lia | | lia].
    pose proof (log2_fuel n ltac:(lia)). lia. }
  assert (Hh : exists d r, 0 <= d < 16 /\ s = digit_char d :: r).
  { unfold s, fmt_x, format_uint.
    destruct (digits_acc_head 16 (S (Z.to_nat (Z.log2 n))) n []) as (d & r & Hd & E);
      [lia | lia | lia |]. rewrite E. destruct (w - _)%nat.
    - by exists d, r.
    - exists 0. eexists. split; [lia|]. done. }
  destruct Hh as (d & r & Hd & Hs). rewrite Hs in Hp |- *.
  rewrite ParseInt_digit by done. unfold ParseUint. rewrite Hp.
  cbn. by rewrite (proj2 (Z.leb_gt _ _)) by lia.
Qed.

Lemma Atoi_format_uint n : 0 <= n < 2 ^ 63 -> Atoi (format_uint 10 n) = Ok n.
Proof.
  intros Hn. unfold Atoi, format_uint. pose proof (log2_fuel n ltac:(lia)) as Hl.
  destruct (digits_acc_head 10 (S (Z.to_nat (Z.log2 n))) n []) as (d & r & Hd & E);
    [lia | lia | lia |].
  pose proof (fun s0 => parse_digits_digits 10 s0 (S (Z.to_nat (Z.log2 n))) n []
                ltac:(lia) ltac:(lia) ltac:(lia)) as Hp.
  rewrite E in Hp |- *. rewrite ParseInt_digit by done.
  unfold ParseUint. rewrite Hp. cbn. by rewrite (proj2 (Z.leb_gt _ _)) by lia.
Qed.

(** [strconv.Atoi] inverts [%d] on the whole [int] range. *)
Lemma Atoi_fmt_d n : - 2 ^ 63 <= n < 2 ^ 63 -> Atoi (fmt_d n) = Ok n.
Proof.
  intros Hn. unfold fmt_d. destruct (Z.ltb_spec n 0); [|apply Atoi_format_uint; lia].
  unfold Atoi. cbn [ParseInt]. set (s := _ :: _).
  assert (E : ParseUint 10 s (format_uint 10 (- n)) = Ok (- n)).
  { unfold ParseUint, format_uint.
    pose proof (log2_fuel (- n) ltac:(lia)) as Hl.
    destruct (digits_acc_head 10 (S (Z.to_nat (Z.log2 (- n)))) (- n) [])
      as (d & r & Hd & E); [lia | lia | lia |].
    rewrite E, <- E. by rewrite parse_digits_digits by lia. }
  rewrite E. cbn. rewrite (proj2 (Z.ltb_ge _ _)) by lia. f_equal. lia.
Qed.

(** Padded hexadecimal of a 16-bit number is exactly four digits. *)
Lemma fmt_x_length n : 0 <= n < 65536 -> length (fmt_x 4 n) = 4%nat.
Proof.
  intros Hn. unfold fmt_x. rewrite length_app, length_replicate.
  pose proof (digits_acc_length 16 (S (Z.to_nat (Z.log2 n))) n [] 4) as Hl.
  unfold format_uint. change (16 ^ Z.of_nat 4) with 65536 in Hl. simpl (length []) in Hl. lia.
Qed.

(** ** Lemmas: substrings *)

Lemma HasPrefix_spec s p : HasPrefix s p = true <-> exists r, s = p ++ r.
Proof.
  revert s. induction p as [|c p IH]; intros s.
  - split; [by exists s | by destruct s].
  - destruct s as [|d s]; [split; [done | by intros [r ?]]|]. cbn [HasPrefix].
    rewrite andb_true_iff, bool_decide_eq_true, IH. split.
    + intros [-> [r ->]]. by exists r.
    + intros [r E]. simplify_eq/=. eauto.
Qed.

Lemma HasPrefix_app p r : HasPrefix (p ++ r) p = true.
Proof. apply HasPrefix_spec. by exists r. Qed.

Lemma HasSuffix_spec s p : HasSuffix s p = true <-> exists r, s = r ++ p.
Proof.
  unfold HasSuffix. rewrite HasPrefix_spec. split.
  - intros [r E]. exists (reverse r).
    by rewrite <- (reverse_involutive s), E, reverse_app, reverse_involutive.
  - intros [r ->]. exists (reverse r). by rewrite reverse_app.
Qed.

Lemma Index_Some s sep i :
  Index s sep = Some i -> exists b, s = take i s ++ sep ++ b /\ (i <= length s)%nat.
Proof.
  revert i. induction s as [|c s IH]; intros i; cbn [Index].
  - destruct (HasPrefix [] sep) eqn:E; [|done]. intros [= <-].
    apply HasPrefix_spec in E as [b E]. exists b. simpl. auto with lia.
  - destruct (HasPrefix (c :: s) sep) eqn:E.
    + intros [= <-]. apply HasPrefix_spec in E as [b E]. exists b. simpl. auto with lia.
    + rewrite fmap_Some. intros (j & Hj & ->). destruct (IH j Hj) as (b & Hb & Hl).
      exists b. simpl. split; [by f_equal | lia].
Qed.

Lemma Index_None s sep : Index s sep = None -> forall a b, s <> a ++ sep ++ b.
Proof.
  induction s as [|c s IH]; cbn [Index]; intros H a b E.
  - by destruct a, sep.
  - destruct (HasPrefix (c :: s) sep) eqn:Hp; [done|].
    destruct a as [|d a]; simpl in E.
    + rewrite E, HasPrefix_app in Hp. done.
    + simplify_eq. apply fmap_None in H. by apply (IH H a b).
Qed.

(** [strings.Contains] decides the substring relation. *)
Lemma Contains_spec s sep : Contains s sep = true <-> exists a b, s = a ++ sep ++ b.
Proof.
  unfold Contains. rewrite bool_decide_eq_true. split.
  - intros [i Hi]. apply Index_Some in Hi as (b & Hb & _). eauto.
  - intros (a & b & E). destruct (Index s sep) eqn:Hi; [by eexists|].
    by destruct (Index_None _ _ Hi a b).
Qed.

(** ** Lemmas: splitting *)

Lemma Split_nonempty s c : Split s c <> [].
Proof. induction s; simpl; [done|]. case_bool_decide; [done|]. by case_match. Qed.

Lemma Join_Split s c : Join (Split s c) [c] = s.
Proof.
  induction s as [|d s IH]; simpl; [done|].
  pose proof (Split_nonempty s c) as Hne.
  case_bool_decide; subst.
  - destruct (Split s c); [done|]. simpl. by rewrite <- IH.
  - destruct (Split s c) as [|p [|q ps]]; [done| |]; simpl in *; by rewrite IH.
Qed.

Lemma Split_app_no_sep p s c :
  c ∉ p -> Split (p ++ c :: s) c = p :: Split s c.
Proof.
  intros Hp. induction p as [|d p IH]; simpl.
  - by rewrite bool_decide_true.
  - apply not_elem_of_cons in Hp as [Hd Hp].
    rewrite bool_decide_false by congruence. by rewrite IH.
Qed.

Lemma Split_no_sep p c : c ∉ p -> Split p c = [p].
Proof.
  intros Hp. induction p as [|d p IH]; simpl; [done|].
  apply not_elem_of_cons in Hp as [Hd Hp].
  rewrite bool_decide_false by congruence. by rewrite IH.
Qed.

Lemma Split_Join l c :
  l <> [] -> Forall (fun p => c ∉ p) l -> Split (Join l [c]) c = l.
Proof.
  intros Hne Hl. induction Hl as [|p [|q l] Hp Hl IH]; [done| |].
  - by apply Split_no_sep.
  - change (Join (p :: q :: l) [c]) with (p ++ c :: Join (q :: l) [c]).
    rewrite Split_app_no_sep by done. by rewrite IH.
Qed.

Lemma cut_Some s c a b : cut s c = Some (a, b) <-> s = a ++ c :: b /\ c ∉ a.
Proof.
  revert a. induction s as [|d s IH]; intros a; cbn [cut].
  { split; [done|]. intros [E _]. by destruct a. }
  case_bool_decide as Hd.
  - split.
    + intros [= <- <-]. subst. split; [done | apply not_elem_of_nil].
    + intros [E Ha]. destruct a as [|e a]; simplify_eq/=; [done|].
      by apply not_elem_of_cons in Ha as [? _].
  - rewrite bind_Some. split.
    + intros ([a' b'] & Hc & [= <- <-]). apply IH in Hc as [-> Ha].
      split; [done|]. apply not_elem_of_cons. split; [congruence | done].
    + intros [E Ha]. destruct a as [|e a]; simplify_eq/=.
      apply not_elem_of_cons in Ha as [_ Ha]. exists (a, b).
      split; [by apply IH | done].
Qed.

Lemma cut_None s c : cut s c = None <-> c ∉ s.
Proof.
  induction s as [|d s IH]; cbn [cut]; [split; [intros _; apply not_elem_of_nil | done]|].
  rewrite not_elem_of_cons. case_bool_decide as Hd; [split; [done | by intros [? _]]|].
  rewrite bind_None, IH. split.
  - intros [H|([a b] & _ & ?)]; [split; [congruence|done] | done].
  - intros [_ H]. by left.
Qed.

(** ** Lemmas: fields *)

(** Printable ASCII other than the space: the bytes of serials, states,
    addresses and package names. *)
Definition plain (c : byte) : bool := (33 <=? byte_to_Z c) && (byte_to_Z c <=? 126).

Definition is_word (w : bytes) : bool := bool_decide (w <> []) && forallb plain w.

Lemma plain_not_space c s : plain c = true -> space_at (c :: s) = 0%nat.
Proof. by destruct c. Qed.

Lemma plain_not_space_before c s : plain c = true -> space_before (c :: s) = 0%nat.
Proof. by destruct c. Qed.

Lemma fields_from_word w cur s :
  forallb plain w = true ->
  fields_from 0 cur (w ++ s) = fields_from 0 (reverse w ++ cur) s.
Proof.
  revert cur. induction w as [|c w IH]; intros cur H; [done|].
  cbn [forallb] in H. apply andb_true_iff in H as [Hc Hw].
  cbn [app fields_from]. rewrite plain_not_space by done.
  rewrite IH by done. by rewrite reverse_cons, <- app_assoc.
Qed.

Lemma Fields_word w : is_word w = true -> Fields w = [w].
Proof.
  unfold is_word. rewrite andb_true_iff, bool_decide_eq_true. intros [Hne Hp].
  unfold Fields. rewrite <- (app_nil_r w) at 1.
  rewrite fields_from_word by done. rewrite app_nil_r. cbn [fields_from].
  destruct (reverse w) eqn:E.
  - apply (f_equal reverse) in E. by rewrite reverse_involutive in E.
  - rewrite <- E. by rewrite reverse_involutive.
Qed.

(** A word followed by one ASCII white-space byte is the first field. *)
Lemma Fields_word_sep w c s :
  is_word w = true -> space_at [c] = 1%nat -> Fields (w ++ c :: s) = w :: Fields s.
Proof.
  unfold is_word. rewrite andb_true_iff, bool_decide_eq_true. intros [Hne Hp] Hc.
  assert (Hc' : space_at (c :: s) = 1%nat) by (by destruct c).
  unfold Fields. rewrite fields_from_word by done.
  rewrite app_nil_r. cbn [fields_from]. rewrite Hc'.
  destruct (reverse w) eqn:E.
  - apply (f_equal reverse) in E. by rewrite reverse_involutive in E.
  - rewrite <- E. by rewrite reverse_involutive.
Qed.

(** ** Lemmas: trimming *)

Lemma trim_front_plain c s : plain c = true -> trim_front space_at 0 (c :: s) = c :: s.
Proof. intros H. cbn [trim_front]. by rewrite plain_not_space. Qed.

Lemma trim_back_plain s d :
  plain d = true -> trim_front space_before 0 (reverse (s ++ [d])) = reverse (s ++ [d]).
Proof.
  intros H. rewrite reverse_snoc. cbn [trim_front]. by rewrite plain_not_space_before.
Qed.

(** A string that starts and ends with plain bytes is already trimmed, and
    stays the result when one newline follows it. *)
Lemma TrimSpace_plain c s d :
  plain c = true -> plain d = true -> TrimSpace (c :: s ++ [d]) = c :: s ++ [d].
Proof.
  intros Hc Hd. unfold TrimSpace. rewrite trim_front_plain by done.
  rewrite app_comm_cons, trim_back_plain by done. apply reverse_involutive.
Qed.

Lemma TrimSpace_word w : forallb plain w = true -> TrimSpace w = w.
Proof.
  intros Hw. destruct w as [|c w]; [done|].
  destruct (decide (w = [])) as [->|Hne].
  - cbn [forallb] in Hw. rewrite andb_true_r in Hw. unfold TrimSpace.
    rewrite trim_front_plain by done. change [c] with ([] ++ [c]).
    rewrite trim_back_plain by done. apply reverse_involutive.
  - destruct (exists_last Hne) as (w' & d & ->).
    cbn [forallb] in Hw. rewrite forallb_app in Hw. cbn [forallb] in Hw.
    rewrite !andb_true_iff in Hw. destruct Hw as (? & ? & ? & _).
    by apply TrimSpace_plain.
Qed.

Lemma TrimSpace_nil : TrimSpace [] = [].
Proof. done. Qed.

Lemma TrimSpace_newline c s d :
  plain c = true -> plain d = true ->
  TrimSpace ((c :: s ++ [d]) ++ ["010"%byte]) = c :: s ++ [d].
Proof.
  intros Hc Hd. unfold TrimSpace. cbn [app]. rewrite trim_front_plain by done.
  rewrite app_comm_cons, reverse_snoc. cbn [trim_front space_before].
  rewrite app_comm_cons, trim_back_plain by done. apply reverse_involutive.
Qed.
