(* ===== verification/GoNet.v ===== *)
(** * Network connections: [net.Conn] and the [io] helpers used on them

    A connection is the script of what the peer and the network will do: the
    chunks successive [Read]s deliver (or the errors they return), what
    successive [Write]s accept, and the bytes written so far.  Theorems
    quantify over the script, so they hold for every fragmentation of the
    stream.  A context that is cancelled while a call blocks closes the
    connection from another goroutine; that shows here as a [NetError] event. *)

From stdpp Require Import base list numbers.
From Stdlib Require Import ZArith Lia.
From S2P Require Import Prelude.

Inductive rd_event :=
  | RChunk (bs : bytes)    (* a Read returns at most these bytes; the rest stays *)
  | RErr (e : goerror).    (* a Read returns 0 and this error *)

Inductive wr_event :=
  | WAccept (n : nat)              (* a Write accepts at most n bytes, nil error *)
  | WFail (n : nat) (e : goerror). (* a Write accepts at most n bytes and fails *)

Record conn := mkConn {
  rd : list rd_event;        (* what further Reads return; EOF once exhausted *)
  wr_plan : list wr_event;   (* what further Writes do; full success once exhausted *)
  written : bytes;           (* everything the peer was sent *)
  conn_closed : bool
}.

Definition net_closed : goerror := NetError (str "use of closed network connection").

Definition set_rd (c : conn) (r : list rd_event) : conn :=
  mkConn r (wr_plan c) (written c) (conn_closed c).

(** [conn.Read(p)] with [len(p) = n]: the bytes stored in [p]. *)
Definition Read (n : nat) : io conn bytes := fun c =>
  if conn_closed c then (Err net_closed, c)
  else if decide (n = 0) then (Ok [], c)
  else match rd c with
       | [] => (Err EOF, c)
       | RErr e :: r => (Err e, set_rd c r)
       | RChunk bs :: r =>
           if decide (length bs <= n) then (Ok bs, set_rd c r)
           else (Ok (take n bs), set_rd c (RChunk (drop n bs) :: r))
       end.

(** [conn.Write(p)]: the number of bytes accepted and the error. *)
Definition WriteN (p : bytes) : io conn (nat * option goerror) := fun c =>
  if conn_closed c then (Ok (0, Some net_closed), c)
  else match wr_plan c with
       | [] => (Ok (length p, None), mkConn (rd c) [] (written c ++ p) false)
       | WAccept n :: w =>
           (Ok (Nat.min n (length p), None), mkConn (rd c) w (written c ++ take n p) false)
       | WFail n e :: w =>
           (Ok (Nat.min n (length p), Some e), mkConn (rd c) w (written c ++ take n p) false)
       end.

(** [if _, err := conn.Write(p); err != nil { return err }] *)
Definition Write (p : bytes) : io conn unit :=
  '(_, err) ← WriteN p;
  match err with None => mret tt | Some e => fail e end.

(** [conn.Close()] *)
Definition Close : io conn unit := fun c =>
  if conn_closed c then (Err net_closed, c)
  else (Ok tt, mkConn (rd c) (wr_plan c) (written c) true).

(** The loop of [io.ReadFull] over the events of an open connection; [acc] is
    what has been read and [n] what is missing. *)
Fixpoint read_full_events (n : nat) (acc : bytes) (evs : list rd_event)
  : outcome bytes * list rd_event :=
  if decide (n = 0) then (Ok acc, evs)
  else match evs with
       | [] => (Err (match acc with [] => EOF | _ => ErrUnexpectedEOF end), [])
       | RErr e :: r =>
           (Err (if bool_decide (e = EOF /\ acc <> []) then ErrUnexpectedEOF else e), r)
       | RChunk bs :: r =>
           if decide (length bs <= n) then read_full_events (n - length bs) (acc ++ bs) r
           else (Ok (acc ++ take n bs), RChunk (drop n bs) :: r)
       end.

(** [io.ReadFull(conn, buf)] with [len(buf) = n]. *)
Definition ReadFull (n : nat) : io conn bytes := fun c =>
  if decide (n = 0) then (Ok [], c)
  else if conn_closed c then (Err net_closed, c)
  else let '(o, r) := read_full_events n [] (rd c) in (o, set_rd c r).

(** [io.ReadAll(conn)]: the data read before EOF or an error, and the error. *)
Fixpoint read_all_events (evs : list rd_event) : bytes * option goerror * list rd_event :=
  match evs with
  | [] => ([], None, [])
  | RErr EOF :: r => ([], None, r)
  | RErr e :: r => ([], Some e, r)
  | RChunk bs :: r => let '(d, e, r') := read_all_events r in (bs ++ d, e, r')
  end.

Definition ReadAll : io conn (bytes * option goerror) := fun c =>
  if conn_closed c then (Ok ([], Some net_closed), c)
  else let '(d, e, r) := read_all_events (rd c) in (Ok (d, e), set_rd c r).

(** [data, err := io.ReadAll(conn)] where an error discards the data. *)
Definition ReadAllOrErr : io conn bytes :=
  '(d, err) ← ReadAll;
  match err with None => mret d | Some e => fail e end.

(** ** What the peer sends

    [feeds tl evs s]: the events deliver exactly the bytes [s], in whatever
    fragments, and then go on with [tl] ([tl = []]: the peer closes). *)
Inductive feeds (tl : list rd_event) : list rd_event -> bytes -> Prop :=
  | feeds_done : feeds tl tl []
  | feeds_chunk bs evs s : feeds tl evs s -> feeds tl (RChunk bs :: evs) (bs ++ s).

(** An open connection whose peer sends [s] and then behaves as [tl], and that
    accepts every write. *)
Definition conn_feeds (tl : list rd_event) (c : conn) (s : bytes) : Prop :=
  feeds tl (rd c) s /\ wr_plan c = [] /\ conn_closed c = false.

(** The number of bytes and events left to read: the measure of the loops that
    read until a terminator arrives. *)
Fixpoint events_size (evs : list rd_event) : nat :=
  match evs with
  | [] => 0
  | RChunk bs :: r => S (length bs) + events_size r
  | RErr _ :: r => S (events_size r)
  end.

Definition conn_size (c : conn) : nat := events_size (rd c).

(** ** Lemmas *)

Lemma feeds_single s tl : feeds tl (RChunk s :: tl) s.
Proof. rewrite <- (app_nil_r s) at 2. constructor. constructor. Qed.

Lemma feeds_app tl tl' evs s s' :
  feeds tl' evs s -> feeds tl tl' s' -> feeds tl evs (s ++ s').
Proof.
  induction 1; intros; [done|]. rewrite <- app_assoc. constructor. auto.
Qed.

Lemma read_full_feeds tl evs s n acc :
  feeds tl evs s -> n <= length s ->
  exists evs', read_full_events n acc evs = (Ok (acc ++ take n s), evs') /\
    feeds tl evs' (drop n s).
Proof.
  intros Hf. revert n acc. induction Hf as [|bs evs s Hf IH]; intros n acc Hn.
  - assert (n = 0) as -> by (simpl in Hn; lia).
    exists tl. rewrite app_nil_r. split; [by destruct tl | constructor].
  - cbn [read_full_events]. destruct (decide (n = 0)) as [->|Hn0].
    { exists (RChunk bs :: evs). rewrite take_0, app_nil_r, drop_0.
      split; [done | by constructor]. }
    rewrite length_app in Hn. destruct (decide (length bs <= n)) as [Hle|Hgt].
    + destruct (IH (n - length bs) (acc ++ bs)) as (evs' & E & Hf'); [lia|].
      exists evs'. rewrite E. rewrite take_app_ge, app_assoc, drop_app_ge by lia. done.
    + eexists. split; [by rewrite take_app_le by lia|].
      rewrite drop_app_le by lia. by constructor.
Qed.

(** [io.ReadFull] returns the next [n] bytes however they are fragmented. *)
Lemma ReadFull_feeds tl c s n :
  conn_feeds tl c s -> n <= length s ->
  exists c', ReadFull n c = (Ok (take n s), c') /\
    conn_feeds tl c' (drop n s) /\ written c' = written c.
Proof.
  intros (Hf & Hw & Hc) Hn. unfold ReadFull.
  destruct (decide (n = 0)) as [->|].
  { exists c. by rewrite take_0, drop_0. }
  rewrite Hc. destruct (read_full_feeds tl (rd c) s n []) as (evs' & -> & Hf'); [done..|].
  exists (set_rd c evs'). done.
Qed.

Lemma ReadFull_feeds_app tl c s s' n :
  conn_feeds tl c (s ++ s') -> length s = n ->
  exists c', ReadFull n c = (Ok s, c') /\ conn_feeds tl c' s' /\ written c' = written c.
Proof.
  intros Hf <-. destruct (ReadFull_feeds tl c (s ++ s') (length s)) as (c' & E & Hf' & Hw);
    [done | rewrite length_app; lia |].
  exists c'. rewrite take_app_length in E. rewrite drop_app_length in Hf'. done.
Qed.

Lemma read_full_short evs s n acc :
  feeds [] evs s -> length s < n ->
  read_full_events n acc evs =
    (Err (match acc ++ s with [] => EOF | _ => ErrUnexpectedEOF end), []).
Proof.
  intros Hf. revert n acc. induction Hf as [|bs evs s Hf IH]; intros n acc Hn.
  - cbn [read_full_events]. rewrite app_nil_r.
    destruct (decide (n = 0)); [simpl in Hn; lia | done].
  - rewrite length_app in Hn. cbn [read_full_events].
    destruct (decide (n = 0)); [lia|]. rewrite decide_True by lia.
    rewrite IH by lia. by rewrite app_assoc.
Qed.

(** [io.ReadFull] when the peer closes before the buffer is full: the connection
    is drained and the error says whether anything had arrived. *)
Lemma ReadFull_short c s n :
  conn_feeds [] c s -> length s < n ->
  ReadFull n c = (Err (match s with [] => EOF | _ => ErrUnexpectedEOF end), set_rd c []).
Proof.
  intros (Hf & _ & Hc) Hn. unfold ReadFull. rewrite decide_False by lia.
  by rewrite Hc, (read_full_short _ s n [] Hf Hn).
Qed.

Lemma feeds_read_all evs s : feeds [] evs s -> read_all_events evs = (s, None, []).
Proof. induction 1 as [|bs evs s Hf IH]; [done|]. simpl. by rewrite IH. Qed.

Lemma ReadAll_feeds c s :
  conn_feeds [] c s -> ReadAll c = (Ok (s, None), set_rd c []).
Proof.
  intros (Hf & _ & Hc). unfold ReadAll. by rewrite Hc, (feeds_read_all _ _ Hf).
Qed.

Lemma Write_feeds tl c s p :
  conn_feeds tl c s ->
  Write p c = (Ok tt, mkConn (rd c) [] (written c ++ p) false) /\
  conn_feeds tl (mkConn (rd c) [] (written c ++ p) false) s.
Proof.
  intros (Hf & Hw & Hc). unfold Write, mbind, io_bind, WriteN. by rewrite Hc, Hw.
Qed.

(** Reading never makes more input appear, and a non-empty [ReadFull] that
    succeeds consumes input. *)
Lemma read_full_size n acc evs o r :
  read_full_events n acc evs = (o, r) ->
  events_size r <= events_size evs /\
  (n <> 0 -> forall b, o = Ok b -> events_size r < events_size evs).
Proof.
  revert n acc. induction evs as [|[bs|e] evs IH]; intros n acc; cbn [read_full_events];
    destruct (decide (n = 0)) as [->|Hn]; try (intros [= <- <-]; simpl; by auto with lia).
  destruct (decide (length bs <= n)) as [Hle|Hgt].
  - intros E. specialize (IH _ _ E) as [IH _]. simpl. auto with lia.
  - intros [= <- <-]. simpl. rewrite length_drop. auto with lia.
Qed.

Lemma ReadFull_size n c o c' :
  ReadFull n c = (o, c') ->
  conn_size c' <= conn_size c /\
  (n <> 0 -> forall b, o = Ok b -> conn_size c' < conn_size c).
Proof.
  unfold ReadFull, conn_size. destruct (decide (n = 0)) as [->|].
  { intros [= <- <-]. naive_solver lia. }
  destruct (conn_closed c); [intros [= <- <-]; naive_solver lia|].
  destruct (read_full_events n [] (rd c)) as [o' r] eqn:E.
  intros [=]; subst. apply (read_full_size _ _ _ _ _ E).
Qed.

(** Every byte a [ReadFull] returns is taken off the input. *)
Lemma read_full_bytes n acc evs b r :
  read_full_events n acc evs = (Ok b, r) -> length b = length acc + n /\ n + events_size r <= events_size evs.
Proof.
  revert n acc. induction evs as [|[bs|e] evs IH]; intros n acc; cbn [read_full_events];
    destruct (decide (n = 0)) as [->|Hn]; try (intros [= <- <-]; simpl; by auto with lia); try done.
  destruct (decide (length bs <= n)) as [Hle|Hgt].
  - intros E. specialize (IH _ _ E) as [IH1 IH2]. rewrite length_app in IH1. simpl. lia.
  - intros [= <- <-]. simpl. rewrite length_app, length_take, length_drop. lia.
Qed.

Lemma ReadFull_bytes n c b c' :
  ReadFull n c = (Ok b, c') -> length b = n /\ n + conn_size c' <= conn_size c.
Proof.
  unfold ReadFull, conn_size. destruct (decide (n = 0)) as [->|]; [intros [= <- <-]; simpl; lia|].
  destruct (conn_closed c); [done|]. destruct (read_full_events n [] (rd c)) as [o r] eqn:E.
  intros [= -> <-]. apply read_full_bytes in E as [E1 E2]. done.
Qed.

(** One [Read] of a peer that is still sending: some of the pending bytes arrive. *)
Lemma Read_feeds tl c s n :
  conn_feeds tl c s -> n <> 0 ->
  (s = [] /\ rd c = tl) \/
  exists bs s' c', Read n c = (Ok bs, c') /\ s = bs ++ s' /\ conn_feeds tl c' s' /\
    conn_size c' < conn_size c /\ written c' = written c /\ length bs <= n.
Proof.
  intros (Hf & Hw & Hc) Hn. unfold Read, conn_size.
  destruct c as [r w ws cl]; simpl in *; subst.
  inversion Hf as [|bs evs s' Hf']; subst; [by left|right].
  rewrite decide_False by done. destruct (decide (length bs <= n)) as [Hle|Hgt].
  - exists bs, s'. eexists. split_and!; [done | done | done | simpl; lia | done | done].
  - exists (take n bs), (drop n bs ++ s'). eexists. split_and!; [done | | | | done | ].
    + by rewrite app_assoc, take_drop.
    + split_and!; [|done|done]. by constructor.
    + simpl. rewrite length_drop. lia.
    + rewrite length_take. lia.
Qed.

Lemma Read_size n c o c' :
  Read n c = (o, c') -> n <> 0 -> forall b, o = Ok b -> conn_size c' < conn_size c.
Proof.
  unfold Read, conn_size. intros E Hn b ->.
  destruct (conn_closed c); [done|]. rewrite decide_False in E by done.
  destruct (rd c) as [|[bs|e] r]; [done| |done].
  destruct (decide (length bs <= n)); simplify_eq; simpl; [lia|].
  rewrite length_drop. lia.
Qed.

Lemma Read_cases n c :
  (exists b c', Read n c = (Ok b, c')) \/ (exists e c', Read n c = (Err e, c')).
Proof.
  unfold Read. destruct (conn_closed c); [by eauto|]. destruct (decide (n = 0)); [by eauto|].
  destruct (rd c) as [|[bs|e] r]; [by eauto| |by eauto].
  destruct (decide (length bs <= n)); by eauto.
Qed.

(** Operations leave a closed connection as it is. *)
Definition keeps_closed {A} (m : io conn A) : Prop :=
  forall c r c', m c = (r, c') -> conn_closed c = true -> conn_closed c' = true.

Lemma Close_closes c r c' : Close c = (r, c') -> conn_closed c' = true.
Proof. unfold Close. destruct (conn_closed c) eqn:E; intros [= <- <-]; done. Qed.

Lemma Close_keeps : keeps_closed Close.
Proof. intros c r c' E _. by eapply Close_closes. Qed.

Lemma Read_closed n c : conn_closed c = true -> Read n c = (Err net_closed, c).
Proof. unfold Read. by intros ->. Qed.

Lemma Read_keeps n : keeps_closed (Read n).
Proof. intros c r c' E Hc. rewrite Read_closed in E by done. by simplify_eq. Qed.

Lemma Write_closed d c : conn_closed c = true -> Write d c = (Err net_closed, c).
Proof. unfold Write, mbind, io_bind, WriteN. by intros ->. Qed.

Lemma Write_keeps d : keeps_closed (Write d).
Proof. intros c r c' E Hc. rewrite Write_closed in E by done. by simplify_eq. Qed.

Lemma ReadFull_keeps n : keeps_closed (ReadFull n).
Proof.
  intros c r c' E Hc. unfold ReadFull in E. rewrite Hc in E.
  destruct (decide (n = 0)); by simplify_eq.
Qed.

#[export] Hint Resolve Close_keeps Read_keeps Write_keeps ReadFull_keeps : adb.

Lemma Read_length n c b c' : Read n c = (Ok b, c') -> length b <= n.
Proof.
  unfold Read. destruct (conn_closed c); [done|].
  destruct (decide (n = 0)); [by intros [= <- <-]; simpl; lia|].
  destruct (rd c) as [|[bs|e] r]; [done| |done].
  destruct (decide (length bs <= n)); intros E; simplify_eq; [done|].
  rewrite length_take. lia.
Qed.

Lemma Write_cases d c :
  (exists c', Write d c = (Ok tt, c')) \/ (exists e c', Write d c = (Err e, c')).
Proof.
  unfold Write, mbind, io_bind, WriteN. destruct (conn_closed c); [by eauto|].
  destruct (wr_plan c) as [|[n|n e] w]; by eauto.
Qed.

Lemma read_full_cases n acc evs :
  (exists b r, read_full_events n acc evs = (Ok b, r)) \/
  (exists e r, read_full_events n acc evs = (Err e, r)).
Proof.
  revert n acc. induction evs as [|[bs|e] evs IH]; intros n acc; cbn [read_full_events];
    destruct (decide (n = 0)); try by eauto.
  destruct (decide (length bs <= n)); [apply IH | by eauto].
Qed.

Lemma ReadFull_cases n c :
  (exists b c', ReadFull n c = (Ok b, c')) \/ (exists e c', ReadFull n c = (Err e, c')).
Proof.
  unfold ReadFull. destruct (decide (n = 0)); [by eauto|].
  destruct (conn_closed c); [by eauto|].
  destruct (read_full_cases n [] (rd c)) as [(b & r & ->)|(e & r & ->)]; by eauto.
Qed.

(** Reading and closing do not touch what was written. *)
Definition conn_log (c : conn) : list wr_event * bytes := (wr_plan c, written c).

Lemma Read_log n c r c' : Read n c = (r, c') -> conn_log c' = conn_log c.
Proof.
  unfold Read. destruct (conn_closed c); [by intros [= <- <-]|].
  destruct (decide (n = 0)); [by intros [= <- <-]|].
  destruct (rd c) as [|[bs|e] evs]; try by intros [= <- <-].
  destruct (decide (length bs <= n)); by intros [= <- <-].
Qed.

Lemma ReadFull_log n c r c' : ReadFull n c = (r, c') -> conn_log c' = conn_log c.
Proof.
  unfold ReadFull. destruct (decide (n = 0)); [by intros [= <- <-]|].
  destruct (conn_closed c); [by intros [= <- <-]|].
  destruct (read_full_events n [] (rd c)). by intros [= <- <-].
Qed.

(** On a connection without write faults, a write appends everything or fails
    without a trace. *)
Lemma Write_log d c r c' l :
  Write d c = (r, c') -> conn_log c = ([], l) ->
  (r = Ok tt /\ conn_log c' = ([], l ++ d)) \/ (r <> Ok tt /\ conn_log c' = ([], l)).
Proof.
  unfold Write, mbind, io_bind, WriteN, conn_log. intros E [= Hp <-].
  destruct (conn_closed c); [right | left].
  - ret_inv E. split; [done | by rewrite Hp].
  - rewrite Hp in E. ret_inv E. done.
Qed.

(** [reads m]: what [m] does depends only on the incoming side of the
    connection, and [m] changes nothing else. *)
Definition reads {A} (m : io conn A) : Prop :=
  forall r cl, exists o r', forall wp ws, m (mkConn r wp ws cl) = (o, mkConn r' wp ws cl).

Lemma reads_ret {A} (a : A) : reads (mret a).
Proof. intros r cl. by exists (Ok a), r. Qed.

Lemma reads_fail {A} e : reads (fail e : io conn A).
Proof. intros r cl. by exists (Err e), r. Qed.

Lemma reads_fuel {A} : reads (out_of_fuel : io conn A).
Proof. intros r cl. by exists OutOfFuel, r. Qed.

Lemma reads_panic {A} : reads (gopanic : io conn A).
Proof. intros r cl. by exists Panic, r. Qed.

Lemma reads_bind {A B} (m : io conn A) (f : A -> io conn B) :
  reads m -> (forall a, reads (f a)) -> reads (m ≫= f).
Proof.
  intros Hm Hf r cl. destruct (Hm r cl) as (o & r1 & E). destruct o as [a|e| |].
  2-4: (eexists _, _; intros wp ws; unfold mbind, io_bind; rewrite E; reflexivity).
  destruct (Hf a r1 cl) as (o2 & r2 & E2). exists o2, r2. intros wp ws.
  unfold mbind, io_bind. by rewrite E, E2.
Qed.

Lemma reads_attempt {A} (m : io conn A) : reads m -> reads (attempt m).
Proof.
  intros Hm r cl. destruct (Hm r cl) as (o & r1 & E).
  destruct o; eexists _, r1; intros wp ws; unfold attempt; rewrite E; reflexivity.
Qed.

Lemma Read_reads n : reads (Read n).
Proof.
  intros r cl. unfold Read. cbn [conn_closed rd]. destruct cl; [by eexists _, _|].
  destruct (decide (n = 0)); [by eexists _, _|]. destruct r as [|[bs|e] r]; [by eexists _, _| |by eexists _, _].
  destruct (decide (length bs <= n)); by eexists _, _.
Qed.

Lemma ReadFull_reads n : reads (ReadFull n).
Proof.
  intros r cl. unfold ReadFull. cbn [conn_closed rd]. destruct (decide (n = 0)); [by eexists _, _|].
  destruct cl; [by eexists _, _|]. destruct (read_full_events n [] r). by eexists _, _.
Qed.

Lemma reads_sized {A} (f : nat -> io conn A) : (forall n, reads (f n)) -> reads (fun c => f (conn_size c) c).
Proof. intros Hf r cl. exact (Hf (events_size r) r cl). Qed.

(** A reading operation leaves the outgoing side alone. *)
Lemma reads_inv {A} (m : io conn A) c o c' :
  reads m -> m c = (o, c') -> c' = mkConn (rd c') (wr_plan c) (written c) (conn_closed c).
Proof.
  intros Hm E. destruct c as [r wp ws cl]. destruct (Hm r cl) as (o' & r' & E').
  rewrite E' in E. by simplify_eq.
Qed.

#[export] Hint Resolve reads_ret reads_fail reads_fuel reads_panic reads_bind reads_attempt
  Read_reads ReadFull_reads reads_sized : adb.

(** Operations that only take from the input. *)
Definition shrinks {A} (m : io conn A) : Prop := forall c, conn_size (m c).2 <= conn_size c.

Lemma shrinks_ret {A} (a : A) : shrinks (mret a).
Proof. intros c. reflexivity. Qed.

Lemma shrinks_fail {A} e : shrinks (fail e : io conn A).
Proof. intros c. reflexivity. Qed.

Lemma shrinks_bind {A B} (m : io conn A) (f : A -> io conn B) :
  shrinks m -> (forall a, shrinks (f a)) -> shrinks (m ≫= f).
Proof.
  intros Hm Hf c. specialize (Hm c). unfold mbind, io_bind. destruct (m c) as [[a|e| |] c1]; simpl in *; try done.
  specialize (Hf a c1). lia.
Qed.

Lemma shrinks_attempt {A} (m : io conn A) : shrinks m -> shrinks (attempt m).
Proof. intros Hm c. specialize (Hm c). unfold attempt. by destruct (m c) as [[a|e| |] c1]. Qed.

Lemma ReadFull_shrinks n : shrinks (ReadFull n).
Proof. intros c. destruct (ReadFull n c) as [o c'] eqn:E. by apply ReadFull_size in E as [? _]. Qed.

#[export] Hint Resolve shrinks_ret shrinks_fail shrinks_bind shrinks_attempt ReadFull_shrinks : adb.
