(* ===== verification/Packet.v ===== *)
(** * ADB wire packets: tcpusb/packet.go

    The 24-byte little-endian header with its checksum and magic, assembling
    and verifying packets, and [Packet.String].  A Go slice that may be nil is
    an [option bytes]: [None] is nil. *)

From stdpp Require Import base list numbers.
From Stdlib Require Import ZArith Lia.
From S2P Require Import Prelude GoStrings.

Local Open Scope Z_scope.

Definition A_SYNC : Z := 0x434e5953.
Definition A_CNXN : Z := 0x4e584e43.
Definition A_OPEN : Z := 0x4e45504f.
Definition A_OKAY : Z := 0x59414b4f.
Definition A_CLSE : Z := 0x45534c43.
Definition A_WRTE : Z := 0x45545257.
Definition A_AUTH : Z := 0x48545541.

Record Packet := mkPacket {
  Command : Z;
  Arg0 : Z;
  Arg1 : Z;
  Length : Z;
  Check : Z;
  PMagic : Z;
  Data : option bytes
}.

#[global] Instance Packet_eq_dec : EqDecision Packet.
Proof. solve_decision. Defined.

(** The bytes of a possibly nil slice; [len] of nil is 0. *)
Definition data_bytes (d : option bytes) : bytes := default [] d.

(** The [uint32] accumulator of [Checksum] after reading [data]. *)
Fixpoint checksum_loop (sum : Z) (data : bytes) : Z :=
  match data with
  | [] => sum
  | b :: data' => checksum_loop (wrap32 (sum + byte_to_Z b)) data'
  end.

Definition Checksum (data : bytes) : Z := checksum_loop 0 data.

Definition Magic (command : Z) : Z := Z.lxor command 0xffffffff.

(** The six header words. *)
Definition header_bytes (command arg0 arg1 length check magic : Z) : bytes :=
  PutUint32 command ++ PutUint32 arg0 ++ PutUint32 arg1 ++
  PutUint32 length ++ PutUint32 check ++ PutUint32 magic.

(** [make([]byte, 24+length)] is computed in [uint32]; when the sum wraps, the
    header slices are out of range and the code panics. *)
Definition Assemble (command arg0 arg1 : Z) (data : option bytes) : outcome bytes :=
  let '(length, check) :=
    match data with
    | Some d => (wrap32 (zlen d), Checksum d)
    | None => (0, 0)
    end in
  let size := wrap32 (24 + length) in
  if size <? 24 then Panic
  else
    let header := header_bytes command arg0 arg1 length check (Magic command) in
    let room := Z.to_nat (size - 24) in
    let body := take room (data_bytes data) in
    Ok (header ++ body ++ replicate (room - List.length body) x00).

Definition Swap32 (n : Z) : Z :=
  Z.lor (Z.lor (Z.lor (Z.land (Z.shiftr n 24) 0xff)
                      (Z.land (Z.shiftr n 8) 0xff00))
               (Z.land (wrap32 (Z.shiftl n 8)) 0xff0000))
        (wrap32 (Z.shiftl n 24)).

Definition VerifyChecksum (p : Packet) : bool := Check p =? Checksum (data_bytes (Data p)).

Definition VerifyMagic (p : Packet) : bool := PMagic p =? Magic (Command p).

(** [Packet.String] *)
Definition Packet_String (p : Packet) : bytes :=
  let cmdType :=
    if Command p =? A_SYNC then str "SYNC"
    else if Command p =? A_CNXN then str "CNXN"
    else if Command p =? A_OPEN then str "OPEN"
    else if Command p =? A_OKAY then str "OKAY"
    else if Command p =? A_CLSE then str "CLSE"
    else if Command p =? A_WRTE then str "WRTE"
    else if Command p =? A_AUTH then str "AUTH"
    else str "UNKNOWN(0x" ++ fmt_x 8 (Command p) ++ str ")" in
  cmdType ++ str " arg0=" ++ fmt_d (Arg0 p) ++ str " arg1=" ++ fmt_d (Arg1 p)
    ++ str " length=" ++ fmt_d (Length p).

(** The packet a receiver reconstructs from the arguments of [Assemble]. *)
Definition sent_packet (command arg0 arg1 : Z) (data : option bytes) : Packet :=
  let d := data_bytes data in
  mkPacket command arg0 arg1 (zlen d) (Checksum d) (Magic command)
           (match d with [] => None | _ => Some d end).

(** The arguments of one call of [Assemble]: what the bridge sends. *)
Record OutPacket := mkOut {
  o_command : Z;
  o_arg0 : Z;
  o_arg1 : Z;
  o_data : option bytes
}.

#[global] Instance OutPacket_eq_dec : EqDecision OutPacket.
Proof. solve_decision. Defined.

Definition assemble_out (m : OutPacket) : outcome bytes :=
  Assemble (o_command m) (o_arg0 m) (o_arg1 m) (o_data m).

Definition sent_out (m : OutPacket) : Packet :=
  sent_packet (o_command m) (o_arg0 m) (o_arg1 m) (o_data m).

(** Field ranges, and a size at which the header length does not wrap. *)
Definition out_wf (m : OutPacket) : Prop :=
  is_u32 (o_command m) /\ is_u32 (o_arg0 m) /\ is_u32 (o_arg1 m) /\
  24 + zlen (data_bytes (o_data m)) < 2 ^ 32.

#[global] Instance out_wf_dec m : Decision (out_wf m).
Proof. unfold out_wf. apply _. Defined.

(** The bytes of a sequence of packets, when none of them panics. *)
Fixpoint wire (ms : list OutPacket) : outcome bytes :=
  match ms with
  | [] => Ok []
  | m :: ms' => b ← assemble_out m; bs ← wire ms'; Ok (b ++ bs)
  end.

(** ** Checksum *)

Definition byte_sum (data : bytes) : Z := foldr (fun b s => byte_to_Z b + s) 0 data.

Lemma checksum_loop_sum sum data :
  checksum_loop sum data mod 2 ^ 32 = (sum + byte_sum data) mod 2 ^ 32.
Proof.
  revert sum. induction data as [|b data IH]; intros sum; cbn [checksum_loop byte_sum foldr].
  - by rewrite Z.add_0_r.
  - rewrite IH. unfold wrap32. rewrite Zplus_mod_idemp_l. f_equal.
    unfold byte_sum. lia.
Qed.

Lemma checksum_loop_range sum data : is_u32 sum -> is_u32 (checksum_loop sum data).
Proof.
  revert sum. induction data as [|b data IH]; intros sum Hs; [done|].
  apply IH. unfold wrap32, is_u32. apply Z.mod_pos_bound. lia.
Qed.

Lemma Checksum_range data : is_u32 (Checksum data).
Proof. apply checksum_loop_range. unfold is_u32. lia. Qed.

(** The checksum is the sum of the bytes modulo 2^32. *)
Lemma Checksum_sum data : Checksum data = byte_sum data mod 2 ^ 32.
Proof.
  pose proof (Checksum_range data) as Hr. unfold is_u32 in Hr.
  rewrite <- (Z.mod_small (Checksum data) (2 ^ 32)) by done.
  apply (checksum_loop_sum 0).
Qed.

Lemma byte_sum_app a b : byte_sum (a ++ b) = byte_sum a + byte_sum b.
Proof. unfold byte_sum. induction a; simpl; lia. Qed.

(** ** Magic and byte swapping *)

Lemma Magic_range c : is_u32 c -> is_u32 (Magic c).
Proof.
  unfold is_u32, Magic. intros Hc. split.
  - apply Z.lxor_nonneg. lia.
  - destruct (decide (Z.lxor c 0xffffffff = 0)) as [->|]; [lia|].
    apply Z.log2_lt_pow2; [|].
    + pose proof (proj2 (Z.lxor_nonneg c 0xffffffff)). lia.
    + pose proof (Z.log2_lxor c 0xffffffff ltac:(lia) ltac:(lia)).
      pose proof (Z.log2_le_mono c 0xffffffff).
      change (Z.log2 0xffffffff) with 31 in *. lia.
Qed.

Lemma Magic_involutive c : Magic (Magic c) = c.
Proof. unfold Magic. by rewrite Z.lxor_assoc, Z.lxor_nilpotent, Z.lxor_0_r. Qed.

Lemma land_shifted_ones n k w :
  0 <= k -> 0 <= w ->
  Z.land n (Z.shiftl (Z.ones w) k) = Z.shiftl ((n / 2 ^ k) mod 2 ^ w) k.
Proof.
  intros Hk Hw. rewrite <- Z.land_ones, <- Z.shiftr_div_pow2 by done.
  apply Z.bits_inj'. intros i Hi.
  rewrite Z.land_spec, !Z.shiftl_spec, Z.land_spec by done.
  destruct (decide (i < k)).
  - rewrite !(Z.testbit_neg_r _ (i - k)) by lia. by rewrite andb_false_r.
  - rewrite Z.shiftr_spec by lia. by replace (i - k + k) with i by lia.
Qed.

(** [Swap32] reverses the four bytes. *)
Lemma Swap32_bytes n : is_u32 n -> Swap32 n = Uint32 (reverse (PutUint32 n)).
Proof.
  intros Hn. unfold is_u32 in Hn. unfold PutUint32.
  cbn [reverse rev_append]. change (reverse ?l) with (rev_append l []). cbn [rev_append].
  rewrite Uint32_sum, !byte_to_of_Z. unfold Swap32.
  change 0xff00 with (Z.shiftl (Z.ones 8) 8). change 0xff0000 with (Z.shiftl (Z.ones 8) 16).
  change 0xff with (Z.ones 8).
  rewrite !land_shifted_ones, Z.land_ones by lia. unfold wrap32.
  rewrite !Z.shiftr_div_pow2, !(Z.shiftl_mul_pow2 n) by lia.
  change (2 ^ 8) with 256. change (2 ^ 16) with 65536. change (2 ^ 24) with 16777216.
  change (2 ^ 32) with 4294967296.
  rewrite (lor_shiftl_add _ _ 8); [|lia|change (2 ^ 8) with 256; apply Z.mod_pos_bound; lia].
  rewrite (lor_shiftl_add _ _ 16);
    [|lia|change (2 ^ 8) with 256; change (2 ^ 16) with 65536; Z.div_mod_to_equations; lia].
  replace ((n * 16777216) mod 4294967296) with (Z.shiftl (n mod 256) 24)
    by (rewrite Z.shiftl_mul_pow2 by lia; change (2 ^ 24) with 16777216;
        Z.div_mod_to_equations; lia).
  rewrite (lor_shiftl_add _ _ 24);
    [|lia|change (2 ^ 8) with 256; change (2 ^ 16) with 65536; change (2 ^ 24) with 16777216;
          Z.div_mod_to_equations; lia].
  change (2 ^ 8) with 256. change (2 ^ 16) with 65536. change (2 ^ 24) with 16777216.
  Z.div_mod_to_equations; lia.
Qed.

Lemma Swap32_range n : is_u32 n -> is_u32 (Swap32 n).
Proof. intros Hn. rewrite Swap32_bytes by done. apply Uint32_range. Qed.

Lemma Swap32_involutive n : is_u32 n -> Swap32 (Swap32 n) = n.
Proof.
  intros Hn. rewrite (Swap32_bytes (Swap32 n)) by (by apply Swap32_range).
  rewrite (Swap32_bytes n) by done.
  rewrite PutUint32_Uint32 by (rewrite length_reverse; apply PutUint32_length).
  rewrite reverse_involutive. by apply Uint32_PutUint32_nil.
Qed.

(** ** Assembling *)

Lemma header_bytes_length c a0 a1 l k m : length (header_bytes c a0 a1 l k m) = 24%nat.
Proof. done. Qed.

Lemma data_bytes_length_check data :
  match data with
  | Some d => (wrap32 (zlen d), Checksum d)
  | None => (0, 0)
  end = (wrap32 (zlen (data_bytes data)), Checksum (data_bytes data)).
Proof. by destruct data. Qed.

(** Below the size at which the [uint32] buffer length wraps, [Assemble] is the
    header followed by the data. *)
Lemma Assemble_ok command arg0 arg1 data :
  24 + zlen (data_bytes data) < 2 ^ 32 ->
  Assemble command arg0 arg1 data =
    Ok (header_bytes command arg0 arg1 (zlen (data_bytes data))
          (Checksum (data_bytes data)) (Magic command) ++ data_bytes data).
Proof.
  intros Hl. unfold Assemble. rewrite data_bytes_length_check.
  unfold zlen in *. set (d := data_bytes data) in *.
  unfold wrap32. rewrite (Z.mod_small (Z.of_nat (length d))) by lia.
  rewrite (Z.mod_small (24 + _)) by lia. rewrite (proj2 (Z.ltb_ge _ _)) by lia.
  replace (Z.to_nat (24 + Z.of_nat (length d) - 24)) with (length d) by lia.
  by rewrite firstn_all, Nat.sub_diag, app_nil_r.
Qed.

(** Beyond it the code panics instead of sending a truncated packet. *)
Lemma Assemble_panics command arg0 arg1 d :
  2 ^ 32 <= 24 + zlen d < 2 ^ 32 + 24 ->
  Assemble command arg0 arg1 (Some d) = Panic.
Proof.
  intros Hl. unfold Assemble, wrap32, zlen in *.
  destruct (decide (Z.of_nat (length d) < 2 ^ 32)).
  - rewrite (Z.mod_small (Z.of_nat (length d))) by lia.
    rewrite <- (Z_mod_plus_full _ (-1)), Z.mod_small by lia.
    by rewrite (proj2 (Z.ltb_lt _ _)) by lia.
  - lia.
Qed.

#[export] Hint Resolve Checksum_range Magic_range Swap32_range header_bytes_length : adb.
