(* ===== verification/PacketReader.v ===== *)
(** * Reading packets from a stream: tcpusb/packet_reader.go

    [ReadPacket] is the code's loop over its buffer; [parse_packet] is the
    specification, a parser on the whole pending byte string.  The refinement
    theorem says that the loop computes the parser for every fragmentation of
    the stream into [Read]s. *)

From stdpp Require Import base list numbers.
From Stdlib Require Import ZArith Lia.
From S2P Require Import Prelude GoStrings GoNet Packet.

Local Open Scope Z_scope.

Record PacketReader := mkReader {
  stream : conn;
  buffer : bytes;
  inBody : bool;
  packet : option Packet
}.

Definition NewPacketReader (c : conn) : PacketReader := mkReader c [] false None.

(** [appendChunk]: one [Read] of up to 4096 bytes. *)
Definition appendChunk (pr : PacketReader) : outcome unit * PacketReader :=
  match Read 4096 (stream pr) with
  | (Ok chunk, c) => (Ok tt, mkReader c (buffer pr ++ chunk) (inBody pr) (packet pr))
  | (Err e, c) => (Err e, mkReader c (buffer pr) (inBody pr) (packet pr))
  | (Panic, c) => (Panic, mkReader c (buffer pr) (inBody pr) (packet pr))
  | (OutOfFuel, c) => (OutOfFuel, mkReader c (buffer pr) (inBody pr) (packet pr))
  end.

(** The packet described by a 24-byte header; its data is still nil. *)
Definition parse_header (header : bytes) : Packet :=
  mkPacket (Uint32 (slice 0 4 header)) (Uint32 (slice 4 8 header))
           (Uint32 (slice 8 12 header)) (Uint32 (slice 12 16 header))
           (Uint32 (slice 16 20 header)) (Uint32 (slice 20 24 header)) None.

Definition with_data (p : Packet) (d : bytes) : Packet :=
  mkPacket (Command p) (Arg0 p) (Arg1 p) (Length p) (Check p) (PMagic p) (Some d).

Definition err_checksum : goerror := Errorf (str "checksum mismatch").
Definition err_magic : goerror := Errorf (str "magic value mismatch").

(** [if err := pr.appendChunk(); err != nil { return nil, err }; continue] *)
Definition append_then (loop : PacketReader -> outcome Packet * PacketReader)
    (pr : PacketReader) : outcome Packet * PacketReader :=
  match appendChunk pr with
  | (Ok _, pr') => loop pr'
  | (Err e, pr') => (Err e, pr')
  | (Panic, pr') => (Panic, pr')
  | (OutOfFuel, pr') => (OutOfFuel, pr')
  end.

(** [b[:n]] and [b[n:]]; [None]: the slice bounds are out of range. *)
Definition slice_at (n : nat) (b : bytes) : option (bytes * bytes) :=
  if decide (length b < n)%nat then None else Some (take n b, drop n b).

(** The [for] loop of [ReadPacket]. *)
Fixpoint ReadPacket_loop (fuel : nat) (pr : PacketReader) : outcome Packet * PacketReader :=
  match fuel with
  | O => (OutOfFuel, pr)
  | S k =>
      if inBody pr then
        match packet pr with
        | None => (Panic, pr)
        | Some p =>
            if zlen (buffer pr) <? Length p then
              append_then (ReadPacket_loop k) pr
            else
              match slice_at (Z.to_nat (Length p)) (buffer pr) with
              | None => (Panic, pr)
              | Some (data, rest) =>
                  let p' := with_data p data in
                  if VerifyChecksum p'
                  then (Ok p', mkReader (stream pr) rest false (Some p'))
                  else (Err err_checksum, mkReader (stream pr) rest true (Some p'))
              end
        end
      else
        if zlen (buffer pr) <? 24 then
          append_then (ReadPacket_loop k) pr
        else
          match slice_at 24 (buffer pr) with
          | None => (Panic, pr)
          | Some (header, rest) =>
              let p := parse_header header in
              let pr' := mkReader (stream pr) rest false (Some p) in
              if negb (VerifyMagic p) then (Err err_magic, pr')
              else if Length p =? 0 then (Ok p, pr')
              else ReadPacket_loop k (mkReader (stream pr) rest true (Some p))
          end
  end.

(** Every turn of the loop that does not return reads from the stream or moves
    from header to body, so this many turns are enough. *)
Definition reader_measure (pr : PacketReader) : nat :=
  2 * conn_size (stream pr) + (if inBody pr then 0 else 1).

Definition ReadPacket (pr : PacketReader) : outcome Packet * PacketReader :=
  ReadPacket_loop (S (reader_measure pr)) pr.

(** ** Specification: a parser on the pending bytes *)

(** The body of packet [p] at the front of [s]; [None] when bytes are missing. *)
Definition parse_body (p : Packet) (s : bytes) : option (outcome Packet * bytes) :=
  if zlen s <? Length p then None
  else
    let n := Z.to_nat (Length p) in
    let p' := with_data p (take n s) in
    Some (if VerifyChecksum p' then Ok p' else Err err_checksum, drop n s).

Definition parse_packet (s : bytes) : option (outcome Packet * bytes) :=
  if zlen s <? 24 then None
  else
    let p := parse_header (take 24 s) in
    if negb (VerifyMagic p) then Some (Err err_magic, drop 24 s)
    else if Length p =? 0 then Some (Ok p, drop 24 s)
    else parse_body p (drop 24 s).

(** The reader is between packets and [s] is what it has buffered or will still
    receive. *)
Definition reader_feeds (tl : list rd_event) (pr : PacketReader) (s : bytes) : Prop :=
  inBody pr = false /\
  exists s', s = buffer pr ++ s' /\ conn_feeds tl (stream pr) s'.

(** Reading [n] packets in a row. *)
Fixpoint read_packets (n : nat) (pr : PacketReader) : outcome (list Packet) * PacketReader :=
  match n with
  | O => (Ok [], pr)
  | S k =>
      match ReadPacket pr with
      | (Ok p, pr') => let '(o, pr'') := read_packets k pr' in (ps ← o; Ok (p :: ps), pr'')
      | (Err e, pr') => (Err e, pr')
      | (Panic, pr') => (Panic, pr')
      | (OutOfFuel, pr') => (OutOfFuel, pr')
      end
  end.

(** ** Refinement *)

(** Pending bytes of a reader in either state. *)
Definition pending (tl : list rd_event) (pr : PacketReader) (s : bytes) : Prop :=
  exists s', s = buffer pr ++ s' /\ conn_feeds tl (stream pr) s'.

Definition parse_from (pr : PacketReader) (s : bytes) : option (outcome Packet * bytes) :=
  if inBody pr then p ← packet pr; parse_body p s else parse_packet s.

Lemma zlen_app {A} (a b : list A) : zlen (a ++ b) = zlen a + zlen b.
Proof. unfold zlen. rewrite length_app. lia. Qed.

Lemma appendChunk_pending tl pr s :
  pending tl pr s ->
  (s = buffer pr /\ rd (stream pr) = tl) \/
  exists pr', appendChunk pr = (Ok tt, pr') /\ pending tl pr' s /\
    inBody pr' = inBody pr /\ packet pr' = packet pr /\
    (reader_measure pr' + 2 <= reader_measure pr)%nat.
Proof.
  intros (s' & -> & Hf). destruct (Read_feeds tl (stream pr) s' 4096 Hf) as
    [[-> Hr] | (bs & s2 & c' & E & -> & Hf' & Hlt & _ & _)]; [lia| |].
  - left. by rewrite app_nil_r.
  - right. unfold appendChunk. rewrite E. eexists. split; [done|]. split_and!; [|done|done|].
    + exists s2. by rewrite app_assoc.
    + unfold reader_measure. simpl. case_match; lia.
Qed.

Lemma appendChunk_eof pr s :
  pending [] pr s -> rd (stream pr) = [] -> exists pr', appendChunk pr = (Err EOF, pr').
Proof.
  intros (s' & _ & _ & _ & Hc) Hr. unfold appendChunk, Read. rewrite Hc, Hr. simpl. eauto.
Qed.

Lemma take_pending n (b s' : bytes) : (n <= length b)%nat -> take n (b ++ s') = take n b.
Proof. intros. by rewrite take_app_le. Qed.

Lemma drop_pending n (b s' : bytes) : (n <= length b)%nat -> drop n (b ++ s') = drop n b ++ s'.
Proof. intros. by rewrite drop_app_le. Qed.

Lemma slice_at_Some n b : (n <= length b)%nat -> slice_at n b = Some (take n b, drop n b).
Proof. intros. unfold slice_at. by rewrite decide_False by lia. Qed.

Lemma Length_parse_header h : 0 <= Length (parse_header h).
Proof. apply Uint32_range. Qed.

(** What a run of the loop owes its caller: the parse of the pending bytes, or
    the end of the stream when a packet is incomplete. *)
Definition refines (tl : list rd_event) (pr : PacketReader) (s : bytes)
    (run : outcome Packet * PacketReader) : Prop :=
  match parse_from pr s with
  | Some (o, rest) => run.1 = o /\ pending tl run.2 rest /\
      (forall p, o = Ok p -> inBody run.2 = false)
  | None => tl = [] -> run.1 = Err EOF
  end.

(** The reader states the loop goes through. *)
Definition reader_wf (pr : PacketReader) : Prop :=
  inBody pr = true ->
  exists p, packet pr = Some p /\ 0 < Length p /\ VerifyMagic p = true.

Lemma append_then_refines tl loop pr s :
  pending tl pr s -> reader_wf pr ->
  (s = buffer pr -> parse_from pr s = None) ->
  (forall pr', pending tl pr' s -> reader_wf pr' ->
     (reader_measure pr' < reader_measure pr)%nat -> refines tl pr' s (loop pr')) ->
  refines tl pr s (append_then loop pr).
Proof.
  intros Hp Hwf Hnone Hloop. unfold append_then.
  destruct (appendChunk_pending tl pr s Hp) as [[Hs Hr] | (pr' & E & Hp' & Hb' & Hk' & Hlt)].
  - unfold refines. rewrite (Hnone Hs). intros ->.
    by destruct (appendChunk_eof pr s Hp Hr) as [pr' ->].
  - rewrite E. assert (Heq : parse_from pr s = parse_from pr' s)
      by (unfold parse_from; by rewrite Hb', Hk').
    unfold refines. rewrite Heq. apply Hloop; [done | | lia].
    unfold reader_wf. by rewrite Hb', Hk'.
Qed.

Lemma ReadPacket_loop_refines tl fuel pr s :
  (reader_measure pr < fuel)%nat -> reader_wf pr -> pending tl pr s ->
  refines tl pr s (ReadPacket_loop fuel pr).
Proof.
  revert pr s. induction fuel as [|k IH]; intros pr s Hm Hwf Hp; [lia|].
  cbn [ReadPacket_loop]. destruct (inBody pr) eqn:Hb.
  - destruct (Hwf Hb) as (p & Hpk & Hpos & _). rewrite Hpk.
    destruct (Z.ltb_spec (zlen (buffer pr)) (Length p)) as [Hlt|Hge].
    + apply append_then_refines; [done | done | | intros; apply IH; [lia | done..]].
      intros ->. unfold parse_from. rewrite Hb, Hpk. simpl. unfold parse_body.
      by rewrite (proj2 (Z.ltb_lt _ _)).
    + rewrite slice_at_Some by (unfold zlen in *; lia).
      unfold refines, parse_from. rewrite Hb, Hpk. simpl. unfold parse_body.
      destruct Hp as (s' & -> & Hf). rewrite zlen_app.
      rewrite (proj2 (Z.ltb_ge _ _)) by (unfold zlen in *; lia).
      rewrite take_pending, drop_pending by (unfold zlen in *; lia).
      destruct (VerifyChecksum _); (split_and!; [done | by eexists | done]).
  - destruct (Z.ltb_spec (zlen (buffer pr)) 24) as [Hlt|Hge].
    + apply append_then_refines; [done | done | | intros; apply IH; [lia | done..]].
      intros ->. unfold parse_from. rewrite Hb. unfold parse_packet.
      by rewrite (proj2 (Z.ltb_lt _ _)).
    + rewrite slice_at_Some by (unfold zlen in *; lia).
      unfold refines, parse_from. rewrite Hb. unfold parse_packet.
      destruct Hp as (s' & -> & Hf). rewrite zlen_app.
      rewrite (proj2 (Z.ltb_ge _ _)) by (unfold zlen in *; lia).
      rewrite take_pending, drop_pending by (unfold zlen in *; lia).
      destruct (VerifyMagic _) eqn:Hmg; cbn [negb];
        [|split_and!; [done | by eexists | done]].
      destruct (Z.eqb_spec (Length (parse_header (take 24 (buffer pr)))) 0);
        [split_and!; [done | by eexists | done]|].
      set (pr1 := mkReader (stream pr) (drop 24 (buffer pr)) true _).
      apply (IH pr1); [| intros _; eexists; split_and!; [done | | done] | by exists s'];
        [|pose proof (Length_parse_header (take 24 (buffer pr))); lia].
      unfold reader_measure in *. rewrite Hb in Hm. simpl. lia.
Qed.

(** ** The parser inverts [Assemble] *)

Lemma parse_header_bytes c a0 a1 l k m :
  is_u32 c -> is_u32 a0 -> is_u32 a1 -> is_u32 l -> is_u32 k -> is_u32 m ->
  parse_header (header_bytes c a0 a1 l k m) = mkPacket c a0 a1 l k m None.
Proof.
  intros. unfold parse_header, header_bytes, slice.
  f_equal; apply Uint32_PutUint32_nil; done.
Qed.

Lemma parse_packet_assembled command arg0 arg1 data rest :
  is_u32 command -> is_u32 arg0 -> is_u32 arg1 -> 24 + zlen (data_bytes data) < 2 ^ 32 ->
  parse_packet (header_bytes command arg0 arg1 (zlen (data_bytes data))
                  (Checksum (data_bytes data)) (Magic command) ++ data_bytes data ++ rest)
  = Some (Ok (sent_packet command arg0 arg1 data), rest).
Proof.
  intros Hc H0 H1 Hl. set (d := data_bytes data) in *. set (h := header_bytes _ _ _ _ _ _).
  assert (Hd : is_u32 (zlen d)) by (unfold is_u32, zlen in *; lia).
  unfold parse_packet. rewrite zlen_app. change (zlen h) with 24.
  rewrite (proj2 (Z.ltb_ge _ _)) by (unfold zlen; lia).
  rewrite take_app_length' by done. rewrite drop_app_length' by done.
  unfold h. rewrite parse_header_bytes by auto with adb.
  unfold VerifyMagic. cbn [PMagic Command Length]. rewrite Z.eqb_refl. cbn [negb].
  unfold sent_packet. fold d.
  destruct (Z.eqb_spec (zlen d) 0) as [E|E].
  - assert (d = []) as -> by (apply nil_length_inv; unfold zlen in E; lia). done.
  - unfold parse_body. cbn [Length]. rewrite zlen_app.
    rewrite (proj2 (Z.ltb_ge _ _)) by (unfold zlen; lia).
    replace (Z.to_nat (zlen d)) with (length d) by (unfold zlen; lia).
    rewrite take_app_length, drop_app_length.
    unfold VerifyChecksum, with_data. cbn. rewrite Z.eqb_refl.
    destruct d; [done|]. done.
Qed.

Lemma wire_cons_inv m ms bs :
  out_wf m -> wire (m :: ms) = Ok bs ->
  exists bs', wire ms = Ok bs' /\
    bs = header_bytes (o_command m) (o_arg0 m) (o_arg1 m) (zlen (data_bytes (o_data m)))
           (Checksum (data_bytes (o_data m))) (Magic (o_command m)) ++
         data_bytes (o_data m) ++ bs'.
Proof.
  intros (_ & _ & _ & Hl) E. cbn [wire] in E. unfold assemble_out in E.
  rewrite Assemble_ok in E by done. unfold mbind, outcome_bind in E.
  destruct (wire ms) as [bs'| | |]; try done. apply (inj Ok) in E as <-.
  exists bs'. by rewrite <- app_assoc.
Qed.

Lemma reader_feeds_pending tl pr s : reader_feeds tl pr s <-> inBody pr = false /\ pending tl pr s.
Proof. done. Qed.

Lemma reader_wf_idle pr : inBody pr = false -> reader_wf pr.
Proof. unfold reader_wf. by intros ->. Qed.

Lemma ReadPacket_idle tl pr s :
  reader_feeds tl pr s -> refines tl pr s (ReadPacket pr).
Proof.
  intros [Hb Hp]. apply ReadPacket_loop_refines; [lia | by apply reader_wf_idle | done].
Qed.

Lemma ReadPacket_next tl pr s p rest :
  reader_feeds tl pr s -> parse_packet s = Some (Ok p, rest) ->
  exists pr', ReadPacket pr = (Ok p, pr') /\ reader_feeds tl pr' rest.
Proof.
  intros Hf E. pose proof (ReadPacket_idle tl pr s Hf) as Hr.
  unfold refines, parse_from in Hr. rewrite (proj1 Hf), E in Hr.
  destruct (ReadPacket pr) as [o pr']. simpl in Hr. destruct Hr as (-> & Hp & Hb).
  exists pr'. split; [done|]. split; [by eapply Hb | done].
Qed.

(** ** Properties *)

(** C3. The packet reader implements its specification: however the peer's bytes
    are cut into reads, one call of [ReadPacket] returns what the reference
    parser [parse_packet] says of the pending byte string - the packet, a magic
    error or a checksum error - and leaves exactly the parser's rest pending;
    if the stream ends before a packet is complete it returns [io.EOF]. *)
Theorem ReadPacket_refines tl pr s :
  reader_feeds tl pr s ->
  match parse_packet s with
  | Some (o, rest) => exists pr', ReadPacket pr = (o, pr') /\ pending tl pr' rest /\
                                  (forall p, o = Ok p -> reader_feeds tl pr' rest)
  | None => tl = [] -> exists pr', ReadPacket pr = (Err EOF, pr')
  end.
Proof.
  intros Hf. pose proof (ReadPacket_idle tl pr s Hf) as Hr.
  unfold refines, parse_from in Hr. rewrite (proj1 Hf) in Hr.
  destruct (ReadPacket pr) as [o' pr']. simpl in Hr.
  destruct (parse_packet s) as [[o rest]|].
  - destruct Hr as (-> & Hp & Hb). exists pr'. split_and!; [done..|].
    intros p E. split; [by eapply Hb | done].
  - intros Htl. exists pr'. by rewrite Hr.
Qed.

Lemma wire_ok ms : Forall out_wf ms -> exists bs, wire ms = Ok bs.
Proof.
  induction 1 as [|m ms (_ & _ & _ & Hl) Hms IH]; [by eexists|]. destruct IH as (bs & E). cbn [wire]. unfold assemble_out.
  rewrite Assemble_ok by done. rewrite E. by eexists.
Qed.

Lemma reader_reads_wire tl pr ms bs rest :
  Forall out_wf ms -> wire ms = Ok bs -> reader_feeds tl pr (bs ++ rest) ->
  exists pr', read_packets (length ms) pr = (Ok (sent_out <$> ms), pr') /\
              reader_feeds tl pr' rest.
Proof.
  intros Hms. revert pr bs. induction Hms as [|m ms Hm Hms IH]; intros pr bs Hw Hf.
  { injection Hw as <-. by exists pr. }
  destruct (wire_cons_inv m ms bs Hm Hw) as (bs' & Hw' & ->).
  rewrite <- !app_assoc in Hf. destruct Hm as (Hc & H0 & H1 & Hl).
  destruct (ReadPacket_next _ _ _ _ _ Hf (parse_packet_assembled _ _ _ _ _ Hc H0 H1 Hl))
    as (pr1 & E1 & Hf1).
  destruct (IH pr1 bs' Hw' Hf1) as (pr' & E & Hf').
  exists pr'. cbn [length read_packets]. rewrite E1, E. done.
Qed.

(** C10. Round trip over the wire: every sequence of packets in range is assembled
    without a panic, and when it is sent back to back, however the network
    fragments it, the reader returns exactly those packets in order and leaves
    the bytes after them unread. *)
Theorem read_packets_roundtrip ms :
  Forall out_wf ms ->
  exists bs, wire ms = Ok bs /\
    forall tl pr rest, reader_feeds tl pr (bs ++ rest) ->
      exists pr', read_packets (length ms) pr = (Ok (sent_out <$> ms), pr') /\ reader_feeds tl pr' rest.
Proof.
  intros H. destruct (wire_ok ms H) as (bs & E). exists bs. split; [done|]. intros. by eapply reader_reads_wire.
Qed.

(** What the reader has checked of a packet it returns. *)
Definition valid_packet (p : Packet) : Prop :=
  VerifyMagic p = true /\
  ((Length p = 0 /\ Data p = None) \/
   (0 < Length p /\ VerifyChecksum p = true /\ zlen (data_bytes (Data p)) = Length p)).

Lemma appendChunk_Ok pr pr' :
  appendChunk pr = (Ok tt, pr') ->
  inBody pr' = inBody pr /\ packet pr' = packet pr /\
  (reader_measure pr' < reader_measure pr)%nat.
Proof.
  unfold appendChunk. destruct (Read 4096 (stream pr)) as [[bs|e| |] c] eqn:E; try done.
  intros [= <-]. split_and!; [done..|]. unfold reader_measure. simpl.
  pose proof (Read_size _ _ _ _ E ltac:(lia) bs eq_refl). case_match; lia.
Qed.

Lemma appendChunk_cases pr :
  (exists pr', appendChunk pr = (Ok tt, pr')) \/
  (exists e pr', appendChunk pr = (Err e, pr') /\ inBody pr' = inBody pr /\ packet pr' = packet pr).
Proof.
  unfold appendChunk.
  destruct (Read_cases 4096 (stream pr)) as [(b & c & ->) | (e & c & ->)]; eauto 10.
Qed.

Lemma with_data_valid p s :
  VerifyMagic p = true -> 0 < Length p <= zlen s ->
  VerifyChecksum (with_data p (take (Z.to_nat (Length p)) s)) = true ->
  valid_packet (with_data p (take (Z.to_nat (Length p)) s)).
Proof.
  intros Hm Hl Hc. split; [done|]. right. split_and!; [simpl; lia | done |].
  simpl. unfold zlen in *. rewrite length_take. lia.
Qed.

(** The result of a run of the loop with enough fuel. *)
Definition good_run (run : outcome Packet * PacketReader) : Prop :=
  reader_wf (snd run) /\
  match fst run with
  | Ok p => valid_packet p
  | Err _ => True
  | Panic | OutOfFuel => False
  end.

Lemma append_then_good loop pr :
  reader_wf pr ->
  (forall pr', reader_wf pr' -> (reader_measure pr' < reader_measure pr)%nat ->
     good_run (loop pr')) ->
  good_run (append_then loop pr).
Proof.
  intros Hwf Hloop. unfold append_then.
  destruct (appendChunk_cases pr) as [[pr' E] | (e & pr' & E & Hb & Hp)]; rewrite E.
  - destruct (appendChunk_Ok pr pr' E) as (Hb & Hp & Hlt).
    apply Hloop; [|done]. unfold reader_wf. by rewrite Hb, Hp.
  - split; [|done]. unfold reader_wf. simpl. by rewrite Hb, Hp.
Qed.

Lemma ReadPacket_loop_good fuel pr :
  (reader_measure pr < fuel)%nat -> reader_wf pr -> good_run (ReadPacket_loop fuel pr).
Proof.
  revert pr. induction fuel as [|k IH]; intros pr Hm Hwf; [lia|].
  cbn [ReadPacket_loop]. destruct (inBody pr) eqn:Hb.
  - destruct (Hwf Hb) as (p & Hpk & Hpos & Hmg). rewrite Hpk.
    destruct (Z.ltb_spec (zlen (buffer pr)) (Length p)).
    + apply append_then_good; [done | intros; apply IH; [lia | done]].
    + rewrite slice_at_Some by (unfold zlen in *; lia). destruct (VerifyChecksum _) eqn:Hc.
      * split; [by intros ? |]. apply with_data_valid; [done | lia | done].
      * split; [|done]. intros _. by eexists.
  - destruct (Z.ltb_spec (zlen (buffer pr)) 24).
    + apply append_then_good; [done | intros; apply IH; [lia | done]].
    + rewrite slice_at_Some by (unfold zlen in *; lia).
      pose proof (Length_parse_header (take 24 (buffer pr))) as Hpos.
      destruct (VerifyMagic _) eqn:Hmg; cbn [negb]; [|by split].
      destruct (Z.eqb_spec (Length (parse_header (take 24 (buffer pr)))) 0) as [E|E].
      * split; [done|]. split; [done|]. by left.
      * apply IH.
        { unfold reader_measure in *. rewrite Hb in Hm. simpl. lia. }
        intros _. eexists. split_and!; [done | lia | done].
Qed.

(** C20. [ReadPacket] is total and safe on every stream, hostile ones included:
    the loop always ends within its bound, never indexes out of range, keeps
    the reader well formed, and every packet it does return has the right magic
    and, when it carries data, the right length and checksum. *)
Theorem ReadPacket_safe pr :
  reader_wf pr ->
  reader_wf (snd (ReadPacket pr)) /\
  ((exists p, fst (ReadPacket pr) = Ok p /\ valid_packet p) \/
   (exists e, fst (ReadPacket pr) = Err e)).
Proof.
  intros Hwf. pose proof (ReadPacket_loop_good (S (reader_measure pr)) pr) as [Hw Hg]; [lia|done|].
  unfold ReadPacket. split; [done|].
  destruct (fst (ReadPacket_loop _ _)); [left | right | done..]; eauto.
Qed.

(** ** Witnesses *)

Definition ex_conn : conn :=
  mkConn [RChunk (str "OPEN"); RChunk (drop 4 (header_bytes A_OPEN 7 0 3 (Checksum (str "ls!"))
            (Magic A_OPEN)) ++ str "ls"); RChunk (str "!zz")] [] [] false.

Lemma ex_conn_feeds :
  reader_feeds [] (NewPacketReader ex_conn)
    (header_bytes A_OPEN 7 0 3 (Checksum (str "ls!")) (Magic A_OPEN) ++ str "ls!" ++ str "zz").
Proof.
  split; [done|]. eexists. split; [by vm_compute|]. split_and!; [|done|done].
  change (feeds [] (rd ex_conn) (str "OPEN" ++ (drop 4 (header_bytes A_OPEN 7 0 3
    (Checksum (str "ls!")) (Magic A_OPEN)) ++ str "ls") ++ str "!zz" ++ [])).
  repeat constructor.
Qed.

Lemma ReadPacket_refines_witness :
  exists pr', ReadPacket (NewPacketReader ex_conn)
    = (Ok (mkPacket A_OPEN 7 0 3 (Checksum (str "ls!")) (Magic A_OPEN) (Some (str "ls!"))), pr').
Proof.
  pose proof (ReadPacket_refines [] (NewPacketReader ex_conn) _ ex_conn_feeds) as H.
  vm_compute in H. destruct H as (pr' & E & _). exists pr'. exact E.
Defined.

Lemma read_packets_roundtrip_witness :
  exists pr', read_packets 1 (NewPacketReader ex_conn)
    = (Ok [sent_out (mkOut A_OPEN 7 0 (Some (str "ls!")))], pr') /\
    reader_feeds [] pr' (str "zz").
Proof.
  destruct (read_packets_roundtrip [mkOut A_OPEN 7 0 (Some (str "ls!"))]) as (bs & Hw & H).
  - constructor; [|constructor]. vm_compute. repeat split; discriminate.
  - apply (H [] (NewPacketReader ex_conn) (str "zz")). vm_compute in Hw. injection Hw as <-. exact ex_conn_feeds.
Defined.

Lemma ReadPacket_safe_witness :
  exists p, fst (ReadPacket (NewPacketReader ex_conn)) = Ok p /\ valid_packet p.
Proof.
  destruct (ReadPacket_safe (NewPacketReader ex_conn)) as [_ [H|[e E]]].
  - intros H. discriminate H.
  - exact H.
  - vm_compute in E. discriminate E.
Defined.
