(* ===== verification/RollingCounter.v ===== *)
(** * Rolling identifiers: tcpusb/rolling_counter.go *)

From stdpp Require Import base list numbers.
From Stdlib Require Import ZArith Lia.
From S2P Require Import Prelude.

Local Open Scope Z_scope.

Record RollingCounter := mkCounter { rc_max : Z; rc_min : Z; rc_now : Z }.

Definition NewRollingCounter (max : Z) : RollingCounter := mkCounter max 1 1.

(** [Next]: the new value and the updated counter; [now++] is [uint32]. *)
Definition Next (rc : RollingCounter) : Z * RollingCounter :=
  let now := if rc_max rc <=? rc_now rc then rc_min rc else wrap32 (rc_now rc + 1) in
  (now, mkCounter (rc_max rc) (rc_min rc) now).

(** The counter after [k] calls of [Next]. *)
Fixpoint after_calls (k : nat) (rc : RollingCounter) : RollingCounter :=
  match k with O => rc | S j => snd (Next (after_calls j rc)) end.

(** The value the [k]-th call ([k >= 1]) returns. *)
Definition nth_value (max : Z) (k : nat) : Z := rc_now (after_calls k (NewRollingCounter max)).

(** The counter was made by [NewRollingCounter] and only advanced. *)
Definition counter_wf (rc : RollingCounter) : Prop :=
  rc_min rc = 1 /\ 1 <= rc_max rc < 2 ^ 32 /\ 1 <= rc_now rc <= rc_max rc.

Lemma NewRollingCounter_wf max : 1 <= max < 2 ^ 32 -> counter_wf (NewRollingCounter max).
Proof. unfold counter_wf. simpl. lia. Qed.

Lemma Next_value rc : fst (Next rc) = rc_now (snd (Next rc)).
Proof. done. Qed.

Lemma Next_wf rc : counter_wf rc -> counter_wf (snd (Next rc)).
Proof.
  unfold counter_wf, Next. simpl. intros (Hm & Hx & Hn).
  destruct (Z.leb_spec (rc_max rc) (rc_now rc)); [lia|].
  unfold wrap32. rewrite Z.mod_small by lia. lia.
Qed.

(** An identifier is a non-zero [uint32]: zero is reserved for failed opens. *)
Lemma Next_range rc : counter_wf rc -> 1 <= fst (Next rc) < 2 ^ 32.
Proof. intros H. apply Next_wf in H as (_ & ? & ?). rewrite Next_value. lia. Qed.

Lemma after_calls_fields k rc :
  rc_max (after_calls k rc) = rc_max rc /\ rc_min (after_calls k rc) = rc_min rc.
Proof. induction k as [|k [IH1 IH2]]; simpl; auto. Qed.

(** The values run through [1..max] cyclically, starting at 2: the [k]-th call
    returns [1 + k mod max]. *)
Lemma nth_value_cyclic max k :
  1 <= max < 2 ^ 32 -> nth_value max k = 1 + Z.of_nat k mod max.
Proof.
  intros Hm. induction k as [|k IH]; [by rewrite Z.mod_small by lia|].
  unfold nth_value in *. cbn [after_calls]. rewrite <- Next_value. unfold Next. cbn [fst].
  destruct (after_calls_fields k (NewRollingCounter max)) as [-> ->]. rewrite IH. cbn [rc_max rc_min NewRollingCounter].
  pose proof (Z.mod_pos_bound (Z.of_nat k) max ltac:(lia)) as Hb.
  rewrite Nat2Z.inj_succ. unfold Z.succ.
  destruct (Z.leb_spec max (1 + Z.of_nat k mod max)).
  - rewrite <- Zplus_mod_idemp_l. replace (Z.of_nat k mod max + 1) with max by lia.
    rewrite Z.mod_same by lia. lia.
  - unfold wrap32. rewrite (Z.mod_small _ (2 ^ 32)) by lia.
    rewrite <- Zplus_mod_idemp_l, (Z.mod_small (_ + 1)) by lia. lia.
Qed.

(** C40. Fresh identifiers: two calls of [Next] on one counter fewer than [max]
    calls apart return different values, and every value is a non-zero
    [uint32].  With the bridge's [max = 2^32-1], an identifier is reused only
    after 2^32-1 further opens, and never 0. *)
Theorem Next_fresh max i j :
  1 <= max < 2 ^ 32 -> (i < j)%nat -> Z.of_nat j - Z.of_nat i < max ->
  nth_value max i <> nth_value max j /\ 1 <= nth_value max j < 2 ^ 32.
Proof.
  intros Hm Hij Hd. rewrite !nth_value_cyclic by done. split.
  - intros E. assert (Hz : (Z.of_nat j - Z.of_nat i) mod max = 0).
    { rewrite Zminus_mod. replace (Z.of_nat j mod max) with (Z.of_nat i mod max) by lia.
      by rewrite Z.sub_diag, Z.mod_0_l by lia. }
    rewrite Z.mod_small in Hz by lia. lia.
  - pose proof (Z.mod_pos_bound (Z.of_nat j) max ltac:(lia)). lia.
Qed.

Lemma Next_fresh_witness :
  nth_value 3 1 <> nth_value 3 3 /\ 1 <= nth_value 3 3 < 2 ^ 32.
Proof. apply (Next_fresh 3 1 3); lia. Defined.
