(* ===== verification/ServiceMap.v ===== *)
(** * Active services by local id: tcpusb/service_map.go

    The Go map is a [gmap] from [uint32] ids to services, the cached counter is
    kept beside it; the mutex makes every method one atomic operation. *)

From stdpp Require Import base list numbers gmap.
From Stdlib Require Import ZArith Lia.
From S2P Require Import Prelude.

Local Open Scope Z_scope.

Section service_map.
Context {V : Type}.

Record ServiceMap := mkServiceMap { sm_services : gmap Z V; sm_count : Z }.

Definition NewServiceMap : ServiceMap := mkServiceMap ∅ 0.

Definition Insert (localID : Z) (service : V) (sm : ServiceMap) : outcome unit * ServiceMap :=
  match sm_services sm !! localID with
  | Some _ => (Err ErrServiceExists, sm)
  | None => (Ok tt, mkServiceMap (<[localID := service]> (sm_services sm)) (sm_count sm + 1))
  end.

Definition Get (localID : Z) (sm : ServiceMap) : option V := sm_services sm !! localID.

Definition Remove (localID : Z) (sm : ServiceMap) : option V * ServiceMap :=
  match sm_services sm !! localID with
  | Some s => (Some s, mkServiceMap (delete localID (sm_services sm)) (sm_count sm - 1))
  | None => (None, sm)
  end.

Definition Count (sm : ServiceMap) : Z := sm_count sm.

(** [End]: the services whose [End] is called, in some iteration order of the
    Go map, and the emptied map. *)
Definition EndAll (sm : ServiceMap) : list V * ServiceMap :=
  ((map_to_list (sm_services sm)).*2, NewServiceMap).

(** The cached counter is the number of entries. *)
Definition sm_wf (sm : ServiceMap) : Prop := sm_count sm = Z.of_nat (size (sm_services sm)).

(** Calls, for reasoning about arbitrary sequences of them. *)
Inductive sm_op := OpInsert (id : Z) (v : V) | OpRemove (id : Z) | OpEnd.

Definition sm_apply (op : sm_op) (sm : ServiceMap) : ServiceMap :=
  match op with
  | OpInsert id v => snd (Insert id v sm)
  | OpRemove id => snd (Remove id sm)
  | OpEnd => snd (EndAll sm)
  end.

(** What each call does to the map seen as a partial function. *)
Definition spec_apply (op : sm_op) (m : Z -> option V) : Z -> option V :=
  match op with
  | OpInsert id v => fun k => if decide (k = id) then (match m id with Some w => Some w | None => Some v end) else m k
  | OpRemove id => fun k => if decide (k = id) then None else m k
  | OpEnd => fun _ => None
  end.

Lemma NewServiceMap_wf : sm_wf NewServiceMap.
Proof. unfold sm_wf. simpl. by rewrite map_size_empty. Qed.

Lemma Insert_wf id v sm : sm_wf sm -> sm_wf (snd (Insert id v sm)).
Proof.
  unfold sm_wf, Insert. intros H. destruct (sm_services sm !! id) eqn:E; [done|].
  simpl. rewrite map_size_insert_None by done. lia.
Qed.

Lemma Remove_wf id sm : sm_wf sm -> sm_wf (snd (Remove id sm)).
Proof.
  unfold sm_wf, Remove. intros H. destruct (sm_services sm !! id) eqn:E; [|done].
  simpl. rewrite map_size_delete, E. simpl.
  assert (size (sm_services sm) <> 0%nat).
  { intros Hz. apply map_size_empty_inv in Hz. by rewrite Hz, lookup_empty in E. }
  lia.
Qed.

Lemma sm_apply_wf op sm : sm_wf sm -> sm_wf (sm_apply op sm).
Proof.
  destruct op; simpl; intros H; [by apply Insert_wf | by apply Remove_wf |].
  apply NewServiceMap_wf.
Qed.

Lemma Get_Insert_same id v sm :
  Get id sm = None -> Insert id v sm = (Ok tt, snd (Insert id v sm)) /\
  Get id (snd (Insert id v sm)) = Some v.
Proof. unfold Get, Insert. intros ->. simpl. by rewrite lookup_insert_eq. Qed.

Lemma Get_Insert_other id id' v sm :
  id <> id' -> Get id' (snd (Insert id v sm)) = Get id' sm.
Proof.
  unfold Get, Insert. intros H. destruct (sm_services sm !! id); [done|].
  simpl. by rewrite lookup_insert_ne.
Qed.

Lemma Get_Remove id id' sm :
  Get id' (snd (Remove id sm)) = if decide (id' = id) then None else Get id' sm.
Proof.
  unfold Get, Remove. destruct (sm_services sm !! id) eqn:E; simpl.
  - rewrite lookup_delete. repeat case_decide; congruence.
  - case_decide; congruence.
Qed.

Lemma sm_apply_spec op sm k : Get k (sm_apply op sm) = spec_apply op (fun i => Get i sm) k.
Proof.
  destruct op as [id v|id|]; simpl.
  - case_decide as Hk.
    + subst. destruct (Get id sm) as [w|] eqn:E.
      * unfold Insert. unfold Get in *. by rewrite E.
      * by apply Get_Insert_same.
    + apply Get_Insert_other. congruence.
  - apply Get_Remove.
  - unfold Get. simpl. by rewrite lookup_empty.
Qed.

(** C39. Refinement of an abstract partial map: after any sequence of [Insert],
    [Remove] and [End] calls, [Get] answers like the partial function the
    calls describe (an [Insert] of a used id changes nothing and reports
    [ErrServiceExists], a [Remove] forgets exactly its id, [End] forgets all)
    and [Count] is the number of entries. *)
Theorem ServiceMap_refines ops :
  let sm := foldl (fun m op => sm_apply op m) NewServiceMap ops in
  (forall k, Get k sm = foldl (fun m op => spec_apply op m) (fun _ => None) ops k) /\
  Count sm = Z.of_nat (size (sm_services sm)) /\
  (forall id v, (fst (Insert id v sm) = Err ErrServiceExists <-> is_Some (Get id sm)) /\
                (fst (Insert id v sm) = Ok tt <-> Get id sm = None)).
Proof.
  intros sm. split_and!.
  - assert (H : forall m f, (forall k, Get k m = f k) -> forall k,
      Get k (foldl (fun m op => sm_apply op m) m ops) =
      foldl (fun m op => spec_apply op m) f ops k).
    { clear sm. induction ops as [|op ops IH]; intros m f Hmf; [done|]. simpl. apply IH.
      intros k. rewrite sm_apply_spec. destruct op; simpl; by rewrite ?Hmf. }
    apply H. intros k. unfold Get. simpl. by rewrite lookup_empty.
  - unfold sm. clear sm. unfold Count.
    assert (H : forall m, sm_wf m -> sm_wf (foldl (fun m op => sm_apply op m) m ops)).
    { induction ops as [|op ops IH]; intros m Hm; [done|]. simpl. by apply IH, sm_apply_wf. }
    apply H, NewServiceMap_wf.
  - intros id v. unfold Insert, Get. destruct (sm_services sm !! id) eqn:E; simpl.
    + split; (split; [done|]); [done|]. intros; done.
    + split; (split; [done|]); [by intros [? ?]|done].
Qed.
End service_map.
Arguments ServiceMap : clear implicits.
Arguments mkServiceMap {V}.
