(* ===== verification/Service.v ===== *)
(** * One bridged service: tcpusb/service.go

    A service joins one stream of the remote ADB client (packets on the socket)
    with one transport connection to the device.  Three goroutines touch it:
    the socket's reader, which calls [Handle] for each incoming packet; the
    opener, which runs [handleOpenPacket]; and [forwardFromDevice].  Methods
    that hold the service mutex are single atomic operations; the other two are
    thread functions that advance by one atomic action per step.  The step
    relation interleaves them with the environment. *)

From stdpp Require Import base list numbers.
From Stdlib Require Import ZArith Lia.
From S2P Require Import Prelude GoStrings GoNet Packet.

Local Open Scope Z_scope.

(** ** State *)

Record Service := mkService {
  localID : Z;
  remoteID : Z;
  transport : bool;      (* s.transport != nil *)
  opened : bool;
  ended : bool;
  needAck : bool;
  endCh_closed : bool;
  doneCh_closed : bool
}.

Definition NewService (lid rid : Z) : Service :=
  mkService lid rid false false false false false false.

(** What the methods read and write: the service, the transport connection the
    service owns once the dial returned, and the parts of the socket they use -
    its [ended] flag, its [maxPayload], whether the client connection still
    accepts writes, and the packets this service has sent on it. *)
Record sworld := mkSW {
  sv : Service;
  dev : conn;
  sock_ended : bool;
  sock_max : Z;
  cli_ok : bool;
  out : list OutPacket
}.

Definition with_sv (w : sworld) (s : Service) : sworld :=
  mkSW s (dev w) (sock_ended w) (sock_max w) (cli_ok w) (out w).
Definition with_dev (w : sworld) (c : conn) : sworld :=
  mkSW (sv w) c (sock_ended w) (sock_max w) (cli_ok w) (out w).
Definition with_out (w : sworld) (o : list OutPacket) : sworld :=
  mkSW (sv w) (dev w) (sock_ended w) (sock_max w) (cli_ok w) o.

Definition set_transport (b : bool) (s : Service) : Service :=
  mkService (localID s) (remoteID s) b (opened s) (ended s) (needAck s)
            (endCh_closed s) (doneCh_closed s).
Definition set_opened (s : Service) : Service :=
  mkService (localID s) (remoteID s) (transport s) true (ended s) (needAck s)
            (endCh_closed s) (doneCh_closed s).
Definition set_needAck (b : bool) (s : Service) : Service :=
  mkService (localID s) (remoteID s) (transport s) (opened s) (ended s) b
            (endCh_closed s) (doneCh_closed s).
(** [s.transport = nil; s.ended = true; close(s.endCh)] *)
Definition set_ended (s : Service) : Service :=
  mkService (localID s) (remoteID s) false (opened s) true (needAck s)
            true (doneCh_closed s).
Definition set_done (s : Service) : Service :=
  mkService (localID s) (remoteID s) (transport s) (opened s) (ended s) (needAck s)
            (endCh_closed s) true.

(** Run an operation of the transport connection. *)
Definition on_dev {A} (m : io conn A) : io sworld A := fun w =>
  let '(o, c) := m (dev w) in (o, with_dev w c).

Definition get_sv : io sworld Service := fun w => (Ok (sv w), w).
Definition upd_sv (f : Service -> Service) : io sworld unit := fun w =>
  (Ok tt, with_sv w (f (sv w))).

(** [Socket.Write], as a service sees it: it refuses once the socket has ended,
    and fails when the client connection does. *)
Definition sock_write (m : OutPacket) : io sworld unit := fun w =>
  if sock_ended w then (Err (Errorf (str "socket ended")), w)
  else if cli_ok w then (Ok tt, with_out w (out w ++ [m]))
  else (Err (NetError (str "write")), w).

(** [s.socket.Write(Assemble(...))] *)
Definition send (m : OutPacket) : io sworld unit :=
  _ ← of_outcome (assemble_out m); sock_write m.

(** [s.socket.MaxPayload()] *)
Definition get_max : io sworld Z := fun w => (Ok (sock_max w), w).

(** ** Atomic methods *)

(** [End] *)
Definition Service_End : io sworld unit :=
  s ← get_sv;
  if ended s then mret tt
  else
    _ ← (if transport s then attempt (on_dev Close) else mret (inl tt));
    let lid := if opened s then localID s else 0 in
    _ ← attempt (send (mkOut A_CLSE lid (remoteID s) None));
    if endCh_closed s then gopanic else upd_sv set_ended.

(** [handleOkayPacket] *)
Definition handleOkayPacket : io sworld unit :=
  s ← get_sv;
  if ended s then mret tt
  else if negb (transport s) then fail ErrPrematurePacket
  else upd_sv (set_needAck false).

(** [if len(packet.Data) > 0 { s.transport.Write(packet.Data) }] *)
Definition write_data (d : bytes) : io sworld unit :=
  match d with [] => mret tt | _ => on_dev (Write d) end.

(** [handleWritePacket] *)
Definition handleWritePacket (p : Packet) : io sworld unit :=
  s ← get_sv;
  if ended s then mret tt
  else if negb (transport s) then fail ErrPrematurePacket
  else
    _ ← write_data (data_bytes (Data p));
    _ ← attempt (send (mkOut A_OKAY (localID s) (remoteID s) None));
    mret tt.

(** [handleClosePacket] *)
Definition handleClosePacket : io sworld unit :=
  s ← get_sv;
  if negb (transport s) then fail ErrPrematurePacket else Service_End.

(** [Handle]: an A_OPEN starts the opener thread, the rest is atomic. *)
Definition Handle (p : Packet) : option (io sworld unit) :=
  if Command p =? A_OPEN then None
  else if Command p =? A_OKAY then Some handleOkayPacket
  else if Command p =? A_WRTE then Some (handleWritePacket p)
  else if Command p =? A_CLSE then Some handleClosePacket
  else Some (fail (Errorf (str "unexpected packet: " ++ Packet_String p))).

(** [encodeData]: the length in hexadecimal, cut to four bytes by [copy]. *)
Definition encodeData (data : bytes) : bytes :=
  take 4 (fmt_x 4 (zlen data)) ++ data.

(** ** The opener thread: [handleOpenPacket] and its deferred clean-up *)

Inductive opener :=
  | ODial                              (* before s.device.Transport() *)
  | OAssign                            (* the lock around s.transport = transport *)
  | OWriteName                         (* s.transport.Write(encodeData(name)) *)
  | OReadReply                         (* io.ReadFull(s.transport, reply) *)
  | OReply (reply : bytes)
  | OOpened                            (* s.opened = true; go forwardFromDevice() *)
  | OWait                              (* <-s.doneCh *)
  | OFinish (r : outcome unit)         (* deferred services.Remove *)
  | ORemoved (r : outcome unit)        (* deferred service.End *)
  | ODone (r : outcome unit)
  | OCrash.                            (* a run-time panic takes the process down *)

(** ** The forwarder thread: [forwardFromDevice] *)

Inductive forwarder :=
  | FNone                              (* not started *)
  | FCheck                             (* top of the loop, under the lock *)
  | FSleep                             (* select on endCh and the timer *)
  | FRead (max : Z)                    (* transport.Read(buffer[:max]) *)
  | FSend (chunk : bytes)              (* the second critical section *)
  | FExit                              (* deferred s.End() *)
  | FClose                             (* deferred close(s.doneCh) *)
  | FDone
  | FCrash.

#[global] Instance opener_eq_dec : EqDecision opener.
Proof. solve_decision. Defined.
#[global] Instance forwarder_eq_dec : EqDecision forwarder.
Proof. solve_decision. Defined.

(** One action of the opener for the open packet [p]; [dial] is what
    [device.Transport()] returns. *)
Definition opener_step (p : Packet) (dial : conn + goerror) (o : opener) (w : sworld)
  : opener * sworld :=
  match o with
  | ODial =>
      match dial with
      | inr e => (OFinish (Err e), w)
      | inl c => (OAssign, with_dev w c)
      end
  | OAssign =>
      if ended (sv w) then (OFinish (Err ErrLateTransport), (on_dev Close w).2)
      else (OWriteName, with_sv w (set_transport true (sv w)))
  | OWriteName =>
      match data_bytes (Data p) with
      | [] => (OCrash, w)
      | d =>
          if negb (transport (sv w)) then (OCrash, w)
          else match on_dev (Write (encodeData (take (length d - 1) d))) w with
               | (Ok _, w') => (OReadReply, w')
               | (Err e, w') => (OFinish (Err e), w')
               | (_, w') => (OCrash, w')
               end
      end
  | OReadReply =>
      if negb (transport (sv w)) then (OCrash, w)
      else match on_dev (ReadFull 4) w with
           | (Ok reply, w') => (OReply reply, w')
           | (Err e, w') => (OFinish (Err e), w')
           | (_, w') => (OCrash, w')
           end
  | OReply reply =>
      if decide (reply = str "OKAY") then
        (OOpened, (send (mkOut A_OKAY (localID (sv w)) (remoteID (sv w)) None) w).2)
      else if decide (reply = str "FAIL") then
        if negb (transport (sv w)) then (OCrash, w)
        else (OFinish (Err (Errorf (str "device returned FAIL"))), (on_dev (ReadFull 4) w).2)
      else (OFinish (Ok tt), w)
  | OOpened => (OWait, with_sv w (set_opened (sv w)))
  | OWait => if doneCh_closed (sv w) then (OFinish (Ok tt), w) else (OWait, w)
  | OFinish r => (ORemoved r, w)
  | ORemoved r =>
      match Service_End w with
      | (Panic, w') => (OCrash, w')
      | (_, w') => (ODone r, w')
      end
  | ODone r => (ODone r, w)
  | OCrash => (OCrash, w)
  end.

(** One action of the forwarder; [timer] tells which ready case the select takes. *)
Definition forward_step (timer : bool) (f : forwarder) (w : sworld) : forwarder * sworld :=
  match f with
  | FNone => (FNone, w)
  | FCheck =>
      if ended (sv w) || negb (transport (sv w)) then (FExit, w)
      else if needAck (sv w) then (FSleep, w)
      else (FRead (if 65536 <? sock_max w then 65536 else sock_max w), w)
  | FSleep =>
      if timer then (FCheck, w)
      else if endCh_closed (sv w) then (FExit, w) else (FSleep, w)
  | FRead max =>
      match on_dev (Read (Z.to_nat max)) w with
      | (Ok [], w') => (FCheck, w')
      | (Ok chunk, w') => (FSend chunk, w')
      | (Err _, w') => (FExit, w')
      | (_, w') => (FCrash, w')
      end
  | FSend chunk =>
      if ended (sv w) then (FCheck, w)
      else match attempt (send (mkOut A_WRTE (localID (sv w)) (remoteID (sv w)) (Some chunk))) w with
           | (Ok _, w') => (FCheck, with_sv w' (set_needAck true (sv w')))
           | (_, w') => (FCrash, w')
           end
  | FExit =>
      match Service_End w with
      | (Panic, w') => (FCrash, w')
      | (_, w') => (FClose, w')
      end
  | FClose =>
      if doneCh_closed (sv w) then (FCrash, w) else (FDone, with_sv w (set_done (sv w)))
  | FDone => (FDone, w)
  | FCrash => (FCrash, w)
  end.

(** [tryPush]: called by nothing in the package. *)
Definition tryPush : io sworld unit :=
  s ← get_sv;
  if needAck s || ended s || negb (transport s) then mret tt
  else
    max ← get_max;
    r ← attempt (on_dev (Read (Z.to_nat max)));
    match r with
    | inr _ => mret tt
    | inl [] => mret tt
    | inl chunk =>
        _ ← attempt (send (mkOut A_WRTE (localID s) (remoteID s) (Some chunk)));
        upd_sv (set_needAck true)
    end.

(** ** Interleavings *)

(** A service with its threads.  [in_map]: the socket's service map still holds
    it, so packets reach it.  The last three fields record history: the OKAY
    packets handled, the bytes the forwarder has read from the device, and the
    client bytes passed on to the device. *)
Record scfg := mkCfg {
  sw : sworld;
  op : opener;
  fw : forwarder;
  in_map : bool;
  acks : nat;
  got : bytes;
  given : bytes
}.

Definition no_conn : conn := mkConn [] [] [] false.

(** The state right after the socket inserted the service and spawned its goroutine. *)
Definition init_cfg (lid rid max : Z) : scfg :=
  mkCfg (mkSW (NewService lid rid) no_conn false max true []) ODial FNone true 0 [] [].

Section interleaving.
(* The open packet, what dialling the device returns, and which packets the
   client may send in a state. *)
Context (p0 : Packet) (dial : conn + goerror) (allowed : scfg -> Packet -> Prop).

Inductive sstep : scfg -> scfg -> Prop :=
  | st_open c o' w' :
      opener_step p0 dial (op c) (sw c) = (o', w') ->
      sstep c (mkCfg w' o' (match op c with OOpened => FCheck | _ => fw c end)
                 (match op c with OFinish _ => false | _ => in_map c end)
                 (acks c) (got c) (given c))
  | st_forward c timer f' w' :
      forward_step timer (fw c) (sw c) = (f', w') ->
      sstep c (mkCfg w' (op c) f' (in_map c) (acks c)
                 (match f' with FSend chunk => got c ++ chunk | _ => got c end) (given c))
  | st_packet c p m r w' :
      in_map c = true -> allowed c p -> Handle p = Some m -> m (sw c) = (r, w') ->
      sstep c (mkCfg w' (op c) (fw c) (in_map c)
                 (if Command p =? A_OKAY then S (acks c) else acks c) (got c)
                 (if (Command p =? A_WRTE) && transport (sv (sw c)) && bool_decide (r = Ok tt)
                  then given c ++ data_bytes (Data p) else given c))
  | st_map_end c r w' :   (* ServiceMap.End, from Socket.End *)
      in_map c = true -> sock_ended (sw c) = true -> Service_End (sw c) = (r, w') ->
      sstep c (mkCfg w' (op c) (fw c) false (acks c) (got c) (given c))
  | st_unmap c :          (* the id was removed from the map *)
      sstep c (mkCfg (sw c) (op c) (fw c) false (acks c) (got c) (given c))
  | st_sock_ended c :     (* Socket.End sets the flag *)
      sstep c (mkCfg (mkSW (sv (sw c)) (dev (sw c)) true (sock_max (sw c)) (cli_ok (sw c)) (out (sw c)))
                 (op c) (fw c) (in_map c) (acks c) (got c) (given c))
  | st_cli_fail c :       (* the client connection breaks *)
      sstep c (mkCfg (mkSW (sv (sw c)) (dev (sw c)) (sock_ended (sw c)) (sock_max (sw c)) false (out (sw c)))
                 (op c) (fw c) (in_map c) (acks c) (got c) (given c))
  | st_max c m :          (* another A_CNXN sets the payload limit *)
      0 <= m <= 65535 ->
      sstep c (mkCfg (mkSW (sv (sw c)) (dev (sw c)) (sock_ended (sw c)) m (cli_ok (sw c)) (out (sw c)))
                 (op c) (fw c) (in_map c) (acks c) (got c) (given c)).

(** States the service can be in. *)
Inductive reachable (lid rid max : Z) : scfg -> Prop :=
  | reach_init : reachable lid rid max (init_cfg lid rid max)
  | reach_step c c' : reachable lid rid max c -> sstep c c' -> reachable lid rid max c'.
End interleaving.

(** Every packet is allowed. *)
Definition any_packet (c : scfg) (p : Packet) : Prop := True.

(** ** What the trace of sent packets looks like *)

Definition is_cmd (c : Z) (m : OutPacket) : bool := o_command m =? c.

Definition wrtes (l : list OutPacket) : nat := length (filter (fun m => is_cmd A_WRTE m = true) l).

(** The device bytes the client has been sent. *)
Definition wrte_data (l : list OutPacket) : bytes :=
  concat ((fun m => if is_cmd A_WRTE m then data_bytes (o_data m) else []) <$> l).

(** The three kinds of packets a service sends. *)
Definition service_packet (lid rid : Z) (m : OutPacket) : Prop :=
  m = mkOut A_OKAY lid rid None \/
  (exists chunk, m = mkOut A_WRTE lid rid (Some chunk) /\ (0 < length chunk)%nat /\ zlen chunk <= 65535) \/
  m = mkOut A_CLSE lid rid None \/ m = mkOut A_CLSE 0 rid None.

(** After a CLSE neither another CLSE nor data. *)
Definition closes_once (l : list OutPacket) : Prop :=
  forall pre m post, l = pre ++ m :: post -> is_cmd A_CLSE m = true ->
    Forall (fun x => is_cmd A_OKAY x = true) post.

(** Data only after the OKAY that acknowledges the open. *)
Definition okay_first (lid rid : Z) (l : list OutPacket) : Prop :=
  forall pre m post, l = pre ++ m :: post -> is_cmd A_WRTE m = true ->
    mkOut A_OKAY lid rid None ∈ pre.

Definition muted (w : sworld) : bool := sock_ended w || negb (cli_ok w).

Definition pend (f : forwarder) : bytes := match f with FSend chunk => chunk | _ => [] end.

Definition opener_after_open (o : opener) : bool :=
  match o with OWait | OFinish _ | ORemoved _ | ODone _ => true | _ => false end.

(** The transport has been stored in the service (and is nil again only if the
    service has ended). *)
Definition attached (o : opener) (f : forwarder) : bool :=
  match o with
  | OWriteName | OReadReply | OReply _ | OOpened => true
  | _ => bool_decide (f <> FNone)
  end.

(** The inductive invariant. *)
Record inv (lid rid : Z) (w : sworld) (o : opener) (f : forwarder) (a : nat) (g : bytes) : Prop := {
  inv_local : localID (sv w) = lid;
  inv_remote : remoteID (sv w) = rid;
  inv_endch : endCh_closed (sv w) = ended (sv w);
  inv_donech : doneCh_closed (sv w) = bool_decide (f = FDone);
  inv_transport : ended (sv w) = true -> transport (sv w) = false;
  inv_fw_op : f <> FNone -> opener_after_open o = true;
  inv_fw_opened : f <> FNone -> opened (sv w) = true;
  inv_attached : attached o f = true -> ended (sv w) = negb (transport (sv w));
  inv_closed : attached o f = true -> ended (sv w) = true -> conn_closed (dev w) = true;
  inv_ack : (exists m, f = FRead m) \/ (exists ch, f = FSend ch) -> needAck (sv w) = false;
  inv_max : 0 <= sock_max w <= 65535;
  inv_read : forall m, f = FRead m -> 0 <= m <= 65535;
  inv_send : forall ch, f = FSend ch -> (0 < length ch)%nat /\ zlen ch <= 65535;
  inv_nocrash : f <> FCrash;
  inv_packets : Forall (service_packet lid rid) (out w);
  inv_flow : (wrtes (out w) <= a + Nat.b2n (needAck (sv w)))%nat;
  inv_clse : Exists (fun m => is_cmd A_CLSE m = true) (out w) -> ended (sv w) = true;
  inv_once : closes_once (out w);
  inv_okay : f <> FNone \/ o = OOpened -> mkOut A_OKAY lid rid None ∈ out w \/ muted w = true;
  inv_first : okay_first lid rid (out w);
  inv_data : exists lost, g = wrte_data (out w) ++ lost ++ pend f /\
               (lost = [] \/ ended (sv w) = true \/ muted w = true)
}.

(** ** Lemmas on the atomic methods *)

Definition close_conn (c : conn) : conn := mkConn (rd c) (wr_plan c) (written c) true.

Definition push (w : sworld) (m : OutPacket) : list OutPacket :=
  if muted w then out w else out w ++ [m].

Lemma send_spec m w b :
  assemble_out m = Ok b ->
  (send m w).2 = with_out w (push w m) /\
  exists r, attempt (send m) w = (Ok r, with_out w (push w m)).
Proof.
  intros E. unfold attempt, send, mbind, io_bind, of_outcome. rewrite E.
  unfold sock_write, push, muted. destruct w as [? ? [] ? [] o]; simpl; eauto.
Qed.

Lemma assemble_nil cmd a0 a1 : exists b, assemble_out (mkOut cmd a0 a1 None) = Ok b.
Proof. unfold assemble_out. simpl. rewrite Assemble_ok by done. eauto. Qed.

Lemma assemble_chunk cmd a0 a1 ch :
  zlen ch <= 65535 -> exists b, assemble_out (mkOut cmd a0 a1 (Some ch)) = Ok b.
Proof. intros H. unfold assemble_out. simpl. rewrite Assemble_ok by (simpl; lia). eauto. Qed.

Lemma on_dev_Close w :
  exists r, attempt (on_dev Close) w = (Ok r, with_dev w (close_conn (dev w))).
Proof.
  unfold attempt, on_dev, Close. destruct w as [s [r wp ws [|]] se sm co o]; simpl; eauto.
Qed.

(** The state [End] leaves behind. *)
Definition end_state (w : sworld) : sworld :=
  if ended (sv w) then w
  else
    let lid := if opened (sv w) then localID (sv w) else 0 in
    mkSW (set_ended (sv w))
         (if transport (sv w) then close_conn (dev w) else dev w)
         (sock_ended w) (sock_max w) (cli_ok w)
         (push w (mkOut A_CLSE lid (remoteID (sv w)) None)).

Lemma Service_End_spec w :
  endCh_closed (sv w) = ended (sv w) -> Service_End w = (Ok tt, end_state w).
Proof.
  intros H. unfold Service_End, end_state.
  rewrite (io_bind_Ok _ _ w (sv w) w) by done.
  destruct (ended (sv w)) eqn:He; [done|].
  set (cl := if transport (sv w) then close_conn (dev w) else dev w).
  rewrite (io_bind_Ok _ _ w (match (if transport (sv w) then attempt (on_dev Close) else mret (inl tt)) w with (Ok r, _) => r | _ => inl tt end) (with_dev w cl)).
  2: { unfold cl. destruct (transport (sv w)).
       - by destruct (on_dev_Close w) as [r ->].
       - by destruct w. }
  set (m := mkOut A_CLSE _ _ None).
  destruct (assemble_nil A_CLSE (if opened (sv w) then localID (sv w) else 0) (remoteID (sv w))) as [b Hb].
  destruct (send_spec m (with_dev w cl) b Hb) as [_ [r Hr]].
  rewrite (io_bind_Ok _ _ _ _ _ Hr), H. done.
Qed.

(** ** Lemmas on traces *)

Lemma snoc_split {A} (l pre post : list A) m x :
  l ++ [m] = pre ++ x :: post ->
  (post = [] /\ pre = l /\ x = m) \/ (exists post', post = post' ++ [m] /\ l = pre ++ x :: post').
Proof.
  intros E. destruct (decide (post = [])) as [->|Hne].
  - left. apply app_inj_tail in E as [-> ->]. done.
  - right. destruct (exists_last Hne) as (post' & y & ->).
    rewrite app_comm_cons, app_assoc in E. apply app_inj_tail in E as [-> ->]. eauto.
Qed.

Lemma closes_once_snoc l m :
  closes_once l ->
  (Exists (fun x => is_cmd A_CLSE x = true) l -> is_cmd A_OKAY m = true) ->
  closes_once (l ++ [m]).
Proof.
  intros Hl Hm pre x post E Hx. apply snoc_split in E as [(-> & -> & ->) | (post' & -> & ->)].
  - constructor.
  - apply Forall_app. split; [by eapply Hl|]. constructor; [|constructor].
    apply Hm. apply Exists_app. right. by left.
Qed.

Lemma okay_first_snoc lid rid l m :
  okay_first lid rid l ->
  (is_cmd A_WRTE m = true -> mkOut A_OKAY lid rid None ∈ l) ->
  okay_first lid rid (l ++ [m]).
Proof.
  intros Hl Hm pre x post E Hx. apply snoc_split in E as [(-> & -> & ->) | (post' & -> & ->)].
  - by apply Hm.
  - by eapply Hl.
Qed.

Lemma wrtes_snoc l m : wrtes (l ++ [m]) = (wrtes l + Nat.b2n (is_cmd A_WRTE m))%nat.
Proof.
  unfold wrtes. rewrite filter_app, length_app. f_equal. simpl.
  unfold filter, list_filter. case_decide as H; [by rewrite H|].
  apply not_true_is_false in H. by rewrite H.
Qed.

Lemma wrte_data_snoc l m :
  wrte_data (l ++ [m]) = wrte_data l ++ (if is_cmd A_WRTE m then data_bytes (o_data m) else []).
Proof. unfold wrte_data. rewrite fmap_app, concat_app. simpl. by rewrite app_nil_r. Qed.

Lemma muted_push w m : muted w = true -> push w m = out w.
Proof. unfold push. by intros ->. Qed.

Lemma live_push w m : muted w = false -> push w m = out w ++ [m].
Proof. unfold push. by intros ->. Qed.

(** ** The invariant is preserved *)


Section invariant.
Context (lid rid : Z).
Abbreviation inv := (inv lid rid).

Lemma inv_end w o f a g : inv w o f a g -> inv (end_state w) o f a g.
Proof.
  intros H. unfold end_state. destruct (ended (sv w)) eqn:He; [done|].
  set (m := mkOut A_CLSE _ _ None).
  assert (Hm : service_packet lid rid m).
  { unfold m, service_packet. rewrite (inv_local _ _ _ _ _ _ _ H), (inv_remote _ _ _ _ _ _ _ H).
    destruct (opened (sv w)); auto. }
  assert (Hnc : ~ Exists (fun x => is_cmd A_CLSE x = true) (out w))
    by (intros Hc; by rewrite (inv_clse _ _ _ _ _ _ _ H Hc) in He).
  destruct H. constructor; simpl; try done.
  - intros Hf _. by rewrite inv_attached0, negb_false_iff in He; [rewrite He|].
  - unfold push. destruct (muted w); [done|]. apply Forall_app; auto.
  - unfold push. destruct (muted w); [done|]. rewrite wrtes_snoc. simpl. lia.
  - unfold push. destruct (muted w); [done|]. by apply closes_once_snoc.
  - intros Hf. destruct (inv_okay0 Hf) as [Hin|Hmu]; [left|by right].
    unfold push. destruct (muted w); [done|]. by apply elem_of_app; left.
  - unfold push. destruct (muted w); [done|]. by apply okay_first_snoc.
  - destruct inv_data0 as (lost & Hg & _). exists lost. split; [|by right; left].
    unfold push. destruct (muted w); [done|]. rewrite wrte_data_snoc. simpl. by rewrite app_nil_r.
Qed.

Lemma inv_push_okay w o f a g :
  inv w o f a g -> inv (with_out w (push w (mkOut A_OKAY lid rid None))) o f a g.
Proof.
  intros H. unfold push. destruct (muted w) eqn:Hmu; [by destruct w|].
  destruct H. constructor; simpl; try done.
  - apply Forall_app. split; [done|]. constructor; [by left | done].
  - rewrite wrtes_snoc. simpl. lia.
  - intros He. apply Exists_app in He as [?|He]; [auto|]. inversion He; [done|]. by inversion H0.
  - by apply closes_once_snoc.
  - intros _. left. apply elem_of_app. right. by left.
  - by apply okay_first_snoc.
  - destruct inv_data0 as (lost & Hg & Hl). exists lost. split; [|done].
    rewrite wrte_data_snoc. simpl. by rewrite app_nil_r.
Qed.

(** A change that the invariant does not see. *)
Lemma inv_dev w c o f a g :
  inv w o f a g -> (conn_closed (dev w) = true -> conn_closed c = true) ->
  inv (with_dev w c) o f a g.
Proof. intros H Hc. destruct H. constructor; simpl; auto. Qed.

(** Moving the opener's program counter. *)
Lemma inv_op w o o' f a g :
  inv w o f a g -> (f <> FNone -> opener_after_open o' = true) -> o' <> OOpened ->
  (attached o' f = true -> attached o f = true) -> inv w o' f a g.
Proof.
  intros H Hf Ho Ha. destruct H. constructor; auto. intros [?|?]; [by auto | done].
Qed.

Lemma inv_idle w o f a g : inv w o f a g -> opener_after_open o = false -> f = FNone.
Proof.
  intros H Ho. destruct (decide (f = FNone)) as [|Hf]; [done|].
  by rewrite (inv_fw_op _ _ _ _ _ _ _ H Hf) in Ho.
Qed.

Lemma inv_dial w c a g : inv w ODial FNone a g -> inv (with_dev w c) OAssign FNone a g.
Proof. intros H. destruct H. constructor; simpl; try done. by intros [?|?]. Qed.

Lemma inv_assign w a g :
  inv w OAssign FNone a g -> ended (sv w) = false ->
  inv (with_sv w (set_transport true (sv w))) OWriteName FNone a g.
Proof.
  intros H He. destruct H. constructor; simpl; try done; [congruence..|].
  intros [?|?]; done.
Qed.

Lemma inv_reply_okay w a g :
  inv w (OReply (str "OKAY")) FNone a g ->
  inv (with_out w (push w (mkOut A_OKAY lid rid None))) OOpened FNone a g.
Proof.
  intros H%inv_push_okay. destruct H. constructor; try done. intros _.
  unfold push. destruct (muted w) eqn:Hm; [by right | left].
  apply elem_of_app. right. by left.
Qed.

Lemma inv_start w a g :
  inv w OOpened FNone a g -> inv (with_sv w (set_opened (sv w))) OWait FCheck a g.
Proof.
  intros H. destruct H. constructor; simpl; try done.
  - by intros [[]|[]].
  - intros _. apply inv_okay0. by right.
Qed.

Lemma on_dev_inv {A} (m : io conn A) w r w' :
  on_dev m w = (r, w') -> exists c, m (dev w) = (r, c) /\ w' = with_dev w c.
Proof. unfold on_dev. destruct (m (dev w)) as [r' c]. intros [= <- <-]. eauto. Qed.

Lemma on_dev_eq {A} (m : io conn A) w r c :
  m (dev w) = (r, c) -> on_dev m w = (r, with_dev w c).
Proof. unfold on_dev. by intros ->. Qed.

Lemma inv_on_dev {A} (m : io conn A) w o o' f a g r w' :
  inv w o f a g -> on_dev m w = (r, w') ->
  keeps_closed m -> (f <> FNone -> opener_after_open o' = true) -> o' <> OOpened ->
  (attached o' f = true -> attached o f = true) -> inv w' o' f a g.
Proof.
  intros H E Hm Hf Ho Ha. apply on_dev_inv in E as (c & E & ->).
  eapply inv_op; [|done..]. apply inv_dev; [done|]. eauto.
Qed.

Ltac dev_step H Ec :=
  by eapply inv_on_dev; [exact H | exact Ec | auto with adb | done | done | done].

Lemma inv_opener p0 dial w o f a g o' w' :
  inv w o f a g -> opener_step p0 dial o w = (o', w') ->
  inv w' o' (match o with OOpened => FCheck | _ => f end) a g.
Proof.
  intros H E. destruct (opener_after_open o) eqn:Ho.
  - destruct o; simplify_eq/=; try done.
    + destruct (doneCh_closed (sv w)); simplify_eq; [by eapply inv_op | done].
    + by eapply inv_op.
    + rewrite Service_End_spec in E by apply H. simplify_eq.
      apply (inv_op _ (ORemoved r)); [by apply inv_end | done..].
  - assert (f = FNone) as -> by (by eapply inv_idle).
    destruct o; simpl in E; try done.
    + destruct dial as [c|e]; simplify_eq; [by apply inv_dial | by eapply inv_op].
    + destruct (ended (sv w)) eqn:He; simplify_eq; [|by apply inv_assign].
      destruct (on_dev Close w) as [r w1] eqn:Ec. dev_step H Ec.
    + destruct (data_bytes (Data p0)) as [|b d]; [simplify_eq; by eapply inv_op|].
      destruct (negb (transport (sv w))); [simplify_eq; by eapply inv_op|].
      destruct (on_dev _ w) as [r w1] eqn:Ec.
      destruct r; simplify_eq; dev_step H Ec.
    + destruct (negb (transport (sv w))); [simplify_eq; by eapply inv_op|].
      destruct (on_dev (ReadFull 4) w) as [r w1] eqn:Ec.
      destruct r; simplify_eq; dev_step H Ec.
    + destruct (decide _) as [->|Hr].
      * destruct (assemble_nil A_OKAY (localID (sv w)) (remoteID (sv w))) as [b Hb].
        rewrite (proj1 (send_spec _ w b Hb)) in E. simplify_eq.
        rewrite (inv_local _ _ _ _ _ _ _ H), (inv_remote _ _ _ _ _ _ _ H).
        by apply inv_reply_okay.
      * destruct (decide _); [|simplify_eq; by eapply inv_op].
        destruct (negb (transport (sv w))); [simplify_eq; by eapply inv_op|].
        destruct (on_dev (ReadFull 4) w) as [r w1] eqn:Ec. simplify_eq.
        dev_step H Ec.
    + simplify_eq. by apply inv_start.
    + by simplify_eq.
Qed.

Lemma attached_running o f : f <> FNone -> attached o f = true.
Proof. intros Hf. destruct o; simpl; try done; by apply bool_decide_eq_true. Qed.

(** Moving the forwarder between states with nothing in flight. *)
Definition quiet (f : forwarder) : bool :=
  match f with FCheck | FSleep | FExit | FClose => true | _ => false end.

Lemma inv_quiet w o f f' a g :
  inv w o f a g -> f <> FNone -> f <> FDone -> pend f = [] -> quiet f' = true ->
  inv w o f' a g.
Proof.
  intros H Hf Hd Hp Hq. assert (Hf' : f' <> FNone) by (by intros ->).
  pose proof (attached_running o f Hf). destruct H.
  constructor; auto; try (by destruct f').
  - rewrite inv_donech0. destruct f'; try done; by rewrite !bool_decide_false.
  - intros [[m ->]|[m ->]]; done.
  - by destruct inv_data0 as (lost & Hg & Hl); exists lost; rewrite Hp in Hg; destruct f'.
Qed.

Lemma inv_to_read w o a g :
  inv w o FCheck a g -> needAck (sv w) = false ->
  inv w o (FRead (if 65536 <? sock_max w then 65536 else sock_max w)) a g.
Proof.
  intros H Hn. pose proof (inv_max _ _ _ _ _ _ _ H) as Hmx.
  rewrite (proj2 (Z.ltb_ge _ _)) by lia.
  pose proof (attached_running o FCheck ltac:(done)). destruct H.
  constructor; auto; try done.
  intros m [= <-]. done.
Qed.

Lemma inv_chunk w o m a g ch w' :
  inv w o (FRead m) a g -> on_dev (Read (Z.to_nat m)) w = (Ok ch, w') -> ch <> [] ->
  inv w' o (FSend ch) a (g ++ ch).
Proof.
  intros H E Hne. pose proof (inv_read _ _ _ _ _ _ _ H m eq_refl) as Hm.
  apply on_dev_inv in E as (c & E & ->).
  pose proof (Read_length _ _ _ _ E) as Hlen.
  assert (Hc : conn_closed (dev w) = true -> conn_closed c = true)
    by (intros; by eapply Read_keeps).
  pose proof (attached_running o (FRead m) ltac:(done)). destruct H.
  constructor; simpl; auto; try done.
  - intros _. apply inv_ack0. eauto.
  - intros ch' [= <-]. destruct ch; [done|]. unfold zlen in *. simpl in *. lia.
  - destruct inv_data0 as (lost & -> & Hl). exists lost. simpl. by rewrite app_nil_r, app_assoc.
Qed.

Lemma inv_sent w o a g ch :
  inv w o (FSend ch) a g -> ended (sv w) = false ->
  inv (with_sv (with_out w (push w (mkOut A_WRTE lid rid (Some ch))))
               (set_needAck true (sv w))) o FCheck a g.
Proof.
  intros H He. destruct (inv_send _ _ _ _ _ _ _ H ch eq_refl) as [Hpos Hmax].
  pose proof (inv_ack _ _ _ _ _ _ _ H ltac:(eauto)) as Hn.
  pose proof (attached_running o (FSend ch) ltac:(done)). destruct H.
  rewrite Hn in inv_flow0. simpl in inv_flow0.
  unfold push. destruct (muted w) eqn:Hmu.
  - constructor; simpl; auto; try done.
    + by intros [[? ?]|[? ?]].
    + lia.
    + destruct inv_data0 as (lost & -> & _). exists (lost ++ ch). rewrite app_nil_r. simpl. auto.
  - constructor; simpl; auto; try done.
    + by intros [[? ?]|[? ?]].
    + apply Forall_app. split; [done|]. constructor; [|done]. right. left. eauto.
    + rewrite wrtes_snoc. simpl. lia.
    + intros Hx. apply Exists_app in Hx as [Hx|Hx]; [auto|].
      apply Exists_cons in Hx as [Hx|Hx]; [done | by inversion Hx].
    + apply closes_once_snoc; [done|]. intros Hx. apply inv_clse0 in Hx. congruence.
    + intros _. left. apply elem_of_app. left.
      by destruct (inv_okay0 ltac:(by left)); [|congruence].
    + apply okay_first_snoc; [done|]. intros _.
      by destruct (inv_okay0 ltac:(by left)); [|congruence].
    + destruct inv_data0 as (lost & -> & [->|[?|?]]); [|congruence..].
      exists []. rewrite wrte_data_snoc. simpl. rewrite !app_nil_r. auto.
Qed.

Lemma inv_drop w o a g ch :
  inv w o (FSend ch) a g -> ended (sv w) = true -> inv w o FCheck a g.
Proof.
  intros H He. pose proof (attached_running o (FSend ch) ltac:(done)). destruct H.
  constructor; simpl; auto; try done.
  - by intros [[? ?]|[? ?]].
  - destruct inv_data0 as (lost & -> & _). exists (lost ++ ch). rewrite app_nil_r. simpl. auto.
Qed.

Lemma inv_done w o a g :
  inv w o FClose a g -> inv (with_sv w (set_done (sv w))) o FDone a g.
Proof.
  intros H. pose proof (attached_running o FClose ltac:(done)). destruct H.
  constructor; simpl; auto; try done.
  by intros [[? ?]|[? ?]].
Qed.

Lemma inv_forward timer w o f a g f' w' :
  inv w o f a g -> forward_step timer f w = (f', w') ->
  inv w' o f' a (match f' with FSend ch => g ++ ch | _ => g end).
Proof.
  intros H E. destruct f; simpl in E; simplify_eq; try done.
  - destruct (ended (sv w) || negb (transport (sv w))); [simplify_eq; by eapply inv_quiet|].
    destruct (needAck (sv w)) eqn:Hn; simplify_eq; [by eapply inv_quiet|].
    by apply inv_to_read.
  - destruct timer; [simplify_eq; by eapply inv_quiet|].
    destruct (endCh_closed (sv w)); simplify_eq; by eapply inv_quiet.
  - destruct (on_dev (Read (Z.to_nat max)) w) as [r w1] eqn:Ec.
    destruct (Read_cases (Z.to_nat max) (dev w)) as [(b & c & Er)|(e & c & Er)];
      pose proof Ec as Ec'; rewrite (on_dev_eq _ _ _ _ Er) in Ec'; simplify_eq.
    + destruct b as [|x b]; simplify_eq; [|by eapply inv_chunk].
      apply (inv_quiet _ _ (FRead max)); [|done..].
      apply inv_dev; [exact H | intros; by eapply Read_keeps].
    + apply (inv_quiet _ _ (FRead max)); [|done..].
      apply inv_dev; [exact H | intros; by eapply Read_keeps].
  - destruct (ended (sv w)) eqn:He; [simplify_eq; by eapply inv_drop|].
    destruct (inv_send _ _ _ _ _ _ _ H chunk eq_refl) as [_ Hmax].
    destruct (assemble_chunk A_WRTE (localID (sv w)) (remoteID (sv w)) chunk Hmax) as [b Hb].
    destruct (send_spec _ w b Hb) as [_ [r Hr]]. rewrite Hr in E. simplify_eq.
    rewrite (inv_local _ _ _ _ _ _ _ H), (inv_remote _ _ _ _ _ _ _ H).
    exact (inv_sent w o a g chunk H He).
  - rewrite Service_End_spec in E by apply H. simplify_eq.
    apply (inv_quiet _ _ FExit); [by apply inv_end | done..].
  - rewrite (inv_donech _ _ _ _ _ _ _ H), bool_decide_false in E by done.
    simplify_eq. by apply inv_done.
Qed.

Lemma inv_okay_packet w o f a g :
  inv w o f a g -> inv (with_sv w (set_needAck false (sv w))) o f (S a) g.
Proof.
  intros H. destruct H. constructor; simpl; auto.
  destruct (needAck (sv w)); simpl in *; lia.
Qed.

Lemma inv_more_acks w o f a a' g : inv w o f a g -> (a <= a')%nat -> inv w o f a' g.
Proof. intros H Ha. destruct H. constructor; auto. lia. Qed.

Lemma inv_write_packet p w o f a g r w' :
  inv w o f a g -> handleWritePacket p w = (r, w') -> inv w' o f a g.
Proof.
  intros H E. unfold handleWritePacket in E. rewrite (io_bind_Ok _ _ w (sv w) w) in E by done.
  destruct (ended (sv w)); [by ret_inv E|].
  destruct (negb (transport (sv w))); [by ret_inv E|].
  unfold mbind, io_bind in E.
  assert (Hw : forall d r1 w1, write_data d w = (r1, w1) ->
                 inv w1 o f a g /\ sv w1 = sv w).
  { intros d r1 w1 E1. destruct d; [by injection E1 as <- <-|].
    apply on_dev_inv in E1 as (c & E1 & ->). split; [|done].
    apply inv_dev; [done|]. intros. by eapply Write_keeps. }
  destruct (write_data (data_bytes (Data p)) w) as [r1 w1] eqn:E1.
  destruct (Hw _ _ _ E1) as [Hi Hsv]. destruct r1; simplify_eq; try done.
  destruct (assemble_nil A_OKAY (localID (sv w)) (remoteID (sv w))) as [b Hb].
  destruct (send_spec _ w1 b Hb) as [_ [r2 Hr2]]. rewrite Hr2 in E.
  injection E as <- <-. rewrite (inv_local _ _ _ _ _ _ _ H), (inv_remote _ _ _ _ _ _ _ H).
  by apply inv_push_okay.
Qed.

Lemma inv_packet p m w o f a g r w' :
  inv w o f a g -> Handle p = Some m -> m w = (r, w') ->
  inv w' o f (if Command p =? A_OKAY then S a else a) g.
Proof.
  intros H Hm E. unfold Handle in Hm.
  destruct (Command p =? A_OPEN); [done|].
  destruct (Command p =? A_OKAY).
  { simplify_eq. unfold handleOkayPacket in E. rewrite (io_bind_Ok _ _ w (sv w) w) in E by done.
    destruct (ended (sv w)); [ret_inv E; eapply inv_more_acks; eauto|].
    destruct (negb (transport (sv w))).
    - ret_inv E. eapply inv_more_acks; eauto.
    - unfold upd_sv in E. simplify_eq. by apply inv_okay_packet. }
  destruct (Command p =? A_WRTE).
  { simplify_eq. by eapply inv_write_packet. }
  destruct (Command p =? A_CLSE); simplify_eq.
  - unfold handleClosePacket in E. rewrite (io_bind_Ok _ _ w (sv w) w) in E by done.
    destruct (negb (transport (sv w))); [by ret_inv E|].
    rewrite Service_End_spec in E by apply H. simplify_eq. by apply inv_end.
  - by ret_inv E.
Qed.

Lemma inv_env w se mx co o f a g :
  inv w o f a g -> (sock_ended w = true -> se = true) -> (co = true -> cli_ok w = true) ->
  0 <= mx <= 65535 ->
  inv (mkSW (sv w) (dev w) se mx co (out w)) o f a g.
Proof.
  intros H Hse Hco Hmx.
  assert (Hmu : muted w = true -> muted (mkSW (sv w) (dev w) se mx co (out w)) = true).
  { unfold muted. simpl. rewrite !orb_true_iff, !negb_true_iff.
    intros [Hs|Hc]; [left; auto | right]. destruct co; [by rewrite Hco in Hc|done]. }
  destruct H. constructor; simpl; auto.
  - intros Hf. destruct (inv_okay0 Hf); auto.
  - destruct inv_data0 as (lost & Hg & [?|[?|?]]); exists lost; auto.
Qed.
End invariant.

Lemma inv_init lid rid max :
  0 <= max <= 65535 ->
  let c := init_cfg lid rid max in inv lid rid (sw c) (op c) (fw c) (acks c) (got c).
Proof.
  intros Hm. constructor; simpl; try done;
    try (intros pre m post E; by destruct pre); try (by intros [?|?]).
  - intros H; inversion H.
  - exists []. auto.
Qed.

(** The invariant holds in every reachable state. *)
Lemma inv_reachable p0 dial allowed lid rid max c :
  0 <= max <= 65535 -> reachable p0 dial allowed lid rid max c ->
  inv lid rid (sw c) (op c) (fw c) (acks c) (got c).
Proof.
  intros Hm. induction 1 as [|c c' Hr IH Hs]; [by apply inv_init|].
  destruct Hs; simpl.
  - by eapply inv_opener.
  - by eapply inv_forward.
  - by eapply inv_packet.
  - rewrite Service_End_spec in H1 by apply IH. simplify_eq. by apply inv_end.
  - done.
  - apply inv_env; [done..|apply IH].
  - apply inv_env; [done..|apply IH].
  - by apply inv_env.
Qed.

(** ** Thread runs *)

Fixpoint run_forward (timers : list bool) (f : forwarder) (w : sworld) : forwarder * sworld :=
  match timers with
  | [] => (f, w)
  | t :: ts => let '(f', w') := forward_step t f w in run_forward ts f' w'
  end.

Fixpoint run_opener (p0 : Packet) (dial : conn + goerror) (n : nat) (o : opener) (w : sworld)
  : opener * sworld :=
  match n with
  | O => (o, w)
  | S k => let '(o', w') := opener_step p0 dial o w in run_opener p0 dial k o' w'
  end.

Lemma run_forward_done ts w : run_forward ts FDone w = (FDone, w).
Proof. induction ts; simpl; auto. Qed.

(** Once ended, the forwarder runs to its end, whatever the select chooses. *)
Lemma ended_forward lid rid o a g ts f w :
  inv lid rid w o f a g -> f <> FNone -> ended (sv w) = true -> (4 <= length ts)%nat ->
  exists w', run_forward ts f w = (FDone, w') /\ doneCh_closed (sv w') = true /\
    ended (sv w') = true /\ out w' = out w /\ endCh_closed (sv w') = true.
Proof.
  intros H Hf He Hts.
  assert (Hend : end_state w = w) by (unfold end_state; by rewrite He).
  assert (Hce : endCh_closed (sv w) = true) by (by rewrite (inv_endch _ _ _ _ _ _ _ H)).
  assert (Hclose : forall ts, (1 <= length ts)%nat -> doneCh_closed (sv w) = false ->
            run_forward ts FClose w = (FDone, with_sv w (set_done (sv w)))).
  { intros [|t ts0] Hl Hd; simpl in *; [lia|]. rewrite Hd. apply run_forward_done. }
  assert (Hexit : forall ts, (2 <= length ts)%nat -> doneCh_closed (sv w) = false ->
            run_forward ts FExit w = (FDone, with_sv w (set_done (sv w)))).
  { intros [|t ts0] Hl Hd; simpl in *; [lia|].
    rewrite Service_End_spec, Hend by apply H. apply Hclose; [lia|done]. }
  assert (Hcheck : forall ts, (3 <= length ts)%nat -> doneCh_closed (sv w) = false ->
            run_forward ts FCheck w = (FDone, with_sv w (set_done (sv w)))).
  { intros [|t ts0] Hl Hd; simpl in *; [lia|]. rewrite He. simpl. apply Hexit; [lia|done]. }
  pose proof (inv_donech _ _ _ _ _ _ _ H) as Hd.
  destruct (decide (f = FDone)) as [->|Hnd].
  { exists w. rewrite run_forward_done. rewrite Hd. by rewrite bool_decide_true. }
  rewrite bool_decide_false in Hd by done. exists (with_sv w (set_done (sv w))).
  split_and!; [|done..].
  destruct f; try done; try (apply Hcheck + apply Hexit + apply Hclose; [lia | done]).
  - destruct ts as [|[] ts]; simpl in *; [lia | apply Hcheck; [lia|done] |].
    rewrite Hce. apply Hexit; [lia|done].
  - destruct ts as [|t ts]; simpl in *; [lia|].
    rewrite (on_dev_eq _ w (Err net_closed) (dev w))
      by (apply Read_closed; by eapply (inv_closed _ _ _ _ _ _ _ H); [apply attached_running|]).
    destruct w; apply Hexit; [lia | done].
  - destruct ts as [|t ts]; simpl in *; [lia|]. rewrite He. apply Hcheck; [lia|done].
  - by destruct (inv_nocrash _ _ _ _ _ _ _ H).
Qed.

Lemma finished_opener p0 dial o w :
  opener_after_open o = true -> endCh_closed (sv w) = ended (sv w) ->
  doneCh_closed (sv w) = true ->
  exists r w', run_opener p0 dial 3 o w = (ODone r, w').
Proof.
  intros Ho He Hd. destruct o; try done; cbn -[Service_End].
  - rewrite Hd. cbn -[Service_End]. rewrite Service_End_spec by done. eauto.
  - rewrite Service_End_spec by done. eauto.
  - rewrite Service_End_spec by done. eauto.
  - eauto.
Qed.

(** ** Properties *)

(** C1. Flow control: in every interleaving, the bridge has sent at most one
    data packet more than the client's OKAYs it has handled - a second WRTE of
    a service is never sent before the first is acknowledged. *)
Theorem service_flow_control p0 dial allowed lid rid max c :
  0 <= max <= 65535 -> reachable p0 dial allowed lid rid max c ->
  (wrtes (out (sw c)) <= S (acks c))%nat /\
  (needAck (sv (sw c)) = false -> (wrtes (out (sw c)) <= acks c)%nat).
Proof.
  intros Hm Hr. pose proof (inv_reachable _ _ _ _ _ _ _ Hm Hr) as H.
  pose proof (inv_flow _ _ _ _ _ _ _ H) as Hf.
  split; [destruct (needAck (sv (sw c))); simpl in Hf; lia|].
  intros Hn. rewrite Hn in Hf. simpl in Hf. lia.
Qed.

(** C2. Stream fidelity: the data packets the client receives carry the device's
    bytes unchanged and in order - their concatenation is a prefix of what was
    read from the transport, and while the service is live and the client
    reachable only the chunk being sent is missing. *)
Theorem service_stream_fidelity p0 dial allowed lid rid max c :
  0 <= max <= 65535 -> reachable p0 dial allowed lid rid max c ->
  exists rest, got c = wrte_data (out (sw c)) ++ rest /\
    (ended (sv (sw c)) = false -> muted (sw c) = false -> rest = pend (fw c)).
Proof.
  intros Hm Hr. pose proof (inv_reachable _ _ _ _ _ _ _ Hm Hr) as H.
  destruct (inv_data _ _ _ _ _ _ _ H) as (lost & Hg & Hl).
  exists (lost ++ pend (fw c)). split; [done|].
  intros He Hmu. destruct Hl as [->|[?|?]]; [done | congruence..].
Qed.

(** C6. Packet discipline: everything a service sends is an OKAY or a WRTE with
    its own ids and 1 to 65535 data bytes, or a CLSE whose local id is its own
    or 0; data only follows the OKAY of the open; and after its CLSE a service
    sends neither data nor another CLSE. *)
Theorem service_packet_discipline p0 dial allowed lid rid max c :
  0 <= max <= 65535 -> reachable p0 dial allowed lid rid max c ->
  Forall (service_packet lid rid) (out (sw c)) /\ okay_first lid rid (out (sw c)) /\
  closes_once (out (sw c)).
Proof.
  intros Hm Hr. pose proof (inv_reachable _ _ _ _ _ _ _ Hm Hr) as H.
  split_and!; apply H.
Qed.

(** C11. Shutdown completes and closes each channel once: in any reachable state
    [End] cannot panic, and once a running service has ended, at most four
    actions of the forwarder (whatever its select chooses) close [doneCh]
    without sending anything, after which at most three actions of the opener
    finish it. *)
Theorem service_shutdown p0 dial allowed lid rid max c timers :
  0 <= max <= 65535 -> reachable p0 dial allowed lid rid max c ->
  fst (Service_End (sw c)) = Ok tt /\ fw c <> FCrash /\
  (fw c <> FNone -> ended (sv (sw c)) = true -> (4 <= length timers)%nat ->
   exists w' r w'', run_forward timers (fw c) (sw c) = (FDone, w') /\
     out w' = out (sw c) /\ run_opener p0 dial 3 (op c) w' = (ODone r, w'')).
Proof.
  intros Hm Hr. pose proof (inv_reachable _ _ _ _ _ _ _ Hm Hr) as H.
  rewrite Service_End_spec by apply H. split_and!; [done | apply H |].
  intros Hf He Ht.
  destruct (ended_forward _ _ _ _ _ _ _ _ H Hf He Ht) as (w' & E & Hd & He' & Ho & Hc).
  destruct (finished_opener p0 dial (op c) w') as (r & w'' & E'');
    [by apply (inv_fw_op _ _ _ _ _ _ _ H) | congruence | done |].
  exists w', r, w''. done.
Qed.

(** ** Executable schedules *)

Inductive action :=
  | ActOpen | ActForward (timer : bool) | ActPacket (p : Packet)
  | ActMapEnd | ActSockEnded | ActMax (m : Z).

#[global] Instance any_packet_dec c p : Decision (any_packet c p).
Proof. unfold any_packet. apply _. Defined.

Section schedules.
Context (p0 : Packet) (dial : conn + goerror).
Context (allowed : scfg -> Packet -> Prop) `{Hal : forall c p, Decision (allowed c p)}.

Definition exec (a : action) (c : scfg) : option scfg :=
  match a with
  | ActOpen =>
      let '(o', w') := opener_step p0 dial (op c) (sw c) in
      Some (mkCfg w' o' (match op c with OOpened => FCheck | _ => fw c end)
              (match op c with OFinish _ => false | _ => in_map c end)
              (acks c) (got c) (given c))
  | ActForward t =>
      let '(f', w') := forward_step t (fw c) (sw c) in
      Some (mkCfg w' (op c) f' (in_map c) (acks c)
              (match f' with FSend chunk => got c ++ chunk | _ => got c end) (given c))
  | ActPacket p =>
      if in_map c && bool_decide (allowed c p) then
        m ← Handle p;
        let '(r, w') := m (sw c) in
        Some (mkCfg w' (op c) (fw c) (in_map c)
                (if Command p =? A_OKAY then S (acks c) else acks c) (got c)
                (if (Command p =? A_WRTE) && transport (sv (sw c)) && bool_decide (r = Ok tt)
                 then given c ++ data_bytes (Data p) else given c))
      else None
  | ActMapEnd =>
      if in_map c && sock_ended (sw c) then
        let '(_, w') := Service_End (sw c) in
        Some (mkCfg w' (op c) (fw c) false (acks c) (got c) (given c))
      else None
  | ActSockEnded =>
      Some (mkCfg (mkSW (sv (sw c)) (dev (sw c)) true (sock_max (sw c)) (cli_ok (sw c)) (out (sw c)))
              (op c) (fw c) (in_map c) (acks c) (got c) (given c))
  | ActMax m =>
      if (0 <=? m) && (m <=? 65535) then
        Some (mkCfg (mkSW (sv (sw c)) (dev (sw c)) (sock_ended (sw c)) m (cli_ok (sw c)) (out (sw c)))
                (op c) (fw c) (in_map c) (acks c) (got c) (given c))
      else None
  end.

Fixpoint exec_all (acts : list action) (c : scfg) : option scfg :=
  match acts with [] => Some c | a :: r => c' ← exec a c; exec_all r c' end.

Lemma exec_step a c c' : exec a c = Some c' -> sstep p0 dial allowed c c'.
Proof.
  destruct a; cbn [exec].
  - destruct (opener_step p0 dial (op c) (sw c)) eqn:E. intros [= <-]. by apply st_open.
  - destruct (forward_step timer (fw c) (sw c)) eqn:E. intros [= <-]. by eapply st_forward.
  - destruct (in_map c) eqn:Hi; [|done]. cbn [andb]. case_bool_decide; [|done].
    destruct (Handle p) as [m|] eqn:Hh; [|done].
    cbn [mbind option_bind]. destruct (m (sw c)) eqn:E. intros [= <-].
    rewrite <- Hi. by eapply st_packet.
  - destruct (in_map c) eqn:Hi, (sock_ended (sw c)) eqn:Hs; try done. cbn [andb].
    destruct (Service_End (sw c)) eqn:E. intros [= <-]. by eapply st_map_end.
  - intros [= <-]. apply st_sock_ended.
  - destruct (Z.leb_spec 0 m), (Z.leb_spec m 65535); try done. intros [= <-]. by apply st_max.
Qed.

Lemma exec_reachable acts lid rid max c :
  exec_all acts (init_cfg lid rid max) = Some c -> reachable p0 dial allowed lid rid max c.
Proof.
  assert (H : forall c0, reachable p0 dial allowed lid rid max c0 ->
    exec_all acts c0 = Some c -> reachable p0 dial allowed lid rid max c).
  { induction acts as [|a acts IH]; intros c0 Hr E; simpl in E; [by simplify_eq|].
    apply bind_Some in E as (c1 & E1 & E2). eapply IH; [|done].
    eapply reach_step; [done|]. by eapply exec_step. }
  apply H. constructor.
Qed.
End schedules.

(** A device that accepts the service, sends [hello] and closes; a client that
    acknowledges. *)
Definition ex_open : Packet := mkPacket A_OPEN 9 0 9 0 0 (Some (str "shell:ls" ++ [x00])).
Definition ex_dial : conn + goerror := inl (mkConn [RChunk (str "OKAY"); RChunk (str "hello")] [] [] false).
Definition ex_okay : Packet := mkPacket A_OKAY 9 2 0 0 0 None.

Definition ex_acts : list action :=
  replicate 6 ActOpen ++ replicate 3 (ActForward true) ++ [ActPacket ex_okay] ++
  replicate 3 (ActForward true).

Definition ex_cfg : scfg := default (init_cfg 2 9 4096) (exec_all ex_open ex_dial any_packet ex_acts (init_cfg 2 9 4096)).

Lemma ex_cfg_reachable : reachable ex_open ex_dial any_packet 2 9 4096 ex_cfg.
Proof. apply (exec_reachable _ _ _ ex_acts). vm_compute. reflexivity. Qed.

Lemma service_flow_control_witness :
  (wrtes (out (sw ex_cfg)) <= S (acks ex_cfg))%nat /\ wrtes (out (sw ex_cfg)) = 1%nat.
Proof.
  split; [|by vm_compute].
  destruct (service_flow_control ex_open ex_dial any_packet 2 9 4096 ex_cfg) as [H _];
    [lia | exact ex_cfg_reachable | exact H].
Defined.

Lemma service_stream_fidelity_witness :
  (exists rest, got ex_cfg = wrte_data (out (sw ex_cfg)) ++ rest) /\ got ex_cfg = str "hello".
Proof.
  split; [|by vm_compute].
  destruct (service_stream_fidelity ex_open ex_dial any_packet 2 9 4096 ex_cfg) as [rest [H _]];
    [lia | exact ex_cfg_reachable | exists rest; exact H].
Defined.

Lemma service_packet_discipline_witness :
  closes_once (out (sw ex_cfg)) /\
  out (sw ex_cfg) = [mkOut A_OKAY 2 9 None; mkOut A_WRTE 2 9 (Some (str "hello")); mkOut A_CLSE 2 9 None].
Proof.
  split; [|by vm_compute].
  destruct (service_packet_discipline ex_open ex_dial any_packet 2 9 4096 ex_cfg) as (_ & _ & H);
    [lia | exact ex_cfg_reachable | exact H].
Defined.

Lemma service_shutdown_witness :
  exists w' r w'', run_forward [true; false; true; false] (fw ex_cfg) (sw ex_cfg) = (FDone, w') /\
    out w' = out (sw ex_cfg) /\ run_opener ex_open ex_dial 3 (op ex_cfg) w' = (ODone r, w'').
Proof.
  destruct (service_shutdown ex_open ex_dial any_packet 2 9 4096 ex_cfg [true; false; true; false])
    as (_ & _ & H); [lia | exact ex_cfg_reachable |].
  apply H; [by vm_compute | by vm_compute | simpl; lia].
Defined.

(** ** Ended services stay ended *)

Lemma end_state_ended w : ended (sv (end_state w)) = true.
Proof. unfold end_state. by destruct (ended (sv w)) eqn:E. Qed.

Lemma on_dev_sv {A} (m : io conn A) w r w' : on_dev m w = (r, w') -> sv w' = sv w.
Proof. intros (c & _ & ->)%on_dev_inv. done. Qed.

Lemma on_dev_sv2 {A} (m : io conn A) w : sv (on_dev m w).2 = sv w.
Proof. unfold on_dev. by destruct (m (dev w)). Qed.

Lemma opener_ended p0 dial o w o' w' :
  endCh_closed (sv w) = ended (sv w) -> ended (sv w) = true ->
  opener_step p0 dial o w = (o', w') -> ended (sv w') = true.
Proof.
  intros Hc He E. destruct o; simpl in E.
  - by destruct dial; simplify_eq.
  - rewrite He in E. simplify_eq. by rewrite on_dev_sv2.
  - destruct (data_bytes (Data p0)); [by simplify_eq|].
    destruct (negb _); [by simplify_eq|]. destruct (on_dev _ w) as [r w1] eqn:Ec.
    destruct r; simplify_eq; by rewrite (on_dev_sv _ _ _ _ Ec).
  - destruct (negb _); [by simplify_eq|]. destruct (on_dev _ w) as [r w1] eqn:Ec.
    destruct r; simplify_eq; by rewrite (on_dev_sv _ _ _ _ Ec).
  - destruct (decide _).
    + destruct (assemble_nil A_OKAY (localID (sv w)) (remoteID (sv w))) as [b Hb].
      rewrite (proj1 (send_spec _ w b Hb)) in E. by simplify_eq.
    + destruct (decide _); [|by simplify_eq]. destruct (negb _); [by simplify_eq|].
      simplify_eq. by rewrite on_dev_sv2.
  - by simplify_eq.
  - by destruct (doneCh_closed (sv w)); simplify_eq.
  - by simplify_eq.
  - rewrite Service_End_spec in E by done. simplify_eq. apply end_state_ended.
  - by simplify_eq.
  - by simplify_eq.
Qed.

Lemma forward_ended timer lid rid o a g f w f' w' :
  inv lid rid w o f a g -> ended (sv w) = true ->
  forward_step timer f w = (f', w') -> ended (sv w') = true.
Proof.
  intros H He E. destruct f; simpl in E; simplify_eq; try done.
  - rewrite He in E. simpl in E. by simplify_eq.
  - destruct timer, (endCh_closed (sv w)); by simplify_eq.
  - destruct (on_dev _ w) as [r w1] eqn:Ec. rewrite <- (on_dev_sv _ _ _ _ Ec) in He.
    destruct r as [[|]| | |]; by simplify_eq.
  - rewrite He in E. by simplify_eq.
  - rewrite Service_End_spec in E by apply H. simplify_eq. apply end_state_ended.
  - destruct (doneCh_closed (sv w)); by simplify_eq.
Qed.

Lemma packet_ended p m w r w' :
  endCh_closed (sv w) = ended (sv w) -> ended (sv w) = true ->
  Handle p = Some m -> m w = (r, w') -> ended (sv w') = true.
Proof.
  intros Hc He Hm E. unfold Handle in Hm.
  assert (Hg : get_sv w = (Ok (sv w), w)) by done.
  repeat case_match; simplify_eq.
  - unfold handleOkayPacket in E. rewrite (io_bind_Ok _ _ _ _ _ Hg), He in E. by ret_inv E.
  - unfold handleWritePacket in E. rewrite (io_bind_Ok _ _ _ _ _ Hg), He in E. by ret_inv E.
  - unfold handleClosePacket in E. rewrite (io_bind_Ok _ _ _ _ _ Hg) in E.
    destruct (negb _); [by ret_inv E|]. rewrite Service_End_spec in E by done. simplify_eq.
    apply end_state_ended.
  - by ret_inv E.
Qed.

Lemma ended_step p0 dial allowed lid rid c c' :
  inv lid rid (sw c) (op c) (fw c) (acks c) (got c) ->
  sstep p0 dial allowed c c' -> ended (sv (sw c)) = true -> ended (sv (sw c')) = true.
Proof.
  intros H Hs He. pose proof (inv_endch _ _ _ _ _ _ _ H) as Hc. destruct Hs; simpl; try done.
  - by eapply opener_ended.
  - by eapply forward_ended.
  - by eapply packet_ended.
  - rewrite Service_End_spec in H2 by done. simplify_eq. apply end_state_ended.
Qed.

(** The opener panics exactly where it uses a transport that [End] has cleared. *)
Lemma opener_crash p0 dial lid rid o f a g w w' :
  inv lid rid w o f a g -> data_bytes (Data p0) <> [] ->
  opener_step p0 dial o w = (OCrash, w') -> o = OCrash \/ (ended (sv w) = true /\ w' = w).
Proof.
  intros H Hd E.
  assert (Ht : attached o f = true -> negb (transport (sv w)) = true -> ended (sv w) = true).
  { intros Ha Hn. by rewrite (inv_attached _ _ _ _ _ _ _ H Ha). }
  destruct o; simpl in E; try by left.
  - by destruct dial.
  - by destruct (ended (sv w)).
  - destruct (data_bytes (Data p0)) as [|b d]; [done|].
    destruct (negb (transport (sv w))); [simplify_eq; auto|].
    destruct (Write_cases (encodeData (take (length (b :: d) - 1) (b :: d))) (dev w))
      as [(c & Ec)|(e & c & Ec)]; simpl in Ec; by rewrite (on_dev_eq _ _ _ _ Ec) in E.
  - destruct (negb (transport (sv w))); [simplify_eq; auto|].
    destruct (ReadFull_cases 4 (dev w)) as [(b & c & Ec)|(e & c & Ec)];
      by rewrite (on_dev_eq _ _ _ _ Ec) in E.
  - destruct (decide _); [done|]. destruct (decide _); [|done].
    destruct (negb (transport (sv w))); [simplify_eq; auto | done].
  - by destruct (doneCh_closed (sv w)).
  - by rewrite Service_End_spec in E by apply H.
Qed.

(** The opener is safe as long as nobody ends the service under it: it
    panics (taking the process down) only in states where the service has
    already been ended. *)
Theorem open_crash_only_after_end p0 dial allowed lid rid max c :
  0 <= max <= 65535 -> data_bytes (Data p0) <> [] ->
  reachable p0 dial allowed lid rid max c -> op c = OCrash -> ended (sv (sw c)) = true.
Proof.
  intros Hm Hd. induction 1 as [|c c' Hr IH Hs]; [done|]. intros Hop.
  pose proof (inv_reachable _ _ _ _ _ _ _ Hm Hr) as H.
  destruct (decide (op c = OCrash)) as [E|E]; [by eapply ended_step; eauto|].
  destruct Hs; simpl in *; try done. subst.
  by destruct (opener_crash _ _ _ _ _ _ _ _ _ _ H Hd H0) as [?|[? ->]].
Qed.

(** And that race exists: whatever the service, the transport and the
    payload limit, there is a schedule in which the socket ends the service
    after its transport was stored and before the service name is written;
    [handleOpenPacket] then calls a method of a nil connection. *)
Theorem open_crash_reachable p0 c0 lid rid max :
  exists c, reachable p0 (inl c0) any_packet lid rid max c /\ op c = OCrash.
Proof.
  set (acts := [ActOpen; ActOpen; ActSockEnded; ActMapEnd; ActOpen]).
  assert (H : exists c, exec_all p0 (inl c0) any_packet acts (init_cfg lid rid max) = Some c /\ op c = OCrash).
  { unfold acts. cbn -[Service_End data_bytes]. rewrite Service_End_spec by done.
    cbn -[data_bytes]. destruct (data_bytes (Data p0)); eexists; done. }
  destruct H as (c & E & Hc). exists c. split; [by eapply exec_reachable | done].
Qed.

(** Once a service has ended, a CLSE for it is answered with
    [ErrPrematurePacket] for as long as the map still holds the service, while
    OKAY and WRTE are ignored. *)
Lemma ended_packets p0 dial allowed lid rid max c p :
  0 <= max <= 65535 -> reachable p0 dial allowed lid rid max c -> ended (sv (sw c)) = true ->
  handleClosePacket (sw c) = (Err ErrPrematurePacket, sw c) /\
  handleOkayPacket (sw c) = (Ok tt, sw c) /\
  handleWritePacket p (sw c) = (Ok tt, sw c).
Proof.
  intros Hm Hr He. pose proof (inv_reachable _ _ _ _ _ _ _ Hm Hr) as H.
  pose proof (inv_transport _ _ _ _ _ _ _ H He) as Ht.
  unfold handleClosePacket, handleOkayPacket, handleWritePacket, mbind, io_bind, get_sv.
  by rewrite Ht, He.
Qed.

Lemma Handle_returns p m w :
  endCh_closed (sv w) = ended (sv w) -> Handle p = Some m -> returns (m w).1.
Proof.
  intros He Hm. unfold Handle in Hm. destruct (Command p =? A_OPEN); [done|].
  destruct (Command p =? A_OKAY).
  { simplify_eq. unfold handleOkayPacket. rewrite (io_bind_Ok _ _ w (sv w) w) by done.
    destruct (ended _); [done|]. by destruct (negb _). }
  destruct (Command p =? A_WRTE).
  { simplify_eq. unfold handleWritePacket. rewrite (io_bind_Ok _ _ w (sv w) w) by done.
    destruct (ended _); [done|]. destruct (negb _); [done|].
    unfold mbind, io_bind. destruct (write_data _ w) as [r w1] eqn:Ew.
    assert (Hr : returns r).
    { unfold write_data in Ew. destruct (data_bytes _) as [|b d]; [by ret_inv Ew|].
      apply on_dev_inv in Ew as (c & Ew & ->).
      destruct (Write_cases (b :: d) (dev w)) as [[c' E]|(e & c' & E)]; rewrite E in Ew; by simplify_eq. }
    destruct r; [|done..].
    destruct (assemble_nil A_OKAY (localID (sv w)) (remoteID (sv w))) as [b Hb].
    by destruct (send_spec _ w1 b Hb) as [_ [r ->]]. }
  destruct (Command p =? A_CLSE); simplify_eq; [|done].
  unfold handleClosePacket. rewrite (io_bind_Ok _ _ w (sv w) w) by done.
  destruct (negb _); [done|]. by rewrite Service_End_spec.
Qed.

Lemma live_step_zero t w :
  ended (sv w) = false -> transport (sv w) = true -> needAck (sv w) = false ->
  conn_closed (dev w) = false -> sock_max w = 0 ->
  forward_step t FCheck w = (FRead 0, w) /\ forward_step t (FRead 0) w = (FCheck, w).
Proof.
  intros He Ht Hn Hc Hm. simpl. rewrite He, Ht, Hn, Hm. split; [done|].
  unfold on_dev, Read. simpl. rewrite Hc. by destruct w.
Qed.

(** A client that announces a payload limit of 0 stalls its services: the
    forwarder of a live service then spins between the check and a zero-length
    read for ever, whatever the device has to say, without sending or ending. *)
Theorem zero_payload_stalls w timers :
  ended (sv w) = false -> transport (sv w) = true -> needAck (sv w) = false ->
  conn_closed (dev w) = false -> sock_max w = 0 ->
  exists f, run_forward timers FCheck w = (f, w) /\ (f = FCheck \/ f = FRead 0).
Proof.
  intros He Ht Hn Hc Hm.
  assert (H : forall f, f = FCheck \/ f = FRead 0 ->
    exists f', run_forward timers f w = (f', w) /\ (f' = FCheck \/ f' = FRead 0)).
  { induction timers as [|t ts IH]; intros f Hf; [exists f; auto|].
    destruct (live_step_zero t w He Ht Hn Hc Hm) as [E1 E2].
    cbn [run_forward]. destruct Hf as [-> | ->]; [rewrite E1 | rewrite E2]; apply IH; auto. }
  apply H. auto.
Qed.

(** C35. Progress: when the forwarder of a live, acknowledged service is at the
    top of its loop, the client connection takes writes, the payload limit is
    not zero and the device has bytes ready, three of its actions send
    the next chunk, cut to the payload limit, and leave it waiting for the
    acknowledgement. *)
Theorem forward_progress p0 dial allowed lid rid max c bs r t1 t2 t3 :
  0 <= max <= 65535 -> reachable p0 dial allowed lid rid max c ->
  fw c = FCheck -> ended (sv (sw c)) = false -> needAck (sv (sw c)) = false ->
  muted (sw c) = false -> conn_closed (dev (sw c)) = false -> 0 < sock_max (sw c) ->
  rd (dev (sw c)) = RChunk bs :: r -> bs <> [] ->
  exists w', run_forward [t1; t2; t3] (fw c) (sw c) = (FCheck, w') /\
    out w' = out (sw c) ++ [mkOut A_WRTE lid rid (Some (take (Z.to_nat (sock_max (sw c))) bs))] /\
    needAck (sv w') = true.
Proof.
  intros Hm Hr Hf He Hn Hmu Hc Hmax Hrd Hbs.
  pose proof (inv_reachable _ _ _ _ _ _ _ Hm Hr) as H.
  pose proof (inv_max _ _ _ _ _ _ _ H) as Hmx. set (n := Z.to_nat (sock_max (sw c))).
  assert (Ht : transport (sv (sw c)) = true).
  { pose proof (inv_attached _ _ _ _ _ _ _ H) as Ha. rewrite Hf in Ha.
    rewrite He in Ha. specialize (Ha (attached_running (op c) FCheck ltac:(done))).
    by destruct (transport (sv (sw c))). }
  assert (Er : exists c', Read n (dev (sw c)) = (Ok (take n bs), c') /\ conn_closed c' = false).
  { unfold Read. rewrite Hc, Hrd, decide_False by lia.
    destruct (decide _); [|by eexists]. rewrite take_ge by done. by eexists. }
  destruct Er as (c' & Er & Hc').
  assert (Hlen : zlen (take n bs) <= 65535) by (unfold zlen; rewrite length_take; lia).
  rewrite Hf. cbn [run_forward forward_step]. rewrite He, Ht, Hn. cbn [orb negb].
  rewrite (proj2 (Z.ltb_ge _ _)) by lia. cbn [forward_step]. fold n.
  rewrite (on_dev_eq _ _ _ _ Er).
  destruct (take n bs) as [|x l] eqn:Etk.
  { destruct bs; [done|]. destruct n eqn:En; [lia | done]. }
  cbn [forward_step sv with_dev]. rewrite He.
  destruct (assemble_chunk A_WRTE (localID (sv (sw c))) (remoteID (sv (sw c))) (x :: l) Hlen) as [b Hb].
  destruct (send_spec _ (with_dev (sw c) c') b Hb) as [_ [r2 Hr2]].
  cbn [sv with_dev] in Hr2. rewrite Hr2. eexists. split; [done|]. split; [|done].
  cbn [out with_sv with_out]. rewrite live_push by done.
  by rewrite (inv_local _ _ _ _ _ _ _ H), (inv_remote _ _ _ _ _ _ _ H).
Qed.

(** ** Client to device *)

Section upload.
Context (p0 : Packet) (c0 : conn) (lid rid max : Z).
Context (Hmax : 0 <= max <= 65535).

Definition okay_sent (w : sworld) : Prop := mkOut A_OKAY lid rid None ∈ out w.

#[global] Instance okay_sent_dec w : Decision (okay_sent w).
Proof. unfold okay_sent. apply _. Defined.

(** A client that uses the service's id only after it has been told it. *)
Definition polite (c : scfg) (p : Packet) : Prop := okay_sent (sw c).

#[global] Instance polite_dec c p : Decision (polite c p).
Proof. unfold polite. apply _. Defined.

Definition open_name : bytes :=
  let d := data_bytes (Data p0) in encodeData (take (length d - 1) d).

(** What the device connection has been sent at each point of the opener. *)
Definition upload_log (o : opener) (w : sworld) (gv : bytes) : Prop :=
  match o with
  | ODial => True
  | OAssign | OWriteName => conn_log (dev w) = ([], written c0)
  | OReadReply | OReply _ => conn_log (dev w) = ([], written c0 ++ open_name)
  | OOpened | OWait => conn_log (dev w) = ([], written c0 ++ open_name ++ gv)
  | _ => okay_sent w -> conn_log (dev w) = ([], written c0 ++ open_name ++ gv)
  end.

Definition opener_early (o : opener) : bool :=
  match o with ODial | OAssign | OWriteName | OReadReply | OReply _ => true | _ => false end.

Record up_inv (o : opener) (w : sworld) (gv : bytes) : Prop := {
  up_early : opener_early o = true -> ~ okay_sent w;
  up_given : ~ okay_sent w -> gv = [];
  up_log : upload_log o w gv
}.

(** Steps that neither write to the device nor send the opening OKAY. *)
Lemma up_same o w w' gv :
  up_inv o w gv -> conn_log (dev w') = conn_log (dev w) ->
  (okay_sent w' <-> okay_sent w) -> up_inv o w' gv.
Proof.
  intros [He Hg Hl] Hd Ho. constructor; [by rewrite Ho..|].
  unfold upload_log in *. destruct o; rewrite ?Hd, ?Ho; auto.
Qed.

Lemma okay_sent_push w m :
  m <> mkOut A_OKAY lid rid None -> (okay_sent (with_out w (push w m)) <-> okay_sent w).
Proof.
  intros Hm. unfold okay_sent, push. simpl. destruct (muted w); [done|].
  rewrite elem_of_app, list_elem_of_singleton. split; [intros [?|?]; [done | congruence] | auto].
Qed.

Lemma okay_sent_more w m : okay_sent w -> okay_sent (with_out w (push w m)).
Proof.
  unfold okay_sent, push. simpl. destruct (muted w); [done|]. rewrite elem_of_app. auto.
Qed.

Lemma up_end o w gv : up_inv o w gv -> up_inv o (end_state w) gv.
Proof.
  intros H. unfold end_state. destruct (ended (sv w)); [done|].
  eapply up_same; [done | by destruct (transport (sv w)) |].
  by apply (okay_sent_push w (mkOut A_CLSE _ _ None)).
Qed.

Definition opener_over (o : opener) : bool :=
  match o with OFinish _ | ORemoved _ | ODone _ | OCrash => true | _ => false end.

(** Giving up before the OKAY was sent. *)
Lemma up_stop o o' w w' gv :
  up_inv o w gv -> opener_early o = true -> opener_over o' = true -> out w' = out w ->
  up_inv o' w' gv.
Proof.
  intros [He Hg _] Ho Ho' Hw. specialize (He Ho).
  constructor; unfold okay_sent in *; rewrite ?Hw; [by destruct o' | done |].
  unfold upload_log, okay_sent. rewrite Hw. by destruct o'.
Qed.

Lemma up_write_name w gv o' w' :
  up_inv OWriteName w gv -> opener_step p0 (inl c0) OWriteName w = (o', w') -> up_inv o' w' gv.
Proof.
  intros H E. simpl in E. destruct (data_bytes (Data p0)) as [|b d] eqn:Ed;
    [simplify_eq; by eapply up_stop|].
  destruct (negb (transport (sv w))); [simplify_eq; by eapply up_stop|].
  destruct (on_dev _ w) as [r w1] eqn:Ec. apply on_dev_inv in Ec as (c & Ec & ->).
  destruct (Write_log _ _ _ _ _ Ec (up_log _ _ _ H)) as [[-> Hl']|[Hr Hl']].
  - simplify_eq. destruct H as [He Hg _]. constructor; [exact He | exact Hg |].
    unfold upload_log, open_name. simpl. by rewrite Ed.
  - destruct r as [[]| | |]; simplify_eq; try done; by eapply up_stop.
Qed.

Lemma up_opener o w gv f a g o' w' :
  inv lid rid w o f a g -> wr_plan c0 = [] -> up_inv o w gv ->
  opener_step p0 (inl c0) o w = (o', w') -> up_inv o' w' gv.
Proof.
  intros Hi Hp H E. destruct o; try (by eapply up_write_name); simpl in E.
  - simplify_eq. destruct H as [He Hg _]. constructor; [exact He | exact Hg |].
    unfold upload_log, conn_log. simpl. by rewrite Hp.
  - destruct (ended (sv w)); simplify_eq; [|by destruct H; constructor].
    destruct (on_dev Close w) as [r w1] eqn:Ec. apply on_dev_inv in Ec as (c & Ec & ->).
    by eapply up_stop.
  - destruct (negb (transport (sv w))); [simplify_eq; by eapply up_stop|].
    destruct (on_dev _ w) as [r w1] eqn:Ec. apply on_dev_inv in Ec as (c & Ec & ->).
    destruct r; simplify_eq; [|by eapply up_stop..].
    apply ReadFull_log in Ec. destruct H as [He Hg Hl].
    constructor; [exact He | exact Hg |]. simpl. by rewrite Ec.
  - destruct (decide _) as [->|].
    + destruct (assemble_nil A_OKAY (localID (sv w)) (remoteID (sv w))) as [b Hb].
      rewrite (proj1 (send_spec _ w b Hb)) in E. simplify_eq. destruct H as [He Hg Hl].
      rewrite (Hg (He eq_refl)) in *. constructor; [done | done |].
      unfold upload_log. simpl. by rewrite app_nil_r.
    + destruct (decide _); [|simplify_eq; by eapply up_stop].
      destruct (negb (transport (sv w))); [simplify_eq; by eapply up_stop|].
      destruct (on_dev (ReadFull 4) w) as [r w1] eqn:Ec. simplify_eq.
      apply on_dev_inv in Ec as (c & Ec & ->). by eapply up_stop.
  - simplify_eq. by destruct H; constructor.
  - destruct (doneCh_closed (sv w)); simplify_eq; [|done].
    destruct H as [He Hg Hl]. constructor; [done | exact Hg | intros _; exact Hl].
  - simplify_eq. by destruct H; constructor.
  - rewrite Service_End_spec in E by apply Hi. simplify_eq.
    apply up_end in H. by destruct H; constructor.
  - by simplify_eq.
  - by simplify_eq.
Qed.

Lemma up_forward timer o w gv f a g f' w' :
  inv lid rid w o f a g -> up_inv o w gv ->
  forward_step timer f w = (f', w') -> up_inv o w' gv.
Proof.
  intros Hi H E. destruct f; simpl in E; simplify_eq; try done.
  - repeat case_match; by simplify_eq.
  - repeat case_match; by simplify_eq.
  - destruct (on_dev _ w) as [r w1] eqn:Ec. apply on_dev_inv in Ec as (c & Ec & ->).
    assert (H1 : up_inv o (with_dev w c) gv)
      by (eapply up_same; [done | by apply (Read_log _ _ _ _ Ec) | done]).
    destruct r as [[|]| | |]; by simplify_eq.
  - destruct (ended (sv w)); [by simplify_eq|].
    destruct (inv_send _ _ _ _ _ _ _ Hi chunk eq_refl) as [_ Hl].
    destruct (assemble_chunk A_WRTE (localID (sv w)) (remoteID (sv w)) chunk Hl) as [b Hb].
    destruct (send_spec _ w b Hb) as [_ [r Hr]]. rewrite Hr in E. simplify_eq.
    eapply up_same; [done | done |]. by apply (okay_sent_push w (mkOut A_WRTE _ _ _)).
  - rewrite Service_End_spec in E by apply Hi. simplify_eq. by apply up_end.
  - destruct (doneCh_closed (sv w)); simplify_eq; [done | by eapply up_same].
Qed.

(** The client's data reaches the device, and only when the call succeeds. *)
Lemma up_write_packet p o w gv f a g r w' :
  inv lid rid w o f a g -> up_inv o w gv -> okay_sent w ->
  handleWritePacket p w = (r, w') ->
  up_inv o w' (if transport (sv w) && bool_decide (r = Ok tt)
               then gv ++ data_bytes (Data p) else gv).
Proof.
  intros Hi H Hs E. unfold handleWritePacket in E.
  rewrite (io_bind_Ok _ _ w (sv w) w) in E by done.
  destruct (ended (sv w)) eqn:He.
  { rewrite (inv_transport _ _ _ _ _ _ _ Hi He). by ret_inv E. }
  destruct (transport (sv w)) eqn:Ht; simpl in E; [|by ret_inv E]. cbn [andb].
  assert (Hop : opener_early o = false)
    by (destruct (opener_early o) eqn:Eo; [by destruct (up_early _ _ _ H Eo) | done]).
  assert (Hlog : conn_log (dev w) = ([], written c0 ++ open_name ++ gv))
    by (pose proof (up_log _ _ _ H) as Hl; destruct o; try done; auto).
  unfold mbind, io_bind in E. destruct (write_data _ w) as [r1 w1] eqn:E1.
  assert (H1 : exists c, w1 = with_dev w c /\
    ((r1 = Ok tt /\ conn_log c = ([], (written c0 ++ open_name ++ gv) ++ data_bytes (Data p))) \/
     (r1 <> Ok tt /\ conn_log c = conn_log (dev w)))).
  { unfold write_data in E1. destruct (data_bytes (Data p)) as [|b d] eqn:Ed.
    - ret_inv E1. exists (dev w1). split; [by destruct w1 | left]. by rewrite app_nil_r.
    - apply on_dev_inv in E1 as (c & E1 & ->). exists c. split; [done|]. rewrite Hlog.
      by apply (Write_log _ _ _ _ _ E1). }
  destruct H1 as (c & -> & [[-> Hc]|[Hr Hc]]).
  - destruct (assemble_nil A_OKAY (localID (sv w)) (remoteID (sv w))) as [b Hb].
    destruct (send_spec _ (with_dev w c) b Hb) as [_ [r2 Hr2]]. rewrite Hr2 in E.
    ret_inv E. rewrite bool_decide_true by done.
    assert (Hs' : okay_sent (with_out (with_dev w c) (push (with_dev w c)
      (mkOut A_OKAY (localID (sv w)) (remoteID (sv w)) None)))) by (by apply okay_sent_more).
    constructor; [by rewrite Hop | done |].
    rewrite <- !app_assoc in Hc. destruct o; try done; try (intros _); exact Hc.
  - assert (H1 : up_inv o (with_dev w c) gv) by (by apply (up_same o w)).
    destruct r1 as [[]| | |]; ret_inv E; by try rewrite bool_decide_false by done.
Qed.

Lemma up_packet p m o w gv f a g r w' :
  inv lid rid w o f a g -> up_inv o w gv -> okay_sent w ->
  Handle p = Some m -> m w = (r, w') ->
  up_inv o w' (if (Command p =? A_WRTE) && transport (sv w) && bool_decide (r = Ok tt)
               then gv ++ data_bytes (Data p) else gv).
Proof.
  intros Hi H Hs Hm E. unfold Handle in Hm.
  destruct (Command p =? A_OPEN); [done|].
  destruct (Z.eqb_spec (Command p) A_OKAY) as [Hk|Hk].
  { rewrite Hk. simplify_eq. unfold handleOkayPacket in E.
    rewrite (io_bind_Ok _ _ w (sv w) w) in E by done.
    destruct (ended (sv w)); [by ret_inv E|].
    destruct (negb _); [by ret_inv E|]. unfold upd_sv in E. simplify_eq. by eapply up_same. }
  destruct (Command p =? A_WRTE); [simplify_eq; by eapply up_write_packet|].
  destruct (Command p =? A_CLSE); simplify_eq; [|by ret_inv E].
  unfold handleClosePacket in E. rewrite (io_bind_Ok _ _ w (sv w) w) in E by done.
  destruct (negb _); [by ret_inv E|]. rewrite Service_End_spec in E by apply Hi.
  simplify_eq. by apply up_end.
Qed.

Lemma up_reachable c :
  wr_plan c0 = [] -> reachable p0 (inl c0) polite lid rid max c ->
  up_inv (op c) (sw c) (given c).
Proof.
  intros Hp. induction 1 as [|c c' Hr IH Hs].
  { constructor; simpl; [intros _ H; inversion H | done | done]. }
  pose proof (inv_reachable _ _ _ _ _ _ _ Hmax Hr) as Hi.
  destruct Hs; simpl.
  - by eapply up_opener.
  - by eapply up_forward.
  - by eapply up_packet.
  - rewrite Service_End_spec in H1 by apply Hi. simplify_eq. by apply up_end.
  - done.
  - by eapply up_same.
  - by eapply up_same.
  - by eapply up_same.
Qed.
End upload.

(** C7. Upload fidelity: for a client that uses a service only after the bridge's
    OKAY and a device connection that takes every write in full, what the device
    connection has been sent is the length-prefixed service name followed by
    exactly the data of the WRTE packets that were accepted, in order - nothing is
    lost, duplicated or reordered. *)
Theorem service_upload_fidelity p0 c0 lid rid max c :
  0 <= max <= 65535 -> wr_plan c0 = [] ->
  reachable p0 (inl c0) (polite lid rid) lid rid max c -> okay_sent lid rid (sw c) ->
  written (dev (sw c)) = written c0 ++ open_name p0 ++ given c.
Proof.
  intros Hm Hp Hr Ho. destruct (up_reachable p0 c0 lid rid max Hm c Hp Hr) as [He _ Hl].
  assert (Hlog : conn_log (dev (sw c)) = ([], written c0 ++ open_name p0 ++ given c)).
  { destruct (op c); simpl in *; try (by destruct (He eq_refl)); auto. }
  unfold conn_log in Hlog. congruence.
Qed.

Definition ex_crash : scfg :=
  default (init_cfg 2 9 4096) (exec_all ex_open ex_dial any_packet
    [ActOpen; ActOpen; ActSockEnded; ActMapEnd; ActOpen] (init_cfg 2 9 4096)).

Lemma open_crash_only_after_end_witness : op ex_crash = OCrash /\ ended (sv (sw ex_crash)) = true.
Proof.
  split; [by vm_compute|].
  apply (open_crash_only_after_end ex_open ex_dial any_packet 2 9 4096 ex_crash).
  - lia.
  - discriminate.
  - apply (exec_reachable _ _ _ [ActOpen; ActOpen; ActSockEnded; ActMapEnd; ActOpen]).
    vm_compute. reflexivity.
  - vm_compute. reflexivity.
Defined.

Lemma zero_payload_stalls_witness :
  exists f, run_forward [true; true; false] FCheck
      (mkSW (mkService 2 9 true true false false false false)
         (mkConn [RChunk (str "data")] [] [] false) false 0 true [])
    = (f, mkSW (mkService 2 9 true true false false false false)
         (mkConn [RChunk (str "data")] [] [] false) false 0 true []) /\
    (f = FCheck \/ f = FRead 0).
Proof. apply zero_payload_stalls; reflexivity. Defined.

Definition ex_ready : scfg :=
  default (init_cfg 2 9 3) (exec_all ex_open ex_dial any_packet (replicate 6 ActOpen) (init_cfg 2 9 3)).

Lemma forward_progress_witness :
  exists w', run_forward [true; true; true] (fw ex_ready) (sw ex_ready) = (FCheck, w') /\
    out w' = out (sw ex_ready) ++ [mkOut A_WRTE 2 9 (Some (str "hel"))] /\ needAck (sv w') = true.
Proof.
  apply (forward_progress ex_open ex_dial any_packet 2 9 3 ex_ready (str "hello") []).
  - lia.
  - apply (exec_reachable _ _ _ (replicate 6 ActOpen)). vm_compute. reflexivity.
  - reflexivity.
  - reflexivity.
  - reflexivity.
  - reflexivity.
  - reflexivity.
  - vm_compute. reflexivity.
  - reflexivity.
  - discriminate.
Defined.

Definition ex_wrte (s : bytes) : Packet := mkPacket A_WRTE 9 2 (zlen s) 0 0 (Some s).

Definition ex_upload_conn : conn := mkConn [RChunk (str "OK"); RChunk (str "AY")] [] [] false.

Definition ex_upload_acts : list action :=
  replicate 6 ActOpen ++ [ActPacket (ex_wrte (str "echo ")); ActPacket (ex_wrte (str "hi"))].

Definition ex_upload : scfg :=
  default (init_cfg 2 9 4096)
    (exec_all ex_open (inl ex_upload_conn) (polite 2 9) ex_upload_acts (init_cfg 2 9 4096)).

Lemma service_upload_fidelity_witness :
  written (dev (sw ex_upload)) = open_name ex_open ++ given ex_upload /\
  written (dev (sw ex_upload)) = str "0008shell:lsecho hi".
Proof.
  split; [|by vm_compute].
  apply (service_upload_fidelity ex_open ex_upload_conn 2 9 4096 ex_upload).
  - lia.
  - reflexivity.
  - apply (exec_reachable _ _ _ ex_upload_acts). vm_compute. reflexivity.
  - apply (bool_decide_unpack (okay_sent 2 9 (sw ex_upload))). vm_compute. exact I.
Defined.
