(* ===== verification/Socket.v ===== *)
(** * One client connection of the bridge: tcpusb/socket.go

    The socket's own state machine (SYNC, CNXN, AUTH and OPEN handling), the
    reader goroutine [Start], [End], and the services it has spawned.  A service
    is a position in [svcs]; the socket's [ServiceMap] holds positions.  The
    step relation interleaves the reader, the goroutines of every service and
    callers of [End]. *)

From stdpp Require Import base list numbers gmap.
From Stdlib Require Import ZArith Lia.
From S2P Require Import Prelude GoStrings GoNet Packet RollingCounter ServiceMap Service.

Local Open Scope Z_scope.

Definition UINT32_MAX : Z := 0xFFFFFFFF.
Definition UINT16_MAX : Z := 0xFFFF.
Definition AUTH_TOKEN : Z := 1.
Definition AUTH_SIGNATURE : Z := 2.
Definition AUTH_RSAPUBLICKEY : Z := 3.
Definition TOKEN_LENGTH : nat := 20.

(** ** State *)

Record Socket := mkSocket {
  version : Z;
  maxPayload : Z;
  authorized : bool;
  syncToken : RollingCounter;
  remoteIDs : RollingCounter;    (* the field remoteID *)
  services : ServiceMap nat;
  token : option bytes;
  signature : option bytes;
  sk_ended : bool
}.

Definition NewSocket : Socket :=
  mkSocket 1 4096 false (NewRollingCounter UINT32_MAX) (NewRollingCounter UINT32_MAX)
           NewServiceMap None None false.

(** A spawned service: the packet that opened it, what its dial returns, and
    its threads. *)
Record entry := mkEntry { e_pkt : Packet; e_dial : conn + goerror; e_cfg : scfg }.

(** The reader goroutine: waiting for a packet, past the [ended] check of
    [handle], or returned from [Start]'s loop. *)
Inductive reader_pc := RIdle | RChecked (p : Packet) | RStopped.

Record sys := mkSys {
  sk : Socket;
  cli : bool;                (* the client connection accepts writes *)
  log : list OutPacket;      (* what the socket itself has sent *)
  svcs : list entry;
  reader : reader_pc;
  closing : bool;            (* End has set the flag, services.End() is still to run *)
  handled : list Packet      (* the packets handled so far, in order *)
}.

Definition init_sys : sys := mkSys NewSocket true [] [] RIdle false [].

(** What the environment supplies to one packet: [rand.Read], [device.Serial()]
    and the transport a new service will get. *)
Record inputs := mkInputs {
  in_token : bytes + goerror;
  in_serial : bytes + goerror;
  in_dial : conn + goerror
}.

Definition upd_sk (f : Socket -> Socket) : io sys unit := fun s =>
  (Ok tt, mkSys (f (sk s)) (cli s) (log s) (svcs s) (reader s) (closing s) (handled s)).
Definition get_sk : io sys Socket := fun s => (Ok (sk s), s).

Definition set_maxPayload (m : Z) (k : Socket) : Socket :=
  mkSocket (version k) m (authorized k) (syncToken k) (remoteIDs k) (services k)
           (token k) (signature k) (sk_ended k).
Definition set_authorized (k : Socket) : Socket :=
  mkSocket (version k) (maxPayload k) true (syncToken k) (remoteIDs k) (services k)
           (token k) (signature k) (sk_ended k).
Definition set_syncToken (c : RollingCounter) (k : Socket) : Socket :=
  mkSocket (version k) (maxPayload k) (authorized k) c (remoteIDs k) (services k)
           (token k) (signature k) (sk_ended k).
Definition set_remoteIDs (c : RollingCounter) (k : Socket) : Socket :=
  mkSocket (version k) (maxPayload k) (authorized k) (syncToken k) c (services k)
           (token k) (signature k) (sk_ended k).
Definition set_services (m : ServiceMap nat) (k : Socket) : Socket :=
  mkSocket (version k) (maxPayload k) (authorized k) (syncToken k) (remoteIDs k) m
           (token k) (signature k) (sk_ended k).
Definition set_token (t : bytes) (k : Socket) : Socket :=
  mkSocket (version k) (maxPayload k) (authorized k) (syncToken k) (remoteIDs k) (services k)
           (Some t) (signature k) (sk_ended k).
Definition set_signature (d : option bytes) (k : Socket) : Socket :=
  mkSocket (version k) (maxPayload k) (authorized k) (syncToken k) (remoteIDs k) (services k)
           (token k) d (sk_ended k).
Definition set_sk_ended (k : Socket) : Socket :=
  mkSocket (version k) (maxPayload k) (authorized k) (syncToken k) (remoteIDs k) (services k)
           (token k) (signature k) true.

(** The socket's [ended], [maxPayload] and connection state as its services see them. *)
Definition sync_cfg (ended' : bool) (max : Z) (ok : bool) (c : scfg) : scfg :=
  mkCfg (mkSW (sv (sw c)) (dev (sw c)) ended' max ok (out (sw c)))
        (op c) (fw c) (in_map c) (acks c) (got c) (given c).

Definition map_cfg (f : scfg -> scfg) (e : entry) : entry :=
  mkEntry (e_pkt e) (e_dial e) (f (e_cfg e)).

(** Let every service see the socket's current fields. *)
Definition sync_services : io sys unit := fun s =>
  (Ok tt, mkSys (sk s) (cli s) (log s)
            (map_cfg (sync_cfg (sk_ended (sk s)) (maxPayload (sk s)) (cli s)) <$> svcs s)
            (reader s) (closing s) (handled s)).

(** [Socket.Write(Assemble(...))]; of a write that fails, nothing is recorded. *)
Definition Socket_write (m : OutPacket) : io sys unit := fun s =>
  if sk_ended (sk s) then (Err (Errorf (str "socket ended")), s)
  else if cli s then
    (Ok tt, mkSys (sk s) (cli s) (log s ++ [m]) (svcs s) (reader s) (closing s) (handled s))
  else (Err (NetError (str "write")), s).

Definition Socket_send (m : OutPacket) : io sys unit :=
  _ ← of_outcome (assemble_out m); Socket_write m.

(** ** Packet handlers *)

(** [handleSyncPacket] *)
Definition handleSyncPacket : io sys unit :=
  k ← get_sk;
  let '(t, c) := Next (syncToken k) in
  _ ← upd_sk (set_syncToken c);
  Socket_send (mkOut A_SYNC 1 t None).

(** [handleConnectionPacket] *)
Definition handleConnectionPacket (i : inputs) (p : Packet) : io sys unit :=
  _ ← upd_sk (set_maxPayload (if Arg1 p <? UINT16_MAX then Arg1 p else UINT16_MAX));
  _ ← sync_services;
  match in_token i with
  | inr e => fail e
  | inl t =>
      _ ← upd_sk (set_token t);
      Socket_send (mkOut A_AUTH AUTH_TOKEN 0 (Some t))
  end.

(** [getDeviceID] *)
Definition getDeviceID (i : inputs) : bytes :=
  let serial := match in_serial i with inl s => s | inr _ => str "unknown" end in
  str "device::ro.product.name=adb-bridge;ro.product.model=" ++ serial
    ++ str ";ro.product.device=" ++ serial ++ str ";" ++ [x00].

(** [sendCNXN] *)
Definition sendCNXN (i : inputs) : io sys unit :=
  k ← get_sk;
  Socket_send (mkOut A_CNXN (Swap32 (version k)) (maxPayload k) (Some (getDeviceID i))).

(** [verifySignature], with the library's digest and RSA check ([hash] 0: the
    digest is taken as it is).  No handler of the socket calls it. *)
Definition verifySignature {PublicKey : Type} (sha1_Sum : bytes -> bytes)
    (VerifyPKCS1v15 : PublicKey -> Z -> bytes -> bytes -> option goerror)
    (publicKey : PublicKey) (token signature : bytes) : option goerror :=
  VerifyPKCS1v15 publicKey 0 (sha1_Sum token) signature.

Section socket.
(* The callback given to NewSocket (nil becomes one that accepts every key). *)
Context (authHandler : bytes -> option goerror).

(** [handleAuthPacket] *)
Definition handleAuthPacket (i : inputs) (p : Packet) : io sys unit :=
  if Arg0 p =? AUTH_SIGNATURE then
    k ← get_sk;
    _ ← upd_sk (set_signature (match signature k with None => Data p | Some d => Some d end));
    Socket_send (mkOut A_AUTH AUTH_TOKEN 0 (token k))
  else if Arg0 p =? AUTH_RSAPUBLICKEY then
    k ← get_sk;
    match signature k with
    | None => fail ErrAuthFailed
    | Some _ =>
        if zlen (data_bytes (Data p)) <? 2 then fail ErrAuthFailed
        else match authHandler (data_bytes (Data p)) with
             | Some _ => fail ErrAuthFailed
             | None => _ ← upd_sk set_authorized; sendCNXN i
             end
    end
  else fail (Errorf (str "unknown authentication method: " ++ fmt_d (Arg0 p))).

(** [go service.Handle(packet)]: the new service's threads start. *)
Definition spawn (p : Packet) (dial : conn + goerror) (lid rid : Z) : io sys unit := fun s =>
  (Ok tt, mkSys (sk s) (cli s) (log s)
            (svcs s ++ [mkEntry p dial (sync_cfg (sk_ended (sk s)) (maxPayload (sk s)) (cli s)
                          (init_cfg lid rid (maxPayload (sk s))))])
            (reader s) (closing s) (handled s)).

(** The position the next service will have. *)
Definition next_service : io sys nat := fun s => (Ok (length (svcs s)), s).

(** [handleOpenPacket] *)
Definition Socket_handleOpenPacket (i : inputs) (p : Packet) : io sys unit :=
  k ← get_sk;
  if negb (authorized k) then fail ErrUnauthorized
  else
    let '(lid, c) := Next (remoteIDs k) in
    _ ← upd_sk (set_remoteIDs c);
    if zlen (data_bytes (Data p)) <? 2 then fail (Errorf (str "empty service name"))
    else
      n ← next_service;
      match Insert lid n (services k) with
      | (Ok _, m) => _ ← upd_sk (set_services m); spawn p (in_dial i) lid (Arg0 p)
      | (Err e, _) => fail e
      | (_, _) => gopanic
      end.

(** [forwardServicePacket]: the lookup and [Handle], as one action *)
Definition forwardServicePacket (p : Packet) : io sys unit := fun s =>
  if negb (authorized (sk s)) then (Err ErrUnauthorized, s)
  else match Get (Arg1 p) (services (sk s)) with
       | None => (Ok tt, s)
       | Some n =>
           match svcs s !! n, Handle p with
           | Some e, Some m =>
               let c := e_cfg e in
               let '(r, w') := m (sw c) in
               let c' := mkCfg w' (op c) (fw c) (in_map c)
                 (if Command p =? A_OKAY then S (acks c) else acks c) (got c)
                 (if (Command p =? A_WRTE) && transport (sv (sw c)) && bool_decide (r = Ok tt)
                  then given c ++ data_bytes (Data p) else given c) in
               (r, mkSys (sk s) (cli s) (log s)
                     (<[n := mkEntry (e_pkt e) (e_dial e) c']> (svcs s))
                     (reader s) (closing s) (handled s))
           | _, _ => (Panic, s)
           end
       end.

(** [handle], after its [ended] check *)
Definition handle (i : inputs) (p : Packet) : io sys unit :=
  if Command p =? A_SYNC then handleSyncPacket
  else if Command p =? A_CNXN then handleConnectionPacket i p
  else if Command p =? A_OPEN then Socket_handleOpenPacket i p
  else if (Command p =? A_OKAY) || (Command p =? A_WRTE) || (Command p =? A_CLSE)
  then forwardServicePacket p
  else if Command p =? A_AUTH then handleAuthPacket i p
  else fail (Errorf (str "unknown command: 0x" ++ fmt_x 8 (Command p))).

(** ** [End] *)

(** The critical section of [End]: the flag, seen by every service. *)
Definition End_flag (s : sys) : sys :=
  if sk_ended (sk s) then s
  else mkSys (set_sk_ended (sk s)) (cli s) (log s)
         (map_cfg (sync_cfg true (maxPayload (sk s)) (cli s)) <$> svcs s)
         (reader s) true (handled s).

Definition end_entry (e : entry) : entry :=
  let c := e_cfg e in
  mkEntry (e_pkt e) (e_dial e)
    (mkCfg (Service_End (sw c)).2 (op c) (fw c) false (acks c) (got c) (given c)).

(** [services.End(); conn.Close()] *)
Definition End_services (s : sys) : sys :=
  let '(ptrs, m) := EndAll (services (sk s)) in
  let s1 := mkSys (set_services m (sk s)) false (log s)
              (imap (fun n e => if bool_decide (n ∈ ptrs) then end_entry e else e) (svcs s))
              (reader s) false (handled s) in
  (sync_services s1).2.

(** [services.Remove(localID)], as the deferred function of the opener calls it *)
Definition Remove_service (lid : Z) (s : sys) : sys :=
  let '(v, m) := Remove lid (services (sk s)) in
  mkSys (set_services m (sk s)) (cli s) (log s)
    (match v with
     | Some n => alter (map_cfg (fun c => mkCfg (sw c) (op c) (fw c) false (acks c) (got c) (given c)))
                       n (svcs s)
     | None => svcs s
     end) (reader s) (closing s) (handled s).

(** One action of the opener of service [n]; when it finishes, the deferred
    function first removes the service's id from the map. *)
Definition sys_open (n : nat) (s : sys) : option sys :=
  e0 ← svcs s !! n;
  let s0 := match op (e_cfg e0) with
            | OFinish _ => Remove_service (localID (sv (sw (e_cfg e0)))) s
            | _ => s
            end in
  e ← svcs s0 !! n;
  let c := e_cfg e in
  let '(o', w') := opener_step (e_pkt e) (e_dial e) (op c) (sw c) in
  let c' := mkCfg w' o' (match op c with OOpened => FCheck | _ => fw c end)
              (match op c with OFinish _ => false | _ => in_map c end)
              (acks c) (got c) (given c) in
  Some (mkSys (sk s0) (cli s0) (log s0) (<[n := mkEntry (e_pkt e) (e_dial e) c']> (svcs s0))
          (reader s0) (closing s0) (handled s0)).

(** One action of the forwarder of service [n]. *)
Definition sys_forward (n : nat) (timer : bool) (s : sys) : option sys :=
  e ← svcs s !! n;
  let c := e_cfg e in
  let '(f', w') := forward_step timer (fw c) (sw c) in
  let c' := mkCfg w' (op c) f' (in_map c) (acks c)
              (match f' with FSend chunk => got c ++ chunk | _ => got c end) (given c) in
  Some (mkSys (sk s) (cli s) (log s) (<[n := mkEntry (e_pkt e) (e_dial e) c']> (svcs s))
          (reader s) (closing s) (handled s)).

Definition set_reader (r : reader_pc) (s : sys) : sys :=
  mkSys (sk s) (cli s) (log s) (svcs s) r (closing s) (handled s).

(** A packet as [ReadPacket] delivers it: [uint32] fields. *)
Definition packet_wf (p : Packet) : Prop :=
  is_u32 (Command p) /\ is_u32 (Arg0 p) /\ is_u32 (Arg1 p).

#[global] Instance packet_wf_dec p : Decision (packet_wf p).
Proof. unfold packet_wf. apply _. Defined.

(** [rand.Read] fills the whole token. *)
Definition inputs_wf (i : inputs) : Prop :=
  match in_token i with inl t => length t = TOKEN_LENGTH | inr _ => True end.

#[global] Instance inputs_wf_dec i : Decision (inputs_wf i).
Proof. unfold inputs_wf. destruct (in_token i); apply _. Defined.

(** ** Interleavings *)

Inductive act :=
  | KReceive (p : Packet)       (* ReadPacket returned p; the ended check of handle *)
  | KReadError                  (* ReadPacket failed: Start returns *)
  | KHandle (i : inputs)        (* the rest of handle *)
  | KEnd                        (* somebody calls End *)
  | KEndServices                (* ... and End goes on *)
  | KOpen (n : nat)
  | KForward (n : nat) (timer : bool)
  | KClientFail.

Definition kexec (a : act) (s : sys) : option sys :=
  match a with
  | KReceive p =>
      match reader s with
      | RIdle => if bool_decide (packet_wf p)
                 then Some (if sk_ended (sk s) then s else set_reader (RChecked p) s)
                 else None
      | _ => None
      end
  | KReadError =>
      match reader s with RIdle => Some (set_reader RStopped s) | _ => None end
  | KHandle i =>
      match reader s with
      | RChecked p =>
          if negb (bool_decide (inputs_wf i)) then None
          else match handle i p s with
          | (Ok _, s') => Some (mkSys (sk s') (cli s') (log s') (svcs s') RIdle (closing s')
                                  (handled s' ++ [p]))
          | (Err _, s') => Some (mkSys (sk s') (cli s') (log s') (svcs s') RStopped (closing s')
                                   (handled s' ++ [p]))
          | (_, _) => None
          end
      | _ => None
      end
  | KEnd => Some (End_flag s)
  | KEndServices => if closing s then Some (End_services s) else None
  | KOpen n => sys_open n s
  | KForward n t => sys_forward n t s
  | KClientFail =>
      Some (sync_services (mkSys (sk s) false (log s) (svcs s) (reader s) (closing s) (handled s))).2
  end.

(** States of the connection. *)
Inductive kreach : sys -> Prop :=
  | kreach_init : kreach init_sys
  | kreach_step a s s' : kreach s -> kexec a s = Some s' -> kreach s'.

Fixpoint kexec_all (acts : list act) (s : sys) : option sys :=
  match acts with [] => Some s | a :: r => s' ← kexec a s; kexec_all r s' end.

Lemma kexec_all_reach acts s : kexec_all acts init_sys = Some s -> kreach s.
Proof.
  assert (H : forall s0, kreach s0 -> kexec_all acts s0 = Some s -> kreach s).
  { induction acts as [|a acts IH]; intros s0 Hr E; simpl in E; [by simplify_eq|].
    apply bind_Some in E as (s1 & E1 & E2). eapply IH; [|done]. by eapply kreach_step. }
  apply H. constructor.
Qed.

(** ** Invariant *)

(** The service was opened by a non-empty OPEN and is in one of the states
    Service.v reasons about. *)
Definition entry_ok (e : entry) : Prop :=
  2 <= zlen (data_bytes (Data (e_pkt e))) /\ is_u32 (Arg0 (e_pkt e)) /\
  exists lid max, 1 <= lid < 2 ^ 32 /\ 0 <= max <= 65535 /\
    reachable (e_pkt e) (e_dial e) any_packet lid (Arg0 (e_pkt e)) max (e_cfg e).

(** The service sees the socket's current fields. *)
Definition linked (k : Socket) (ok : bool) (e : entry) : Prop :=
  let w := sw (e_cfg e) in
  sock_ended w = sk_ended k /\ sock_max w = maxPayload k /\ cli_ok w = ok.

Definition mapped (s : sys) (id : Z) (n : nat) : Prop :=
  exists e, svcs s !! n = Some e /\ in_map (e_cfg e) = true /\
    localID (sv (sw (e_cfg e))) = id.

Definition token_ok (t : option bytes) : Prop :=
  match t with Some t => length t = TOKEN_LENGTH | None => True end.

Record sys_inv (s : sys) : Prop := {
  si_entry : Forall entry_ok (svcs s);
  si_link : Forall (linked (sk s) (cli s)) (svcs s);
  si_map : forall id n, sm_services (services (sk s)) !! id = Some n <-> mapped s id n;
  si_wf : sm_wf (services (sk s));
  si_ids : counter_wf (remoteIDs (sk s));
  si_sync : counter_wf (syncToken (sk s));
  si_max : 0 <= maxPayload (sk s) <= 65535;
  si_auth : svcs s <> [] -> authorized (sk s) = true;
  si_reader : forall p, reader s = RChecked p -> packet_wf p;
  si_version : version (sk s) = 1;
  si_closing : closing s = true -> sk_ended (sk s) = true;
  si_token : token_ok (token (sk s))
}.

Lemma sync_reach e ended' max ok :
  entry_ok e -> (sock_ended (sw (e_cfg e)) = true -> ended' = true) ->
  (ok = true -> cli_ok (sw (e_cfg e)) = true) -> 0 <= max <= 65535 ->
  entry_ok (map_cfg (sync_cfg ended' max ok) e).
Proof.
  intros (Hd & H0 & lid & mx & Hl & Hmx & Hr) He Hc Hm. split; [done|]. split; [done|].
  exists lid, mx. split_and!; [lia..|]. simpl.
  assert (H1 : reachable (e_pkt e) (e_dial e) any_packet lid (Arg0 (e_pkt e)) mx
    (sync_cfg (sock_ended (sw (e_cfg e))) max (cli_ok (sw (e_cfg e))) (e_cfg e)))
    by (eapply reach_step; [done | by apply st_max]).
  assert (H2 : reachable (e_pkt e) (e_dial e) any_packet lid (Arg0 (e_pkt e)) mx
    (sync_cfg ended' max (cli_ok (sw (e_cfg e))) (e_cfg e))).
  { destruct ended'; [eapply reach_step; [exact H1 | apply st_sock_ended]|].
    by destruct (sock_ended (sw (e_cfg e))); [specialize (He eq_refl)|]. }
  destruct ok; [by rewrite Hc in H2|].
  eapply reach_step; [exact H2 | apply st_cli_fail].
Qed.

Lemma entry_step e c' :
  entry_ok e -> sstep (e_pkt e) (e_dial e) any_packet (e_cfg e) c' ->
  entry_ok (mkEntry (e_pkt e) (e_dial e) c').
Proof.
  intros (Hd & H0 & lid & mx & Hl & Hmx & Hr) Hs. split; [done|]. split; [done|].
  exists lid, mx. split_and!; [lia..|]. by eapply reach_step.
Qed.

Lemma entry_inv e :
  entry_ok e -> exists lid, 1 <= lid < 2 ^ 32 /\
    inv lid (Arg0 (e_pkt e)) (sw (e_cfg e)) (op (e_cfg e)) (fw (e_cfg e)) (acks (e_cfg e)) (got (e_cfg e)).
Proof.
  intros (_ & _ & lid & mx & Hl & Hmx & Hr). exists lid. split; [done|]. by eapply inv_reachable.
Qed.

(** Changes of the socket that its services do not see. *)
Lemma sys_inv_frame s s' :
  sys_inv s -> svcs s' = svcs s -> cli s' = cli s ->
  services (sk s') = services (sk s) -> sk_ended (sk s') = sk_ended (sk s) ->
  maxPayload (sk s') = maxPayload (sk s) -> version (sk s') = version (sk s) ->
  counter_wf (remoteIDs (sk s')) -> counter_wf (syncToken (sk s')) ->
  (authorized (sk s) = true -> authorized (sk s') = true) ->
  (forall p, reader s' = RChecked p -> packet_wf p) -> closing s' = closing s ->
  token_ok (token (sk s')) -> sys_inv s'.
Proof.
  intros H Hv Hc Hm He Hp Hver Hi Hy Ha Hr Hcl Ht. destruct H.
  constructor; unfold linked, mapped in *; rewrite ?Hv, ?Hc, ?Hm, ?He, ?Hp, ?Hver, ?Hcl; auto.
Qed.

(** A service's own steps leave its view of the socket alone. *)
Definition same_sock (w w' : sworld) : Prop :=
  sock_ended w' = sock_ended w /\ sock_max w' = sock_max w /\ cli_ok w' = cli_ok w.

Lemma same_sock_refl w : same_sock w w.
Proof. done. Qed.

Lemma send_frame m w r w' : send m w = (r, w') -> same_sock w w'.
Proof.
  unfold send, mbind, io_bind, of_outcome, sock_write. intros E.
  destruct (assemble_out m); [|by simplify_eq..].
  destruct w as [? ? [] ? [] ?]; simpl in E; by simplify_eq.
Qed.

Lemma on_dev_frame {A} (m : io conn A) w r w' : on_dev m w = (r, w') -> same_sock w w'.
Proof. intros E. by apply on_dev_inv in E as (c & _ & ->). Qed.

Lemma End_frame w : endCh_closed (sv w) = ended (sv w) -> same_sock w (Service_End w).2.
Proof. intros H. rewrite Service_End_spec by done. unfold end_state. by case_match. Qed.

#[local] Hint Resolve same_sock_refl send_frame on_dev_frame End_frame : adb.

Lemma opener_frame p dial o w o' w' :
  endCh_closed (sv w) = ended (sv w) -> opener_step p dial o w = (o', w') -> same_sock w w'.
Proof.
  intros He E. pose proof (End_frame w He) as HE.
  assert (Hf : forall A (m : io sworld A), (forall r w', m w = (r, w') -> same_sock w w') ->
    same_sock w (m w).2) by (intros A m H; destruct (m w) eqn:Em; by eapply H).
  destruct o; simpl in E; repeat case_match; simplify_eq; try done;
    try (eapply on_dev_frame; done); try (apply Hf; intros; eauto with adb; done).
Qed.

Lemma forward_frame t f w f' w' :
  endCh_closed (sv w) = ended (sv w) -> forward_step t f w = (f', w') -> same_sock w w'.
Proof.
  intros He E. pose proof (End_frame w He) as HE.
  destruct f; simpl in E.
  4: { destruct (on_dev _ w) as [r w1] eqn:Ed. apply on_dev_frame in Ed.
       repeat case_match; by simplify_eq. }
  4: { destruct (ended (sv w)); [by simplify_eq|]. unfold attempt in E.
       destruct (send _ w) as [r w1] eqn:Es. apply send_frame in Es. destruct r; by simplify_eq. }
  4: { destruct (Service_End w) as [r w1]. destruct r; by simplify_eq. }
  all: repeat case_match; by simplify_eq.
Qed.

Lemma handle_frame p m w r w' :
  endCh_closed (sv w) = ended (sv w) -> Handle p = Some m -> m w = (r, w') -> same_sock w w'.
Proof.
  intros He Hm E. pose proof (End_frame w He) as HE. unfold Handle in Hm.
  destruct (Command p =? A_OPEN); [done|].
  destruct (Command p =? A_OKAY).
  { simplify_eq. unfold handleOkayPacket in E.
    rewrite (io_bind_Ok _ _ w (sv w) w) in E by done.
    destruct (ended _); [by ret_inv E|]. destruct (negb _); [by ret_inv E|].
    unfold upd_sv in E. by simplify_eq. }
  destruct (Command p =? A_WRTE).
  { simplify_eq. unfold handleWritePacket in E.
    rewrite (io_bind_Ok _ _ w (sv w) w) in E by done.
    destruct (ended _); [by ret_inv E|]. destruct (negb _); [by ret_inv E|].
    unfold mbind, io_bind in E. destruct (write_data _ w) as [r1 w1] eqn:E1.
    assert (H1 : same_sock w w1).
    { unfold write_data in E1. destruct (data_bytes _); [by ret_inv E1 | by eapply on_dev_frame]. }
    destruct r1; [|by simplify_eq..]. unfold attempt in E.
    destruct (send _ w1) as [r2 w2] eqn:E2. apply send_frame in E2 as (? & ? & ?).
    destruct H1 as (? & ? & ?). destruct r2; ret_inv E; split_and!; congruence. }
  destruct (Command p =? A_CLSE); simplify_eq; [|by ret_inv E].
  unfold handleClosePacket in E. rewrite (io_bind_Ok _ _ w (sv w) w) in E by done.
  destruct (negb _); [by ret_inv E|]. by rewrite E in HE.
Qed.

Lemma entry_endch e : entry_ok e -> endCh_closed (sv (sw (e_cfg e))) = ended (sv (sw (e_cfg e))).
Proof. intros H. apply entry_inv in H as (lid & _ & Hi). by apply Hi. Qed.

Lemma entry_step_id e c' :
  entry_ok e -> sstep (e_pkt e) (e_dial e) any_packet (e_cfg e) c' ->
  localID (sv (sw c')) = localID (sv (sw (e_cfg e))).
Proof.
  intros (_ & _ & lid & mx & _ & Hm & Hr) Hs.
  pose proof (inv_reachable _ _ _ _ _ _ _ Hm Hr) as H1.
  pose proof (inv_reachable _ _ _ _ _ _ _ Hm (reach_step _ _ _ _ _ _ _ _ Hr Hs)) as H2.
  by rewrite (inv_local _ _ _ _ _ _ _ H1), (inv_local _ _ _ _ _ _ _ H2).
Qed.

Lemma linked_same k ok e c' :
  linked k ok e -> same_sock (sw (e_cfg e)) (sw c') ->
  linked k ok (mkEntry (e_pkt e) (e_dial e) c').
Proof. unfold linked. simpl. intros (? & ? & ?) (? & ? & ?). split_and!; congruence. Qed.

(** Replacing the configuration of one service by a successor that stays where
    it is in the map. *)
Lemma sys_inv_insert s n e c' :
  sys_inv s -> svcs s !! n = Some e ->
  sstep (e_pkt e) (e_dial e) any_packet (e_cfg e) c' ->
  same_sock (sw (e_cfg e)) (sw c') -> in_map c' = in_map (e_cfg e) ->
  sys_inv (mkSys (sk s) (cli s) (log s) (<[n := mkEntry (e_pkt e) (e_dial e) c']> (svcs s))
             (reader s) (closing s) (handled s)).
Proof.
  intros H Hn Hs Hl Him. pose proof (lookup_lt_Some _ _ _ Hn) as Hlt. destruct H.
  pose proof (Forall_lookup_1 _ _ _ _ si_entry0 Hn) as Hok.
  pose proof (Forall_lookup_1 _ _ _ _ si_link0 Hn) as Hli.
  constructor; simpl; auto.
  - apply Forall_insert; [done|]. by apply entry_step.
  - apply Forall_insert; [done|]. by apply linked_same.
  - intros id m. rewrite si_map0. unfold mapped. simpl. destruct (decide (m = n)) as [->|Hne].
    + rewrite list_lookup_insert_eq, Hn by done.
      pose proof (entry_step_id e c' Hok Hs) as Hid.
      split; intros (e' & [= <-] & ? & ?); eexists; (split; [done|]); simpl in *; split; congruence.
    + by rewrite list_lookup_insert_ne by done.
  - intros Hne. apply si_auth0. intros E. rewrite E in Hn. done.
Qed.

(** Taking a service out of the map. *)
Lemma sys_inv_remove lid s : sys_inv s -> sys_inv (Remove_service lid s).
Proof.
  intros []. unfold Remove_service, Remove.
  set (unmap := map_cfg (fun c => mkCfg (sw c) (op c) (fw c) false (acks c) (got c) (given c))).
  assert (Hun : forall x, entry_ok x -> entry_ok (unmap x)).
  { intros x Hx. apply (entry_step x _ Hx). apply st_unmap. }
  assert (Hwf := Remove_wf lid _ si_wf0). unfold Remove in Hwf.
  destruct (sm_services (services (sk s)) !! lid) as [m|] eqn:Em; [|by constructor].
  assert (Hm : mapped s lid m) by (by apply si_map0).
  constructor; simpl; auto.
  - apply Forall_alter; [done | intros; by apply Hun].
  - by apply Forall_alter.
  - intros id k. rewrite lookup_delete_Some, si_map0. unfold mapped in *. simpl.
    destruct Hm as (y & Hy & _ & Hidy). destruct (decide (k = m)) as [->|Hkm].
    + rewrite list_lookup_alter_eq, Hy. simpl.
      split; [intros [Hne (x & ? & _ & ?)] | intros (x & [= <-] & ? & _)]; simplify_eq; done.
    + rewrite list_lookup_alter_ne by done. split; [by intros [_ ?]|].
      intros Hx. split; [|done]. intros <-. apply si_map0 in Hx. congruence.
  - intros Hne. apply si_auth0. by intros E; rewrite E in Hne.
Qed.

(** A service that is about to leave the map is out of it once its id is. *)
Lemma Remove_service_out s n e :
  sys_inv s -> svcs s !! n = Some e ->
  exists e', svcs (Remove_service (localID (sv (sw (e_cfg e)))) s) !! n = Some e' /\
    in_map (e_cfg e') = false /\ e_pkt e' = e_pkt e /\ op (e_cfg e') = op (e_cfg e).
Proof.
  intros [] Hn. unfold Remove_service, Remove. set (lid := localID _).
  destruct (in_map (e_cfg e)) eqn:Him.
  - assert (Hm : sm_services (services (sk s)) !! lid = Some n) by (apply si_map0; by exists e).
    rewrite Hm. simpl. rewrite list_lookup_alter_eq, Hn. eexists. by split.
  - destruct (sm_services (services (sk s)) !! lid) as [m|]; simpl; [|eauto].
    destruct (decide (n = m)) as [->|].
    + rewrite list_lookup_alter_eq, Hn. eexists. by split.
    + rewrite list_lookup_alter_ne by done. eauto.
Qed.

Lemma sys_inv_open n s s' : sys_inv s -> sys_open n s = Some s' -> sys_inv s'.
Proof.
  intros H E. unfold sys_open in E. apply bind_Some in E as (e0 & Hn0 & E).
  set (s0 := match op (e_cfg e0) with OFinish _ => _ | _ => s end) in E.
  assert (H0 : sys_inv s0) by (unfold s0; case_match; try done; by apply sys_inv_remove).
  assert (He : forall e, svcs s0 !! n = Some e ->
    match op (e_cfg e) with OFinish _ => in_map (e_cfg e) = false | _ => True end).
  { intros e He. unfold s0 in He. destruct (op (e_cfg e0)) eqn:Eo; simplify_eq; rewrite ?Eo; try done.
    destruct (Remove_service_out s n e0 H Hn0) as (e' & He' & ? & ? & Ho).
    rewrite He' in He. simplify_eq. by rewrite Ho, Eo. }
  apply bind_Some in E as (e & Hn & E). specialize (He e Hn).
  destruct (opener_step _ _ _ _) as [o' w'] eqn:Es. simplify_eq.
  eapply sys_inv_insert; [done | done | by apply st_open | |].
  - eapply opener_frame; [|done]. apply entry_endch. by eapply Forall_lookup_1; [apply H0|].
  - simpl. by destruct (op (e_cfg e)).
Qed.

Lemma sys_inv_forward n t s s' : sys_inv s -> sys_forward n t s = Some s' -> sys_inv s'.
Proof.
  intros H E. unfold sys_forward in E. apply bind_Some in E as (e & Hn & E).
  destruct (forward_step _ _ _) as [f' w'] eqn:Es. simplify_eq.
  eapply sys_inv_insert; [done | done | by eapply st_forward | | done].
  eapply forward_frame; [|done]. apply entry_endch. by eapply Forall_lookup_1; [apply H|].
Qed.

(** Showing every service new values of the socket's fields. *)
Lemma sync_linked k ok e : linked k ok (map_cfg (sync_cfg (sk_ended k) (maxPayload k) ok) e).
Proof. done. Qed.

Lemma sync_mapped s f id n :
  (forall c, in_map (f c) = in_map c /\ localID (sv (sw (f c))) = localID (sv (sw c))) ->
  (exists e, (map_cfg f <$> svcs s) !! n = Some e /\ in_map (e_cfg e) = true /\
    localID (sv (sw (e_cfg e))) = id) <-> mapped s id n.
Proof.
  intros Hf. unfold mapped. rewrite list_lookup_fmap. split.
  - intros (e & (x & Hx & ->)%fmap_Some & Hi & Hid). simpl in *.
    destruct (Hf (e_cfg x)). exists x. split_and!; [done | congruence..].
  - intros (e & He & Hi & Hid). rewrite He. simpl. eexists. split; [done|]. simpl.
    by destruct (Hf (e_cfg e)) as [-> ->].
Qed.

Lemma sys_inv_resync s k ok lg rd cl hd :
  sys_inv s -> services k = services (sk s) -> remoteIDs k = remoteIDs (sk s) ->
  syncToken k = syncToken (sk s) -> version k = version (sk s) ->
  authorized k = authorized (sk s) -> token k = token (sk s) ->
  (sk_ended (sk s) = true -> sk_ended k = true) -> (ok = true -> cli s = true) ->
  0 <= maxPayload k <= 65535 -> (forall p, rd = RChecked p -> packet_wf p) ->
  (cl = true -> sk_ended k = true) ->
  sys_inv (mkSys k ok lg (map_cfg (sync_cfg (sk_ended k) (maxPayload k) ok) <$> svcs s) rd cl hd).
Proof.
  intros [] Hs Hr Hy Hv Ha Ht He Hc Hm Hrd Hcl.
  constructor; simpl; rewrite ?Hs, ?Hr, ?Hy, ?Hv, ?Ha, ?Ht; auto.
  - apply Forall_fmap, Forall_forall. intros e Hin. simpl.
    rewrite Forall_forall in si_entry0, si_link0. destruct (si_link0 e Hin) as (Hl1 & Hl2 & Hl3).
    apply sync_reach; [by apply si_entry0 | rewrite Hl1; done | rewrite Hl3; done | done].
  - apply Forall_fmap, Forall_forall. intros e _. apply sync_linked.
  - intros id n. rewrite si_map0. symmetry. by apply sync_mapped.
  - intros Hne. apply si_auth0. by intros E; rewrite E in Hne.
Qed.

Lemma sys_inv_end_flag s : sys_inv s -> sys_inv (End_flag s).
Proof.
  intros H. unfold End_flag. destruct (sk_ended (sk s)) eqn:He; [done|].
  apply (sys_inv_resync s (set_sk_ended (sk s)) (cli s)); try done; by apply H.
Qed.

Lemma sys_inv_client_fail s :
  sys_inv s ->
  sys_inv (sync_services (mkSys (sk s) false (log s) (svcs s) (reader s) (closing s) (handled s))).2.
Proof. intros H. apply (sys_inv_resync s (sk s) false); try done; by apply H. Qed.

(** [ServiceMap.End]: the services of the map, in positions of [svcs]. *)
Lemma EndAll_elem s n :
  sys_inv s -> n ∈ (EndAll (services (sk s))).1 <-> exists e, svcs s !! n = Some e /\ in_map (e_cfg e) = true.
Proof.
  intros []. unfold EndAll. simpl. rewrite list_elem_of_fmap. split.
  - intros ([id m] & -> & Hin). apply elem_of_map_to_list, si_map0 in Hin as (e & ? & ? & _). eauto.
  - intros (e & He & Hi). exists (localID (sv (sw (e_cfg e))), n). split; [done|].
    apply elem_of_map_to_list, si_map0. by exists e.
Qed.

Lemma end_entry_ok k ok e :
  entry_ok e -> linked k ok e -> in_map (e_cfg e) = true -> sk_ended k = true ->
  entry_ok (end_entry e) /\ linked k ok (end_entry e) /\ ended (sv (sw (e_cfg (end_entry e)))) = true.
Proof.
  intros Hok Hl Hi Hk. pose proof (entry_endch e Hok) as Hch. unfold end_entry. split_and!.
  - apply entry_step; [done|]. destruct (Service_End (sw (e_cfg e))) as [r w'] eqn:E.
    apply (st_map_end _ _ _ (e_cfg e) r w'); [done | | done]. destruct Hl as [-> _]. done.
  - apply linked_same; [done|]. by apply End_frame.
  - simpl. rewrite Service_End_spec by done. unfold end_state. simpl. by case_match.
Qed.

Lemma sys_inv_end_services s : sys_inv s -> closing s = true -> sys_inv (End_services s).
Proof.
  intros H Hc. pose proof (si_closing s H Hc) as Hk. pose proof (fun n => EndAll_elem s n H) as Hel.
  unfold End_services. destruct (EndAll (services (sk s))) as [ptrs m] eqn:Ea.
  simpl in Hel. assert (m = NewServiceMap) as -> by (by inversion Ea).
  set (vs := imap _ (svcs s)).
  assert (Hlk : forall n e, vs !! n = Some e -> exists x, svcs s !! n = Some x /\
    entry_ok e /\ linked (sk s) (cli s) e /\ in_map (e_cfg e) = false).
  { intros n e Hn. unfold vs in Hn. rewrite list_lookup_imap in Hn.
    apply fmap_Some in Hn as (x & Hx & ->). exists x. split; [done|].
    pose proof (Forall_lookup_1 _ _ _ _ (si_entry s H) Hx) as Hok.
    pose proof (Forall_lookup_1 _ _ _ _ (si_link s H) Hx) as Hli. case_bool_decide as Hin.
    - apply Hel in Hin as (x' & Hx' & Hi). simplify_eq.
      by destruct (end_entry_ok _ _ _ Hok Hli Hi Hk) as (? & ? & _).
    - split_and!; [done..|]. apply not_true_is_false. intros Hi. apply Hin, Hel. eauto. }
  set (s1 := mkSys (set_services NewServiceMap (sk s)) (cli s) (log s) vs (reader s) false (handled s)).
  assert (H1 : sys_inv s1).
  { destruct H. constructor; simpl; auto; try done.
    - apply Forall_lookup. intros n e Hn. by apply Hlk in Hn as (? & _ & ? & _).
    - apply Forall_lookup. intros n e Hn. by apply Hlk in Hn as (? & _ & _ & ? & _).
    - intros id n. rewrite lookup_empty. split; [done|]. intros (e & He & Hi & _).
      apply Hlk in He as (_ & _ & _ & _ & ?). simpl in *. congruence.
    - intros Hne. apply si_auth0. intros E. unfold vs in Hne. by rewrite E in Hne. }
  apply (sys_inv_resync s1 (sk s1) false); try done; apply H1.
Qed.

(** ** Handlers preserve the invariant *)

Definition same_sys (s s' : sys) : Prop :=
  sk s' = sk s /\ cli s' = cli s /\ svcs s' = svcs s /\ reader s' = reader s /\
  closing s' = closing s /\ handled s' = handled s.

Lemma Socket_send_same m s : same_sys s (Socket_send m s).2.
Proof.
  unfold Socket_send, mbind, io_bind, of_outcome, Socket_write.
  destruct (assemble_out m); simpl; [|done..]. destruct (sk_ended _); [done|]. destruct (cli s) eqn:Ec; [|done]. split_and!; try done; by simpl.
Qed.

Lemma sys_inv_same s s' : sys_inv s -> same_sys s s' -> sys_inv s'.
Proof.
  intros H (H1 & H2 & H3 & H4 & H5 & H6).
  apply (sys_inv_frame s); rewrite ?H1, ?H2, ?H3, ?H4, ?H5; auto; by apply H.
Qed.

Lemma sys_inv_send m s s' r : sys_inv s -> Socket_send m s = (r, s') -> sys_inv s'.
Proof.
  intros H E. apply (sys_inv_same s); [done|].
  pose proof (Socket_send_same m s) as Hs. by rewrite E in Hs.
Qed.

Lemma sys_inv_sync_packet s r s' : sys_inv s -> handleSyncPacket s = (r, s') -> sys_inv s'.
Proof.
  intros H E. unfold handleSyncPacket in E. rewrite (io_bind_Ok _ _ s (sk s) s) in E by done.
  destruct (Next (syncToken (sk s))) as [t c] eqn:En.
  erewrite io_bind_Ok in E by done. eapply sys_inv_send; [|done].
  apply (sys_inv_frame s); try done; [apply H | | apply H..].
  simpl. replace c with (Next (syncToken (sk s))).2 by (by rewrite En). apply Next_wf, H.
Qed.

Lemma sys_inv_connection i p s r s' :
  packet_wf p -> inputs_wf i -> sys_inv s -> handleConnectionPacket i p s = (r, s') -> sys_inv s'.
Proof.
  intros Hp Hin H E. unfold handleConnectionPacket in E.
  set (m := if Arg1 p <? UINT16_MAX then Arg1 p else UINT16_MAX) in E.
  assert (Hm : 0 <= m <= 65535).
  { unfold m, UINT16_MAX. destruct Hp as (_ & _ & Hp). unfold is_u32 in Hp.
    destruct (Z.ltb_spec (Arg1 p) 0xFFFF); lia. }
  erewrite io_bind_Ok in E by done. erewrite io_bind_Ok in E by done.
  assert (H1 : sys_inv (sync_services (upd_sk (set_maxPayload m) s).2).2)
    by (apply (sys_inv_resync s (set_maxPayload m (sk s)) (cli s)); try done; by apply H).
  unfold inputs_wf in Hin. destruct (in_token i) as [t|e]; [|by ret_inv E].
  erewrite io_bind_Ok in E by done. eapply sys_inv_send; [|done].
  by apply (sys_inv_frame _ _ H1); try done; apply H1.
Qed.

Lemma sys_inv_auth i p s r s' : sys_inv s -> handleAuthPacket i p s = (r, s') -> sys_inv s'.
Proof.
  intros H E. unfold handleAuthPacket in E. destruct (Arg0 p =? AUTH_SIGNATURE).
  { erewrite io_bind_Ok in E by done. erewrite io_bind_Ok in E by done.
    eapply sys_inv_send; [|done]. by apply (sys_inv_frame s); try done; apply H. }
  destruct (Arg0 p =? AUTH_RSAPUBLICKEY); [|by ret_inv E].
  erewrite io_bind_Ok in E by done. destruct (signature (sk s)); [|by ret_inv E].
  destruct (zlen _ <? 2); [by ret_inv E|]. destruct (authHandler _); [by ret_inv E|].
  erewrite io_bind_Ok in E by done. unfold sendCNXN in E.
  erewrite io_bind_Ok in E by done. eapply sys_inv_send; [|done].
  by apply (sys_inv_frame s); try done; apply H.
Qed.

Lemma sys_inv_forward_packet p s r s' :
  sys_inv s -> forwardServicePacket p s = (r, s') -> sys_inv s'.
Proof.
  intros H E. unfold forwardServicePacket in E. destruct (negb _); [by simplify_eq|].
  destruct (Get (Arg1 p) (services (sk s))) as [n|] eqn:Eg; [|by simplify_eq].
  apply (si_map s H) in Eg as (e & He & Hi & _). rewrite He in E.
  destruct (Handle p) as [m|] eqn:Em; [|by simplify_eq].
  destruct (m (sw (e_cfg e))) as [r1 w'] eqn:Ew. simplify_eq.
  eapply sys_inv_insert; [done | done | by eapply st_packet | | done].
  eapply handle_frame; [|done..]. apply entry_endch. by eapply Forall_lookup_1; [apply H|].
Qed.

Lemma spawn_entry_ok s p dial lid :
  sys_inv s -> packet_wf p -> 2 <= zlen (data_bytes (Data p)) -> 1 <= lid < 2 ^ 32 ->
  entry_ok (mkEntry p dial (sync_cfg (sk_ended (sk s)) (maxPayload (sk s)) (cli s)
                              (init_cfg lid (Arg0 p) (maxPayload (sk s))))).
Proof.
  intros H Hp Hd Hl. pose proof (si_max s H) as Hm.
  apply (sync_reach (mkEntry p dial (init_cfg lid (Arg0 p) (maxPayload (sk s))))); try done.
  split; [done|]. split; [by apply Hp|]. exists lid, (maxPayload (sk s)).
  split; [done|]. split; [done|]. apply reach_init.
Qed.

Lemma sys_inv_spawn s p dial lid :
  sys_inv s -> packet_wf p -> 2 <= zlen (data_bytes (Data p)) -> 1 <= lid < 2 ^ 32 ->
  authorized (sk s) = true -> sm_services (services (sk s)) !! lid = None ->
  sys_inv (spawn p dial lid (Arg0 p)
    (mkSys (set_services (Insert lid (length (svcs s)) (services (sk s))).2 (sk s))
       (cli s) (log s) (svcs s) (reader s) (closing s) (handled s))).2.
Proof.
  intros H Hp Hd Hl Ha Hnone. pose proof (spawn_entry_ok s p dial lid H Hp Hd Hl) as Hok.
  pose proof (Insert_wf lid (length (svcs s)) _ (si_wf s H)) as Hwf.
  unfold spawn, Insert in *. rewrite Hnone in *. destruct H. constructor; simpl; auto.
  - apply Forall_app. split; [done|]. by apply Forall_singleton.
  - apply Forall_app. split; [done|]. by apply Forall_singleton.
  - intros id n. unfold mapped. simpl. rewrite lookup_insert_Some, si_map0. split.
    + intros [[<- <-]|[Hne (e & He & ? & ?)]].
      * rewrite list_lookup_middle by done. by eexists.
      * exists e. split; [|done]. by apply lookup_app_l_Some.
    + intros (e & He & Hi & Hid). apply lookup_app_Some in He as [He|[Hlen He]].
      * right. split; [|by exists e]. intros ->.
        assert (sm_services (services (sk s)) !! id = Some n) by (apply si_map0; by exists e).
        congruence.
      * left. apply list_lookup_singleton_Some in He as [Hz <-]. simpl in Hid.
        split; [done | lia].
Qed.

Lemma sys_inv_open_packet i p s r s' :
  packet_wf p -> sys_inv s -> Socket_handleOpenPacket i p s = (r, s') -> sys_inv s'.
Proof.
  intros Hp H E. unfold Socket_handleOpenPacket in E. erewrite io_bind_Ok in E by done.
  destruct (authorized (sk s)) eqn:Ha; cbn [negb] in E; [|by ret_inv E].
  destruct (Next (remoteIDs (sk s))) as [lid c] eqn:En.
  pose proof (Next_wf _ (si_ids s H)) as Hc. pose proof (Next_range _ (si_ids s H)) as Hl.
  rewrite En in Hc, Hl. simpl in Hc, Hl.
  erewrite io_bind_Ok in E by done.
  set (s1 := mkSys (set_remoteIDs c (sk s)) (cli s) (log s) (svcs s) (reader s) (closing s) (handled s)) in E.
  assert (H1 : sys_inv s1) by (apply (sys_inv_frame s); try done; apply H).
  destruct (Z.ltb_spec (zlen (data_bytes (Data p))) 2); [by ret_inv E|].
  erewrite io_bind_Ok in E by done.
  pose proof (fun Hn => sys_inv_spawn s1 p (in_dial i) lid H1 Hp ltac:(lia) Hl Ha Hn) as H2.
  unfold Insert in *. simpl in *.
  destruct (sm_services (services (sk s)) !! lid) eqn:El; [by ret_inv E|].
  erewrite io_bind_Ok in E by done. specialize (H2 eq_refl).
  change s' with (r, s').2. by rewrite <- E.
Qed.

Lemma sys_inv_handle i p s r s' :
  packet_wf p -> inputs_wf i -> sys_inv s -> handle i p s = (r, s') -> sys_inv s'.
Proof.
  intros Hp Hin H E. unfold handle in E.
  repeat (match type of E with context [if ?b then _ else _] => destruct b end);
    [by eapply sys_inv_sync_packet | by eapply sys_inv_connection | by eapply sys_inv_open_packet
    | by eapply sys_inv_forward_packet | by eapply sys_inv_auth | by ret_inv E].
Qed.

Lemma sys_inv_step a s s' : sys_inv s -> kexec a s = Some s' -> sys_inv s'.
Proof.
  intros H E. destruct a as [p| |i| | |n|n t|]; simpl in E.
  - destruct (reader s) eqn:Er; try done. case_bool_decide as Hp; [|done].
    destruct (sk_ended (sk s)); simplify_eq; [done|].
    apply (sys_inv_frame s); try done; try (by apply H). simpl. by intros ? [= <-].
  - destruct (reader s); simplify_eq. apply (sys_inv_frame s); try done; by apply H.
  - destruct (reader s) as [|p|] eqn:Er; try done. pose proof (si_reader s H p Er) as Hp.
    destruct (bool_decide_reflect (inputs_wf i)) as [Hin|]; [|done]. cbn [negb] in E.
    destruct (handle i p s) as [r s1] eqn:Eh. pose proof (sys_inv_handle _ _ _ _ _ Hp Hin H Eh) as H1.
    destruct r; simplify_eq; apply (sys_inv_frame s1); try done; by apply H1.
  - simplify_eq. by apply sys_inv_end_flag.
  - destruct (closing s) eqn:Ec; simplify_eq. by apply sys_inv_end_services.
  - by eapply sys_inv_open.
  - by eapply sys_inv_forward.
  - simplify_eq. by apply sys_inv_client_fail.
Qed.

Lemma sys_inv_reach s : kreach s -> sys_inv s.
Proof.
  induction 1 as [|a s s' _ IH E]; [|by eapply sys_inv_step].
  constructor; simpl; try done; try (apply NewRollingCounter_wf; unfold UINT32_MAX; lia).
  - intros id n. rewrite lookup_empty. split; [done|]. by intros (e & He & _).
Qed.

(** ** The [ended] flag only goes up, and only [End] touches [closing] *)

Definition same_flags (s s' : sys) : Prop :=
  sk_ended (sk s') = sk_ended (sk s) /\ closing s' = closing s.

Lemma same_flags_send s s1 m r s' :
  same_flags s s1 -> Socket_send m s1 = (r, s') -> same_flags s s'.
Proof.
  intros [H1 H2] E. pose proof (Socket_send_same m s1) as (H & _ & _ & _ & H' & _).
  rewrite E in H, H'. simpl in *. split; congruence.
Qed.

Lemma handle_flags i p s r s' : handle i p s = (r, s') -> same_flags s s'.
Proof.
  intros E. unfold handle in E. destruct (Command p =? A_SYNC).
  { unfold handleSyncPacket in E. erewrite io_bind_Ok in E by done.
    destruct (Next _). erewrite io_bind_Ok in E by done. by eapply same_flags_send; [|done]. }
  destruct (Command p =? A_CNXN).
  { unfold handleConnectionPacket in E. do 2 erewrite io_bind_Ok in E by done.
    destruct (in_token i); [|by ret_inv E].
    erewrite io_bind_Ok in E by done. by eapply same_flags_send; [|done]. }
  destruct (Command p =? A_OPEN).
  { unfold Socket_handleOpenPacket in E. erewrite io_bind_Ok in E by done.
    destruct (negb _); [by ret_inv E|]. destruct (Next _). erewrite io_bind_Ok in E by done.
    destruct (_ <? 2); [by ret_inv E|]. erewrite io_bind_Ok in E by done.
    destruct (Insert _ _ _) as [[] ?]; try by ret_inv E.
    erewrite io_bind_Ok in E by done. unfold spawn in E. by simplify_eq. }
  destruct (_ || _).
  { unfold forwardServicePacket in E. by repeat case_match; simplify_eq. }
  destruct (Command p =? A_AUTH); [|by ret_inv E]. unfold handleAuthPacket in E.
  destruct (Arg0 p =? AUTH_SIGNATURE).
  { do 2 erewrite io_bind_Ok in E by done. by eapply same_flags_send; [|done]. }
  destruct (Arg0 p =? AUTH_RSAPUBLICKEY); [|by ret_inv E]. erewrite io_bind_Ok in E by done.
  destruct (signature (sk s)); [|by ret_inv E]. destruct (zlen _ <? 2); [by ret_inv E|].
  destruct (authHandler _); [by ret_inv E|]. erewrite io_bind_Ok in E by done.
  unfold sendCNXN in E. erewrite io_bind_Ok in E by done. by eapply same_flags_send; [|done].
Qed.

Lemma Remove_service_flags lid s : same_flags s (Remove_service lid s).
Proof. unfold Remove_service. by destruct (Remove _ _). Qed.

Lemma kexec_flags a s s' :
  a <> KEnd -> a <> KEndServices -> kexec a s = Some s' -> same_flags s s'.
Proof.
  intros Ha Hb E. destruct a as [p| |i| | |n|n t|]; simpl in E; try done.
  - destruct (reader s); try done. case_bool_decide; [|done].
    by destruct (sk_ended (sk s)) eqn:?; simplify_eq.
  - by destruct (reader s); simplify_eq.
  - destruct (reader s) as [|p|]; try done. destruct (negb _); [done|].
    destruct (handle i p s) as [r s1] eqn:Eh. apply handle_flags in Eh.
    by destruct r; simplify_eq.
  - unfold sys_open in E. apply bind_Some in E as (e0 & _ & E).
    apply bind_Some in E as (e & _ & E). destruct (opener_step _ _ _ _). simplify_eq.
    pose proof (Remove_service_flags (localID (sv (sw (e_cfg e0)))) s).
    by destruct (op (e_cfg e0)).
  - unfold sys_forward in E. apply bind_Some in E as (e & _ & E).
    destruct (forward_step _ _ _). by simplify_eq.
  - by simplify_eq.
Qed.

Lemma End_flag_ended s : sk_ended (sk (End_flag s)) = true.
Proof. unfold End_flag. by destruct (sk_ended (sk s)) eqn:E. Qed.

Lemma End_flag_closing s :
  closing (End_flag s) = if sk_ended (sk s) then closing s else true.
Proof. unfold End_flag. by destruct (sk_ended (sk s)). Qed.

Lemma End_services_ended s : sk_ended (sk (End_services s)) = sk_ended (sk s).
Proof. unfold End_services. by destruct (EndAll _). Qed.

(** ** Composition with the services *)

(** C5. Composition: in every interleaving of the reader, the services' goroutines,
    [End] and client failures, each service the socket ever spawned is in a
    state the service's own step relation reaches (so all the service theorems
    apply to it) with a non-zero [uint32] id and a payload limit within
    16 bits; the map holds exactly the services not yet removed, under their
    ids, which are therefore distinct; and [Count] is the number of entries. *)
Theorem socket_services_sound s :
  kreach s ->
  (forall n e, svcs s !! n = Some e ->
     exists lid max, 1 <= lid < 2 ^ 32 /\ 0 <= max <= 65535 /\
       reachable (e_pkt e) (e_dial e) any_packet lid (Arg0 (e_pkt e)) max (e_cfg e)) /\
  (forall id n, Get id (services (sk s)) = Some n <-> mapped s id n) /\
  (forall n m e1 e2, svcs s !! n = Some e1 -> svcs s !! m = Some e2 ->
     in_map (e_cfg e1) = true -> in_map (e_cfg e2) = true ->
     localID (sv (sw (e_cfg e1))) = localID (sv (sw (e_cfg e2))) -> n = m) /\
  Count (services (sk s)) = Z.of_nat (size (sm_services (services (sk s)))).
Proof.
  intros H. apply sys_inv_reach in H. split_and!; [|apply H| |apply H].
  - intros n e He. by destruct (Forall_lookup_1 _ _ _ _ (si_entry s H) He) as (_ & _ & ?).
  - intros n m e1 e2 H1 H2 Hi1 Hi2 Hid.
    assert (mapped s (localID (sv (sw (e_cfg e1)))) n) as M1%(si_map s H) by (by exists e1).
    assert (mapped s (localID (sv (sw (e_cfg e1)))) m) as M2%(si_map s H) by (by exists e2).
    congruence.
Qed.

(** ** Authentication *)

Definition is_auth (kind : Z) (p : Packet) : Prop := Command p = A_AUTH /\ Arg0 p = kind.

Definition sig_seen (h : list Packet) : Prop :=
  exists p, p ∈ h /\ is_auth AUTH_SIGNATURE p /\ Data p <> None.

(** A signature packet was handled, and later a key the handler accepts. *)
Definition authenticated (h : list Packet) : Prop :=
  exists pre key post, h = pre ++ key :: post /\ sig_seen pre /\
    is_auth AUTH_RSAPUBLICKEY key /\ 2 <= zlen (data_bytes (Data key)) /\
    authHandler (data_bytes (Data key)) = None.

Record auth_inv (s : sys) : Prop := {
  ai_sig : signature (sk s) <> None -> sig_seen (handled s);
  ai_auth : authorized (sk s) = true -> authenticated (handled s);
  ai_cnxn : Exists (fun m => o_command m = A_CNXN) (log s) -> authorized (sk s) = true
}.

Lemma sig_seen_app h p : sig_seen h -> sig_seen (h ++ [p]).
Proof. intros (q & Hq & ?). exists q. split; [|done]. apply elem_of_app. by left. Qed.

Lemma authenticated_app h p : authenticated h -> authenticated (h ++ [p]).
Proof.
  intros (pre & key & post & -> & ?). exists pre, key, (post ++ [p]). split; [|done].
  by rewrite <- app_assoc.
Qed.

(** What one packet does to the fields authentication depends on. *)
Record auth_delta (p : Packet) (s s' : sys) : Prop := {
  ad_handled : handled s' = handled s;
  ad_sig : signature (sk s') <> None -> signature (sk s) <> None \/ (is_auth AUTH_SIGNATURE p /\ Data p <> None);
  ad_auth : authorized (sk s') = authorized (sk s) \/
    (authorized (sk s') = true /\ signature (sk s) <> None /\ is_auth AUTH_RSAPUBLICKEY p /\
     2 <= zlen (data_bytes (Data p)) /\ authHandler (data_bytes (Data p)) = None);
  ad_cnxn : Exists (fun m => o_command m = A_CNXN) (log s') ->
    Exists (fun m => o_command m = A_CNXN) (log s) \/ authorized (sk s') = true
}.

Lemma Socket_send_log m s :
  log (Socket_send m s).2 = log s \/ log (Socket_send m s).2 = log s ++ [m].
Proof.
  unfold Socket_send, mbind, io_bind, of_outcome, Socket_write.
  destruct (assemble_out m); simpl; auto. destruct (sk_ended _); auto. destruct (cli s); auto.
Qed.

(** Sending a packet other than a CNXN, or any packet once authorized. *)
Lemma auth_delta_send p s s1 m r s' :
  auth_delta p s s1 -> o_command m <> A_CNXN \/ authorized (sk s1) = true ->
  Socket_send m s1 = (r, s') -> auth_delta p s s'.
Proof.
  intros [] Hm E. pose proof (Socket_send_same m s1) as (H1 & _ & _ & _ & _ & H2).
  pose proof (Socket_send_log m s1) as Hl. rewrite E in H1, H2, Hl. simpl in *.
  constructor; rewrite ?H1, ?H2; auto. intros Hx.
  destruct Hl as [Hl|Hl]; rewrite Hl in Hx; [auto|].
  apply Exists_app in Hx as [Hx|Hx]; [auto|].
  apply Exists_cons in Hx as [Hx|Hx]; [|by inversion Hx]. by destruct Hm; [|right].
Qed.

Lemma auth_delta_refl p s : auth_delta p s s.
Proof. constructor; auto. Qed.

Lemma auth_delta_same p s s' :
  handled s' = handled s -> signature (sk s') = signature (sk s) ->
  authorized (sk s') = authorized (sk s) -> log s' = log s -> auth_delta p s s'.
Proof. intros H1 H2 H3 H4. constructor; rewrite ?H1, ?H2, ?H3, ?H4; auto. Qed.

Lemma auth_delta_auth i p s r s' :
  Command p = A_AUTH -> handleAuthPacket i p s = (r, s') -> auth_delta p s s'.
Proof.
  intros Hc E. unfold handleAuthPacket in E. destruct (Z.eqb_spec (Arg0 p) AUTH_SIGNATURE).
  { erewrite io_bind_Ok in E by done. erewrite io_bind_Ok in E by done.
    eapply auth_delta_send; [| |done]; [|by left]. constructor; simpl; auto.
    destruct (signature (sk s)); [by left|]. intros ?. by right. }
  destruct (Z.eqb_spec (Arg0 p) AUTH_RSAPUBLICKEY); [|ret_inv E; apply auth_delta_refl].
  erewrite io_bind_Ok in E by done.
  destruct (signature (sk s)) eqn:Es; [|ret_inv E; apply auth_delta_refl].
  destruct (Z.ltb_spec (zlen (data_bytes (Data p))) 2); [ret_inv E; apply auth_delta_refl|].
  destruct (authHandler _) eqn:Ea; [ret_inv E; apply auth_delta_refl|].
  erewrite io_bind_Ok in E by done. unfold sendCNXN in E.
  erewrite io_bind_Ok in E by done. eapply auth_delta_send; [| |done]; [|by right].
  constructor; simpl; auto. right. split_and!; try done. by rewrite Es.
Qed.

Lemma auth_delta_handle i p s r s' : handle i p s = (r, s') -> auth_delta p s s'.
Proof.
  intros E. unfold handle in E.
  destruct (Command p =? A_SYNC).
  { unfold handleSyncPacket in E. erewrite io_bind_Ok in E by done.
    destruct (Next _) as [t c]. erewrite io_bind_Ok in E by done.
    eapply auth_delta_send; [| |done]; [|by left]. by apply auth_delta_same. }
  destruct (Command p =? A_CNXN).
  { unfold handleConnectionPacket in E. erewrite io_bind_Ok in E by done.
    erewrite io_bind_Ok in E by done. destruct (in_token i).
    - erewrite io_bind_Ok in E by done. eapply auth_delta_send; [| |done]; [|by left].
      by apply auth_delta_same.
    - ret_inv E. by apply auth_delta_same. }
  destruct (Command p =? A_OPEN).
  { unfold Socket_handleOpenPacket in E. erewrite io_bind_Ok in E by done.
    destruct (negb _); [ret_inv E; apply auth_delta_refl|].
    destruct (Next _) as [lid c]. erewrite io_bind_Ok in E by done.
    destruct (_ <? 2); [ret_inv E; by apply auth_delta_same|].
    erewrite io_bind_Ok in E by done. destruct (Insert _ _ _) as [o m].
    destruct o; try (ret_inv E; by apply auth_delta_same).
    erewrite io_bind_Ok in E by done. unfold spawn in E. simplify_eq. by apply auth_delta_same. }
  destruct (_ || _).
  { unfold forwardServicePacket in E. repeat case_match; simplify_eq;
      try apply auth_delta_refl; by apply auth_delta_same. }
  destruct (Z.eqb_spec (Command p) A_AUTH); [by eapply auth_delta_auth|].
  ret_inv E. apply auth_delta_refl.
Qed.

(** Steps that touch none of those fields. *)
Lemma auth_inv_frame s s' :
  auth_inv s -> handled s' = handled s -> signature (sk s') = signature (sk s) ->
  authorized (sk s') = authorized (sk s) -> log s' = log s -> auth_inv s'.
Proof. intros [] H1 H2 H3 H4. constructor; by rewrite ?H1, ?H2, ?H3, ?H4. Qed.

Lemma auth_inv_handled p s s' rd :
  auth_inv s -> auth_delta p s s' ->
  auth_inv (mkSys (sk s') (cli s') (log s') (svcs s') rd (closing s') (handled s' ++ [p])).
Proof.
  intros [] []. constructor; simpl; rewrite ?ad_handled0.
  - intros Hs. destruct (ad_sig0 Hs) as [H|[H1 H2]]; [by apply sig_seen_app, ai_sig0|].
    exists p. split; [|done]. apply elem_of_app. right. by apply list_elem_of_singleton.
  - intros Ha. destruct ad_auth0 as [H|(_ & Hsig & H1 & H2 & H3)].
    + apply authenticated_app, ai_auth0. congruence.
    + exists (handled s), p, []. split_and!; auto.
  - intros Hx. destruct (ad_cnxn0 Hx) as [H|H]; [|done].
    destruct ad_auth0 as [->|[-> _]]; auto.
Qed.

Lemma Remove_service_frame lid s :
  handled (Remove_service lid s) = handled s /\
  signature (sk (Remove_service lid s)) = signature (sk s) /\
  authorized (sk (Remove_service lid s)) = authorized (sk s) /\
  log (Remove_service lid s) = log s.
Proof. unfold Remove_service. by destruct (Remove _ _). Qed.

Lemma auth_inv_step a s s' : auth_inv s -> kexec a s = Some s' -> auth_inv s'.
Proof.
  intros H E. destruct a as [p| |i| | |n|n t|]; simpl in E.
  - destruct (reader s); try done. case_bool_decide; [|done].
    destruct (sk_ended (sk s)); simplify_eq; [done|]. by apply (auth_inv_frame s).
  - destruct (reader s); simplify_eq. by apply (auth_inv_frame s).
  - destruct (reader s) as [|p|]; try done. destruct (negb _); [done|].
    destruct (handle i p s) as [r s1] eqn:Eh. apply auth_delta_handle in Eh.
    destruct r; simplify_eq; by apply (auth_inv_handled p s s1).
  - simplify_eq. unfold End_flag. destruct (sk_ended (sk s)); [done|]. by apply (auth_inv_frame s).
  - destruct (closing s); simplify_eq. by apply (auth_inv_frame s).
  - unfold sys_open in E. apply bind_Some in E as (e0 & _ & E).
    apply bind_Some in E as (e & _ & E). destruct (opener_step _ _ _ _). simplify_eq.
    destruct (Remove_service_frame (localID (sv (sw (e_cfg e0)))) s) as (? & ? & ? & ?).
    apply (auth_inv_frame s); [done|..]; simpl; by destruct (op (e_cfg e0)).
  - unfold sys_forward in E. apply bind_Some in E as (e & _ & E).
    destruct (forward_step _ _ _). simplify_eq. by apply (auth_inv_frame s).
  - simplify_eq. by apply (auth_inv_frame s).
Qed.

Lemma auth_inv_reach s : kreach s -> auth_inv s.
Proof.
  induction 1 as [|a s s' _ IH E]; [|by eapply auth_inv_step].
  constructor; simpl; try done. intros Hx. by apply Exists_nil in Hx.
Qed.

(** C4. Authentication gate: a service is spawned, a CNXN reply is sent, or the socket
    counts as authorized, only after the client has sent an AUTH SIGNATURE
    packet with a payload and, after it, an AUTH RSAPUBLICKEY packet of at
    least two bytes that the authentication handler accepts. *)
Theorem socket_auth_gate s :
  kreach s ->
  svcs s <> [] \/ Exists (fun m => o_command m = A_CNXN) (log s) \/ authorized (sk s) = true ->
  authenticated (handled s).
Proof.
  intros H Hs. pose proof (sys_inv_reach s H) as Hi. apply auth_inv_reach in H as [].
  apply ai_auth0. destruct Hs as [Hs|[Hs|Hs]]; [by apply Hi | auto | done].
Qed.

(** ** Handling never crashes the reader *)

Lemma Socket_send_returns m s :
  zlen (data_bytes (o_data m)) < 2 ^ 31 -> returns (Socket_send m s).1.
Proof.
  intros H. unfold Socket_send, assemble_out. rewrite Assemble_ok by lia.
  unfold mbind, io_bind, of_outcome, Socket_write. destruct (sk_ended _); [done|]. by destruct (cli s).
Qed.

Definition serial_short (i : inputs) : Prop :=
  match in_serial i with inl s => zlen s < 2 ^ 29 | inr _ => True end.

Lemma getDeviceID_short i : serial_short i -> zlen (getDeviceID i) < 2 ^ 31.
Proof.
  unfold serial_short, getDeviceID, zlen. rewrite !length_app.
  assert (length (str "device::ro.product.name=adb-bridge;ro.product.model=") <= 100 /\
    length (str ";ro.product.device=") <= 100 /\ length (str "unknown") <= 100)%nat by (vm_compute; lia).
  destruct (in_serial i); simpl; lia.
Qed.

Lemma handle_returns i p s :
  sys_inv s -> inputs_wf i -> serial_short i -> returns (handle i p s).1.
Proof.
  intros H Hin Hser. unfold handle.
  destruct (Command p =? A_SYNC).
  { unfold handleSyncPacket. erewrite io_bind_Ok by done. destruct (Next _).
    erewrite io_bind_Ok by done. by apply Socket_send_returns. }
  destruct (Command p =? A_CNXN).
  { unfold handleConnectionPacket. erewrite io_bind_Ok by done. erewrite io_bind_Ok by done.
    unfold inputs_wf in Hin. destruct (in_token i) as [t|]; [|done].
    erewrite io_bind_Ok by done. apply Socket_send_returns. unfold zlen. simpl. rewrite Hin. done. }
  destruct (Command p =? A_OPEN).
  { unfold Socket_handleOpenPacket. erewrite io_bind_Ok by done. destruct (negb _); [done|].
    destruct (Next _). erewrite io_bind_Ok by done. destruct (_ <? 2); [done|].
    erewrite io_bind_Ok by done. unfold Insert. by destruct (_ !! _). }
  destruct (_ || _) eqn:Ec.
  { unfold forwardServicePacket. destruct (negb _); [done|].
    destruct (Get _ _) as [n|] eqn:Eg; [|done]. apply (si_map s H) in Eg as (e & He & _).
    rewrite He. destruct (Handle p) as [m|] eqn:Em.
    - pose proof (Handle_returns p m (sw (e_cfg e))) as Hr.
      destruct (m (sw (e_cfg e))) as [r w']. apply Hr; [|done].
      apply entry_endch. by eapply Forall_lookup_1; [apply H|].
    - exfalso. unfold Handle in Em. destruct (Z.eqb_spec (Command p) A_OPEN) as [Hc|].
      + by rewrite Hc in Ec.
      + by repeat case_match. }
  destruct (Command p =? A_AUTH); [|done]. unfold handleAuthPacket.
  destruct (Arg0 p =? AUTH_SIGNATURE).
  { erewrite io_bind_Ok by done. erewrite io_bind_Ok by done. apply Socket_send_returns.
    pose proof (si_token s H) as Ht. simpl. unfold zlen. destruct (token (sk s)) as [t|]; [|done].
    simpl in *. rewrite Ht. done. }
  destruct (Arg0 p =? AUTH_RSAPUBLICKEY); [|done]. erewrite io_bind_Ok by done.
  destruct (signature (sk s)); [|done]. destruct (zlen _ <? 2); [done|].
  destruct (authHandler _); [done|]. erewrite io_bind_Ok by done. unfold sendCNXN.
  erewrite io_bind_Ok by done. apply Socket_send_returns. by apply getDeviceID_short.
Qed.


(** C16. [End] shuts everything down: after it, the flag is set, the map is empty and
    its count zero, the client connection takes no more writes, and every
    service that was in the map has ended, with its device connection closed
    if it had one. *)
Theorem socket_end_closes_all s :
  kreach s -> sk_ended (sk s) = false ->
  exists s', kexec_all [KEnd; KEndServices] s = Some s' /\
    sk_ended (sk s') = true /\ cli s' = false /\
    (forall id, Get id (services (sk s')) = None) /\ Count (services (sk s')) = 0 /\
    (forall n e, svcs s !! n = Some e -> in_map (e_cfg e) = true ->
       exists e', svcs s' !! n = Some e' /\ ended (sv (sw (e_cfg e'))) = true /\
         in_map (e_cfg e') = false /\
         (transport (sv (sw (e_cfg e))) = true -> conn_closed (dev (sw (e_cfg e'))) = true)).
Proof.
  intros Hr He. apply sys_inv_reach in Hr as H.
  pose proof (sys_inv_end_flag s H) as H1. unfold End_flag in H1. rewrite He in H1.
  simpl. unfold End_flag. rewrite He. set (s1 := mkSys (set_sk_ended (sk s)) _ _ _ _ _ _) in *. cbn [mbind option_bind closing].
  unfold s1 at 1. cbn [closing]. eexists. split; [done|]. unfold End_services.
  pose proof (fun n => EndAll_elem s1 n H1) as Hel.
  destruct (EndAll (services (sk s1))) as [ptrs m] eqn:Ea. simpl in Hel.
  assert (m = NewServiceMap) as -> by (by inversion Ea). split_and!; try done.
  intros n e Hn Hi. set (e1 := map_cfg (sync_cfg true (maxPayload (sk s)) (cli s)) e).
  assert (Hn1 : svcs s1 !! n = Some e1) by (unfold s1; simpl; by rewrite list_lookup_fmap, Hn).
  assert (Hok1 : entry_ok e1) by (by eapply Forall_lookup_1; [apply H1|]).
  simpl. rewrite list_lookup_fmap, list_lookup_imap.
  change (map_cfg _ <$> svcs s) with (svcs s1). rewrite Hn1. simpl.
  rewrite bool_decide_true by (apply Hel; by exists e1). eexists. split; [done|].
  simpl. rewrite Service_End_spec by (by apply (entry_endch e1)).
  assert (Hok : entry_ok e) by (by eapply Forall_lookup_1; [apply H|]).
  apply entry_inv in Hok as (lid & _ & Hinv). unfold end_state. simpl.
  destruct (ended (sv (sw (e_cfg e)))) eqn:Een; simpl; split_and!; try done.
  - intros Ht. by rewrite (inv_transport _ _ _ _ _ _ _ Hinv Een) in Ht.
  - by intros ->.
Qed.
End socket.

(** ** Runs *)

(** The handler [NewSocket] installs when it is given none. *)
Definition accept_all (key : bytes) : option goerror := None.

Definition ex_in : inputs :=
  mkInputs (inl (replicate TOKEN_LENGTH x07)) (inl (str "emulator-5554")) ex_dial.

Definition client_packet (cmd a0 a1 : Z) (d : option bytes) : Packet :=
  mkPacket cmd a0 a1 (zlen (data_bytes d)) 0 0 d.

Definition ex_exchange (p : Packet) : list act := [KReceive p; KHandle ex_in].

Definition ex_login : list act :=
  ex_exchange (client_packet A_CNXN 0x01000000 4096 (Some (str "host::")))
  ++ ex_exchange (client_packet A_AUTH AUTH_SIGNATURE 0 (Some (str "sig")))
  ++ ex_exchange (client_packet A_AUTH AUTH_RSAPUBLICKEY 0 (Some (str "key"))).

(** The client opens a shell and the device answers and closes. *)
Definition ex_session : list act :=
  ex_login ++ ex_exchange ex_open ++ replicate 6 (KOpen 0)
  ++ replicate 3 (KForward 0 true)
  ++ ex_exchange (client_packet A_OKAY 9 2 None)
  ++ replicate 3 (KForward 0 true).

Definition run (acts : list act) : sys := default init_sys (kexec_all accept_all acts init_sys).

Definition has_run (acts : list act) : bool :=
  match kexec_all accept_all acts init_sys with Some _ => true | None => false end.

Lemma run_reach acts : has_run acts = true -> kreach accept_all (run acts).
Proof.
  unfold has_run, run. destruct (kexec_all _ _ _) eqn:E; [|done]. intros _. by eapply kexec_all_reach.
Qed.

(** The closing race: the device ends a stream, the bridge sends its CLSE, and the
    client's answering CLSE - the ordinary ADB reply - arrives before the
    opener goroutine has removed the service from the map.  The reader then
    stops with [ErrPrematurePacket], which ends the whole connection with every
    other service on it. *)
Theorem socket_close_race :
  exists s e, kreach accept_all s /\ reader s = RChecked (client_packet A_CLSE 9 2 None) /\
    sk_ended (sk s) = false /\ cli s = true /\ svcs s = [e] /\
    out (sw (e_cfg e)) = [mkOut A_OKAY 2 9 None; mkOut A_WRTE 2 9 (Some (str "hello")); mkOut A_CLSE 2 9 None] /\
    forall i, (handle accept_all i (client_packet A_CLSE 9 2 None) s).1 = Err ErrPrematurePacket.
Proof.
  exists (run (ex_session ++ [KReceive (client_packet A_CLSE 9 2 None)])).
  eexists. split; [apply run_reach; by vm_compute|].
  split_and!; by vm_compute.
Qed.

Definition late_open : list act :=
  ex_login ++ [KReceive ex_open; KEnd; KEndServices; KHandle ex_in] ++ replicate 6 (KOpen 0)
  ++ replicate 4 (KForward 0 true).

(** The late open: an OPEN whose [ended] check passed before [End] ran is inserted
    into the map afterwards.  Its device connection is opened and stays open:
    [End] never runs again, nothing is sent on the closed client connection,
    and the forwarder waits for an acknowledgement that cannot come. *)
Theorem socket_late_open_leaks :
  exists s e, kreach accept_all s /\ sk_ended (sk s) = true /\ svcs s = [e] /\
    in_map (e_cfg e) = true /\ ended (sv (sw (e_cfg e))) = false /\
    transport (sv (sw (e_cfg e))) = true /\ conn_closed (dev (sw (e_cfg e))) = false /\
    op (e_cfg e) = OWait /\ fw (e_cfg e) = FSleep /\ needAck (sv (sw (e_cfg e))) = true /\
    kexec accept_all KEnd s = Some s /\ kexec accept_all KEndServices s = None.
Proof.
  exists (run late_open). eexists. split; [apply run_reach; by vm_compute|].
  split_and!; by vm_compute.
Qed.

(** ** Instances of the theorems *)

Lemma socket_services_sound_witness :
  Get 2 (services (sk (run ex_session))) = Some 0%nat /\
  mapped (run ex_session) 2 0.
Proof.
  destruct (socket_services_sound accept_all (run ex_session)) as (_ & H & _).
  - apply run_reach. vm_compute. reflexivity.
  - split; [vm_compute; reflexivity|]. apply H. vm_compute. reflexivity.
Defined.

Lemma socket_auth_gate_witness : authenticated accept_all (handled (run ex_session)).
Proof.
  apply (socket_auth_gate accept_all (run ex_session)).
  - apply run_reach. vm_compute. reflexivity.
  - right. right. vm_compute. reflexivity.
Defined.


Lemma socket_end_closes_all_witness :
  exists s', kexec_all accept_all [KEnd; KEndServices] (run ex_session) = Some s' /\
    (forall id, Get id (services (sk s')) = None).
Proof.
  destruct (socket_end_closes_all accept_all (run ex_session)) as (s' & E & _ & _ & H & _).
  - apply run_reach. vm_compute. reflexivity.
  - vm_compute. reflexivity.
  - exists s'. split; [exact E | exact H].
Defined.
