(* ===== verification/Wire.v ===== *)
(** * What a client of the bridge receives

    The socket and all its services write packets to the same client
    connection, each from its own goroutine.  [wtrace] records the packets of
    one interleaving in the order they were written; the theorem says that this
    stream is well formed and complete. *)

From stdpp Require Import base list numbers gmap.
From Stdlib Require Import ZArith Lia.
From S2P Require Import Prelude GoStrings GoNet Packet PacketReader RollingCounter ServiceMap Service Socket.

Local Open Scope Z_scope.

(** What each service has sent. *)
Definition outs (s : sys) : list (list OutPacket) := (fun e => out (sw (e_cfg e))) <$> svcs s.

(** What a list of logs has gained over an earlier, possibly shorter, one. *)
Fixpoint gained {A} (l l' : list (list A)) : list (list A) :=
  match l, l' with
  | x :: r, y :: r' => drop (length x) y :: gained r r'
  | _, _ => l'
  end.

Definition new_packets (s s' : sys) : list OutPacket :=
  drop (length (log s)) (log s') ++ concat (gained (outs s) (outs s')).

(** The serial numbers of real devices are far below half a gigabyte. *)
Definition act_ok (a : act) : Prop := match a with KHandle i => serial_short i | _ => True end.

Section wire.
Context (authHandler : bytes -> option goerror).

Inductive wtrace : list OutPacket -> sys -> Prop :=
  | wtrace_init : wtrace [] init_sys
  | wtrace_step a w s s' :
      wtrace w s -> act_ok a -> kexec authHandler a s = Some s' -> wtrace (w ++ new_packets s s') s'.
End wire.

(** ** Logs only grow *)

Inductive ahead {A} : list (list A) -> list (list A) -> Prop :=
  | ahead_nil l : ahead [] l
  | ahead_cons x y l l' : x `prefix_of` y -> ahead l l' -> ahead (x :: l) (y :: l').

#[global] Instance ahead_refl {A} : Reflexive (@ahead A).
Proof. intros l. induction l; by constructor. Qed.

#[global] Instance ahead_trans {A} : Transitive (@ahead A).
Proof.
  intros l1 l2 l3 H. revert l3. induction H as [|x y l l' Hp H IH]; intros l3 H3; [constructor|].
  inversion H3; subst. constructor; [by etrans | auto].
Qed.

Lemma ahead_insert {A} (l : list (list A)) n x y :
  l !! n = Some x -> x `prefix_of` y -> ahead l (<[n := y]> l).
Proof.
  revert n. induction l as [|z l IH]; intros [|n] Hl Hp; simplify_eq/=; constructor; auto. done.
Qed.

Lemma ahead_app {A} (l k : list (list A)) : ahead l (l ++ k).
Proof. induction l; by constructor. Qed.

(** Nothing but the gains is new, and the gains are in order. *)
Lemma gained_perm {A} (l l' : list (list A)) : ahead l l' -> concat l' ≡ₚ concat l ++ concat (gained l l').
Proof.
  induction 1 as [l|x y l l' [z ->] H IH]; [done|]. cbn [gained concat]. rewrite drop_app_length, IH.
  solve_Permutation.
Qed.

Lemma gained_lookup {A} (l l' : list (list A)) n y :
  ahead l l' -> l' !! n = Some y ->
  exists k, y = default [] (l !! n) ++ k /\ k `sublist_of` concat (gained l l').
Proof.
  intros H. revert n. induction H as [l|x z l l' [k ->] H IH]; intros n Hn.
  - exists y. rewrite lookup_nil. split; [done|]. cbn [gained].
    assert (y ∈ l) as (a & b & ->)%list_elem_of_split by (by apply list_elem_of_lookup_2 in Hn).
    rewrite concat_app. cbn [concat]. apply sublist_inserts_l, sublist_inserts_r. done.
  - destruct n as [|n]; simplify_eq/=.
    + exists k. split; [done|]. rewrite drop_app_length. by apply sublist_inserts_r.
    + destruct (IH n Hn) as (k' & -> & Hk). exists k'. split; [done|]. by apply sublist_inserts_l.
Qed.

(** A service operation only adds to what the service has sent. *)
Definition grows {A} (m : io sworld A) : Prop := forall w, out w `prefix_of` out (m w).2.

Lemma grows_ret {A} (a : A) : grows (mret a).
Proof. intros w. done. Qed.

Lemma grows_fail {A} e : grows (fail e : io sworld A).
Proof. intros w. done. Qed.

Lemma grows_bind {A B} (m : io sworld A) (f : A -> io sworld B) : grows m -> (forall a, grows (f a)) -> grows (m ≫= f).
Proof.
  intros Hm Hf w. specialize (Hm w). unfold mbind, io_bind. destruct (m w) as [[a|e| |] w1]; try done.
  etrans; [exact Hm | apply Hf].
Qed.

Lemma grows_attempt {A} (m : io sworld A) : grows m -> grows (attempt m).
Proof. intros Hm w. specialize (Hm w). unfold attempt. by destruct (m w) as [[a|e| |] w1]. Qed.

Lemma grows_on_dev {A} (m : io conn A) : grows (on_dev m).
Proof. intros w. destruct (on_dev m w) as [r w'] eqn:E. by apply on_dev_inv in E as (c & _ & ->). Qed.

Lemma grows_send m : grows (send m).
Proof.
  apply grows_bind; [intros w; done|]. intros _ w. unfold sock_write.
  destruct (sock_ended w); [done|]. destruct (cli_ok w); [|done]. apply prefix_app_r. done.
Qed.

Lemma grows_sv f : grows (upd_sv f).
Proof. intros w. done. Qed.

Lemma grows_get : grows get_sv.
Proof. intros w. done. Qed.

#[local] Hint Resolve grows_ret grows_fail grows_bind grows_attempt grows_on_dev grows_send grows_sv grows_get : adb.

Lemma grows_End : grows Service_End.
Proof.
  apply grows_bind; [auto with adb|]. intros s. destruct (ended s); [auto with adb|].
  apply grows_bind; [destruct (transport s); auto with adb|]. intros _.
  apply grows_bind; [auto with adb|]. intros _. destruct (endCh_closed s); [intros w; done | auto with adb].
Qed.

Lemma grows_Handle p m : Handle p = Some m -> grows m.
Proof.
  unfold Handle. intros E. repeat case_match; simplify_eq; auto with adb.
  - apply grows_bind; [auto with adb|]. intros s. destruct (ended s); [auto with adb|]. destruct (negb _); auto with adb.
  - apply grows_bind; [auto with adb|]. intros s. destruct (ended s); [auto with adb|]. destruct (negb _); [auto with adb|].
    apply grows_bind; [unfold write_data; destruct (data_bytes _); auto with adb|]. intros _. auto with adb.
  - apply grows_bind; [auto with adb|]. intros s. destruct (negb _); [auto with adb | apply grows_End].
Qed.

(** Reading the growth off a computation that has been run. *)
Lemma grows_run {A} (m : io sworld A) w r w' : grows m -> m w = (r, w') -> out w `prefix_of` out w'.
Proof. intros Hm E. specialize (Hm w). by rewrite E in Hm. Qed.

Lemma opener_grows p dial o w o' w' : opener_step p dial o w = (o', w') -> out w `prefix_of` out w'.
Proof.
  intros E. destruct o; simpl in E; repeat case_match; simplify_eq/=; try done;
    try (by eapply (grows_run (on_dev _)); [apply grows_on_dev | eassumption]);
    try (by eapply grows_run; [apply grows_End | eassumption]).
  - apply (grows_on_dev Close w).
  - apply (grows_send _ w).
  - apply (grows_on_dev (ReadFull 4) w).
Qed.

Lemma forward_grows t f w f' w' : forward_step t f w = (f', w') -> out w `prefix_of` out w'.
Proof.
  intros E. destruct f; simpl in E; repeat case_match; simplify_eq/=; try done;
    try (by eapply (grows_run (on_dev _)); [apply grows_on_dev | eassumption]);
    try (by eapply (grows_run (attempt (send _))); [apply grows_attempt, grows_send | eassumption]);
    try (by eapply grows_run; [apply grows_End | eassumption]).
Qed.

(** A step of the connection only adds to what has been sent. *)
Definition sgrows (s s' : sys) : Prop := log s `prefix_of` log s' /\ ahead (outs s) (outs s').

#[global] Instance sgrows_preorder : PreOrder sgrows.
Proof. split; [by intros s | intros s1 s2 s3 [] []; split; by etrans]. Qed.

(** Replacing the state of one service by a later one. *)
Lemma sgrows_insert s n e e' k :
  svcs s !! n = Some e -> out (sw (e_cfg e)) `prefix_of` out (sw (e_cfg e')) ->
  svcs k = <[n := e']> (svcs s) -> log k = log s -> sgrows s k.
Proof.
  intros He Hp Hs Hl. split; [by rewrite Hl|]. unfold outs. rewrite Hs, list_fmap_insert.
  eapply ahead_insert; [by rewrite list_lookup_fmap, He | done].
Qed.

(** Changing the services without touching what they have sent. *)
Lemma sgrows_same s k : outs k = outs s -> log k = log s -> sgrows s k.
Proof. intros Ho Hl. split; [by rewrite Hl | by rewrite Ho]. Qed.

Lemma outs_sync f s :
  (forall c, out (sw (f c)) = out (sw c)) -> (fun e => out (sw (e_cfg e))) <$> (map_cfg f <$> svcs s) = outs s.
Proof. intros H. unfold outs. rewrite <- list_fmap_compose. apply list_fmap_ext. intros _ e _. apply H. Qed.

Lemma sgrows_remove lid s : sgrows s (Remove_service lid s).
Proof.
  unfold Remove_service. destruct (Remove lid _) as [[n|] m]; apply sgrows_same; try done. unfold outs. simpl.
  apply list_eq. intros i. rewrite !list_lookup_fmap. destruct (decide (i = n)) as [->|Hi].
  - rewrite list_lookup_alter_eq. by destruct (svcs s !! n).
  - by rewrite list_lookup_alter_ne.
Qed.

Lemma sgrows_open n s s' : sys_open n s = Some s' -> sgrows s s'.
Proof.
  unfold sys_open. intros E. apply bind_Some in E as (e0 & He0 & E).
  set (s0 := match op (e_cfg e0) with OFinish _ => _ | _ => s end) in E.
  assert (H0 : sgrows s s0) by (unfold s0; case_match; [done..|apply sgrows_remove|done|done|done]).
  etrans; [exact H0|]. apply bind_Some in E as (e & He & E).
  destruct (opener_step _ _ _ _) as [o' w'] eqn:Eo. simplify_eq.
  eapply sgrows_insert; [exact He | | reflexivity | done]. by eapply opener_grows.
Qed.

Lemma sgrows_forward n t s s' : sys_forward n t s = Some s' -> sgrows s s'.
Proof.
  unfold sys_forward. intros E. apply bind_Some in E as (e & He & E).
  destruct (forward_step _ _ _) as [f' w'] eqn:Ef. simplify_eq.
  eapply sgrows_insert; [exact He | | reflexivity | done]. by eapply forward_grows.
Qed.

Lemma sgrows_resync s : sgrows s (sync_services s).2.
Proof. apply sgrows_same; [|done]. unfold outs at 1. simpl. by rewrite outs_sync. Qed.

Lemma sgrows_end_flag s : sgrows s (End_flag s).
Proof.
  unfold End_flag. destruct (sk_ended _); [done|]. apply sgrows_same; [|done]. unfold outs at 1. simpl. by rewrite outs_sync.
Qed.

Lemma ahead_imap (f : nat -> entry -> entry) (l : list entry) :
  (forall n e, out (sw (e_cfg e)) `prefix_of` out (sw (e_cfg (f n e)))) ->
  ahead ((fun e => out (sw (e_cfg e))) <$> l) ((fun e => out (sw (e_cfg e))) <$> imap f l).
Proof. revert f. induction l as [|e l IH]; intros f Hf; simpl; constructor; [apply Hf | apply IH; intros; apply Hf]. Qed.

Lemma sgrows_end_services s : sgrows s (End_services s).
Proof.
  unfold End_services. destruct (EndAll (services (sk s))) as [ptrs m]. etrans; [|apply sgrows_resync]. split; [done|].
  apply ahead_imap. intros n e. case_bool_decide; [|done]. apply (grows_End (sw (e_cfg e))).
Qed.

Section handling.
Context (authHandler : bytes -> option goerror).

(** Operations of the socket. *)
Definition sys_grows {A} (m : io sys A) : Prop := forall s, sgrows s (m s).2.

Lemma sys_grows_bind {A B} (m : io sys A) (f : A -> io sys B) :
  sys_grows m -> (forall a, sys_grows (f a)) -> sys_grows (m ≫= f).
Proof.
  intros Hm Hf s. specialize (Hm s). unfold mbind, io_bind. destruct (m s) as [[a|e| |] s1]; try done.
  etrans; [exact Hm | apply Hf].
Qed.

Lemma sys_grows_fail {A} e : sys_grows (fail e : io sys A).
Proof. intros s. done. Qed.

Lemma sys_grows_get : sys_grows get_sk.
Proof. intros s. done. Qed.

Lemma sys_grows_upd f : sys_grows (upd_sk f).
Proof. intros s. by apply sgrows_same. Qed.

Lemma sys_grows_send m : sys_grows (Socket_send m).
Proof.
  intros s. unfold Socket_send, mbind, io_bind, of_outcome. destruct (assemble_out m); [|done..].
  unfold Socket_write. destruct (sk_ended _); [done|]. destruct (cli s); [|done].
  split; [by apply prefix_app_r | done].
Qed.

Lemma sys_grows_spawn p dial lid rid : sys_grows (spawn p dial lid rid).
Proof. intros s. split; [done|]. unfold outs. simpl. rewrite fmap_app. apply ahead_app. Qed.

Lemma sys_grows_forward p : sys_grows (forwardServicePacket p).
Proof.
  intros s. unfold forwardServicePacket. destruct (negb _); [done|]. destruct (Get _ _) as [n|]; [|done].
  destruct (svcs s !! n) as [e|] eqn:He; [|done]. destruct (Handle p) as [m|] eqn:Em; [|done].
  destruct (m (sw (e_cfg e))) as [r w'] eqn:Ew.
  eapply sgrows_insert; [exact He | | reflexivity | done]. by eapply grows_run; [eapply grows_Handle|].
Qed.

#[local] Hint Resolve sys_grows_bind sys_grows_fail sys_grows_get sys_grows_upd sys_grows_send sys_grows_spawn
  sys_grows_forward : adb.

Lemma sys_grows_handle i p : sys_grows (handle authHandler i p).
Proof.
  unfold handle. repeat (case_match; [|]); auto with adb.
  - apply sys_grows_bind; [auto with adb|]. intros k. destruct (Next (syncToken k)). auto with adb.
  - apply sys_grows_bind; [auto with adb|]. intros _. apply sys_grows_bind; [intros s; apply sgrows_resync|].
    intros _. destruct (in_token i); auto with adb.
  - apply sys_grows_bind; [auto with adb|]. intros k. destruct (negb _); [auto with adb|]. destruct (Next _) as [lid c].
    apply sys_grows_bind; [auto with adb|]. intros _. destruct (_ <? 2); [auto with adb|].
    apply sys_grows_bind; [intros s; done|]. intros n. destruct (Insert lid n (services k)) as [[u|e| |] m]; auto with adb; by intros s.
  - unfold handleAuthPacket. destruct (_ =? AUTH_SIGNATURE).
    { apply sys_grows_bind; [auto with adb|]. intros k. auto with adb. }
    destruct (_ =? AUTH_RSAPUBLICKEY); [|auto with adb]. apply sys_grows_bind; [auto with adb|]. intros k.
    destruct (signature k); [|auto with adb]. destruct (_ <? 2); [auto with adb|]. destruct (authHandler _); [auto with adb|].
    apply sys_grows_bind; [auto with adb|]. intros _. apply sys_grows_bind; auto with adb.
Qed.

Lemma kexec_grows a s s' : kexec authHandler a s = Some s' -> sgrows s s'.
Proof.
  destruct a as [p| |i| | |n|n t|]; simpl; intros E.
  - destruct (reader s); try done. case_bool_decide; [|done]. simplify_eq. destruct (sk_ended _); by apply sgrows_same.
  - destruct (reader s); simplify_eq. by apply sgrows_same.
  - destruct (reader s) as [|p|]; try done. case_bool_decide; [|done]. simpl in E.
    pose proof (sys_grows_handle i p s) as Hg. destruct (handle authHandler i p s) as [[u|e| |] s1]; simplify_eq;
      (etrans; [exact Hg | by apply sgrows_same]).
  - simplify_eq. apply sgrows_end_flag.
  - destruct (closing s); simplify_eq. apply sgrows_end_services.
  - by eapply sgrows_open.
  - by eapply sgrows_forward.
  - simplify_eq. apply (sgrows_resync (mkSys (sk s) false (log s) (svcs s) (reader s) (closing s) (handled s))).
Qed.
End handling.

(** ** Every packet is well formed *)

Lemma command_u32 :
  is_u32 A_OKAY /\ is_u32 A_WRTE /\ is_u32 A_CLSE /\ is_u32 A_SYNC /\ is_u32 A_CNXN /\ is_u32 A_AUTH.
Proof. split_and!; by vm_compute. Qed.

Lemma service_packet_wf lid rid m : 1 <= lid < 2 ^ 32 -> is_u32 rid -> service_packet lid rid m -> out_wf m.
Proof.
  intros Hl Hr Hm. unfold out_wf. assert (is_u32 lid) by (unfold is_u32; lia).
  destruct command_u32 as (? & ? & ? & _).
  destruct Hm as [->|[(ch & -> & _ & Hc)|[->| ->]]]; cbn [o_command o_arg0 o_arg1 o_data data_bytes];
    split_and!; try assumption; unfold zlen, is_u32 in *; simpl length; lia.
Qed.

Lemma outs_wf s : sys_inv s -> Forall (Forall out_wf) (outs s).
Proof.
  intros H. apply Forall_fmap. eapply Forall_impl; [apply H|]. intros e He. simpl. pose proof He as (_ & Hr & _).
  apply entry_inv in He as (lid & Hl & Hi). eapply Forall_impl; [apply Hi|]. intros m. by apply service_packet_wf.
Qed.

Lemma Socket_send_wf m s : out_wf m -> Forall out_wf (log s) -> Forall out_wf (log (Socket_send m s).2).
Proof.
  intros Hm Hs. unfold Socket_send, mbind, io_bind, of_outcome. destruct (assemble_out m); [|done..].
  unfold Socket_write. destruct (sk_ended _); [done|]. destruct (cli s); [|done]. by apply Forall_app_2; [|constructor].
Qed.

Lemma token_wf t : token_ok t -> out_wf (mkOut A_AUTH AUTH_TOKEN 0 t).
Proof.
  intros Ht. destruct command_u32 as (_ & _ & _ & _ & _ & ?). split_and!; [done | by vm_compute | by vm_compute |].
  destruct t as [t|]; [|by vm_compute]. change (24 + zlen t < 2 ^ 32). unfold zlen. rewrite Ht. by vm_compute.
Qed.

Section wf.
Context (authHandler : bytes -> option goerror).

Lemma handle_log_wf i p s :
  sys_inv s -> inputs_wf i -> serial_short i -> Forall out_wf (log s) ->
  Forall out_wf (log (handle authHandler i p s).2).
Proof.
  intros H Hin Hser Hs. unfold handle.
  destruct (Command p =? A_SYNC).
  { unfold handleSyncPacket. erewrite io_bind_Ok by done. destruct (Next (syncToken (sk s))) as [t c] eqn:En.
    erewrite io_bind_Ok by done. apply Socket_send_wf; [|done].
    pose proof (Next_range _ (si_sync s H)) as Ht. rewrite En in Ht. cbn [fst] in Ht.
    destruct command_u32 as (_ & _ & _ & ? & _). split_and!; cbn [o_command o_arg0 o_arg1 o_data]; [done | by vm_compute | |by vm_compute].
    unfold is_u32. lia. }
  destruct (Command p =? A_CNXN).
  { unfold handleConnectionPacket. erewrite io_bind_Ok by done. erewrite io_bind_Ok by done.
    unfold inputs_wf in Hin. destruct (in_token i) as [t|]; [|done].
    erewrite io_bind_Ok by done. apply Socket_send_wf; [by apply token_wf | done]. }
  destruct (Command p =? A_OPEN).
  { unfold Socket_handleOpenPacket. erewrite io_bind_Ok by done. destruct (negb _); [done|].
    destruct (Next _). erewrite io_bind_Ok by done. destruct (_ <? 2); [done|].
    erewrite io_bind_Ok by done. unfold Insert. by destruct (_ !! _). }
  destruct (_ || _).
  { unfold forwardServicePacket. destruct (negb _); [done|]. repeat case_match; done. }
  destruct (Command p =? A_AUTH); [|done]. unfold handleAuthPacket.
  destruct (Arg0 p =? AUTH_SIGNATURE).
  { erewrite io_bind_Ok by done. erewrite io_bind_Ok by done. apply Socket_send_wf; [|done].
    apply token_wf, (si_token s H). }
  destruct (Arg0 p =? AUTH_RSAPUBLICKEY); [|done]. erewrite io_bind_Ok by done.
  destruct (signature (sk s)); [|done]. destruct (zlen _ <? 2); [done|].
  destruct (authHandler _); [done|]. erewrite io_bind_Ok by done. unfold sendCNXN.
  erewrite io_bind_Ok by done. apply Socket_send_wf; [|done].
  pose proof (getDeviceID_short i Hser). pose proof (si_max s H). destruct command_u32 as (_ & _ & _ & _ & ? & _).
  split_and!; cbn [o_command o_arg0 o_arg1 o_data data_bytes sk set_authorized version maxPayload]; [done | | |].
  - rewrite (si_version s H). by vm_compute.
  - unfold is_u32. lia.
  - change (24 + zlen (getDeviceID i) < 2 ^ 32). lia.
Qed.
End wf.

(** ** The stream *)

Section theorem.
Context (authHandler : bytes -> option goerror).

Lemma wtrace_reach w s : wtrace authHandler w s -> kreach authHandler s.
Proof. induction 1; [constructor | by eapply kreach_step]. Qed.

Lemma kexec_log_wf a s s' :
  sys_inv s -> act_ok a -> kexec authHandler a s = Some s' -> Forall out_wf (log s) -> Forall out_wf (log s').
Proof.
  intros Hi Ha E Hs. destruct a as [p| |i| | |n|n t|]; simpl in E.
  - destruct (reader s); try done. case_bool_decide; [|done]. simplify_eq. by destruct (sk_ended _).
  - by destruct (reader s); simplify_eq.
  - destruct (reader s) as [|p|]; try done. case_bool_decide as Hin; [|done]. simpl in E.
    pose proof (handle_log_wf authHandler i p s Hi Hin Ha Hs) as Hg.
    by destruct (handle authHandler i p s) as [[u|e| |] s1]; simplify_eq.
  - simplify_eq. unfold End_flag. by destruct (sk_ended _).
  - destruct (closing s); simplify_eq. unfold End_services. by destruct (EndAll _).
  - unfold sys_open in E. apply bind_Some in E as (e0 & _ & E). apply bind_Some in E as (e & _ & E).
    destruct (opener_step _ _ _ _). simplify_eq. simpl. unfold Remove_service.
    case_match; [done..| |done|done|done]. by destruct (Remove _ _).
  - unfold sys_forward in E. apply bind_Some in E as (e & _ & E). destruct (forward_step _ _ _). by simplify_eq.
  - by simplify_eq.
Qed.

Lemma wtrace_log_wf w s : wtrace authHandler w s -> Forall out_wf (log s).
Proof.
  induction 1 as [|a w s s' Hw IH Ha E]; [constructor|].
  eapply kexec_log_wf; [|exact Ha|exact E|exact IH]. eapply sys_inv_reach, wtrace_reach, Hw.
Qed.

Lemma wtrace_perm w s : wtrace authHandler w s -> w ≡ₚ log s ++ concat (outs s).
Proof.
  induction 1 as [|a w s s' Hw IH Ha E]; [done|]. apply kexec_grows in E as [[k Hk] Hg].
  unfold new_packets. rewrite Hk, drop_app_length, IH, (gained_perm _ _ Hg). solve_Permutation.
Qed.

Lemma wtrace_order w s :
  wtrace authHandler w s -> log s `sublist_of` w /\ forall n l, outs s !! n = Some l -> l `sublist_of` w.
Proof.
  induction 1 as [|a w s s' Hw [IH1 IH2] Ha E]; [split; [done | by intros []]|].
  apply kexec_grows in E as [[k Hk] Hg]. unfold new_packets. rewrite Hk, drop_app_length. split.
  - apply sublist_app; [done|]. by apply sublist_inserts_r.
  - intros n l Hl. destruct (gained_lookup _ _ _ _ Hg Hl) as (k' & -> & Hk').
    apply sublist_app; [|by apply sublist_inserts_l]. destruct (outs s !! n) as [l0|] eqn:E0; [by eapply IH2 | apply sublist_nil_l].
Qed.

(** C12. The client's stream is well typed.  In every interleaving of the reader, the
    services and [End], the packets written to the client connection - the
    socket's own and those of every service, in the order of writing - all have
    [uint32] fields and an encodable size, so their encoding never fails; a
    packet reader on the other side, whatever the fragmentation, gets exactly
    these packets in this order.  The stream holds each packet of the socket and
    of each service once, in the order its sender sent it. *)
Theorem client_stream_typed w s :
  wtrace authHandler w s ->
  Forall out_wf w /\
  (exists bs, wire w = Ok bs /\
     forall tl pr rest, reader_feeds tl pr (bs ++ rest) ->
       exists pr', read_packets (length w) pr = (Ok (sent_out <$> w), pr') /\ reader_feeds tl pr' rest) /\
  w ≡ₚ log s ++ concat (outs s) /\
  log s `sublist_of` w /\ (forall n l, outs s !! n = Some l -> l `sublist_of` w).
Proof.
  intros H. assert (Hwf : Forall out_wf w).
  { rewrite (wtrace_perm w s H). apply Forall_app. split; [by eapply wtrace_log_wf|].
    apply Forall_concat. eapply outs_wf, sys_inv_reach, wtrace_reach, H. }
  destruct (wtrace_order w s H) as [H1 H2]. split_and!; [done | | by apply wtrace_perm | done..].
  destruct (wire_ok w Hwf) as (bs & E). exists bs. split; [done|]. intros tl pr rest. by apply reader_reads_wire.
Qed.
End theorem.

(** ** Instances *)

(** Run actions and record what is written. *)
Fixpoint record (authHandler : bytes -> option goerror) (acts : list act) (w : list OutPacket) (s : sys)
  : option (list OutPacket * sys) :=
  match acts with
  | [] => Some (w, s)
  | a :: r => s' ← kexec authHandler a s; record authHandler r (w ++ new_packets s s') s'
  end.

Lemma record_trace authHandler acts w s :
  Forall act_ok acts -> record authHandler acts [] init_sys = Some (w, s) -> wtrace authHandler w s.
Proof.
  intros Ha. assert (H : forall w0 s0, wtrace authHandler w0 s0 -> record authHandler acts w0 s0 = Some (w, s) ->
    wtrace authHandler w s).
  { induction Ha as [|a acts Ha Hacts IH]; intros w0 s0 Hw E; simpl in E; [by simplify_eq|].
    apply bind_Some in E as (s1 & E1 & E2). eapply IH; [|done]. by eapply wtrace_step. }
  apply H. constructor.
Qed.

Definition ex_wire : list OutPacket * sys := default ([], init_sys) (record accept_all ex_session [] init_sys).

Lemma client_stream_typed_witness :
  (length ex_wire.1 = 6)%nat /\ Forall out_wf ex_wire.1 /\ exists bs, wire ex_wire.1 = Ok bs.
Proof.
  split; [vm_compute; reflexivity|].
  destruct (client_stream_typed accept_all ex_wire.1 ex_wire.2) as (H & (bs & E & _) & _).
  - apply (record_trace accept_all ex_session).
    + repeat constructor.
    + vm_compute. reflexivity.
  - split; [exact H|]. exists bs. exact E.
Defined.
