(* ===== verification/Server.v ===== *)
(** * The listening server: tcpusb/server.go

    [Listen] accepts connections and starts one goroutine per socket; [Close]
    runs concurrently with it.  The server's mutex protects [listener],
    [connections] and [closed]; each critical section is one step.  The sockets
    themselves are the state machines of Socket.v, identified by the order in
    which they were accepted. *)

From stdpp Require Import base list numbers.
From Stdlib Require Import ZArith Lia.
From S2P Require Import Prelude GoNet Packet ServiceMap Service Socket.

(** ** State *)

Record Server := mkServer {
  listener : bool;             (* srv.listener != nil *)
  connections : list nat;
  srv_closed : bool
}.

Definition NewServer : Server := mkServer false [] false.

(** The goroutine of an accepted connection. *)
Inductive conn_pc :=
  | GNew                       (* accepted, not yet in srv.connections *)
  | GAppended                  (* in srv.connections, goroutine not yet started *)
  | GRun                       (* in socket.Start() *)
  | GEnding                    (* Start's deferred End, past its critical section *)
  | GCleanup                   (* before the deferred removal *)
  | GDone.

Record gsock := mkG { g_pc : conn_pc; g_sys : sys }.

(** The goroutine that runs [Listen]. *)
Inductive listen_pc :=
  | LBind                      (* net.Listen *)
  | LStore                     (* srv.listener = listener *)
  | LAccept
  | LCheck                     (* Accept failed: is the server closed? *)
  | LAppend (n : nat)          (* srv.connections = append(...) *)
  | LGo (n : nat)              (* go func() *)
  | LReturned (r : outcome unit).

(** The call of [Close] that found the server open; any other returns at once. *)
Inductive close_pc :=
  | CInit                                                (* no call yet *)
  | CEnd (todo : list nat) (had : bool)                  (* conn.End() for each *)
  | CEnding (n : nat) (todo : list nat) (had : bool)     (* inside End of n *)
  | CListener (had : bool)                               (* listener.Close() *)
  | CDone (had : bool).

Record vcfg := mkV {
  srv : Server;
  lopen : bool;                (* the listening socket accepts connections *)
  lpc : listen_pc;
  cpc : close_pc;
  socks : list gsock
}.

Definition init_server : vcfg := mkV NewServer false LBind CInit [].

(** [Addr]: whether there is an address to return. *)
Definition Addr (s : Server) : bool := listener s.

(** [for i, s := range connections { if s == socket { remove i; break } }] *)
Fixpoint remove_conn (n : nat) (l : list nat) : list nat :=
  match l with
  | [] => []
  | m :: r => if decide (m = n) then r else m :: remove_conn n r
  end.

Section server.
Context (authHandler : bytes -> option goerror).

(** What can happen next. *)
Inductive vact :=
  | VListen (ok : bool)                  (* the outcome of net.Listen *)
  | VStore
  | VAccept                              (* a client connects *)
  | VAcceptErr                           (* Accept fails *)
  | VCheck
  | VAppend
  | VGo
  | VSock (n : nat) (a : act)            (* the reader, services or client of socket n *)
  | VStop (n : nat)                      (* Start of socket n returns: deferred End *)
  | VStopServices (n : nat)
  | VCleanup (n : nat)
  | VClose                               (* the critical section of some Close call *)
  | VCloseNext                           (* the Close that found the server open goes on *)
  .

Definition set_sock (n : nat) (g : gsock) (v : vcfg) : vcfg :=
  mkV (srv v) (lopen v) (lpc v) (cpc v) (<[n := g]> (socks v)).

Definition with_lpc (v : vcfg) (l : listen_pc) : vcfg := mkV (srv v) (lopen v) l (cpc v) (socks v).

(** Actions of the socket's own threads, as against calls of its [End]. *)
Definition own_act (pc : conn_pc) (a : act) : bool :=
  match a with
  | KReceive _ | KReadError | KHandle _ => match pc with GRun => true | _ => false end
  | KEnd | KEndServices => false
  | KOpen _ | KForward _ _ | KClientFail => true
  end.

Definition vexec (a : vact) (v : vcfg) : option vcfg :=
  match a with
  | VListen ok =>
      match lpc v with
      | LBind => Some (if ok then mkV (srv v) true LStore (cpc v) (socks v)
                       else with_lpc v (LReturned (Err (NetError (str "listen")))))
      | _ => None
      end
  | VStore =>
      match lpc v with
      | LStore => Some (mkV (mkServer true (connections (srv v)) (srv_closed (srv v)))
                          (lopen v) LAccept (cpc v) (socks v))
      | _ => None
      end
  | VAccept =>
      match lpc v, lopen v with
      | LAccept, true => Some (mkV (srv v) true (LAppend (length (socks v))) (cpc v)
                                 (socks v ++ [mkG GNew init_sys]))
      | _, _ => None
      end
  | VAcceptErr => match lpc v with LAccept => Some (with_lpc v LCheck) | _ => None end
  | VCheck =>
      match lpc v with
      | LCheck => Some (with_lpc v (if srv_closed (srv v) then LReturned (Ok tt) else LAccept))
      | _ => None
      end
  | VAppend =>
      match lpc v with
      | LAppend n =>
          g ← socks v !! n;
          Some (mkV (mkServer (listener (srv v)) (connections (srv v) ++ [n]) (srv_closed (srv v)))
                  (lopen v) (LGo n) (cpc v) (<[n := mkG GAppended (g_sys g)]> (socks v)))
      | _ => None
      end
  | VGo =>
      match lpc v with
      | LGo n => g ← socks v !! n;
                 Some (set_sock n (mkG GRun (g_sys g)) (with_lpc v LAccept))
      | _ => None
      end
  | VSock n k =>
      g ← socks v !! n;
      if own_act (g_pc g) k then
        s' ← kexec authHandler k (g_sys g); Some (set_sock n (mkG (g_pc g) s') v)
      else None
  | VStop n =>
      g ← socks v !! n;
      match g_pc g, reader (g_sys g) with
      | GRun, RStopped =>
          Some (set_sock n (mkG (if sk_ended (sk (g_sys g)) then GCleanup else GEnding)
                                (End_flag (g_sys g))) v)
      | _, _ => None
      end
  | VStopServices n =>
      g ← socks v !! n;
      match g_pc g with
      | GEnding => s' ← kexec authHandler KEndServices (g_sys g);
                   Some (set_sock n (mkG GCleanup s') v)
      | _ => None
      end
  | VCleanup n =>
      g ← socks v !! n;
      match g_pc g with
      | GCleanup =>
          Some (mkV (if srv_closed (srv v) then srv v
                     else mkServer (listener (srv v)) (remove_conn n (connections (srv v))) false)
                  (lopen v) (lpc v) (cpc v) (<[n := mkG GDone (g_sys g)]> (socks v)))
      | _ => None
      end
  | VClose =>
      if srv_closed (srv v) then Some v
      else Some (mkV (mkServer (listener (srv v)) [] true) (lopen v) (lpc v)
                   (CEnd (connections (srv v)) (listener (srv v))) (socks v))
  | VCloseNext =>
      match cpc v with
      | CEnd [] had => Some (mkV (srv v) (lopen v) (lpc v) (CListener had) (socks v))
      | CEnd (n :: todo) had =>
          g ← socks v !! n;
          Some (mkV (srv v) (lopen v) (lpc v)
                  (if sk_ended (sk (g_sys g)) then CEnd todo had else CEnding n todo had)
                  (<[n := mkG (g_pc g) (End_flag (g_sys g))]> (socks v)))
      | CEnding n todo had =>
          g ← socks v !! n;
          s' ← kexec authHandler KEndServices (g_sys g);
          Some (mkV (srv v) (lopen v) (lpc v) (CEnd todo had) (<[n := mkG (g_pc g) s']> (socks v)))
      | CListener had =>
          Some (mkV (srv v) (if had then false else lopen v) (lpc v) (CDone had) (socks v))
      | _ => None
      end
  end.

Inductive vreach : vcfg -> Prop :=
  | vreach_init : vreach init_server
  | vreach_step a v v' : vreach v -> vexec a v = Some v' -> vreach v'.

Fixpoint vexec_all (acts : list vact) (v : vcfg) : option vcfg :=
  match acts with [] => Some v | a :: r => v' ← vexec a v; vexec_all r v' end.

Lemma vexec_all_reach acts v : vexec_all acts init_server = Some v -> vreach v.
Proof.
  assert (H : forall v0, vreach v0 -> vexec_all acts v0 = Some v -> vreach v).
  { induction acts as [|a acts IH]; intros v0 Hr E; simpl in E; [by simplify_eq|].
    apply bind_Some in E as (v1 & E1 & E2). eapply IH; [|done]. by eapply vreach_step. }
  apply H. constructor.
Qed.

(** ** Invariant *)

Definition pending (c : close_pc) : list nat :=
  match c with CEnd todo _ | CEnding _ todo _ => todo | _ => [] end.

(** The goroutine is between the append and its own removal. *)
Definition listed (pc : conn_pc) : bool :=
  match pc with GNew | GDone => false | _ => true end.

Definition stopping (pc : conn_pc) : bool :=
  match pc with GEnding | GCleanup | GDone => true | _ => false end.

(** What holds of the [n]-th socket. *)
Record sock_ok (sv : Server) (c : close_pc) (n : nat) (g : gsock) : Prop := {
  so_reach : kreach authHandler (g_sys g);
  so_ended : stopping (g_pc g) = true -> sk_ended (sk (g_sys g)) = true;
  so_cover : g_pc g = GNew \/ n ∈ connections sv \/ n ∈ pending c \/ sk_ended (sk (g_sys g)) = true;
  so_list : srv_closed sv = false -> n ∈ connections sv <-> listed (g_pc g) = true;
  so_closing : g_pc g = GEnding -> closing (g_sys g) = true;
  so_closer : forall todo had, c = CEnding n todo had ->
    closing (g_sys g) = true /\ g_pc g <> GEnding /\ sk_ended (sk (g_sys g)) = true
}.

Definition had_listener (c : close_pc) : bool :=
  match c with CInit => false | CEnd _ h | CEnding _ _ h | CListener h | CDone h => h end.

Definition at_pc (v : vcfg) (n : nat) (pc : conn_pc) : Prop :=
  exists g, socks v !! n = Some g /\ g_pc g = pc.

Record vinv (v : vcfg) : Prop := {
  vi_sock : forall n g, socks v !! n = Some g -> sock_ok (srv v) (cpc v) n g;
  vi_nodup : NoDup (connections (srv v));
  vi_conn : forall n, n ∈ connections (srv v) \/ n ∈ pending (cpc v) \/
      (exists todo had, cpc v = CEnding n todo had) ->
    exists g, socks v !! n = Some g /\ g_pc g <> GNew;
  vi_append : forall n, lpc v = LAppend n -> at_pc v n GNew;
  vi_go : forall n, lpc v = LGo n -> at_pc v n GAppended;
  vi_closed : srv_closed (srv v) = false <-> cpc v = CInit;
  vi_bound : listener (srv v) = true -> lpc v <> LBind /\ lpc v <> LStore;
  vi_had : had_listener (cpc v) = true -> listener (srv v) = true;
  vi_lopen : cpc v = CDone true -> lopen v = false
}.

(** Replacing the state of one socket. *)
Lemma vinv_set v n g g' :
  vinv v -> socks v !! n = Some g -> (g_pc g' = GNew <-> g_pc g = GNew) ->
  sock_ok (srv v) (cpc v) n g' ->
  (lpc v = LGo n -> g_pc g' = GAppended) ->
  vinv (set_sock n g' v).
Proof.
  intros [] Hn Hnew Hok Hgo. pose proof (lookup_lt_Some _ _ _ Hn) as Hlt.
  assert (Hat : forall m pc, (m = n -> g_pc g' = pc) -> at_pc v m pc -> at_pc (set_sock n g' v) m pc).
  { intros m pc Hm (x & Hx & Hpc). unfold at_pc. simpl. destruct (decide (m = n)) as [->|].
    - rewrite list_lookup_insert_eq by done. eauto.
    - rewrite list_lookup_insert_ne by done. eauto. }
  constructor; simpl; auto.
  - intros m x Hx. destruct (decide (m = n)) as [->|].
    + rewrite list_lookup_insert_eq in Hx by done. by simplify_eq.
    + rewrite list_lookup_insert_ne in Hx by done. auto.
  - intros m Hm. destruct (vi_conn0 m Hm) as (x & Hx & Hxn). destruct (decide (m = n)) as [->|].
    + rewrite list_lookup_insert_eq by done. exists g'. split; [done|]. simplify_eq. by rewrite Hnew.
    + rewrite list_lookup_insert_ne by done. eauto.
  - intros m Hm. destruct (vi_append0 m Hm) as (x & Hx & Hpc). apply Hat; [|by exists x].
    intros ->. simplify_eq. by apply Hnew.
  - intros m Hm. apply Hat; [|by apply vi_go0]. intros ->. auto.
Qed.

(** A socket moves on by itself. *)
Lemma vinv_own v n g k s' :
  vinv v -> socks v !! n = Some g -> own_act (g_pc g) k = true ->
  kexec authHandler k (g_sys g) = Some s' -> vinv (set_sock n (mkG (g_pc g) s') v).
Proof.
  intros H Hn Hk E. destruct (kexec_flags authHandler k (g_sys g) s') as [He Hc]; [by intros ->..|done|].
  pose proof (vi_sock v H n g Hn) as []. eapply vinv_set; [done | done | done | |].
  - constructor; simpl; rewrite ?He, ?Hc; auto. by eapply kreach_step.
  - intros Hl. destruct (vi_go v H n Hl) as (x & Hx & ?). by simplify_eq.
Qed.

Lemma End_flag_reach s : kreach authHandler s -> kreach authHandler (End_flag s).
Proof. intros H. by eapply (kreach_step _ KEnd). Qed.

Lemma remove_conn_elem n m l : m <> n -> m ∈ remove_conn n l <-> m ∈ l.
Proof.
  intros Hne. induction l as [|x l IH]; [done|]. simpl. rewrite elem_of_cons.
  destruct (decide (x = n)) as [->|]; [|rewrite elem_of_cons, IH; done]. naive_solver.
Qed.

Lemma remove_conn_sub n m l : m ∈ remove_conn n l -> m ∈ l.
Proof.
  induction l as [|x l IH]; [done|]. simpl. rewrite elem_of_cons.
  destruct (decide (x = n)); [auto|]. rewrite elem_of_cons. naive_solver.
Qed.

Lemma remove_conn_nodup n l : NoDup l -> NoDup (remove_conn n l) /\ n ∉ remove_conn n l.
Proof.
  induction l as [|x l IH]; simpl; [by split; [|apply not_elem_of_nil]|].
  intros [Hx Hl]%NoDup_cons. destruct (IH Hl) as [H1 H2].
  destruct (decide (x = n)) as [->|]; [done|]. split.
  - apply NoDup_cons. split; [|done]. by intros ?%remove_conn_sub.
  - rewrite elem_of_cons. intros [->|?]; done.
Qed.

(** ** The invariant is preserved *)

Lemma vinv_init : vinv init_server.
Proof.
  constructor; simpl; try done.
  - constructor.
  - intros n [Hn|[Hn|(? & ? & ?)]]; [by apply not_elem_of_nil in Hn.. | done].
Qed.

Lemma at_pc_grow v n pc x : at_pc v n pc -> exists g, (socks v ++ [x]) !! n = Some g /\ g_pc g = pc.
Proof. intros (g & Hg & ?). exists g. split; [|done]. by apply lookup_app_l_Some. Qed.

Lemma vinv_accept v :
  vinv v -> lpc v = LAccept -> lopen v = true ->
  vinv (mkV (srv v) true (LAppend (length (socks v))) (cpc v) (socks v ++ [mkG GNew init_sys])).
Proof.
  intros [] Hl Ho. constructor; simpl; auto.
  - intros n g Hg. apply lookup_app_Some in Hg as [Hg|[Hlen Hg]]; [auto|].
    apply list_lookup_singleton_Some in Hg as [Hz <-].
    assert (Hnone : socks v !! n = None) by (apply lookup_ge_None; lia).
    constructor; simpl; try done; [constructor | by left | |].
    + intros _. split; [|done]. intros Hin. destruct (vi_conn0 n) as (x & Hx & _); [by left|congruence].
    + intros todo had Hc. destruct (vi_conn0 n) as (x & Hx & _); [by eauto|congruence].
  - intros n Hn. destruct (vi_conn0 n Hn) as (g & Hg & ?). exists g. split; [|done].
    by apply lookup_app_l_Some.
  - intros n [= <-]. exists (mkG GNew init_sys). split; [|done]. simpl. by rewrite list_lookup_middle.
  - done.
  - intros Hd. specialize (vi_lopen0 Hd). congruence.
Qed.

(** Changes of the [Listen] goroutine's position alone. *)
Lemma vinv_lpc v l :
  vinv v -> (forall n, l <> LAppend n) -> (forall n, l <> LGo n) -> l <> LBind -> l <> LStore ->
  vinv (with_lpc v l).
Proof. intros [] ? ? ? ?. constructor; simpl; auto; naive_solver. Qed.

Lemma vinv_append v n g :
  vinv v -> lpc v = LAppend n -> socks v !! n = Some g ->
  vinv (mkV (mkServer (listener (srv v)) (connections (srv v) ++ [n]) (srv_closed (srv v)))
          (lopen v) (LGo n) (cpc v) (<[n := mkG GAppended (g_sys g)]> (socks v))).
Proof.
  intros H Hl Hn. pose proof (lookup_lt_Some _ _ _ Hn) as Hlt.
  destruct (vi_append v H n Hl) as (g' & Hg' & Hpc). simplify_eq.
  destruct H. pose proof (vi_sock0 n g Hn) as [].
  assert (Hnot : n ∉ connections (srv v))
    by (intros Hin; destruct (vi_conn0 n) as (x & Hx & ?); [by left | by simplify_eq]).
  constructor; simpl; auto; try done.
  - intros m x Hx. destruct (decide (m = n)) as [->|Hne].
    + rewrite list_lookup_insert_eq in Hx by done. simplify_eq. constructor; simpl; try done.
      * right. left. set_solver.
      * intros _. split; [done|]. set_solver.
      * intros todo had Hc. destruct (so_closer0 todo had Hc) as (? & ? & ?). done.
    + rewrite list_lookup_insert_ne in Hx by done. destruct (vi_sock0 m x Hx) as [].
      constructor; simpl; auto.
      * rewrite elem_of_app. tauto.
      * intros Hc. rewrite elem_of_app, list_elem_of_singleton, so_list1 by done. naive_solver.
  - apply NoDup_app. split_and!; [done | | apply NoDup_singleton].
    intros m Hm ->%list_elem_of_singleton. done.
  - intros m Hm. destruct (decide (m = n)) as [->|Hne].
    + rewrite list_lookup_insert_eq by done. eexists. by split.
    + rewrite list_lookup_insert_ne by done. apply vi_conn0. set_solver.
  - intros m [= <-]. unfold at_pc. simpl. rewrite list_lookup_insert_eq by done. by eexists.
Qed.

Lemma vinv_go v n g :
  vinv v -> lpc v = LGo n -> socks v !! n = Some g ->
  vinv (set_sock n (mkG GRun (g_sys g)) (with_lpc v LAccept)).
Proof.
  intros H Hl Hn. destruct (vi_go v H n Hl) as (g' & Hg' & Hpc). simplify_eq.
  pose proof (vi_sock v H n g Hn) as [].
  apply (vinv_set (with_lpc v LAccept) n g); [by apply vinv_lpc | done | simpl; by rewrite Hpc | | done].
  rewrite Hpc in *. constructor; simpl; try done; naive_solver.
Qed.

Lemma vinv_stop v n g :
  vinv v -> socks v !! n = Some g -> g_pc g = GRun ->
  vinv (set_sock n (mkG (if sk_ended (sk (g_sys g)) then GCleanup else GEnding)
                        (End_flag (g_sys g))) v).
Proof.
  intros H Hn Hpc. pose proof (vi_sock v H n g Hn) as [].
  eapply vinv_set; [done | done | simpl; rewrite Hpc; by case_match | | ].
  - rewrite Hpc in *. constructor; simpl; rewrite ?End_flag_ended, ?End_flag_closing; auto.
    + by apply End_flag_reach.
    + intros Hc. rewrite so_list0 by done. by case_match.
    + by case_match.
    + intros todo had Hc. destruct (so_closer0 _ _ Hc) as (? & _ & ->). done.
  - intros Hl. destruct (vi_go v H n Hl) as (x & Hx & Hp). simplify_eq. congruence.
Qed.

Lemma vinv_stop_services v n g s' :
  vinv v -> socks v !! n = Some g -> g_pc g = GEnding ->
  kexec authHandler KEndServices (g_sys g) = Some s' ->
  vinv (set_sock n (mkG GCleanup s') v).
Proof.
  intros H Hn Hpc E. pose proof (vi_sock v H n g Hn) as [].
  assert (Hr : kreach authHandler s') by (by eapply kreach_step).
  assert (He : sk_ended (sk s') = true).
  { simpl in E. destruct (closing (g_sys g)); simplify_eq. rewrite End_services_ended.
    apply so_ended0. by rewrite Hpc. }
  eapply vinv_set; [done | done | simpl; by rewrite Hpc | | ].
  - constructor; simpl; auto; [intros Hc; rewrite so_list0, Hpc by done; done | done |].
    intros todo had Hc. by destruct (so_closer0 _ _ Hc) as (_ & ? & _).
  - intros Hl. destruct (vi_go v H n Hl) as (x & Hx & Hp). simplify_eq. congruence.
Qed.

Lemma vinv_cleanup v n g :
  vinv v -> socks v !! n = Some g -> g_pc g = GCleanup ->
  vinv (mkV (if srv_closed (srv v) then srv v
             else mkServer (listener (srv v)) (remove_conn n (connections (srv v))) false)
          (lopen v) (lpc v) (cpc v) (<[n := mkG GDone (g_sys g)]> (socks v))).
Proof.
  intros H Hn Hpc. pose proof (vi_sock v H n g Hn) as []. rewrite Hpc in *.
  specialize (so_ended0 eq_refl).
  destruct (srv_closed (srv v)) eqn:Ecl.
  { apply (vinv_set v n g); [done | done | by rewrite Hpc | |].
    - constructor; simpl; auto; try done; [by rewrite Ecl|].
      intros todo had Hc. by destruct (so_closer0 _ _ Hc) as (? & _ & _).
    - intros Hl. destruct (vi_go v H n Hl) as (x & Hx & Hp). simplify_eq. congruence. }
  destruct H. destruct (remove_conn_nodup n _ vi_nodup0) as [Hnd Hout].
  pose proof (lookup_lt_Some _ _ _ Hn) as Hlt.
  apply vi_closed0 in Ecl as Hci. 
  assert (Hat : forall m pc, pc <> GCleanup -> at_pc v m pc ->
    exists x, <[n := mkG GDone (g_sys g)]> (socks v) !! m = Some x /\ g_pc x = pc).
  { intros m pc Hp (x & Hx & Hxp). destruct (decide (m = n)) as [->|]; [simplify_eq; congruence|].
    rewrite list_lookup_insert_ne by done. eauto. }
  constructor; simpl; try done.
  - intros m x Hx. destruct (decide (m = n)) as [->|Hne].
    + rewrite list_lookup_insert_eq in Hx by done. simplify_eq. constructor; simpl; auto; try done.
      intros todo had Hc. congruence.
    + rewrite list_lookup_insert_ne in Hx by done. destruct (vi_sock0 m x Hx) as [].
      constructor; simpl; rewrite ?remove_conn_elem by done; auto.
  - intros m Hm. destruct (decide (m = n)) as [->|Hne].
    + rewrite list_lookup_insert_eq by done. by eexists.
    + rewrite list_lookup_insert_ne by done. apply vi_conn0.
      destruct Hm as [Hm%remove_conn_sub|Hm]; auto.
  - intros m Hm. by apply (Hat m GNew), vi_append0.
  - intros m Hm. by apply (Hat m GAppended), vi_go0.
Qed.

Lemma vinv_close v :
  vinv v -> cpc v = CInit ->
  vinv (mkV (mkServer (listener (srv v)) [] true) (lopen v) (lpc v)
          (CEnd (connections (srv v)) (listener (srv v))) (socks v)).
Proof.
  intros [] Hc. constructor; simpl; auto; try done.
  - intros n g Hg. destruct (vi_sock0 n g Hg) as []. constructor; simpl; auto; try done.
    rewrite Hc in so_cover0. simpl in so_cover0. set_solver.
  - constructor.
  - intros n Hn. apply vi_conn0. set_solver.
Qed.

(** Steps of the [Close] goroutine on socket [n] leave the rest alone. *)
Lemma vinv_cpc v c n g s' :
  vinv v -> socks v !! n = Some g -> (exists todo had, cpc v = CEnding n todo had \/ cpc v = CEnd (n :: todo) had) ->
  had_listener c = had_listener (cpc v) -> c <> CInit -> c <> CDone true ->
  sock_ok (srv v) c n (mkG (g_pc g) s') ->
  (forall m, m <> n -> m ∈ pending (cpc v) <-> m ∈ pending c) ->
  n ∉ pending c \/ n ∈ pending (cpc v) ->
  (forall m todo had, c = CEnding m todo had -> m = n) ->
  vinv (mkV (srv v) (lopen v) (lpc v) c (<[n := mkG (g_pc g) s']> (socks v))).
Proof.
  intros H Hn Hcpc Hhad Hci Hcd Hok Hpend Hpn Hce. pose proof (lookup_lt_Some _ _ _ Hn) as Hlt.
  assert (Hnn : g_pc g <> GNew).
  { destruct (vi_conn v H n) as (x & Hx & ?); [|by simplify_eq]. right.
    destruct Hcpc as (todo & had & [->| ->]); [right; by eauto | left; simpl; set_solver]. }
  destruct H. assert (Hat : forall m pc, at_pc v m pc ->
    exists x, <[n := mkG (g_pc g) s']> (socks v) !! m = Some x /\ g_pc x = pc).
  { intros m pc (x & Hx & Hxp). destruct (decide (m = n)) as [->|].
    - rewrite list_lookup_insert_eq by done. simplify_eq. by eexists.
    - rewrite list_lookup_insert_ne by done. eauto. }
  constructor; simpl; try done.
  - intros m x Hx. destruct (decide (m = n)) as [->|Hne].
    + rewrite list_lookup_insert_eq in Hx by done. by simplify_eq.
    + rewrite list_lookup_insert_ne in Hx by done. destruct (vi_sock0 m x Hx) as [].
      constructor; simpl; rewrite <- ?Hpend by done; auto.
      intros todo had Hc. by destruct (Hce _ _ _ Hc).
  - intros m Hm. destruct (decide (m = n)) as [->|Hne].
    + rewrite list_lookup_insert_eq by done. by eexists.
    + rewrite list_lookup_insert_ne by done. apply vi_conn0.
      destruct Hm as [Hm|[Hm|(? & ? & Hm)]]; [auto | right; left; by apply Hpend | by destruct (Hce _ _ _ Hm)].
  - intros m Hm. by apply Hat, vi_append0.
  - intros m Hm. by apply Hat, vi_go0.
  - rewrite vi_closed0. destruct Hcpc as (todo & had & [Hc|Hc]); rewrite Hc; split; try done.
  - rewrite Hhad. done.
Qed.

Lemma vinv_close_end v n todo had g :
  vinv v -> cpc v = CEnd (n :: todo) had -> socks v !! n = Some g ->
  vinv (mkV (srv v) (lopen v) (lpc v)
          (if sk_ended (sk (g_sys g)) then CEnd todo had else CEnding n todo had)
          (<[n := mkG (g_pc g) (End_flag (g_sys g))]> (socks v))).
Proof.
  intros H Hc Hn. pose proof (vi_sock v H n g Hn) as [].
  apply vinv_cpc; try done; rewrite ?Hc; try (by case_match).
  - eauto.
  - constructor; simpl; rewrite ?End_flag_ended, ?End_flag_closing; auto.
    + by apply End_flag_reach.
    + intros Hp. by destruct (sk_ended (sk (g_sys g))); auto.
    + intros todo' had' Hc'. destruct (sk_ended (sk (g_sys g))) eqn:Ee; [done|].
      split_and!; [done| |done]. intros Hp. specialize (so_ended0 ltac:(by rewrite Hp)). congruence.
  - intros m Hm. simpl. destruct (sk_ended _); simpl; set_solver.
  - right. simpl. set_solver.
  - intros m todo' had' Hc'. destruct (sk_ended _); by simplify_eq.
Qed.

Lemma vinv_close_services v n todo had g s' :
  vinv v -> cpc v = CEnding n todo had -> socks v !! n = Some g ->
  kexec authHandler KEndServices (g_sys g) = Some s' ->
  vinv (mkV (srv v) (lopen v) (lpc v) (CEnd todo had) (<[n := mkG (g_pc g) s']> (socks v))).
Proof.
  intros H Hc Hn E. pose proof (vi_sock v H n g Hn) as [].
  destruct (so_closer0 _ _ Hc) as (Hcl & Hpc & He).
  assert (Hr : kreach authHandler s') by (by eapply kreach_step).
  assert (He' : sk_ended (sk s') = true).
  { simpl in E. rewrite Hcl in E. simplify_eq. by rewrite End_services_ended. }
  apply vinv_cpc; try done; rewrite ?Hc; try done; [by eauto | | ].
  - constructor; simpl; auto; done.
  - destruct (decide (n ∈ todo)); [by right | by left].
Qed.

Lemma vinv_step a v v' : vinv v -> vexec a v = Some v' -> vinv v'.
Proof.
  intros H E. destruct a as [ok| | | | | | |n k|n|n|n| |]; simpl in E.
  - destruct (lpc v) eqn:El; try done. destruct ok; simplify_eq; [|by apply vinv_lpc].
    destruct H. constructor; simpl; auto; try done.
    + intros Hl. by destruct (vi_bound0 Hl).
    + intros Hd. destruct (vi_bound0 (vi_had0 ltac:(by rewrite Hd))). done.
  - destruct (lpc v) eqn:El; simplify_eq. destruct H. constructor; simpl; auto; try done.
    intros n g Hg. by destruct (vi_sock0 n g Hg); constructor.
  - destruct (lpc v) eqn:El; try done. destruct (lopen v) eqn:Eo; simplify_eq. by apply vinv_accept.
  - destruct (lpc v); simplify_eq. by apply vinv_lpc.
  - destruct (lpc v); simplify_eq. by apply vinv_lpc; try done; case_match.
  - destruct (lpc v) eqn:El; try done. apply bind_Some in E as (g & Hg & E). simplify_eq.
    by apply vinv_append.
  - destruct (lpc v) eqn:El; try done. apply bind_Some in E as (g & Hg & E). simplify_eq.
    by apply vinv_go.
  - apply bind_Some in E as (g & Hg & E). destruct (own_act _ _) eqn:Ek; [|done].
    apply bind_Some in E as (s' & Es & E). simplify_eq. by eapply vinv_own.
  - apply bind_Some in E as (g & Hg & E). destruct (g_pc g) eqn:Ep; try done.
    destruct (reader _); simplify_eq. by apply vinv_stop.
  - apply bind_Some in E as (g & Hg & E). destruct (g_pc g) eqn:Ep; try done.
    apply bind_Some in E as (s' & Es & E). simplify_eq. by eapply vinv_stop_services.
  - apply bind_Some in E as (g & Hg & E). destruct (g_pc g) eqn:Ep; simplify_eq. by apply vinv_cleanup.
  - destruct (srv_closed (srv v)) eqn:Ec; simplify_eq; [done|]. apply vinv_close; [done|]. by apply (vi_closed v H).
  - destruct (cpc v) as [|[|n todo] had|n todo had|had|] eqn:Ec; simplify_eq.
    + destruct H. rewrite Ec in *. constructor; simpl; auto; try done.
      * intros n g Hg. by destruct (vi_sock0 n g Hg); constructor.
      * intros n Hn. apply vi_conn0. naive_solver.
      * by rewrite vi_closed0.
    + apply bind_Some in E as (g & Hg & E). simplify_eq. by apply vinv_close_end.
    + apply bind_Some in E as (g & Hg & E). apply bind_Some in E as (s' & Es & E). simplify_eq.
      by eapply vinv_close_services.
    + destruct H. rewrite Ec in *. constructor; simpl; auto; try done.
      * intros n g Hg. by destruct (vi_sock0 n g Hg); constructor.
      * intros n Hn. apply vi_conn0. naive_solver.
      * by rewrite vi_closed0.
      * by intros [= ->].
Qed.

Lemma vinv_reach v : vreach v -> vinv v.
Proof. induction 1; [apply vinv_init | by eapply vinv_step]. Qed.

(** ** Properties *)

(** C18. Connection tracking: until [Close], [srv.connections] lists, without
    duplicates, exactly the sockets whose goroutine has been announced and has
    not yet run its clean-up - in particular every socket that is being served -
    and each socket is in a state Socket.v reasons about. *)
Theorem server_tracks_connections v n g :
  vreach v -> socks v !! n = Some g ->
  kreach authHandler (g_sys g) /\ NoDup (connections (srv v)) /\
  (srv_closed (srv v) = false ->
     (n ∈ connections (srv v) <-> listed (g_pc g) = true) /\
     (g_pc g = GRun -> n ∈ connections (srv v))).
Proof.
  intros Hr Hn. apply vinv_reach in Hr as H. pose proof (vi_sock v H n g Hn) as [].
  split_and!; [done | apply H |]. intros Hc. split; [auto|]. intros Hp. apply so_list0; by rewrite ?Hp.
Qed.

(** C19. [Close] closes: once the call of [Close] that found the server open has
    returned, every socket the server ever accepted has ended, except one whose
    [append] ran after that call's critical section (accepted but not yet
    appended, or sitting in the list [Close] had emptied).  If [Listen] had
    stored its listener, that is closed too: no further client is accepted and
    the accept loop returns without error.  Any later call of [Close] changes
    nothing.  (A second call that overlaps the first returns before all this
    holds: [server_close_races].) *)
Theorem server_close_complete v had :
  vreach v -> cpc v = CDone had ->
  (forall n g, socks v !! n = Some g ->
     sk_ended (sk (g_sys g)) = true \/ g_pc g = GNew \/ n ∈ connections (srv v)) /\
  (had = true -> vexec VAccept v = None /\
     (lpc v = LAccept -> exists v', vexec_all [VAcceptErr; VCheck] v = Some v' /\ lpc v' = LReturned (Ok tt))) /\
  vexec VClose v = Some v.
Proof.
  intros Hr Hd. apply vinv_reach in Hr as H.
  assert (Hcl : srv_closed (srv v) = true).
  { destruct (srv_closed (srv v)) eqn:Ec; [done|]. apply (vi_closed v H) in Ec. congruence. }
  split_and!.
  - intros n g Hn. pose proof (vi_sock v H n g Hn) as []. rewrite Hd in so_cover0. simpl in so_cover0.
    destruct so_cover0 as [?|[?|[Hn'|?]]]; auto. by apply not_elem_of_nil in Hn'.
  - intros ->. pose proof (vi_lopen v H Hd) as Ho. split.
    + simpl. rewrite Ho. by destruct (lpc v).
    + intros Hl. simpl. rewrite Hl. simpl. eexists. split; [done|]. simpl. by rewrite Hcl.
  - simpl. by rewrite Hcl.
Qed.

Definition close_steps (c : close_pc) : nat :=
  match c with
  | CInit | CDone _ => 0
  | CListener _ => 1
  | CEnd todo _ => 2 + 2 * length todo
  | CEnding _ todo _ => 3 + 2 * length todo
  end.

(** The [Close] goroutine is never stuck. *)
Lemma close_progress v :
  vinv v -> close_steps (cpc v) <> 0 ->
  exists v', vexec VCloseNext v = Some v' /\ cpc v' <> CInit /\ close_steps (cpc v') < close_steps (cpc v).
Proof.
  intros H Hs. simpl. destruct (cpc v) as [|[|n todo] had|n todo had|had|] eqn:Ec; try done.
  - eexists. split; [done|]. simpl. split; [done | lia].
  - destruct (vi_conn v H n) as (g & Hg & _); [right; left; rewrite Ec; simpl; set_solver|].
    rewrite Hg. simpl. eexists. split; [done|]. simpl. destruct (sk_ended _); simpl; split; try done; lia.
  - destruct (vi_conn v H n) as (g & Hg & _); [right; right; by eauto|].
    destruct (so_closer _ _ _ _ (vi_sock v H n g Hg) _ _ Ec) as (Hc & _).
    rewrite Hg. simpl. rewrite Hc. simpl. eexists. split; [done|]. simpl. split; [done | lia].
  - eexists. split; [done|]. simpl. split; [done | lia].
Qed.

(** [Close] has work for at most [2 + 2k] steps for [k] connections left, one per
    [End] call and half, whatever state the sockets are in.  Each step is a whole
    critical section: whether [Close] gets the locks for it is the subject of
    Blocking.v. *)
Theorem server_close_terminates v :
  vreach v -> srv_closed (srv v) = true ->
  exists k v' had, (k <= close_steps (cpc v)) /\
    vexec_all (replicate k VCloseNext) v = Some v' /\ cpc v' = CDone had.
Proof.
  intros Hr Hc. apply vinv_reach in Hr as H.
  assert (Hci : cpc v <> CInit) by (intros E; apply (vi_closed v H) in E; congruence).
  clear Hr Hc. remember (close_steps (cpc v)) as m eqn:Em. revert v H Hci Em.
  induction (lt_wf m) as [m _ IH]. intros v H Hci ->.
  destruct (decide (close_steps (cpc v) = 0)) as [Hz|Hz].
  - destruct (cpc v) as [| | | |had] eqn:Ec; try done. exists 0, v, had. split; [lia | done].
  - destruct (close_progress v H Hz) as (v1 & E1 & Hc1 & Hlt).
    destruct (IH _ Hlt v1 (vinv_step _ _ _ H E1) Hc1 eq_refl) as (k & v' & had & Hk & E & Hd).
    exists (S k), v', had. split; [lia|]. split; [|done]. cbn [replicate vexec_all]. by rewrite E1.
Qed.
End server.

(** ** Races with [Close] *)

Definition vrun (acts : list vact) : vcfg := default init_server (vexec_all accept_all acts init_server).

Lemma vrun_reach acts :
  is_Some (vexec_all accept_all acts init_server) -> vreach accept_all (vrun acts).
Proof. intros [v E]. unfold vrun. rewrite E. by eapply vexec_all_reach. Qed.

Definition serve_one : list vact := [VListen true; VStore; VAccept; VAppend; VGo].

(** A client that connects while [Close] takes its snapshot. *)
Definition accept_race : list vact :=
  [VListen true; VStore; VAccept; VClose; VCloseNext; VCloseNext; VAppend; VGo]
  ++ (VSock 0 <$> ex_login).

(** [Close] before [Listen] has stored its listener, as [StartWithServer] makes possible. *)
Definition early_close : list vact :=
  [VListen true; VClose; VCloseNext; VCloseNext; VStore; VAccept; VAppend; VGo].

(** Three ways [Close] returns and leaves the server serving: a connection accepted
    before its critical section but appended after it is served - here up to
    a completed login - and never ended; a [Close] that runs before [Listen]
    stores its listener closes no listener, so that clients are still accepted;
    and a second [Close] that overlaps the first returns at once, with a socket
    still served and the listener still open. *)
Theorem server_close_races :
  (exists v g, vreach accept_all v /\ cpc v = CDone true /\ socks v = [g] /\
     g_pc g = GRun /\ sk_ended (sk (g_sys g)) = false /\ authorized (sk (g_sys g)) = true) /\
  (exists v g, vreach accept_all v /\ cpc v = CDone false /\ lopen v = true /\ lpc v = LAccept /\
     socks v = [g] /\ g_pc g = GRun /\ sk_ended (sk (g_sys g)) = false) /\
  (exists v g, vreach accept_all v /\ vexec accept_all VClose v = Some v /\ srv_closed (srv v) = true /\ lopen v = true /\
     socks v = [g] /\ g_pc g = GRun /\ sk_ended (sk (g_sys g)) = false).
Proof.
  split_and!.
  - exists (vrun accept_race). eexists. split; [apply vrun_reach; by eexists; vm_compute|].
    split_and!; by vm_compute.
  - exists (vrun early_close). eexists. split; [apply vrun_reach; by eexists; vm_compute|].
    split_and!; by vm_compute.
  - exists (vrun (serve_one ++ [VClose])). eexists. split; [apply vrun_reach; by eexists; vm_compute|].
    split_and!; by vm_compute.
Qed.

Lemma server_tracks_connections_witness :
  kreach accept_all (g_sys (mkG GRun init_sys)) /\ 0%nat ∈ connections (srv (vrun serve_one)).
Proof.
  destruct (server_tracks_connections accept_all (vrun serve_one) 0 (mkG GRun init_sys)) as (H & _ & Hl).
  - apply vrun_reach. eexists. vm_compute. reflexivity.
  - vm_compute. reflexivity.
  - split; [exact H|]. apply Hl; vm_compute; reflexivity.
Defined.

Definition close_run : list vact := serve_one ++ VClose :: replicate 4 VCloseNext.

Lemma server_close_complete_witness :
  vexec accept_all VAccept (vrun close_run) = None /\ connections (srv (vrun close_run)) = [].
Proof.
  split; [|vm_compute; reflexivity].
  apply (server_close_complete accept_all (vrun close_run) true).
  - apply vrun_reach. eexists. vm_compute. reflexivity.
  - vm_compute. reflexivity.
  - reflexivity.
Defined.

Lemma server_close_terminates_witness :
  exists k v' had, (k <= close_steps (cpc (vrun (serve_one ++ [VClose]))))%nat /\
    vexec_all accept_all (replicate k VCloseNext) (vrun (serve_one ++ [VClose])) = Some v' /\
    cpc v' = CDone had.
Proof.
  apply (server_close_terminates accept_all).
  - apply vrun_reach. eexists. vm_compute. reflexivity.
  - vm_compute. reflexivity.
Defined.
