(* ===== verification/Blocking.v ===== *)
(** * Locks and blocking operations of the bridge: tcpusb/server.go, socket.go, service.go, service_map.go

    The state machines of Service.v, Socket.v and Server.v take every critical
    section as one step, so they cannot say whether a goroutine gets to the next
    one.  Here each method is the sequence of locks it takes, locks it releases
    and operations it may block in; what it computes is left out, and the
    branches it takes are arguments.  A goroutine runs such a sequence; a lock is
    taken only while nobody holds it.  The [RWMutex] of [ServiceMap] is taken for
    an exclusive lock: its readers hold it for a lookup only. *)

From stdpp Require Import base list numbers relations.
From Stdlib Require Import Lia.
From S2P Require Import Prelude.

(** ** Locks and operations *)

(** Sockets, and the services of a socket, are numbered. *)
Inductive lock :=
  | ServerMu                     (* Server.mu *)
  | MapMu (s : nat)              (* ServiceMap.mu *)
  | ServiceMu (s k : nat)        (* Service.mu *)
  | WriteMu (s : nat)            (* Socket.writeMu *)
  | SocketMu (s : nat).          (* Socket.mu *)

(** What a goroutine may block in, locks apart. *)
Inductive blocking :=
  | Accept                       (* listener.Accept() *)
  | ClientRead (s : nat)         (* s.reader.ReadPacket() *)
  | ClientWrite (s : nat)        (* s.conn.Write(data) *)
  | AuthHandler (s : nat)        (* s.authHandler(...) *)
  | DeviceSerial (s : nat)       (* s.device.Serial() *)
  | DeviceDial (s k : nat)       (* s.device.Transport() *)
  | DeviceRead (s k : nat)       (* transport.Read(...), io.ReadFull(s.transport, ...) *)
  | DeviceWrite (s k : nat)      (* s.transport.Write(...) *)
  | DoneCh (s k : nat)           (* <-s.doneCh *)
  | Pause (s k : nat).           (* select on s.endCh and time.After *)

Inductive op := Lock (l : lock) | Unlock (l : lock) | Block (b : blocking).

#[global] Instance lock_eq_dec : EqDecision lock.
Proof. solve_decision. Defined.

(** ** The methods *)

(** A critical section around [body], and one that only looks at memory. *)
Definition locked (l : lock) (body : list op) : list op := Lock l :: body ++ [Unlock l].
Definition section (l : lock) : list op := locked l [].

(** [Socket.MaxPayload] *)
Definition MaxPayload_ops (s : nat) : list op := section (SocketMu s).

(** [Socket.Write]; [ended] is the flag it reads. *)
Definition Write_ops (s : nat) (ended : bool) : list op :=
  locked (WriteMu s) (section (SocketMu s) ++ (if ended then [] else [Block (ClientWrite s)])).

(** [Service.End]; [ended] is the service's flag, [sock] the socket's. *)
Definition Service_End_ops (s k : nat) (ended sock : bool) : list op :=
  locked (ServiceMu s k) (if ended then [] else Write_ops s sock).

(** How far [Service.handleOpenPacket] gets. *)
Inductive open_path := NoDial | Late | NotWritten | NoOkay | Refused | Opened (sock : bool).

Definition Service_handleOpen_ops (s k : nat) (p : open_path) : list op :=
  Block (DeviceDial s k) ::
  match p with
  | NoDial => []
  | Late => section (ServiceMu s k)
  | NotWritten => section (ServiceMu s k) ++ [Block (DeviceWrite s k)]
  | NoOkay => section (ServiceMu s k) ++ [Block (DeviceWrite s k); Block (DeviceRead s k)]
  | Refused => section (ServiceMu s k) ++ [Block (DeviceWrite s k); Block (DeviceRead s k); Block (DeviceRead s k)]
  | Opened sock => section (ServiceMu s k) ++ [Block (DeviceWrite s k); Block (DeviceRead s k)] ++ Write_ops s sock
                     ++ [Block (DoneCh s k)]
  end.

(** [Service.handleOkayPacket] *)
Definition Service_handleOkay_ops (s k : nat) : list op := section (ServiceMu s k).

(** How far [Service.handleWritePacket] gets. *)
Inductive write_path := Ignored | Failed | Empty (sock : bool) | Passed (sock : bool).

Definition Service_handleWrite_ops (s k : nat) (p : write_path) : list op :=
  locked (ServiceMu s k)
  match p with
  | Ignored => []
  | Failed => [Block (DeviceWrite s k)]
  | Empty sock => Write_ops s sock
  | Passed sock => Block (DeviceWrite s k) :: Write_ops s sock
  end.

(** [Service.handleClosePacket] *)
Definition Service_handleClose_ops (s k : nat) (premature ended sock : bool) : list op :=
  if premature then [] else Service_End_ops s k ended sock.

(** A round of the loop of [forwardFromDevice] that goes on with another. *)
Inductive round := Unacked | NothingRead | Chunk (ended sock : bool).

Definition forward_round (s k : nat) (r : round) : list op :=
  match r with
  | Unacked => section (ServiceMu s k) ++ [Block (Pause s k)]
  | NothingRead => locked (ServiceMu s k) (MaxPayload_ops s) ++ [Block (DeviceRead s k)]
  | Chunk ended sock =>
      locked (ServiceMu s k) (MaxPayload_ops s) ++ [Block (DeviceRead s k)] ++
      locked (ServiceMu s k) (if ended then [] else Write_ops s sock)
  end.

(** The round in which it returns. *)
Inductive last_round := SawEnd | SawEndCh | ReadFailed.

Definition forward_last (s k : nat) (r : last_round) : list op :=
  match r with
  | SawEnd => section (ServiceMu s k)
  | SawEndCh => section (ServiceMu s k) ++ [Block (Pause s k)]
  | ReadFailed => locked (ServiceMu s k) (MaxPayload_ops s) ++ [Block (DeviceRead s k)]
  end.

(** [forwardFromDevice]; closing [doneCh] does not block. *)
Definition forwardFromDevice_ops (s k : nat) (rounds : list round) (r : last_round) (ended sock : bool) : list op :=
  concat (forward_round s k <$> rounds) ++ forward_last s k r ++ Service_End_ops s k ended sock.

(** [ServiceMap.Insert], [Get] and [Remove] *)
Definition Insert_ops (s : nat) : list op := section (MapMu s).
Definition Get_ops (s : nat) : list op := section (MapMu s).
Definition Remove_ops (s : nat) : list op := section (MapMu s).

(** [ServiceMap.End], for the services it finds and the flags each [End] reads. *)
Definition ServiceMap_End_ops (s : nat) (services : list (nat * bool * bool)) : list op :=
  locked (MapMu s) (concat ((fun e => Service_End_ops s e.1.1 e.1.2 e.2) <$> services)).

(** [Socket.End]; closing the client's connection, at the end, does not block. *)
Definition Socket_End_ops (s : nat) (ended : bool) (services : list (nat * bool * bool)) : list op :=
  section (SocketMu s) ++ (if ended then [] else ServiceMap_End_ops s services).

(** [sendCNXN] *)
Definition sendCNXN_ops (s : nat) (sock : bool) : list op :=
  locked (SocketMu s) [Block (DeviceSerial s)] ++ Write_ops s sock.

(** What [Socket.handle] does with one packet. *)
Inductive handle_path :=
  | HEnded | HUnknown
  | HSync (sock : bool)
  | HNoToken | HConnect (sock : bool)
  | HSignature (sock : bool)
  | HKeyTooEarly | HKeyRejected | HKey (sock : bool)
  | HOpenRefused | HOpenEmpty | HOpen
  | HForwardRefused | HForwardNone
  | HOkay (k : nat)
  | HWrite (k : nat) (p : write_path)
  | HClose (k : nat) (premature ended sock : bool).

Definition handle_ops (s : nat) (h : handle_path) : list op :=
  section (SocketMu s) ++
  match h with
  | HEnded | HUnknown => []
  | HSync sock => section (SocketMu s) ++ Write_ops s sock
  | HNoToken => section (SocketMu s)
  | HConnect sock => section (SocketMu s) ++ section (SocketMu s) ++ Write_ops s sock
  | HSignature sock => section (SocketMu s) ++ Write_ops s sock
  | HKeyTooEarly => section (SocketMu s)
  | HKeyRejected => section (SocketMu s) ++ [Block (AuthHandler s)]
  | HKey sock => section (SocketMu s) ++ [Block (AuthHandler s)] ++ sendCNXN_ops s sock
  | HOpenRefused => section (SocketMu s)
  | HOpenEmpty => section (SocketMu s) ++ section (SocketMu s)
  | HOpen => section (SocketMu s) ++ section (SocketMu s) ++ Insert_ops s
  | HForwardRefused => section (SocketMu s)
  | HForwardNone => section (SocketMu s) ++ Get_ops s
  | HOkay k => section (SocketMu s) ++ Get_ops s ++ Service_handleOkay_ops s k
  | HWrite k p => section (SocketMu s) ++ Get_ops s ++ Service_handleWrite_ops s k p
  | HClose k premature ended sock => section (SocketMu s) ++ Get_ops s ++ Service_handleClose_ops s k premature ended sock
  end.

(** [Socket.Start]: packets, then a failed read or a packet that ends it. *)
Definition Start_ops (s : nat) (packets : list handle_path) (bad : option handle_path)
    (ended : bool) (services : list (nat * bool * bool)) : list op :=
  concat ((fun h => Block (ClientRead s) :: handle_ops s h) <$> packets) ++
  Block (ClientRead s) :: (match bad with Some h => handle_ops s h | None => [] end) ++ Socket_End_ops s ended services.

(** ** The goroutines *)

Inductive goroutine : list op -> Prop :=
  (* Listen: whether each Accept succeeds *)
  | g_listen accepts :
      goroutine (section ServerMu ++ concat ((fun _ : bool => Block Accept :: section ServerMu) <$> accepts))
  (* one accepted connection: Start and the removal from srv.connections *)
  | g_connection s packets bad ended services :
      goroutine (Start_ops s packets bad ended services ++ section ServerMu)
  (* one service: Handle and the deferred Remove and End *)
  | g_service s k p ended sock :
      goroutine (Service_handleOpen_ops s k p ++ Remove_ops s ++ Service_End_ops s k ended sock)
  | g_forward s k rounds r ended sock :
      goroutine (forwardFromDevice_ops s k rounds r ended sock)
  (* Close, for the sockets it finds; Addr and an early return take the lock only *)
  | g_close sockets :
      goroutine (section ServerMu ++
        concat ((fun e : nat * bool * list (nat * bool * bool) => Socket_End_ops e.1.1 e.1.2 e.2) <$> sockets)).

(** ** Execution *)

Record thread := mkThread { held : list lock; code : list op }.

Definition taken (l : lock) (ts : list thread) : bool := existsb (fun t => bool_decide (l ∈ held t)) ts.

(** One operation of thread [i] while the operations [stalled] do not complete. *)
Definition lexec (stalled : blocking -> bool) (i : nat) (ts : list thread) : option (list thread) :=
  t ← ts !! i;
  match code t with
  | [] => None
  | Lock l :: r => if taken l ts then None else Some (<[i := mkThread (l :: held t) r]> ts)
  | Unlock l :: r =>
      match held t with
      | h :: rest => if decide (h = l) then Some (<[i := mkThread rest r]> ts) else None
      | [] => None
      end
  | Block b :: r => if stalled b then None else Some (<[i := mkThread (held t) r]> ts)
  end.

Definition nothing_stalls (_ : blocking) : bool := false.

(** Any goroutines, in any number, interleaved in any way. *)
Inductive lreach : list thread -> Prop :=
  | lreach_init codes : Forall goroutine codes -> lreach (mkThread [] <$> codes)
  | lreach_step i ts ts' : lreach ts -> lexec nothing_stalls i ts = Some ts' -> lreach ts'.

(** Thread [i] is at a lock thread [j] holds. *)
Definition waits_for (ts : list thread) (i j : nat) : Prop :=
  exists ti tj l r, ts !! i = Some ti /\ ts !! j = Some tj /\ code ti = Lock l :: r /\ l ∈ held tj.

(** The operations that are carried out under a lock. *)
Definition under_lock (b : blocking) : bool :=
  match b with ClientWrite _ | DeviceWrite _ _ | DeviceSerial _ => true | _ => false end.

(** ** The order of the locks *)

Definition rank (l : lock) : nat :=
  match l with ServerMu => 0 | MapMu _ => 1 | ServiceMu _ _ => 2 | WriteMu _ => 3 | SocketMu _ => 4 end.

Definition above (r : nat) (h : list lock) : bool := forallb (fun l => rank l <? r)%nat h.

(** The locks held after [ops], for a sequence that takes locks in ascending rank
    only, releases them in the opposite order, and blocks under a lock only in
    the operations of [under_lock]. *)
Fixpoint disciplined (h : list lock) (ops : list op) : option (list lock) :=
  match ops with
  | [] => Some h
  | Lock l :: r => if above (rank l) h then disciplined (l :: h) r else None
  | Unlock l :: r => match h with
                     | x :: h' => if decide (x = l) then disciplined h' r else None
                     | [] => None
                     end
  | Block b :: r => if under_lock b || bool_decide (h = []) then disciplined h r else None
  end.

Lemma disciplined_app h a b : disciplined h (a ++ b) = disciplined h a ≫= fun h' => disciplined h' b.
Proof.
  revert h. induction a as [|o a IH]; intros h; [done|]. destruct o as [l|l|b0]; simpl.
  - by destruct (above _ _).
  - destruct h as [|x h]; [done|]. by destruct (decide _).
  - by destruct (_ || _).
Qed.

(** A method called with locks of a rank below [r]: it gives back what it takes. *)
Definition takes_from (r : nat) (ops : list op) : Prop := forall h, above r h = true -> disciplined h ops = Some h.

Lemma above_weaken r r' h : (r <= r')%nat -> above r h = true -> above r' h = true.
Proof.
  intros Hr. unfold above. rewrite !forallb_forall. intros H x Hx. specialize (H x Hx).
  apply Nat.ltb_lt in H. apply Nat.ltb_lt. lia.
Qed.

Lemma takes_nil r : takes_from r [].
Proof. done. Qed.

Lemma takes_app r a b : takes_from r a -> takes_from r b -> takes_from r (a ++ b).
Proof. intros Ha Hb h Hh. rewrite disciplined_app, Ha by done. by apply Hb. Qed.

Lemma takes_weaken r r' ops : (r <= r')%nat -> takes_from r' ops -> takes_from r ops.
Proof. intros Hr H h Hh. apply H. by apply (above_weaken r). Qed.

Lemma takes_concat {X} r (f : X -> list op) l : (forall x, takes_from r (f x)) -> takes_from r (concat (f <$> l)).
Proof. intros Hf. induction l; [apply takes_nil|]. by apply takes_app. Qed.

(** A critical section around operations that take only locks of a higher rank. *)
Lemma takes_locked r l ops : (r <= rank l)%nat -> takes_from (S (rank l)) ops -> takes_from r (locked l ops).
Proof.
  intros Hr H h Hh. assert (Ha : above (rank l) h = true) by (by apply (above_weaken r)).
  unfold locked. cbn [disciplined]. rewrite Ha, disciplined_app, H.
  - simpl. by rewrite decide_True.
  - simpl. rewrite (proj2 (Nat.ltb_lt _ _)) by lia. by apply (above_weaken (rank l)); [lia|].
Qed.

Lemma takes_block r b ops : under_lock b = true -> takes_from r ops -> takes_from r (Block b :: ops).
Proof. intros Hb H h Hh. simpl. rewrite Hb. by apply H. Qed.

Lemma takes_free b ops : takes_from 0 ops -> takes_from 0 (Block b :: ops).
Proof. intros H [|x h] Hh; [|done]. simpl. rewrite orb_true_r. by apply H. Qed.

Create HintDb locks.
#[export] Hint Resolve takes_nil takes_app takes_concat takes_block takes_free : locks.
#[export] Hint Extern 2 (takes_from _ (locked _ _)) => apply takes_locked; [simpl; lia|] : locks.
#[export] Hint Extern 2 (takes_from _ (section _)) => apply takes_locked; [simpl; lia|] : locks.
#[export] Hint Extern 3 (takes_from _ (if ?b then _ else _)) => destruct b : locks.
#[export] Hint Extern 3 (takes_from _ (match ?p with _ => _ end)) => destruct p : locks.

Lemma Write_ops_ok r s ended : (r <= 3)%nat -> takes_from r (Write_ops s ended).
Proof. intros H. unfold Write_ops. auto 8 with locks. Qed.

#[export] Hint Extern 2 (takes_from _ (Write_ops _ _)) => apply Write_ops_ok; simpl; lia : locks.

Lemma Service_End_ops_ok r s k ended sock : (r <= 2)%nat -> takes_from r (Service_End_ops s k ended sock).
Proof. intros H. unfold Service_End_ops. auto with locks. Qed.

#[export] Hint Extern 2 (takes_from _ (Service_End_ops _ _ _ _)) => apply Service_End_ops_ok; simpl; lia : locks.

Lemma Socket_End_ops_ok s ended services : takes_from 0 (Socket_End_ops s ended services).
Proof. unfold Socket_End_ops, ServiceMap_End_ops. auto 8 with locks. Qed.

Lemma handle_ops_ok s h : takes_from 0 (handle_ops s h).
Proof.
  unfold handle_ops, sendCNXN_ops, Insert_ops, Get_ops, Service_handleOkay_ops, Service_handleWrite_ops,
    Service_handleClose_ops.
  auto 12 with locks.
Qed.

Lemma forward_ok s k rounds r ended sock : takes_from 0 (forwardFromDevice_ops s k rounds r ended sock).
Proof. unfold forwardFromDevice_ops, forward_round, forward_last, MaxPayload_ops. auto 10 with locks. Qed.

#[export] Hint Resolve Socket_End_ops_ok handle_ops_ok forward_ok : locks.

(** Every goroutine takes its locks in order, and ends without one. *)
Lemma goroutine_ok ops : goroutine ops -> disciplined [] ops = Some [].
Proof.
  intros H. assert (Ht : takes_from 0 ops); [|by apply Ht].
  destruct H; unfold Start_ops, Service_handleOpen_ops, Remove_ops; auto 12 with locks.
Qed.

(** ** Invariant *)

Record linv (ts : list thread) : Prop := {
  li_code : forall i t, ts !! i = Some t -> disciplined (held t) (code t) = Some [];
  li_excl : forall i j ti tj l, ts !! i = Some ti -> ts !! j = Some tj -> l ∈ held ti -> l ∈ held tj -> i = j
}.

Lemma taken_spec l ts : taken l ts = true <-> exists j t, ts !! j = Some t /\ l ∈ held t.
Proof.
  unfold taken. rewrite existsb_exists. split.
  - intros (t & Ht & Hl). apply bool_decide_eq_true in Hl. apply list_elem_of_In, list_elem_of_lookup in Ht as [j Hj]. eauto.
  - intros (j & t & Hj & Hl). exists t. split; [|by apply bool_decide_eq_true].
    apply list_elem_of_In. by eapply list_elem_of_lookup_2.
Qed.

(** Thread [i] goes on; the locks it holds are its old ones and ones nobody had. *)
Lemma linv_set ts i t t' :
  linv ts -> ts !! i = Some t -> disciplined (held t') (code t') = Some [] ->
  (forall l, l ∈ held t' -> l ∈ held t \/ taken l ts = false) -> linv (<[i := t']> ts).
Proof.
  intros [Hc He] Hi Hd Hl. pose proof (lookup_lt_Some _ _ _ Hi) as Hlt.
  assert (Hother : forall j tj l, i <> j -> ts !! j = Some tj -> l ∈ held t' -> l ∈ held tj -> False).
  { intros j tj l Hij Hj H1 H2. destruct (Hl l H1) as [H|H]; [by eapply Hij, He|].
    assert (taken l ts = true) by (apply taken_spec; eauto). congruence. }
  split.
  - intros j tj Hj. destruct (decide (i = j)) as [->|].
    + rewrite list_lookup_insert_eq in Hj by done. by simplify_eq.
    + rewrite list_lookup_insert_ne in Hj by done. by eapply Hc.
  - intros j k tj tk l Hj Hk H1 H2. destruct (decide (i = j)) as [->|], (decide (j = k)) as [->|]; try done.
    + rewrite list_lookup_insert_eq in Hj by done. rewrite list_lookup_insert_ne in Hk by done. simplify_eq. by edestruct Hother.
    + rewrite list_lookup_insert_ne in Hj by done. destruct (decide (i = k)) as [->|].
      * rewrite list_lookup_insert_eq in Hk by done. simplify_eq. by edestruct Hother.
      * rewrite list_lookup_insert_ne in Hk by done. by eapply He.
Qed.

Lemma linv_step stalled i ts ts' : linv ts -> lexec stalled i ts = Some ts' -> linv ts'.
Proof.
  intros H E. unfold lexec in E. apply bind_Some in E as (t & Hi & E). pose proof (li_code _ H i t Hi) as Hd.
  destruct (code t) as [|[l|l|b] r] eqn:Ec; [done|..]; cbn [disciplined] in Hd.
  - destruct (taken l ts) eqn:Et; simplify_eq. destruct (above _ _); [|done]. eapply linv_set; [done..|].
    intros x [->|Hx]%elem_of_cons; auto.
  - destruct (held t) as [|h rest] eqn:Eh; [done|]. destruct (decide (h = l)); simplify_eq.
    eapply linv_set; [done..|]. intros x Hx. left. rewrite Eh. by right.
  - destruct (stalled b); simplify_eq. destruct (_ || _); [|done]. eapply linv_set; [done..|]. auto.
Qed.

Lemma linv_reach ts : lreach ts -> linv ts.
Proof.
  induction 1 as [codes H|]; [|by eapply linv_step]. split.
  - intros i t. rewrite list_lookup_fmap. intros (c & Hc & ->)%fmap_Some. simpl.
    apply goroutine_ok. by eapply Forall_lookup_1 in H.
  - intros i j ti tj l. rewrite list_lookup_fmap. intros (c & Hc & ->)%fmap_Some _ Hl. by apply elem_of_nil in Hl.
Qed.

(** ** Why a goroutine waits *)

(** How many locks there are after the one thread [t] is at. *)
Definition height (t : thread) : nat := match code t with Lock l :: _ => 5 - rank l | _ => 0 end.

(** The owner of the lock a thread is at is itself at a later lock, or elsewhere. *)
Lemma owner_height ti tj l r :
  code ti = Lock l :: r -> l ∈ held tj -> disciplined (held tj) (code tj) = Some [] ->
  code tj <> [] /\ (height tj < height ti)%nat.
Proof.
  intros Hi Hl Hd. unfold height. rewrite Hi.
  assert (Hr : (rank l <= 4)%nat) by (destruct l; simpl; lia).
  destruct (code tj) as [|[l'|l'|b] r'] eqn:Ec; cbn [disciplined] in Hd; [|split; [done|]..]; try lia.
  - injection Hd as Hd. rewrite Hd in Hl. by apply elem_of_nil in Hl.
  - destruct (above (rank l') (held tj)) eqn:Ea; [|done].
    unfold above in Ea. rewrite forallb_forall in Ea. specialize (Ea l (proj1 (list_elem_of_In _ _) Hl)).
    apply Nat.ltb_lt in Ea. lia.
Qed.

Lemma stuck_chain stalled ts n : linv ts ->
  forall i ti, (height ti <= n)%nat -> ts !! i = Some ti -> code ti <> [] ->
  exists j tj, rtc (waits_for ts) i j /\ ts !! j = Some tj /\
    (is_Some (lexec stalled j ts) \/
     exists b r, code tj = Block b :: r /\ stalled b = true /\ (j = i /\ held ti = [] \/ under_lock b = true)).
Proof.
  intros H. induction n as [n IH] using lt_wf_ind. intros i ti Hn Hi Hne. pose proof (li_code _ H i ti Hi) as Hd.
  assert (Hself : forall o : option (list thread), lexec stalled i ts = o -> is_Some o -> exists j tj, rtc (waits_for ts) i j /\
    ts !! j = Some tj /\ (is_Some (lexec stalled j ts) \/ exists b r, code tj = Block b :: r /\ stalled b = true /\
      (j = i /\ held ti = [] \/ under_lock b = true))).
  { intros o <- Ho. exists i, ti. split_and!; [done..|]. by left. }
  unfold lexec in Hself. rewrite Hi in Hself. cbn [mbind option_bind] in Hself.
  destruct (code ti) as [|[l|l|b] r] eqn:Ec; [done|..]; cbn [disciplined] in Hd.
  - destruct (taken l ts) eqn:Et; [|by eapply Hself]. apply taken_spec in Et as (k & tk & Hk & Hl).
    destruct (owner_height ti tk l r Ec Hl (li_code _ H k tk Hk)) as [Hkne Hlt].
    destruct (IH (height tk) ltac:(lia) k tk (le_n _) Hk Hkne) as (j & tj & Hrtc & Hj & Hend).
    exists j, tj. split_and!; [eapply rtc_l; [|done]; by exists ti, tk, l, r | done |].
    destruct Hend as [?|(b & r' & ? & ? & [[_ Hh]|?])]; [by left | | right; by eauto 6].
    rewrite Hh in Hl. by apply elem_of_nil in Hl.
  - destruct (held ti) as [|h rest]; [done|]. destruct (decide (h = l)); [by eapply Hself | done].
  - destruct (stalled b) eqn:Es; [|by eapply Hself]. exists i, ti. split_and!; [done..|]. right.
    exists b, r. split_and!; [done..|]. destruct (under_lock b); [by right|]. left. split; [done|].
    simpl in Hd. destruct (bool_decide (held ti = [])) eqn:Eb; [by apply bool_decide_eq_true in Eb | done].
Qed.

(** The operations left to all threads. *)
Definition total (ts : list thread) : nat := sum_list_with (fun t => length (code t)) ts.

Lemma total_insert ts i t t' :
  ts !! i = Some t -> total ts + length (code t') = total (<[i := t']> ts) + length (code t).
Proof.
  unfold total. revert i. induction ts as [|x ts IH]; intros [|i] Hi; simpl in *; simplify_eq; [lia|].
  specialize (IH i Hi). lia.
Qed.

Lemma lexec_total stalled i ts ts' : lexec stalled i ts = Some ts' -> total ts = S (total ts').
Proof.
  unfold lexec. intros (t & Hi & E)%bind_Some.
  assert (Hset : forall h o r, code t = o :: r -> total ts = S (total (<[i := mkThread h r]> ts))).
  { intros h o r Ec. pose proof (total_insert ts i t (mkThread h r) Hi) as Ht. rewrite Ec in Ht. simpl in Ht. lia. }
  destruct (code t) as [|[l|l|b] r] eqn:Ec; [done|..].
  - destruct (taken l ts); simplify_eq. by eapply Hset.
  - destruct (held t) as [|h rest]; [done|]. destruct (decide (h = l)); simplify_eq. by eapply Hset.
  - destruct (stalled b); simplify_eq. by eapply Hset.
Qed.

Lemma total_pos ts : total ts <> 0 -> exists i t, ts !! i = Some t /\ code t <> [].
Proof.
  unfold total. induction ts as [|x ts IH]; [done|]. simpl. intros H. destruct (code x) eqn:Ec.
  - destruct IH as (i & t & ? & ?); [simpl in H; lia|]. by exists (S i), t.
  - exists 0, x. split; [done|]. congruence.
Qed.


(** ** A client that does not read *)

Fixpoint lexec_all (sched : list nat) (ts : list thread) : option (list thread) :=
  match sched with [] => Some ts | i :: r => ts' ← lexec nothing_stalls i ts; lexec_all r ts' end.

Lemma lexec_all_reach sched ts ts' : lreach ts -> lexec_all sched ts = Some ts' -> lreach ts'.
Proof.
  revert ts. induction sched as [|i r IH]; intros ts H E; simpl in E; [by simplify_eq|].
  apply bind_Some in E as (t1 & E1 & E2). eapply IH; [|done]. by eapply lreach_step.
Qed.

(** [Close] of a server with one connection and one service, the service's
    forwarder with a chunk to send, and the connection's reader. *)
Definition hang_code : list (list op) :=
  [section ServerMu ++ concat ((fun e : nat * bool * list (nat * bool * bool) => Socket_End_ops e.1.1 e.1.2 e.2) <$>
     [(0, false, [(0, false, true)])]);
   forwardFromDevice_ops 0 0 [Chunk false false] SawEnd true true;
   Start_ops 0 [] None true [] ++ section ServerMu].

(** The forwarder gets to its write, then [Close] to the service's lock. *)
Definition hang_schedule : list nat := replicate 9 1 ++ replicate 5 0.

(** The client neither takes nor sends anything. *)
Definition client_silent (b : blocking) : bool :=
  match b with ClientRead _ | ClientWrite _ => true | _ => false end.

(** [Close] can hang on one client: the forwarder writes to the client under the
    service's lock, and [Socket.End] closes the client's connection - which
    would end the write - only after it has ended the services, each under its
    lock.  With a client that takes nothing, [Close] never gets the lock and
    nothing else can happen. *)
Theorem close_hangs :
  Forall goroutine hang_code /\
  exists ts t, lexec_all hang_schedule (mkThread [] <$> hang_code) = Some ts /\ ts !! 0 = Some t /\ code t <> [] /\
    forall i, lexec client_silent i ts = None.
Proof.
  split.
  - repeat apply Forall_cons_2; [apply g_close | apply g_forward | apply g_connection | apply Forall_nil_2].
  - eexists _, _. split_and!; [vm_compute; reflexivity | reflexivity | discriminate |].
    intros [|[|[|i]]]; vm_compute; reflexivity.
Qed.

(** ** Instances *)

