(* ===== verification/Connection.v ===== *)
(** * The host protocol on one connection: adb/connection.go, adb/device_transport.go, adb/status.go

    Requests are four hexadecimal digits of length and the text; answers are a
    four-byte status, with a length-prefixed message or payload after it.  The
    methods of [Transport] that work on its embedded connection are here; those
    that dial are in Client.v. *)

From stdpp Require Import base list numbers.
From Stdlib Require Import ZArith Lia.
From S2P Require Import Prelude GoStrings GoNet.

Local Open Scope Z_scope.

Definition StatusOkay : bytes := str "OKAY".
Definition StatusFail : bytes := str "FAIL".

(** [fmt.Sprintf("%04x%s", len(cmd), cmd)] *)
Definition frame (cmd : bytes) : bytes := fmt_x 4 (zlen cmd) ++ cmd.

(** [parseHexInt] *)
Definition parseHexInt (s : bytes) : outcome Z :=
  match ParseInt s 16 with
  | Err e => Err (ErrInvalidHex s e)
  | r => r
  end.

(** [sendADBCommand]: the status buffer keeps its zero bytes where the single
    [Read] does not fill it. *)
Definition sendADBCommand (command : bytes) : io conn bytes :=
  _ ← Write (frame command);
  b ← Read 4;
  mret (b ++ replicate (4 - length b) x00).

(** [readLengthPrefixed]; [make] with a negative length panics. *)
Definition readLengthPrefixed : io conn bytes :=
  lenBuf ← ReadFull 4;
  l ← of_outcome (parseHexInt lenBuf);
  if l =? 0 then mret []
  else if l <? 0 then gopanic
  else ReadFull (Z.to_nat l).

(** [payload, _ := readLengthPrefixed(conn)]: an error leaves the payload empty. *)
Definition readLengthPrefixed_or_empty : io conn bytes :=
  r ← attempt readLengthPrefixed;
  mret (match r with inl d => d | inr _ => [] end).

(** ** [Transport] *)

(** [ReadStatus]: with a FAIL status the error is what callers look at. *)
Definition ReadStatus : io conn bytes :=
  status ← ReadFull 4;
  if decide (status = StatusFail) then
    r ← attempt readLengthPrefixed;
    match r with
    | inr _ => fail (Errorf (str "operation failed (unable to read error message)"))
    | inl msg => fail (Errorf (str "operation failed: " ++ msg))
    end
  else mret status.

(** [ValidateOkayStatus] *)
Definition ValidateOkayStatus : io conn unit :=
  status ← ReadStatus;
  if decide (status = StatusOkay) then mret tt
  else fail (Errorf (str "unexpected status: " ++ status ++ str " (expected " ++ StatusOkay ++ str ")")).

(** [SendCommand] *)
Definition SendCommand (cmd : bytes) : io conn bytes :=
  _ ← Write (frame cmd);
  ReadStatus.

Definition command_failed (cmd : bytes) : goerror :=
  Errorf (str "command '" ++ cmd ++ str "' failed").

(** [ExecuteSimpleCommand] *)
Definition ExecuteSimpleCommand (cmd : bytes) : io conn unit :=
  status ← SendCommand cmd;
  if decide (status = StatusFail) then fail (command_failed cmd) else mret tt.

(** [ExecuteCommandWithResponse] *)
Definition ExecuteCommandWithResponse (cmd : bytes) : io conn bytes :=
  status ← SendCommand cmd;
  if decide (status = StatusFail) then fail (command_failed cmd) else ReadAllOrErr.

(** ** Lemmas *)

Lemma parseHexInt_frame (d : bytes) : zlen d < 2 ^ 63 -> parseHexInt (fmt_x 4 (zlen d)) = Ok (zlen d).
Proof. intros H. unfold parseHexInt. rewrite ParseInt_fmt_x; [done|]. unfold zlen in *. lia. Qed.

Lemma readLengthPrefixed_feeds tl c d s :
  zlen d <= 65535 -> conn_feeds tl c (frame d ++ s) ->
  exists c', readLengthPrefixed c = (Ok d, c') /\ conn_feeds tl c' s /\ written c' = written c.
Proof.
  intros Hd Hf. unfold frame in Hf. rewrite <- app_assoc in Hf.
  destruct (ReadFull_feeds_app tl c _ _ 4 Hf) as (c1 & E1 & Hf1 & Hw1).
  { apply fmt_x_length. unfold zlen in *. lia. }
  unfold readLengthPrefixed. rewrite (io_bind_Ok _ _ _ _ _ E1).
  erewrite io_bind_Ok by (unfold of_outcome; rewrite parseHexInt_frame by lia; done).
  destruct (Z.eqb_spec (zlen d) 0) as [Hz|Hz].
  { destruct d; [|unfold zlen in Hz; simpl in Hz; lia]. exists c1. by split_and!. }
  rewrite (proj2 (Z.ltb_ge _ _)) by (unfold zlen; lia).
  unfold zlen. rewrite Nat2Z.id.
  destruct (ReadFull_feeds_app tl c1 d s (length d) Hf1 eq_refl) as (c2 & E2 & Hf2 & Hw2).
  exists c2. split_and!; [done | done | congruence].
Qed.

Lemma ReadStatus_feeds tl c status s :
  length status = 4%nat -> status <> StatusFail -> conn_feeds tl c (status ++ s) ->
  exists c', ReadStatus c = (Ok status, c') /\ conn_feeds tl c' s /\ written c' = written c.
Proof.
  intros Hl Hs Hf. destruct (ReadFull_feeds_app tl c status s 4 Hf Hl) as (c1 & E1 & Hf1 & Hw1).
  unfold ReadStatus. rewrite (io_bind_Ok _ _ _ _ _ E1), decide_False by done. by exists c1.
Qed.

Lemma ReadStatus_fail tl c msg s :
  zlen msg <= 65535 -> conn_feeds tl c (StatusFail ++ frame msg ++ s) ->
  exists c', ReadStatus c = (Err (Errorf (str "operation failed: " ++ msg)), c') /\
    conn_feeds tl c' s /\ written c' = written c.
Proof.
  intros Hm Hf. destruct (ReadFull_feeds_app tl c StatusFail _ 4 Hf eq_refl) as (c1 & E1 & Hf1 & Hw1).
  destruct (readLengthPrefixed_feeds tl c1 msg s Hm Hf1) as (c2 & E2 & Hf2 & Hw2).
  unfold ReadStatus. rewrite (io_bind_Ok _ _ _ _ _ E1), decide_True by done.
  rewrite (io_bind_Ok _ _ _ _ _ (attempt_Ok _ _ _ _ E2)). exists c2. split_and!; [done | done | congruence].
Qed.

(** The messages [readLengthPrefixed] cannot read before the stream ends: the
    length is cut, is no number, or promises more than there is. *)
Inductive unreadable : bytes -> Prop :=
  | unreadable_length s : (length s < 4)%nat -> unreadable s
  | unreadable_digits h s e : length h = 4%nat -> parseHexInt h = Err e -> unreadable (h ++ s)
  | unreadable_body h n s : length h = 4%nat -> parseHexInt h = Ok n -> zlen s < n -> unreadable (h ++ s).

Lemma readLengthPrefixed_unreadable c s :
  conn_feeds [] c s -> unreadable s -> exists e c', readLengthPrefixed c = (Err e, c') /\ written c' = written c.
Proof.
  intros Hf Hu. unfold readLengthPrefixed. destruct Hu as [s Hs|h s e Hl Hp|h n s Hl Hp Hn].
  - do 2 eexists. by rewrite (io_bind_Err _ _ _ _ _ (ReadFull_short _ _ _ Hf Hs)).
  - destruct (ReadFull_feeds_app [] c h s 4 Hf Hl) as (c1 & E1 & _ & Hw1).
    exists e, c1. by rewrite (io_bind_Ok _ _ _ _ _ E1), Hp.
  - destruct (ReadFull_feeds_app [] c h s 4 Hf Hl) as (c1 & E1 & Hf1 & Hw1).
    rewrite (io_bind_Ok _ _ _ _ _ E1), Hp. erewrite io_bind_Ok by done. unfold zlen in Hn.
    rewrite (proj2 (Z.eqb_neq _ _)), (proj2 (Z.ltb_ge _ _)) by lia.
    do 2 eexists. rewrite (ReadFull_short _ _ (Z.to_nat n) Hf1) by lia. done.
Qed.

(** A FAIL whose message cannot be read. *)
Lemma ReadStatus_unreadable c s :
  conn_feeds [] c (StatusFail ++ s) -> unreadable s ->
  exists c', ReadStatus c = (Err (Errorf (str "operation failed (unable to read error message)")), c') /\
    written c' = written c.
Proof.
  intros Hf Hu. destruct (ReadFull_feeds_app [] c StatusFail _ 4 Hf eq_refl) as (c1 & E1 & Hf1 & Hw1).
  destruct (readLengthPrefixed_unreadable c1 s Hf1 Hu) as (e & c2 & E2 & Hw2).
  unfold ReadStatus. rewrite (io_bind_Ok _ _ _ _ _ E1), decide_True by done.
  rewrite (io_bind_Ok _ _ _ _ _ (attempt_Err _ _ _ _ E2)). exists c2. split; [done | congruence].
Qed.

Lemma ReadStatus_short c s :
  conn_feeds [] c s -> (length s < 4)%nat ->
  ReadStatus c = (Err (match s with [] => EOF | _ => ErrUnexpectedEOF end), set_rd c []).
Proof. intros Hf Hs. unfold ReadStatus. by rewrite (io_bind_Err _ _ _ _ _ (ReadFull_short _ _ 4 Hf Hs)). Qed.

(** An error of [ReadStatus] is the error of every command. *)
Lemma commands_Err tl c cmd s e c' :
  conn_feeds tl c s -> ReadStatus (mkConn (rd c) [] (written c ++ frame cmd) false) = (Err e, c') ->
  SendCommand cmd c = (Err e, c') /\ ExecuteSimpleCommand cmd c = (Err e, c') /\
  ExecuteCommandWithResponse cmd c = (Err e, c').
Proof.
  intros Hf E. destruct (Write_feeds tl c _ (frame cmd) Hf) as [Ew _].
  assert (Es : SendCommand cmd c = (Err e, c')) by (unfold SendCommand; by rewrite (io_bind_Ok _ _ _ _ _ Ew)).
  unfold ExecuteSimpleCommand, ExecuteCommandWithResponse. by rewrite !(io_bind_Err _ _ _ _ _ Es).
Qed.

Lemma SendCommand_feeds tl c cmd status s :
  length status = 4%nat -> status <> StatusFail -> conn_feeds tl c (status ++ s) ->
  exists c', SendCommand cmd c = (Ok status, c') /\ conn_feeds tl c' s /\
    written c' = written c ++ frame cmd.
Proof.
  intros Hl Hs Hf. destruct (Write_feeds tl c _ (frame cmd) Hf) as [Ew Hf1].
  unfold SendCommand. rewrite (io_bind_Ok _ _ _ _ _ Ew).
  destruct (ReadStatus_feeds tl _ status s Hl Hs Hf1) as (c2 & E2 & Hf2 & Hw2). by exists c2.
Qed.

(** Reading leaves what was written alone. *)
Ltac same_log E := ret_inv E; unfold conn_log in *; congruence.

Lemma readLengthPrefixed_log c r c' : readLengthPrefixed c = (r, c') -> conn_log c' = conn_log c.
Proof.
  unfold readLengthPrefixed, mbind, io_bind. intros E. destruct (ReadFull 4 c) as [r1 c1] eqn:E1.
  apply ReadFull_log in E1. destruct r1 as [b| | |]; [|same_log E..]. unfold of_outcome in E.
  destruct (parseHexInt b); [|same_log E..].
  destruct (_ =? 0); [same_log E|]. destruct (_ <? 0); [same_log E|].
  apply ReadFull_log in E. congruence.
Qed.

Lemma ReadStatus_log c r c' : ReadStatus c = (r, c') -> conn_log c' = conn_log c.
Proof.
  unfold ReadStatus, mbind, io_bind. intros E. destruct (ReadFull 4 c) as [r1 c1] eqn:E1.
  apply ReadFull_log in E1. destruct r1 as [b| | |]; [|same_log E..].
  destruct (decide _); [|same_log E]. unfold attempt in E.
  destruct (readLengthPrefixed c1) as [r2 c2] eqn:E2. apply readLengthPrefixed_log in E2.
  destruct r2; same_log E.
Qed.

Lemma command_written cmd c r c' :
  wr_plan c = [] -> conn_closed c = false ->
  SendCommand cmd c = (r, c') \/ sendADBCommand cmd c = (r, c') ->
  written c' = written c ++ frame cmd.
Proof.
  intros Hw Hc E.
  assert (Ew : Write (frame cmd) c = (Ok tt, mkConn (rd c) [] (written c ++ frame cmd) false))
    by (unfold Write, WriteN, mbind, io_bind; by rewrite Hc, Hw).
  destruct E as [E|E]; [unfold SendCommand in E | unfold sendADBCommand in E];
    rewrite (io_bind_Ok _ _ _ _ _ Ew) in E.
  - apply ReadStatus_log in E. by inversion E.
  - unfold mbind, io_bind in E. destruct (Read 4 _) as [r1 c1] eqn:E1. apply Read_log in E1.
    destruct r1; ret_inv E; by inversion E1.
Qed.

(** ** Properties *)

(** Framing round trip: what [sendADBCommand] and [SendCommand] put on the wire for
    a text of up to 65535 bytes is read back by [readLengthPrefixed] as that
    text, however the network fragments it, and the bytes after it are left
    for the next read. *)
Theorem frame_roundtrip cmd c r c' :
  zlen cmd <= 65535 -> wr_plan c = [] -> conn_closed c = false ->
  SendCommand cmd c = (r, c') \/ sendADBCommand cmd c = (r, c') ->
  exists sent, written c' = written c ++ sent /\
    forall tl peer s, conn_feeds tl peer (sent ++ s) ->
      exists peer', readLengthPrefixed peer = (Ok cmd, peer') /\ conn_feeds tl peer' s.
Proof.
  intros Hl Hw Hc E. exists (frame cmd). split; [by eapply command_written|].
  intros tl peer s Hf. destruct (readLengthPrefixed_feeds tl peer cmd s Hl Hf) as (p' & ? & ? & _).
  by exists p'.
Qed.

(** C30. Replies of [SendCommand] and what is built on it, when the request is
    written in full and under every fragmentation of the reply: the request is
    framed and written once; a FAIL with a message becomes an error that carries
    it; a FAIL whose message cannot be read before the end of the stream - cut,
    not a number, too short - becomes the error that says so; a status cut short
    is the end-of-file error; with any other four-byte status, OKAY or not,
    [SendCommand] returns it, [ExecuteSimpleCommand] succeeds and
    [ExecuteCommandWithResponse] returns everything up to the end of the stream
    (its comment promises an error unless the status is OKAY). *)
Theorem command_replies c cmd :
  (forall tl msg s, zlen msg <= 65535 -> conn_feeds tl c (StatusFail ++ frame msg ++ s) ->
     exists c', written c' = written c ++ frame cmd /\ conn_feeds tl c' s /\
       ExecuteSimpleCommand cmd c = (Err (Errorf (str "operation failed: " ++ msg)), c') /\
       ExecuteCommandWithResponse cmd c = (Err (Errorf (str "operation failed: " ++ msg)), c')) /\
  (forall s, unreadable s -> conn_feeds [] c (StatusFail ++ s) ->
     exists c', written c' = written c ++ frame cmd /\
       let e := Errorf (str "operation failed (unable to read error message)") in
       ExecuteSimpleCommand cmd c = (Err e, c') /\ ExecuteCommandWithResponse cmd c = (Err e, c')) /\
  (forall s, (length s < 4)%nat -> conn_feeds [] c s ->
     exists c', written c' = written c ++ frame cmd /\
       let e := match s with [] => EOF | _ => ErrUnexpectedEOF end in
       ExecuteSimpleCommand cmd c = (Err e, c') /\ ExecuteCommandWithResponse cmd c = (Err e, c')) /\
  (forall tl status s, length status = 4%nat -> status <> StatusFail -> conn_feeds tl c (status ++ s) ->
     exists c', written c' = written c ++ frame cmd /\ conn_feeds tl c' s /\
       SendCommand cmd c = (Ok status, c') /\ ExecuteSimpleCommand cmd c = (Ok tt, c')) /\
  (forall status s, length status = 4%nat -> status <> StatusFail -> conn_feeds [] c (status ++ s) ->
     exists c', written c' = written c ++ frame cmd /\ ExecuteCommandWithResponse cmd c = (Ok s, c')).
Proof.
  split_and!.
  - intros tl msg s Hm Hf. destruct (Write_feeds tl c _ (frame cmd) Hf) as [_ Hf1].
    destruct (ReadStatus_fail tl _ msg s Hm Hf1) as (c2 & E2 & Hf2 & Hw2).
    exists c2. by destruct (commands_Err _ _ _ _ _ _ Hf E2) as (_ & ? & ?).
  - intros s Hu Hf. destruct (Write_feeds [] c _ (frame cmd) Hf) as [_ Hf1].
    destruct (ReadStatus_unreadable _ s Hf1 Hu) as (c2 & E2 & Hw2).
    exists c2. by destruct (commands_Err _ _ _ _ _ _ Hf E2) as (_ & ? & ?).
  - intros s Hs Hf. destruct (Write_feeds [] c _ (frame cmd) Hf) as [_ Hf1].
    pose proof (ReadStatus_short _ _ Hf1 Hs) as E2. destruct (commands_Err _ _ cmd _ _ _ Hf E2) as (_ & H1 & H2).
    eexists. split; [|split; [exact H1 | exact H2]]. done.
  - intros tl status s Hl Hs Hf. destruct (SendCommand_feeds tl c cmd status s Hl Hs Hf) as (c' & E & Hf' & Hw).
    exists c'. split_and!; [done..|]. unfold ExecuteSimpleCommand.
    by rewrite (io_bind_Ok _ _ _ _ _ E), decide_False.
  - intros status s Hl Hs Hf. destruct (SendCommand_feeds [] c cmd status s Hl Hs Hf) as (c' & E & Hf' & Hw).
    exists (set_rd c' []). split; [done|]. unfold ExecuteCommandWithResponse.
    rewrite (io_bind_Ok _ _ _ _ _ E), decide_False by done. unfold ReadAllOrErr.
    by rewrite (io_bind_Ok _ _ _ _ _ (ReadAll_feeds c' s Hf')).
Qed.

(** The short-read defect: [sendADBCommand] reads its status with a single [Read],
    so an OKAY that arrives in fragments is not recognised - the status comes
    back padded with zero bytes, and the rest of the OKAY is taken for the
    payload that follows. *)
Theorem sendADBCommand_short_read c cmd k r :
  (0 < k < 4)%nat -> rd c = RChunk (take k StatusOkay) :: r -> wr_plan c = [] -> conn_closed c = false ->
  exists c', sendADBCommand cmd c = (Ok (take k StatusOkay ++ replicate (4 - k) x00), c') /\
    take k StatusOkay ++ replicate (4 - k) x00 <> StatusOkay /\ rd c' = r.
Proof.
  intros Hk Hr Hw Hc. eexists. split_and!.
  - unfold sendADBCommand, Write, WriteN, mbind, io_bind. rewrite Hc, Hw.
    unfold mret, io_ret, Read. simpl. rewrite Hr, decide_True by (rewrite length_take; simpl; lia).
    rewrite length_take. replace (k `min` length StatusOkay)%nat with k by (simpl; lia). done.
  - destruct k as [|[|[|[|]]]]; try lia; by vm_compute.
  - done.
Qed.

(** A length prefix with a sign: [strconv.ParseInt] accepts one, so a peer that
    sends [-001] makes [readLengthPrefixed] allocate a negative length, which
    panics. *)
Theorem readLengthPrefixed_negative tl c s :
  conn_feeds tl c (str "-001" ++ s) -> (readLengthPrefixed c).1 = Panic.
Proof.
  intros Hf. destruct (ReadFull_feeds_app tl c _ _ 4 Hf eq_refl) as (c1 & E1 & _ & _).
  unfold readLengthPrefixed. rewrite (io_bind_Ok _ _ _ _ _ E1). by vm_compute.
Qed.

(** ** Instances *)

Definition ex_fail : conn :=
  mkConn [RChunk (str "FA"); RChunk (str "IL0003"); RChunk (str "bad")] [] [] false.

Lemma ex_fail_feeds : conn_feeds [] ex_fail (StatusFail ++ frame (str "bad") ++ []).
Proof.
  split_and!; [|reflexivity..].
  change (StatusFail ++ frame (str "bad") ++ []) with (str "FA" ++ str "IL0003" ++ str "bad" ++ []).
  repeat constructor.
Qed.

Lemma frame_roundtrip_witness :
  exists sent, written (SendCommand (str "host:version") ex_fail).2 = sent /\
    forall tl peer s, conn_feeds tl peer (sent ++ s) ->
      exists peer', readLengthPrefixed peer = (Ok (str "host:version"), peer') /\ conn_feeds tl peer' s.
Proof.
  destruct (frame_roundtrip (str "host:version") ex_fail (SendCommand (str "host:version") ex_fail).1
    (SendCommand (str "host:version") ex_fail).2) as (sent & E & H).
  - vm_compute. discriminate.
  - reflexivity.
  - reflexivity.
  - left. apply surjective_pairing.
  - exists sent. split; [exact E | exact H].
Defined.

Lemma command_replies_witness :
  exists c', ExecuteSimpleCommand (str "reboot:") ex_fail
    = (Err (Errorf (str "operation failed: bad")), c').
Proof.
  destruct (command_replies ex_fail (str "reboot:")) as [H _].
  destruct (H [] (str "bad") []) as (c' & _ & _ & E & _).
  - vm_compute. discriminate.
  - exact ex_fail_feeds.
  - exists c'. exact E.
Defined.

Lemma sendADBCommand_short_read_witness :
  exists c', sendADBCommand (str "host:version") (mkConn [RChunk (str "OK"); RChunk (str "AY")] [] [] false)
    = (Ok (str "OK" ++ [x00; x00]), c') /\ str "OK" ++ [x00; x00] <> StatusOkay /\ rd c' = [RChunk (str "AY")].
Proof. apply (sendADBCommand_short_read _ (str "host:version") 2 [RChunk (str "AY")]); [lia | reflexivity..]. Defined.

Lemma readLengthPrefixed_negative_witness :
  (readLengthPrefixed (mkConn [RChunk (str "-001")] [] [] false)).1 = Panic.
Proof.
  apply (readLengthPrefixed_negative [] _ []). split_and!; [|reflexivity..]. repeat constructor.
Defined.
