(* ===== verification/World.v ===== *)
(** * Dialling the ADB server: adb/client.go

    Operations of the client run in a [world]: what further dials will return,
    every connection opened so far (a handle is a position in that list), the
    addresses dialled and the processes started.  The [Connector] interface of
    the Go code is a type class; what the rest of the client relies on is a
    second class, [ConnectorLaws], which both implementations satisfy. *)

From stdpp Require Import base list numbers.
From Stdlib Require Import ZArith Lia.
From S2P Require Import Prelude GoStrings GoNet.

Local Open Scope Z_scope.

Record world := mkWorld {
  dials : list (conn + goerror);
  conns : list conn;
  dialled : list bytes;
  ran : list (list bytes)
}.

Definition refused : goerror := NetError (str "connection refused").

(** [net.Dialer.DialContext(ctx, "tcp", addr)] *)
Definition Dial (addr : bytes) : io world nat := fun w =>
  match dials w with
  | [] => (Err refused, mkWorld [] (conns w) (dialled w ++ [addr]) (ran w))
  | inr e :: r => (Err e, mkWorld r (conns w) (dialled w ++ [addr]) (ran w))
  | inl c :: r => (Ok (length (conns w)), mkWorld r (conns w ++ [c]) (dialled w ++ [addr]) (ran w))
  end.

(** [_ = exec.Command(argv...).Run()] *)
Definition Run (argv : list bytes) : io world unit := fun w =>
  (Ok tt, mkWorld (dials w) (conns w) (dialled w) (ran w ++ [argv])).

Definition set_conn (h : nat) (c : conn) (w : world) : world :=
  mkWorld (dials w) (<[h := c]> (conns w)) (dialled w) (ran w).

(** An operation of the connection behind a handle. *)
Definition on_conn {A} (h : nat) (m : io conn A) : io world A := fun w =>
  match conns w !! h with
  | Some c => let '(r, c') := m c in (r, set_conn h c' w)
  | None => (Panic, w)
  end.

(** ** Connectors *)

Class Connector (C : Type) := ConnectionContext : C -> io world nat.

Record connectorImpl := mkConnector { host : bytes; port : Z }.

Definition addr (c : connectorImpl) : bytes := host c ++ str ":" ++ fmt_d (port c).

#[global] Instance connectorImpl_Connector : Connector connectorImpl := fun c => Dial (addr c).

Record autoStartConnector := mkAutoStart { base : connectorImpl; bin : bytes }.

#[global] Instance autoStart_Connector : Connector autoStartConnector := fun c =>
  r ← attempt (ConnectionContext (base c));
  match r with
  | inl h => mret h
  | inr _ => _ ← Run [bin c; str "start-server"]; ConnectionContext (base c)
  end.

(** ** Construction of the default connector *)

Record ClientOptions := mkOptions { opt_Host : bytes; opt_Port : Z; opt_Bin : bytes }.

(** [defaultADBName] *)
Definition defaultADBName (windows : bool) : bytes :=
  if windows then str "adb.exe" else str "adb".

(** [getEnvOrDefault] *)
Definition getEnvOrDefault (getenv : bytes -> bytes) (envVar defaultVal : bytes) : bytes :=
  match getenv envVar with [] => defaultVal | v => v end.

(** [NewClientWithOptions]; the environment and the platform are arguments. *)
Definition NewClientWithOptions (getenv : bytes -> bytes) (windows : bool) (opts : ClientOptions)
  : autoStartConnector :=
  let h := match opt_Host opts with
           | [] => getEnvOrDefault getenv (str "ANDROID_ADB_SERVER_HOST") (str "127.0.0.1")
           | h => h
           end in
  let p := if opt_Port opts =? 0 then
             match getenv (str "ANDROID_ADB_SERVER_PORT") with
             | [] => 5037
             | s => match Atoi s with Ok n => n | _ => 5037 end
             end
           else opt_Port opts in
  let b := match opt_Bin opts with [] => defaultADBName windows | b => b end in
  mkAutoStart (mkConnector h p) b.

(** [NewClient] *)
Definition NewClient (getenv : bytes -> bytes) (windows : bool) : autoStartConnector :=
  NewClientWithOptions getenv windows (mkOptions [] 0 []).

(** ** What calls leave behind

    [tidy]: every connection the call opened is closed when it returns, and the
    connections that were there before are untouched.  [opens]: a successful
    call returns the handle of the one connection it leaves open; a failed one
    is tidy.  [local h]: only connection [h] is used. *)

Definition all_closed (cs : list conn) : Prop := Forall (fun c => conn_closed c = true) cs.

Definition tidy {A} (m : io world A) : Prop :=
  forall w r w', m w = (r, w') -> returns r ->
    exists cs, conns w' = conns w ++ cs /\ all_closed cs.

Definition opens (m : io world nat) : Prop :=
  forall w r w', m w = (r, w') -> returns r ->
    exists cs, all_closed cs /\
      match r with
      | Ok h => exists c, conns w' = conns w ++ cs ++ [c] /\ h = (length (conns w) + length cs)%nat
      | _ => conns w' = conns w ++ cs
      end.

Definition local {A} (h : nat) (m : io world A) : Prop :=
  forall w r w', m w = (r, w') -> (h < length (conns w))%nat ->
    exists c, conns w' = <[h := c]> (conns w).

(** What a connector promises to the rest of the client. *)
Class ConnectorLaws (C : Type) `{Connector C} := {
  connector_opens : forall k, opens (ConnectionContext k);
  connector_total : forall k w, returns (ConnectionContext k w).1
}.

(** ** Laws of the combinators *)

Lemma tidy_ret {A} (a : A) : tidy (mret a).
Proof. intros w r w' E _. ret_inv E. exists []. rewrite app_nil_r. split; [done | constructor]. Qed.

Lemma tidy_fail {A} e : tidy (fail e : io world A).
Proof. intros w r w' E _. ret_inv E. exists []. rewrite app_nil_r. split; [done | constructor]. Qed.

Lemma tidy_outcome {A} (o : outcome A) : tidy (of_outcome o).
Proof. intros w r w' E _. unfold of_outcome in E. simplify_eq. exists []. rewrite app_nil_r. split; [done | constructor]. Qed.

Lemma all_closed_app a b : all_closed (a ++ b) <-> all_closed a /\ all_closed b.
Proof. apply Forall_app. Qed.

Lemma tidy_bind {A B} (m : io world A) (f : A -> io world B) :
  tidy m -> (forall a, tidy (f a)) -> tidy (m ≫= f).
Proof.
  intros Hm Hf w r w' E Hr. unfold mbind, io_bind in E. destruct (m w) as [[a| | |] w1] eqn:E1; simplify_eq; try done.
  - destruct (Hm _ _ _ E1 I) as (c1 & H1 & Hc1). destruct (Hf a _ _ _ E Hr) as (c2 & H2 & Hc2).
    exists (c1 ++ c2). split; [by rewrite H2, H1, app_assoc | by apply all_closed_app].
  - by apply (Hm _ _ _ E1).
Qed.

Lemma tidy_attempt {A} (m : io world A) : tidy m -> tidy (attempt m).
Proof.
  intros Hm w r w' E Hr. unfold attempt in E. destruct (m w) as [[a| | |] w1] eqn:E1; simplify_eq; try done;
    by apply (Hm _ _ _ E1).
Qed.

Lemma local_conn {A} h (m : io conn A) : local h (on_conn h m).
Proof.
  intros w r w' E Hh. unfold on_conn in E. destruct (lookup_lt_is_Some_2 _ _ Hh) as [c Hc].
  rewrite Hc in E. destruct (m c) as [r1 c1]. simplify_eq. by exists c1.
Qed.

Lemma local_ret {A} h (a : A) : local h (mret a).
Proof.
  intros w r w' E Hh. ret_inv E. destruct (lookup_lt_is_Some_2 _ _ Hh) as [c Hc].
  exists c. by rewrite list_insert_id.
Qed.

Lemma local_fail {A} h e : local h (fail e : io world A).
Proof.
  intros w r w' E Hh. ret_inv E. destruct (lookup_lt_is_Some_2 _ _ Hh) as [c Hc].
  exists c. by rewrite list_insert_id.
Qed.

Lemma local_bind {A B} h (m : io world A) (f : A -> io world B) :
  local h m -> (forall a, local h (f a)) -> local h (m ≫= f).
Proof.
  intros Hm Hf w r w' E Hh. unfold mbind, io_bind in E. destruct (m w) as [[a| | |] w1] eqn:E1.
  - destruct (Hm _ _ _ E1 Hh) as [c1 H1]. destruct (Hf a _ _ _ E) as [c2 H2].
    { by rewrite H1, length_insert. }
    exists c2. by rewrite H2, H1, list_insert_insert_eq.
  - simplify_eq. by apply (Hm _ _ _ E1).
  - simplify_eq. by apply (Hm _ _ _ E1).
  - simplify_eq. by apply (Hm _ _ _ E1).
Qed.

Lemma local_attempt {A} h (m : io world A) : local h m -> local h (attempt m).
Proof.
  intros Hm w r w' E Hh. unfold attempt in E.
  destruct (m w) as [[a| | |] w1] eqn:E1; simplify_eq; by apply (Hm _ _ _ E1).
Qed.

Lemma insert_snoc {A} (l : list A) x y : <[length l := y]> (l ++ [x]) = l ++ [y].
Proof. by rewrite insert_app_r_alt, Nat.sub_diag by done. Qed.

(** The handle [opens] returns is the last connection. *)
Lemma opens_last m w h w' :
  opens m -> m w = (Ok h, w') -> exists cs c, conns w' = (conns w ++ cs) ++ [c] /\
    h = length (conns w ++ cs) /\ all_closed cs.
Proof.
  intros Hm E. destruct (Hm _ _ _ E I) as (cs & Hcs & c & H & ->). exists cs, c.
  by rewrite H, app_assoc, length_app.
Qed.

Lemma on_conn_Close_last l c w :
  conns w = l ++ [c] -> exists c', conns (on_conn (length l) Close w).2 = l ++ [c'] /\ conn_closed c' = true.
Proof.
  intros H. unfold on_conn. rewrite H, lookup_app_r, Nat.sub_diag by done. simpl.
  destruct (Close c) as [r c'] eqn:E. simpl. rewrite H, insert_snoc. exists c'.
  split; [done|]. by eapply Close_closes.
Qed.

Lemma local_last {A} (m : io world A) l c w r w' :
  local (length l) m -> conns w = l ++ [c] -> m w = (r, w') -> exists c', conns w' = l ++ [c'].
Proof.
  intros Hm Hw E. destruct (Hm _ _ _ E) as [c' H]; [rewrite Hw, length_app; simpl; lia|].
  exists c'. by rewrite H, Hw, insert_snoc.
Qed.

(** [conn, err := open(); defer conn.Close(); body] *)
Lemma tidy_with {A} (m : io world nat) (body : nat -> io world A) :
  opens m -> (forall h, local h (body h)) ->
  tidy (h ← m; defer (on_conn h Close) (body h)).
Proof.
  intros Hm Hb w r w' E Hr. unfold mbind, io_bind in E. destruct (m w) as [[h|e| |] w1] eqn:E1; simplify_eq; try done.
  - destruct (opens_last _ _ _ _ Hm E1) as (cs & c & H1 & -> & Hcs).
    unfold defer in E. destruct (body _ w1) as [r2 w2] eqn:E2.
    destruct (local_last _ _ _ _ _ _ (Hb _) H1 E2) as [c2 H2].
    destruct (on_conn_Close_last _ _ _ H2) as (c3 & H3 & Hc3).
    exists (cs ++ [c3]). split; [|apply all_closed_app; split; [done | by constructor]].
    rewrite app_assoc, <- H3. by destruct r2; simplify_eq.
  - by destruct (Hm _ _ _ E1 I) as (cs & Hcs & H); exists cs.
Qed.

(** [conn, err := open(); if err := body(conn); err != nil { conn.Close(); return err }; return conn] *)
Lemma opens_on_error {A} (m : io world nat) (body : nat -> io world A) :
  opens m -> (forall h, local h (body h)) ->
  opens (h ← m; _ ← on_error (body h) (on_conn h Close); mret h).
Proof.
  intros Hm Hb w r w' E Hr. unfold mbind, io_bind in E. destruct (m w) as [[h|e| |] w1] eqn:E1; simplify_eq; try done.
  - destruct (opens_last _ _ _ _ Hm E1) as (cs & c & H1 & -> & Hcs).
    unfold on_error in E. destruct (body _ w1) as [r2 w2] eqn:E2.
    destruct (local_last _ _ _ _ _ _ (Hb _) H1 E2) as [c2 H2].
    destruct r2 as [a|e| |]; ret_inv E; try done.
    + exists cs. split; [done|]. exists c2. by rewrite H2, app_assoc, length_app.
    + destruct (on_conn_Close_last _ _ _ H2) as (c3 & H3 & Hc3).
      exists (cs ++ [c3]). split; [apply all_closed_app; split; [done | by constructor]|].
      by rewrite H3, app_assoc.
  - by destruct (Hm _ _ _ E1 I) as (cs & Hcs & H); exists cs.
Qed.

#[export] Hint Resolve tidy_ret tidy_fail tidy_outcome tidy_bind tidy_attempt tidy_with
  local_conn local_ret local_fail local_bind local_attempt opens_on_error : adb.

(** ** The two connectors satisfy the laws *)

Lemma Dial_opens a : opens (Dial a).
Proof.
  intros w r w' E _. unfold Dial in E. exists []. destruct (dials w) as [|[c|e] d]; simplify_eq; simpl;
    (split; [constructor|]); rewrite ?app_nil_r; try done.
  exists c. by rewrite Nat.add_0_r.
Qed.

#[global] Instance connectorImpl_laws : ConnectorLaws connectorImpl.
Proof.
  split; [intros k; apply Dial_opens|]. intros k w. unfold ConnectionContext, connectorImpl_Connector, Dial.
  by destruct (dials w) as [|[]].
Qed.

(** A failed dial leaves the connections as they were. *)
Lemma Dial_Err a w e w' : Dial a w = (Err e, w') -> conns w' = conns w.
Proof. unfold Dial. by destruct (dials w) as [|[]]; intros; simplify_eq. Qed.

#[global] Instance autoStart_laws : ConnectorLaws autoStartConnector.
Proof.
  split.
  - intros k w r w' E Hr. unfold ConnectionContext, autoStart_Connector, attempt, mbind, io_bind in E.
    destruct (ConnectionContext (base k) w) as [[h|e| |] w1] eqn:E1; ret_inv E; try done.
    + by apply (connector_opens _ _ _ _ E1).
    + apply Dial_Err in E1. unfold Run in E. simpl in E.
      destruct (connector_opens (base k) _ _ _ E Hr) as (cs & Hcs & H). exists cs. split; [done|].
      simpl in H. by rewrite E1 in H.
  - intros k w. unfold ConnectionContext, autoStart_Connector, attempt, mbind, io_bind.
    pose proof (connector_total (base k) w) as Ht.
    destruct (ConnectionContext (base k) w) as [[h|e| |] w1]; try done.
    simpl. apply connector_total.
Qed.
