(* ===== verification/Client.v ===== *)
(** * The client: host requests, device transports and shells

    adb/client_commands.go (SendHostCommandContext), adb/device_descriptor.go,
    adb/device_transport.go (the parts that dial) and adb/device_shell.go, all
    over an arbitrary [Connector] that keeps the laws of World.v. *)

From stdpp Require Import base list numbers.
From Stdlib Require Import ZArith Lia.
From S2P Require Import Prelude GoStrings GoNet Connection World.

Local Open Scope Z_scope.

(** ** Contexts *)

(** What a [context.Context] answers during one call: the error [ctx.Err()]
    reports when it is asked, the error [SetDeadline] returns, and the error of
    a context that ends before a pending read does. *)
Record ctx := mkCtx {
  ctx_Err : option goerror;
  ctx_SetDeadline : option goerror;
  ctx_Done : option goerror
}.

Definition Background : ctx := mkCtx None None None.

(** ** Device descriptors *)

(** The four values of the Go constants; the fields are private to the package
    and no other value is ever stored. *)
Inductive DeviceDescriptorType := DeviceAny | DeviceSerial | DeviceUsb | DeviceLocal.

#[global] Instance descriptor_type_eq_dec : EqDecision DeviceDescriptorType.
Proof. solve_decision. Defined.

Record DeviceDescriptor := mkDescriptor { descriptorType : DeviceDescriptorType; serial : bytes }.

Definition AnyDevice : DeviceDescriptor := mkDescriptor DeviceAny [].
Definition AnyUsbDevice : DeviceDescriptor := mkDescriptor DeviceUsb [].
Definition AnyLocalDevice : DeviceDescriptor := mkDescriptor DeviceLocal [].
Definition DeviceWithSerial (s : bytes) : DeviceDescriptor := mkDescriptor DeviceSerial s.

(** [DeviceDescriptorType.String] *)
Definition DescriptorType_String (t : DeviceDescriptorType) : bytes :=
  match t with
  | DeviceAny => str "DeviceAny"
  | DeviceSerial => str "DeviceSerial"
  | DeviceUsb => str "DeviceUsb"
  | DeviceLocal => str "DeviceLocal"
  end.

(** [DeviceDescriptor.String]; [Device.String] is the same on the device's
    descriptor. *)
Definition Descriptor_String (d : DeviceDescriptor) : bytes :=
  match descriptorType d with
  | DeviceSerial => DescriptorType_String (descriptorType d) ++ str "[" ++ serial d ++ str "]"
  | t => DescriptorType_String t
  end.

(** [getHostPrefix] *)
Definition getHostPrefix (d : DeviceDescriptor) : bytes :=
  match descriptorType d with
  | DeviceAny => str "host"
  | DeviceUsb => str "host-usb"
  | DeviceLocal => str "host-local"
  | DeviceSerial => str "host-serial:" ++ serial d
  end.

(** [getTransportDescriptor] *)
Definition getTransportDescriptor (d : DeviceDescriptor) : bytes :=
  match descriptorType d with
  | DeviceAny => str "transport-any"
  | DeviceUsb => str "transport-usb"
  | DeviceLocal => str "transport-local"
  | DeviceSerial => str "transport:" ++ serial d
  end.

(** ** Requests on one connection *)

(** The body of [SendHostCommandContext] once the connection is open. *)
Definition host_command (x : ctx) (cmd : bytes) : io conn bytes :=
  _ ← (match ctx_SetDeadline x with Some e => fail e | None => mret tt end);
  r ← attempt (sendADBCommand cmd);
  match r with
  | inr e => fail (match ctx_Err x with Some ce => ce | None => e end)
  | inl status =>
      if decide (status = StatusFail) then
        payload ← readLengthPrefixed_or_empty;
        fail (Errorf (str "adb server FAIL: " ++ payload))
      else
        p ← attempt readLengthPrefixed;
        match p with
        | inl payload => mret payload
        | inr e =>
            if is_net_error e then fail e
            else
              '(rest, _) ← ReadAll;
              match ctx_Err x with Some ce => fail ce | None => mret rest end
        end
  end.

(** The body of [TransportContext]: select the device. *)
Definition select_device (d : DeviceDescriptor) : io conn unit :=
  status ← sendADBCommand (str "host:" ++ getTransportDescriptor d);
  if decide (status = StatusOkay) then mret tt
  else
    payload ← readLengthPrefixed_or_empty;
    fail (Errorf (str "device selection failed: " ++ payload)).

Definition unexpected_status (status : bytes) : goerror :=
  Errorf (str "unexpected status: " ++ status).

(** The body of [ShellContext]. *)
Definition open_shell (command : bytes) : io conn unit :=
  status ← SendCommand (str "shell:" ++ command);
  if decide (status = StatusOkay) then mret tt else fail (unexpected_status status).

(** [readAllWithContext] *)
Definition readAllWithContext (x : ctx) : io conn bytes :=
  match ctx_Done x with
  | Some e => _ ← attempt Close; fail e
  | None => ReadAllOrErr
  end.

(** [ReadAllFromConn] *)
Definition ReadAllFromConn : io conn bytes := defer Close ReadAllOrErr.

Section client.
Context {C : Type} `{!Connector C} (client : C).

(** [SendHostCommandContext] *)
Definition SendHostCommandContext (x : ctx) (cmd : bytes) : io world bytes :=
  h ← ConnectionContext client;
  defer (on_conn h Close) (on_conn h (host_command x cmd)).

(** [SendHostCommand]; [x] is the context of its thirty seconds. *)
Definition SendHostCommand (x : ctx) (cmd : bytes) : io world bytes := SendHostCommandContext x cmd.

(** [TransportContext]; its context only bounds the dial. *)
Definition TransportContext (d : DeviceDescriptor) : io world nat :=
  h ← ConnectionContext client;
  _ ← on_error (on_conn h (select_device d)) (on_conn h Close);
  mret h.

(** [Device.Transport] *)
Definition Transport (d : DeviceDescriptor) : io world nat := TransportContext d.

(** [executeTransportCommand] *)
Definition executeTransportCommand (d : DeviceDescriptor) (cmd : bytes) : io world unit :=
  h ← Transport d;
  defer (on_conn h Close) (on_conn h (ExecuteSimpleCommand cmd)).

(** [executeTransportCommandWithResponse] *)
Definition executeTransportCommandWithResponse (d : DeviceDescriptor) (cmd : bytes) : io world bytes :=
  h ← Transport d;
  defer (on_conn h Close) (on_conn h (ExecuteCommandWithResponse cmd)).

(** [openTransportConnection] *)
Definition openTransportConnection (d : DeviceDescriptor) (cmd : bytes) : io world nat :=
  h ← Transport d;
  _ ← on_error (on_conn h (ExecuteSimpleCommand cmd)) (on_conn h Close);
  mret h.

(** [ShellContext] *)
Definition ShellContext (d : DeviceDescriptor) (command : bytes) : io world nat :=
  h ← TransportContext d;
  _ ← on_error (on_conn h (open_shell command)) (on_conn h Close);
  mret h.

(** [Shell] *)
Definition Shell (d : DeviceDescriptor) (command : bytes) : io world nat := ShellContext d command.

(** [RunCommandContext] *)
Definition RunCommandContext (x : ctx) (d : DeviceDescriptor) (command : bytes) : io world bytes :=
  h ← ShellContext d command;
  defer (on_conn h Close) (on_conn h (readAllWithContext x)).

Definition RunCommand : DeviceDescriptor -> bytes -> io world bytes := RunCommandContext Background.

(** ** Lemmas *)

Context `{!ConnectorLaws C}.

Lemma TransportContext_opens d : opens (TransportContext d).
Proof. apply opens_on_error; [apply connector_opens | auto with adb]. Qed.

Lemma openTransportConnection_opens d cmd : opens (openTransportConnection d cmd).
Proof. apply opens_on_error; [apply TransportContext_opens | auto with adb]. Qed.

Lemma ShellContext_opens d cmd : opens (ShellContext d cmd).
Proof. apply opens_on_error; [apply TransportContext_opens | auto with adb]. Qed.

Lemma SendHostCommandContext_tidy x cmd : tidy (SendHostCommandContext x cmd).
Proof. apply tidy_with; [apply connector_opens | auto with adb]. Qed.

Lemma SendHostCommand_tidy x cmd : tidy (SendHostCommand x cmd).
Proof. apply SendHostCommandContext_tidy. Qed.

Lemma executeTransportCommand_tidy d cmd : tidy (executeTransportCommand d cmd).
Proof. apply tidy_with; [apply TransportContext_opens | auto with adb]. Qed.

Lemma executeTransportCommandWithResponse_tidy d cmd :
  tidy (executeTransportCommandWithResponse d cmd).
Proof. apply tidy_with; [apply TransportContext_opens | auto with adb]. Qed.

Lemma RunCommandContext_tidy x d cmd : tidy (RunCommandContext x d cmd).
Proof. apply tidy_with; [apply ShellContext_opens | auto with adb]. Qed.

(** A dial that returns connection [c] and leaves everything else alone. *)
Definition dials_to (w : world) (c : conn) : Prop :=
  exists w', ConnectionContext client w = (Ok (length (conns w)), w') /\ conns w' = conns w ++ [c].

(** Run a connection operation on the connection just dialled. *)
Lemma on_conn_last {A} (m : io conn A) w l c r c' :
  conns w = l ++ [c] -> m c = (r, c') ->
  exists w', on_conn (length l) m w = (r, w') /\ conns w' = l ++ [c'].
Proof.
  intros Hw E. unfold on_conn. rewrite Hw, lookup_app_r, Nat.sub_diag by done. simpl. rewrite E.
  eexists. split; [done|]. simpl. by rewrite Hw, insert_snoc.
Qed.

Lemma defer_Close_last {A} (m : io conn A) w l c r c' :
  conns w = l ++ [c] -> m c = (r, c') -> returns r ->
  exists w' c'', defer (on_conn (length l) Close) (on_conn (length l) m) w = (r, w') /\
    conns w' = l ++ [c''] /\ conn_closed c'' = true /\ written c'' = written c'.
Proof.
  intros Hw E Hr. destruct (on_conn_last m w l c r c' Hw E) as (w1 & E1 & H1).
  destruct (Close c') as [r2 c2] eqn:E2. destruct (on_conn_last Close w1 l c' r2 c2 H1 E2) as (w2 & E3 & H2).
  exists w2, c2. unfold defer. rewrite E1, E3. split_and!; [by destruct r | done | by eapply Close_closes |].
  unfold Close in E2. by destruct (conn_closed c'); simplify_eq.
Qed.

(** [replies c status evs]: the first [Read] of the four status bytes on [c]
    delivers all of them - with or without more in the same segment - and [evs]
    are the events still to come; requests are written in full.  A status split
    over two segments is what [sendADBCommand] does not handle. *)
Definition replies (c : conn) (status : bytes) (evs : list rd_event) : Prop :=
  Read 4 c = (Ok status, set_rd c evs) /\ length status = 4%nat /\ wr_plan c = [] /\ conn_closed c = false.

Lemma sendADBCommand_replies c status evs cmd :
  replies c status evs ->
  sendADBCommand cmd c = (Ok status, mkConn evs [] (written c ++ frame cmd) false).
Proof.
  intros (Hr & Hl & Hw & Hc). unfold sendADBCommand, Write, WriteN, mbind, io_bind. rewrite Hc, Hw.
  unfold mret, io_ret. unfold Read in *. cbn [conn_closed rd wr_plan written] in *. rewrite Hc in Hr.
  rewrite decide_False in * by done. destruct (rd c) as [|[bs|e] r]; [done| |done].
  destruct (decide (length bs <= 4)%nat); simplify_eq; simpl; by rewrite Hl, app_nil_r.
Qed.

(** The connection obtained by selecting a device, when the server accepts. *)
Lemma TransportContext_ok w c d evs :
  dials_to w c -> replies c StatusOkay evs ->
  exists w', TransportContext d w = (Ok (length (conns w)), w') /\
    conns w' = conns w ++ [mkConn evs [] (written c ++ frame (str "host:" ++ getTransportDescriptor d)) false].
Proof.
  intros (w1 & E1 & H1) Hr. unfold TransportContext. rewrite (io_bind_Ok _ _ _ _ _ E1).
  assert (E : select_device d c = (Ok tt,
    mkConn evs [] (written c ++ frame (str "host:" ++ getTransportDescriptor d)) false)).
  { unfold select_device. by rewrite (io_bind_Ok _ _ _ _ _ (sendADBCommand_replies _ _ _ _ Hr)). }
  destruct (on_conn_last _ w1 _ _ _ _ H1 E) as (w2 & E2 & H2).
  exists w2. rewrite (io_bind_Ok _ _ w1 tt w2); [done|]. unfold on_error. by rewrite E2.
Qed.

(** Opening a service of a device the server and the device accept. *)
Lemma openTransportConnection_ok tl w c d cmd evs status s :
  dials_to w c -> replies c StatusOkay evs ->
  length status = 4%nat -> status <> StatusFail -> feeds tl evs (status ++ s) ->
  exists w' c', openTransportConnection d cmd w = (Ok (length (conns w)), w') /\
    conns w' = conns w ++ [c'] /\ conn_feeds tl c' s /\
    written c' = written c ++ frame (str "host:" ++ getTransportDescriptor d) ++ frame cmd.
Proof.
  intros Hd Hr Hl Hs Hf. destruct (TransportContext_ok w c d evs Hd Hr) as (w1 & E1 & H1).
  set (c1 := mkConn evs [] _ false) in H1.
  destruct (SendCommand_feeds tl c1 cmd status s Hl Hs) as (c2 & E2 & Hf2 & Hw2); [done|].
  assert (Es : ExecuteSimpleCommand cmd c1 = (Ok tt, c2)).
  { unfold ExecuteSimpleCommand. by rewrite (io_bind_Ok _ _ _ _ _ E2), decide_False. }
  destruct (on_conn_last _ w1 _ _ _ _ H1 Es) as (w2 & E3 & H2).
  exists w2, c2. split_and!; try done.
  - unfold openTransportConnection. rewrite (io_bind_Ok _ _ _ _ _ E1).
    rewrite (io_bind_Ok _ _ w1 tt w2); [done|]. unfold on_error. by rewrite E3.
  - rewrite Hw2. simpl. by rewrite app_assoc.
Qed.

(** ** Host requests *)

(** The server's whole answer: a status its first [Read] delivers and then [s],
    the same segment or in any others. *)
Definition answers (tl : list rd_event) (c : conn) (status s : bytes) : Prop :=
  exists evs, replies c status evs /\ feeds tl evs s.

Lemma sendADBCommand_answers tl c status s cmd :
  answers tl c status s ->
  exists c', sendADBCommand cmd c = (Ok status, c') /\ conn_feeds tl c' s /\
    written c' = written c ++ frame cmd.
Proof.
  intros (evs & Hr & Hf). exists (mkConn evs [] (written c ++ frame cmd) false). split; [|done].
  by apply sendADBCommand_replies.
Qed.

(** From a request on the dialled connection to [SendHostCommandContext]. *)
Lemma SendHostCommandContext_run x cmd w c r c' :
  dials_to w c -> host_command x cmd c = (r, c') -> returns r ->
  exists w' c'', SendHostCommandContext x cmd w = (r, w') /\ conns w' = conns w ++ [c''] /\
    conn_closed c'' = true /\ written c'' = written c'.
Proof.
  intros (w1 & E1 & H1) E Hr. unfold SendHostCommandContext. rewrite (io_bind_Ok _ _ _ _ _ E1).
  by apply (defer_Close_last _ w1 _ _ _ _ H1 E Hr).
Qed.

Lemma host_command_okay tl x cmd c status payload s :
  status <> StatusFail -> ctx_SetDeadline x = None -> answers tl c status (frame payload ++ s) -> zlen payload <= 65535 ->
  exists c', host_command x cmd c = (Ok payload, c') /\ written c' = written c ++ frame cmd.
Proof.
  intros Hs Hx Ha Hp. unfold host_command. rewrite Hx. erewrite io_bind_Ok by done.
  destruct (sendADBCommand_answers tl c _ _ cmd Ha) as (c1 & E1 & Hf1 & Hw1).
  rewrite (io_bind_Ok _ _ _ _ _ (attempt_Ok _ _ _ _ E1)), decide_False by done.
  destruct (readLengthPrefixed_feeds tl c1 payload s Hp Hf1) as (c2 & E2 & _ & Hw2).
  rewrite (io_bind_Ok _ _ _ _ _ (attempt_Ok _ _ _ _ E2)). exists c2. by rewrite Hw2, Hw1.
Qed.

Lemma host_command_fail tl x cmd c msg s :
  ctx_SetDeadline x = None -> answers tl c StatusFail (frame msg ++ s) -> zlen msg <= 65535 ->
  exists c', host_command x cmd c = (Err (Errorf (str "adb server FAIL: " ++ msg)), c') /\
    written c' = written c ++ frame cmd.
Proof.
  intros Hx Ha Hp. unfold host_command. rewrite Hx. erewrite io_bind_Ok by done.
  destruct (sendADBCommand_answers tl c _ _ cmd Ha) as (c1 & E1 & Hf1 & Hw1).
  rewrite (io_bind_Ok _ _ _ _ _ (attempt_Ok _ _ _ _ E1)), decide_True by done.
  destruct (readLengthPrefixed_feeds tl c1 msg s Hp Hf1) as (c2 & E2 & _ & Hw2).
  unfold readLengthPrefixed_or_empty.
  assert (E3 : (r ← attempt readLengthPrefixed; mret (match r with inl d => d | inr _ => [] end)) c1
    = (Ok msg, c2)) by (by rewrite (io_bind_Ok _ _ _ _ _ (attempt_Ok _ _ _ _ E2))).
  rewrite (io_bind_Ok _ _ _ _ _ E3). exists c2. by rewrite Hw2, Hw1.
Qed.

(** C31. Host requests, for a server whose four status bytes the first [Read]
    delivers (alone or with more in the same segment; the rest in any
    fragmentation) and that takes the request in full: [SendHostCommandContext]
    writes exactly one framed request on a new connection; a FAIL answer is an
    error with the server's message, any other status yields the
    length-prefixed payload.  When the deadline cannot be set that error is
    returned and nothing is written.  The connection is closed in every case. *)
Theorem host_request_replies tl x cmd w c status body s :
  dials_to w c -> answers tl c status (frame body ++ s) -> zlen body <= 65535 ->
  exists w' c', conns w' = conns w ++ [c'] /\ conn_closed c' = true /\
    match ctx_SetDeadline x with
    | Some e => SendHostCommandContext x cmd w = (Err e, w') /\ written c' = written c
    | None =>
        SendHostCommandContext x cmd w =
          ((if decide (status = StatusFail) then Err (Errorf (str "adb server FAIL: " ++ body)) else Ok body), w') /\
        written c' = written c ++ frame cmd
    end.
Proof.
  intros Hd Ha Hb. destruct (ctx_SetDeadline x) as [e|] eqn:Hx.
  { assert (E : host_command x cmd c = (Err e, c)) by (unfold host_command; by rewrite Hx).
    destruct (SendHostCommandContext_run x cmd w c _ _ Hd E I) as (w' & c' & ? & ? & ? & ?). by exists w', c'. }
  destruct (decide (status = StatusFail)) as [->|Hs].
  - destruct (host_command_fail tl x cmd c body s Hx Ha Hb) as (c1 & E & <-).
    destruct (SendHostCommandContext_run x cmd w c _ _ Hd E I) as (w' & c' & ? & ? & ? & ?). by exists w', c'.
  - destruct (host_command_okay tl x cmd c status body s Hs Hx Ha Hb) as (c1 & E & <-).
    destruct (SendHostCommandContext_run x cmd w c _ _ Hd E I) as (w' & c' & ? & ? & ? & ?). by exists w', c'.
Qed.

(** Silent truncation: when the server closes the connection in the middle of a
    payload, the end-of-file error of [readLengthPrefixed] is not a
    [net.Error], the fallback reads the rest - nothing - and
    [SendHostCommandContext] reports success with an empty payload; what had
    arrived is lost. *)
Theorem host_request_truncated x cmd w c n part :
  dials_to w c -> ctx_SetDeadline x = None -> ctx_Err x = None ->
  zlen part < n < 65536 -> answers [] c StatusOkay (fmt_x 4 n ++ part) ->
  exists w', SendHostCommandContext x cmd w = (Ok [], w').
Proof.
  intros Hd Hx Hc Hn Ha. unfold zlen in Hn.
  assert (E : exists c', host_command x cmd c = (Ok [], c') /\ written c' = written c ++ frame cmd).
  { unfold host_command. rewrite Hx. erewrite io_bind_Ok by done.
    destruct (sendADBCommand_answers [] c _ _ cmd Ha) as (c1 & E1 & Hf1 & Hw1).
    rewrite (io_bind_Ok _ _ _ _ _ (attempt_Ok _ _ _ _ E1)), decide_False by done.
    destruct (ReadFull_feeds_app [] c1 _ _ 4 Hf1) as (c2 & E2 & Hf2 & Hw2); [apply fmt_x_length; lia|].
    assert (E3 : readLengthPrefixed c1 =
      (Err (match part with [] => EOF | _ => ErrUnexpectedEOF end), set_rd c2 [])).
    { unfold readLengthPrefixed. rewrite (io_bind_Ok _ _ _ _ _ E2).
      erewrite io_bind_Ok by (unfold of_outcome, parseHexInt; by rewrite ParseInt_fmt_x by lia).
      rewrite (proj2 (Z.eqb_neq _ _)), (proj2 (Z.ltb_ge _ _)) by lia.
      apply ReadFull_short; [done | lia]. }
    rewrite (io_bind_Ok _ _ _ _ _ (attempt_Err _ _ _ _ E3)).
    assert (is_net_error (match part with [] => EOF | _ => ErrUnexpectedEOF end) = false) as ->
      by (by destruct part).
    exists (set_rd c2 []). split; [|simpl; congruence].
    unfold mbind, io_bind, ReadAll. destruct Hf2 as (_ & _ & Hcl). simpl. by rewrite Hcl, Hc. }
  destruct E as (c' & E & Hw).
  destruct (SendHostCommandContext_run x cmd w c _ _ Hd E I) as (w' & c'' & ? & _). by exists w'.
Qed.

(** Shell commands: for a device the server accepts, [RunCommand] selects the
    device, sends the command to the shell service on the same connection,
    returns everything the device prints up to the end of the stream, however
    fragmented, and closes the connection. *)
Theorem RunCommand_output d command w c evs out :
  dials_to w c -> replies c StatusOkay evs ->
  feeds [] evs (StatusOkay ++ out) ->
  exists w' c', RunCommand d command w = (Ok out, w') /\ conns w' = conns w ++ [c'] /\
    conn_closed c' = true /\
    written c' = written c ++ frame (str "host:" ++ getTransportDescriptor d) ++ frame (str "shell:" ++ command).
Proof.
  intros Hd Hr Hf. destruct (TransportContext_ok w c d evs Hd Hr) as (w1 & E1 & H1).
  set (c1 := mkConn evs [] _ false) in H1.
  destruct (SendCommand_feeds [] c1 (str "shell:" ++ command) StatusOkay out eq_refl ltac:(done))
    as (c2 & E2 & Hf2 & Hw2); [done|].
  assert (Es : open_shell command c1 = (Ok tt, c2)).
  { unfold open_shell. rewrite (io_bind_Ok _ _ _ _ _ E2). by rewrite decide_True. }
  destruct (on_conn_last _ w1 _ _ _ _ H1 Es) as (w2 & E3 & H2).
  assert (Esh : ShellContext d command w = (Ok (length (conns w)), w2)).
  { unfold ShellContext. rewrite (io_bind_Ok _ _ _ _ _ E1).
    rewrite (io_bind_Ok _ _ w1 tt w2); [done|]. unfold on_error. by rewrite E3. }
  assert (Era : readAllWithContext Background c2 = (Ok out, set_rd c2 [])).
  { unfold readAllWithContext, ReadAllOrErr. simpl.
    by rewrite (io_bind_Ok _ _ _ _ _ (ReadAll_feeds c2 out Hf2)). }
  destruct (defer_Close_last _ w2 _ _ _ _ H2 Era I) as (w3 & c3 & E4 & H3 & Hcl & Hw3).
  exists w3, c3. unfold RunCommand, RunCommandContext. rewrite (io_bind_Ok _ _ _ _ _ Esh).
  split_and!; [done..|]. rewrite Hw3. simpl. rewrite Hw2. simpl. by rewrite app_assoc.
Qed.
End client.

#[export] Hint Resolve TransportContext_opens openTransportConnection_opens ShellContext_opens
  SendHostCommandContext_tidy SendHostCommand_tidy executeTransportCommand_tidy executeTransportCommandWithResponse_tidy
  RunCommandContext_tidy : adb.

(** ** The connectors *)

(** Automatic start of the server: the connector of [NewClientWithOptions] starts
    [adb start-server] exactly when its first dial fails, then dials the same
    address once more and returns that outcome; a first dial that succeeds
    starts nothing. *)
Theorem autoStart_behaviour (k : autoStartConnector) w :
  (forall c r, dials w = inl c :: r -> exists w', ConnectionContext k w = (Ok (length (conns w)), w') /\
     conns w' = conns w ++ [c] /\ ran w' = ran w /\ dialled w' = dialled w ++ [addr (base k)]) /\
  (forall e r, dials w = inr e :: r -> exists o w', ConnectionContext k w = (o, w') /\
     ran w' = ran w ++ [[bin k; str "start-server"]] /\
     dialled w' = dialled w ++ [addr (base k); addr (base k)] /\
     match r with
     | inl c :: _ => o = Ok (length (conns w)) /\ conns w' = conns w ++ [c]
     | inr e' :: _ => o = Err e' /\ conns w' = conns w
     | [] => o = Err refused /\ conns w' = conns w
     end).
Proof.
  unfold ConnectionContext, autoStart_Connector, ConnectionContext, connectorImpl_Connector, attempt, mbind, io_bind, Dial, Run.
  split.
  - intros c r ->. eexists. split; [done|]. done.
  - intros e r ->. simpl. destruct r as [|[c|e'] r]; simpl; do 2 eexists; split; try done;
      by rewrite <- !app_assoc.
Qed.

(** ** Instances *)

Definition ex_client : autoStartConnector := mkAutoStart (mkConnector (str "127.0.0.1") 5037) (str "adb").

Definition ex_world (c : conn) : world := mkWorld [inl c] [] [] [].

Lemma ex_dials c : dials_to ex_client (ex_world c) c.
Proof. eexists. split; [reflexivity | reflexivity]. Qed.

(** A server that sends the status and the start of the payload in one segment. *)
Definition ex_host : conn := mkConn [RChunk (StatusOkay ++ str "00"); RChunk (str "04abcd")] [] [] false.

Lemma host_request_replies_witness :
  exists w', SendHostCommandContext ex_client Background (str "host:version") (ex_world ex_host)
    = (Ok (str "abcd"), w').
Proof.
  destruct (host_request_replies ex_client [] Background (str "host:version") (ex_world ex_host) ex_host
    StatusOkay (str "abcd") []) as (w' & c' & _ & _ & E & _).
  - apply ex_dials.
  - exists [RChunk (str "00"); RChunk (str "04abcd")]. split; [split_and!; reflexivity|].
    change (frame (str "abcd") ++ []) with (str "00" ++ str "04abcd" ++ []). repeat constructor.
  - vm_compute. discriminate.
  - exists w'. exact E.
Defined.

Lemma host_request_truncated_witness :
  exists w', SendHostCommandContext ex_client Background (str "host:devices")
    (ex_world (mkConn [RChunk StatusOkay; RChunk (str "0010emul")] [] [] false)) = (Ok [], w').
Proof.
  eapply (host_request_truncated ex_client Background (str "host:devices") _ _ 16 (str "emul")).
  - apply ex_dials.
  - reflexivity.
  - reflexivity.
  - split; vm_compute; reflexivity.
  - exists [RChunk (str "0010emul")]. split; [split_and!; reflexivity|].
    apply (feeds_single (str "0010emul") []).
Defined.

Definition ex_shell : conn := mkConn [RChunk StatusOkay; RChunk (str "OK"); RChunk (str "AYuid=0")] [] [] false.

Lemma RunCommand_output_witness :
  exists w' c', RunCommand ex_client (DeviceWithSerial (str "emulator-5554")) (str "id")
    (ex_world ex_shell) = (Ok (str "uid=0"), w') /\ conns w' = [c'] /\ conn_closed c' = true /\
    written c' = frame (str "host:transport:emulator-5554") ++ frame (str "shell:id").
Proof.
  apply (RunCommand_output ex_client (DeviceWithSerial (str "emulator-5554")) (str "id") (ex_world ex_shell) ex_shell
    [RChunk (str "OK"); RChunk (str "AYuid=0")] (str "uid=0")).
  - apply ex_dials.
  - split_and!; reflexivity.
  - change (StatusOkay ++ str "uid=0") with (str "OK" ++ str "AYuid=0" ++ []). repeat constructor.
Defined.
