(* ===== verification/Sync.v ===== *)
(** * The file transfer service: adb/sync.go, adb/device_file.go, adb/file_operations.go

    Operations of [SyncService] on its connection, and the [Device] methods that
    open one.  The loops that read until a terminator take fuel; the operations
    run them with more than the input left on the connection, and the theorems
    show that this is always enough. *)

From stdpp Require Import base list numbers.
From Stdlib Require Import ZArith Lia.
From S2P Require Import Prelude GoStrings GoNet Connection World Client.

Local Open Scope Z_scope.

Definition SYNC_STAT : bytes := str "STAT".
Definition SYNC_LIST : bytes := str "LIST".
Definition SYNC_SEND : bytes := str "SEND".
Definition SYNC_RECV : bytes := str "RECV".
Definition SYNC_DENT : bytes := str "DENT".
Definition SYNC_DONE : bytes := str "DONE".
Definition SYNC_DATA : bytes := str "DATA".
Definition SYNC_OKAY : bytes := str "OKAY".
Definition SYNC_FAIL : bytes := str "FAIL".

Definition DEFAULT_CHMOD : Z := 420.      (* 0o644 *)
Definition DATA_MAX_LENGTH : Z := 65536.
Definition S_IFREG : Z := 32768.          (* 0o100000 *)

Record SyncStatEntry := mkStat { st_Mode : Z; st_Size : Z; st_Time : Z; st_ModeStr : bytes }.
Record DirEntry := mkDirEntry { de_Name : bytes; de_Mode : Z; de_Size : Z; de_Mtime : Z }.
Record SyncPushOptions := mkPushOptions { po_Mode : Z; po_Mtime : Z }.

(** ** Requests and replies *)

(** [sendCommandWithLength]; [PutUint32] keeps the low 32 bits. *)
Definition sendCommandWithLength (cmd : bytes) (length : Z) : io conn unit :=
  Write (cmd ++ PutUint32 length).

(** [sendCommandWithArg] *)
Definition sendCommandWithArg (cmd arg : bytes) : io conn unit :=
  Write (cmd ++ PutUint32 (zlen arg) ++ arg).

(** [readBytes], and [readAscii] which differs only in the result's Go type *)
Definition readBytes (n : Z) : io conn bytes := ReadFull (Z.to_nat n).
Definition readAscii (n : Z) : io conn bytes := readBytes n.

(** [readError] *)
Definition readError {A} : io conn A :=
  lengthData ← readBytes 4;
  msgData ← readBytes (Uint32 lengthData);
  fail (Errorf msgData).

Definition unexpected_reply (reply : bytes) (expected : bytes) : goerror :=
  Errorf (str "unexpected reply: " ++ reply ++ str ", expected " ++ expected).

(** [Stat] *)
Definition Sync_Stat (filePath : bytes) : io conn SyncStatEntry :=
  _ ← sendCommandWithArg SYNC_STAT filePath;
  reply ← readAscii 4;
  if decide (reply = SYNC_STAT) then
    stat ← readBytes 12;
    let mode := Uint32 (slice 0 4 stat) in
    if mode =? 0 then
      fail (Errorf (str "ENOENT, no such file or directory '" ++ filePath ++ str "'"))
    else mret (mkStat mode (Uint32 (slice 4 8 stat)) (Uint32 (slice 8 12 stat)) [])
  else if decide (reply = SYNC_FAIL) then readError
  else fail (unexpected_reply reply (str "'STAT' or 'FAIL'")).

(** The loop of [Readdir]. *)
Fixpoint Readdir_loop (fuel : nat) (files : list DirEntry) : io conn (list DirEntry) :=
  match fuel with
  | O => out_of_fuel
  | S fuel' =>
      reply ← readAscii 4;
      if decide (reply = SYNC_DENT) then
        stat ← readBytes 16;
        name ← readBytes (Uint32 (slice 12 16 stat));
        let e := mkDirEntry name (Uint32 (slice 0 4 stat)) (Uint32 (slice 4 8 stat))
                   (Uint32 (slice 8 12 stat)) in
        Readdir_loop fuel' (if decide (name = str ".") then files
                            else if decide (name = str "..") then files
                            else files ++ [e])
      else if decide (reply = SYNC_DONE) then
        _ ← readBytes 16; mret files
      else if decide (reply = SYNC_FAIL) then readError
      else fail (unexpected_reply reply (str "'DENT', 'DONE' or 'FAIL'"))
  end.

Definition with_fuel {A} (loop : nat -> io conn A) : io conn A := fun c => loop (S (conn_size c)) c.

(** [Readdir] *)
Definition Sync_Readdir (dirPath : bytes) : io conn (list DirEntry) :=
  _ ← sendCommandWithArg SYNC_LIST dirPath;
  with_fuel (fun fuel => Readdir_loop fuel []).

(** [readFinalReply] *)
Definition readFinalReply : io conn unit :=
  reply ← readAscii 4;
  if decide (reply = SYNC_OKAY) then _ ← readBytes 4; mret tt
  else if decide (reply = SYNC_FAIL) then readError
  else fail (unexpected_reply reply (str "'OKAY' or 'FAIL'")).

(** The loop of [writeData]; [data] is what is left after [offset]. *)
Fixpoint writeData_loop (fuel : nat) (data : bytes) : io conn unit :=
  match data, fuel with
  | [], _ => mret tt
  | _, O => out_of_fuel
  | _, S fuel' =>
      let chunkSize := Z.to_nat (if DATA_MAX_LENGTH <=? zlen data then DATA_MAX_LENGTH else zlen data) in
      _ ← sendCommandWithLength SYNC_DATA (zlen (take chunkSize data));
      _ ← Write (take chunkSize data);
      writeData_loop fuel' (drop chunkSize data)
  end.

(** [writeData] *)
Definition writeData (data : bytes) (timestamp : Z) : io conn unit :=
  _ ← writeData_loop (length data) data;
  _ ← sendCommandWithLength SYNC_DONE timestamp;
  readFinalReply.

Definition push_arg (filePath : bytes) (opts : SyncPushOptions) : bytes :=
  let mode := Z.lor (if po_Mode opts =? 0 then DEFAULT_CHMOD else po_Mode opts) S_IFREG in
  filePath ++ str "," ++ fmt_d mode.

(** [PushContent] *)
Definition PushContent (data filePath : bytes) (opts : SyncPushOptions) : io conn unit :=
  _ ← sendCommandWithArg SYNC_SEND (push_arg filePath opts);
  writeData data (wrap32 (po_Mtime opts)).

(** [Push]; [reader] is what [io.ReadAll] on the source returns. *)
Definition Sync_Push (reader : bytes + goerror) (filePath : bytes) (opts : SyncPushOptions) : io conn unit :=
  _ ← sendCommandWithArg SYNC_SEND (push_arg filePath opts);
  match reader with
  | inr e => fail e
  | inl data => writeData data (wrap32 (po_Mtime opts))
  end.

(** [v, err := m; if err != nil { return err }] inside [readData]: [acc] has
    already been written to the pipe. *)
Definition or_stop {A} (acc : bytes) (m : io conn A) (k : A -> io conn (bytes * option goerror))
  : io conn (bytes * option goerror) :=
  r ← attempt m;
  match r with inr e => mret (acc, Some e) | inl a => k a end.

(** The loop of [readData]: what has been written to the pipe and the error it
    returns.  The reader of the pipe consumes everything. *)
Fixpoint readData_loop (fuel : nat) (acc : bytes) : io conn (bytes * option goerror) :=
  match fuel with
  | O => out_of_fuel
  | S fuel' =>
      or_stop acc (readAscii 4) (fun reply =>
      if decide (reply = SYNC_DATA) then
        or_stop acc (readBytes 4) (fun lengthData =>
        or_stop acc (readBytes (Uint32 lengthData)) (fun data =>
        readData_loop fuel' (acc ++ data)))
      else if decide (reply = SYNC_DONE) then
        or_stop acc (readBytes 4) (fun _ => mret (acc, None))
      else if decide (reply = SYNC_FAIL) then
        or_stop acc (readError : io conn unit) (fun _ => mret (acc, None))
      else mret (acc, Some (unexpected_reply reply (str "'DATA', 'DONE' or 'FAIL'"))))
  end.

(** [readData] *)
Definition readData : io conn (bytes * option goerror) := with_fuel (fun fuel => readData_loop fuel []).

(** What the reader end of the pipe sees: [CloseWithError] with [io.EOF] looks
    like an ordinary end of file. *)
Definition pipe_result (r : bytes * option goerror) : outcome bytes :=
  match r with
  | (d, None) | (d, Some EOF) => Ok d
  | (_, Some e) => Err e
  end.

(** [ReadFile]: [Pull], then [io.ReadAll] on the pipe *)
Definition Sync_ReadFile (filePath : bytes) : io conn bytes :=
  _ ← sendCommandWithArg SYNC_RECV filePath;
  r ← readData;
  of_outcome (pipe_result r).

(** ** [Device] methods *)

Section device.
Context {C : Type} `{!Connector C} (client : C) (d : DeviceDescriptor).

(** [openSyncService] *)
Definition openSyncService : io world nat := openTransportConnection client d (str "sync:").

(** [NewSyncService]; the service is the handle of its connection. *)
Definition NewSyncService : io world nat := openSyncService.

(** [SyncService.Close]; the [conn] of a service made by [NewSyncService] is
    never nil. *)
Definition Sync_Close (h : nat) : io world unit := on_conn h Close.

(** [Stat] *)
Definition Device_Stat (path : bytes) : io world SyncStatEntry :=
  h ← NewSyncService;
  defer (Sync_Close h) (on_conn h (Sync_Stat path)).

(** [Readdir] *)
Definition Device_Readdir (path : bytes) : io world (list bytes) :=
  h ← NewSyncService;
  defer (Sync_Close h)
    (entries ← on_conn h (Sync_Readdir path); mret (de_Name <$> entries)).

(** [Pull]: the reader it returns is the pipe fed from connection [h]. *)
Definition Device_Pull (path : bytes) : io world nat :=
  h ← NewSyncService;
  _ ← on_conn h (sendCommandWithArg SYNC_RECV path);
  mret h.

(** [Push] *)
Definition Device_Push (reader : bytes + goerror) (path : bytes) (mode : Z) : io world unit :=
  h ← NewSyncService;
  defer (Sync_Close h) (on_conn h (Sync_Push reader path (mkPushOptions mode 0))).

(** [ReadFile] *)
Definition Device_ReadFile (path : bytes) : io world bytes :=
  h ← NewSyncService;
  defer (Sync_Close h) (on_conn h (Sync_ReadFile path)).

Context `{!ConnectorLaws C}.

Lemma NewSyncService_opens : opens NewSyncService.
Proof. apply openTransportConnection_opens, _. Qed.

Lemma Device_Stat_tidy path : tidy (Device_Stat path).
Proof. apply tidy_with; [apply NewSyncService_opens | auto with adb]. Qed.

Lemma Device_Readdir_tidy path : tidy (Device_Readdir path).
Proof. apply tidy_with; [apply NewSyncService_opens | auto with adb]. Qed.

Lemma Device_Push_tidy r path mode : tidy (Device_Push r path mode).
Proof. apply tidy_with; [apply NewSyncService_opens | auto with adb]. Qed.

Lemma Device_ReadFile_tidy path : tidy (Device_ReadFile path).
Proof. apply tidy_with; [apply NewSyncService_opens | auto with adb]. Qed.
End device.

#[export] Hint Resolve Device_Stat_tidy Device_Readdir_tidy Device_Push_tidy Device_ReadFile_tidy : adb.

(** ** Wire formats *)

Definition data_frame (ch : bytes) : bytes := SYNC_DATA ++ PutUint32 (zlen ch) ++ ch.

Definition file_wire (chs : list bytes) (ts : Z) : bytes :=
  concat (data_frame <$> chs) ++ SYNC_DONE ++ PutUint32 ts.

Definition dent_wire (e : DirEntry) : bytes :=
  SYNC_DENT ++ PutUint32 (de_Mode e) ++ PutUint32 (de_Size e) ++ PutUint32 (de_Mtime e)
    ++ PutUint32 (zlen (de_Name e)) ++ de_Name e.

Definition dent_wf (e : DirEntry) : Prop :=
  is_u32 (de_Mode e) /\ is_u32 (de_Size e) /\ is_u32 (de_Mtime e) /\ zlen (de_Name e) < 2 ^ 32.

Definition is_dot (e : DirEntry) : bool :=
  bool_decide (de_Name e = str ".") || bool_decide (de_Name e = str "..").

Definition listing (es : list DirEntry) : list DirEntry := filter (fun e => is_dot e = false) es.

(** ** Lemmas *)

Lemma readBytes_feeds tl c s s' n :
  conn_feeds tl c (s ++ s') -> n = zlen s ->
  exists c', readBytes n c = (Ok s, c') /\ conn_feeds tl c' s' /\ written c' = written c /\
    (conn_size c' <= conn_size c)%nat /\ (s <> [] -> (conn_size c' < conn_size c)%nat).
Proof.
  intros Hf ->. unfold readBytes, zlen. rewrite Nat2Z.id.
  destruct (ReadFull_feeds_app tl c s s' _ Hf eq_refl) as (c' & E & Hf' & Hw).
  destruct (ReadFull_size _ _ _ _ E) as [H1 H2]. exists c'. split_and!; try done.
  intros Hs. apply (H2 ltac:(by destruct s) s eq_refl).
Qed.

Lemma readBytes_u32 tl c v s' :
  is_u32 v -> conn_feeds tl c (PutUint32 v ++ s') ->
  exists c' b, readBytes 4 c = (Ok b, c') /\ Uint32 b = v /\ conn_feeds tl c' s' /\
    written c' = written c /\ (conn_size c' <= conn_size c)%nat.
Proof.
  intros Hv Hf. destruct (readBytes_feeds tl c _ s' 4 Hf eq_refl) as (c' & E & Hf' & Hw & Hs & _).
  exists c', (PutUint32 v). split_and!; try done. by apply Uint32_PutUint32_nil.
Qed.

(** Reading a four-letter word. *)
Lemma readAscii_feeds tl c w s' :
  length w = 4%nat -> conn_feeds tl c (w ++ s') ->
  exists c', readAscii 4 c = (Ok w, c') /\ conn_feeds tl c' s' /\ written c' = written c /\
    (conn_size c' < conn_size c)%nat.
Proof.
  intros Hl Hf. destruct (readBytes_feeds tl c w s' 4 Hf) as (c' & E & Hf' & Hw & _ & Hs);
    [unfold zlen; by rewrite Hl|].
  exists c'. split_and!; try done. apply Hs. by destruct w.
Qed.

Lemma readError_feeds {A} tl c msg s :
  zlen msg < 2 ^ 32 -> conn_feeds tl c (PutUint32 (zlen msg) ++ msg ++ s) ->
  exists c', (readError : io conn A) c = (Err (Errorf msg), c') /\ conn_feeds tl c' s /\ written c' = written c.
Proof.
  intros Hm Hf. unfold readError.
  destruct (readBytes_u32 tl c (zlen msg) _ ltac:(unfold is_u32, zlen in *; lia) Hf)
    as (c1 & b & E1 & Hb & Hf1 & Hw1 & _).
  rewrite (io_bind_Ok _ _ _ _ _ E1), Hb.
  destruct (readBytes_feeds tl c1 msg s _ Hf1 eq_refl) as (c2 & E2 & Hf2 & Hw2 & _).
  rewrite (io_bind_Ok _ _ _ _ _ E2). exists c2. split_and!; [done | done | congruence].
Qed.

Lemma or_stop_Ok {A} acc (m : io conn A) k c a c' : m c = (Ok a, c') -> or_stop acc m k c = k a c'.
Proof. intros E. unfold or_stop. by rewrite (io_bind_Ok _ _ _ _ _ (attempt_Ok _ _ _ _ E)). Qed.

Lemma or_stop_Err {A} acc (m : io conn A) k c e c' :
  m c = (Err e, c') -> or_stop acc m k c = (Ok (acc, Some e), c').
Proof. intros E. unfold or_stop. by rewrite (io_bind_Ok _ _ _ _ _ (attempt_Err _ _ _ _ E)). Qed.

(** Receiving DATA frames. *)
Lemma readData_frames tl chs s : forall c fuel acc,
  Forall (fun ch => zlen ch < 2 ^ 32) chs ->
  conn_feeds tl c (concat (data_frame <$> chs) ++ s) -> (conn_size c < fuel)%nat ->
  exists c' fuel', readData_loop fuel acc c = readData_loop fuel' (acc ++ concat chs) c' /\
    conn_feeds tl c' s /\ (conn_size c' < fuel')%nat.
Proof.
  induction chs as [|ch chs IH]; intros c fuel acc Hch Hf Hfuel.
  { exists c, fuel. simpl. by rewrite app_nil_r. }
  apply Forall_cons in Hch as [Hc Hch]. destruct fuel as [|fuel]; [lia|].
  cbn [fmap list_fmap concat] in Hf. unfold data_frame at 1 in Hf. rewrite <- !app_assoc in Hf.
  destruct (readAscii_feeds tl c SYNC_DATA _ eq_refl Hf) as (c1 & E1 & Hf1 & _ & Hs1).
  destruct (readBytes_u32 tl c1 (zlen ch) _ ltac:(unfold is_u32, zlen in *; lia) Hf1)
    as (c2 & b & E2 & Hb & Hf2 & _ & Hs2).
  destruct (readBytes_feeds tl c2 ch _ _ Hf2 eq_refl) as (c3 & E3 & Hf3 & _ & Hs3 & _).
  destruct (IH c3 fuel (acc ++ ch) Hch Hf3) as (c' & fuel' & E & Hf' & Hs'); [lia|].
  exists c', fuel'. split; [|done]. cbn [readData_loop].
  rewrite (or_stop_Ok _ _ _ _ _ _ E1), decide_True, (or_stop_Ok _ _ _ _ _ _ E2), Hb by done.
  rewrite (or_stop_Ok _ _ _ _ _ _ E3), E. cbn [concat]. by rewrite app_assoc.
Qed.

Lemma readData_done tl c fuel acc ts s :
  conn_feeds tl c (SYNC_DONE ++ PutUint32 ts ++ s) -> (conn_size c < fuel)%nat ->
  exists c', readData_loop fuel acc c = (Ok (acc, None), c') /\ conn_feeds tl c' s.
Proof.
  intros Hf Hfuel. destruct fuel as [|fuel]; [lia|]. cbn [readData_loop].
  destruct (readAscii_feeds tl c SYNC_DONE _ eq_refl Hf) as (c1 & E1 & Hf1 & _).
  rewrite (or_stop_Ok _ _ _ _ _ _ E1), decide_False, decide_True by done.
  destruct (readBytes_feeds tl c1 _ s 4 Hf1 eq_refl) as (c2 & E2 & Hf2 & _).
  rewrite (or_stop_Ok _ _ _ _ _ _ E2). by exists c2.
Qed.

Lemma readData_file tl c chs ts s :
  Forall (fun ch => zlen ch < 2 ^ 32) chs -> conn_feeds tl c (file_wire chs ts ++ s) ->
  exists c', readData c = (Ok (concat chs, None), c') /\ conn_feeds tl c' s.
Proof.
  intros Hch Hf. unfold file_wire in Hf. rewrite <- !app_assoc in Hf.
  destruct (readData_frames tl chs _ c (S (conn_size c)) [] Hch Hf) as (c1 & f1 & E1 & Hf1 & Hs1); [lia|].
  destruct (readData_done tl c1 f1 (concat chs) ts s Hf1 Hs1) as (c2 & E2 & Hf2).
  exists c2. split; [|done]. unfold readData, with_fuel. by rewrite E1.
Qed.

Definition chunk_size (data : bytes) : nat :=
  Z.to_nat (if DATA_MAX_LENGTH <=? zlen data then DATA_MAX_LENGTH else zlen data).

Lemma chunk_size_bound data :
  data <> [] -> (0 < length (take (chunk_size data) data))%nat /\
  zlen (take (chunk_size data) data) <= DATA_MAX_LENGTH /\
  (length (drop (chunk_size data) data) < length data)%nat.
Proof.
  intros Hd. assert (0 < length data)%nat by (destruct data; simpl; [done | lia]).
  unfold chunk_size, zlen. rewrite length_take, length_drop.
  destruct (Z.leb_spec DATA_MAX_LENGTH (Z.of_nat (length data))); unfold DATA_MAX_LENGTH in *; lia.
Qed.

Lemma writeData_loop_step fuel data tl c s :
  data <> [] -> conn_feeds tl c s ->
  exists c', writeData_loop (S fuel) data c = writeData_loop fuel (drop (chunk_size data) data) c' /\
    conn_feeds tl c' s /\ written c' = written c ++ data_frame (take (chunk_size data) data).
Proof.
  intros Hd Hf. destruct data as [|b data]; [done|].
  cbn [writeData_loop]. fold (chunk_size (b :: data)). set (ch := take _ _).
  destruct (Write_feeds tl c s (SYNC_DATA ++ PutUint32 (zlen ch)) Hf) as [E1 Hf1].
  unfold sendCommandWithLength. rewrite (io_bind_Ok _ _ _ _ _ E1).
  destruct (Write_feeds tl _ s ch Hf1) as [E2 Hf2]. rewrite (io_bind_Ok _ _ _ _ _ E2).
  eexists. split_and!; [done | done |]. simpl. unfold data_frame. by rewrite <- !app_assoc.
Qed.

(** Sending DATA frames. *)
Lemma writeData_loop_feeds tl s : forall fuel data c,
  (length data <= fuel)%nat -> conn_feeds tl c s ->
  exists c' chs, writeData_loop fuel data c = (Ok tt, c') /\ conn_feeds tl c' s /\
    written c' = written c ++ concat (data_frame <$> chs) /\ concat chs = data /\
    Forall (fun ch => (0 < length ch)%nat /\ zlen ch <= DATA_MAX_LENGTH) chs.
Proof.
  induction fuel as [|fuel IH]; intros data c Hl Hf.
  { destruct data; [|simpl in Hl; lia]. exists c, []. simpl. rewrite app_nil_r. by split_and!. }
  destruct (decide (data = [])) as [->|Hd].
  { exists c, []. simpl. rewrite app_nil_r. by split_and!. }
  destruct (chunk_size_bound data Hd) as (Hb1 & Hb2 & Hb3).
  destruct (writeData_loop_step fuel data tl c s Hd Hf) as (c1 & E1 & Hf1 & Hw1).
  destruct (IH (drop (chunk_size data) data) c1) as (c2 & chs & E2 & Hf2 & Hw2 & Hc & Hall); [lia | done |].
  exists c2, (take (chunk_size data) data :: chs). rewrite E1. split_and!; [done | done | | | by constructor].
  - rewrite Hw2, Hw1. cbn [fmap list_fmap concat]. by rewrite <- app_assoc.
  - simpl. by rewrite Hc, take_drop.
Qed.

Lemma writeData_feeds tl c s data ts :
  conn_feeds tl c s ->
  exists c' chs, writeData data ts c = readFinalReply c' /\ conn_feeds tl c' s /\
    written c' = written c ++ file_wire chs ts /\ concat chs = data /\
    Forall (fun ch => (0 < length ch)%nat /\ zlen ch <= DATA_MAX_LENGTH) chs.
Proof.
  intros Hf. destruct (writeData_loop_feeds tl s (length data) data c ltac:(lia) Hf)
    as (c1 & chs & E1 & Hf1 & Hw1 & Hc & Hall).
  unfold writeData. rewrite (io_bind_Ok _ _ _ _ _ E1).
  destruct (Write_feeds tl c1 s (SYNC_DONE ++ PutUint32 ts) Hf1) as [E2 Hf2].
  unfold sendCommandWithLength. rewrite (io_bind_Ok _ _ _ _ _ E2).
  eexists _, chs. split_and!; [done | done | | done | done].
  simpl. rewrite Hw1. unfold file_wire. by rewrite <- app_assoc.
Qed.

(** Receiving directory entries. *)
Lemma dent_fields e :
  dent_wf e ->
  let stat := PutUint32 (de_Mode e) ++ PutUint32 (de_Size e) ++ PutUint32 (de_Mtime e)
                ++ PutUint32 (zlen (de_Name e)) in
  Uint32 (slice 0 4 stat) = de_Mode e /\ Uint32 (slice 4 8 stat) = de_Size e /\
  Uint32 (slice 8 12 stat) = de_Mtime e /\ Uint32 (slice 12 16 stat) = zlen (de_Name e).
Proof.
  intros (H1 & H2 & H3 & H4). cbv zeta. 
  change (slice 0 4 _) with (PutUint32 (de_Mode e)). change (slice 4 8 _) with (PutUint32 (de_Size e)).
  change (slice 8 12 _) with (PutUint32 (de_Mtime e)). change (slice 12 16 _) with (PutUint32 (zlen (de_Name e))).
  rewrite !Uint32_PutUint32_nil; [done | unfold is_u32, zlen in *; lia | done..].
Qed.

Lemma Readdir_loop_entry tl c fuel files e s :
  dent_wf e -> conn_feeds tl c (dent_wire e ++ s) ->
  exists c', Readdir_loop (S fuel) files c = Readdir_loop fuel (files ++ listing [e]) c' /\
    conn_feeds tl c' s /\ written c' = written c /\ (conn_size c' < conn_size c)%nat.
Proof.
  intros Hwf Hf. destruct (dent_fields e Hwf) as (F1 & F2 & F3 & F4).
  unfold dent_wire in Hf. rewrite <- !app_assoc in Hf.
  destruct (readAscii_feeds tl c SYNC_DENT _ eq_refl Hf) as (c1 & E1 & Hf1 & Hw1 & Hs1).
  set (stat := PutUint32 (de_Mode e) ++ PutUint32 (de_Size e) ++ PutUint32 (de_Mtime e)
                ++ PutUint32 (zlen (de_Name e))) in *.
  destruct (readBytes_feeds tl c1 stat (de_Name e ++ s) 16) as (c2 & E2 & Hf2 & Hw2 & Hs2 & _);
    [unfold stat; by rewrite <- !app_assoc | done |].
  destruct (readBytes_feeds tl c2 (de_Name e) s _ Hf2 eq_refl) as (c3 & E3 & Hf3 & Hw3 & Hs3 & _).
  exists c3. split_and!; [|done|congruence|lia]. cbn [Readdir_loop].
  rewrite (io_bind_Ok _ _ _ _ _ E1), decide_True by done.
  rewrite (io_bind_Ok _ _ _ _ _ E2). rewrite F4, (io_bind_Ok _ _ _ _ _ E3), F1, F2, F3.
  f_equal. unfold listing, is_dot, filter, list_filter. destruct e as [nm m sz mt]. simpl.
  destruct (decide (nm = str ".")) as [->|]; [by rewrite app_nil_r|].
  rewrite (bool_decide_false (nm = str ".")) by done. simpl.
  destruct (decide (nm = str "..")) as [->|]; [by rewrite app_nil_r|].
  by rewrite (bool_decide_false (nm = str "..")) by done.
Qed.

Lemma Readdir_loop_feeds tl pad s : forall es c fuel files,
  Forall dent_wf es -> length pad = 16%nat ->
  conn_feeds tl c (concat (dent_wire <$> es) ++ SYNC_DONE ++ pad ++ s) -> (conn_size c < fuel)%nat ->
  exists c', Readdir_loop fuel files c = (Ok (files ++ listing es), c') /\ conn_feeds tl c' s /\
    written c' = written c.
Proof.
  induction es as [|e es IH]; intros c fuel files Hes Hp Hf Hfuel; (destruct fuel as [|fuel]; [lia|]).
  - destruct (readAscii_feeds tl c SYNC_DONE _ eq_refl Hf) as (c1 & E1 & Hf1 & Hw1 & _).
    destruct (readBytes_feeds tl c1 pad s 16 Hf1) as (c2 & E2 & Hf2 & Hw2 & _); [unfold zlen; by rewrite Hp|].
    exists c2. split_and!; [|done|congruence]. cbn [Readdir_loop].
    rewrite (io_bind_Ok _ _ _ _ _ E1), decide_False, decide_True by done.
    rewrite (io_bind_Ok _ _ _ _ _ E2). by rewrite app_nil_r.
  - apply Forall_cons in Hes as [He Hes]. cbn [fmap list_fmap concat] in Hf. rewrite <- !app_assoc in Hf.
    destruct (Readdir_loop_entry tl c fuel files e _ He Hf) as (c1 & E1 & Hf1 & Hw1 & Hs1).
    destruct (IH c1 fuel (files ++ listing [e]) Hes Hp Hf1) as (c2 & E2 & Hf2 & Hw2); [lia|].
    exists c2. rewrite E1, E2, <- app_assoc. split_and!; [|done|congruence].
    change (e :: es) with ([e] ++ es). unfold listing. by rewrite filter_app.
Qed.

(** ** Totality: the fuel is always enough *)

Lemma readError_no_fuel {A} c : (@readError A c).1 <> OutOfFuel /\ (@readError A c).1 <> Panic /\ forall a, (@readError A c).1 <> Ok a.
Proof.
  unfold readError, readBytes, mbind, io_bind.
  destruct (ReadFull_cases (Z.to_nat 4) c) as [(b & c1 & ->)|(e & c1 & ->)]; [|by split_and!].
  destruct (ReadFull_cases (Z.to_nat (Uint32 b)) c1) as [(b2 & c2 & ->)|(e & c2 & ->)]; by split_and!.
Qed.

Lemma readData_loop_total : forall fuel acc c,
  (conn_size c < fuel)%nat -> exists r c', readData_loop fuel acc c = (Ok r, c').
Proof.
  induction fuel as [|fuel IH]; intros acc c Hf; [lia|]. cbn [readData_loop]. unfold readAscii, readBytes.
  destruct (ReadFull_cases (Z.to_nat 4) c) as [(b & c1 & E1)|(e1 & c1 & E1)];
    [rewrite (or_stop_Ok _ _ _ _ _ _ E1) | rewrite (or_stop_Err _ _ _ _ _ _ E1); by eauto].
  destruct (ReadFull_size _ _ _ _ E1) as [_ Hs1]. specialize (Hs1 ltac:(done) b eq_refl).
  destruct (decide (b = SYNC_DATA)).
  - destruct (ReadFull_cases (Z.to_nat 4) c1) as [(b2 & c2 & E2)|(e2 & c2 & E2)];
      [rewrite (or_stop_Ok _ _ _ _ _ _ E2) | rewrite (or_stop_Err _ _ _ _ _ _ E2); by eauto].
    apply ReadFull_size in E2 as [Hs2 _].
    destruct (ReadFull_cases (Z.to_nat (Uint32 b2)) c2) as [(b3 & c3 & E3)|(e3 & c3 & E3)];
      [rewrite (or_stop_Ok _ _ _ _ _ _ E3) | rewrite (or_stop_Err _ _ _ _ _ _ E3); by eauto].
    apply ReadFull_size in E3 as [Hs3 _]. apply IH. lia.
  - destruct (decide _).
    { destruct (ReadFull_cases (Z.to_nat 4) c1) as [(b2 & c2 & E2)|(e2 & c2 & E2)];
        [rewrite (or_stop_Ok _ _ _ _ _ _ E2) | rewrite (or_stop_Err _ _ _ _ _ _ E2)]; by eauto. }
    destruct (decide _); [|by eauto]. destruct (@readError_no_fuel unit c1) as (H1 & H2 & H3).
    destruct (@readError unit c1) as [r c2] eqn:E2. destruct r as [a|e' | |]; try done; [by destruct (H3 a)|].
    rewrite (or_stop_Err _ _ _ _ _ _ E2). by eauto.
Qed.

Lemma Readdir_loop_total : forall fuel files c,
  (conn_size c < fuel)%nat -> returns (Readdir_loop fuel files c).1.
Proof.
  induction fuel as [|fuel IH]; intros files c Hf; [lia|]. cbn [Readdir_loop]. unfold readAscii, readBytes.
  destruct (ReadFull_cases (Z.to_nat 4) c) as [(b & c1 & E1)|(e1 & c1 & E1)];
    [rewrite (io_bind_Ok _ _ _ _ _ E1) | by rewrite (io_bind_Err _ _ _ _ _ E1)].
  destruct (ReadFull_size _ _ _ _ E1) as [_ Hs1]. specialize (Hs1 ltac:(done) b eq_refl).
  destruct (decide (b = SYNC_DENT)).
  - destruct (ReadFull_cases (Z.to_nat 16) c1) as [(b2 & c2 & E2)|(e2 & c2 & E2)];
      [rewrite (io_bind_Ok _ _ _ _ _ E2) | by rewrite (io_bind_Err _ _ _ _ _ E2)].
    apply ReadFull_size in E2 as [Hs2 _].
    destruct (ReadFull_cases (Z.to_nat (Uint32 (slice 12 16 b2))) c2) as [(b3 & c3 & E3)|(e3 & c3 & E3)];
      [rewrite (io_bind_Ok _ _ _ _ _ E3) | by rewrite (io_bind_Err _ _ _ _ _ E3)].
    apply ReadFull_size in E3 as [Hs3 _]. apply IH. lia.
  - destruct (decide _).
    { destruct (ReadFull_cases (Z.to_nat 16) c1) as [(b2 & c2 & E2)|(e2 & c2 & E2)];
        [by rewrite (io_bind_Ok _ _ _ _ _ E2) | by rewrite (io_bind_Err _ _ _ _ _ E2)]. }
    destruct (decide _); [|done]. destruct (@readError_no_fuel (list DirEntry) c1) as (H1 & H2 & H3).
    by destruct (@readError (list DirEntry) c1).1.
Qed.

(** ** Properties *)

Lemma readFinalReply_okay tl c pad s :
  length pad = 4%nat -> conn_feeds tl c (SYNC_OKAY ++ pad ++ s) ->
  exists c', readFinalReply c = (Ok tt, c') /\ written c' = written c.
Proof.
  intros Hp Hf. unfold readFinalReply.
  destruct (readAscii_feeds tl c SYNC_OKAY _ eq_refl Hf) as (c1 & E1 & Hf1 & Hw1 & _).
  rewrite (io_bind_Ok _ _ _ _ _ E1), decide_True by done.
  destruct (readBytes_feeds tl c1 pad s 4 Hf1) as (c2 & E2 & _ & Hw2 & _); [unfold zlen; by rewrite Hp|].
  rewrite (io_bind_Ok _ _ _ _ _ E2). exists c2. split; [done | congruence].
Qed.

Lemma readFinalReply_fail tl c msg s :
  zlen msg < 2 ^ 32 -> conn_feeds tl c (SYNC_FAIL ++ PutUint32 (zlen msg) ++ msg ++ s) ->
  exists c', readFinalReply c = (Err (Errorf msg), c') /\ written c' = written c.
Proof.
  intros Hm Hf. unfold readFinalReply.
  destruct (readAscii_feeds tl c SYNC_FAIL _ eq_refl Hf) as (c1 & E1 & Hf1 & Hw1 & _).
  rewrite (io_bind_Ok _ _ _ _ _ E1), decide_False, decide_True by done.
  destruct (@readError_feeds unit tl c1 msg s Hm Hf1) as (c2 & E2 & _ & Hw2).
  exists c2. split; [done | congruence].
Qed.

Lemma PushContent_feeds tl c s data path opts :
  conn_feeds tl c s ->
  exists c' chs, PushContent data path opts c = readFinalReply c' /\ conn_feeds tl c' s /\
    written c' = written c ++ (SYNC_SEND ++ PutUint32 (zlen (push_arg path opts)) ++ push_arg path opts)
      ++ file_wire chs (wrap32 (po_Mtime opts)) /\
    concat chs = data /\ Forall (fun ch => (0 < length ch)%nat /\ zlen ch <= DATA_MAX_LENGTH) chs.
Proof.
  intros Hf. unfold PushContent, sendCommandWithArg.
  destruct (Write_feeds tl c s (SYNC_SEND ++ PutUint32 (zlen (push_arg path opts)) ++ push_arg path opts) Hf)
    as [E1 Hf1].
  rewrite (io_bind_Ok _ _ _ _ _ E1).
  destruct (writeData_feeds tl _ s data (wrap32 (po_Mtime opts)) Hf1) as (c' & chs & E & Hf' & Hw & Hc & Hall).
  exists c', chs. split_and!; try done. rewrite Hw. simpl. by rewrite <- !app_assoc.
Qed.

Lemma small_chunks chs :
  Forall (fun ch : bytes => (0 < length ch)%nat /\ zlen ch <= DATA_MAX_LENGTH) chs ->
  Forall (fun ch : bytes => zlen ch < 2 ^ 32) chs.
Proof. intros Hall. eapply Forall_impl; [exact Hall|]. intros ch [_ H]. unfold DATA_MAX_LENGTH in H. lia. Qed.

(** The device's final reply, followed by [s], and what the push has to report. *)
Inductive reply_means (s : bytes) : bytes -> outcome unit -> Prop :=
  | reply_okay pad : length pad = 4%nat -> reply_means s (SYNC_OKAY ++ pad ++ s) (Ok tt)
  | reply_fail msg : zlen msg < 2 ^ 32 ->
      reply_means s (SYNC_FAIL ++ PutUint32 (zlen msg) ++ msg ++ s) (Err (Errorf msg))
  | reply_other word : length word = 4%nat -> word <> SYNC_OKAY -> word <> SYNC_FAIL ->
      reply_means s (word ++ s) (Err (unexpected_reply word (str "'OKAY' or 'FAIL'"))).

Lemma readFinalReply_means tl c s reply r :
  reply_means s reply r -> conn_feeds tl c reply ->
  exists c', readFinalReply c = (r, c') /\ written c' = written c.
Proof.
  intros [pad Hp|msg Hm|word Hl Ho Hn] Hf.
  - by eapply readFinalReply_okay.
  - by eapply readFinalReply_fail.
  - destruct (readAscii_feeds tl c word _ Hl Hf) as (c1 & E1 & _ & Hw1 & _). exists c1. split; [|done].
    unfold readFinalReply. by rewrite (io_bind_Ok _ _ _ _ _ E1), !decide_False.
Qed.

(** C9. Push and pull are inverse: [PushContent] returns exactly what the device's
    final reply says - success for OKAY, the device's message for FAIL, an
    error naming the word for any other reply - and the bytes it sends after
    the SEND request are read back by [readData] as the pushed content,
    whatever the content's length and however both streams are fragmented. *)
Theorem sync_push_pull_roundtrip tl c data path opts s reply r :
  reply_means s reply r -> conn_feeds tl c reply ->
  exists c' sent, PushContent data path opts c = (r, c') /\
    written c' = written c ++ (SYNC_SEND ++ PutUint32 (zlen (push_arg path opts)) ++ push_arg path opts) ++ sent /\
    forall tl' peer s', conn_feeds tl' peer (sent ++ s') ->
      exists peer', readData peer = (Ok (data, None), peer') /\ conn_feeds tl' peer' s'.
Proof.
  intros Hr Hf. destruct (PushContent_feeds tl c _ data path opts Hf) as (c1 & chs & E1 & Hf1 & Hw1 & Hc & Hall).
  destruct (readFinalReply_means tl c1 s reply r Hr Hf1) as (c2 & E2 & Hw2).
  exists c2, (file_wire chs (wrap32 (po_Mtime opts))). split_and!; [congruence.. |]. intros tl' peer s' Hf'.
  destruct (readData_file tl' peer chs _ s' (small_chunks chs Hall) Hf') as (p' & E & ?).
  exists p'. by rewrite E, Hc.
Qed.

(** C33. Listing a directory: from a stream of DENT records ended by a DONE,
    [Readdir] returns every entry with its name, mode, size and time, in
    order, less [.] and [..], however the stream is fragmented. *)
Theorem Readdir_lists tl c path es pad s :
  Forall dent_wf es -> length pad = 16%nat ->
  conn_feeds tl c (concat (dent_wire <$> es) ++ SYNC_DONE ++ pad ++ s) ->
  exists c', Sync_Readdir path c = (Ok (listing es), c') /\ conn_feeds tl c' s /\
    written c' = written c ++ SYNC_LIST ++ PutUint32 (zlen path) ++ path.
Proof.
  intros Hes Hp Hf. unfold Sync_Readdir, sendCommandWithArg.
  destruct (Write_feeds tl c _ (SYNC_LIST ++ PutUint32 (zlen path) ++ path) Hf) as [E1 Hf1].
  rewrite (io_bind_Ok _ _ _ _ _ E1). unfold with_fuel.
  destruct (Readdir_loop_feeds tl pad s es _ (S (conn_size (mkConn (rd c) [] (written c ++ SYNC_LIST ++ PutUint32 (zlen path) ++ path) false))) [] Hes Hp Hf1)
    as (c2 & E2 & Hf2 & Hw2); [lia|]. by exists c2.
Qed.

(** C34. The transfer loops always end: whatever the device sends, [Readdir] and
    [ReadFile] return a result or an error - they neither panic nor loop, and
    the fuel their models are given is never used up. *)
Theorem sync_loops_total path c :
  returns (Sync_Readdir path c).1 /\ returns (Sync_ReadFile path c).1.
Proof.
  unfold Sync_Readdir, Sync_ReadFile, sendCommandWithArg.
  split.
  - destruct (Write_cases (SYNC_LIST ++ PutUint32 (zlen path) ++ path) c) as [(c1 & E)|(e & c1 & E)];
      [rewrite (io_bind_Ok _ _ _ _ _ E) | by rewrite (io_bind_Err _ _ _ _ _ E)].
    apply Readdir_loop_total. lia.
  - destruct (Write_cases (SYNC_RECV ++ PutUint32 (zlen path) ++ path) c) as [(c1 & E)|(e & c1 & E)];
      [rewrite (io_bind_Ok _ _ _ _ _ E) | by rewrite (io_bind_Err _ _ _ _ _ E)].
    destruct (readData_loop_total (S (conn_size c1)) [] c1) as ([d err] & c2 & E2); [lia|].
    assert (E3 : readData c1 = (Ok (d, err), c2)) by done. rewrite (io_bind_Ok _ _ _ _ _ E3).
    simpl. destruct err as [[]|]; done.
Qed.

(** A cut transfer looks complete: when the connection closes between two
    DATA frames, before any DONE, [readData] returns [io.EOF], which the pipe
    turns into an ordinary end of file; [ReadFile] then reports success with
    the part that had arrived. *)
Theorem ReadFile_truncated path c chs :
  Forall (fun ch => zlen ch < 2 ^ 32) chs -> conn_feeds [] c (concat (data_frame <$> chs)) ->
  (Sync_ReadFile path c).1 = Ok (concat chs).
Proof.
  intros Hch Hf. unfold Sync_ReadFile, sendCommandWithArg.
  destruct (Write_feeds [] c _ (SYNC_RECV ++ PutUint32 (zlen path) ++ path) Hf) as [E1 Hf1].
  rewrite (io_bind_Ok _ _ _ _ _ E1). set (c1 := mkConn _ _ _ _) in *.
  rewrite <- (app_nil_r (concat _)) in Hf1.
  destruct (readData_frames [] chs [] c1 (S (conn_size c1)) [] Hch Hf1) as (c2 & f2 & E2 & Hf2 & Hs2); [lia|].
  destruct f2 as [|f2]; [lia|].
  assert (E3 : readAscii 4 c2 = (Err EOF, set_rd c2 [])) by (apply (ReadFull_short c2 [] 4); [done | simpl; lia]).
  assert (E4 : readData c1 = (Ok (concat chs, Some EOF), set_rd c2 [])).
  { unfold readData, with_fuel. rewrite E2. cbn [readData_loop]. by rewrite (or_stop_Err _ _ _ _ _ _ E3). }
  by rewrite (io_bind_Ok _ _ _ _ _ E4).
Qed.

Lemma Sync_ReadFile_file c path chs ts :
  Forall (fun ch => zlen ch < 2 ^ 32) chs -> conn_feeds [] c (file_wire chs ts) ->
  exists c', Sync_ReadFile path c = (Ok (concat chs), c') /\ conn_closed c' = false.
Proof.
  intros Hch Hf. unfold Sync_ReadFile, sendCommandWithArg.
  destruct (Write_feeds [] c _ (SYNC_RECV ++ PutUint32 (zlen path) ++ path) Hf) as [E1 Hf1].
  rewrite (io_bind_Ok _ _ _ _ _ E1). rewrite <- (app_nil_r (file_wire chs ts)) in Hf1.
  destruct (readData_file [] _ chs ts [] Hch Hf1) as (c2 & E2 & Hf2).
  rewrite (io_bind_Ok _ _ _ _ _ E2). exists c2. split; [done|]. apply Hf2.
Qed.

Lemma or_stop_reads {A} acc (m : io conn A) k :
  reads m -> (forall a, reads (k a)) -> reads (or_stop acc m k).
Proof. intros Hm Hk. apply reads_bind; [by apply reads_attempt|]. intros [a|e]; [done | apply reads_ret]. Qed.

Lemma readError_reads {A} : reads (readError : io conn A).
Proof. apply reads_bind; [apply ReadFull_reads|]. intros l. apply reads_bind; [apply ReadFull_reads | intros; apply reads_fail]. Qed.

Lemma readData_reads : reads readData.
Proof.
  apply (reads_sized (fun n => readData_loop (S n) [])). intros n. generalize (S n) ([] : bytes). clear n.
  induction n as [|n IH]; intros acc; cbn [readData_loop]; [apply reads_fuel|].
  apply or_stop_reads; [apply ReadFull_reads|]. intros reply. repeat case_decide.
  - apply or_stop_reads; [apply ReadFull_reads|]. intros l. apply or_stop_reads; [apply ReadFull_reads|]. intros. apply IH.
  - apply or_stop_reads; [apply ReadFull_reads | intros; apply reads_ret].
  - apply or_stop_reads; [apply readError_reads | intros; apply reads_ret].
  - apply reads_ret.
Qed.

(** Opening a download, and what the reader then delivers. *)
Lemma Device_Pull_file {C} `{!Connector C, !ConnectorLaws C} (client : C) d path w c evs chs ts :
  dials_to client w c -> replies c StatusOkay evs ->
  Forall (fun ch => zlen ch < 2 ^ 32) chs -> feeds [] evs (StatusOkay ++ file_wire chs ts) ->
  exists w1 w2 c2, Device_Pull client d path w = (Ok (length (conns w)), w1) /\
    on_conn (length (conns w)) readData w1 = (Ok (concat chs, None), w2) /\
    conns w2 = conns w ++ [c2] /\ conn_closed c2 = false /\
    written c2 = written c ++ frame (str "host:" ++ getTransportDescriptor d) ++ frame (str "sync:")
                   ++ SYNC_RECV ++ PutUint32 (zlen path) ++ path.
Proof.
  intros Hd Hr Hch Hf.
  destruct (openTransportConnection_ok client [] w c d (str "sync:") evs StatusOkay _ Hd Hr eq_refl
    ltac:(done) Hf) as (w1 & c1 & E1 & H1 & Hf1 & Hw1).
  destruct (Write_feeds [] c1 _ (SYNC_RECV ++ PutUint32 (zlen path) ++ path) Hf1) as [E2 Hf2].
  destruct (on_conn_last (sendCommandWithArg SYNC_RECV path) w1 _ _ _ _ H1 E2) as (w2 & E3 & H2).
  rewrite <- (app_nil_r (file_wire chs ts)) in Hf2.
  destruct (readData_file [] _ chs ts [] Hch Hf2) as (c4 & E4 & Hf4).
  destruct (on_conn_last readData w2 _ _ _ _ H2 E4) as (w5 & E5 & H5).
  exists w2, w5, c4. split_and!; [|done|done|apply Hf4|].
  - unfold Device_Pull, NewSyncService, openSyncService. rewrite (io_bind_Ok _ _ _ _ _ E1).
    by rewrite (io_bind_Ok _ _ _ _ _ E3).
  - rewrite (reads_inv _ _ _ _ readData_reads E4). simpl. by rewrite Hw1, <- !app_assoc.
Qed.

(** Downloads end to end: through an accepting server and device,
    [Device.ReadFile] returns the file's content and leaves its connection
    closed.  [Device.Pull], on the same exchange, hands out a reader that
    delivers the same content but leaves the connection open when it is
    exhausted: nothing holds a handle to close it. *)
Theorem device_download {C} `{!Connector C, !ConnectorLaws C} (client : C) d path w c evs chs ts :
  dials_to client w c -> replies c StatusOkay evs ->
  Forall (fun ch => zlen ch < 2 ^ 32) chs -> feeds [] evs (StatusOkay ++ file_wire chs ts) ->
  (exists w' c', Device_ReadFile client d path w = (Ok (concat chs), w') /\
     conns w' = conns w ++ [c'] /\ conn_closed c' = true) /\
  (exists h w1 w2 c2, Device_Pull client d path w = (Ok h, w1) /\
     on_conn h readData w1 = (Ok (concat chs, None), w2) /\
     conns w2 !! h = Some c2 /\ conn_closed c2 = false).
Proof.
  intros Hd Hr Hch Hf. split.
  - destruct (openTransportConnection_ok client [] w c d (str "sync:") evs StatusOkay _ Hd Hr eq_refl
      ltac:(done) Hf) as (w1 & c1 & E1 & H1 & Hf1 & _).
    destruct (Sync_ReadFile_file c1 path chs ts Hch Hf1) as (c2 & E2 & _).
    destruct (defer_Close_last _ w1 _ _ _ _ H1 E2 I) as (w3 & c3 & E3 & H3 & Hcl & _).
    exists w3, c3. unfold Device_ReadFile, NewSyncService. by rewrite (io_bind_Ok _ _ _ _ _ E1).
  - destruct (Device_Pull_file client d path w c evs chs ts Hd Hr Hch Hf) as (w1 & w2 & c2 & E1 & E2 & H & Hcl & _).
    exists (length (conns w)), w1, w2, c2. split_and!; [done..| |done]. rewrite H. by apply list_lookup_middle.
Qed.

(** ** Instances *)

Definition ex_download : conn :=
  mkConn [RChunk StatusOkay; RChunk StatusOkay; RChunk (file_wire [str "he"; str "llo"] 7)] [] [] false.

Lemma device_download_witness :
  exists w' c', Device_ReadFile ex_client AnyDevice (str "/sdcard/f") (ex_world ex_download) = (Ok (str "hello"), w') /\
     conns w' = [c'] /\ conn_closed c' = true.
Proof.
  apply (device_download ex_client AnyDevice (str "/sdcard/f") (ex_world ex_download) ex_download
    [RChunk StatusOkay; RChunk (file_wire [str "he"; str "llo"] 7)] [str "he"; str "llo"] 7).
  - apply ex_dials.
  - split_and!; reflexivity.
  - repeat constructor.
  - exact (feeds_chunk [] StatusOkay _ _ (feeds_chunk [] (file_wire [str "he"; str "llo"] 7) [] [] (feeds_done []))).
Defined.

Definition ex_push_conn : conn := mkConn [RChunk (str "OK"); RChunk (str "AY"); RChunk [x00; x00; x00; x00]] [] [] false.

Lemma ex_push_feeds : conn_feeds [] ex_push_conn (SYNC_OKAY ++ [x00; x00; x00; x00] ++ []).
Proof.
  split_and!; [|reflexivity..].
  change (SYNC_OKAY ++ [x00; x00; x00; x00] ++ []) with (str "OK" ++ str "AY" ++ [x00; x00; x00; x00] ++ []).
  repeat constructor.
Qed.

Definition ex_push_fail : conn := mkConn [RChunk (str "FAI"); RChunk (str "L" ++ PutUint32 4 ++ str "full")] [] [] false.

Lemma sync_push_pull_roundtrip_witness :
  (PushContent (str "hello") (str "/sdcard/f") (mkPushOptions 0 7) ex_push_conn).1 = Ok tt /\
  (PushContent (str "hello") (str "/sdcard/f") (mkPushOptions 0 7) ex_push_fail).1 = Err (Errorf (str "full")).
Proof.
  split.
  - destruct (sync_push_pull_roundtrip [] ex_push_conn (str "hello") (str "/sdcard/f") (mkPushOptions 0 7)
      [] (SYNC_OKAY ++ [x00; x00; x00; x00] ++ []) (Ok tt)) as (c' & sent & E & _).
    + apply (reply_okay [] [x00; x00; x00; x00]). reflexivity.
    + exact ex_push_feeds.
    + rewrite E. reflexivity.
  - destruct (sync_push_pull_roundtrip [] ex_push_fail (str "hello") (str "/sdcard/f") (mkPushOptions 0 7)
      [] (SYNC_FAIL ++ PutUint32 4 ++ str "full" ++ []) (Err (Errorf (str "full")))) as (c' & sent & E & _).
    + apply (reply_fail [] (str "full")). vm_compute. reflexivity.
    + split; [|split; reflexivity].
      exact (feeds_chunk [] (str "FAI") _ _ (feeds_chunk [] (str "L" ++ PutUint32 4 ++ str "full") [] [] (feeds_done []))).
    + rewrite E. reflexivity.
Defined.

Definition ex_dent : DirEntry := mkDirEntry (str "a.txt") 33188 12 1700000000.
Definition ex_dots : DirEntry := mkDirEntry (str ".") 16877 0 0.

Definition ex_dir : conn :=
  mkConn [RChunk (concat (dent_wire <$> [ex_dots; ex_dent]) ++ SYNC_DONE ++ replicate 16 x00)] [] [] false.

Lemma Readdir_lists_witness :
  exists c', Sync_Readdir (str "/sdcard") ex_dir = (Ok [ex_dent], c').
Proof.
  destruct (Readdir_lists [] ex_dir (str "/sdcard") [ex_dots; ex_dent] (replicate 16 x00) []) as (c' & E & _).
  - repeat constructor; vm_compute; discriminate.
  - reflexivity.
  - split_and!; [|reflexivity..]. exact (feeds_chunk [] _ [] [] (feeds_done [])).
  - exists c'. exact E.
Defined.

Lemma ReadFile_truncated_witness :
  (Sync_ReadFile (str "/sdcard/f") (mkConn [RChunk (data_frame (str "half"))] [] [] false)).1 = Ok (str "half").
Proof.
  apply (ReadFile_truncated _ _ [str "half"]).
  - repeat constructor.
  - split_and!; [|reflexivity..]. exact (feeds_chunk [] _ [] [] (feeds_done [])).
Defined.
