(* ===== verification/Pipe.v ===== *)
(** * Downloads through a pipe: [SyncService.Pull] and Go's [io.Pipe]

    [Pull] starts a goroutine that reads DATA frames from the connection and
    writes them into a pipe whose other end it returns.  Here the goroutine and
    the reader are interleaved: a [Write] waits until [Read]s have taken all its
    bytes, and either end can be closed at any time.  The refinement theorem
    says that every schedule delivers what [readData] computes on its own, which
    is how Sync.v models [ReadFile]. *)

From stdpp Require Import base list numbers.
From Stdlib Require Import ZArith Lia.
From S2P Require Import Prelude GoStrings GoNet Connection World Client Sync.

Local Open Scope Z_scope.

(** ** [io.Pipe] *)

(** The two error cells; the pipe is done once either is set. *)
Record pipe := mkPipe { p_werr : option goerror; p_rerr : option goerror }.

Definition NewPipe : pipe := mkPipe None None.

Definition is_done (p : pipe) : bool :=
  bool_decide (is_Some (p_werr p)) || bool_decide (is_Some (p_rerr p)).

#[global] Arguments is_done : simpl never.

(** [onceError.Store]: the first error stays. *)
Definition store (cell : option goerror) (e : goerror) : option goerror :=
  match cell with Some e0 => Some e0 | None => Some e end.

(** [PipeWriter.CloseWithError]; [Close] is it with a nil error. *)
Definition closeWrite (err : option goerror) (p : pipe) : pipe :=
  mkPipe (store (p_werr p) (default EOF err)) (p_rerr p).

(** [PipeReader.Close] *)
Definition closeRead (p : pipe) : pipe := mkPipe (p_werr p) (store (p_rerr p) ErrClosedPipe).

Definition readCloseError (p : pipe) : goerror :=
  match p_rerr p, p_werr p with None, Some e => e | _, _ => ErrClosedPipe end.

Definition writeCloseError (p : pipe) : goerror :=
  match p_werr p, p_rerr p with None, Some e => e | _, _ => ErrClosedPipe end.

(** ** The goroutine *)

(** [v, err := m; if err != nil { return err }] inside [readData] *)
Definition or_return {A} (m : io conn A) (k : A -> io conn (bytes + option goerror))
  : io conn (bytes + option goerror) :=
  r ← attempt m;
  match r with inr e => mret (inr (Some e)) | inl a => k a end.

(** One turn of the loop of [readData] up to its [writer.Write]: the data to
    write, or the error the function returns. *)
Definition readFrame : io conn (bytes + option goerror) :=
  or_return (readAscii 4) (fun reply =>
  if decide (reply = SYNC_DATA) then
    or_return (readBytes 4) (fun lengthData =>
    or_return (readBytes (Uint32 lengthData)) (fun data => mret (inl data)))
  else if decide (reply = SYNC_DONE) then
    or_return (readBytes 4) (fun _ => mret (inr None))
  else if decide (reply = SYNC_FAIL) then
    or_return (readError : io conn unit) (fun _ => mret (inr None))
  else mret (inr (Some (unexpected_reply reply (str "'DATA', 'DONE' or 'FAIL'"))))).

Inductive feeder :=
  | GFrame                  (* reading the next frame *)
  | GWrite (b : bytes)      (* in pw.Write, b not taken yet *)
  | GError (e : goerror)    (* before pw.CloseWithError(e) *)
  | GClose                  (* before the deferred pw.Close() *)
  | GDone.

(** The state of a download, with what the reader has received and the error
    its last [Read] returned. *)
Record pull := mkPull {
  pl_conn : conn;
  pl_pipe : pipe;
  pl_feeder : feeder;
  pl_got : bytes;
  pl_end : option goerror
}.

(** What [Pull] returns when the request has been sent on [c]. *)
Definition pull_init (c : conn) : pull := mkPull c NewPipe GFrame [] None.

(** [io.Pipe()] and [go func() { ... }()] *)
Definition start_pull : io conn pull := fun c => (Ok (pull_init c), c).

(** [SyncService.Pull] *)
Definition Sync_Pull (filePath : bytes) : io conn pull :=
  _ ← sendCommandWithArg SYNC_RECV filePath;
  start_pull.

Inductive pact :=
  | AFeed              (* one action of the goroutine *)
  | ARead (n : nat)    (* the caller's Read with a buffer of n bytes *)
  | ACloseReader.      (* the caller's Close *)

(** The goroutine; it blocks in [Write] while the pipe is open. *)
Definition feed (s : pull) : option pull :=
  let with_feeder c p g := Some (mkPull c p g (pl_got s) (pl_end s)) in
  match pl_feeder s with
  | GFrame =>
      match readFrame (pl_conn s) with
      | (Ok (inl data), c) => with_feeder c (pl_pipe s) (GWrite data)
      | (Ok (inr (Some e)), c) => with_feeder c (pl_pipe s) (GError e)
      | (Ok (inr None), c) => with_feeder c (pl_pipe s) GClose
      | _ => None
      end
  | GWrite _ =>
      if is_done (pl_pipe s) then with_feeder (pl_conn s) (pl_pipe s) (GError (writeCloseError (pl_pipe s)))
      else None
  | GError e => with_feeder (pl_conn s) (closeWrite (Some e) (pl_pipe s)) GClose
  | GClose => with_feeder (pl_conn s) (closeWrite None (pl_pipe s)) GDone
  | GDone => None
  end.

(** [PipeReader.Read]: the error of a closed pipe, or bytes from the pending
    [Write]; it blocks while there is none. *)
Definition pipe_Read (n : nat) (s : pull) : option pull :=
  if is_done (pl_pipe s) then
    Some (mkPull (pl_conn s) (pl_pipe s) (pl_feeder s) (pl_got s) (Some (readCloseError (pl_pipe s))))
  else match pl_feeder s with
       | GWrite b =>
           Some (mkPull (pl_conn s) (pl_pipe s)
                   (match drop n b with [] => GFrame | b' => GWrite b' end) (pl_got s ++ take n b) (pl_end s))
       | _ => None
       end.

Definition pexec (a : pact) (s : pull) : option pull :=
  match a with
  | AFeed => feed s
  | ARead n => pipe_Read n s
  | ACloseReader => Some (mkPull (pl_conn s) (closeRead (pl_pipe s)) (pl_feeder s) (pl_got s) (pl_end s))
  end.

Fixpoint pexec_all (l : list pact) (s : pull) : option pull :=
  match l with
  | [] => Some s
  | a :: l' => s' ← pexec a s; pexec_all l' s'
  end.

(** The states of a download that starts on connection [c0]. *)
Inductive preach (c0 : conn) : pull -> Prop :=
  | preach_init : preach c0 (pull_init c0)
  | preach_step a s s' : preach c0 s -> pexec a s = Some s' -> preach c0 s'.

(** ** Frames and the sequential loop *)

Lemma readData_loop_frame fuel acc c :
  readData_loop (S fuel) acc c =
  match readFrame c with
  | (Ok (inl data), c') => readData_loop fuel (acc ++ data) c'
  | (Ok (inr e), c') => (Ok (acc, e), c')
  | (Err e, c') => (Err e, c')
  | (Panic, c') => (Panic, c')
  | (OutOfFuel, c') => (OutOfFuel, c')
  end.
Proof.
  cbn [readData_loop]. unfold readFrame, or_stop, or_return, mbind, io_bind.
  destruct (attempt (readAscii 4) c) as [[[reply|]| | |] c1]; try done.
  destruct (decide (reply = SYNC_DATA)); [|destruct (decide (reply = SYNC_DONE)); [|destruct (decide (reply = SYNC_FAIL)); [|done]]].
  - destruct (attempt (readBytes 4) c1) as [[[ld|]| | |] c2]; try done.
    by destruct (attempt (readBytes (Uint32 ld)) c2) as [[[]| | |] c3].
  - by destruct (attempt (readBytes 4) c1) as [[[]| | |] c2].
  - by destruct (attempt readError c1) as [[[]| | |] c2].
Qed.

(** A frame takes its header and its data off the connection. *)
Lemma readFrame_size c data c' :
  readFrame c = (Ok (inl data), c') -> (8 + length data + conn_size c' <= conn_size c)%nat.
Proof.
  unfold readFrame, or_return, mbind, io_bind, readAscii, readBytes. intros E.
  destruct (ReadFull_cases (Z.to_nat 4) c) as [(reply & c1 & E1)|(e & c1 & E1)];
    [rewrite (attempt_Ok _ _ _ _ E1) in E | rewrite (attempt_Err _ _ _ _ E1) in E; by ret_inv E].
  destruct (ReadFull_bytes _ _ _ _ E1) as [_ H1].
  destruct (decide (reply = SYNC_DATA)) as [_|_];
    [|destruct (decide (reply = SYNC_DONE)) as [_|_]; [|destruct (decide (reply = SYNC_FAIL)) as [_|_]; [|by ret_inv E]]].
  - destruct (ReadFull_cases (Z.to_nat 4) c1) as [(ld & c2 & E2)|(e & c2 & E2)];
      [rewrite (attempt_Ok _ _ _ _ E2) in E | rewrite (attempt_Err _ _ _ _ E2) in E; by ret_inv E].
    destruct (ReadFull_bytes _ _ _ _ E2) as [_ H2].
    destruct (ReadFull_cases (Z.to_nat (Uint32 ld)) c2) as [(d & c3 & E3)|(e & c3 & E3)];
      [rewrite (attempt_Ok _ _ _ _ E3) in E | rewrite (attempt_Err _ _ _ _ E3) in E; by ret_inv E].
    destruct (ReadFull_bytes _ _ _ _ E3) as [H3 H4]. ret_inv E. lia.
  - by destruct (attempt (ReadFull (Z.to_nat 4)) c1) as [[[]| | |] c2]; ret_inv E.
  - by destruct (attempt readError c1) as [[[]| | |] c2]; ret_inv E.
Qed.

Lemma readFrame_shrinks : shrinks readFrame.
Proof.
  unfold readFrame, or_return, readError, readAscii, readBytes.
  repeat first [case_match | apply shrinks_bind; [|intros ?] | solve [auto with adb] | apply shrinks_attempt].
Qed.

Lemma readFrame_Ok c : exists r c', readFrame c = (Ok r, c').
Proof.
  pose proof (readData_loop_frame (S (conn_size c)) [] c) as H.
  destruct (readData_loop_total (S (S (conn_size c))) [] c ltac:(lia)) as (r & c' & E). rewrite E in H.
  destruct (readFrame c) as [[r1| | |] c1]; [by eauto | done..].
Qed.

Lemma readData_loop_prefix fuel : forall acc c d e c',
  readData_loop fuel acc c = (Ok (d, e), c') -> acc `prefix_of` d.
Proof.
  induction fuel as [|fuel IH]; intros acc c d e c'; [done|]. rewrite readData_loop_frame.
  destruct (readFrame c) as [[[data|err]| | |] c1]; try done.
  - intros E%IH. etrans; [|exact E]. by exists data.
  - intros [= <- <- <-]. done.
Qed.

(** The sequential download of [c0] has collected [acc] and goes on at [c]. *)
Definition continues (c0 : conn) (acc : bytes) (c : conn) : Prop :=
  exists fuel, (conn_size c < fuel)%nat /\ readData c0 = readData_loop fuel acc c.

Lemma continues_frame c0 acc c r c' :
  continues c0 acc c -> readFrame c = (Ok r, c') ->
  match r with
  | inl data => continues c0 (acc ++ data) c'
  | inr e => readData c0 = (Ok (acc, e), c')
  end.
Proof.
  intros (fuel & Hf & E) Er. destruct fuel as [|fuel]; [lia|]. rewrite readData_loop_frame, Er in E.
  destruct r as [data|e]; [|done]. exists fuel. split; [|done]. apply readFrame_size in Er. lia.
Qed.

(** ** The invariant *)

Section invariant.
Context (c0 : conn) (data : bytes) (err : option goerror) (c1 : conn).
Context (Hseq : readData c0 = (Ok (data, err), c1)).

Lemma continues_prefix acc c : continues c0 acc c -> acc `prefix_of` data.
Proof. intros (fuel & _ & E). rewrite Hseq in E. symmetry in E. by eapply readData_loop_prefix. Qed.

Definition feeder_inv (s : pull) : Prop :=
  match pl_feeder s with
  | GFrame => p_werr (pl_pipe s) = None /\ continues c0 (pl_got s) (pl_conn s)
  | GWrite b => p_werr (pl_pipe s) = None /\ continues c0 (pl_got s ++ b) (pl_conn s)
  | GError e => p_werr (pl_pipe s) = None /\ (p_rerr (pl_pipe s) = None -> pl_got s = data /\ err = Some e)
  | GClose => p_rerr (pl_pipe s) = None -> pl_got s = data /\ p_werr (pl_pipe s) = err
  | GDone => p_rerr (pl_pipe s) = None -> pl_got s = data /\ p_werr (pl_pipe s) = Some (default EOF err)
  end.

Definition pull_inv (s : pull) : Prop :=
  pl_got s `prefix_of` data /\ feeder_inv s /\
  (forall e, pl_end s = Some e -> is_done (pl_pipe s) = true /\
     (p_rerr (pl_pipe s) = None -> pl_got s = data /\ e = default EOF err)).

Lemma is_done_false p : is_done p = false <-> p_werr p = None /\ p_rerr p = None.
Proof. unfold is_done. destruct p as [[] []]; simpl; naive_solver. Qed.

Lemma closeWrite_done x p : is_done (closeWrite x p) = true.
Proof. unfold is_done. by destruct p as [[] ?]. Qed.

Lemma closeRead_done p : is_done (closeRead p) = true.
Proof. unfold is_done. destruct p as [? []]; by rewrite orb_true_r. Qed.

Lemma pull_inv_feed s s' : pull_inv s -> feed s = Some s' -> pull_inv s'.
Proof.
  intros (Hp & Hf & He) E. unfold feed in E. unfold pull_inv, feeder_inv in *.
  destruct s as [c p g got en]; simpl in *. destruct g as [|b|e| |].
  - destruct Hf as [Hw Hc]. destruct (readFrame_Ok c) as (r & c' & Er). rewrite Er in E.
    pose proof (continues_frame _ _ _ _ _ Hc Er) as Hn.
    destruct r as [d|[e|]]; simplify_eq/=; (split; [done|]); (split; [|done]).
    + done.
    + rewrite Hseq in Hn. by simplify_eq.
    + intros _. rewrite Hseq in Hn. by simplify_eq.
  - destruct (is_done p) eqn:Hd; [|done]. simplify_eq/=. split; [done|]. split; [|by rewrite Hd].
    split; [apply Hf|]. intros Hr. destruct Hf as [Hw _].
    rewrite (proj2 (is_done_false p)) in Hd by done. done.
  - simplify_eq/=. split; [done|]. destruct Hf as [Hw Hf]. rewrite Hw. simpl. split.
    + intros Hr. by destruct (Hf Hr) as [-> ->].
    + intros e' Hen. destruct (He e' Hen) as [Hd Hx]. by split; [apply closeWrite_done|].
  - simplify_eq/=. split; [done|]. split.
    + intros Hr. destruct (Hf Hr) as [-> ->]. by destruct err.
    + intros e' Hen. destruct (He e' Hen) as [Hd Hx]. by split; [apply closeWrite_done|].
  - done.
Qed.

Lemma pull_inv_read n s s' : pull_inv s -> pipe_Read n s = Some s' -> pull_inv s'.
Proof.
  intros (Hp & Hf & He) E. unfold pipe_Read in E. destruct s as [c p g got en]; simpl in *.
  destruct (is_done p) eqn:Hd; simplify_eq/=.
  - split; [done|]. split; [done|]. intros e [= <-]. split; [done|]. simpl. intros Hr.
    unfold readCloseError. rewrite Hr. unfold feeder_inv in Hf. simpl in Hf.
    assert (Hw : p_werr p <> None) by (intros Hw; by rewrite (proj2 (is_done_false p)) in Hd).
    destruct g as [|b|e| |]; [by destruct Hf as [? _].. | |]; destruct (Hf Hr) as [-> Ew];
      rewrite Ew in *; by destruct err.
  - destruct g as [|b|e| |]; simplify_eq/=. destruct Hf as [Hw Hc]. split.
    + etrans; [|exact (continues_prefix _ _ Hc)]. apply prefix_app. exists (drop n b). by rewrite take_drop.
    + split.
      * unfold feeder_inv. simpl. rewrite <- (take_drop n b), app_assoc in Hc.
        destruct (drop n b); [rewrite app_nil_r in Hc|]; done.
      * intros e Hen. by destruct (He e Hen) as [? _].
Qed.

Lemma pull_inv_reach s : preach c0 s -> pull_inv s.
Proof.
  induction 1 as [|a s s' Hs IH E].
  - split; [apply prefix_nil|]. split; [|done]. split; [done|]. exists (S (conn_size c0)). simpl. split; [lia | done].
  - destruct a as [|n|]; simpl in E; [by eapply pull_inv_feed | by eapply pull_inv_read |].
    destruct IH as (Hp & Hf & He). simplify_eq/=.
    assert (Hr : forall p, p_rerr (closeRead p) <> None) by (intros [? []]; done).
    split; [done|]. split.
    + unfold feeder_inv in *. simpl in *. destruct (pl_feeder s); try done;
        try (intros ?; by destruct (Hr (pl_pipe s))). split; [by destruct Hf|]. intros ?. by destruct (Hr (pl_pipe s)).
    + intros e Hen. split; [apply closeRead_done | intros Hx; by destruct (Hr _ Hx)].
Qed.
End invariant.

Lemma readData_total c0 : exists data err c1, readData c0 = (Ok (data, err), c1).
Proof.
  destruct (readData_loop_total (S (conn_size c0)) [] c0 ltac:(lia)) as ([data err] & c1 & E).
  by exists data, err, c1.
Qed.

(** C14. The pipe is transparent: under every schedule of the goroutine, the caller's
    reads with buffers of any size and [Close], what has been read is a prefix of
    what the sequential [readData] writes; and when a read of a pipe the caller
    has not closed fails, everything has been read and [ReadFile] - the sequential
    model of it in Sync.v - returns just those bytes, or that error. *)
Theorem ReadFile_pipe_equiv path c s p c0 :
  Sync_Pull path c = (Ok p, c0) -> preach c0 s ->
  exists data err c1, readData c0 = (Ok (data, err), c1) /\ pl_got s `prefix_of` data /\
    (forall e, pl_end s = Some e -> p_rerr (pl_pipe s) = None ->
       pl_got s = data /\ (Sync_ReadFile path c).1 = if decide (e = EOF) then Ok (pl_got s) else Err e).
Proof.
  intros Ep Hs. destruct (readData_total c0) as (data & err & c1 & E). exists data, err, c1.
  destruct (pull_inv_reach _ _ _ _ E s Hs) as (Hp & _ & He). split_and!; [done | done |].
  intros e Hen Hr. destruct (He e Hen) as [_ H]. destruct (H Hr) as [-> ->]. split; [done|].
  unfold Sync_Pull, start_pull, mbind, io_bind in Ep.
  destruct (sendCommandWithArg SYNC_RECV path c) as [[[]| | |] c2] eqn:E2; simplify_eq.
  unfold Sync_ReadFile. rewrite (io_bind_Ok _ _ _ _ _ E2), (io_bind_Ok _ _ _ _ _ E). by destruct err as [[]|].
Qed.

(** What is left to do in a download that the caller reads to its end. *)
Definition feeder_size (g : feeder) : nat :=
  match g with GFrame => 4 | GWrite b => 5 + length b | GError _ => 3 | GClose => 2 | GDone => 1 end.

Definition pull_size (s : pull) : nat :=
  conn_size (pl_conn s) + feeder_size (pl_feeder s) + match pl_end s with None => 1 | Some _ => 0 end.

Lemma feed_size s s' : feed s = Some s' -> (pull_size s' < pull_size s)%nat.
Proof.
  unfold feed, pull_size. destruct (pl_feeder s) as [|b|e| |] eqn:Eg; intros E; simplify_eq/=; try lia.
  - pose proof (readFrame_shrinks (pl_conn s)) as Hle.
    destruct (readFrame (pl_conn s)) as [[[d|[e|]]| | |] c'] eqn:Er; simplify_eq/=; [apply readFrame_size in Er|..]; lia.
  - destruct (is_done (pl_pipe s)); [|done]. simplify_eq/=. lia.
Qed.

Lemma pipe_Read_size n s s' :
  pipe_Read n s = Some s' -> n <> 0%nat -> pl_end s = None -> (pull_size s' < pull_size s)%nat.
Proof.
  unfold pipe_Read, pull_size. intros E Hn He. rewrite He.
  destruct (is_done (pl_pipe s)); simplify_eq/=; [lia|].
  destruct (pl_feeder s) as [|b|e| |]; simplify_eq/=.
  pose proof (length_drop b n) as Hl. destruct (drop n b) as [|x b']; simpl in *; rewrite He; lia.
Qed.

(** C24. A download that is read to the end ends: as long as the caller has seen no
    error and keeps reading with non-empty buffers, the goroutine or the reader
    can act, and every action of either brings the end nearer - there is no
    deadlock and at most [pull_size] actions remain, in whatever order they are
    scheduled. *)
Theorem pull_progress c0 s n :
  preach c0 s -> pl_end s = None -> n <> 0%nat ->
  (exists s', pexec AFeed s = Some s' \/ pexec (ARead n) s = Some s') /\
  (forall a s', a = AFeed \/ a = ARead n -> pexec a s = Some s' -> (pull_size s' < pull_size s)%nat).
Proof.
  intros Hs He Hn. split.
  - simpl. unfold feed, pipe_Read. destruct (readFrame_Ok (pl_conn s)) as (r & c' & Er). rewrite Er.
    destruct (is_done (pl_pipe s)) eqn:Hd; [by eexists; right|].
    destruct (pl_feeder s) as [|b|e| |] eqn:Eg; [|by eexists; right | by eexists; left | by eexists; left |].
    + destruct r as [d|[e|]]; by eexists; left.
    + exfalso. destruct (readData_total c0) as (data & err & c1 & E).
      destruct (pull_inv_reach _ _ _ _ E s Hs) as (_ & Hf & _). unfold feeder_inv in Hf. rewrite Eg in Hf.
      apply is_done_false in Hd as [Hw Hr]. destruct (Hf Hr) as [_ Hx]. by rewrite Hw in Hx.
  - intros a s' [-> | ->] E; simpl in E; [by apply feed_size | by eapply pipe_Read_size].
Qed.

(** The goroutine on its own, from each point of its last iteration. *)
Definition finishes (k : nat) (s : pull) : Prop :=
  exists s', pexec_all (replicate k AFeed) s = Some s' /\ pl_feeder s' = GDone /\ pl_got s' = pl_got s.

Lemma finishes_step k s s1 : feed s = Some s1 -> pl_got s1 = pl_got s -> finishes k s1 -> finishes (S k) s.
Proof.
  intros E Hg (s' & E' & Hd & H). exists s'. cbn [replicate pexec_all pexec]. rewrite E. split_and!; [done | done | congruence].
Qed.

Lemma finishes_GClose c p got en : finishes 1 (mkPull c p GClose got en).
Proof. by eexists. Qed.

Lemma finishes_GError c p e got en : finishes 2 (mkPull c p (GError e) got en).
Proof. by eexists. Qed.

Lemma finishes_GWrite c p b got en : is_done p = true -> finishes 3 (mkPull c p (GWrite b) got en).
Proof.
  intros Hd. eapply finishes_step; [| |apply (finishes_GError c p (writeCloseError p) got en)]; [|done].
  unfold feed. cbn [pl_feeder pl_pipe]. by rewrite Hd.
Qed.

(** Closing the reader stops the goroutine: in at most four of its actions - the
    frame it may be waiting for, a [Write] that fails, and closing its end - it
    is done, whatever it was doing; the reader gets nothing more. *)
Theorem pull_close_stops c0 s :
  preach c0 s -> is_Some (p_rerr (pl_pipe s)) ->
  exists k s', (k <= 4)%nat /\ pexec_all (replicate k AFeed) s = Some s' /\ pl_feeder s' = GDone /\ pl_got s' = pl_got s.
Proof.
  intros _ Hr. enough (exists k, (k <= 4)%nat /\ finishes k s) as (k & Hk & s' & H) by by exists k, s'.
  assert (Hd : is_done (pl_pipe s) = true).
  { unfold is_done. rewrite (bool_decide_true (is_Some (p_rerr _))) by done. by rewrite orb_true_r. }
  destruct s as [c p g got en]; simpl in *. destruct g as [|b|e| |].
  - destruct (readFrame_Ok c) as (r & c' & Er). destruct r as [d|[e|]].
    + exists 4%nat. split; [lia|]. eapply finishes_step; [| |by apply (finishes_GWrite c' p d)]; [|done].
      unfold feed. cbn [pl_feeder pl_conn]. by rewrite Er.
    + exists 3%nat. split; [lia|]. eapply finishes_step; [| |apply (finishes_GError c' p e)]; [|done].
      unfold feed. cbn [pl_feeder pl_conn]. by rewrite Er.
    + exists 2%nat. split; [lia|]. eapply finishes_step; [| |apply (finishes_GClose c' p)]; [|done].
      unfold feed. cbn [pl_feeder pl_conn]. by rewrite Er.
  - exists 3%nat. split; [lia | by apply finishes_GWrite].
  - exists 2%nat. split; [lia | apply finishes_GError].
  - exists 1%nat. split; [lia | apply finishes_GClose].
  - exists 0%nat. split; [lia|]. by eexists.
Qed.

(** ** Instances *)

Definition ex_download : conn :=
  mkConn [RChunk (SYNC_DATA ++ PutUint32 5 ++ str "he"); RChunk (str "llo" ++ SYNC_DONE ++ PutUint32 0)] [] [] false.

Definition ex_schedule : list pact := [AFeed; ARead 2; ARead 8; AFeed; AFeed; ARead 8].

Lemma pexec_all_reach c0 l s s' : preach c0 s -> pexec_all l s = Some s' -> preach c0 s'.
Proof.
  revert s. induction l as [|a l IH]; intros s Hs E; [by simplify_eq/=|].
  cbn [pexec_all] in E. destruct (pexec a s) as [s1|] eqn:E1; [|done].
  apply (IH s1); [by eapply preach_step | done].
Qed.

(** The connection after the request. *)
Definition Write_done (c : conn) : conn := (sendCommandWithArg SYNC_RECV (str "/f") c).2.

Definition ex_pull : pull :=
  default (pull_init ex_download) (pexec_all ex_schedule (pull_init (Write_done ex_download))).

Lemma ex_pull_reach : preach (Write_done ex_download) ex_pull.
Proof. eapply (pexec_all_reach _ ex_schedule); [apply preach_init | reflexivity]. Qed.

Lemma ReadFile_pipe_equiv_witness :
  pl_got ex_pull = str "hello" /\ pl_end ex_pull = Some EOF /\
  exists data err c1, readData (Write_done ex_download) = (Ok (data, err), c1) /\ pl_got ex_pull `prefix_of` data /\
    (forall e, pl_end ex_pull = Some e -> p_rerr (pl_pipe ex_pull) = None ->
       pl_got ex_pull = data /\
       (Sync_ReadFile (str "/f") ex_download).1 = if decide (e = EOF) then Ok (pl_got ex_pull) else Err e).
Proof.
  split; [reflexivity|]. split; [reflexivity|].
  apply (ReadFile_pipe_equiv (str "/f") ex_download ex_pull (pull_init (Write_done ex_download))); [reflexivity|].
  exact ex_pull_reach.
Defined.

Lemma pull_progress_witness :
  exists s', pexec AFeed (pull_init ex_download) = Some s' \/ pexec (ARead 3) (pull_init ex_download) = Some s'.
Proof. apply (pull_progress ex_download _ 3 (preach_init ex_download)); [reflexivity | discriminate]. Defined.

Lemma pull_close_stops_witness :
  exists k s', (k <= 4)%nat /\
    pexec_all (replicate k AFeed) (mkPull ex_download (closeRead NewPipe) GFrame [] None) = Some s' /\
    pl_feeder s' = GDone /\ pl_got s' = [].
Proof.
  apply (pull_close_stops ex_download (mkPull ex_download (closeRead NewPipe) GFrame [] None)).
  - exact (preach_step ex_download ACloseReader _ _ (preach_init _) eq_refl).
  - by eexists.
Defined.
