(* ===== verification/ShellV2.v ===== *)
(** * Shell protocol v2: adb/device_shell_v2.go

    Packets, the session's read loop that separates stdout and stderr and picks
    up the exit code, the buffered streams, and [RunCommandV2].  [closeOnce],
    the mutexes and the condition variable only order the operations modelled
    here as atomic; a blocked [Read] of a stream has no result. *)

From stdpp Require Import base list numbers.
From Stdlib Require Import ZArith Lia.
From S2P Require Import Prelude GoStrings GoNet Connection World Client.

Local Open Scope Z_scope.

Definition shellV2IDStdin : byte := x00.
Definition shellV2IDStdout : byte := x01.
Definition shellV2IDStderr : byte := x02.
Definition shellV2IDExit : byte := x03.
Definition shellV2IDCloseStdin : byte := x04.
Definition shellV2IDWindowSizeChange : byte := x05.

Definition shellV2HeaderSize : nat := 5.
Definition shellV2MaxPayload : Z := 16 * 1024 * 1024.
Definition shellV2WriteChunkSize : Z := 64 * 1024.

Record ShellV2Options := mkV2Options { Term : bytes; PTY : bool }.
Record ShellV2Result := mkV2Result { Stdout : bytes; Stderr : bytes; ExitCode : Z }.

(** [buildShellV2Service] *)
Definition buildShellV2Service (command : bytes) (opts : ShellV2Options) : bytes :=
  let args := [str "shell"; str "v2"]
    ++ (match Term opts with [] => [] | t => [str "TERM=" ++ t] end)
    ++ (if PTY opts then [str "pty"] else [str "raw"]) in
  Join args (str ",") ++ str ":" ++ command.

(** ** Packets *)

(** [writeAll]: every round but the last accepts at least one byte. *)
Fixpoint writeAll_loop (fuel : nat) (p : bytes) : io conn unit :=
  match p, fuel with
  | [], _ => mret tt
  | _, O => out_of_fuel
  | _, S fuel' =>
      '(n, err) ← WriteN p;
      match err with
      | Some e => fail e
      | None => if decide (n = 0%nat) then fail ErrShortWrite else writeAll_loop fuel' (drop n p)
      end
  end.

Definition writeAll (p : bytes) : io conn unit := writeAll_loop (length p) p.

(** [writeShellV2Packet] *)
Definition writeShellV2Packet (id : byte) (payload : bytes) : io conn unit :=
  _ ← writeAll (id :: PutUint32 (zlen payload));
  writeAll payload.

(** [readShellV2Packet] *)
Definition readShellV2Packet : io conn (byte * bytes) :=
  header ← ReadFull shellV2HeaderSize;
  match header with
  | [] => gopanic
  | id :: rest =>
      let length := Uint32 rest in
      if shellV2MaxPayload <? length then
        fail (Errorf (str "shell v2 packet too large: " ++ fmt_d length ++ str " bytes"))
      else if length =? 0 then mret (id, [])
      else payload ← ReadFull (Z.to_nat length); mret (id, payload)
  end.

(** ** Streams *)

Record shellV2Stream := mkStream { buf : bytes; st_closed : bool }.

Definition newShellV2Stream : shellV2Stream := mkStream [] false.

(** [write] *)
Definition stream_write (p : bytes) (s : shellV2Stream) : shellV2Stream :=
  match p with [] => s | _ => mkStream (buf s ++ p) (st_closed s) end.

(** [close] *)
Definition stream_close (s : shellV2Stream) : shellV2Stream := mkStream (buf s) true.

(** [Read] into a buffer of [n > 0] bytes; [None] while it waits. *)
Definition stream_Read (n : nat) (s : shellV2Stream) : option (outcome bytes) * shellV2Stream :=
  match buf s with
  | [] => (if st_closed s then Some (Err EOF) else None, s)
  | b => (Some (Ok (take n b)), mkStream (drop n b) (st_closed s))
  end.

(** ** The session *)

Record session := mkSession {
  stdout : shellV2Stream;
  stderr : shellV2Stream;
  done : bool;
  gotExit : bool;
  exitCode : Z;
  s_err : option goerror
}.

Definition new_session : session :=
  mkSession newShellV2Stream newShellV2Stream false false 0 None.

(** The deferred calls of [readLoop], with the fields set on its way out. *)
Definition finish (s : session) (exit : bool) (code : Z) (err : option goerror) : session :=
  mkSession (stream_close (stdout s)) (stream_close (stderr s)) true exit code err.

Definition on_stdout (p : bytes) (s : session) : session :=
  mkSession (stream_write p (stdout s)) (stderr s) (done s) (gotExit s) (exitCode s) (s_err s).
Definition on_stderr (p : bytes) (s : session) : session :=
  mkSession (stdout s) (stream_write p (stderr s)) (done s) (gotExit s) (exitCode s) (s_err s).

Fixpoint readLoop_loop (fuel : nat) (s : session) : io conn session :=
  match fuel with
  | O => out_of_fuel
  | S fuel' =>
      r ← attempt readShellV2Packet;
      match r with
      | inr e => mret (finish s (gotExit s) (exitCode s) (if decide (e = EOF) then s_err s else Some e))
      | inl (id, payload) =>
          if decide (id = shellV2IDStdout) then readLoop_loop fuel' (on_stdout payload s)
          else if decide (id = shellV2IDStderr) then readLoop_loop fuel' (on_stderr payload s)
          else if decide (id = shellV2IDExit) then
            mret (finish s true (match payload with [] => exitCode s | b :: _ => byte_to_Z b end) (s_err s))
          else readLoop_loop fuel' s
      end
  end.

(** [readLoop]; the transport is closed on the way out. *)
Definition readLoop : io conn session :=
  defer Close (fun c => readLoop_loop (S (conn_size c)) new_session c).

(** [Wait], once [done] is closed *)
Definition Wait (s : session) : outcome Z :=
  match s_err s with
  | Some e => Err e
  | None => if gotExit s then Ok (exitCode s) else Err ErrUnexpectedEOF
  end.

(** [writePacket]; [writeMu] makes the packet one step. *)
Definition writePacket (id : byte) (payload : bytes) : io conn unit := writeShellV2Packet id payload.

(** The loop of the session's [Write]: the number of bytes written and the error. *)
Fixpoint Session_Write_loop (fuel : nat) (written : Z) (p : bytes) : io conn (Z * option goerror) :=
  match p, fuel with
  | [], _ => mret (written, None)
  | _, O => out_of_fuel
  | _, S fuel' =>
      let n := Z.to_nat (if shellV2WriteChunkSize <? zlen p then shellV2WriteChunkSize else zlen p) in
      r ← attempt (writePacket shellV2IDStdin (take n p));
      match r with
      | inr e => mret (written, Some e)
      | inl _ => Session_Write_loop fuel' (written + Z.of_nat n) (drop n p)
      end
  end.

(** [Write] *)
Definition Session_Write (p : bytes) : io conn (Z * option goerror) := Session_Write_loop (length p) 0 p.

(** [CloseStdin] *)
Definition CloseStdin : io conn unit := writePacket shellV2IDCloseStdin [].

(** [Resize] *)
Definition Resize (rows cols : Z) : io conn unit :=
  writePacket shellV2IDWindowSizeChange (fmt_d rows ++ str "x" ++ fmt_d cols ++ str ",0x0" ++ [x00]).

(** The request that opens the session. *)
Definition open_session (command : bytes) (opts : ShellV2Options) : io conn unit :=
  status ← SendCommand (buildShellV2Service command opts);
  if decide (status = StatusOkay) then mret tt
  else
    msg ← readLengthPrefixed_or_empty;
    fail (match msg with
          | [] => unexpected_status status
          | _ => Errorf (str "shell v2 failed: " ++ msg)
          end).

(** The body of [RunCommandV2Context]: everything the two readers collect once
    the read loop has closed the streams, and the exit code. *)
Definition run_session (x : ctx) : io conn ShellV2Result :=
  s ← readLoop;
  match ctx_Err x with
  | Some e => fail e
  | None => code ← of_outcome (Wait s); mret (mkV2Result (buf (stdout s)) (buf (stderr s)) code)
  end.

Section device.
Context {C : Type} `{!Connector C} (client : C) (d : DeviceDescriptor).

(** [ShellV2WithOptionsContext] *)
Definition ShellV2WithOptionsContext (command : bytes) (opts : ShellV2Options) : io world nat :=
  h ← TransportContext client d;
  _ ← on_error (on_conn h (open_session command opts)) (on_conn h Close);
  mret h.

(** [ShellV2Context], [ShellV2], [ShellV2WithOptions]: raw mode is the zero value
    of [ShellV2Options]. *)
Definition ShellV2Context (command : bytes) : io world nat :=
  ShellV2WithOptionsContext command (mkV2Options [] false).

Definition ShellV2 (command : bytes) : io world nat := ShellV2Context command.

Definition ShellV2WithOptions (command : bytes) (opts : ShellV2Options) : io world nat :=
  ShellV2WithOptionsContext command opts.

(** [RunCommandV2Context] *)
Definition RunCommandV2Context (x : ctx) (command : bytes) : io world ShellV2Result :=
  h ← ShellV2WithOptionsContext command (mkV2Options [] false);
  defer (on_conn h Close) (on_conn h (run_session x)).

(** [RunCommandV2] *)
Definition RunCommandV2 (command : bytes) : io world ShellV2Result := RunCommandV2Context Background command.

Context `{!ConnectorLaws C}.

Lemma ShellV2_opens command opts : opens (ShellV2WithOptionsContext command opts).
Proof. apply opens_on_error; [apply TransportContext_opens, _ | auto with adb]. Qed.

Lemma RunCommandV2Context_tidy x command : tidy (RunCommandV2Context x command).
Proof. apply tidy_with; [apply ShellV2_opens | auto with adb]. Qed.
End device.

#[export] Hint Resolve ShellV2_opens RunCommandV2Context_tidy : adb.

(** ** Packets on the wire *)

Definition v2_wire (p : byte * bytes) : bytes := p.1 :: PutUint32 (zlen p.2) ++ p.2.

Definition v2_wf (p : byte * bytes) : Prop := zlen p.2 <= shellV2MaxPayload.

Lemma v2_wire_assoc id payload s :
  v2_wire (id, payload) ++ s = (id :: PutUint32 (zlen payload)) ++ payload ++ s.
Proof. done. Qed.

Lemma readShellV2Packet_feeds tl c p s :
  v2_wf p -> conn_feeds tl c (v2_wire p ++ s) ->
  exists c', readShellV2Packet c = (Ok p, c') /\ conn_feeds tl c' s /\ written c' = written c /\
    (conn_size c' < conn_size c)%nat.
Proof.
  destruct p as [id payload]. unfold v2_wf, shellV2MaxPayload. cbn [snd]. intros Hp Hf.
  rewrite v2_wire_assoc in Hf.
  destruct (ReadFull_feeds_app tl c _ _ shellV2HeaderSize Hf eq_refl) as (c1 & E1 & Hf1 & Hw1).
  destruct (ReadFull_size _ _ _ _ E1) as [_ Hs1]. specialize (Hs1 ltac:(done) _ eq_refl).
  unfold readShellV2Packet. rewrite (io_bind_Ok _ _ _ _ _ E1).
  rewrite Uint32_PutUint32_nil by (unfold is_u32, zlen in *; lia).
  rewrite (proj2 (Z.ltb_ge _ _)) by (unfold shellV2MaxPayload; lia).
  destruct (Z.eqb_spec (zlen payload) 0) as [Hz|Hz].
  { destruct payload; [|unfold zlen in Hz; simpl in Hz; lia]. by exists c1. }
  unfold zlen. rewrite Nat2Z.id.
  destruct (ReadFull_feeds_app tl c1 payload s _ Hf1 eq_refl) as (c2 & E2 & Hf2 & Hw2).
  destruct (ReadFull_size _ _ _ _ E2) as [Hs2 _].
  rewrite (io_bind_Ok _ _ _ _ _ E2). exists c2. split_and!; [done | done | congruence | lia].
Qed.

(** A connection whose writes may be partial but never fail nor stall. *)
Definition accepts (c : conn) : Prop :=
  conn_closed c = false /\ Forall (fun w => exists n, w = WAccept (S n)) (wr_plan c).

Lemma writeAll_loop_accepts : forall fuel p c,
  (length p <= fuel)%nat -> accepts c ->
  exists c', writeAll_loop fuel p c = (Ok tt, c') /\ written c' = written c ++ p /\ accepts c' /\ rd c' = rd c.
Proof.
  induction fuel as [|fuel IH]; intros p c Hl Ha.
  { destruct p; [|simpl in Hl; lia]. exists c. by rewrite app_nil_r. }
  destruct p as [|b p]; [exists c; by rewrite app_nil_r|].
  destruct Ha as [Hc Hw]. cbn [writeAll_loop]. unfold mbind at 1, io_bind, WriteN. rewrite Hc.
  destruct (wr_plan c) as [|ev plan] eqn:Ep.
  - cbn [fst]. rewrite decide_False by (simpl; lia). rewrite drop_ge by done.
    exists (mkConn (rd c) [] (written c ++ b :: p) false). destruct fuel; simpl; by split_and!.
  - apply Forall_cons in Hw as [(n & ->) Hw]. rewrite decide_False by (simpl; lia).
    destruct (IH (drop (S n `min` length (b :: p)) (b :: p))
      (mkConn (rd c) plan (written c ++ take (S n) (b :: p)) false)) as (c' & E & Hwr & Ha' & Hrd).
    { rewrite length_drop. simpl in *. lia. }
    { by split. }
    exists c'. rewrite E. split_and!; try done. rewrite Hwr. cbn [written].
    rewrite <- app_assoc. f_equal.
    destruct (decide (S n <= length (b :: p))%nat).
    + rewrite Nat.min_l by done. by rewrite take_drop.
    + rewrite Nat.min_r by lia. rewrite take_ge, drop_ge, app_nil_r by lia. done.
Qed.

Lemma writeAll_accepts p c :
  accepts c ->
  exists c', writeAll p c = (Ok tt, c') /\ written c' = written c ++ p /\ accepts c' /\ rd c' = rd c.
Proof. intros H. by apply writeAll_loop_accepts. Qed.

Lemma writePacket_accepts id payload c :
  accepts c ->
  exists c', writePacket id payload c = (Ok tt, c') /\
    written c' = written c ++ v2_wire (id, payload) /\ accepts c'.
Proof.
  intros Ha. unfold writePacket, writeShellV2Packet.
  destruct (writeAll_accepts (id :: PutUint32 (zlen payload)) c Ha) as (c1 & E1 & Hw1 & Ha1 & _).
  rewrite (io_bind_Ok _ _ _ _ _ E1).
  destruct (writeAll_accepts payload c1 Ha1) as (c2 & E2 & Hw2 & Ha2 & _).
  exists c2. split_and!; [done | | done]. rewrite Hw2, Hw1, <- app_assoc. done.
Qed.

(** ** Demultiplexing *)

(** The payloads of the packets with one id, in order. *)
Definition payloads (id : byte) (ps : list (byte * bytes)) : bytes :=
  concat ((fun p => if decide (p.1 = id) then p.2 else []) <$> ps).

Lemma stream_write_buf p s : buf (stream_write p s) = buf s ++ p /\ st_closed (stream_write p s) = st_closed s.
Proof. destruct p; simpl; [by rewrite app_nil_r | done]. Qed.

(** What the session holds after a prefix of the device's packets. *)
Record absorbed (ps : list (byte * bytes)) (s s' : session) : Prop := {
  ab_stdout : buf (stdout s') = buf (stdout s) ++ payloads shellV2IDStdout ps;
  ab_stderr : buf (stderr s') = buf (stderr s) ++ payloads shellV2IDStderr ps;
  ab_exit : gotExit s' = gotExit s;
  ab_code : exitCode s' = exitCode s;
  ab_err : s_err s' = s_err s
}.

Lemma absorbed_cons p ps s s1 s' :
  absorbed [p] s s1 -> absorbed ps s1 s' -> absorbed (p :: ps) s s'.
Proof.
  intros [A1 A2 A3 A4 A5] [B1 B2 B3 B4 B5]. unfold payloads in *. cbn [fmap list_fmap concat] in *.
  rewrite !app_nil_r in A1, A2. constructor; unfold payloads; cbn [fmap list_fmap concat];
    rewrite ?B1, ?B2, ?A1, ?A2; try congruence; by rewrite <- app_assoc.
Qed.

Lemma readLoop_packets tl s0 : forall ps c fuel s,
  Forall (fun p => v2_wf p /\ p.1 <> shellV2IDExit) ps ->
  conn_feeds tl c (concat (v2_wire <$> ps) ++ s0) -> (conn_size c < fuel)%nat ->
  exists c' fuel' s', readLoop_loop fuel s c = readLoop_loop fuel' s' c' /\ conn_feeds tl c' s0 /\
    (conn_size c' < fuel')%nat /\ absorbed ps s s'.
Proof.
  induction ps as [|[id payload] ps IH]; intros c fuel s Hps Hf Hfuel.
  { exists c, fuel, s. split_and!; try done. constructor; simpl; by rewrite ?app_nil_r. }
  apply Forall_cons in Hps as [[Hwf Hid] Hps]. destruct fuel as [|fuel]; [lia|].
  cbn [fmap list_fmap concat] in Hf. rewrite <- app_assoc in Hf.
  destruct (readShellV2Packet_feeds tl c _ _ Hwf Hf) as (c1 & E1 & Hf1 & _ & Hs1).
  assert (Hstep : exists s1, readLoop_loop (S fuel) s c = readLoop_loop fuel s1 c1 /\
    absorbed [(id, payload)] s s1).
  { cbn [readLoop_loop]. rewrite (io_bind_Ok _ _ _ _ _ (attempt_Ok _ _ _ _ E1)).
    destruct (decide (id = shellV2IDStdout)) as [->|H1].
    { eexists. split; [done|]. constructor; unfold payloads; simpl; rewrite ?app_nil_r; try done.
      apply stream_write_buf. }
    destruct (decide (id = shellV2IDStderr)) as [->|H2].
    { eexists. split; [done|]. constructor; unfold payloads; simpl; rewrite ?app_nil_r; try done.
      apply stream_write_buf. }
    rewrite decide_False by done. eexists. split; [done|].
    constructor; unfold payloads; simpl; rewrite ?decide_False, ?app_nil_r by done; done. }
  destruct Hstep as (s1 & Es & Hab).
  destruct (IH c1 fuel s1 Hps Hf1) as (c' & fuel' & s' & E & Hf' & Hs' & Hab'); [lia|].
  exists c', fuel', s'. rewrite Es, E. split_and!; try done. by eapply absorbed_cons.
Qed.

Lemma readLoop_exit tl c fuel s code s0 :
  conn_feeds tl c (v2_wire (shellV2IDExit, [code]) ++ s0) -> (conn_size c < fuel)%nat ->
  exists c', readLoop_loop fuel s c = (Ok (finish s true (byte_to_Z code) (s_err s)), c').
Proof.
  intros Hf Hfuel. destruct fuel as [|fuel]; [lia|]. cbn [readLoop_loop].
  destruct (readShellV2Packet_feeds tl c (shellV2IDExit, [code]) s0) as (c1 & E1 & _); [by vm_compute | done |].
  rewrite (io_bind_Ok _ _ _ _ _ (attempt_Ok _ _ _ _ E1)), !decide_False, decide_True by done. by exists c1.
Qed.

Lemma readLoop_eof c fuel s :
  conn_feeds [] c [] -> (0 < fuel)%nat ->
  exists c', readLoop_loop fuel s c = (Ok (finish s (gotExit s) (exitCode s) (s_err s)), c').
Proof.
  intros Hf Hfuel. destruct fuel as [|fuel]; [lia|]. cbn [readLoop_loop].
  assert (E1 : readShellV2Packet c = (Err EOF, set_rd c [])).
  { unfold readShellV2Packet. by rewrite (io_bind_Err _ _ _ _ _ (ReadFull_short c [] shellV2HeaderSize Hf ltac:(unfold shellV2HeaderSize; simpl; lia))). }
  rewrite (io_bind_Ok _ _ _ _ _ (attempt_Err _ _ _ _ E1)), decide_True by done. by eexists.
Qed.

Lemma readLoop_run c s c' :
  readLoop_loop (S (conn_size c)) new_session c = (Ok s, c') -> exists c'', readLoop c = (Ok s, c'').
Proof. intros E. unfold readLoop, defer. rewrite E. by eexists. Qed.

Lemma run_session_exit tl x c ps code s0 :
  Forall (fun p => v2_wf p /\ p.1 <> shellV2IDExit) ps ->
  conn_feeds tl c (concat (v2_wire <$> ps) ++ v2_wire (shellV2IDExit, [code]) ++ s0) -> ctx_Err x = None ->
  exists c', run_session x c =
    (Ok (mkV2Result (payloads shellV2IDStdout ps) (payloads shellV2IDStderr ps) (byte_to_Z code)), c').
Proof.
  intros Hps Hf Hx.
  destruct (readLoop_packets tl _ ps c (S (conn_size c)) new_session Hps Hf) as (c1 & f1 & s1 & E1 & Hf1 & Hs1 & []); [lia|].
  destruct (readLoop_exit tl c1 f1 s1 code s0 Hf1 Hs1) as (c2 & E2). rewrite E2 in E1.
  destruct (readLoop_run c _ _ E1) as (c3 & E3). exists c3. unfold run_session.
  rewrite (io_bind_Ok _ _ _ _ _ E3), Hx. unfold Wait, finish. simpl in *. rewrite ab_err0. simpl.
  unfold mbind, io_bind, of_outcome, mret, io_ret. by rewrite ab_stdout0, ab_stderr0.
Qed.

Lemma run_session_cut x c ps :
  Forall (fun p => v2_wf p /\ p.1 <> shellV2IDExit) ps ->
  conn_feeds [] c (concat (v2_wire <$> ps)) -> ctx_Err x = None ->
  exists c', run_session x c = (Err ErrUnexpectedEOF, c').
Proof.
  intros Hps Hf Hx. rewrite <- (app_nil_r (concat _)) in Hf.
  destruct (readLoop_packets [] _ ps c (S (conn_size c)) new_session Hps Hf) as (c1 & f1 & s1 & E1 & Hf1 & Hs1 & []); [lia|].
  destruct (readLoop_eof c1 f1 s1 Hf1 ltac:(lia)) as (c2 & E2). rewrite E2 in E1.
  destruct (readLoop_run c _ _ E1) as (c3 & E3). exists c3. unfold run_session.
  rewrite (io_bind_Ok _ _ _ _ _ E3), Hx. unfold Wait, finish. simpl in *. by rewrite ab_err0, ab_exit0.
Qed.

(** ** Properties *)

Section run.
Context {C : Type} `{!Connector C, !ConnectorLaws C} (client : C).

Lemma ShellV2_ok tl w c d command opts evs s :
  dials_to client w c -> replies c StatusOkay evs ->
  feeds tl evs (StatusOkay ++ s) ->
  exists w' c', ShellV2WithOptionsContext client d command opts w = (Ok (length (conns w)), w') /\
    conns w' = conns w ++ [c'] /\ conn_feeds tl c' s.
Proof.
  intros Hd Hr Hf. destruct (TransportContext_ok client w c d evs Hd Hr) as (w1 & E1 & H1).
  set (c1 := mkConn evs [] _ false) in H1.
  destruct (SendCommand_feeds tl c1 (buildShellV2Service command opts) StatusOkay s eq_refl ltac:(done))
    as (c2 & E2 & Hf2 & _); [done|].
  assert (Es : open_session command opts c1 = (Ok tt, c2)).
  { unfold open_session. by rewrite (io_bind_Ok _ _ _ _ _ E2), decide_True. }
  destruct (on_conn_last _ w1 _ _ _ _ H1 Es) as (w2 & E3 & H2).
  exists w2, c2. split_and!; try done. unfold ShellV2WithOptionsContext. rewrite (io_bind_Ok _ _ _ _ _ E1).
  rewrite (io_bind_Ok _ _ w1 tt w2); [done|]. unfold on_error. by rewrite E3.
Qed.

(** C29. [RunCommandV2] end to end, with a server that accepts the device (its OKAY
    delivered by the first [Read]): for any sequence of packets up to an exit
    packet of one byte, in any fragmentation, it returns the concatenation of the stdout
    payloads, that of the stderr payloads and the exit code, ignoring other
    packet kinds.  If the stream ends before an exit packet the call fails
    with [io.ErrUnexpectedEOF]: partial output is never passed off as a
    result.  The connection is closed in both cases. *)
Theorem RunCommandV2_result tl w c d command evs ps :
  dials_to client w c -> replies c StatusOkay evs ->
  Forall (fun p => v2_wf p /\ p.1 <> shellV2IDExit) ps ->
  (forall code s0, feeds tl evs (StatusOkay ++ concat (v2_wire <$> ps) ++ v2_wire (shellV2IDExit, [code]) ++ s0) ->
     exists w' c', RunCommandV2 client d command w =
       (Ok (mkV2Result (payloads shellV2IDStdout ps) (payloads shellV2IDStderr ps) (byte_to_Z code)), w') /\
       conns w' = conns w ++ [c'] /\ conn_closed c' = true) /\
  (tl = [] -> feeds tl evs (StatusOkay ++ concat (v2_wire <$> ps)) ->
     exists w' c', RunCommandV2 client d command w = (Err ErrUnexpectedEOF, w') /\
       conns w' = conns w ++ [c'] /\ conn_closed c' = true).
Proof.
  intros Hd Hr Hps. unfold RunCommandV2, RunCommandV2Context. split.
  - intros code s0 Hf.
    destruct (ShellV2_ok tl w c d command (mkV2Options [] false) evs _ Hd Hr Hf) as (w1 & c1 & E1 & H1 & Hf1).
    destruct (run_session_exit tl Background c1 ps code s0 Hps Hf1 eq_refl) as (c2 & E2).
    destruct (defer_Close_last _ w1 _ _ _ _ H1 E2 I) as (w3 & c3 & E3 & H3 & Hcl & _).
    exists w3, c3. by rewrite (io_bind_Ok _ _ _ _ _ E1).
  - intros -> Hf.
    destruct (ShellV2_ok [] w c d command (mkV2Options [] false) evs _ Hd Hr Hf) as (w1 & c1 & E1 & H1 & Hf1).
    destruct (run_session_cut Background c1 ps Hps Hf1 eq_refl) as (c2 & E2).
    destruct (defer_Close_last _ w1 _ _ _ _ H1 E2 I) as (w3 & c3 & E3 & H3 & Hcl & _).
    exists w3, c3. by rewrite (io_bind_Ok _ _ _ _ _ E1).
Qed.
End run.

(** ** Standard input *)

Definition stdin_chunk (p : bytes) : nat :=
  Z.to_nat (if shellV2WriteChunkSize <? zlen p then shellV2WriteChunkSize else zlen p).

Lemma stdin_chunk_bound p :
  p <> [] -> (0 < length (take (stdin_chunk p) p))%nat /\
  zlen (take (stdin_chunk p) p) <= shellV2WriteChunkSize /\
  length (take (stdin_chunk p) p) = stdin_chunk p /\
  (length (drop (stdin_chunk p) p) < length p)%nat.
Proof.
  intros Hp. assert (0 < length p)%nat by (destruct p; simpl; [done | lia]).
  unfold stdin_chunk, zlen. rewrite length_take, length_drop.
  destruct (Z.ltb_spec shellV2WriteChunkSize (Z.of_nat (length p))); unfold shellV2WriteChunkSize in *; lia.
Qed.

Lemma Session_Write_loop_accepts : forall fuel n p c,
  (length p <= fuel)%nat -> accepts c ->
  exists c' chs, Session_Write_loop fuel n p c = (Ok (n + zlen p, None), c') /\
    written c' = written c ++ concat (v2_wire <$> (pair shellV2IDStdin <$> chs)) /\ concat chs = p /\
    Forall (fun ch => (0 < length ch)%nat /\ zlen ch <= shellV2WriteChunkSize) chs.
Proof.
  induction fuel as [|fuel IH]; intros n p c Hl Ha.
  { destruct p; [|simpl in Hl; lia]. exists c, []. simpl. rewrite app_nil_r, Z.add_0_r. by split_and!. }
  destruct (decide (p = [])) as [->|Hp].
  { exists c, []. simpl. rewrite app_nil_r, Z.add_0_r. by split_and!. }
  destruct (stdin_chunk_bound p Hp) as (Hb1 & Hb2 & Hb3 & Hb4).
  assert (stdin_chunk p <= length p)%nat by (rewrite length_take in Hb3; lia). set (ch := take (stdin_chunk p) p) in *.
  destruct (writePacket_accepts shellV2IDStdin ch c Ha) as (c1 & E1 & Hw1 & Ha1).
  destruct (IH (n + Z.of_nat (stdin_chunk p)) (drop (stdin_chunk p) p) c1) as (c2 & chs & E2 & Hw2 & Hc & Hall); [lia | done |].
  exists c2, (ch :: chs). split_and!; [| | |by constructor].
  - destruct p as [|b p]; [done|]. cbn [Session_Write_loop]. fold (stdin_chunk (b :: p)). fold ch.
    rewrite (io_bind_Ok _ _ _ _ _ (attempt_Ok _ _ _ _ E1)), E2. f_equal. f_equal. f_equal.
    unfold zlen. rewrite length_drop. lia.
  - rewrite Hw2, Hw1. cbn [fmap list_fmap concat]. by rewrite <- app_assoc.
  - simpl. rewrite Hc. apply take_drop.
Qed.

(** Reading a list of packets, as the other end of the session does. *)
Fixpoint read_packets (n : nat) : io conn (list (byte * bytes)) :=
  match n with
  | O => mret []
  | S m => p ← readShellV2Packet; ps ← read_packets m; mret (p :: ps)
  end.

Lemma read_packets_feeds tl s : forall ps c,
  Forall v2_wf ps -> conn_feeds tl c (concat (v2_wire <$> ps) ++ s) ->
  exists c', read_packets (length ps) c = (Ok ps, c') /\ conn_feeds tl c' s.
Proof.
  induction ps as [|p ps IH]; intros c Hps Hf; [by exists c|].
  apply Forall_cons in Hps as [Hp Hps]. cbn [fmap list_fmap concat] in Hf. rewrite <- app_assoc in Hf.
  destruct (readShellV2Packet_feeds tl c p _ Hp Hf) as (c1 & E1 & Hf1 & _).
  destruct (IH c1 Hps Hf1) as (c2 & E2 & Hf2). exists c2. split; [|done].
  cbn [length read_packets]. rewrite (io_bind_Ok _ _ _ _ _ E1). by rewrite (io_bind_Ok _ _ _ _ _ E2).
Qed.

(** C36. Standard input arrives intact: over a connection that accepts writes only
    piecemeal, the session's [Write] reports every byte written, in stdin
    packets of 1 to 65536 bytes; the other end, reading packets from any
    fragmentation of those bytes, gets exactly the data written. *)
Theorem shellV2_stdin_roundtrip p c :
  accepts c ->
  exists c' sent k, Session_Write p c = (Ok (zlen p, None), c') /\ written c' = written c ++ sent /\
    forall tl peer s, conn_feeds tl peer (sent ++ s) ->
      exists peer' ps, read_packets k peer = (Ok ps, peer') /\ conn_feeds tl peer' s /\
        payloads shellV2IDStdin ps = p /\
        Forall (fun q => q.1 = shellV2IDStdin /\ 1 <= zlen q.2 <= shellV2WriteChunkSize) ps.
Proof.
  intros Ha. destruct (Session_Write_loop_accepts (length p) 0 p c ltac:(lia) Ha) as (c' & chs & E & Hw & Hc & Hall).
  exists c', (concat (v2_wire <$> (pair shellV2IDStdin <$> chs))), (length (pair shellV2IDStdin <$> chs)).
  split; [exact E|]. split; [done|]. intros tl peer s Hf.
  destruct (read_packets_feeds tl s (pair shellV2IDStdin <$> chs) peer) as (p' & E' & Hf').
  - apply Forall_fmap. eapply Forall_impl; [exact Hall|]. intros ch [_ H].
    unfold v2_wf, shellV2MaxPayload, shellV2WriteChunkSize in *. simpl. lia.
  - done.
  - exists p', (pair shellV2IDStdin <$> chs). split_and!; [done | done | |].
    + rewrite <- Hc. unfold payloads. rewrite <- list_fmap_compose. f_equal.
      clear. induction chs as [|ch chs IH]; [done|]. simpl. f_equal. done.
    + apply Forall_fmap. eapply Forall_impl; [exact Hall|]. intros ch [H1 H2]. unfold zlen in *. simpl. split; [done | lia].
Qed.

(** ** Streams are first-in first-out *)

Inductive stream_op := SWrite (p : bytes) | SRead (n : nat) | SClose.

(** Run operations; collect what was written and what the reads delivered. *)
Fixpoint stream_run (ops : list stream_op) (s : shellV2Stream) (wrote got : bytes)
  : shellV2Stream * bytes * bytes :=
  match ops with
  | [] => (s, wrote, got)
  | SWrite p :: r => stream_run r (stream_write p s) (wrote ++ p) got
  | SClose :: r => stream_run r (stream_close s) wrote got
  | SRead n :: r =>
      let '(res, s') := stream_Read n s in
      stream_run r s' wrote (got ++ match res with Some (Ok b) => b | _ => [] end)
  end.

(** Stream order: under any interleaving of writes, reads and [close], what
    has been read followed by what is still buffered is what was written - no
    byte is lost, duplicated or reordered - and a read reports end of file
    only when everything written before has been read and the stream is
    closed, and waits exactly when there is nothing and the stream is open. *)
Theorem shellV2Stream_fifo ops n :
  let '(s, wrote, got) := stream_run ops newShellV2Stream [] [] in
  got ++ buf s = wrote /\
  ((stream_Read n s).1 = Some (Err EOF) <-> got = wrote /\ st_closed s = true) /\
  ((stream_Read n s).1 = None <-> got = wrote /\ st_closed s = false).
Proof.
  assert (H : forall s w g, g ++ buf s = w ->
    let '(s', w', g') := stream_run ops s w g in g' ++ buf s' = w').
  { induction ops as [|[p|k|] ops IH]; intros s w g Hb; simpl.
    - done.
    - apply IH. rewrite (proj1 (stream_write_buf p s)), app_assoc. by rewrite Hb.
    - unfold stream_Read. destruct (buf s) as [|b bs] eqn:Eb.
      + destruct (st_closed s); apply IH; by rewrite Eb, !app_nil_r in *.
      + apply IH. cbn [buf]. by rewrite <- app_assoc, take_drop.
    - by apply IH. }
  specialize (H newShellV2Stream [] [] eq_refl).
  destruct (stream_run ops newShellV2Stream [] []) as [[s w] g]. split; [done|].
  unfold stream_Read. destruct (buf s) as [|b bs]; simpl.
  - rewrite app_nil_r in H. destruct (st_closed s); naive_solver.
  - assert (g <> w) by (rewrite <- H; intros E; apply (f_equal length) in E; rewrite length_app in E; simpl in E; lia).
    naive_solver.
Qed.

(** ** Instances *)

Definition ex_v2_packets : list (byte * bytes) :=
  [(shellV2IDStdout, str "out1"); (shellV2IDStderr, str "warn"); (shellV2IDStdout, str "out2")].

Definition ex_v2 : conn :=
  mkConn [RChunk StatusOkay; RChunk StatusOkay;
          RChunk (concat (v2_wire <$> ex_v2_packets) ++ v2_wire (shellV2IDExit, [x07]))] [] [] false.

Lemma RunCommandV2_result_witness :
  exists w' c', RunCommandV2 ex_client AnyDevice (str "ls") (ex_world ex_v2)
    = (Ok (mkV2Result (str "out1out2") (str "warn") 7), w') /\ conns w' = [c'] /\ conn_closed c' = true.
Proof.
  destruct (RunCommandV2_result ex_client [] (ex_world ex_v2) ex_v2 AnyDevice (str "ls")
    [RChunk StatusOkay; RChunk (concat (v2_wire <$> ex_v2_packets) ++ v2_wire (shellV2IDExit, [x07]))]
    ex_v2_packets) as [H _].
  - apply ex_dials.
  - split_and!; reflexivity.
  - repeat constructor; vm_compute; discriminate.
  - apply (H x07 []).
    exact (feeds_chunk [] StatusOkay _ _ (feeds_chunk [] (concat (v2_wire <$> ex_v2_packets) ++ v2_wire (shellV2IDExit, [x07])) [] [] (feeds_done []))).
Defined.

Lemma shellV2_stdin_roundtrip_witness :
  exists c', Session_Write (str "echo") (mkConn [] [WAccept 2; WAccept 1] [] false) = (Ok (4, None), c').
Proof.
  destruct (shellV2_stdin_roundtrip (str "echo") (mkConn [] [WAccept 2; WAccept 1] [] false)) as (c' & _ & _ & E & _).
  - split; [reflexivity|]. repeat constructor; eexists; reflexivity.
  - exists c'. exact E.
Defined.
