(* ===== verification/Session.v ===== *)
(** * Interactive sessions: the goroutines of adb/device_shell_v2.go

    A [ShellV2Session] in use: [readLoop] runs in its own goroutine while the
    caller reads the two streams, writes to the remote standard input, resizes,
    waits and may close the session at any time.  [closeOnce], [writeMu] and the
    mutex of a stream make the operations below atomic.  The theorems say that
    the interleaving does not matter for what is delivered, which is how
    ShellV2.v models [RunCommandV2Context], and that the session always ends. *)

From stdpp Require Import base list numbers.
From Stdlib Require Import ZArith Lia.
From S2P Require Import Prelude GoStrings GoNet Connection World Client ShellV2.

Local Open Scope Z_scope.

(** Where [readLoop] is; the deferred calls run in reverse order. *)
Inductive loop_pc :=
  | LRead              (* before readShellV2Packet *)
  | LCloseErr          (* s.stderr.close() *)
  | LCloseOut          (* s.stdout.close() *)
  | LCloseConn         (* s.closeTransport() *)
  | LCloseDone         (* close(s.done) *)
  | LEnd.

#[global] Instance loop_pc_eq_dec : EqDecision loop_pc.
Proof. solve_decision. Defined.

(** A session with its connection.  [l_once]: [closeOnce] has run; [l_user]: the
    caller has called [Close].  The last three fields record the packets the
    loop has handled and what the caller has read from the streams. *)
Record live := mkLive {
  l_conn : conn;
  l_ses : session;
  l_pc : loop_pc;
  l_once : bool;
  l_user : bool;
  l_pkts : list (byte * bytes);
  l_out : bytes;
  l_err : bytes
}.

(** The session [ShellV2WithOptionsContext] returns on connection [c]. *)
Definition start_session (c : conn) : live := mkLive c new_session LRead false false [] [] [].

Definition set_err (e : goerror) (s : session) : session :=
  mkSession (stdout s) (stderr s) (done s) (gotExit s) (exitCode s) (Some e).
Definition set_exit (payload : bytes) (s : session) : session :=
  mkSession (stdout s) (stderr s) (done s) true
    (match payload with [] => exitCode s | b :: _ => byte_to_Z b end) (s_err s).
Definition close_stderr (s : session) : session :=
  mkSession (stdout s) (stream_close (stderr s)) (done s) (gotExit s) (exitCode s) (s_err s).
Definition close_stdout (s : session) : session :=
  mkSession (stream_close (stdout s)) (stderr s) (done s) (gotExit s) (exitCode s) (s_err s).
Definition close_done (s : session) : session :=
  mkSession (stdout s) (stderr s) true (gotExit s) (exitCode s) (s_err s).

(** [closeTransport] *)
Definition closeTransport (once : bool) (c : conn) : conn := if once then c else (Close c).2.

(** One action of [readLoop]. *)
Definition loop_step (l : live) : option live :=
  let next c s pc once := Some (mkLive c s pc once (l_user l) (l_pkts l) (l_out l) (l_err l)) in
  match l_pc l with
  | LRead =>
      match attempt readShellV2Packet (l_conn l) with
      | (Ok (inr e), c) => next c (if decide (e = EOF) then l_ses l else set_err e (l_ses l)) LCloseErr (l_once l)
      | (Ok (inl (id, payload)), c) =>
          let '(s, pc) :=
            if decide (id = shellV2IDStdout) then (on_stdout payload (l_ses l), LRead)
            else if decide (id = shellV2IDStderr) then (on_stderr payload (l_ses l), LRead)
            else if decide (id = shellV2IDExit) then (set_exit payload (l_ses l), LCloseErr)
            else (l_ses l, LRead) in
          Some (mkLive c s pc (l_once l) (l_user l) (l_pkts l ++ [(id, payload)]) (l_out l) (l_err l))
      | _ => None
      end
  | LCloseErr => next (l_conn l) (close_stderr (l_ses l)) LCloseOut (l_once l)
  | LCloseOut => next (l_conn l) (close_stdout (l_ses l)) LCloseConn (l_once l)
  | LCloseConn => next (closeTransport (l_once l) (l_conn l)) (l_ses l) LCloseDone true
  | LCloseDone => next (l_conn l) (close_done (l_ses l)) LEnd (l_once l)
  | LEnd => None
  end.

Inductive sact :=
  | SLoop                                (* one action of readLoop *)
  | SRead (err : bool) (n : nat)         (* the caller reads stdout or stderr *)
  | SPacket (id : byte) (payload : bytes) (* writePacket: Write, CloseStdin, Resize *)
  | SUserClose.                          (* the caller's Close *)

Definition sexec (a : sact) (l : live) : option live :=
  match a with
  | SLoop => loop_step l
  | SRead err n =>
      let s := l_ses l in
      match stream_Read n (if err then stderr s else stdout s) with
      | (None, _) => None
      | (Some r, st) =>
          let b := match r with Ok b => b | _ => [] end in
          Some (mkLive (l_conn l)
            (mkSession (if err then stdout s else st) (if err then st else stderr s)
               (done s) (gotExit s) (exitCode s) (s_err s))
            (l_pc l) (l_once l) (l_user l) (l_pkts l)
            (if err then l_out l else l_out l ++ b) (if err then l_err l ++ b else l_err l))
      end
  | SPacket id payload =>
      Some (mkLive (writePacket id payload (l_conn l)).2 (l_ses l) (l_pc l) (l_once l) (l_user l)
              (l_pkts l) (l_out l) (l_err l))
  | SUserClose =>
      Some (mkLive (closeTransport (l_once l) (l_conn l)) (l_ses l) (l_pc l) true true
              (l_pkts l) (l_out l) (l_err l))
  end.

Fixpoint sexec_all (acts : list sact) (l : live) : option live :=
  match acts with
  | [] => Some l
  | a :: r => l' ← sexec a l; sexec_all r l'
  end.

(** The states of a session that starts on connection [c0]. *)
Inductive sreach (c0 : conn) : live -> Prop :=
  | sreach_init : sreach c0 (start_session c0)
  | sreach_step a l l' : sreach c0 l -> sexec a l = Some l' -> sreach c0 l'.

(** ** Reading and writing packets *)

Lemma readShellV2Packet_reads : reads readShellV2Packet.
Proof.
  unfold readShellV2Packet. apply reads_bind; [apply ReadFull_reads|]. intros [|id rest]; [auto with adb|].
  repeat case_match; auto with adb.
Qed.

Lemma readLoop_loop_reads fuel s : reads (readLoop_loop fuel s).
Proof.
  revert s. induction fuel as [|fuel IH]; intros s; cbn [readLoop_loop]; [auto with adb|].
  apply reads_bind; [apply reads_attempt, readShellV2Packet_reads|]. intros [[id p]|e]; repeat case_match; auto with adb.
Qed.

(** Two connections with the same incoming side. *)
Definition same_input (c c' : conn) : Prop := rd c = rd c' /\ conn_closed c = conn_closed c'.

Lemma reads_same {A} (m : io conn A) c c' :
  reads m -> same_input c c' -> (m c).1 = (m c').1 /\ same_input (m c).2 (m c').2.
Proof.
  intros Hm [Hr Hc]. destruct c as [r wp ws cl], c' as [r' wp' ws' cl']; simpl in *; subst.
  destruct (Hm r' cl') as (o & r1 & E). by rewrite !E.
Qed.

(** Writing does not touch the incoming side. *)
Definition writes {A} (m : io conn A) : Prop := forall c, same_input (m c).2 c.

Lemma writes_bind {A B} (m : io conn A) (f : A -> io conn B) :
  writes m -> (forall a, writes (f a)) -> writes (m ≫= f).
Proof.
  intros Hm Hf c. specialize (Hm c). unfold mbind, io_bind. destruct (m c) as [[a|e| |] c1]; simpl in *; try done.
  destruct (Hf a c1) as [H1 H2], Hm as [H3 H4]. split; congruence.
Qed.

Lemma WriteN_writes p : writes (WriteN p).
Proof.
  intros c. unfold WriteN. destruct (conn_closed c) eqn:Hc; [done|].
  by destruct (wr_plan c) as [|[n|n e] w].
Qed.

Lemma writeAll_writes p : writes (writeAll p).
Proof.
  unfold writeAll. generalize (length p) as fuel. intros fuel. revert p.
  induction fuel as [|fuel IH]; intros [|b p]; cbn [writeAll_loop]; try (by intros c).
  apply writes_bind; [apply WriteN_writes|]. intros [n [e|]]; [by intros c|].
  case_decide; [by intros c | apply IH].
Qed.

Lemma writePacket_writes id payload : writes (writePacket id payload).
Proof. apply writes_bind; intros; apply writeAll_writes. Qed.

(** [readShellV2Packet] always returns, and a packet takes from the input. *)
Lemma readShellV2Packet_returns c :
  exists r c', attempt readShellV2Packet c = (Ok r, c') /\
    match r with inl _ => (conn_size c' < conn_size c)%nat | inr _ => True end.
Proof.
  unfold attempt, readShellV2Packet, shellV2HeaderSize.
  destruct (ReadFull_cases 5 c) as [(h & c1 & E1)|(e & c1 & E1)];
    [|rewrite (io_bind_Err _ _ _ _ _ E1); by exists (inr e), c1].
  destruct (ReadFull_bytes _ _ _ _ E1) as [Hl Hs]. rewrite (io_bind_Ok _ _ _ _ _ E1).
  destruct h as [|id rest]; [done|]. cbv zeta.
  destruct (shellV2MaxPayload <? Uint32 rest); [by eexists (inr _), c1|].
  destruct (Uint32 rest =? 0); [eexists (inl _), c1; split; [done | lia]|].
  destruct (ReadFull_cases (Z.to_nat (Uint32 rest)) c1) as [(p & c2 & E2)|(e & c2 & E2)];
    [rewrite (io_bind_Ok _ _ _ _ _ E2) | rewrite (io_bind_Err _ _ _ _ _ E2); by exists (inr e), c2].
  destruct (ReadFull_bytes _ _ _ _ E2) as [_ Hs2]. eexists (inl _), c2. split; [done | lia].
Qed.

(** ** Nothing is lost between the loop and the caller *)

Definition fifo (l : live) : Prop :=
  l_out l ++ buf (stdout (l_ses l)) = payloads shellV2IDStdout (l_pkts l) /\
  l_err l ++ buf (stderr (l_ses l)) = payloads shellV2IDStderr (l_pkts l).

Lemma payloads_snoc id ps p :
  payloads id (ps ++ [p]) = payloads id ps ++ (if decide (p.1 = id) then p.2 else []).
Proof. unfold payloads. rewrite fmap_app, concat_app. simpl. by rewrite app_nil_r. Qed.

Lemma fifo_loop l l' : fifo l -> loop_step l = Some l' -> fifo l'.
Proof.
  intros [Ho He] E. unfold loop_step in E. destruct (l_pc l); simplify_eq/=; try done.
  destruct (attempt readShellV2Packet (l_conn l)) as [[[[id p]|e]| | |] c]; simplify_eq/=.
  - unfold fifo. destruct (decide (id = shellV2IDStdout)) as [->|H1];
      [|destruct (decide (id = shellV2IDStderr)) as [->|H2]; [|destruct (decide (id = shellV2IDExit)) as [->|H3]]];
      simplify_eq/=; rewrite !payloads_snoc; simpl;
      rewrite ?(proj1 (stream_write_buf _ _)), ?decide_True, ?decide_False, ?app_nil_r, ?app_assoc by done;
      split; congruence.
  - destruct (decide (e = EOF)); done.
Qed.

Lemma stream_Read_spec n s r st :
  stream_Read n s = (Some r, st) ->
  st_closed st = st_closed s /\ (match r with Ok b => b | _ => [] end) ++ buf st = buf s.
Proof.
  unfold stream_Read. destruct (buf s) as [|b bs] eqn:E.
  - destruct (st_closed s) eqn:Ec; intros [= <- <-]. by rewrite E.
  - intros [= <- <-]. simpl. split; [done|]. by rewrite <- (take_drop n (b :: bs)) at 3.
Qed.

Lemma fifo_reach c0 l : sreach c0 l -> fifo l.
Proof.
  induction 1 as [|a l l' Hl IH E]; [done|]. destruct a as [|err n|id p|]; simpl in E.
  - by eapply fifo_loop.
  - destruct (stream_Read n _) as [[r|] st] eqn:Er; [|done]. simplify_eq/=.
    destruct (stream_Read_spec _ _ _ _ Er) as [_ Hb]. destruct IH as [Ho He]. unfold fifo. simpl.
    destruct err; rewrite <- ?app_assoc, ?Hb; done.
  - by simplify_eq/=.
  - by simplify_eq/=.
Qed.

(** ** The loop on its own *)

(** The session as it would be if nobody had read the streams. *)
Definition unread (l : live) : session :=
  mkSession (mkStream (l_out l ++ buf (stdout (l_ses l))) (st_closed (stdout (l_ses l))))
            (mkStream (l_err l ++ buf (stderr (l_ses l))) (st_closed (stderr (l_ses l))))
            (done (l_ses l)) (gotExit (l_ses l)) (exitCode (l_ses l)) (s_err (l_ses l)).

(** What the sequential loop makes of a connection. *)
Definition seq_result (c0 : conn) : outcome session := (readLoop_loop (S (conn_size c0)) new_session c0).1.

(** The sequential loop on [c0] has reached session [s] at [c]. *)
Definition loops (c0 : conn) (s : session) (c : conn) : Prop :=
  exists fuel, (conn_size c < fuel)%nat /\
    seq_result c0 = (readLoop_loop fuel s c).1.

Lemma loops_same c0 s c c' : same_input c' c -> loops c0 s c -> loops c0 s c'.
Proof.
  intros Hs (fuel & Hf & E). exists fuel. split.
  - unfold conn_size in *. by rewrite (proj1 Hs).
  - rewrite E. symmetry. by apply reads_same; [apply readLoop_loop_reads|].
Qed.

Definition ended_with (c0 : conn) (s : session) : Prop :=
  seq_result c0 = Ok (finish s (gotExit s) (exitCode s) (s_err s)).

(** Which of the deferred calls have run. *)
Definition pc_flags (l : live) : Prop :=
  st_closed (stderr (l_ses l)) = (match l_pc l with LRead | LCloseErr => false | _ => true end) /\
  st_closed (stdout (l_ses l)) = (match l_pc l with LRead | LCloseErr | LCloseOut => false | _ => true end) /\
  done (l_ses l) = (match l_pc l with LEnd => true | _ => false end) /\
  (l_once l = true -> conn_closed (l_conn l) = true) /\
  (l_user l = true -> l_once l = true).

Definition sequential (c0 : conn) (l : live) : Prop :=
  l_user l = false ->
  match l_pc l with LRead => loops c0 (unread l) (l_conn l) | _ => ended_with c0 (unread l) end.

Lemma stream_write_app a p s :
  mkStream (a ++ buf (stream_write p s)) (st_closed (stream_write p s)) =
  stream_write p (mkStream (a ++ buf s) (st_closed s)).
Proof. destruct p; [done|]. simpl. by rewrite app_assoc. Qed.

Lemma sequential_loop c0 l l' : sequential c0 l -> loop_step l = Some l' -> sequential c0 l'.
Proof.
  intros Hs E Hu. assert (Hu0 : l_user l = false).
  { unfold loop_step in E. repeat case_match; by simplify_eq/=. }
  specialize (Hs Hu0). unfold loop_step in E. destruct (l_pc l) eqn:Ep; simplify_eq/=; try done.
  destruct Hs as (fuel & Hf & Es). destruct fuel as [|fuel]; [lia|].
  destruct (readShellV2Packet_returns (l_conn l)) as (r & c & Er & Hr). rewrite Er in E.
  cbn [readLoop_loop] in Es. rewrite (io_bind_Ok _ _ _ _ _ Er) in Es.
  destruct r as [[id p]|e]; simplify_eq/=.
  - destruct (decide (id = shellV2IDStdout)) as [->|H1];
      [|destruct (decide (id = shellV2IDStderr)) as [->|H2]; [|destruct (decide (id = shellV2IDExit)) as [->|H3]]];
      simplify_eq/=.
    + exists fuel. split; [simpl; lia|]. rewrite Es. unfold unread, on_stdout. simpl. by rewrite stream_write_app.
    + exists fuel. split; [simpl; lia|]. rewrite Es. unfold unread, on_stderr. simpl. by rewrite stream_write_app.
    + exact Es.
    + exists fuel. split; [simpl; lia | exact Es].
  - unfold ended_with. rewrite Es. by destruct (decide (e = EOF)).
Qed.

Lemma Close_same_rd c : rd (Close c).2 = rd c.
Proof. unfold Close. by destruct (conn_closed c). Qed.

Lemma closeTransport_closed once c : (once = true -> conn_closed c = true) -> conn_closed (closeTransport once c) = true.
Proof.
  unfold closeTransport. destruct once; [auto|]. intros _. destruct (Close c) as [r c'] eqn:E. by eapply Close_closes.
Qed.

Lemma sequential_reach c0 l : sreach c0 l -> sequential c0 l.
Proof.
  induction 1 as [|a l l' Hl IH E].
  - intros _. exists (S (conn_size c0)). split; [simpl; lia | done].
  - destruct a as [|err n|id p|]; simpl in E.
    + by eapply sequential_loop.
    + destruct (stream_Read n _) as [[r|] st] eqn:Er; [|done]. simplify_eq/=.
      destruct (stream_Read_spec _ _ _ _ Er) as [Hc Hb]. intros Hu. specialize (IH Hu). simpl.
      assert (Eu : unread (mkLive (l_conn l) (mkSession (if err then stdout (l_ses l) else st)
          (if err then st else stderr (l_ses l)) (done (l_ses l)) (gotExit (l_ses l)) (exitCode (l_ses l)) (s_err (l_ses l)))
          (l_pc l) (l_once l) (l_user l) (l_pkts l)
          (if err then l_out l else l_out l ++ match r with Ok b => b | _ => [] end)
          (if err then l_err l ++ match r with Ok b => b | _ => [] end else l_err l)) = unread l).
      { unfold unread. simpl. destruct err; rewrite <- app_assoc, Hb, Hc; done. }
      by rewrite Eu.
    + simplify_eq/=. intros Hu. specialize (IH Hu). simpl in *. destruct (l_pc l); try done.
      eapply loops_same; [|exact IH]. apply writePacket_writes.
    + by simplify_eq/=.
Qed.

Lemma pc_flags_loop l l' : pc_flags l -> loop_step l = Some l' -> pc_flags l'.
Proof.
  unfold pc_flags, loop_step. intros (H1 & H2 & H3 & H4 & H5) E.
  destruct (l_pc l) eqn:Ep; simplify_eq/=; try (by split_and!); [|by split_and!; auto using closeTransport_closed].
  destruct (readShellV2Packet_returns (l_conn l)) as (r & c & Er & _). rewrite Er in E.
  assert (Hc : conn_closed c = conn_closed (l_conn l)).
  { by rewrite (reads_inv _ _ _ _ (reads_attempt _ readShellV2Packet_reads) Er). }
  rewrite <- Hc in H4. destruct r as [[id p]|e]; simplify_eq/=.
  - repeat case_decide; simplify_eq/=; rewrite ?(proj2 (stream_write_buf _ _)); by split_and!.
  - case_decide; by split_and!.
Qed.

Lemma pc_flags_reach c0 l : sreach c0 l -> pc_flags l.
Proof.
  induction 1 as [|a l l' Hl IH E]; [done|]. destruct a as [|err n|id p|]; simpl in E.
  - by eapply pc_flags_loop.
  - destruct (stream_Read n _) as [[r|] st] eqn:Er; [|done]. simplify_eq/=.
    destruct (stream_Read_spec _ _ _ _ Er) as [Hc _]. destruct IH as (H1 & H2 & H3 & H4 & H5).
    unfold pc_flags. simpl. destruct err; rewrite ?Hc; by split_and!.
  - destruct IH as (H1 & H2 & H3 & H4 & H5). simplify_eq/=. unfold pc_flags. simpl.
    rewrite (proj2 (writePacket_writes id p (l_conn l))). by split_and!.
  - destruct IH as (H1 & H2 & H3 & H4 & H5). simplify_eq/=. unfold pc_flags. simpl.
    split_and!; auto using closeTransport_closed.
Qed.

(** ** Theorems *)

(** C15. Delivery: under every interleaving of the loop, the caller's reads and
    writes and [Close], what the caller has read from a stream followed by what
    is still buffered is exactly the concatenation of that stream's packets that
    the loop has handled; and a read reports the end of a stream only when all
    of it has been read and the loop has stopped reading packets. *)
Theorem session_delivery c0 l n :
  sreach c0 l ->
  l_out l ++ buf (stdout (l_ses l)) = payloads shellV2IDStdout (l_pkts l) /\
  l_err l ++ buf (stderr (l_ses l)) = payloads shellV2IDStderr (l_pkts l) /\
  ((stream_Read n (stdout (l_ses l))).1 = Some (Err EOF) ->
     l_out l = payloads shellV2IDStdout (l_pkts l) /\ l_pc l <> LRead) /\
  ((stream_Read n (stderr (l_ses l))).1 = Some (Err EOF) ->
     l_err l = payloads shellV2IDStderr (l_pkts l) /\ l_pc l <> LRead).
Proof.
  intros Hl. destruct (fifo_reach _ _ Hl) as [Ho He]. destruct (pc_flags_reach _ _ Hl) as (H1 & H2 & _).
  split_and!; [done | done | |]; unfold stream_Read; [destruct (buf (stdout _)) | destruct (buf (stderr _))]; try done;
    rewrite app_nil_r in *; intros Hr; (split; [done|]); intros Ep; [rewrite H2, Ep in Hr | rewrite H1, Ep in Hr]; done.
Qed.

Lemma readLoop_seq c s : seq_result c = Ok s -> (readLoop c).1 = Ok s.
Proof.
  unfold seq_result, readLoop, defer. destruct (readLoop_loop _ new_session c) as [[]]; simpl; by intros [= ->].
Qed.

(** C13. The concurrent session computes the sequential one: once [done] is closed and
    both streams have been read to their end, and the caller has not closed the
    session before, what the caller has collected, with what [Wait] returns, is
    the result the sequential model of [RunCommandV2] gives for the connection -
    whatever the interleaving, the sizes of the reads, and the writes to the
    session. *)
Theorem session_refines_run c0 l :
  sreach c0 l -> l_user l = false -> done (l_ses l) = true ->
  buf (stdout (l_ses l)) = [] -> buf (stderr (l_ses l)) = [] ->
  (run_session Background c0).1 =
    (code ← Wait (l_ses l); Ok (mkV2Result (l_out l) (l_err l) code)).
Proof.
  intros Hl Hu Hd Ho He. pose proof (sequential_reach _ _ Hl Hu) as Hs.
  destruct (pc_flags_reach _ _ Hl) as (_ & _ & H3 & _). destruct (l_pc l) eqn:Ep; try congruence.
  unfold ended_with in Hs. apply readLoop_seq in Hs.
  unfold run_session, mbind, io_bind. destruct (readLoop c0) as [o c1]. simpl in Hs. subst o. simpl.
  unfold Wait, unread, finish. simpl. rewrite Ho, He, !app_nil_r.
  destruct (s_err (l_ses l)); [done|]. by destruct (gotExit (l_ses l)).
Qed.

(** What [readLoop] still has to do. *)
Definition loop_size (l : live) : nat :=
  match l_pc l with
  | LRead => 5 + conn_size (l_conn l)
  | LCloseErr => 4 | LCloseOut => 3 | LCloseConn => 2 | LCloseDone => 1 | LEnd => 0
  end.

Lemma loop_step_size l : l_pc l <> LEnd -> exists l', loop_step l = Some l' /\ (loop_size l' < loop_size l)%nat.
Proof.
  unfold loop_step, loop_size. destruct (l_pc l) eqn:Ep; intros H; try done; try (by eexists; split; [done | simpl; lia]).
  destruct (readShellV2Packet_returns (l_conn l)) as (r & c & Er & Hr). rewrite Er.
  destruct r as [[id p]|e]; [|by eexists; split; [done | simpl; lia]].
  destruct (decide (id = shellV2IDStdout)), (decide (id = shellV2IDStderr)), (decide (id = shellV2IDExit));
    eexists; (split; [done|]); simpl; lia.
Qed.

Lemma sexec_size a l l' : sexec a l = Some l' -> (loop_size l' <= loop_size l)%nat.
Proof.
  destruct a as [|err n|id p|]; simpl; intros E.
  - destruct (decide (l_pc l = LEnd)) as [Ep|Ep]; [unfold loop_step in E; by rewrite Ep in E|].
    destruct (loop_step_size l Ep) as (l1 & E1 & H). rewrite E in E1. simplify_eq. lia.
  - destruct (stream_Read n _) as [[r|] st]; [|done]. by simplify_eq/=.
  - simplify_eq/=. unfold loop_size, conn_size. simpl. by rewrite (proj1 (writePacket_writes id p (l_conn l))).
  - simplify_eq/=. unfold loop_size, conn_size, closeTransport. simpl. destruct (l_once l); [done|]. by rewrite Close_same_rd.
Qed.

(** The five actions that end a loop whose connection is closed. *)
Lemma loop_closed_ends l :
  conn_closed (l_conn l) = true ->
  exists k l', (k <= 5)%nat /\ sexec_all (replicate k SLoop) l = Some l' /\ l_pc l' = LEnd.
Proof.
  intros Hc. destruct l as [c s pc once user pkts out err]. simpl in *.
  assert (H : forall pc s, pc <> LRead -> exists k l', (k <= 4)%nat /\
    sexec_all (replicate k SLoop) (mkLive c s pc once user pkts out err) = Some l' /\ l_pc l' = LEnd).
  { intros pc' s' Hpc. destruct pc'; try done;
      [exists 4%nat | exists 3%nat | exists 2%nat | exists 1%nat | exists 0%nat]; eexists; (split; [lia | done]). }
  destruct (decide (pc = LRead)) as [->|Hpc].
  - destruct (H LCloseErr (set_err net_closed s)) as (k & l' & Hk & E & Hl); [done|].
    exists (S k), l'. split; [lia|]. split; [|done]. cbn [replicate sexec_all sexec].
    assert (E1 : attempt readShellV2Packet c = (Ok (inr net_closed), c)).
    { apply attempt_Err. unfold readShellV2Packet. apply io_bind_Err. unfold ReadFull. by rewrite decide_False, Hc. }
    unfold loop_step. cbn [l_pc l_conn l_ses]. by rewrite E1.
  - destruct (H pc s Hpc) as (k & l' & Hk & E & Hl). exists k, l'. split; [lia | done].
Qed.

(** C23. A session ends: until [readLoop] has ended it can always act, each of its
    actions brings the end nearer and no other action delays it, so that [Wait]
    returns once the loop has acted [loop_size] more times; and after the caller
    has closed the session, at most five actions of the loop are left, whatever
    the device does.  (What the device sends is a finite script, closed by an
    end of file or an error.) *)
Theorem session_ends c0 l :
  sreach c0 l ->
  (l_pc l <> LEnd -> exists l', sexec SLoop l = Some l' /\ (loop_size l' < loop_size l)%nat) /\
  (forall a l', sexec a l = Some l' -> (loop_size l' <= loop_size l)%nat) /\
  (l_pc l = LEnd <-> done (l_ses l) = true) /\
  (l_user l = true -> exists k l', (k <= 5)%nat /\ sexec_all (replicate k SLoop) l = Some l' /\ l_pc l' = LEnd).
Proof.
  intros Hl. destruct (pc_flags_reach _ _ Hl) as (_ & _ & H3 & H4 & H5). split_and!.
  - apply loop_step_size.
  - intros a l'. apply sexec_size.
  - rewrite H3. by destruct (l_pc l).
  - intros Hu. apply loop_closed_ends. auto.
Qed.

(** ** Instances *)

Definition ex_session : conn :=
  mkConn [RChunk (v2_wire (shellV2IDStdout, str "hello") ++ v2_wire (shellV2IDStderr, str "oops"));
          RChunk (v2_wire (shellV2IDExit, [x07]))] [] [] false.

Definition ex_acts : list sact :=
  [SLoop; SRead false 2; SPacket shellV2IDStdin (str "ls"); SLoop; SRead true 9; SLoop; SLoop; SRead false 9;
   SLoop; SLoop; SLoop].

Lemma sexec_all_reach c0 acts l l' : sreach c0 l -> sexec_all acts l = Some l' -> sreach c0 l'.
Proof.
  revert l. induction acts as [|a acts IH]; intros l Hl E; [by simplify_eq/=|].
  cbn [sexec_all] in E. destruct (sexec a l) as [l1|] eqn:E1; [|done].
  apply (IH l1); [by eapply sreach_step | done].
Qed.

Definition ex_live : live := default (start_session ex_session) (sexec_all ex_acts (start_session ex_session)).

Lemma ex_live_reach : sreach ex_session ex_live.
Proof. eapply (sexec_all_reach _ ex_acts); [apply sreach_init | by vm_compute]. Qed.

Lemma session_delivery_witness :
  l_out ex_live = str "hello" /\
  l_out ex_live ++ buf (stdout (l_ses ex_live)) = payloads shellV2IDStdout (l_pkts ex_live).
Proof. split; [vm_compute; reflexivity|]. exact (proj1 (session_delivery ex_session ex_live 1 ex_live_reach)). Defined.

Lemma session_refines_run_witness :
  (run_session Background ex_session).1 = Ok (mkV2Result (str "hello") (str "oops") 7).
Proof.
  etransitivity; [apply (session_refines_run ex_session ex_live ex_live_reach); vm_compute; reflexivity|].
  vm_compute. reflexivity.
Defined.

Lemma session_ends_witness :
  exists l', sexec SLoop (start_session ex_session) = Some l' /\
    (loop_size l' < loop_size (start_session ex_session))%nat.
Proof. apply (session_ends ex_session _ (sreach_init ex_session)). discriminate. Defined.
