(* ===== verification/HostCommands.v ===== *)
(** * Host commands and device attributes

    adb/client_commands.go (the commands built on SendHostCommand),
    adb/device_features.go and the host queries of adb/device_info.go. *)

From stdpp Require Import base list numbers.
From Stdlib Require Import ZArith Lia.
From S2P Require Import Prelude GoStrings GoNet Connection World Client.

Local Open Scope Z_scope.

Definition newline : byte := x0a.
Definition tab : byte := x09.
Definition space : byte := x20.
Definition comma : byte := x2c.
Definition colon : byte := x3a.

Record DeviceInfo := mkDeviceInfo { Serial : bytes; State : bytes }.
Record DeviceWithPath := mkDevicePath { dp_Serial : bytes; dp_State : bytes; dp_Model : bytes; dp_Device : bytes }.
Record ForwardEntry := mkForward { fe_Serial : bytes; fe_Local : bytes; fe_Remote : bytes }.

#[global] Instance DeviceInfo_eq_dec : EqDecision DeviceInfo.
Proof. solve_decision. Defined.

(** ** Parsing of answers *)

(** One line of [ListDevices]. *)
Definition device_line (line : bytes) : option DeviceInfo :=
  match line with
  | [] => None
  | _ => match Fields line with s :: st :: _ => Some (mkDeviceInfo s st) | _ => None end
  end.

Definition parse_devices (payload : bytes) : list DeviceInfo :=
  omap device_line (Split (TrimSpace payload) newline).

(** One line of [ListDevicesWithPaths]. *)
Definition device_path_line (line : bytes) : option DeviceWithPath :=
  match line with
  | [] => None
  | _ => match Fields line with
         | s :: st :: m :: p :: _ => Some (mkDevicePath s st m p)
         | s :: st :: _ => Some (mkDevicePath s st [] [])
         | _ => None
         end
  end.

Definition parse_devices_with_paths (payload : bytes) : list DeviceWithPath :=
  omap device_path_line (Split (TrimSpace payload) newline).

Definition forward_line (line : bytes) : option ForwardEntry :=
  match Fields line with s :: l :: r :: _ => Some (mkForward s l r) | _ => None end.

(** The parsing part of [ListForwards]. *)
Definition parse_forwards (payload : bytes) : list ForwardEntry :=
  match TrimSpace payload with
  | [] => []
  | out => omap forward_line (Split out newline)
  end.

(** [parseDevicesList] *)
Fixpoint pair_up (parts : list bytes) : list DeviceInfo :=
  match parts with
  | s :: st :: r => mkDeviceInfo s st :: pair_up r
  | _ => []
  end.

Definition parseDevicesList (line : bytes) : list DeviceInfo := pair_up (Fields line).

(** [ParseHostPort] *)
Definition ParseHostPort (hostPort : bytes) (defaultPort : Z) : outcome (bytes * Z) :=
  match cut hostPort colon with
  | Some (h, p) => match Atoi p with
                   | Ok n => Ok (h, n)
                   | Err e => Err e
                   | _ => Panic
                   end
  | None => Ok (hostPort, defaultPort)
  end.

(** The feature list of [FeaturesContext]. *)
Definition parse_features (payload : bytes) : list bytes :=
  match TrimSpace payload with [] => [] | raw => Split raw comma end.

(** ** Commands *)

Section commands.
Context {C : Type} `{!Connector C} (client : C).

(** [Version]; [int] has 64 bits. *)
Definition Version (x : ctx) : io world Z :=
  payload ← SendHostCommand client x (str "host:version");
  let versionStr := TrimSpace payload in
  of_outcome (match parseHexInt versionStr with
              | Err e => Err (ErrInvalidVersion versionStr e)
              | r => r
              end).

(** [ConnectContext] *)
Definition ConnectContext (x : ctx) (hostPort : bytes) : io world bytes :=
  '(h, p) ← of_outcome (ParseHostPort hostPort 5555);
  payload ← SendHostCommandContext client x (str "host:connect:" ++ h ++ str ":" ++ fmt_d p);
  mret (TrimSpace payload).

(** [DisconnectContext] *)
Definition DisconnectContext (x : ctx) (hostPort : bytes) : io world bytes :=
  '(h, p) ← of_outcome (ParseHostPort hostPort 5555);
  payload ← SendHostCommandContext client x (str "host:disconnect:" ++ h ++ str ":" ++ fmt_d p);
  mret (TrimSpace payload).

(** [Connect] and [Disconnect]; [x] is the context of their sixty and thirty
    seconds. *)
Definition Connect (x : ctx) (hostPort : bytes) : io world bytes := ConnectContext x hostPort.
Definition Disconnect (x : ctx) (hostPort : bytes) : io world bytes := DisconnectContext x hostPort.

(** [ListDevices] *)
Definition ListDevices (x : ctx) : io world (list DeviceInfo) :=
  payload ← SendHostCommand client x (str "host:devices");
  mret (parse_devices payload).

(** [ListDevicesWithPaths] *)
Definition ListDevicesWithPaths (x : ctx) : io world (list DeviceWithPath) :=
  payload ← SendHostCommand client x (str "host:devices-l");
  mret (parse_devices_with_paths payload).

(** The request of [TrackDevices]. *)
Definition track_devices : io conn unit :=
  status ← sendADBCommand (str "host:track-devices");
  if decide (status = StatusOkay) then mret tt
  else
    payload ← readLengthPrefixed_or_empty;
    fail (Errorf (str "trackDevices failed: " ++ payload)).

(** [TrackDevices] *)
Definition TrackDevices : io world nat :=
  h ← ConnectionContext client;
  _ ← on_error (on_conn h track_devices) (on_conn h Close);
  mret h.

(** [KillServer] *)
Definition KillServer (x : ctx) : io world bool :=
  payload ← SendHostCommand client x (str "host:kill");
  mret (bool_decide (payload = [])).

(** [ListForwards] *)
Definition ListForwards (x : ctx) : io world (list ForwardEntry) :=
  payload ← SendHostCommand client x (str "host:list-forward");
  mret (parse_forwards payload).

(** [Client.Features] *)
Definition Client_Features (x : ctx) : io world (list bytes) :=
  payload ← SendHostCommand client x (str "host:features");
  mret (Split (TrimSpace payload) comma).

(** ** Device queries *)

(** [firstDeviceSerial] *)
Definition first_serial (devices : list DeviceInfo) : outcome bytes :=
  match List.find (fun e => bool_decide (State e = str "device")) devices, devices with
  | Some e, _ => Ok (Serial e)
  | None, e :: _ => Ok (Serial e)
  | None, [] => Err (Errorf (str "adb: no devices found"))
  end.

Definition firstDeviceSerial (x : ctx) : io world bytes :=
  devices ← ListDevices x;
  of_outcome (first_serial devices).

(** [FeaturesContext]; [xl] is the context of the [ListDevices] it may make. *)
Definition FeaturesContext (xl x : ctx) (d : DeviceDescriptor) : io world (list bytes) :=
  prefix ← (if decide (descriptorType d = DeviceAny) then
              s ← firstDeviceSerial xl; mret (str "host-serial:" ++ s)
            else mret (getHostPrefix d));
  payload ← SendHostCommandContext client x (prefix ++ str ":features");
  mret (parse_features payload).

(** [Features] *)
Definition Features (xl : ctx) (d : DeviceDescriptor) : io world (list bytes) := FeaturesContext xl Background d.

(** [HasFeature] *)
Definition HasFeature (xl : ctx) (d : DeviceDescriptor) (feature : bytes) : io world bool :=
  features ← Features xl d;
  mret (bool_decide (feature ∈ features)).

(** [getAttribute] *)
Definition getAttribute (x : ctx) (d : DeviceDescriptor) (attr : bytes) : io world bytes :=
  payload ← SendHostCommand client x (getHostPrefix d ++ str ":" ++ attr);
  mret (TrimSpace payload).

(** [Serial], [DevicePath] and [State] *)
Definition Device_Serial (x : ctx) (d : DeviceDescriptor) : io world bytes :=
  attr ← getAttribute x d (str "get-serialno"); mret (TrimSpace attr).
Definition DevicePath (x : ctx) (d : DeviceDescriptor) : io world bytes :=
  attr ← getAttribute x d (str "get-devpath"); mret (TrimSpace attr).
Definition Device_State (x : ctx) (d : DeviceDescriptor) : io world bytes :=
  attr ← getAttribute x d (str "get-state"); mret (TrimSpace attr).

(** [WaitForDevice] *)
Definition WaitForDevice (x : ctx) (d : DeviceDescriptor) : io world bool :=
  payload ← SendHostCommand client x (getHostPrefix d ++ str ":wait-for-device");
  mret (bool_decide (payload = [])).

(** How far the goroutine of [WaitForDeviceWithTimeout] is when the timer's case is
    taken: before the dial, with a connection, with the request sent and [Read]s
    of these sizes made, or at its end. *)
Inductive wait_stage :=
  | NotDialled
  | Dialled
  | Asked (sizes : list nat)
  | Finished.

Fixpoint read_sizes (sizes : list nat) : io conn unit :=
  match sizes with
  | [] => mret tt
  | n :: r => _ ← attempt (Read n); read_sizes r
  end.

(** What the goroutine has done at a stage. *)
Definition wait_until (stage : wait_stage) (x : ctx) (d : DeviceDescriptor) : io world unit :=
  match stage, ctx_SetDeadline x with
  | NotDialled, _ => mret tt
  | Dialled, _ => _ ← attempt (ConnectionContext client); mret tt
  | Asked sizes, None =>
      h ← attempt (ConnectionContext client);
      match h with
      | inl h => on_conn h (_ ← attempt (Write (frame (getHostPrefix d ++ str ":wait-for-device"))); read_sizes sizes)
      | inr _ => mret tt
      end
  | _, _ => _ ← attempt (WaitForDevice x d); mret tt
  end.

(** [WaitForDeviceWithTimeout]; [timer] is the stage of the goroutine when the
    select takes the timer's case, if it does. *)
Definition WaitForDeviceWithTimeout (timer : option wait_stage) (x : ctx) (d : DeviceDescriptor) : io world unit :=
  match timer with
  | None => _ ← WaitForDevice x d; mret tt
  | Some stage => _ ← wait_until stage x d; fail (Errorf (str "wait for device timed out"))
  end.

Context `{!ConnectorLaws C}.

Lemma TrackDevices_opens : opens TrackDevices.
Proof. apply opens_on_error; [apply connector_opens | auto with adb]. Qed.

Lemma ListDevices_tidy x : tidy (ListDevices x).
Proof. apply tidy_bind; auto with adb. Qed.

Lemma FeaturesContext_tidy xl x d : tidy (FeaturesContext xl x d).
Proof.
  apply tidy_bind; [|intros; apply tidy_bind; auto with adb].
  case_decide; [|auto with adb]. apply tidy_bind; [|auto with adb].
  apply tidy_bind; [apply ListDevices_tidy | auto with adb].
Qed.

Lemma HasFeature_tidy xl d f : tidy (HasFeature xl d f).
Proof. apply tidy_bind; [apply FeaturesContext_tidy | auto with adb]. Qed.
End commands.

#[export] Hint Resolve TrackDevices_opens ListDevices_tidy FeaturesContext_tidy HasFeature_tidy : adb.

(** ** Tables of words *)

Definition words_line (sep : byte) (ws : list bytes) : bytes := Join ws [sep].

Definition table (sep : byte) (rows : list (list bytes)) : bytes := Join (words_line sep <$> rows) [newline].

Definition row_wf (ws : list bytes) : Prop := ws <> [] /\ Forall (fun w => is_word w = true) ws.

(** The text starts and ends with plain bytes. *)
Definition bounded (t : bytes) : Prop :=
  (exists c r, t = c :: r /\ plain c = true) /\ (exists r d, t = r ++ [d] /\ plain d = true).

Lemma trim_front_bounded t : bounded t -> trim_front space_at 0 t = t.
Proof. intros [(c & r & -> & Hc) _]. by apply trim_front_plain. Qed.

Lemma trim_back_bounded t : bounded t -> trim_front space_before 0 (reverse t) = reverse t.
Proof. intros [_ (r & d & -> & Hd)]. by apply trim_back_plain. Qed.

Lemma TrimSpace_bounded t : bounded t -> TrimSpace t = t /\ TrimSpace (t ++ [newline]) = t.
Proof.
  intros H. unfold TrimSpace. rewrite trim_front_bounded, trim_back_bounded, reverse_involutive by done.
  split; [done|]. pose proof H as [(c & r & -> & Hc) _].
  cbn [app]. rewrite trim_front_plain by done. rewrite app_comm_cons, reverse_snoc.
  cbn [trim_front]. change (space_before (newline :: _)) with 1%nat. cbn [trim_front].
  rewrite (trim_back_bounded _ H). apply reverse_involutive.
Qed.

Lemma word_bounded w : is_word w = true -> bounded w.
Proof.
  unfold is_word. rewrite andb_true_iff, bool_decide_eq_true. intros [Hne Hp].
  split.
  - destruct w as [|c w]; [done|]. exists c, w. split; [done|]. by apply andb_true_iff in Hp as [? _].
  - destruct (exists_last Hne) as (r & d & ->). exists r, d. split; [done|].
    rewrite forallb_app in Hp. apply andb_true_iff in Hp as [_ Hp]. simpl in Hp. by rewrite andb_true_r in Hp.
Qed.

Lemma bounded_app a b sep : bounded a -> bounded b -> bounded (a ++ sep ++ b).
Proof.
  intros [(c & r & -> & Hc) _] [_ (r' & d & -> & Hd)]. split.
  - by exists c, (r ++ sep ++ r' ++ [d]).
  - exists ((c :: r) ++ sep ++ r'), d. split; [|done]. by rewrite <- !app_assoc.
Qed.

Lemma Join_bounded l sep : l <> [] -> Forall bounded l -> bounded (Join l sep).
Proof.
  intros Hne Hl. induction Hl as [|x [|y l] Hx Hl IH]; [done | done |].
  change (Join (x :: y :: l) sep) with (x ++ sep ++ Join (y :: l) sep). apply bounded_app; [done|]. by apply IH.
Qed.

Lemma row_bounded sep ws : row_wf ws -> bounded (words_line sep ws).
Proof. intros [Hne Hw]. apply Join_bounded; [done|]. eapply Forall_impl; [exact Hw | apply word_bounded]. Qed.

Lemma plain_elem w c : forallb plain w = true -> plain c = false -> c ∉ w.
Proof. intros Hw Hc Hin. rewrite forallb_forall in Hw. rewrite list_elem_of_In in Hin. specialize (Hw c Hin). congruence. Qed.

Lemma Join_not_elem l sep c : c ∉ sep -> Forall (fun w => c ∉ w) l -> c ∉ Join l sep.
Proof.
  intros Hs Hl. induction Hl as [|x [|y l] Hx Hl IH]; [apply not_elem_of_nil | done |].
  change (Join (x :: y :: l) sep) with (x ++ sep ++ Join (y :: l) sep). rewrite !elem_of_app. tauto.
Qed.

Lemma row_no_newline sep ws : sep <> newline -> row_wf ws -> newline ∉ words_line sep ws.
Proof.
  intros Hs [_ Hw]. apply Join_not_elem; [by rewrite list_elem_of_singleton; congruence|].
  eapply Forall_impl; [exact Hw|]. intros w. unfold is_word. rewrite andb_true_iff. intros [_ Hp].
  by eapply plain_elem.
Qed.

Lemma Fields_row sep ws : space_at [sep] = 1%nat -> row_wf ws -> Fields (words_line sep ws) = ws.
Proof.
  intros Hs [Hne Hw]. unfold words_line. induction Hw as [|w [|v ws] H Hw IH]; [done | by apply Fields_word |].
  change (Join (w :: v :: ws) [sep]) with (w ++ sep :: Join (v :: ws) [sep]).
  rewrite Fields_word_sep by done. by rewrite IH.
Qed.

(** A table survives trimming, splitting into lines and splitting into fields. *)
Lemma table_parse sep rows :
  space_at [sep] = 1%nat -> sep <> newline -> rows <> [] -> Forall row_wf rows ->
  TrimSpace (table sep rows ++ [newline]) = table sep rows /\
  Split (table sep rows) newline = words_line sep <$> rows /\
  Forall (fun ws => Fields (words_line sep ws) = ws) rows /\ table sep rows <> [].
Proof.
  intros Hs Hn Hne Hr.
  assert (Hb : bounded (table sep rows)).
  { apply Join_bounded; [by destruct rows|]. apply Forall_fmap. eapply Forall_impl; [exact Hr|].
    intros ws. apply row_bounded. }
  split_and!.
  - by apply TrimSpace_bounded.
  - apply Split_Join; [by destruct rows|]. apply Forall_fmap. eapply Forall_impl; [exact Hr|].
    intros ws. by apply row_no_newline.
  - eapply Forall_impl; [exact Hr|]. intros ws. by apply Fields_row.
  - destruct Hb as [(c & r & -> & _) _]. done.
Qed.

(** ** Properties *)

Definition device_row (e : DeviceInfo) : list bytes := [Serial e; State e].
Definition forward_row (e : ForwardEntry) : list bytes := [fe_Serial e; fe_Local e; fe_Remote e].

(** Reading entries back out of a table. *)
Lemma omap_table {A} (f : bytes -> option A) (row : A -> list bytes) sep es :
  Forall (fun e => f (words_line sep (row e)) = Some e) es ->
  omap f (words_line sep <$> (row <$> es)) = es.
Proof.
  induction 1 as [|e es He Hes IH]; [done|]. cbn [fmap list_fmap omap list_omap]. by rewrite He, IH.
Qed.

Lemma parse_devices_table devs :
  Forall (fun e => row_wf (device_row e)) devs -> devs <> [] ->
  parse_devices (table tab (device_row <$> devs) ++ [newline]) = devs.
Proof.
  intros Hd Hne. destruct (table_parse tab (device_row <$> devs)) as (H1 & H2 & H3 & _);
    [done | done | by destruct devs | by apply Forall_fmap |].
  unfold parse_devices. rewrite H1, H2. apply omap_table. apply Forall_forall. intros e He.
  rewrite Forall_fmap, Forall_forall in H3. specialize (H3 e He). simpl in H3. unfold device_line.
  rewrite Forall_forall in Hd. destruct (row_bounded tab _ (Hd e He)) as [(c & r & E & _) _].
  rewrite H3. rewrite E. by destruct e.
Qed.

Lemma parse_forwards_table fs :
  Forall (fun e => row_wf (forward_row e)) fs -> fs <> [] ->
  parse_forwards (table space (forward_row <$> fs) ++ [newline]) = fs.
Proof.
  intros Hd Hne. destruct (table_parse space (forward_row <$> fs)) as (H1 & H2 & H3 & H4);
    [done | done | by destruct fs | by apply Forall_fmap |].
  unfold parse_forwards. rewrite H1. destruct (table space _) as [|b t] eqn:Et; [done|]. rewrite H2.
  apply omap_table. apply Forall_forall. intros e He.
  rewrite Forall_fmap, Forall_forall in H3. specialize (H3 e He). simpl in H3.
  unfold forward_line. rewrite H3. by destruct e.
Qed.

(** Listing the devices of a server that answers, and the connection it leaves. *)
Lemma ListDevices_ok {C} `{!Connector C, !ConnectorLaws C} (client : C) tl x w c payload s :
  dials_to client w c -> ctx_SetDeadline x = None -> zlen payload <= 65535 ->
  answers tl c StatusOkay (frame payload ++ s) ->
  exists w' c', ListDevices client x w = (Ok (parse_devices payload), w') /\ conns w' = conns w ++ [c'] /\
    conn_closed c' = true.
Proof.
  intros Hd Hx Hl Ha. destruct (host_command_okay tl x (str "host:devices") c StatusOkay payload s ltac:(done) Hx Ha Hl) as (c1 & E & Hw).
  destruct (SendHostCommandContext_run client x _ w c _ _ Hd E I) as (w' & c' & E' & Hw' & Hc & _).
  exists w', c'. unfold ListDevices, SendHostCommand. by rewrite (io_bind_Ok _ _ _ _ _ E').
Qed.

(** C38. Device and forward lists end to end: from a server whose OKAY the first
    [Read] delivers and that answers with the usual tables - one line per entry,
    words separated by a tab or a space - [ListDevices] and [ListForwards] return
    exactly the entries, in order; an empty answer is an empty list. *)
Theorem list_commands_roundtrip {C} `{!Connector C, !ConnectorLaws C} (client : C) tl x w c payload s :
  dials_to client w c -> ctx_SetDeadline x = None -> zlen payload <= 65535 ->
  answers tl c StatusOkay (frame payload ++ s) ->
  (forall devs, devs <> [] -> Forall (fun e => row_wf (device_row e)) devs ->
     payload = table tab (device_row <$> devs) ++ [newline] -> (ListDevices client x w).1 = Ok devs) /\
  (forall fs, fs <> [] -> Forall (fun e => row_wf (forward_row e)) fs ->
     payload = table space (forward_row <$> fs) ++ [newline] -> (ListForwards client x w).1 = Ok fs) /\
  (payload = [] -> (ListDevices client x w).1 = Ok [] /\ (ListForwards client x w).1 = Ok []).
Proof.
  intros Hd Hx Hl Ha.
  assert (E : forall cmd, exists w', SendHostCommandContext client x cmd w = (Ok payload, w')).
  { intros cmd. destruct (host_command_okay tl x cmd c StatusOkay payload s ltac:(done) Hx Ha Hl) as (c1 & E & Hw).
    destruct (SendHostCommandContext_run client x cmd w c _ _ Hd E I) as (w' & c' & ? & _). by exists w'. }
  destruct (E (str "host:devices")) as (w1 & E1). destruct (E (str "host:list-forward")) as (w2 & E2).
  unfold ListDevices, ListForwards. rewrite (io_bind_Ok _ _ _ _ _ E1), (io_bind_Ok _ _ _ _ _ E2). split_and!.
  - intros devs Hne Hwf ->. simpl. by rewrite parse_devices_table.
  - intros fs Hne Hwf ->. simpl. by rewrite parse_forwards_table.
  - by intros ->.
Qed.

(** Addresses: [ParseHostPort] undoes the [host:port] notation for every host
    without a colon and every 64-bit port, uses the default port when there
    is no colon, and never panics. *)
Theorem ParseHostPort_roundtrip h p dflt :
  colon ∉ h -> - 2 ^ 63 <= p < 2 ^ 63 ->
  ParseHostPort (h ++ str ":" ++ fmt_d p) dflt = Ok (h, p) /\
  ParseHostPort h dflt = Ok (h, dflt).
Proof.
  intros Hh Hp. unfold ParseHostPort. split.
  - assert (E : cut (h ++ str ":" ++ fmt_d p) colon = Some (h, fmt_d p)) by (by apply cut_Some).
    by rewrite E, Atoi_fmt_d.
  - by rewrite (proj2 (cut_None h colon)).
Qed.

(** Device choice without a selector: the first device in state [device], else
    the first one listed, and an error only when there is none. *)
Lemma first_serial_spec devices :
  match first_serial devices with
  | Ok s => exists e, e ∈ devices /\ s = Serial e /\
      ((exists o, o ∈ devices /\ State o = str "device") -> State e = str "device")
  | Err _ => devices = []
  | _ => False
  end.
Proof.
  unfold first_serial. destruct (List.find _ devices) as [e|] eqn:E.
  - apply find_some in E as [Hin Hs]. apply bool_decide_eq_true in Hs. exists e. rewrite list_elem_of_In. auto.
  - destruct devices as [|e l]; [done|]. exists e. split_and!; [by left | done |].
    intros (o & Ho & Hs). rewrite list_elem_of_In in Ho. pose proof (find_none _ _ E o Ho) as Hf.
    simpl in Hf. by rewrite bool_decide_true in Hf.
Qed.

Lemma read_sizes_open sizes c :
  conn_closed c = false -> exists c', read_sizes sizes c = (Ok tt, c') /\ conn_closed c' = false.
Proof.
  revert c. induction sizes as [|n r IH]; intros c Hc; [by exists c|]. cbn [read_sizes].
  assert (H : exists r1 c1, attempt (Read n) c = (Ok r1, c1) /\ conn_closed c1 = false).
  { unfold attempt. destruct (Read n c) as [r1 c1] eqn:E.
    assert (conn_closed c1 = false) by (by rewrite (reads_inv _ _ _ _ (Read_reads n) E)).
    destruct (Read_cases n c) as [(b & c2 & E2)|(e & c2 & E2)]; rewrite E2 in E; simplify_eq; eauto. }
  destruct H as (r1 & c1 & E1 & H1). rewrite (io_bind_Ok _ _ _ _ _ E1). by apply IH.
Qed.

(** The timed-out wait: [WaitForDeviceWithTimeout] returns its error as soon as the
    timer's case is taken; when its goroutine has dialled by then, and not
    finished, the connection is still open after the call has returned - it is
    left to the deadline of thirty seconds. *)
Theorem WaitForDeviceWithTimeout_leaves_open {C} `{!Connector C, !ConnectorLaws C} (client : C) x d w c stage :
  dials_to client w c -> conn_closed c = false -> wr_plan c = [] -> ctx_SetDeadline x = None ->
  stage = Dialled \/ (exists sizes, stage = Asked sizes) ->
  exists w' c', WaitForDeviceWithTimeout client (Some stage) x d w = (Err (Errorf (str "wait for device timed out")), w') /\
    conns w' = conns w ++ [c'] /\ conn_closed c' = false.
Proof.
  intros (w1 & E1 & H1) Hc Hw Hx [->|[sizes ->]]; unfold WaitForDeviceWithTimeout, wait_until; try rewrite Hx.
  - exists w1, c. unfold mbind, io_bind, attempt. by rewrite E1.
  - assert (Ew : attempt (Write (frame (getHostPrefix d ++ str ":wait-for-device"))) c =
      (Ok (inl tt), mkConn (rd c) [] (written c ++ frame (getHostPrefix d ++ str ":wait-for-device")) false)).
    { unfold attempt, Write, WriteN, mbind, io_bind. by rewrite Hc, Hw. }
    destruct (read_sizes_open sizes (mkConn (rd c) [] (written c ++ frame (getHostPrefix d ++ str ":wait-for-device")) false)
      eq_refl) as (c2 & E2 & Hc2).
    destruct (on_conn_last (_ ← attempt (Write (frame (getHostPrefix d ++ str ":wait-for-device"))); read_sizes sizes)
      w1 (conns w) c (Ok tt) c2 H1) as (w2 & E3 & H2).
    { by rewrite (io_bind_Ok _ _ _ _ _ Ew). }
    exists w2, c2. split_and!; [|done|done].
    assert (E4 : attempt (ConnectionContext client) w = (Ok (inl (length (conns w))), w1)) by (unfold attempt; by rewrite E1).
    unfold mbind at 1, io_bind at 1. rewrite (io_bind_Ok _ _ _ _ _ E4), E3. done.
Qed.

(** ** Instances *)

Definition ex_devices : list DeviceInfo :=
  [mkDeviceInfo (str "emulator-5554") (str "device"); mkDeviceInfo (str "R58M") (str "offline")].

Definition ex_devices_payload : bytes := table tab (device_row <$> ex_devices) ++ [newline].

Definition ex_devices_conn : conn := mkConn [RChunk StatusOkay; RChunk (frame ex_devices_payload)] [] [] false.

Lemma list_commands_roundtrip_witness :
  (ListDevices ex_client Background (ex_world ex_devices_conn)).1 = Ok ex_devices.
Proof.
  destruct (list_commands_roundtrip ex_client [] Background (ex_world ex_devices_conn) ex_devices_conn
    ex_devices_payload []) as [H _].
  - apply ex_dials.
  - reflexivity.
  - vm_compute. discriminate.
  - exists [RChunk (frame ex_devices_payload)]. split; [split_and!; reflexivity|].
    exact (feeds_chunk [] (frame ex_devices_payload) [] [] (feeds_done [])).
  - apply H; [discriminate | | reflexivity]. repeat constructor; discriminate.
Defined.

Lemma ParseHostPort_roundtrip_witness :
  ParseHostPort (str "192.168.1.100:5555") 1 = Ok (str "192.168.1.100", 5555) /\
  ParseHostPort (str "192.168.1.100") 1 = Ok (str "192.168.1.100", 1).
Proof.
  apply (ParseHostPort_roundtrip (str "192.168.1.100") 5555 1).
  - apply (bool_decide_unpack (colon ∉ str "192.168.1.100")). vm_compute. exact I.
  - split; vm_compute; [discriminate | reflexivity].
Defined.

Lemma WaitForDeviceWithTimeout_leaves_open_witness :
  exists w' c', WaitForDeviceWithTimeout ex_client (Some (Asked [])) Background AnyDevice (ex_world (mkConn [] [] [] false))
    = (Err (Errorf (str "wait for device timed out")), w') /\ conns w' = [c'] /\ conn_closed c' = false.
Proof.
  apply (WaitForDeviceWithTimeout_leaves_open ex_client Background AnyDevice (ex_world (mkConn [] [] [] false))
    (mkConn [] [] [] false) (Asked [])).
  - apply ex_dials.
  - reflexivity.
  - reflexivity.
  - reflexivity.
  - right. exists []. reflexivity.
Defined.
