(* ===== verification/Scanner.v ===== *)
(** * Line scanning: Go's [bufio.Scanner] with [bufio.ScanLines]

    The scanner the client reads device updates with.  The model keeps what the
    library keeps: the unread part [s.buf[s.start:s.end]], its position and the
    buffer's capacity, which starts at 4096 bytes and doubles up to 65536, and
    the sticky error.  [ScanLines] returns no final-token error and never a
    token without progress, so the fields that count those stay at zero and are
    left out.  [scan_spec] is the specification, on the whole byte stream. *)

From stdpp Require Import base list numbers.
From Stdlib Require Import ZArith Lia.
From S2P Require Import Prelude GoStrings GoNet.

Local Open Scope Z_scope.

Definition MaxScanTokenSize : Z := 65536.
Definition startBufSize : Z := 4096.
Definition maxConsecutiveEmptyReads : nat := 100.

Record Scanner := mkScanner {
  sc_start : Z;
  sc_data : bytes;           (* s.buf[s.start:s.end] *)
  sc_cap : Z;                (* len(s.buf) *)
  sc_err : option goerror
}.

Definition NewScanner : Scanner := mkScanner 0 [] 0 None.

Definition sc_end (sc : Scanner) : Z := sc_start sc + zlen (sc_data sc).

(** [setErr] *)
Definition setErr (e : goerror) (sc : Scanner) : Scanner :=
  match sc_err sc with
  | None | Some EOF => mkScanner (sc_start sc) (sc_data sc) (sc_cap sc) (Some e)
  | _ => sc
  end.

(** [Err] *)
Definition Scanner_Err (sc : Scanner) : option goerror :=
  match sc_err sc with Some EOF => None | e => e end.

Definition lf : byte := x0a.

(** [dropCR] *)
Definition dropCR (data : bytes) : bytes :=
  match last data with
  | Some x0d => take (length data - 1) data
  | _ => data
  end.

(** [ScanLines]: the advance and the token, or no token. *)
Definition ScanLines (data : bytes) (atEOF : bool) : option (nat * bytes) :=
  match cut data lf with
  | Some (line, _) => Some (S (length line), dropCR line)
  | None =>
      match data with
      | [] => None
      | _ => if atEOF then Some (length data, dropCR data) else None
      end
  end.

(** The middle of [Scan]: move the data to the front of the buffer, or grow it;
    the boolean is false when the token is too long. *)
Definition make_room (sc : Scanner) : Scanner * bool :=
  let sc := if (0 <? sc_start sc) && ((sc_end sc =? sc_cap sc) || (sc_cap sc / 2 <? sc_start sc))
            then mkScanner 0 (sc_data sc) (sc_cap sc) (sc_err sc) else sc in
  if sc_end sc =? sc_cap sc then
    if (MaxScanTokenSize <=? sc_cap sc) || (2 ^ 62 - 1 <? sc_cap sc) then (sc, false)
    else
      let newSize := if sc_cap sc * 2 =? 0 then startBufSize else sc_cap sc * 2 in
      (mkScanner 0 (sc_data sc) (Z.min newSize MaxScanTokenSize) (sc_err sc), true)
  else (sc, true).

(** The reads at the end of [Scan]'s loop; [k] empty reads are still tolerated. *)
Fixpoint fill (k : nat) (sc : Scanner) : io conn Scanner :=
  r ← attempt (Read (Z.to_nat (sc_cap sc - sc_end sc)));
  match r with
  | inr e => mret (setErr e sc)
  | inl [] => match k with O => mret (setErr ErrNoProgress sc) | S k' => fill k' sc end
  | inl bs => mret (mkScanner (sc_start sc) (sc_data sc ++ bs) (sc_cap sc) (sc_err sc))
  end.

(** The loop of [Scan]: the token, or none when scanning is over. *)
Fixpoint Scan_loop (fuel : nat) (sc : Scanner) : io conn (option bytes * Scanner) :=
  match fuel with
  | O => out_of_fuel
  | S fuel' =>
      let atEOF := bool_decide (is_Some (sc_err sc)) in
      let tok := if bool_decide (sc_data sc <> []) || atEOF then ScanLines (sc_data sc) atEOF else None in
      match tok with
      | Some (n, t) =>
          mret (Some t, mkScanner (sc_start sc + Z.of_nat n) (drop n (sc_data sc)) (sc_cap sc) (sc_err sc))
      | None =>
          if atEOF then mret (None, mkScanner 0 [] (sc_cap sc) (sc_err sc))
          else match make_room sc with
               | (sc', false) => mret (None, setErr ErrTooLong sc')
               | (sc', true) => sc'' ← fill maxConsecutiveEmptyReads sc'; Scan_loop fuel' sc''
               end
      end
  end.

Definition Scan (sc : Scanner) : io conn (option bytes * Scanner) := fun c =>
  Scan_loop (S (S (conn_size c))) sc c.

(** [for scanner.Scan() { body(scanner.Text()) }; return scanner.Err()] *)
Fixpoint for_scan_loop {S} (body : bytes -> S -> S) (fuel : nat) (sc : Scanner) (st : S)
  : io conn (S * option goerror) :=
  match fuel with
  | O => out_of_fuel
  | Datatypes.S fuel' =>
      '(tok, sc') ← Scan sc;
      match tok with
      | Some t => for_scan_loop body fuel' sc' (body t st)
      | None => mret (st, Scanner_Err sc')
      end
  end.

Definition for_scan {S} (body : bytes -> S -> S) (st : S) : io conn (S * option goerror) := fun c =>
  for_scan_loop body (2 + conn_size c) NewScanner st c.

(** ** Specification *)

(** The bytes a connection delivers, and the error that ends them. *)
Fixpoint delivered (evs : list rd_event) : bytes * goerror :=
  match evs with
  | [] => ([], EOF)
  | RErr e :: _ => ([], e)
  | RChunk bs :: r => let '(s, e) := delivered r in (bs ++ s, e)
  end.

(** No [Read] of the connection returns zero bytes and no error. *)
Definition calm (evs : list rd_event) : Prop := Forall (fun e => e <> RChunk []) evs.

(** The lines of a text cut at newlines: every complete line, and a last
    incomplete one if it is not empty, each without its carriage return; the
    first line that does not fit the buffer ends the scan. *)
Fixpoint scan_parts (parts : list bytes) (e : goerror) : list bytes * option goerror :=
  match parts with
  | [] => ([], None)
  | p :: r =>
      if MaxScanTokenSize <=? zlen p then ([], Some ErrTooLong)
      else match r, p with
           | [], [] => ([], if decide (e = EOF) then None else Some e)
           | [], _ => ([dropCR p], if decide (e = EOF) then None else Some e)
           | _, _ => let '(ts, err) := scan_parts r e in (dropCR p :: ts, err)
           end
  end.

Definition scan_spec (s : bytes) (e : goerror) : list bytes * option goerror :=
  scan_parts (Split s lf) e.

(** ** Lemmas *)

Lemma Split_cut s c :
  Split s c = match cut s c with Some (a, b) => a :: Split b c | None => [s] end.
Proof.
  destruct (cut s c) as [[a b]|] eqn:E.
  - apply cut_Some in E as [-> Ha]. by apply Split_app_no_sep.
  - by apply Split_no_sep, cut_None.
Qed.

Lemma cut_app s t c a b : cut s c = Some (a, b) -> cut (s ++ t) c = Some (a, b ++ t).
Proof. rewrite !cut_Some. intros [-> Ha]. by rewrite <- app_assoc. Qed.

(** The first line of a text is at least as long as a prefix without newline. *)
Lemma cut_app_length s t c a b : c ∉ s -> cut (s ++ t) c = Some (a, b) -> (length s <= length a)%nat.
Proof.
  rewrite cut_Some. intros Hs [E Ha]. destruct (decide (length s <= length a)%nat) as [|Hn]; [done|].
  exfalso. apply Hs. assert (Hl : (s ++ t) !! length a = Some c).
  { rewrite E, lookup_app_r, Nat.sub_diag by done. done. }
  rewrite lookup_app_l in Hl by lia. by eapply list_elem_of_lookup_2.
Qed.

Definition sc_wf (sc : Scanner) : Prop :=
  0 <= sc_start sc /\ sc_end sc <= sc_cap sc <= MaxScanTokenSize.

Lemma NewScanner_wf : sc_wf NewScanner.
Proof. unfold sc_wf, sc_end. by simpl. Qed.

Lemma make_room_spec sc sc' ok :
  sc_wf sc -> make_room sc = (sc', ok) ->
  sc_data sc' = sc_data sc /\ sc_err sc' = sc_err sc /\ sc_wf sc' /\
  if ok then sc_end sc' < sc_cap sc' else zlen (sc_data sc) = MaxScanTokenSize.
Proof.
  unfold make_room, sc_wf, sc_end, MaxScanTokenSize, startBufSize, zlen. intros Hwf E.
  destruct sc as [st d cap err]; cbn [sc_start sc_data sc_cap sc_err] in *.
  repeat (case_match; simplify_eq; cbn [sc_start sc_data sc_cap sc_err] in *);
    rewrite ?orb_true_iff, ?orb_false_iff, ?andb_true_iff, ?andb_false_iff, ?Z.ltb_lt, ?Z.leb_le,
      ?Z.ltb_ge, ?Z.leb_gt, ?Z.eqb_eq, ?Z.eqb_neq in *; split_and!; try done; lia.
Qed.

(** One read of a calm, open connection: the error that ends the stream, or a
    non-empty part of it. *)
Lemma Read_delivered n c s e :
  n <> 0%nat -> conn_closed c = false -> calm (rd c) -> delivered (rd c) = (s, e) ->
  exists r, (s = [] /\ Read n c = (Err e, set_rd c r)) \/
    exists b bs s', Read n c = (Ok (b :: bs), set_rd c r) /\ s = b :: bs ++ s' /\ delivered r = (s', e) /\
      calm r /\ (length bs < n)%nat /\ (S (length bs) + events_size r <= conn_size c)%nat.
Proof.
  intros Hn Hc Hcalm Hd. unfold Read, conn_size. rewrite Hc, decide_False by done.
  destruct (rd c) as [|[bs|e'] r] eqn:Er; simplify_eq/=.
  - exists []. left. split; [done|]. by destruct c; simplify_eq/=.
  - destruct (delivered r) as [s1 e1] eqn:Ed. simplify_eq/=. inversion Hcalm as [|? ? Hb Hr]; subst.
    destruct (decide (length bs <= n)%nat) as [Hle|Hgt].
    + destruct bs as [|b bs]; [done|]. exists r. right. exists b, bs, s1.
      split_and!; try done; simpl in *; lia.
    + destruct bs as [|b bs]; [simpl in *; lia|]. destruct n as [|n]; [done|].
      exists (RChunk (drop n bs) :: r). right. exists b, (take n bs), (drop n bs ++ s1).
      simpl in *. rewrite Ed. split_and!; try done; len.
      * by rewrite app_assoc, take_drop.
      * constructor; [|done]. intros [= E]. apply (f_equal length) in E. rewrite length_drop in E. simpl in E. lia.
  - exists r. by left.
Qed.

Lemma fill_delivered k sc c s e :
  sc_end sc < sc_cap sc -> sc_err sc = None ->
  conn_closed c = false -> calm (rd c) -> delivered (rd c) = (s, e) ->
  exists r, (s = [] /\ fill k sc c = (Ok (mkScanner (sc_start sc) (sc_data sc) (sc_cap sc) (Some e)), set_rd c r)) \/
    exists bs s', fill k sc c = (Ok (mkScanner (sc_start sc) (sc_data sc ++ bs) (sc_cap sc) None), set_rd c r) /\
      s = bs ++ s' /\ bs <> [] /\ delivered r = (s', e) /\ calm r /\ sc_end sc + zlen bs <= sc_cap sc /\
      (length bs + events_size r <= conn_size c)%nat.
Proof.
  intros Hroom He Hc Hcalm Hd.
  destruct (Read_delivered (Z.to_nat (sc_cap sc - sc_end sc)) c s e) as (r & [[-> E]|(b & bs & s' & E & -> & Hd' & Hr & Hl & Hz)]);
    [lia | done.. | |]; exists r; [left | right]; destruct k; cbn [fill].
  1,2: split; [done|]; rewrite (io_bind_Ok _ _ _ _ _ (attempt_Err _ _ _ _ E));
    unfold setErr; by rewrite He.
  all: exists (b :: bs), s'; rewrite (io_bind_Ok _ _ _ _ _ (attempt_Ok _ _ _ _ E)); rewrite He;
    split_and!; try done; unfold zlen; simpl; lia.
Qed.

(** The scanner has not seen the end: [s] is still to be scanned, then [e]. *)
Definition scanning (sc : Scanner) (c : conn) (s : bytes) (e : goerror) : Prop :=
  sc_wf sc /\ sc_err sc = None /\ conn_closed c = false /\ calm (rd c) /\
  exists t, delivered (rd c) = (t, e) /\ s = sc_data sc ++ t.

(** What one [Scan] does, in terms of the text that is left. *)
Definition scans (s : bytes) (e : goerror) (r : outcome (option bytes * Scanner) * conn) : Prop :=
  let first := match cut s lf with Some (line, _) => line | None => s end in
  if MaxScanTokenSize <=? zlen first then exists sc c, r = (Ok (None, sc), c) /\ sc_err sc = Some ErrTooLong
  else match cut s lf, s with
       | Some (line, rest), _ => exists sc c, r = (Ok (Some (dropCR line), sc), c) /\ scanning sc c rest e
       | None, [] => exists sc c, r = (Ok (None, sc), c) /\ sc_err sc = Some e
       | None, _ => exists sc c, r = (Ok (Some (dropCR s), sc), c) /\ sc_data sc = [] /\ sc_err sc = Some e
       end.

(** A complete line is already in the buffer. *)
Lemma Scan_buffered fuel sc c s e line rest :
  scanning sc c s e -> cut (sc_data sc) lf = Some (line, rest) -> scans s e (Scan_loop (S fuel) sc c).
Proof.
  intros (Hwf & He & Hc & Hcalm & t & Hd & ->) Hcut. unfold scans. rewrite (cut_app _ t _ _ _ Hcut).
  pose proof Hcut as [Hs _]%cut_Some. destruct Hwf as [Hst Hcap]. unfold sc_end in Hcap.
  assert (Hl : zlen (sc_data sc) = zlen line + 1 + zlen rest).
  { rewrite Hs. unfold zlen. rewrite length_app. simpl. lia. }
  assert (0 <= zlen rest) by (unfold zlen; lia). rewrite (proj2 (Z.leb_gt _ _)) by lia.
  cbn [Scan_loop]. rewrite bool_decide_true by (intros E; by rewrite E in Hcut).
  unfold ScanLines. simpl. rewrite Hcut. eexists _, _. split; [done|].
  assert (Hdrop : drop (S (length line)) (sc_data sc) = rest).
  { rewrite Hs. change (line ++ lf :: rest) with (line ++ [lf] ++ rest).
    rewrite app_assoc, drop_app_length' by (rewrite length_app; simpl; lia). done. }
  unfold scanning, sc_wf, sc_end. simpl. change (lf :: rest) with ([lf] ++ rest) in *.
  rewrite Hdrop. unfold zlen in *.
  split_and!; [lia | lia | lia | done | done | done | by exists t].
Qed.

(** The end of the stream has been seen and no complete line is left. *)
Lemma Scan_final fuel st d cap e c s :
  cut d lf = None -> zlen d < MaxScanTokenSize -> s = d -> scans s e (Scan_loop (S fuel) (mkScanner st d cap (Some e)) c).
Proof.
  intros Hcut Hl ->. unfold scans. rewrite Hcut, (proj2 (Z.leb_gt _ _)) by done.
  cbn [Scan_loop sc_err sc_data]. rewrite orb_true_r. unfold ScanLines. rewrite Hcut.
  destruct d as [|b d]; [by eexists _, _|]. eexists _, _. split; [done|]. simpl. by rewrite drop_all.
Qed.

Lemma Scan_scans fuel sc c s e :
  (S (conn_size c) < fuel)%nat -> scanning sc c s e -> scans s e (Scan_loop fuel sc c).
Proof.
  revert sc c. induction fuel as [|fuel IH]; intros sc c Hfuel Hs; [lia|].
  destruct (cut (sc_data sc) lf) as [[line rest]|] eqn:Hcut; [by eapply Scan_buffered|].
  pose proof Hs as (Hwf & He & Hc & Hcalm & t & Hd & Es).
  pose proof Hcut as Hnl%cut_None.
  cbn [Scan_loop]. rewrite He. cbn. rewrite orb_false_r.
  replace (if bool_decide (sc_data sc <> []) then ScanLines (sc_data sc) false else None)
    with (@None (nat * bytes)) by (unfold ScanLines; rewrite Hcut; by destruct (sc_data sc)).
  destruct (make_room sc) as [sc1 ok] eqn:Em.
  destruct (make_room_spec _ _ _ Hwf Em) as (Ed1 & Ee1 & Hwf1 & Hok). destruct ok.
  - destruct (fill_delivered maxConsecutiveEmptyReads sc1 c t e) as
      (r & [[-> E]|(bs & s' & E & -> & Hbs & Hd' & Hr & Hroom & Hz)]); [done | congruence | done.. | |];
      rewrite (io_bind_Ok _ _ _ _ _ E), Ed1.
    + rewrite app_nil_r in Es. destruct fuel as [|fuel]; [lia|]. apply Scan_final; [done| |done].
      destruct Hwf1 as [? ?]. unfold sc_end in *. rewrite Ed1 in *. lia.
    + apply IH.
      * unfold conn_size. simpl. destruct bs; [done|]. simpl in Hz. lia.
      * unfold scanning, sc_wf, sc_end in *. simpl. rewrite Ed1 in *.
        unfold zlen in *. rewrite length_app.
        split_and!; [lia | lia | lia | done | done | done |]. exists s'. split; [done|].
        by rewrite Es, app_assoc.
  - unfold scans. rewrite (proj2 (Z.leb_le _ _)).
    + eexists _, _. split; [done|]. unfold setErr. rewrite Ee1, He. done.
    + rewrite <- Hok, Es. unfold zlen. destruct (cut (sc_data sc ++ t) lf) as [[line rest]|] eqn:E.
      * pose proof (cut_app_length _ _ _ _ _ Hnl E). lia.
      * rewrite length_app. lia.
Qed.

Lemma delivered_length evs s e : delivered evs = (s, e) -> (length s <= events_size evs)%nat.
Proof.
  revert s. induction evs as [|[bs|e'] evs IH]; intros s; simpl; [intros [= <- <-]; simpl; lia| |intros [= <- <-]; simpl; lia].
  destruct (delivered evs) as [s1 e1]. intros [= <- <-]. specialize (IH _ eq_refl). len.
Qed.

Section for_scan.
Context {St : Type} (body : bytes -> St -> St).

(** Once the end has been seen, the loop stops with the error. *)
Lemma for_scan_end fuel sc c st e :
  sc_data sc = [] -> sc_err sc = Some e ->
  exists c', for_scan_loop body (S fuel) sc st c = (Ok (st, if decide (e = EOF) then None else Some e), c').
Proof.
  intros Hd He. destruct sc as [s d cap err]. simpl in *. subst. eexists.
  cbn [for_scan_loop]. unfold Scan. cbn. unfold Scanner_Err. simpl. by destruct e.
Qed.

Lemma for_scan_loop_spec fuel sc c s e st :
  (length s + 1 < fuel)%nat -> scanning sc c s e ->
  exists c', for_scan_loop body fuel sc st c =
    (Ok (foldl (fun st t => body t st) st (scan_spec s e).1, (scan_spec s e).2), c').
Proof.
  revert sc c s st. induction fuel as [|fuel IH]; intros sc c s st Hfuel Hs; [lia|].
  pose proof (Scan_scans (S (S (conn_size c))) sc c s e ltac:(lia) Hs) as H.
  cbn [for_scan_loop]. unfold scan_spec. rewrite Split_cut. unfold scans in H.
  destruct (cut s lf) as [[line rest]|] eqn:Hcut; cbn [scan_parts].
  - destruct (MaxScanTokenSize <=? zlen line).
    + destruct H as (sc' & c' & E & He). exists c'.
      assert (E' : Scan sc c = (Ok (None, sc'), c')) by apply E.
      rewrite (io_bind_Ok _ _ _ _ _ E'). unfold Scanner_Err. by rewrite He.
    + destruct H as (sc' & c' & E & Hs'). assert (E' : Scan sc c = (Ok (Some (dropCR line), sc'), c')) by apply E.
      rewrite (io_bind_Ok _ _ _ _ _ E'). apply cut_Some in Hcut as [-> _].
      destruct (IH sc' c' rest (body (dropCR line) st)) as (c2 & E2); [len | done |].
      exists c2. rewrite E2. unfold scan_spec. pose proof (Split_nonempty rest lf) as Hne.
      destruct (Split rest lf) as [|q qs] eqn:Eq; [done|].
      by destruct (scan_parts (q :: qs) e).
  - destruct (MaxScanTokenSize <=? zlen s).
    + destruct H as (sc' & c' & E & He). exists c'. assert (E' : Scan sc c = (Ok (None, sc'), c')) by apply E.
      rewrite (io_bind_Ok _ _ _ _ _ E'). unfold Scanner_Err. by rewrite He.
    + destruct s as [|b s].
      * destruct H as (sc' & c' & E & He). exists c'. assert (E' : Scan sc c = (Ok (None, sc'), c')) by apply E.
        rewrite (io_bind_Ok _ _ _ _ _ E'). unfold Scanner_Err. rewrite He. simpl. by destruct e.
      * destruct H as (sc' & c' & E & Hd & He).
        assert (E' : Scan sc c = (Ok (Some (dropCR (b :: s)), sc'), c')) by apply E.
        rewrite (io_bind_Ok _ _ _ _ _ E'). destruct fuel as [|fuel]; [simpl in Hfuel; lia|].
        apply (for_scan_end fuel sc' c' (body (dropCR (b :: s)) st) e Hd He).
Qed.

(** However the stream is cut into reads, a loop over the scanner runs its body
    on exactly the lines of the text, and reports what ended the stream. *)
Lemma for_scan_spec st c s e :
  conn_closed c = false -> calm (rd c) -> delivered (rd c) = (s, e) ->
  exists c', for_scan body st c =
    (Ok (foldl (fun st t => body t st) st (scan_spec s e).1, (scan_spec s e).2), c').
Proof.
  intros Hc Hcalm Hd. apply for_scan_loop_spec.
  - pose proof (delivered_length _ _ _ Hd). unfold conn_size. lia.
  - split_and!; [apply NewScanner_wf | done | done | done |].
    by exists s.
Qed.
End for_scan.

(** Scanning only reads. *)
Lemma fill_reads k sc : reads (fill k sc).
Proof.
  induction k; cbn [fill]; apply reads_bind; auto with adb; intros [[|]|]; auto with adb.
Qed.

Lemma Scan_loop_reads fuel sc : reads (Scan_loop fuel sc).
Proof.
  revert sc. induction fuel as [|fuel IH]; intros sc; cbn [Scan_loop]; [auto with adb|].
  repeat case_match; auto using fill_reads with adb.
Qed.

Lemma for_scan_reads {St} (body : bytes -> St -> St) st : reads (for_scan body st).
Proof.
  apply (reads_sized (fun n => for_scan_loop body (2 + n) NewScanner st)). intros n.
  generalize (2 + n)%nat as fuel, NewScanner as sc. intros fuel. revert st.
  induction fuel as [|fuel IH]; intros st sc; cbn [for_scan_loop]; [auto with adb|].
  apply reads_bind; [|intros [[t|] sc']; auto with adb].
  apply (reads_sized (fun n => Scan_loop (S (S n)) sc)). intros. apply Scan_loop_reads.
Qed.
