(* ===== verification/Track.v ===== *)
(** * Following device changes: TrackDevicesWithCallback of adb/client_commands.go

    The callback is any function on a state of its own.  The loop reads lines
    with the scanner of Scanner.v; what the ADB server sends are length-prefixed
    lists, which is what the last theorem is about. *)

From stdpp Require Import base list numbers.
From Stdlib Require Import ZArith Lia.
From S2P Require Import Prelude GoStrings GoNet Connection World Client HostCommands Scanner.

Local Open Scope Z_scope.

Section track.
Context {C : Type} `{!Connector C} (client : C).
Context {St : Type} (callback : list DeviceInfo -> St -> St).

(** The body of the loop. *)
Definition track_line (text : bytes) (st : St) : St :=
  match TrimSpace text with
  | [] => st
  | line => callback (parseDevicesList line) st
  end.

(** [newScanner(conn)] and the loop over it *)
Definition track_loop (st : St) : io conn (St * option goerror) := for_scan track_line st.

(** [TrackDevicesWithCallback]: the callback's final state and the error returned *)
Definition TrackDevicesWithCallback (st : St) : io world (St * option goerror) :=
  h ← TrackDevices client;
  defer (on_conn h Close) (on_conn h (track_loop st)).

Context `{!ConnectorLaws C}.

Lemma TrackDevices_ok w c evs :
  dials_to client w c -> replies c StatusOkay evs ->
  exists w', TrackDevices client w = (Ok (length (conns w)), w') /\
    conns w' = conns w ++ [mkConn evs [] (written c ++ frame (str "host:track-devices")) false].
Proof.
  intros (w1 & E1 & H1) Hr. unfold TrackDevices. rewrite (io_bind_Ok _ _ _ _ _ E1).
  assert (E : track_devices c = (Ok tt, mkConn evs [] (written c ++ frame (str "host:track-devices")) false)).
  { unfold track_devices. by rewrite (io_bind_Ok _ _ _ _ _ (sendADBCommand_replies _ _ _ _ Hr)). }
  destruct (on_conn_last _ w1 _ _ _ _ H1 E) as (w2 & E2 & H2).
  exists w2. rewrite (io_bind_Ok _ _ w1 tt w2); [done|]. unfold on_error. by rewrite E2.
Qed.

Lemma TrackDevicesWithCallback_run w c evs s e st :
  dials_to client w c -> replies c StatusOkay evs ->
  calm evs -> delivered evs = (s, e) ->
  exists w' c', TrackDevicesWithCallback st w =
      (Ok (foldl (fun st l => track_line l st) st (scan_spec s e).1, (scan_spec s e).2), w') /\
    conns w' = conns w ++ [c'] /\ conn_closed c' = true /\
    written c' = written c ++ frame (str "host:track-devices").
Proof.
  intros Hd Hr Hcalm Hs. destruct (TrackDevices_ok w c evs Hd Hr) as (w1 & E1 & H1).
  set (c1 := mkConn evs [] _ false) in *.
  destruct (for_scan_spec track_line st c1 s e eq_refl Hcalm Hs) as (c2 & E2).
  destruct (defer_Close_last _ w1 (conns w) c1 _ _ H1 E2 I) as (w3 & c3 & E3 & H3 & Hc3 & Hw3).
  exists w3, c3. unfold TrackDevicesWithCallback. rewrite (io_bind_Ok _ _ _ _ _ E1).
  split_and!; [done | done | done |].
  by rewrite Hw3, (reads_inv _ _ _ _ (for_scan_reads track_line st) E2).
Qed.
End track.

(** ** What the callback sees *)

(** [devices_of line ds]: the entries of a line are its fields two by two, a last
    odd field left out. *)
Definition devices_of (line : bytes) (ds : list DeviceInfo) : Prop :=
  forall k, ds !! k = (s ← Fields line !! (2 * k)%nat; st ← Fields line !! S (2 * k); Some (mkDeviceInfo s st)).

Lemma pair_up_lookup parts k :
  pair_up parts !! k = (s ← parts !! (2 * k)%nat; st ← parts !! S (2 * k); Some (mkDeviceInfo s st)).
Proof.
  revert parts k. fix IH 1. intros parts k. destruct parts as [|s [|st r]]; [done| |].
  - destruct k as [|k]; [done|]. replace (2 * S k)%nat with (S (S (2 * k))) by lia. done.
  - destruct k as [|k]; [done|]. replace (2 * S k)%nat with (S (S (2 * k))) by lia. exact (IH r k).
Qed.

Lemma parseDevicesList_of line : devices_of line (parseDevicesList line).
Proof. intros k. apply pair_up_lookup. Qed.

Lemma devices_of_unique line ds : devices_of line ds -> ds = parseDevicesList line.
Proof. intros H. apply list_eq. intros k. by rewrite (H k), <- (parseDevicesList_of line k). Qed.

(** The loop over the lines is a loop over the lists of the non-blank ones. *)
Lemma track_lines_calls {St} (callback : list DeviceInfo -> St -> St) ls :
  exists calls, Forall2 (fun l => devices_of (TrimSpace l)) (filter (fun l => TrimSpace l <> []) ls) calls /\
    forall st, foldl (fun st l => track_line callback l st) st ls = foldl (fun st ds => callback ds st) st calls.
Proof.
  induction ls as [|l ls (calls & Hc & IH)]; [by exists []|]. cbn [foldl]. unfold track_line at 2.
  destruct (decide (TrimSpace l = [])) as [Hl|Hl].
  - exists calls. rewrite filter_cons_False by auto. split; [done|]. intros st. by rewrite Hl, IH.
  - exists (parseDevicesList (TrimSpace l) :: calls). rewrite filter_cons_True by done. split.
    + constructor; [apply parseDevicesList_of | done].
    + intros st. cbn [foldl]. rewrite <- IH. by destruct (TrimSpace l).
Qed.

(** C27. Device tracking end to end: once the server has accepted the request (its
    OKAY delivered by the first [Read], with or without more behind it), the
    callback runs once per non-blank line of what the server sends, in order,
    with the entries the fields of that line give two by two, however the rest
    of the stream is fragmented; an incomplete last line counts, a line of
    64 KiB or more ends the scan with [bufio.ErrTooLong], a read error is
    returned and an end of file is not.  The connection is closed and only the
    request was written. *)
Theorem track_devices_lines {C} `{!Connector C, !ConnectorLaws C} (client : C)
    {St} (callback : list DeviceInfo -> St -> St) w c evs s e st :
  dials_to client w c -> replies c StatusOkay evs -> calm evs -> delivered evs = (s, e) ->
  exists w' c' calls,
    Forall2 (fun l => devices_of (TrimSpace l)) (filter (fun l => TrimSpace l <> []) (scan_spec s e).1) calls /\
    TrackDevicesWithCallback client callback st w =
      (Ok (foldl (fun st ds => callback ds st) st calls, (scan_spec s e).2), w') /\
    conns w' = conns w ++ [c'] /\ conn_closed c' = true /\
    written c' = written c ++ frame (str "host:track-devices").
Proof.
  intros Hd Hr Hc Hs.
  destruct (TrackDevicesWithCallback_run client callback w c evs s e st Hd Hr Hc Hs) as (w' & c' & E & H).
  destruct (track_lines_calls callback (scan_spec s e).1) as (calls & Hcalls & Hf).
  exists w', c', calls. rewrite E, Hf. done.
Qed.

(** ** What the ADB server sends *)

(** One update on the wire: the length-prefixed list [host:devices] also uses. *)
Definition update_wire (devs : list DeviceInfo) : bytes :=
  frame (table tab (device_row <$> devs) ++ [newline]).

(** The lines of an update: the length is glued to the first serial. *)
Definition glued (devs : list DeviceInfo) : list DeviceInfo :=
  match devs with
  | [] => []
  | d :: r =>
      mkDeviceInfo (fmt_x 4 (zlen (table tab (device_row <$> devs) ++ [newline])) ++ Serial d) (State d) :: r
  end.

Definition update_wf (devs : list DeviceInfo) : Prop :=
  devs <> [] /\ Forall (fun e => row_wf (device_row e)) devs /\
  zlen (table tab (device_row <$> devs)) < 65532.

Lemma digit_char_plain d : 0 <= d < 16 -> plain (digit_char d) = true.
Proof.
  intros Hd. unfold plain, digit_char. rewrite byte_to_of_Z.
  destruct (Z.ltb_spec d 10); rewrite Z.mod_small by lia; apply andb_true_iff; rewrite !Z.leb_le; lia.
Qed.

Lemma digits_acc_plain fuel n acc : forallb plain acc = true -> 0 <= n -> forallb plain (digits_acc 16 fuel n acc) = true.
Proof.
  revert n acc. induction fuel as [|fuel IH]; intros n acc Ha Hn; [done|]. cbn [digits_acc].
  assert (H : forallb plain (digit_char (n mod 16) :: acc) = true).
  { simpl. rewrite digit_char_plain, Ha by (apply Z.mod_pos_bound; lia). done. }
  case_match; [done|]. apply IH; [done|]. apply Z.div_pos; lia.
Qed.

Lemma fmt_x_plain w n : 0 <= n -> forallb plain (fmt_x w n) = true.
Proof.
  intros Hn. unfold fmt_x, format_uint. rewrite forallb_app, digits_acc_plain by done. rewrite andb_true_r.
  by induction (w - _)%nat.
Qed.

Lemma word_app a b : forallb plain a = true -> is_word b = true -> is_word (a ++ b) = true.
Proof.
  unfold is_word. rewrite !andb_true_iff, !bool_decide_eq_true, forallb_app, andb_true_iff.
  intros Ha [Hb ?]. split; [|done]. intros E. by apply app_nil in E as [_ ?].
Qed.

(** A text of complete lines, each short, is scanned into those lines. *)
Lemma scan_spec_lines ls e :
  Forall (fun l => (lf ∉ l) /\ zlen l < MaxScanTokenSize /\ dropCR l = l) ls ->
  scan_spec (concat ((fun l => l ++ [lf]) <$> ls)) e = (ls, if decide (e = EOF) then None else Some e).
Proof.
  unfold scan_spec. induction 1 as [|l ls (Hl & Hz & Hcr) Hls IH]; [done|]. simpl fmap. cbn [concat].
  rewrite <- app_assoc. cbn [app]. rewrite (Split_app_no_sep l _ lf Hl). cbn [scan_parts].
  rewrite (proj2 (Z.leb_gt _ _)), Hcr by done.
  pose proof (Split_nonempty (concat ((fun l => l ++ [lf]) <$> ls)) lf).
  destruct (Split (concat _) lf); [done|]. by rewrite IH.
Qed.

Lemma Join_lines (ls : list bytes) :
  ls <> [] -> Join ls [newline] ++ [newline] = concat ((fun l => l ++ [lf]) <$> ls).
Proof.
  induction ls as [|l [|m ls] IH]; intros Hne; [done| |].
  - simpl. by rewrite app_nil_r.
  - change (Join (l :: m :: ls) [newline]) with (l ++ newline :: Join (m :: ls) [newline]).
    rewrite <- app_assoc. cbn [app]. rewrite IH by done. simpl fmap. cbn [concat]. by rewrite <- (app_assoc l).
Qed.

Lemma update_wire_lines devs :
  devs <> [] -> update_wire devs = concat ((fun l => l ++ [lf]) <$> ((words_line tab ∘ device_row) <$> glued devs)).
Proof.
  destruct devs as [|d r]; [done|]. intros _. unfold update_wire, frame, glued.
  set (hex := fmt_x 4 _). unfold table. rewrite Join_lines by done. rewrite <- !list_fmap_compose.
  cbn [fmap list_fmap concat]. unfold compose, words_line. simpl Join. by rewrite <- !app_assoc.
Qed.

(** A row is no longer than its table. *)
Lemma row_length devs :
  Forall (fun e => zlen (words_line tab (device_row e)) <= zlen (table tab (device_row <$> devs))) devs.
Proof.
  unfold table, zlen. rewrite <- list_fmap_compose. induction devs as [|d [|d' r] IH]; [constructor | by repeat constructor |].
  set (ls := _ <$> d' :: r) in *.
  assert (E : Join (words_line tab ∘ device_row <$> d :: d' :: r) [newline] =
    words_line tab (device_row d) ++ [newline] ++ Join ls [newline]) by done.
  rewrite E, !length_app. constructor; [lia|]. eapply Forall_impl; [exact IH|]. simpl. intros e He. lia.
Qed.

Definition line_wf (e : DeviceInfo) : Prop :=
  row_wf (device_row e) /\ zlen (words_line tab (device_row e)) < MaxScanTokenSize.

Lemma glued_wf devs : update_wf devs -> Forall line_wf (glued devs).
Proof.
  intros (Hne & Hwf & Hl). pose proof (row_length devs) as Hlen.
  destruct devs as [|d r]; [done|]. inversion Hwf as [|? ? Hd Hr]; inversion Hlen as [|? ? Hld Hlr]; subst.
  unfold line_wf, MaxScanTokenSize. cbn [glued]. set (n := zlen (table _ _ ++ _)).
  assert (Hn : 0 <= n < 65536).
  { unfold n, zlen in *. rewrite length_app. cbn [length]. lia. }
  constructor.
  - destruct Hd as [_ [Hs Hst]%Forall_cons]. split.
    + split; [done|]. constructor; [|done]. apply word_app; [by apply fmt_x_plain; lia | done].
    + unfold zlen, words_line in *. simpl Join in *. rewrite <- app_assoc, length_app, fmt_x_length by done. lia.
  - apply Forall_forall. intros e He. rewrite Forall_forall in Hr, Hlr. specialize (Hr e He). specialize (Hlr e He).
    split; [done|]. cbv beta in Hlr. lia.
Qed.

(** A line of a well-formed entry: nothing to trim, and it parses back. *)
Lemma line_wf_line e :
  line_wf e -> (lf ∉ words_line tab (device_row e)) /\ dropCR (words_line tab (device_row e)) = words_line tab (device_row e) /\
    TrimSpace (words_line tab (device_row e)) = words_line tab (device_row e) /\
    parseDevicesList (words_line tab (device_row e)) = [e].
Proof.
  intros [Hr _]. pose proof (row_bounded tab _ Hr) as Hb. split_and!.
  - by apply row_no_newline.
  - destruct Hb as [_ (r & d & -> & Hd)]. unfold dropCR. rewrite last_snoc. by destruct d.
  - by apply TrimSpace_bounded.
  - unfold parseDevicesList. rewrite Fields_row by done. by destruct e.
Qed.

Lemma callback_lines es acc :
  Forall line_wf es ->
  foldl (fun st l => track_line (fun l st => st ++ [l]) l st) acc ((words_line tab ∘ device_row) <$> es) =
  acc ++ ((fun e => [e]) <$> es).
Proof.
  intros H. revert acc. induction H as [|e es He Hes IH]; intros acc; [by rewrite app_nil_r|].
  cbn [fmap list_fmap foldl]. rewrite IH. unfold track_line, compose at 1.
  destruct (line_wf_line e He) as (_ & _ & Ht & Hp). rewrite Ht.
  destruct He as [Hr _]. destruct (row_bounded tab _ Hr) as [(b & r & Eb & _) _].
  rewrite Eb in *. rewrite Hp. by rewrite <- app_assoc.
Qed.

(** C28. The length prefixes of the protocol are not removed: for a server that
    accepts the request - its OKAY delivered by the first [Read] - and sends its
    non-empty updates as [host:devices] answers, the callback is called once per
    line instead of once per update, and in the first entry of each update the
    serial is preceded by the four digits of the update's length. *)
Theorem track_devices_glued {C} `{!Connector C, !ConnectorLaws C} (client : C) w c evs us :
  dials_to client w c -> replies c StatusOkay evs ->
  calm evs -> Forall update_wf us -> delivered evs = (concat (update_wire <$> us), EOF) ->
  exists w', TrackDevicesWithCallback client (fun l st => st ++ [l]) [] w =
    (Ok ((fun e => [e]) <$> concat (glued <$> us), None), w').
Proof.
  intros Hd Hr Hcalm Hus Hs.
  destruct (TrackDevicesWithCallback_run client (fun l st => st ++ [l]) w c evs _ _ [] Hd Hr Hcalm Hs)
    as (w' & c' & E & _). exists w'. rewrite E. clear - Hus.
  assert (Hg : Forall line_wf (concat (glued <$> us))).
  { induction Hus; [constructor|]. simpl. apply Forall_app. split; [by apply glued_wf | done]. }
  assert (Ew : concat (update_wire <$> us) =
    concat ((fun l => l ++ [lf]) <$> ((words_line tab ∘ device_row) <$> concat (glued <$> us)))).
  { clear - Hus. induction Hus as [|u us (Hne & _) _ IH]; [done|]. cbn [fmap list_fmap concat].
    rewrite update_wire_lines, IH by done. by rewrite !fmap_app, concat_app. }
  rewrite Ew, scan_spec_lines.
  - simpl. rewrite callback_lines by done. done.
  - apply Forall_fmap. eapply Forall_impl; [exact Hg|]. intros e He.
    destruct (line_wf_line e He) as (? & ? & _). split_and!; [done | apply He | done].
Qed.

(** ** Instances *)

Definition ex_track : conn :=
  mkConn [RChunk (StatusOkay ++ str "0012"); RChunk (str "emul"); RChunk (str "ator-1") ; RChunk [x09];
          RChunk (str "device" ++ [lf]); RErr (NetError (str "reset"))] [] [] false.

Definition ex_record (l : list DeviceInfo) (st : list (list DeviceInfo)) : list (list DeviceInfo) := st ++ [l].

Lemma track_devices_lines_witness :
  exists w' c', TrackDevicesWithCallback ex_client ex_record [] (ex_world ex_track) =
      (Ok ([[mkDeviceInfo (str "0012emulator-1") (str "device")]], Some (NetError (str "reset"))), w') /\
    conns w' = [c'] /\ conn_closed c' = true /\ written c' = frame (str "host:track-devices").
Proof.
  destruct (track_devices_lines ex_client ex_record (ex_world ex_track) ex_track (RChunk (str "0012") :: tail (rd ex_track))
    (str "0012emulator-1" ++ [x09] ++ str "device" ++ [lf]) (NetError (str "reset")) []) as (w' & c' & calls & Hc & E & H).
  - apply ex_dials.
  - split_and!; reflexivity.
  - unfold calm. repeat constructor; discriminate.
  - reflexivity.
  - exists w', c'. split; [|exact H]. rewrite E. clear - Hc. inversion Hc as [|l ds ls calls' Hds Hnil]; subst.
    apply devices_of_unique in Hds as ->. inversion Hnil. reflexivity.
Defined.

Definition ex_update : list DeviceInfo := [mkDeviceInfo (str "A1") (str "device"); mkDeviceInfo (str "B2") (str "offline")].

Definition ex_updates : conn :=
  mkConn [RChunk StatusOkay; RChunk (update_wire ex_update); RChunk (update_wire ex_update)] [] [] false.

Lemma track_devices_glued_witness :
  exists w', TrackDevicesWithCallback ex_client (fun l st => st ++ [l]) [] (ex_world ex_updates) =
    (Ok ([[mkDeviceInfo (str "0015A1") (str "device")]; [mkDeviceInfo (str "B2") (str "offline")];
          [mkDeviceInfo (str "0015A1") (str "device")]; [mkDeviceInfo (str "B2") (str "offline")]], None), w').
Proof.
  apply (track_devices_glued ex_client (ex_world ex_updates) ex_updates (tail (rd ex_updates)) [ex_update; ex_update]).
  - apply ex_dials.
  - split_and!; reflexivity.
  - unfold calm. repeat constructor; discriminate.
  - assert (H : update_wf ex_update).
    { split_and!; [discriminate | | reflexivity]. repeat constructor; try discriminate; reflexivity. }
    constructor; [exact H|]. constructor; [exact H | constructor].
  - reflexivity.
Defined.
