(* ===== verification/DeviceCommands.v ===== *)
(** * Device commands

    adb/device_forward.go, adb/device_network.go, adb/device_info.go (the parts
    that use a transport), adb/device_package.go and adb/device_intent.go. *)

From stdpp Require Import base list numbers gmap.
From Stdlib Require Import ZArith Lia.
From S2P Require Import Prelude GoStrings GoNet Connection World Client Sync ShellV2 HostCommands.

Local Open Scope Z_scope.

Record ReverseEntry := mkReverse { re_Remote : bytes; re_Local : bytes }.

(** ** On one connection *)

(** A request answered by two statuses: [Forward], [ForwardRemove], [Reverse]
    and [ReverseRemove] after they have their connection. *)
Definition two_status (cmd : bytes) : io conn bool :=
  status ← SendCommand cmd;
  if decide (status = StatusOkay) then
    status2 ← ReadStatus;
    if decide (status2 = StatusOkay) then mret true else fail (unexpected_status status2)
  else fail (unexpected_status status).

Definition reverse_line (line : bytes) : option ReverseEntry :=
  match Fields line with r :: l :: _ => Some (mkReverse r l) | _ => None end.

(** The body of [ListReverses]. *)
Definition list_reverses : io conn (list ReverseEntry) :=
  r ← attempt (SendCommand (str "reverse:list-forward"));
  match r with
  | inr e => fail (Wrapf (str "listReverses failed: ") e)
  | inl status =>
      if decide (status = StatusOkay) then
        payload ← readLengthPrefixed;
        mret (match TrimSpace payload with
              | [] => []
              | out => omap reverse_line (Split out newline)
              end)
      else fail (unexpected_status status)
  end.

(** [io.Copy(transport, file)] with the file's whole content. *)
Definition Copy (content : bytes) : io conn unit :=
  '(n, err) ← WriteN content;
  match err with
  | Some e => fail e
  | None => if decide (n = length content) then mret tt else fail ErrShortWrite
  end.

(** The body of [installUsingAbbExec]; the reply is read with a single [Read]. *)
Definition abb_exec_install (content : bytes) : io conn bool :=
  _ ← Write (frame (str "abb_exec:package install -S " ++ fmt_d (zlen content)));
  b ← Read 4;
  if decide (b ++ replicate (4 - length b) x00 = StatusOkay) then
    _ ← Copy content;
    data ← ReadAllOrErr;
    mret (Contains data (str "Success"))
  else
    msg ← readLengthPrefixed_or_empty;
    fail (Errorf (str "abb_exec command failed: " ++ msg)).

(** ** Pure parts *)

(** [parseGetpropOutput]: one line *)
Definition getprop_line (line0 : bytes) (props : gmap bytes bytes) : gmap bytes bytes :=
  let line := TrimSpace line0 in
  if bool_decide (line = []) then props
  else if negb (HasPrefix line (str "[")) then props
  else match Index line (str "]:") with
       | None => props
       | Some endKey =>
           let key := TrimByte space (slice 1 endKey line) in
           let rest := TrimSpace (drop (endKey + 2) line) in
           let val := if HasPrefix rest (str "[") && HasSuffix rest (str "]")
                      then slice 1 (length rest - 1) rest else rest in
           <[key := val]> props
       end.

(** [parseGetpropOutput] *)
Definition parseGetpropOutput (output : bytes) : gmap bytes bytes :=
  foldl (fun m line => getprop_line line m) ∅ (Split output newline).

(** The package names in the output of [pm list packages]. *)
Definition package_line (line0 : bytes) : option bytes :=
  let line := TrimSpace line0 in
  if HasPrefix line (str "package:") then Some (TrimPrefix line (str "package:")) else None.

(** ** Intents *)

(** [Extras] is a Go map: the list is its content in the order of one iteration. *)
Record StartActivityOptions := mkActivity {
  ac_Action : bytes; ac_Data : bytes; ac_Type : bytes; ac_Category : list bytes;
  ac_Component : bytes; ac_Flags : list bytes; ac_User : Z;
  ac_Extras : list (bytes * bytes); ac_Wait : bool; ac_WaitForDebug : bool
}.

Record StartServiceOptions := mkSvcOptions {
  so_Action : bytes; so_Data : bytes; so_Type : bytes; so_Component : bytes;
  so_User : Z; so_Extras : list (bytes * bytes)
}.

(** [if v != "" { args = append(args, flag, v) }] *)
Definition opt_arg (flag v : bytes) : list bytes := match v with [] => [] | _ => [flag; v] end.

Definition extras_args (l : list (bytes * bytes)) : list bytes :=
  concat ((fun kv => [str "--es"; kv.1; kv.2]) <$> l).

(** [buildActivityCommandArgs] *)
Definition buildActivityCommandArgs (o : StartActivityOptions) (baseCmd : bytes) : list bytes :=
  [baseCmd] ++ opt_arg (str "-a") (ac_Action o) ++ opt_arg (str "-d") (ac_Data o)
    ++ opt_arg (str "-t") (ac_Type o)
    ++ concat ((fun c => [str "-c"; c]) <$> ac_Category o)
    ++ opt_arg (str "-n") (ac_Component o)
    ++ concat ((fun f => [str "-f"; f]) <$> ac_Flags o)
    ++ extras_args (ac_Extras o)
    ++ (if ac_Wait o then [str "-W"] else []) ++ (if ac_WaitForDebug o then [str "-D"] else []).

(** [buildServiceCommandArgs] *)
Definition buildServiceCommandArgs (o : StartServiceOptions) (baseCmd : bytes) : list bytes :=
  [baseCmd] ++ opt_arg (str "-a") (so_Action o) ++ opt_arg (str "-d") (so_Data o)
    ++ opt_arg (str "-t") (so_Type o) ++ opt_arg (str "-n") (so_Component o)
    ++ extras_args (so_Extras o).

Definition set_activity_user (u : Z) (o : StartActivityOptions) : StartActivityOptions :=
  mkActivity (ac_Action o) (ac_Data o) (ac_Type o) (ac_Category o) (ac_Component o) (ac_Flags o) u
             (ac_Extras o) (ac_Wait o) (ac_WaitForDebug o).

Definition set_service_user (u : Z) (o : StartServiceOptions) : StartServiceOptions :=
  mkSvcOptions (so_Action o) (so_Data o) (so_Type o) (so_Component o) u (so_Extras o).

(** ** [Device] methods *)

Section device.
Context {C : Type} `{!Connector C} (client : C) (d : DeviceDescriptor).

(** [Forward] *)
Definition Forward (local remote : bytes) : io world bool :=
  h ← ConnectionContext client;
  defer (on_conn h Close)
    (on_conn h (two_status (getHostPrefix d ++ str ":forward:" ++ local ++ str ";" ++ remote))).

(** [ForwardRemove] *)
Definition ForwardRemove (local : bytes) : io world bool :=
  h ← ConnectionContext client;
  defer (on_conn h Close) (on_conn h (two_status (getHostPrefix d ++ str ":killforward:" ++ local))).

(** [Reverse] *)
Definition Reverse (remote local : bytes) : io world bool :=
  h ← TransportContext client d;
  defer (on_conn h Close) (on_conn h (two_status (str "reverse:forward:" ++ remote ++ str ";" ++ local))).

(** [ReverseRemove] *)
Definition ReverseRemove (remote : bytes) : io world bool :=
  h ← TransportContext client d;
  defer (on_conn h Close) (on_conn h (two_status (str "reverse:killforward:" ++ remote))).

(** [ListReverses] *)
Definition ListReverses : io world (list ReverseEntry) :=
  h ← TransportContext client d;
  defer (on_conn h Close) (on_conn h list_reverses).

(** [Reboot], [Remount] and [Usb] *)
Definition Reboot : io world bool :=
  _ ← executeTransportCommand client d (str "reboot:"); mret true.
Definition Remount : io world bool :=
  _ ← executeTransportCommand client d (str "remount:"); mret true.
Definition Usb : io world bool :=
  _ ← executeTransportCommand client d (str "usb:"); mret true.

(** [Root] *)
Definition Root : io world bool :=
  out ← executeTransportCommandWithResponse client d (str "root:");
  if Contains out (str "restarting adbd as root") then mret true else fail (Errorf (TrimSpace out)).

(** [WaitBootComplete] *)
Definition WaitBootComplete : io world bool :=
  data ← executeTransportCommandWithResponse client d (str "shell:getprop sys.boot_completed");
  mret (Contains data (str "1")).

(** [TcpIp] *)
Definition TcpIp (port : Z) : io world bool :=
  data ← executeTransportCommandWithResponse client d
           (str "tcpip:" ++ fmt_d (if port =? 0 then 5555 else port));
  mret (Contains data (str "starting in")).

(** [TrackJdwp], [OpenLocal], [OpenLog] and [OpenSocketContext] *)
Definition TrackJdwp : io world nat := openTransportConnection client d (str "track-jdwp").
Definition OpenLocal (path : bytes) : io world nat := openTransportConnection client d (str "local:" ++ path).
Definition OpenLog (name : bytes) : io world nat := openTransportConnection client d (str "log:" ++ name).
Definition OpenSocketContext (a : bytes) : io world nat :=
  h ← TransportContext client d;
  _ ← on_error (on_conn h (ExecuteSimpleCommand a)) (on_conn h Close);
  mret h.

(** [OpenSocket] *)
Definition OpenSocket (a : bytes) : io world nat := OpenSocketContext a.

(** [Properties] *)
Definition Properties : io world (gmap bytes bytes) :=
  output ← RunCommand client d (str "getprop");
  mret (parseGetpropOutput output).

(** [DHCPIpAddress] *)
Definition DHCPIpAddress (iface0 : bytes) : io world bytes :=
  let iface := match iface0 with [] => str "wlan0" | i => i end in
  props ← Properties;
  match props !! (str "dhcp." ++ iface ++ str ".ipaddress") with
  | Some (b :: r) => mret (b :: r)
  | _ => fail (Errorf (str "unable to find ipaddress for '" ++ iface ++ str "'"))
  end.

(** [GetPackages]; its deferred second [Close] has no effect. *)
Definition GetPackages : io world (list bytes) :=
  h ← ShellContext client d (str "pm list packages");
  defer (on_conn h Close)
    (data ← on_conn h ReadAllFromConn; mret (omap package_line (Split data newline))).

(** [ClearPackageData] *)
Definition ClearPackageData (pkg : bytes) : io world bool :=
  _ ← RunCommand client d (str "pm clear " ++ pkg); mret true.

(** [installUsingAbbExec]; [file] is the opened APK's content. *)
Definition installUsingAbbExec (file : bytes + goerror) : io world bool :=
  match file with
  | inr e => fail e
  | inl content =>
      h ← TransportContext client d;
      defer (on_conn h Close) (on_conn h (abb_exec_install content))
  end.

Definition temp_apk : bytes := str "/data/local/tmp/install.apk".

(** [installUsingPush] *)
Definition installUsingPush (file : bytes + goerror) : io world bool :=
  match file with
  | inr e => fail e
  | inl content =>
      _ ← Device_Push client d (inl content) temp_apk 420;
      output ← RunCommand client d (str "pm install -r " ++ temp_apk);
      _ ← attempt (RunCommand client d (str "rm -f " ++ temp_apk));
      mret (Contains output (str "Success"))
  end.

(** [hasAbbExecFeature] *)
Definition hasAbbExecFeature (xl : ctx) : io world bool := HasFeature client xl d (str "abb_exec").

(** [Install] *)
Definition Install (xl : ctx) (file : bytes + goerror) : io world bool :=
  r ← attempt (hasAbbExecFeature xl);
  match r with
  | inl true => installUsingAbbExec file
  | _ => installUsingPush file
  end.

(** [InstallRemote]; the connection its last call opens is dropped. *)
Definition InstallRemote (apkPath : bytes) : io world bool :=
  data ← executeTransportCommandWithResponse client d (str "shell:pm install -r " ++ apkPath);
  _ ← attempt (ShellContext client d (str "rm -f " ++ apkPath));
  mret (Contains (TrimSpace data) (str "Success")).

(** [Uninstall] and [IsInstalled] *)
Definition Uninstall (pkg : bytes) : io world bool :=
  data ← executeTransportCommandWithResponse client d (str "shell:pm uninstall " ++ pkg);
  mret (Contains data (str "Success")).
Definition IsInstalled (pkg : bytes) : io world bool :=
  data ← executeTransportCommandWithResponse client d (str "shell:pm path " ++ pkg);
  mret (Contains data (str "package:")).

(** [StartActivity]; it calls itself, so the model takes fuel. *)
Fixpoint StartActivity (fuel : nat) (opts : StartActivityOptions) : io world bool :=
  match fuel with
  | O => out_of_fuel
  | S fuel' =>
      output ← RunCommand client d (Join (buildActivityCommandArgs opts (str "am start")) (str " "));
      if Contains output (str "No user") then StartActivity fuel' (set_activity_user 0 opts)
      else mret (negb (Contains output (str "Error")))
  end.

(** [StartService] *)
Fixpoint StartService (fuel : nat) (opts : StartServiceOptions) : io world bool :=
  match fuel with
  | O => out_of_fuel
  | S fuel' =>
      output ← RunCommand client d (Join (buildServiceCommandArgs opts (str "am startservice")) (str " "));
      if Contains output (str "--user") then StartService fuel' (set_service_user (-1) opts)
      else mret (negb (Contains output (str "Error")))
  end.
End device.

(** ** No connection is left behind *)

Section tidy.
Context {C : Type} `{!Connector C, !ConnectorLaws C} (client : C) (d : DeviceDescriptor).

(** A call that runs its body on a connection it closes, or that is built from
    calls that are tidy. *)
Ltac tidy_call :=
  match goal with
  | |- tidy (_ ≫= fun h => defer (on_conn h Close) _) => apply tidy_with; auto 6 using connector_opens with adb
  | |- tidy (_ ≫= _) => apply tidy_bind; [tidy_call | intros ?; tidy_call]
  | |- tidy (attempt _) => apply tidy_attempt; tidy_call
  | |- tidy (match ?x with _ => _ end) => destruct x; tidy_call
  | |- _ => auto 6 with adb
  end.

Lemma StartActivity_tidy fuel opts : tidy (StartActivity client d fuel opts).
Proof. revert opts. induction fuel as [|fuel IH]; intros opts; simpl; [by intros w r w' [= <- <-] []|].
  unfold RunCommand. tidy_call. Qed.

Lemma StartService_tidy fuel opts : tidy (StartService client d fuel opts).
Proof. revert opts. induction fuel as [|fuel IH]; intros opts; simpl; [by intros w r w' [= <- <-] []|].
  unfold RunCommand. tidy_call. Qed.

Lemma Install_tidy xl file : tidy (Install client d xl file).
Proof.
  unfold Install, hasAbbExecFeature, installUsingAbbExec, installUsingPush, RunCommand. tidy_call.
Qed.

(** C32. Connection hygiene: whenever one of the calls below returns, with a result
    or an error, it has closed every connection it opened, and it has touched
    no other connection; a call that hands out a connection has left at most
    that one open, and none if it failed.  (Those of Screen.v apart, all calls of
    the client and of a device are listed but those that leave a connection
    open: [InstallRemote], [Pull], and [WaitForDeviceWithTimeout] when the timer
    fires first, [WaitForDeviceWithTimeout_leaves_open].) *)
Theorem client_operations_tidy x xl cmd path path2 data mode port fuel ao so :
  (tidy (SendHostCommandContext client x cmd) /\ tidy (Version client x) /\
   tidy (ConnectContext client x path) /\ tidy (DisconnectContext client x path) /\
   tidy (ListDevices client x) /\ tidy (ListDevicesWithPaths client x) /\ tidy (KillServer client x) /\
   tidy (ListForwards client x) /\ tidy (Client_Features client x)) /\
  (tidy (FeaturesContext client xl x d) /\ tidy (HasFeature client xl d path) /\
   tidy (Device_Serial client x d) /\ tidy (DevicePath client x d) /\ tidy (Device_State client x d) /\
   tidy (WaitForDevice client x d) /\ tidy (WaitForDeviceWithTimeout client None x d)) /\
  (tidy (executeTransportCommand client d cmd) /\ tidy (executeTransportCommandWithResponse client d cmd) /\
   tidy (RunCommandContext client x d cmd) /\ tidy (RunCommandV2Context client d x cmd)) /\
  (tidy (Device_Stat client d path) /\ tidy (Device_Readdir client d path) /\
   tidy (Device_Push client d data path mode) /\ tidy (Device_ReadFile client d path)) /\
  (tidy (Forward client d path path2) /\ tidy (ForwardRemove client d path) /\
   tidy (Reverse client d path path2) /\ tidy (ReverseRemove client d path) /\ tidy (ListReverses client d) /\
   tidy (Reboot client d) /\ tidy (Remount client d) /\ tidy (Usb client d) /\ tidy (TcpIp client d port) /\
   tidy (Root client d) /\ tidy (WaitBootComplete client d) /\ tidy (Properties client d) /\
   tidy (DHCPIpAddress client d path)) /\
  (tidy (GetPackages client d) /\ tidy (ClearPackageData client d path) /\
   tidy (Install client d xl data) /\ tidy (Uninstall client d path) /\ tidy (IsInstalled client d path) /\
   tidy (StartActivity client d fuel ao) /\ tidy (StartService client d fuel so)) /\
  (opens (TransportContext client d) /\ opens (openTransportConnection client d cmd) /\
   opens (ShellContext client d cmd) /\ opens (TrackDevices client) /\ opens (NewSyncService client d) /\
   opens (TrackJdwp client d) /\ opens (OpenLocal client d path) /\ opens (OpenLog client d path) /\
   opens (OpenSocketContext client d path) /\ opens (OpenSocket client d path) /\ opens (Shell client d cmd) /\
   opens (ShellV2WithOptionsContext client d cmd (mkV2Options path false))).
Proof.
  split_and!; auto using StartActivity_tidy, StartService_tidy, Install_tidy, NewSyncService_opens with adb;
    unfold Version, ConnectContext, DisconnectContext, ListDevicesWithPaths, KillServer, ListForwards,
      Client_Features, Device_Serial, DevicePath, Device_State, getAttribute, WaitForDeviceWithTimeout, WaitForDevice,
      Forward, ForwardRemove, Reverse, ReverseRemove, ListReverses, Reboot, Remount, Usb, TcpIp, Root,
      WaitBootComplete, DHCPIpAddress, Properties, GetPackages, ClearPackageData, RunCommand, Uninstall,
      IsInstalled, TrackJdwp, OpenLocal, OpenLog, OpenSocket, OpenSocketContext, Shell; tidy_call.
Qed.
End tidy.

(** ** Port forwarding *)

Lemma two_status_okay tl c cmd s :
  conn_feeds tl c (StatusOkay ++ StatusOkay ++ s) ->
  exists c', two_status cmd c = (Ok true, c') /\ written c' = written c ++ frame cmd.
Proof.
  intros Hf. destruct (SendCommand_feeds tl c cmd StatusOkay _ eq_refl ltac:(done) Hf) as (c1 & E1 & Hf1 & Hw1).
  destruct (ReadStatus_feeds tl c1 StatusOkay s eq_refl ltac:(done) Hf1) as (c2 & E2 & _ & Hw2).
  exists c2. unfold two_status. rewrite (io_bind_Ok _ _ _ _ _ E1), decide_True by done.
  rewrite (io_bind_Ok _ _ _ _ _ E2), decide_True by done. split; [done | congruence].
Qed.

Lemma two_status_fail tl c cmd msg s :
  zlen msg <= 65535 ->
  conn_feeds tl c (StatusFail ++ frame msg ++ s) \/ conn_feeds tl c (StatusOkay ++ StatusFail ++ frame msg ++ s) ->
  exists c', two_status cmd c = (Err (Errorf (str "operation failed: " ++ msg)), c') /\
    written c' = written c ++ frame cmd.
Proof.
  intros Hm [Hf|Hf].
  - destruct (Write_feeds tl c _ (frame cmd) Hf) as [Ew Hf1].
    destruct (ReadStatus_fail tl _ msg s Hm Hf1) as (c2 & E2 & _ & Hw2).
    exists c2. split; [|done]. unfold two_status.
    assert (E : SendCommand cmd c = (Err (Errorf (str "operation failed: " ++ msg)), c2))
      by (unfold SendCommand; by rewrite (io_bind_Ok _ _ _ _ _ Ew)).
    by rewrite (io_bind_Err _ _ _ _ _ E).
  - destruct (SendCommand_feeds tl c cmd StatusOkay _ eq_refl ltac:(done) Hf) as (c1 & E1 & Hf1 & Hw1).
    destruct (ReadStatus_fail tl c1 msg s Hm Hf1) as (c2 & E2 & _ & Hw2).
    exists c2. unfold two_status. rewrite (io_bind_Ok _ _ _ _ _ E1), decide_True by done.
    rewrite (io_bind_Err _ _ _ _ _ E2). split; [done | congruence].
Qed.

(** Port forwarding: [Forward] asks for exactly the mapping it was given, on
    the selected device; it succeeds when the server acknowledges twice, and a
    FAIL at either stage becomes an error with the server's message.  The
    replies may be fragmented in any way, and the connection is closed. *)
Theorem Forward_result {C} `{!Connector C, !ConnectorLaws C} (client : C) d local remote tl w c msg s :
  dials_to client w c -> zlen msg <= 65535 ->
  let cmd := getHostPrefix d ++ str ":forward:" ++ local ++ str ";" ++ remote in
  (conn_feeds tl c (StatusOkay ++ StatusOkay ++ s) ->
     exists w' c', Forward client d local remote w = (Ok true, w') /\ conns w' = conns w ++ [c'] /\
       conn_closed c' = true /\ written c' = written c ++ frame cmd) /\
  (conn_feeds tl c (StatusFail ++ frame msg ++ s) \/
   conn_feeds tl c (StatusOkay ++ StatusFail ++ frame msg ++ s) ->
     exists w' c', Forward client d local remote w = (Err (Errorf (str "operation failed: " ++ msg)), w') /\
       conns w' = conns w ++ [c'] /\ conn_closed c' = true /\ written c' = written c ++ frame cmd).
Proof.
  intros (w1 & E1 & H1) Hm cmd. unfold Forward. rewrite (io_bind_Ok _ _ _ _ _ E1). split; intros Hf.
  - destruct (two_status_okay tl c cmd s Hf) as (c2 & E2 & Hw2).
    destruct (defer_Close_last _ w1 _ _ _ _ H1 E2 I) as (w3 & c3 & E3 & H3 & Hcl & Hw3).
    exists w3, c3. by rewrite Hw3.
  - destruct (two_status_fail tl c cmd msg s Hm Hf) as (c2 & E2 & Hw2).
    destruct (defer_Close_last _ w1 _ _ _ _ H1 E2 I) as (w3 & c3 & E3 & H3 & Hcl & Hw3).
    exists w3, c3. by rewrite Hw3.
Qed.

(** ** Device properties *)

Definition getprop_entry (kv : bytes * bytes) : bytes := str "[" ++ kv.1 ++ str "]: [" ++ kv.2 ++ str "]".

(** Keys are words without a closing bracket; a value is any text on one line. *)
Definition prop_wf (kv : bytes * bytes) : Prop :=
  is_word kv.1 = true /\ (x5d ∉ kv.1) /\ (newline ∉ kv.2).

Lemma Index_first k h t b : h ∉ k -> Index (k ++ (h :: t) ++ b) (h :: t) = Some (length k).
Proof.
  intros Hk. induction k as [|x k IH].
  - cbn [app]. change (h :: t ++ b) with ((h :: t) ++ b). unfold Index.
    destruct ((h :: t) ++ b) eqn:E; [done|]. by rewrite <- E, HasPrefix_app.
  - apply not_elem_of_cons in Hk as [Hx Hk]. change ((x :: k) ++ (h :: t) ++ b) with (x :: k ++ (h :: t) ++ b).
    cbn [Index HasPrefix]. rewrite bool_decide_false by congruence. simpl andb.
    change (h :: t ++ b) with ((h :: t) ++ b). by rewrite IH.
Qed.

Lemma plain_char_at w : is_word w = true -> TrimByte space w = w.
Proof.
  intros Hw. apply word_bounded in Hw as [(c & r & -> & Hc) (r' & d & E & Hd)].
  assert (Hns : forall x l, plain x = true -> trim_front (char_at space) 0 (x :: l) = x :: l).
  { intros x l Hx. cbn [trim_front char_at]. rewrite bool_decide_false; [done|]. intros ->. done. }
  unfold TrimByte. rewrite Hns by done. rewrite E, reverse_snoc, Hns by done.
  by rewrite <- reverse_snoc, reverse_involutive.
Qed.

Lemma bracket_bounded v : bounded (str "[" ++ v ++ str "]").
Proof.
  split; [by exists x5b, (v ++ str "]")|]. exists (str "[" ++ v), x5d. by rewrite <- app_assoc.
Qed.

Lemma TrimSpace_lead t : bounded t -> TrimSpace (space :: t) = t.
Proof.
  intros H. unfold TrimSpace. change (trim_front space_at 0 (space :: t)) with (trim_front space_at 0 t).
  rewrite trim_front_bounded, trim_back_bounded, reverse_involutive by done. done.
Qed.

Lemma slice_brackets v : slice 1 (length (str "[" ++ v ++ str "]") - 1) (str "[" ++ v ++ str "]") = v.
Proof.
  unfold slice.
  replace (length (str "[" ++ v ++ str "]") - 1 - 1)%nat with (length v) by (rewrite !length_app; simpl; lia).
  exact (take_app_length v (str "]")).
Qed.

Lemma slice_key k r : slice 1 (S (length k)) (x5b :: k ++ r) = k.
Proof.
  unfold slice. replace (S (length k) - 1)%nat with (length k) by lia. exact (take_app_length k r).
Qed.

Lemma drop_key k t r : drop (S (length k) + length t) (x5b :: k ++ t ++ r) = r.
Proof.
  rewrite app_assoc. replace (S (length k) + length t)%nat with (S (length (k ++ t))) by (rewrite length_app; lia).
  exact (drop_app_length (k ++ t) r).
Qed.

Lemma getprop_line_entry kv m : prop_wf kv -> getprop_line (getprop_entry kv) m = <[kv.1 := kv.2]> m.
Proof.
  destruct kv as [k v]. intros (Hk & Hb & Hv). cbn [fst snd] in *. unfold getprop_line.
  assert (Hbd : bounded (getprop_entry (k, v))).
  { unfold getprop_entry. cbn [fst snd]. pose proof (bracket_bounded (k ++ str "]: [" ++ v)) as H.
    by rewrite <- !app_assoc in H. }
  rewrite (proj1 (TrimSpace_bounded _ Hbd)).
  rewrite bool_decide_false by (destruct Hbd as [(c & r & -> & _) _]; done).
  assert (Hpre : HasPrefix (getprop_entry (k, v)) (str "[") = true) by (apply HasPrefix_app).
  rewrite Hpre. cbn [negb].
  assert (Hidx : Index (getprop_entry (k, v)) (str "]:") = Some (S (length k))).
  { assert (Hnot : x5d ∉ x5b :: k) by (apply not_elem_of_cons; done).
    apply (Index_first (x5b :: k) x5d (str ":") (str " [" ++ v ++ str "]") Hnot). }
  rewrite Hidx. f_equal.
  - replace (slice 1 (S (length k)) (getprop_entry (k, v))) with k; [by apply plain_char_at|].
    symmetry. exact (slice_key k (str "]: [" ++ v ++ str "]")).
  - replace (drop (S (length k) + 2) (getprop_entry (k, v))) with (space :: str "[" ++ v ++ str "]").
    + rewrite TrimSpace_lead by apply bracket_bounded.
      rewrite HasPrefix_app. assert (HasSuffix (str "[" ++ v ++ str "]") (str "]") = true) as ->
        by (apply HasSuffix_spec; exists (str "[" ++ v); by rewrite <- app_assoc).
      apply slice_brackets.
    + symmetry. exact (drop_key k (str "]:") (str " [" ++ v ++ str "]")).
Qed.

(** [getprop] output: parsing the device's listing, one [[key]: [value]] line
    each, gives the map with the last value of every key - for any values,
    brackets, colons and spaces included. *)
Theorem getprop_roundtrip kvs :
  Forall prop_wf kvs ->
  parseGetpropOutput (concat ((fun kv => getprop_entry kv ++ [newline]) <$> kvs)) =
  foldl (fun m kv => <[kv.1 := kv.2]> m) ∅ kvs.
Proof.
  unfold parseGetpropOutput. generalize (∅ : gmap bytes bytes). intros m Hall. revert m.
  induction Hall as [|kv kvs Hkv Hall IH]; intros m; [done|].
  cbn [fmap list_fmap concat]. rewrite <- app_assoc. cbn [app].
  assert (Hnl : newline ∉ getprop_entry kv).
  { destruct Hkv as (Hk & _ & Hv). unfold getprop_entry. apply andb_true_iff in Hk as [_ Hk].
    assert (newline ∉ kv.1) by (by eapply plain_elem). rewrite !elem_of_app.
    rewrite !list_elem_of_In in *. simpl. naive_solver. }
  rewrite Split_app_no_sep by done. cbn [foldl]. rewrite getprop_line_entry by done. apply IH.
Qed.

(** ** Defects the model shows *)

Lemma on_conn_dials {A} h (m : io conn A) w r w' : on_conn h m w = (r, w') -> dials w' = dials w.
Proof.
  unfold on_conn. destruct (conns w !! h) as [c|]; [|by intros [= <- <-]].
  destruct (m c). by intros [= <- <-].
Qed.

(** A device whose shell prints [out] and exits. *)
Definition printing (out : bytes) : conn := mkConn [RChunk StatusOkay; RChunk StatusOkay; RChunk out] [] [] false.

Lemma printing_run d cmd out ds w :
  dials w = inl (printing out) :: ds ->
  exists w', RunCommand ex_client d cmd w = (Ok out, w') /\ dials w' = ds.
Proof.
  intros Hd.
  destruct (RunCommand_output ex_client d cmd w (printing out) [RChunk StatusOkay; RChunk out] out) as (w' & c' & E & _);
    [| done | |].
  { eexists. unfold ConnectionContext, autoStart_Connector, ConnectionContext, connectorImpl_Connector, attempt, mbind, io_bind, Dial.
    rewrite Hd. done. }
  { pose proof (feeds_chunk [] StatusOkay _ _ (feeds_chunk [] out [] [] (feeds_done []))) as H.
    by rewrite app_nil_r in H. }
  exists w'. split; [done|]. revert E.
  unfold RunCommand, RunCommandContext, ShellContext, TransportContext, on_error, defer, mbind, io_bind, mret, io_ret.
  unfold ConnectionContext, autoStart_Connector, ConnectionContext, connectorImpl_Connector, attempt, mbind, io_bind, Dial.
  rewrite Hd. unfold mret, io_ret. cbv beta iota.
  destruct (on_conn _ (select_device d) _) as [[]w1] eqn:E1; try done. apply on_conn_dials in E1.
  destruct (on_conn _ (open_shell cmd) w1) as [[]w2] eqn:E2; try done. apply on_conn_dials in E2.
  destruct (on_conn _ (readAllWithContext Background) w2) as [r3 w3] eqn:E3. apply on_conn_dials in E3.
  destruct (on_conn _ Close w3) as [r4 w4] eqn:E4. apply on_conn_dials in E4.
  destruct r3; intros [= <- <-]; simpl in *; congruence.
Qed.

(** The retry that changes nothing: the [User] option never reaches the
    command line, so the retry of [StartActivity] after a [No user] answer
    repeats the identical request; against a device that keeps answering so,
    every amount of fuel is used up - the Go function recurses without end. *)
Theorem StartActivity_retry_futile d opts n :
  (forall u base, buildActivityCommandArgs (set_activity_user u opts) base = buildActivityCommandArgs opts base) /\
  (forall w out, Contains out (str "No user") = true -> dials w = replicate n (inl (printing out)) ->
     (StartActivity ex_client d n opts w).1 = OutOfFuel).
Proof.
  split; [done|]. intros w out Hc. revert opts w. induction n as [|n IH]; intros opts w Hd; [done|].
  cbn [StartActivity]. destruct (printing_run d (Join (buildActivityCommandArgs opts (str "am start")) (str " ")) out _ w Hd)
    as (w' & E & Hd'). rewrite (io_bind_Ok _ _ _ _ _ E), Hc. by apply IH.
Qed.

(** A successful run of [InstallRemote] leaves a connection open: the shell it
    starts to delete the file is never closed. *)
Theorem InstallRemote_leaks :
  exists w c, InstallRemote ex_client AnyDevice (str "/sdcard/a.apk")
      (mkWorld [inl (printing (str "Success")); inl (printing [])] [] [] [])
    = (Ok true, w) /\ conns w !! 1%nat = Some c /\ conn_closed c = false.
Proof. eexists _, _. split; [vm_compute; reflexivity|]. split; by vm_compute. Qed.

(** ** Instances *)

Definition ex_forward : conn := mkConn [RChunk (str "OKAYOK"); RChunk (str "AY")] [] [] false.

Lemma Forward_result_witness :
  exists w' c', Forward ex_client (DeviceWithSerial (str "X1")) (str "tcp:1") (str "tcp:2") (ex_world ex_forward)
    = (Ok true, w') /\ conns w' = [c'] /\ conn_closed c' = true /\
    written c' = frame (str "host-serial:X1:forward:tcp:1;tcp:2").
Proof.
  apply (Forward_result ex_client (DeviceWithSerial (str "X1")) (str "tcp:1") (str "tcp:2") []
    (ex_world ex_forward) ex_forward [] []).
  - apply ex_dials.
  - vm_compute. discriminate.
  - split_and!; [|reflexivity..].
    exact (feeds_chunk [] (str "OKAYOK") _ _ (feeds_chunk [] (str "AY") [] [] (feeds_done []))).
Defined.

Lemma client_operations_tidy_witness :
  tidy (Install ex_client AnyDevice Background (inl (str "apk"))) /\
  opens (OpenLocal ex_client AnyDevice (str "/dev/log")).
Proof.
  destruct (client_operations_tidy ex_client AnyDevice Background Background (str "root:") (str "/dev/log")
              (str "tcp:1") (inl (str "apk")) 420 5555 1
              (mkActivity [] [] [] [] [] [] 0 [] false false) (mkSvcOptions [] [] [] [] 0 []))
    as (_ & _ & _ & _ & _ & (_ & _ & H & _) & (_ & _ & _ & _ & _ & _ & H' & _)).
  exact (conj H H').
Defined.

Lemma getprop_roundtrip_witness :
  parseGetpropOutput (getprop_entry (str "ro.x", str "a]: [b") ++ [newline]) = {[ str "ro.x" := str "a]: [b" ]}.
Proof.
  apply (getprop_roundtrip [(str "ro.x", str "a]: [b")]).
  constructor; [|constructor].
  apply (bool_decide_unpack (is_word (str "ro.x") = true /\ (x5d ∉ str "ro.x") /\ (newline ∉ str "a]: [b"))).
  vm_compute. exact I.
Defined.
