(* ===== verification/Screen.v ===== *)
(** * Screen capture: adb/device_screen.go

    The framebuffer request, its 52-byte header and [decodeFramebuffer] with its
    32-bit mask arithmetic.  An image is the list of its pixels in row order.
    [Screencap] hands its data to Go's image decoders, which are a parameter. *)

From stdpp Require Import base list numbers.
From Stdlib Require Import ZArith Lia.
From S2P Require Import Prelude GoStrings GoNet Connection World Client.

Local Open Scope Z_scope.

(** ** Machine arithmetic *)

(** [v >> n] and [v << n] on [uint32] and [uint8] with an unsigned count: all
    bits go when the count reaches the width. *)
Definition shr32 (v n : Z) : Z := if 32 <=? n then 0 else Z.shiftr v n.
Definition shl32 (v n : Z) : Z := if 32 <=? n then 0 else wrap32 (Z.shiftl v n).
Definition shl8 (v n : Z) : Z := if 8 <=? n then 0 else wrap8 (Z.shiftl v n).

(** ** Data *)

Record meta := mkMeta {
  m_version : Z; m_bpp : Z; m_reserved : Z; m_size : Z; m_height : Z; m_width : Z;
  red_offset : Z; red_length : Z; blue_offset : Z; blue_length : Z;
  green_offset : Z; green_length : Z; alpha_offset : Z; alpha_length : Z
}.

Record RGBA := mkRGBA { R : Z; G : Z; B : Z; A : Z }.

Record image := mkImage { i_width : Z; i_height : Z; pixels : list RGBA }.

(** The loop over [fields]: thirteen little-endian words; [alpha_length] is set to 0. *)
Definition parse_meta (header : bytes) : meta :=
  let f i := Uint32 (slice (4 * i) (4 * i + 4) header) in
  mkMeta (f 0%nat) (f 1%nat) (f 2%nat) (f 3%nat) (f 4%nat) (f 5%nat) (f 6%nat) (f 7%nat) (f 8%nat) (f 9%nat)
         (f 10%nat) (f 11%nat) (f 12%nat) 0.

(** [uint32(0xFFFFFFFF>>(32-length)) << offset] *)
Definition channel_mask (offset length : Z) : Z := shl32 (shr32 0xFFFFFFFF (wrap32 (32 - length))) offset.

(** One colour channel of a pixel: masked, shifted down, cut to eight bits and
    scaled up when the channel is narrower. *)
Definition channel (pixel offset length : Z) : Z :=
  let v := wrap8 (shr32 (Z.land pixel (channel_mask offset length)) offset) in
  if length <? 8 then shl8 v (8 - length) else v.

(** [pixel |= uint32(data[offset+i]) << (i * 8)] over the bytes of one pixel. *)
Fixpoint pixel_value (i : Z) (bs : bytes) : Z :=
  match bs with
  | [] => 0
  | b :: r => Z.lor (shl32 (byte_to_Z b) (i * 8)) (pixel_value (i + 1) r)
  end.

Definition decode_pixel (m : meta) (pixel : Z) : RGBA :=
  mkRGBA (channel pixel (red_offset m) (red_length m))
         (channel pixel (green_offset m) (green_length m))
         (channel pixel (blue_offset m) (blue_length m))
         (if 0 <? alpha_length m then channel pixel (alpha_offset m) (alpha_length m) else 0xFF).

(** The loops over [y] and [x]: [n] pixels are left, of [bytesPerPixel] bytes
    each; an index past the data panics. *)
Fixpoint decode_pixels (m : meta) (bytesPerPixel n : nat) (data : bytes) : outcome (list RGBA) :=
  match n with
  | O => Ok []
  | S n' =>
      if decide (length data < bytesPerPixel)%nat then Panic
      else
        rest ← decode_pixels m bytesPerPixel n' (drop bytesPerPixel data);
        Ok (decode_pixel m (pixel_value 0 (take bytesPerPixel data)) :: rest)
  end.

(** [decodeFramebuffer]; [image.NewRGBA] panics when the size of the pixel
    array overflows an [int]. *)
Definition decodeFramebuffer (data : bytes) (width height bpp : Z) (m : meta) : outcome image :=
  if 2 ^ 63 <=? 4 * width * height then Panic
  else
    px ← decode_pixels m (Z.to_nat (bpp / 8)) (Z.to_nat (width * height)) data;
    Ok (mkImage width height px).

(** The body of [Framebuffer]. *)
Definition framebuffer : io conn image :=
  status ← SendCommand (str "framebuffer:");
  if decide (status = StatusOkay) then
    header ← ReadFull 52;
    let m := parse_meta header in
    pixelData ← ReadFull (Z.to_nat (m_size m));
    of_outcome (decodeFramebuffer pixelData (m_width m) (m_height m) (m_bpp m) m)
  else fail (unexpected_status status).

Section device.
Context {C : Type} `{!Connector C} (client : C) (d : DeviceDescriptor).

(** [Framebuffer] *)
Definition Framebuffer : io world image :=
  h ← TransportContext client d;
  defer (on_conn h Close) (on_conn h framebuffer).

(* [image.Decode] with the registered PNG and JPEG formats. *)
Context {Img : Type} (Decode : bytes -> Img + goerror).

(** [Screencap] *)
Definition Screencap : io world Img :=
  h ← ShellContext client d (str "screencap -p");
  defer (on_conn h Close)
    (r ← attempt (on_conn h ReadAllOrErr);
     match r with
     | inr e => fail (Wrapf (str "failed to read screencap data: ") e)
     | inl data =>
         match Decode data with
         | inr e => fail (Wrapf (str "failed to decode screencap image: ") e)
         | inl img => mret img
         end
     end).

(** [OpenLogcat] *)
Definition OpenLogcat (options : bytes) : io world nat :=
  ShellContext client d (match options with [] => str "logcat" | o => str "logcat" ++ str " " ++ o end).

End device.

(** ** Lemmas *)

Lemma decode_pixels_length m bp n data px :
  decode_pixels m bp n data = Ok px -> length px = n /\ (n * bp <= length data)%nat.
Proof.
  revert data px. induction n as [|n IH]; intros data px E; simpl in E; [by simplify_eq; simpl; lia|].
  destruct (decide _); [done|]. unfold mbind, outcome_bind in E.
  destruct (decode_pixels m bp n (drop bp data)) as [r| | |] eqn:E1; simplify_eq.
  apply IH in E1 as [<- H]. rewrite length_drop in H. simpl. lia.
Qed.

Lemma decode_pixels_total m bp n data :
  (n * bp <= length data)%nat -> exists px, decode_pixels m bp n data = Ok px.
Proof.
  revert data. induction n as [|n IH]; intros data H; simpl; [by eexists|].
  rewrite decide_False by (simpl in H; lia).
  destruct (IH (drop bp data)) as [px E]; [rewrite length_drop; simpl in H; lia|].
  rewrite E. by eexists.
Qed.

Lemma decode_pixels_cases m bp n data :
  (exists px, decode_pixels m bp n data = Ok px) \/ decode_pixels m bp n data = Panic.
Proof.
  revert data. induction n as [|n IH]; intros data; simpl; [by left; eexists|].
  destruct (decide _); [by right|]. destruct (IH (drop bp data)) as [[px E]|E]; rewrite E; [left | right]; by try eexists.
Qed.

(** The mask selects [length] bits starting at [offset]. *)
Lemma channel_mask_value offset length :
  0 <= offset -> 1 <= length -> offset + length <= 32 ->
  channel_mask offset length = Z.shiftl (Z.ones length) offset.
Proof.
  intros Ho Hl Hs. unfold channel_mask, shr32, shl32, wrap32.
  rewrite (Z.mod_small (32 - length)) by lia. rewrite !(proj2 (Z.leb_gt _ _)) by lia.
  replace 0xFFFFFFFF with (Z.ones 32) by done.
  assert (E : Z.shiftr (Z.ones 32) (32 - length) = Z.ones length).
  { apply Z.bits_inj'. intros i Hi. rewrite Z.shiftr_spec by done.
    destruct (Z.lt_ge_cases i length).
    - by rewrite !Z.ones_spec_low by lia.
    - by rewrite !Z.ones_spec_high by lia. }
  rewrite E. apply Z.mod_small. rewrite Z.shiftl_mul_pow2, Z.ones_equiv by lia.
  pose proof (Z.pow_pos_nonneg 2 offset). pose proof (Z.pow_pos_nonneg 2 length).
  assert (2 ^ length * 2 ^ offset <= 2 ^ 32).
  { rewrite <- Z.pow_add_r by lia. apply Z.pow_le_mono_r; lia. }
  nia.
Qed.

Lemma masked_bits pixel offset length :
  0 <= offset -> 0 <= length ->
  Z.shiftr (Z.land pixel (Z.shiftl (Z.ones length) offset)) offset = (pixel / 2 ^ offset) mod 2 ^ length.
Proof.
  intros Ho Hl. rewrite Z.shiftr_land, Z.shiftr_shiftl_l, Z.sub_diag, Z.shiftl_0_r by done.
  by rewrite Z.land_ones, Z.shiftr_div_pow2 by done.
Qed.

(** A channel is its bits, scaled to eight: narrow channels are shifted up, of
    wide ones the low eight bits are kept. *)
Lemma channel_value pixel offset length :
  0 <= offset -> 1 <= length -> offset + length <= 32 ->
  channel pixel offset length =
    let v := (pixel / 2 ^ offset) mod 2 ^ length in
    if length <? 8 then v * 2 ^ (8 - length) else v mod 256.
Proof.
  intros Ho Hl Hs. unfold channel. rewrite channel_mask_value by done. unfold shr32.
  rewrite (proj2 (Z.leb_gt 32 offset)) by lia. rewrite masked_bits by lia. cbv zeta.
  set (v := (pixel / 2 ^ offset) mod 2 ^ length). unfold wrap8. change (2 ^ 8) with 256.
  pose proof (Z.mod_pos_bound (pixel / 2 ^ offset) (2 ^ length) ltac:(apply Z.pow_pos_nonneg; lia)) as Hv. fold v in Hv.
  destruct (Z.ltb_spec length 8); [|done].
  assert (Hp : 2 ^ length * 2 ^ (8 - length) = 256) by (rewrite <- Z.pow_add_r by lia; by replace (length + (8 - length)) with 8 by lia).
  pose proof (Z.pow_pos_nonneg 2 (8 - length) ltac:(lia) ltac:(lia)).
  rewrite (Z.mod_small v) by nia. unfold shl8, wrap8. rewrite (proj2 (Z.leb_gt _ _)) by lia.
  rewrite Z.shiftl_mul_pow2 by lia. apply Z.mod_small. change (2 ^ 8) with 256. nia.
Qed.

Lemma shl32_byte b i : 0 <= i <= 24 -> shl32 (byte_to_Z b) i = Z.shiftl (byte_to_Z b) i.
Proof.
  intros Hi. pose proof (byte_to_Z_range b). unfold shl32, wrap32. rewrite (proj2 (Z.leb_gt _ _)) by lia.
  apply Z.mod_small. rewrite Z.shiftl_mul_pow2 by lia.
  pose proof (Z.pow_pos_nonneg 2 i). assert (2 ^ i <= 2 ^ 24) by (apply Z.pow_le_mono_r; lia). nia.
Qed.

Lemma pixel_value_u32 b : length b = 4%nat -> pixel_value 0 b = Uint32 b.
Proof.
  destruct b as [|b0 [|b1 [|b2 [|b3 [|]]]]]; intros Hl; simplify_eq/=.
  rewrite !shl32_byte by lia. unfold Uint32. rewrite Z.shiftl_0_r, Z.lor_0_r.
  by rewrite !Z.lor_assoc.
Qed.

Lemma decode_pixels_words m vs :
  Forall is_u32 vs ->
  decode_pixels m 4 (length vs) (concat (PutUint32 <$> vs)) = Ok (decode_pixel m <$> vs).
Proof.
  induction 1 as [|v vs Hv Hvs IH]; [done|]. cbn [length decode_pixels fmap list_fmap concat].
  rewrite decide_False by (rewrite length_app, PutUint32_length; lia).
  assert (Ed : forall l : bytes, drop 4 (PutUint32 v ++ l) = l) by done.
  assert (Et : forall l : bytes, take 4 (PutUint32 v ++ l) = PutUint32 v) by done.
  rewrite Ed, Et, IH. unfold mbind, outcome_bind. by rewrite pixel_value_u32, Uint32_PutUint32_nil.
Qed.

(** ** Properties *)

(** C37. Decoding a 32-bit framebuffer whose data has the size of the image: every
    pixel is the pixel word at its place in the data.  Each channel - red, green,
    blue and alpha - that lies in the word holds exactly the bits its offset and
    length name: shifted up to eight bits when there are fewer, unchanged when
    there are eight, and of more than eight only the low eight, the most
    significant ones being lost.  Without alpha bits the pixel is opaque. *)
Theorem decodeFramebuffer_pixels m vs width height :
  Forall is_u32 vs -> 0 <= width -> 0 <= height -> width * height = zlen vs -> 4 * width * height < 2 ^ 63 ->
  exists img, decodeFramebuffer (concat (PutUint32 <$> vs)) width height 32 m = Ok img /\
    i_width img = width /\ i_height img = height /\
    forall k v, vs !! k = Some v -> exists p, pixels img !! k = Some p /\ (alpha_length m = 0 -> A p = 255) /\
      (forall off len get, (off, len, get) ∈ [(red_offset m, red_length m, R); (green_offset m, green_length m, G);
                                             (blue_offset m, blue_length m, B); (alpha_offset m, alpha_length m, A)] ->
         0 <= off -> 1 <= len -> off + len <= 32 ->
         get p = let bits := (v / 2 ^ off) mod 2 ^ len in
                 if len <? 8 then bits * 2 ^ (8 - len) else bits mod 256).
Proof.
  intros Hvs Hw Hh Hwh Hbig. unfold decodeFramebuffer. rewrite (proj2 (Z.leb_gt _ _)) by done.
  assert (Hn : Z.to_nat (width * height) = length vs) by (rewrite Hwh; unfold zlen; lia).
  rewrite Hn. change (Z.to_nat (32 / 8)) with 4%nat. rewrite decode_pixels_words by done.
  eexists. split; [done|]. simpl. split_and!; [done..|]. intros k v Hk. exists (decode_pixel m v).
  split; [by rewrite list_lookup_fmap, Hk|]. split; [simpl; by intros ->|].
  intros off len get Hin Ho Hl Hs.
  rewrite !elem_of_cons in Hin.
  destruct Hin as [Hin|[Hin|[Hin|[Hin|Hin]]]]; [| | | |by apply not_elem_of_nil in Hin];
    injection Hin as -> -> ->; [by apply channel_value..|].
  simpl. rewrite (proj2 (Z.ltb_lt _ _)) by lia. by apply channel_value.
Qed.

(** The size check that is missing: [decodeFramebuffer] succeeds exactly when the
    data holds [width * height] pixels of [bpp/8] bytes, and panics with an
    index out of range on anything shorter - the header's [size] field, which
    decides how much is read, is never compared with its dimensions. *)
Theorem decodeFramebuffer_bounds data width height bpp m :
  0 <= width -> 0 <= height -> 0 <= bpp -> 4 * width * height < 2 ^ 63 ->
  (width * height * (bpp / 8) <= zlen data ->
     exists img, decodeFramebuffer data width height bpp m = Ok img /\ zlen (pixels img) = width * height) /\
  (zlen data < width * height * (bpp / 8) -> decodeFramebuffer data width height bpp m = Panic).
Proof.
  intros Hw Hh Hb Hbig. unfold decodeFramebuffer. rewrite (proj2 (Z.leb_gt _ _)) by done.
  assert (Hq : 0 <= bpp / 8) by (apply Z.div_pos; lia).
  assert (Hn : Z.of_nat (Z.to_nat (width * height) * Z.to_nat (bpp / 8)) = width * height * (bpp / 8))
    by (rewrite Nat2Z.inj_mul, !Z2Nat.id by nia; done).
  split.
  - intros Hl. destruct (decode_pixels_total m (Z.to_nat (bpp / 8)) (Z.to_nat (width * height)) data) as [px E].
    { unfold zlen in Hl. lia. }
    rewrite E. eexists. split; [done|]. simpl. apply decode_pixels_length in E as [E _].
    unfold zlen. rewrite E. nia.
  - intros Hl. destruct (decode_pixels_cases m (Z.to_nat (bpp / 8)) (Z.to_nat (width * height)) data) as [[px E]| ->]; [|done].
    apply decode_pixels_length in E as [_ E]. unfold zlen in Hl. lia.
Qed.

(** ** Instances *)

(** A 565 layout. *)
Definition ex_meta : meta := mkMeta 1 32 0 8 1 2 11 5 0 5 5 6 0 0.

Lemma decodeFramebuffer_pixels_witness :
  exists img, decodeFramebuffer (concat (PutUint32 <$> [0xF800; 0x07FF])) 2 1 32 ex_meta = Ok img /\
    exists p, pixels img !! 0%nat = Some p /\ R p = 248.
Proof.
  destruct (decodeFramebuffer_pixels ex_meta [0xF800; 0x07FF] 2 1) as (img & E & _ & _ & H).
  - repeat constructor; vm_compute; discriminate.
  - lia.
  - lia.
  - reflexivity.
  - reflexivity.
  - exists img. split; [exact E|]. destruct (H 0%nat 0xF800 eq_refl) as (p & Hp & _ & Hc).
    exists p. split; [exact Hp|]. apply (Hc 11 5 R); [by left | lia | lia | lia].
Defined.

Lemma decodeFramebuffer_bounds_witness :
  decodeFramebuffer (str "short") 2 1 32 ex_meta = Panic.
Proof. apply (decodeFramebuffer_bounds (str "short") 2 1 32 ex_meta); vm_compute; (reflexivity || discriminate). Defined.

Section tidy.
Context {C : Type} `{!Connector C, !ConnectorLaws C} (client : C) (d : DeviceDescriptor).
Context {Img : Type} (Decode : bytes -> Img + goerror).

Lemma Framebuffer_tidy : tidy (Framebuffer client d).
Proof. apply tidy_with; auto with adb. Qed.

Lemma Screencap_tidy : tidy (Screencap client d Decode).
Proof.
  apply tidy_with; [auto with adb|]. intros h. apply local_bind; [auto with adb|].
  intros [data|e]; [destruct (Decode data)|]; auto with adb.
Qed.
End tidy.
