(* ===== verification/Bridge.v ===== *)
(** * The bridge: tcpusb/bridge.go

    Configuration of the bridge, and the composition of the two packages: what
    a service opened by a remote ADB client does when the device it dials is
    one of the [adb] package. *)

From stdpp Require Import base list numbers.
From Stdlib Require Import ZArith Lia.
From S2P Require Import Prelude GoStrings GoNet Packet Service Socket Connection World Client.

Local Open Scope Z_scope.

Record Config := mkConfig {
  cfg_Port : Z;
  cfg_ADBHost : bytes;
  cfg_ADBPort : Z;
  cfg_AuthHandler : option (bytes -> option goerror)   (* None: nil *)
}.

Record Bridge := mkBridge { br_Serial : bytes; br_Config : Config }.

(** [DefaultConfig] *)
Definition DefaultConfig : Config := mkConfig 6174 (str "127.0.0.1") 5037 (Some (fun _ => None)).

(** [NewBridge] *)
Definition NewBridge (serial : bytes) : Bridge := mkBridge serial DefaultConfig.

(** What [Start] and [StartWithServer] build: the client's connector, the
    device, the listening address and the handler every socket uses
    ([NewSocket] replaces a nil one). *)
Definition bridge_connector (getenv : bytes -> bytes) (windows : bool) (b : Bridge) : autoStartConnector :=
  NewClientWithOptions getenv windows (mkOptions (cfg_ADBHost (br_Config b)) (cfg_ADBPort (br_Config b)) []).
Definition bridge_device (b : Bridge) : DeviceDescriptor := DeviceWithSerial (br_Serial b).
Definition bridge_address (b : Bridge) : bytes := str ":" ++ fmt_d (cfg_Port (br_Config b)).
Definition bridge_handler (b : Bridge) : bytes -> option goerror :=
  match cfg_AuthHandler (br_Config b) with Some h => h | None => accept_all end.

(** [s.device.Transport()] as the opener of a service sees it; [None] if the
    call panics. *)
Definition service_dial {C} `{!Connector C} (client : C) (d : DeviceDescriptor) (w : world)
  : option (conn + goerror) :=
  match TransportContext client d w with
  | (Ok h, w') => inl <$> conns w' !! h
  | (Err e, _) => Some (inr e)
  | _ => None
  end.

Lemma encodeData_frame d : zlen d <= 65535 -> encodeData d = frame d.
Proof.
  intros H. unfold encodeData, frame. rewrite take_ge; [done|]. rewrite fmt_x_length; [done|]. unfold zlen in *. lia.
Qed.

(** The opener against a device that accepts, one action after the other. *)
Lemma run_opener_okay p c lid rid max b d s :
  data_bytes (Data p) = b :: d -> conn_feeds [] c (StatusOkay ++ s) ->
  exists w, run_opener p (inl c) 6 ODial (sw (init_cfg lid rid max)) = (OWait, w) /\
    out w = [mkOut A_OKAY lid rid None] /\ opened (sv w) = true /\ ended (sv w) = false /\
    transport (sv w) = true /\ conn_feeds [] (dev w) s /\
    written (dev w) = written c ++ encodeData (take (length d) (b :: d)).
Proof.
  intros Hd Hf. cbn [run_opener opener_step init_cfg sw sv NewService ended with_dev].
  cbn [opener_step]. rewrite Hd. cbn [set_transport with_sv with_dev sv transport negb dev ended length].
  rewrite Nat.sub_0_r || (replace (S (length d) - 1)%nat with (length d) by lia).
  destruct (Write_feeds [] c _ (encodeData (take (length d) (b :: d))) Hf) as [Ew Hf1].
  match goal with |- context [on_dev ?m ?w] => rewrite (on_dev_eq m w _ _ Ew) end.
  cbn [run_opener opener_step with_dev sv dev transport negb].
  destruct (ReadFull_feeds_app [] _ StatusOkay s 4 Hf1 eq_refl) as (c2 & E2 & Hf2 & Hw2).
  match goal with |- context [on_dev ?m ?w] => rewrite (on_dev_eq m w _ _ E2) end.
  cbn [run_opener opener_step with_dev with_sv sv dev transport set_transport NewService negb]. rewrite decide_True by done.
  destruct (assemble_nil A_OKAY lid rid) as [bb Hb].
  cbn [localID remoteID]. rewrite (proj1 (send_spec _ _ bb Hb)).
  eexists. split; [done|]. cbn. split_and!; try done.
Qed.

(** C21. Opening a stream through the bridge, end to end: with an ADB server that
    accepts the device (its OKAY delivered by the first [Read]) and a device that
    accepts the service, the service the
    remote client opened with [name] and a final zero byte is open after six
    actions - the client has been sent the OKAY with both ids, and the device
    connection has carried exactly the selection of the bridge's device and
    the framed service name, and delivers what the device sends next. *)
Theorem bridge_open_end_to_end {C} `{!Connector C, !ConnectorLaws C} (client : C) b w c evs p name lid rid max s :
  dials_to client w c -> replies c StatusOkay evs ->
  feeds [] evs (StatusOkay ++ s) ->
  data_bytes (Data p) = name ++ [x00] -> zlen name <= 65535 ->
  exists dial sw', service_dial client (bridge_device b) w = Some dial /\
    run_opener p dial 6 ODial (sw (init_cfg lid rid max)) = (OWait, sw') /\
    out sw' = [mkOut A_OKAY lid rid None] /\ opened (sv sw') = true /\ ended (sv sw') = false /\
    conn_feeds [] (dev sw') s /\
    written (dev sw') = written c ++ frame (str "host:transport:" ++ br_Serial b) ++ frame name.
Proof.
  intros Hd Hr Hf Hp Hl.
  destruct (TransportContext_ok client w c (bridge_device b) evs Hd Hr) as (w1 & E1 & H1).
  set (c1 := mkConn evs [] _ false) in H1.
  assert (Ed : service_dial client (bridge_device b) w = Some (inl c1)).
  { unfold service_dial. rewrite E1, H1, lookup_app_r, Nat.sub_diag by done. done. }
  destruct (name ++ [x00]) as [|x r] eqn:En; [by destruct name|].
  destruct (run_opener_okay p c1 lid rid max x r s Hp) as (sw' & E & Ho & Hop & He & _ & Hfd & Hwr); [done|].
  exists (inl c1), sw'. split_and!; try done. rewrite Hwr.
  assert (Hlen : length r = length name) by (apply (f_equal length) in En; rewrite length_app in En; simpl in En; lia).
  rewrite Hlen, <- En, take_app_length, encodeData_frame by done. unfold c1. simpl. by rewrite <- app_assoc.
Qed.

(** ** Instances *)

Definition ex_bridge_conn : conn := mkConn [RChunk StatusOkay; RChunk (str "OKA"); RChunk (str "Yhi")] [] [] false.

Lemma bridge_open_end_to_end_witness :
  exists dial sw', service_dial ex_client (bridge_device (NewBridge (str "X1"))) (ex_world ex_bridge_conn) = Some dial /\
    run_opener ex_open dial 6 ODial (sw (init_cfg 2 9 4096)) = (OWait, sw') /\
    written (dev sw') = frame (str "host:transport:X1") ++ frame (str "shell:ls").
Proof.
  destruct (bridge_open_end_to_end ex_client (NewBridge (str "X1")) (ex_world ex_bridge_conn) ex_bridge_conn
    [RChunk (str "OKA"); RChunk (str "Yhi")] ex_open (str "shell:ls") 2 9 4096 (str "hi"))
    as (dial & sw' & Hd & E & _ & _ & _ & _ & Hw).
  - apply ex_dials.
  - split_and!; reflexivity.
  - exact (feeds_chunk [] (str "OKA") _ _ (feeds_chunk [] (str "Yhi") [] [] (feeds_done []))).
  - reflexivity.
  - vm_compute. discriminate.
  - exists dial, sw'. split; [exact Hd|]. split; [exact E | exact Hw].
Defined.
