(* ===== verification/Flag.v ===== *)
(** * Go's flag package, as the command-line programs use it

    [FlagSet.Parse] with its rules: one or two dashes, [-name=value] or
    [-name value], boolean flags without a value, the terminator [--], and the
    first argument that is not a flag ends the flags.  The values of the flags
    are those the sources declare: strings, [int], [uint64], [bool] and
    durations.  [time.ParseDuration] computes with floating-point numbers and
    is a parameter. *)

From stdpp Require Import base list numbers gmap.
From Stdlib Require Import ZArith Lia.
From S2P Require Import Prelude GoStrings.

Local Open Scope Z_scope.

(** ** [strconv] with base 0 *)

Definition lower (c : byte) : Z := Z.lor (byte_to_Z c) 32.

Definition is_digit (c : byte) : bool := (48 <=? byte_to_Z c) && (byte_to_Z c <=? 57).

(** The base a prefix selects, and the digits after it. *)
Definition base_prefix (s : bytes) : Z * bytes :=
  match s with
  | "0"%byte :: c :: d :: r =>
      if lower c =? 98 then (2, d :: r)
      else if lower c =? 111 then (8, d :: r)
      else if lower c =? 120 then (16, d :: r)
      else (8, c :: d :: r)
  | "0"%byte :: r => (8, r)
  | _ => (10, s)
  end.

(** The loop of [underscoreOK]; the classes of the last character. *)
Inductive saw := SawStart | SawDigit | SawUnderscore | SawOther.

#[global] Instance saw_eq_dec : EqDecision saw.
Proof. solve_decision. Defined.

Fixpoint underscores (hex : bool) (last : saw) (s : bytes) : bool :=
  match s with
  | [] => negb (bool_decide (last = SawUnderscore))
  | c :: r =>
      if is_digit c || (hex && (97 <=? lower c) && (lower c <=? 102)) then underscores hex SawDigit r
      else if bool_decide (c = "_"%byte) then
        if decide (last = SawDigit) then underscores hex SawUnderscore r else false
      else if decide (last = SawUnderscore) then false
      else underscores hex SawOther r
  end.

(** [underscoreOK] on a string without sign *)
Definition underscoreOK (s : bytes) : bool :=
  match s with
  | "0"%byte :: c :: r =>
      if (lower c =? 98) || (lower c =? 111) || (lower c =? 120)
      then underscores (lower c =? 120) SawDigit r
      else underscores false SawStart s
  | _ => underscores false SawStart s
  end.

(** [strconv.ParseUint(s, 0, 64)]; [s0] is the string errors mention. *)
Definition ParseUint0 (s0 s : bytes) : outcome Z :=
  match s with
  | [] => Err (NumSyntax s0)
  | _ =>
      let '(base, ds) := base_prefix s in
      n ← parse_digits base s0 (filter (fun c => c <> "_"%byte) ds) 0;
      if bool_decide ("_"%byte ∈ ds) && negb (underscoreOK s) then Err (NumSyntax s0) else Ok n
  end.

(** [strconv.ParseInt(s, 0, 64)] *)
Definition ParseInt0 (s : bytes) : outcome Z :=
  match s with
  | "+"%byte :: s' => un ← ParseUint0 s s'; if 2 ^ 63 <=? un then Err (NumRange s) else Ok un
  | "-"%byte :: s' => un ← ParseUint0 s s'; if 2 ^ 63 <? un then Err (NumRange s) else Ok (- un)
  | _ => un ← ParseUint0 s s; if 2 ^ 63 <=? un then Err (NumRange s) else Ok un
  end.

(** [strconv.ParseBool] *)
Definition ParseBool (s : bytes) : outcome bool :=
  if decide (s ∈ [str "1"; str "t"; str "T"; str "true"; str "TRUE"; str "True"]) then Ok true
  else if decide (s ∈ [str "0"; str "f"; str "F"; str "false"; str "FALSE"; str "False"]) then Ok false
  else Err (NumSyntax s).

(** ** Flags *)

Inductive fval :=
  | FString (s : bytes)
  | FInt (n : Z)
  | FUint (n : Z)
  | FBool (b : bool)
  | FDuration (ns : Z).

(** The flags of a set, with their current values. *)
Abbreviation FlagSet := (gmap bytes fval).

(** Reading a flag of a known type. *)
Definition get_string (name : bytes) (f : FlagSet) : bytes :=
  match f !! name with Some (FString s) => s | _ => [] end.
Definition get_num (name : bytes) (f : FlagSet) : Z :=
  match f !! name with Some (FInt n) | Some (FUint n) | Some (FDuration n) => n | _ => 0 end.
Definition get_bool (name : bytes) (f : FlagSet) : bool :=
  match f !! name with Some (FBool b) => b | _ => false end.

(** One round of parsing: the flags are over, the user asked for help, the
    argument is not acceptable, or a flag has been set. *)
Inductive one :=
  | OneStop (rest : list bytes)
  | OneHelp
  | OneBad (msg : bytes)
  | OneSeen (f : FlagSet) (rest : list bytes).

Inductive parsed :=
  | Parsed (f : FlagSet) (rest : list bytes)
  | NeedHelp
  | BadFlag (msg : bytes).

Section flag.
(* [time.ParseDuration], in nanoseconds. *)
Context (ParseDuration : bytes -> outcome Z).

(** [Value.Set] *)
Definition Set_value (v : fval) (s : bytes) : outcome fval :=
  match v with
  | FString _ => Ok (FString s)
  | FInt _ => FInt <$> ParseInt0 s
  | FUint _ => FUint <$> ParseUint0 s s
  | FBool _ => FBool <$> ParseBool s
  | FDuration _ => FDuration <$> ParseDuration s
  end.

(** What follows the dashes of an argument that is a flag. *)
Definition flag_name (s : bytes) : option bytes :=
  match s with
  | "-"%byte :: "-"%byte :: name => Some name
  | "-"%byte :: c :: name => Some (c :: name)
  | _ => None
  end.

Definition set_flag (f : FlagSet) (name : bytes) (v : fval) (value : bytes) (rest : list bytes) : one :=
  match Set_value v value with
  | Ok v' => OneSeen (<[name := v']> f) rest
  | _ => OneBad (str "invalid value for flag -" ++ name)
  end.

(** [parseOne] *)
Definition parseOne (f : FlagSet) (args : list bytes) : one :=
  match args with
  | [] => OneStop []
  | s :: rest =>
      match flag_name s with
      | None => OneStop args
      | Some [] => OneStop rest                                    (* -- *)
      | Some ("-"%byte :: _) | Some ("="%byte :: _) => OneBad (str "bad flag syntax: " ++ s)
      | Some spec =>
          let '(name, value) := match cut spec "="%byte with
                                | Some (n, v) => (n, Some v)
                                | None => (spec, None)
                                end in
          match f !! name with
          | None =>
              if decide (name = str "help") then OneHelp
              else if decide (name = str "h") then OneHelp
              else OneBad (str "flag provided but not defined: -" ++ name)
          | Some (FBool b) => set_flag f name (FBool b) (default (str "true") value) rest
          | Some v =>
              match value, rest with
              | Some value, _ => set_flag f name v value rest
              | None, value :: rest' => set_flag f name v value rest'
              | None, [] => OneBad (str "flag needs an argument: -" ++ name)
              end
          end
      end
  end.

(** [Parse]; every round but the last takes an argument. *)
Fixpoint Parse_loop (fuel : nat) (f : FlagSet) (args : list bytes) : option parsed :=
  match fuel with
  | O => None
  | S fuel' =>
      match parseOne f args with
      | OneStop rest => Some (Parsed f rest)
      | OneHelp => Some NeedHelp
      | OneBad msg => Some (BadFlag msg)
      | OneSeen f' rest => Parse_loop fuel' f' rest
      end
  end.

Definition Parse (f : FlagSet) (args : list bytes) : option parsed := Parse_loop (S (length args)) f args.
End flag.

(** ** Lemmas *)

Section flag_lemmas.
Context (ParseDuration : bytes -> outcome Z).

Lemma set_flag_seen f name v value rest f' rest' :
  set_flag ParseDuration f name v value rest = OneSeen f' rest' ->
  rest' = rest /\ exists v', Set_value ParseDuration v value = Ok v' /\ f' = <[name := v']> f.
Proof. unfold set_flag. destruct (Set_value ParseDuration v value) eqn:E; intros; simplify_eq. naive_solver. Qed.

(** A flag that is seen is declared, and takes one or two arguments. *)
Lemma parseOne_seen f args f' rest :
  parseOne ParseDuration f args = OneSeen f' rest ->
  (length rest < length args)%nat /\
  exists name v value v', f !! name = Some v /\ Set_value ParseDuration v value = Ok v' /\ f' = <[name := v']> f.
Proof.
  unfold parseOne. intros E.
  assert (H : forall name v value r, f !! name = Some v -> (length r < length args)%nat ->
    set_flag ParseDuration f name v value r = OneSeen f' rest ->
    (length rest < length args)%nat /\
    exists name v value v', f !! name = Some v /\ Set_value ParseDuration v value = Ok v' /\ f' = <[name := v']> f).
  { intros name v value r Hn Hl Hs. apply set_flag_seen in Hs as (-> & v' & Hs & ->). split; [done|]. by exists name, v, value, v'. }
  repeat case_match; simplify_eq; (eapply H; [eassumption | | eassumption]; simpl; lia).
Qed.

(** [Parse] always comes to an end. *)
Lemma Parse_total f args : exists r, Parse ParseDuration f args = Some r.
Proof.
  unfold Parse. assert (H : forall fuel f args, (length args < fuel)%nat -> exists r, Parse_loop ParseDuration fuel f args = Some r).
  { induction fuel as [|fuel IH]; intros f0 a Hl; [lia|]. cbn [Parse_loop].
    destruct (parseOne ParseDuration f0 a) as [| | |f1 rest] eqn:E; try by eexists.
    apply parseOne_seen in E as [E _]. apply IH. lia. }
  apply H. lia.
Qed.

(** An argument that is not a flag ends the flags: what follows is positional. *)
Lemma Parse_positional f s rest :
  flag_name s = None -> Parse ParseDuration f (s :: rest) = Some (Parsed f (s :: rest)).
Proof. intros H. unfold Parse. cbn [Parse_loop parseOne]. by rewrite H. Qed.

Lemma Parse_nil f : Parse ParseDuration f [] = Some (Parsed f []).
Proof. done. Qed.

(** The declared type of a flag. *)
Definition kind (v : fval) : nat :=
  match v with FString _ => 0 | FInt _ => 1 | FUint _ => 2 | FBool _ => 3 | FDuration _ => 4 end.

Lemma Set_value_kind v s v' : Set_value ParseDuration v s = Ok v' -> kind v' = kind v.
Proof.
  destruct v; simpl; [by intros [= <-]| | | |]; unfold fmap, outcome_fmap; intros E; case_match; by simplify_eq.
Qed.

(** Parsing changes the values of the declared flags and nothing else: no flag
    appears or disappears, and each keeps its type. *)
Lemma Parse_kinds f args f' rest :
  Parse ParseDuration f args = Some (Parsed f' rest) -> kind <$> f' = kind <$> f.
Proof.
  unfold Parse. generalize (S (length args)) as fuel. intros fuel. revert f args.
  induction fuel as [|fuel IH]; intros f args; cbn [Parse_loop]; [done|].
  destruct (parseOne ParseDuration f args) as [| | |f1 rest1] eqn:E; intros H; simplify_eq; [done|].
  apply IH in H. apply parseOne_seen in E as [_ (n & v & s & v' & Hn & Hs & ->)]. rewrite H, fmap_insert.
  apply insert_id. rewrite lookup_fmap, Hn. simpl. f_equal. by rewrite (Set_value_kind _ _ _ Hs).
Qed.
End flag_lemmas.
