(* ===== verification/UsbBridge.v ===== *)
(** * Running a bridge: tcpusb/bridge.go ([Start], [StartWithServer]), cmd/usb-bridge/main.go

    [Start] runs the server's accept loop on the caller's goroutine, so the
    server is not visible to anyone else and nothing can call its [Close];
    [StartWithServer] hands the server out.  The program parses its flags,
    starts a bridge and waits for a signal.  Logging is left out: it is the only
    effect of the [verbose] flag. *)

From stdpp Require Import base list numbers gmap.
From Stdlib Require Import ZArith Lia.
From S2P Require Import Prelude GoStrings GoNet Packet Service Socket Server Connection World Client Bridge Flag.

Local Open Scope Z_scope.

(** ** A bridge that has been started *)

Record running := mkRunning {
  rn_connector : autoStartConnector;
  rn_device : DeviceDescriptor;
  rn_handler : bytes -> option goerror;
  rn_address : bytes;
  rn_exported : bool;        (* somebody holds the server and may close it *)
  rn_server : vcfg
}.

Section bridge.
Context (getenv : bytes -> bytes) (windows : bool).

Definition launch (exported : bool) (b : Bridge) : running :=
  mkRunning (bridge_connector getenv windows b) (bridge_device b) (bridge_handler b) (bridge_address b)
    exported init_server.

(** [Start], up to its call of [Listen]; it returns what [Listen] returns. *)
Definition Start : Bridge -> running := launch false.

(** [StartWithServer] *)
Definition StartWithServer : Bridge -> running := launch true.
End bridge.

Definition is_close (a : vact) : bool := match a with VClose | VCloseNext => true | _ => false end.

(** An action of the server, its sockets or a holder of the server. *)
Definition rexec (a : vact) (r : running) : option running :=
  if is_close a && negb (rn_exported r) then None
  else v ← vexec (rn_handler r) a (rn_server r);
       Some (mkRunning (rn_connector r) (rn_device r) (rn_handler r) (rn_address r) (rn_exported r) v).

(** What [Start] has returned, if it has. *)
Definition Start_result (r : running) : option (outcome unit) :=
  match lpc (rn_server r) with LReturned o => Some o | _ => None end.

(** ** cmd/usb-bridge *)

Definition bridge_flags : FlagSet :=
  <[str "serial" := FString []]> (<[str "port" := FInt 6174]> (<[str "adb-host" := FString (str "127.0.0.1")]>
    (<[str "adb-port" := FInt 5037]> {[str "verbose" := FBool false]}))).

(** The bridge the flags describe. *)
Definition flags_bridge (f : FlagSet) : Bridge :=
  let b := NewBridge (get_string (str "serial") f) in
  mkBridge (br_Serial b)
    (mkConfig (get_num (str "port") f) (get_string (str "adb-host") f) (get_num (str "adb-port") f)
       (cfg_AuthHandler (br_Config b))).

(** Why the process ended.  A run-time panic of any goroutine ends it: that of an
    opener or a forwarder, with the server's last state, or that of [handle] on
    a reader's goroutine. *)
Inductive reason :=
  | Help | BadUsage | NoSerial | Signalled
  | Returned (o : outcome unit)
  | Crashed (v : vcfg)
  | HandlerPanic (i : inputs).

Inductive program :=
  | Running (r : running)
  | Ended (code : Z) (why : reason).

Definition crashed_service (e : entry) : bool :=
  match op (e_cfg e), fw (e_cfg e) with
  | OCrash, _ | _, FCrash => true
  | _, _ => false
  end.

Definition crashed (v : vcfg) : bool := existsb (fun g => existsb crashed_service (svcs (g_sys g))) (socks v).

(** The inputs on which the action would panic in [handle]. *)
Definition handler_panics (r : running) (a : vact) : option inputs :=
  match a with
  | VSock n (KHandle i) =>
      g ← socks (rn_server r) !! n;
      match g_pc g, reader (g_sys g) with
      | GRun, RChecked p =>
          if bool_decide (inputs_wf i)
          then match (handle (rn_handler r) i p (g_sys g)).1 with Panic => Some i | _ => None end
          else None
      | _, _ => None
      end
  | _ => None
  end.

Section main.
Context (ParseDuration : bytes -> outcome Z) (getenv : bytes -> bytes) (windows : bool).

(** [main], up to the call of [bridge.Start] *)
Definition bridge_main (args : list bytes) : program :=
  match Parse ParseDuration bridge_flags args with
  | Some (Parsed f _) =>
      match get_string (str "serial") f with
      | [] => Ended 1 NoSerial
      | _ => Running (Start getenv windows (flags_bridge f))
      end
  | Some NeedHelp => Ended 0 Help
  | Some (BadFlag _) | None => Ended 2 BadUsage
  end.

Inductive mact :=
  | MServer (a : vact)        (* the accept loop, sockets, clients and devices go on *)
  | MSignal                   (* SIGINT or SIGTERM *)
  | MReturn.                  (* bridge.Start() has returned *)

(** The rest of [main] and its signal goroutine. *)
Definition mexec (a : mact) (s : program) : option program :=
  match s, a with
  | Running r, MServer a =>
      match handler_panics r a with
      | Some i => Some (Ended 2 (HandlerPanic i))
      | None =>
          r' ← rexec a r;
          Some (if crashed (rn_server r') then Ended 2 (Crashed (rn_server r')) else Running r')
      end
  | Running _, MSignal => Some (Ended 0 Signalled)
  | Running r, MReturn =>
      match Start_result r with
      | Some (Ok u) => Some (Ended 0 (Returned (Ok u)))
      | Some o => Some (Ended 1 (Returned o))
      | None => None
      end
  | Ended _ _, _ => None
  end.

Inductive mreach (args : list bytes) : program -> Prop :=
  | mreach_init : mreach args (bridge_main args)
  | mreach_step a s s' : mreach args s -> mexec a s = Some s' -> mreach args s'.
End main.

(** ** Lemmas *)

(** A server nobody closes. *)
Record unclosed (v : vcfg) : Prop := {
  uc_cpc : cpc v = CInit;
  uc_open : srv_closed (srv v) = false;
  uc_none : lpc v = LBind \/ (exists o, lpc v = LReturned o) -> socks v = [];
  uc_ret : forall o, lpc v = LReturned o -> o = Err (NetError (str "listen"))
}.

Lemma unclosed_init : unclosed init_server.
Proof. constructor; simpl; try done. Qed.

(** A step of an existing socket leaves the accept loop's position alone. *)
Lemma unclosed_sock v n g s :
  unclosed v -> socks v !! n = Some g -> s ∈ [srv v; mkServer (listener (srv v)) (remove_conn n (connections (srv v))) false] ->
  forall g', unclosed (mkV s (lopen v) (lpc v) (cpc v) (<[n := g']> (socks v))).
Proof.
  intros [H1 H2 H3 H4] Hg Hs g'. constructor; simpl; [done | | |done].
  - rewrite !elem_of_cons in Hs. destruct Hs as [->|[->|Hs]]; [done | done | by apply elem_of_nil in Hs].
  - intros Hl. by rewrite (H3 Hl) in Hg |- *.
Qed.

Lemma unclosed_step h a v v' : is_close a = false -> unclosed v -> vexec h a v = Some v' -> unclosed v'.
Proof.
  intros Ha Hu E. pose proof Hu as [H1 H2 H3 H4].
  assert (Hsame : forall n g g', socks v !! n = Some g -> unclosed (set_sock n g' v)).
  { intros n g g' Hg. apply (unclosed_sock v n g (srv v) Hu Hg). apply elem_of_cons. by left. }
  destruct a as [ok| | | | | | |n k|n|n|n| |]; simpl in Ha, E; try done.
  - destruct (lpc v) eqn:El; try done. destruct ok; simplify_eq; constructor; simpl; naive_solver.
  - destruct (lpc v) eqn:El; try done. simplify_eq. constructor; simpl; naive_solver.
  - destruct (lpc v) eqn:El; try done. destruct (lopen v); simplify_eq. constructor; simpl; naive_solver.
  - destruct (lpc v) eqn:El; try done. simplify_eq. constructor; simpl; naive_solver.
  - destruct (lpc v) eqn:El; try done. rewrite H2 in E. simplify_eq. constructor; simpl; naive_solver.
  - destruct (lpc v) eqn:El; try done. apply bind_Some in E as (g & Hg & E). simplify_eq. constructor; simpl; naive_solver.
  - destruct (lpc v) eqn:El; try done. apply bind_Some in E as (g & Hg & E). simplify_eq. constructor; simpl; naive_solver.
  - apply bind_Some in E as (g & Hg & E). destruct (own_act (g_pc g) k); [|done].
    apply bind_Some in E as (s' & _ & E). simplify_eq. by eapply Hsame.
  - apply bind_Some in E as (g & Hg & E). destruct (g_pc g), (reader (g_sys g)); simplify_eq. by eapply Hsame.
  - apply bind_Some in E as (g & Hg & E). destruct (g_pc g); try done.
    apply bind_Some in E as (s' & _ & E). simplify_eq. by eapply Hsame.
  - apply bind_Some in E as (g & Hg & E). destruct (g_pc g); try done. rewrite H2 in E. simplify_eq.
    eapply unclosed_sock; [done..|]. rewrite !elem_of_cons. by right; left.
Qed.

(** While [Start] runs, its server is the one that was built and nobody closes it. *)
Definition serving (r0 r : running) : Prop :=
  r = mkRunning (rn_connector r0) (rn_device r0) (rn_handler r0) (rn_address r0) false (rn_server r) /\
  vreach (rn_handler r0) (rn_server r) /\ unclosed (rn_server r).

Lemma serving_step r0 r a r' : serving r0 r -> rexec a r = Some r' -> serving r0 r'.
Proof.
  intros (Hr & Hv & Hu) E. rewrite Hr in E. unfold rexec in E. cbn [rn_exported rn_handler rn_server] in E.
  rewrite andb_true_r in E. destruct (is_close a) eqn:Ea; [done|].
  apply bind_Some in E as (v & Ev & E). simplify_eq. split_and!; [done | by eapply vreach_step | by eapply unclosed_step].
Qed.

(** A crash is that of an opener whose service has been ended under it. *)
Lemma crashed_spec h v :
  vreach h v -> crashed v = true ->
  exists n g k e, socks v !! n = Some g /\ svcs (g_sys g) !! k = Some e /\
    op (e_cfg e) = OCrash /\ ended (sv (sw (e_cfg e))) = true.
Proof.
  intros Hv (g & Hg & (e & He & Hc)%existsb_exists)%existsb_exists.
  apply list_elem_of_In, list_elem_of_lookup in Hg as [n Hn]. apply list_elem_of_In, list_elem_of_lookup in He as [k Hk].
  exists n, g, k, e. split_and!; [done..| |];
    pose proof (sys_inv_reach _ _ (so_reach _ _ _ _ _ (vi_sock _ _ (vinv_reach _ _ Hv) n g Hn))) as Hs;
    pose proof (Forall_lookup_1 _ _ _ _ (si_entry _ Hs) Hk) as (Hd & _ & lid & mx & _ & Hm & Hr);
    pose proof (inv_nocrash _ _ _ _ _ _ _ (inv_reachable _ _ _ _ _ _ _ Hm Hr)) as Hf;
    (assert (Ho : op (e_cfg e) = OCrash)
      by (unfold crashed_service in Hc; by destruct (op (e_cfg e)), (fw (e_cfg e)))); [done|].
  eapply open_crash_only_after_end; [done | | done | done]. intros E. rewrite E in Hd. unfold zlen in Hd. simpl in Hd. lia.
Qed.

(** [handle] panics on an overlong serial only. *)
Lemma handler_panics_spec r a i :
  vreach (rn_handler r) (rn_server r) -> handler_panics r a = Some i -> ~ serial_short i.
Proof.
  intros Hv E Hs. destruct a as [| | | | | | |n [| |i'| | | | |]| | | | |]; try done. unfold handler_panics in E.
  apply bind_Some in E as (g & Hg & E). destruct (g_pc g); try done. destruct (reader (g_sys g)) as [|p|]; try done.
  destruct (bool_decide (inputs_wf i')) eqn:Ew; [|done]. apply bool_decide_eq_true in Ew.
  pose proof (sys_inv_reach _ _ (so_reach _ _ _ _ _ (vi_sock _ _ (vinv_reach _ _ Hv) n g Hg))) as Hi.
  destruct (handle _ i' p (g_sys g)).1 eqn:Eh; simplify_eq.
  pose proof (handle_returns (rn_handler r) i p (g_sys g) Hi Ew Hs) as H. by rewrite Eh in H.
Qed.

Lemma flags_addr getenv windows f :
  get_string (str "adb-host") f <> [] -> get_num (str "adb-port") f <> 0 ->
  addr (base (rn_connector (Start getenv windows (flags_bridge f)))) =
    get_string (str "adb-host") f ++ str ":" ++ fmt_d (get_num (str "adb-port") f).
Proof.
  intros Hh Hp. apply Z.eqb_neq in Hp.
  unfold Start, launch, bridge_connector, NewClientWithOptions, addr, flags_bridge, get_num in *.
  cbn [rn_connector br_Config cfg_ADBHost cfg_ADBPort opt_Host opt_Port base host port]. rewrite Hp.
  by destruct (get_string (str "adb-host") f).
Qed.

Section theorems.
Context (ParseDuration : bytes -> outcome Z) (getenv : bytes -> bytes) (windows : bool).

Lemma mreach_serving args s :
  mreach ParseDuration getenv windows args s ->
  match s with
  | Running r => exists f rest, Parse ParseDuration bridge_flags args = Some (Parsed f rest) /\
      get_string (str "serial") f <> [] /\ serving (Start getenv windows (flags_bridge f)) r /\
      crashed (rn_server r) = false
  | Ended code why =>
      match why with
      | Help | Signalled => code = 0
      | BadUsage => code = 2
      | NoSerial => code = 1
      | Returned o => code = 1 /\ o = Err (NetError (str "listen"))
      | Crashed v => code = 2 /\ exists n g k e, socks v !! n = Some g /\ svcs (g_sys g) !! k = Some e /\
          op (e_cfg e) = OCrash /\ ended (sv (sw (e_cfg e))) = true
      | HandlerPanic i => code = 2 /\ ~ serial_short i
      end
  end.
Proof.
  induction 1 as [|a s s' Hs IH E].
  - unfold bridge_main. destruct (Parse ParseDuration bridge_flags args) as [[f rest| |msg]|] eqn:Ep; try done.
    destruct (get_string (str "serial") f) as [|c t] eqn:Es; [done|]. exists f, rest. rewrite Es.
    split_and!; [done..| |done]. split_and!; [done | constructor | apply unclosed_init].
  - destruct s as [r|]; [|by destruct a]. destruct IH as (f & rest & Ep & Hser & Hsv & Hcr). destruct a as [a| |]; simpl in E.
    + destruct (handler_panics r a) as [i|] eqn:Ei.
      { simplify_eq. split; [done|]. destruct Hsv as (Hr & Hv & _). eapply handler_panics_spec; [|done]. by rewrite Hr. }
      apply bind_Some in E as (r' & Er & E). pose proof (serving_step _ _ _ _ Hsv Er) as Hsv'.
      destruct (crashed (rn_server r')) eqn:Ec; simplify_eq; [|by exists f, rest].
      split; [done|]. by eapply crashed_spec; [apply Hsv'|].
    + by simplify_eq.
    + unfold Start_result in E. destruct (lpc (rn_server r)) as [| | | | | |o] eqn:El; try done.
      destruct Hsv as (_ & _ & [_ _ _ Hret]). specialize (Hret o El) as ->. by simplify_eq.
Qed.

End theorems.

(** ** Instances *)

Definition ex_getenv (_ : bytes) : bytes := [].
Definition ex_ParseDuration (s : bytes) : outcome Z := Err (NumSyntax s).

Definition ex_args : list bytes := [str "-serial=P6"; str "-port"; str "7000"].

Definition ex_running : program :=
  default (Ended 0 Help)
    (mexec (MServer (VListen true)) (bridge_main ex_ParseDuration ex_getenv false ex_args) ≫= mexec (MServer VStore)).


Fixpoint mexec_all (acts : list mact) (s : program) : option program :=
  match acts with [] => Some s | a :: r => s' ← mexec a s; mexec_all r s' end.

Lemma mexec_all_reach acts s s' :
  mreach ex_ParseDuration ex_getenv false ex_args s -> mexec_all acts s = Some s' ->
  mreach ex_ParseDuration ex_getenv false ex_args s'.
Proof.
  revert s. induction acts as [|a r IH]; intros s H E; simpl in E; [by simplify_eq|].
  apply bind_Some in E as (s1 & E1 & E2). eapply IH; [|done]. by eapply mreach_step.
Qed.

(** A client logs in, opens a stream and disconnects while the stream is being opened. *)
Definition ex_disconnect : list vact :=
  serve_one ++ (VSock 0 <$> ex_login ++ ex_exchange ex_open ++ [KOpen 0; KOpen 0; KReadError]) ++
  [VStop 0; VStopServices 0; VSock 0 (KOpen 0)].

(** A client can take the program down: when it disconnects between the moment
    [handleOpenPacket] has stored the transport and its use, the nil transport
    panics and the process ends with status 2. *)
Theorem usb_bridge_crash_reachable :
  exists v, mreach ex_ParseDuration ex_getenv false ex_args (Ended 2 (Crashed v)).
Proof.
  assert (H : exists v, mexec_all (MServer <$> ex_disconnect)
    (bridge_main ex_ParseDuration ex_getenv false ex_args) = Some (Ended 2 (Crashed v)))
    by (eexists; vm_compute; reflexivity).
  destruct H as [v E]. exists v. eapply mexec_all_reach; [apply mreach_init | exact E].
Qed.
