(* ===== verification/Cli.v ===== *)
(** * The example command-line tool: examples/basic/main.go

    [main] dispatches on the command and each handler parses its flags, talks to
    the ADB server and prints.  The process has the network of World.v, a file
    system and its output; [os.Exit] ends it at once, without deferred calls,
    and [log.Fatalf] is a message followed by exit status 1.  The library calls
    that are not modelled are parameters: [time.ParseDuration], the text of a
    duration, [image.Decode] and [png.Encode]. *)

From stdpp Require Import base list numbers gmap.
From Stdlib Require Import ZArith Lia.
From S2P Require Import Prelude GoStrings GoNet Connection World Client Sync HostCommands Screen Flag.

Local Open Scope Z_scope.

(** ** The process *)

(** What the process prints: text on stdout, a fatal error, and the flag
    package's messages on stderr. *)
Inductive event :=
  | Printed (s : bytes)
  | Fatal (msg : bytes) (e : goerror)
  | FlagUsage (set : bytes)
  | FlagError (set msg : bytes).

(** A file, or the error reading it gives. *)
Definition file : Type := bytes + goerror.

Record proc := mkProc {
  net : world;
  files : gmap bytes file;
  denied : gmap bytes goerror;   (* the paths os.Create fails for *)
  disk : nat;                    (* the bytes that can still be written *)
  printed : list event
}.

(** How a piece of the program ends: it goes on, the process exits, or a call
    in it panics or does not return. *)
Inductive ending (A : Type) :=
  | Going (a : A)
  | Exited (code : Z)
  | Crashed.
Arguments Going {A} a.
Arguments Exited {A} code.
Arguments Crashed {A}.

Definition prog (A : Type) : Type := proc -> ending A * proc.

#[global] Instance prog_ret : MRet prog := fun _ a p => (Going a, p).
#[global] Instance prog_bind : MBind prog := fun _ _ f m p =>
  match m p with
  | (Going a, p') => f a p'
  | (Exited n, p') => (Exited n, p')
  | (Crashed, p') => (Crashed, p')
  end.

Definition emit (e : event) : prog unit := fun p =>
  (Going tt, mkProc (net p) (files p) (denied p) (disk p) (printed p ++ [e])).

(** [fmt.Println], [fmt.Printf], [fmt.Print] *)
Definition Println (s : bytes) : prog unit := emit (Printed (s ++ [newline])).
Definition Printf (s : bytes) : prog unit := emit (Printed s).

(** [os.Exit] *)
Definition Exit {A} (code : Z) : prog A := fun p => (Exited code, p).

(** [log.Fatalf] *)
Definition Fatalf {A} (msg : bytes) (e : goerror) : prog A := _ ← emit (Fatal msg e); Exit 1.

(** A call into the adb package. *)
Definition call {A} (m : io world A) : prog (A + goerror) := fun p =>
  let '(r, w) := m (net p) in
  let p' := mkProc w (files p) (denied p) (disk p) (printed p) in
  match r with
  | Ok a => (Going (inl a), p')
  | Err e => (Going (inr e), p')
  | _ => (Crashed, p')
  end.

(** [v, err := m; if err != nil { log.Fatalf(msg, err) }] *)
Definition must {A} (msg : string) (m : prog (A + goerror)) : prog A :=
  r ← m; match r with inl a => mret a | inr e => Fatalf (str msg) e end.

(** [os.Open], with what reading the file to its end will give *)
Definition Open (path : bytes) : prog (file + goerror) := fun p =>
  (Going (match files p !! path with
          | Some f => inl f
          | None => inr (Errorf (str "open " ++ path ++ str ": no such file or directory"))
          end), p).

(** [os.Create] *)
Definition Create (path : bytes) : prog (unit + goerror) := fun p =>
  match denied p !! path with
  | Some e => (Going (inr e), p)
  | None => (Going (inl tt), mkProc (net p) (<[path := inl []]> (files p)) (denied p) (disk p) (printed p))
  end.

(** A library call that writes [data] to the created file at [path] and then
    reports [err]: the disk may fill up first. *)
Definition fill_file (path data : bytes) (err : option goerror) : prog (unit + goerror) := fun p =>
  let n := Nat.min (length data) (disk p) in
  (Going (if decide (disk p < length data)%nat then inr (Errorf (str "no space left on device"))
          else match err with None => inl tt | Some e => inr e end),
   mkProc (net p) (<[path := inl (take n data)]> (files p)) (denied p) (disk p - n)%nat (printed p)).

(** [io.Copy(f, reader)] from the pipe that [readData] feeds: the end of file of
    the reader is not an error. *)
Definition Copy (path : bytes) (h : nat) : prog (unit + goerror) :=
  r ← call (on_conn h readData);
  match r with
  | inl (data, err) => fill_file path data (match err with Some EOF => None | e => e end)
  | inr e => mret (inr e)
  end.

(** ** Usage *)

Definition usage : list string :=
  ["ADB command-line tool";
   EmptyString;
   "Usage:";
   "  basic devices                      - List connected devices";
   "  basic kill-server                   - Kill ADB server";
   "  basic connect [options] <host[:port]>  - Connect to a remote ADB device";
   "  basic disconnect <host[:port]>     - Disconnect from a remote ADB device";
   "  basic shell <command>              - Execute shell command";
   "  basic screenshot [options]         - Take screenshot";
   "  basic push <local> <remote> [opts]  - Push file to device";
   "  basic pull <remote> <local> [opts]  - Pull file from device";
   EmptyString;
   "Shell Command:";
   "  -s <serial>    Device serial number (auto-detect if only one device)";
   "  <command>      Shell command to execute";
   EmptyString;
   "Screenshot Options:";
   "  -s <serial>    Device serial number (auto-detect if only one device)";
   "  -o <output>    Output file path (default: screenshot.png)";
   EmptyString;
   "Push/Pull Options:";
   "  -s <serial>    Device serial number (auto-detect if only one device)";
   "  -m <mode>      File permissions (octal, e.g., 0644)";
   EmptyString;
   "Examples:";
   "  basic devices";
   "  basic kill-server";
   "  basic connect 192.168.1.100:5555";
   "  basic connect 192.168.1.100         # Default port 5555";
   "  basic disconnect 192.168.1.100:5555";
   "  basic shell getprop ro.product.model";
   "  basic shell -s emulator-5554 ls /sdcard";
   "  basic screenshot                           # Auto-detect device";
   "  basic screenshot -s emulator-5554           # Specify device";
   "  basic screenshot -s emulator-5554 -o screen.png";
   "  basic push test.txt /sdcard/test.txt";
   "  basic push test.txt /sdcard/test.txt -s emulator-5554";
   "  basic pull /sdcard/test.txt ./test.txt";
   "  basic pull /sdcard/test.txt ./test.txt -s emulator-5554"]%string.

Fixpoint Println_all (l : list string) : prog unit :=
  match l with
  | [] => mret tt
  | s :: r => _ ← Println (str s); Println_all r
  end.

(** [printUsage] *)
Definition printUsage : prog unit := Println_all usage.

(** The message of a handler whose arguments are missing. *)
Definition usage_error {A} (set : bytes) (msg : string) (examples : list string) : prog A :=
  _ ← Println_all [msg; EmptyString];
  _ ← emit (FlagUsage set);
  _ ← Println_all (EmptyString :: examples);
  Exit 1.

(** ** Commands *)

Section cli.
Context (ParseDuration : bytes -> outcome Z) (DurationString : Z -> bytes).
(* [png.Encode]: what it writes, and its error. *)
Context {Img : Type} (Decode : bytes -> Img + goerror) (Encode : Img -> bytes * option goerror).
Context {C : Type} `{!Connector C} (client : C).
(* The contexts the library's methods make for themselves, and that of connect. *)
Context (xl x : ctx).

(** [fs.Parse(args)] with [flag.ExitOnError] *)
Definition ParseFlags (set : bytes) (f : FlagSet) (args : list bytes) : prog (FlagSet * list bytes) :=
  match Parse ParseDuration f args with
  | Some (Parsed f' rest) => mret (f', rest)
  | Some NeedHelp => _ ← emit (FlagUsage set); Exit 0
  | Some (BadFlag msg) => _ ← emit (FlagError set msg); _ ← emit (FlagUsage set); Exit 2
  | None => fun p => (Crashed, p)
  end.

Definition device_entry (d : DeviceInfo) : bytes :=
  str "  " ++ Serial d ++ [tab] ++ State d ++ [newline].

Fixpoint print_devices (l : list DeviceInfo) : prog unit :=
  match l with
  | [] => mret tt
  | d :: r => _ ← Printf (device_entry d); print_devices r
  end.

(** [listDevices] *)
Definition listDevices : prog unit :=
  devices ← must "Failed to list devices: " (call (ListDevices client xl));
  match devices with
  | [] => Println (str "No devices found")
  | _ =>
      _ ← Printf (str "Found " ++ fmt_d (zlen devices) ++ str " device(s):" ++ [newline]);
      print_devices devices
  end.

(** [killServer] *)
Definition killServer : prog unit :=
  ok ← must "Failed to kill server: " (call (KillServer client xl));
  Println (if (ok : bool) then str "ADB server killed successfully" else str "Failed to kill ADB server").

(** [autoDetectDevice]: the serial to use *)
Definition autoDetectDevice (serial : bytes) : prog bytes :=
  match serial with
  | _ :: _ => mret serial
  | [] =>
      devices ← must "Failed to list devices: " (call (ListDevices client xl));
      match devices with
      | [] => _ ← Println (str "Error: No devices found"); Exit 1
      | [d] => mret (Serial d)
      | _ =>
          _ ← Println_all ["Error: Multiple devices found, please specify serial with -s"; EmptyString;
                            "Available devices:"]%string;
          _ ← print_devices devices;
          Exit 1
      end
  end.

Definition connect_flags : FlagSet := {[ str "t" := FDuration 5000000000 ]}.

(** [handleConnect] *)
Definition handleConnect (args : list bytes) : prog unit :=
  '(f, hostArgs) ← ParseFlags (str "connect") connect_flags args;
  match hostArgs with
  | [] => usage_error (str "connect") "Error: host[:port] is required"
            ["Example: basic connect 192.168.1.100:5555"; "         basic connect -t 10s 192.168.1.100"]%string
  | hostPort :: _ =>
      _ ← Printf (str "Connecting to " ++ hostPort ++ str " (timeout: "
                    ++ DurationString (get_num (str "t") f) ++ str ")..." ++ [newline]);
      msg ← must "Failed to connect: " (call (ConnectContext client x hostPort));
      Println msg
  end.

(** [handleDisconnect] *)
Definition handleDisconnect (args : list bytes) : prog unit :=
  match args with
  | [] =>
      _ ← Println_all ["Error: host[:port] is required"; EmptyString;
                        "Example: basic disconnect 192.168.1.100:5555";
                        "         basic disconnect 192.168.1.100"]%string;
      Exit 1
  | hostPort :: _ =>
      _ ← Printf (str "Disconnecting from " ++ hostPort ++ str "..." ++ [newline]);
      msg ← must "Failed to disconnect: " (call (Disconnect client xl hostPort));
      Println msg
  end.

Definition serial_flags : FlagSet := {[ str "s" := FString [] ]}.

(** [handleShell] *)
Definition handleShell (args : list bytes) : prog unit :=
  '(f, commandArgs) ← ParseFlags (str "shell") serial_flags args;
  match commandArgs with
  | [] => usage_error (str "shell") "Error: Shell command is required"
            ["Example: basic shell getprop ro.product.model";
             "         basic shell -s emulator-5554 ls /sdcard"]%string
  | _ =>
      let command := Join commandArgs (str " ") in
      serial ← autoDetectDevice (get_string (str "s") f);
      output ← must "Failed to execute shell command: "
                 (call (RunCommand client (DeviceWithSerial serial) command));
      Printf output
  end.

Definition screenshot_flags : FlagSet :=
  <[str "o" := FString (str "screenshot.png")]> serial_flags.

(** [handleScreenshot] *)
Definition handleScreenshot (args : list bytes) : prog unit :=
  '(f, _) ← ParseFlags (str "screenshot") screenshot_flags args;
  let output := get_string (str "o") f in
  serial ← (match get_string (str "s") f with
            | [] =>
                serial ← autoDetectDevice [];
                _ ← Printf (str "Auto-detected device: " ++ serial ++ [newline]);
                mret serial
            | s => mret s
            end);
  _ ← Printf (str "Taking screenshot from device " ++ serial ++ str "..." ++ [newline]);
  img ← must "Failed to take screenshot: " (call (Screencap client (DeviceWithSerial serial) Decode));
  _ ← must "Failed to create output file: " (Create output);
  _ ← must "Failed to encode image: " (let '(data, err) := Encode img in fill_file output data err);
  Printf (str "Screenshot saved to: " ++ output ++ [newline]).

Definition push_flags : FlagSet := <[str "m" := FUint 420]> serial_flags.

(** [handlePush] *)
Definition handlePush (args : list bytes) : prog unit :=
  '(f, paths) ← ParseFlags (str "push") push_flags args;
  match paths with
  | localPath :: remotePath :: _ =>
      serial ← autoDetectDevice (get_string (str "s") f);
      _ ← Printf (str "Pushing " ++ localPath ++ str " to " ++ remotePath ++ str " on device "
                    ++ serial ++ str "..." ++ [newline]);
      reader ← must "Failed to open local file: " (Open localPath);
      _ ← must "Failed to push file: "
            (call (Device_Push client (DeviceWithSerial serial) reader remotePath
                     (wrap32 (get_num (str "m") f))));
      Println (str "File pushed successfully")
  | _ => usage_error (str "push") "Error: Both local and remote paths are required"
           ["Example: basic push test.txt /sdcard/test.txt";
            "         basic push test.txt /sdcard/test.txt -s emulator-5554"]%string
  end.

(** [handlePull] *)
Definition handlePull (args : list bytes) : prog unit :=
  '(f, paths) ← ParseFlags (str "pull") serial_flags args;
  match paths with
  | remotePath :: localPath :: _ =>
      serial ← autoDetectDevice (get_string (str "s") f);
      _ ← Printf (str "Pulling " ++ remotePath ++ str " from device " ++ serial ++ str " to "
                    ++ localPath ++ str "..." ++ [newline]);
      h ← must "Failed to pull file: " (call (Device_Pull client (DeviceWithSerial serial) remotePath));
      _ ← must "Failed to create local file: " (Create localPath);
      _ ← must "Failed to write file: " (Copy localPath h);
      Println (str "File pulled successfully")
  | _ => usage_error (str "pull") "Error: Both remote and local paths are required"
           ["Example: basic pull /sdcard/test.txt ./test.txt";
            "         basic pull /sdcard/test.txt ./test.txt -s emulator-5554"]%string
  end.

(** The commands [main] dispatches on. *)
Definition run_command (command : bytes) (args : list bytes) : prog unit :=
  if decide (command = str "devices") then listDevices
  else if decide (command = str "kill-server") then killServer
  else if decide (command = str "shell") then handleShell args
  else if decide (command = str "screenshot") then handleScreenshot args
  else if decide (command = str "connect") then handleConnect args
  else if decide (command = str "disconnect") then handleDisconnect args
  else if decide (command = str "push") then handlePush args
  else if decide (command = str "pull") then handlePull args
  else if decide (command ∈ [str "-h"; str "--help"; str "help"]) then printUsage
  else
    _ ← Printf (str "Unknown command: " ++ command ++ [newline]);
    _ ← printUsage;
    Exit 1.

(** [main]; [argv] includes the program's name. *)
Definition main (argv : list bytes) : prog unit :=
  match argv with
  | _ :: command :: args => run_command command args
  | _ => _ ← printUsage; Exit 1
  end.
End cli.

(** ** Lemmas *)

Lemma prog_bind_Going {A B} (m : prog A) (f : A -> prog B) p a p' :
  m p = (Going a, p') -> (m ≫= f) p = f a p'.
Proof. intros E. unfold mbind, prog_bind. by rewrite E. Qed.

Lemma prog_bind_Exited {A B} (m : prog A) (f : A -> prog B) p n p' :
  m p = (Exited n, p') -> (m ≫= f) p = (Exited n, p').
Proof. intros E. unfold mbind, prog_bind. by rewrite E. Qed.

Lemma Printf_bind {A} t (f : unit -> prog A) p :
  (Printf t ≫= f) p = f tt (mkProc (net p) (files p) (denied p) (disk p) (printed p ++ [Printed t])).
Proof. done. Qed.

Definition with_net (w : world) (p : proc) : proc := mkProc w (files p) (denied p) (disk p) (printed p).

(** [p'] is [p] with more output. *)
Definition more_output (p p' : proc) : Prop := exists l, p' = mkProc (net p) (files p) (denied p) (disk p) (printed p ++ l).

#[global] Instance more_output_preorder : PreOrder more_output.
Proof.
  split.
  - intros p. exists []. rewrite app_nil_r. by destruct p.
  - intros p q r [l ->] [k ->]. exists (l ++ k). simpl. by rewrite app_assoc.
Qed.

(** A step that only prints. *)
Definition prints (m : prog unit) : Prop := forall p, exists p', m p = (Going tt, p') /\ more_output p p'.

Lemma prints_emit e : prints (emit e).
Proof. intros p. eexists. split; [done|]. by exists [e]. Qed.

Lemma prints_bind (m k : prog unit) : prints m -> prints k -> prints (m ≫= fun _ => k).
Proof.
  intros Hm Hk p. destruct (Hm p) as (p1 & E1 & H1). destruct (Hk p1) as (p2 & E2 & H2).
  exists p2. rewrite (prog_bind_Going _ _ _ _ _ E1). split; [done|]. by etrans.
Qed.

Lemma prints_Println_all l : prints (Println_all l).
Proof.
  induction l as [|s l IH]; [intros p; by exists p|]. apply prints_bind; [apply prints_emit | done].
Qed.

Lemma prints_devices l : prints (print_devices l).
Proof.
  induction l as [|d l IH]; [intros p; by exists p|]. apply prints_bind; [apply prints_emit | done].
Qed.

Lemma must_call_Ok {A} msg (m : io world A) p a w :
  m (net p) = (Ok a, w) -> must msg (call m) p = (Going a, with_net w p).
Proof. intros E. unfold must, mbind, prog_bind, call. by rewrite E. Qed.

(** A handler that prints and exits. *)
Lemma prints_Exit {A} (m : prog unit) n p :
  prints m -> exists p', (m ≫= fun _ => Exit n : prog A) p = (Exited n, p') /\ more_output p p'.
Proof. intros Hm. destruct (Hm p) as (p' & E & H). exists p'. by rewrite (prog_bind_Going _ _ _ _ _ E). Qed.

Lemma serial_default : get_string (str "s") serial_flags = [].
Proof. unfold get_string, serial_flags. by rewrite lookup_singleton_eq. Qed.

Section properties.
Context (ParseDuration : bytes -> outcome Z) (DurationString : Z -> bytes).
Context {Img : Type} (Decode : bytes -> Img + goerror) (Encode : Img -> bytes * option goerror).
Context {C : Type} `{!Connector C, !ConnectorLaws C} (client : C) (xl x : ctx).

#[local] Abbreviation run := (main ParseDuration DurationString Decode Encode client xl x).

Lemma run_shell name args : run (name :: str "shell" :: args) = handleShell ParseDuration client xl args.
Proof. unfold main, run_command. by rewrite !decide_False, decide_True by done. Qed.

Lemma run_screenshot name args :
  run (name :: str "screenshot" :: args) = handleScreenshot ParseDuration Decode Encode client xl args.
Proof. unfold main, run_command. by rewrite !decide_False, decide_True by done. Qed.

Lemma run_push name args : run (name :: str "push" :: args) = handlePush ParseDuration client xl args.
Proof. unfold main, run_command. by rewrite !decide_False, decide_True by done. Qed.

Lemma run_pull name args : run (name :: str "pull" :: args) = handlePull ParseDuration client xl args.
Proof. unfold main, run_command. by rewrite !decide_False, decide_True by done. Qed.

Lemma ParseFlags_positional set f s rest p :
  flag_name s = None -> ParseFlags ParseDuration set f (s :: rest) p = (Going (f, s :: rest), p).
Proof. intros H. unfold ParseFlags. by rewrite Parse_positional. Qed.

(** Without a serial the device is the only one listed, or the program exits. *)
Lemma autoDetect_lists p devs w :
  ListDevices client xl (net p) = (Ok devs, w) ->
  match devs with
  | [d] => autoDetectDevice client xl [] p = (Going (Serial d), with_net w p)
  | _ => exists p', autoDetectDevice client xl [] p = (Exited 1, p') /\ more_output (with_net w p) p'
  end.
Proof.
  intros E. unfold autoDetectDevice.
  pose proof (must_call_Ok "Failed to list devices: " _ _ _ _ E) as Em.
  destruct devs as [|d [|d2 devs]]; rewrite (prog_bind_Going _ _ _ _ _ Em); [|done|].
  - apply prints_Exit, prints_emit.
  - destruct (prints_Println_all ["Error: Multiple devices found, please specify serial with -s"; EmptyString;
      "Available devices:"]%string (with_net w p)) as (p1 & E1 & H1).
    rewrite (prog_bind_Going _ _ _ _ _ E1).
    destruct (@prints_Exit bytes (print_devices (d :: d2 :: devs)) 1 p1 (prints_devices _)) as (p2 & E2 & H2).
    exists p2. split; [exact E2 | by etrans].
Qed.

(** The four commands that work on a device: their flags and the number of
    arguments they need besides. *)
Definition device_command (command : bytes) : option (FlagSet * nat) :=
  if decide (command = str "shell") then Some (serial_flags, 1%nat)
  else if decide (command = str "screenshot") then Some (screenshot_flags, 0%nat)
  else if decide (command = str "push") then Some (push_flags, 2%nat)
  else if decide (command = str "pull") then Some (serial_flags, 2%nat)
  else None.

Lemma usage_error_exits set msg ex p :
  exists p', (usage_error set msg ex : prog unit) p = (Exited 1, p') /\ more_output p p'.
Proof.
  destruct (prints_bind _ _ (prints_Println_all [msg; EmptyString]) (prints_emit (FlagUsage set)) p) as (p1 & E1 & H1).
  destruct (prints_Println_all (EmptyString :: ex) p1) as (p2 & E2 & H2).
  exists p2. split; [|by etrans]. unfold usage_error. unfold mbind, prog_bind in *.
  destruct (Println_all [msg; EmptyString] p) as [[] q]; try done. rewrite E1, E2. done.
Qed.

(** What the handlers do with their arguments: too few end the program, and
    without a serial the device is detected first. *)
Definition guarded (need : nat) (body : FlagSet * list bytes -> prog unit) : Prop :=
  forall f rest p,
    ((length rest < need)%nat -> exists p', body (f, rest) p = (Exited 1, p') /\ more_output p p') /\
    (forall n p', (need <= length rest)%nat -> get_string (str "s") f = [] ->
       autoDetectDevice client xl [] p = (Exited n, p') -> body (f, rest) p = (Exited n, p')).

Lemma device_command_guarded name command args flags need :
  device_command command = Some (flags, need) ->
  exists set body, run (name :: command :: args) = (ParseFlags ParseDuration set flags args ≫= body) /\
    guarded need body.
Proof.
  unfold device_command. intros H.
  repeat (case_decide; [subst command; injection H as <- <-; eexists _, _; split; [first
    [apply run_shell | apply run_screenshot | apply run_push | apply run_pull]|]; intros f rest p|]); [..|done].
  - split; [intros Hl; destruct rest; [|simpl in Hl; lia]; apply usage_error_exits|].
    intros n p' Hl Hs E. destruct rest; [simpl in Hl; lia|]. rewrite Hs. by apply prog_bind_Exited.
  - split; [intros Hl; lia|]. intros n p' _ Hs E. cbv beta zeta iota. rewrite Hs. apply prog_bind_Exited. by apply prog_bind_Exited.
  - split; [intros Hl; destruct rest as [|? [|]]; [..|simpl in Hl; lia]; apply usage_error_exits|].
    intros n p' Hl Hs E. destruct rest as [|? [|]]; [simpl in Hl; lia..|]. rewrite Hs. by apply prog_bind_Exited.
  - split; [intros Hl; destruct rest as [|? [|]]; [..|simpl in Hl; lia]; apply usage_error_exits|].
    intros n p' Hl Hs E. destruct rest as [|? [|]]; [simpl in Hl; lia..|]. rewrite Hs. by apply prog_bind_Exited.
Qed.

(** C26. The tool never guesses: against a server that lists no device or several
    (its OKAY delivered by the first [Read]), a device command - shell,
    screenshot, push, pull - with any arguments that name no serial exits with
    status 1 having talked to no device - its only connection is the listing's,
    and it is closed - and having touched no file.  With too few arguments it
    exits with 1, with a bad flag with 2, and asked for help with 0, having
    only printed. *)
Theorem cli_ambiguous_device name command args flags need p c tl payload s :
  device_command command = Some (flags, need) ->
  dials_to client (net p) c -> ctx_SetDeadline xl = None -> zlen payload <= 65535 ->
  answers tl c StatusOkay (frame payload ++ s) -> length (parse_devices payload) <> 1%nat ->
  exists p', match Parse ParseDuration flags args with
  | Some (Parsed f rest) =>
      if decide (length rest < need)%nat
      then main ParseDuration DurationString Decode Encode client xl x (name :: command :: args) p = (Exited 1, p') /\
        more_output p p'
      else get_string (str "s") f = [] ->
        main ParseDuration DurationString Decode Encode client xl x (name :: command :: args) p = (Exited 1, p') /\
        files p' = files p /\ exists c', conns (net p') = conns (net p) ++ [c'] /\ conn_closed c' = true
  | Some NeedHelp =>
      main ParseDuration DurationString Decode Encode client xl x (name :: command :: args) p = (Exited 0, p') /\
      more_output p p'
  | Some (BadFlag _) =>
      main ParseDuration DurationString Decode Encode client xl x (name :: command :: args) p = (Exited 2, p') /\
      more_output p p'
  | None => False
  end.
Proof.
  intros Hc Hd Hx Hl Ha Hn. destruct (device_command_guarded name command args flags need Hc) as (set & body & -> & Hb).
  unfold ParseFlags. destruct (Parse_total ParseDuration flags args) as [r ->]. destruct r as [f rest| |msg].
  - destruct (Hb f rest p) as [Hshort Henough]. case_decide as Hlen; [by apply Hshort|].
    destruct (ListDevices_ok client tl xl (net p) c payload s Hd Hx Hl Ha) as (w & c' & E & Hw & Hcl).
    assert (exists p', autoDetectDevice client xl [] p = (Exited 1, p') /\ more_output (with_net w p) p') as (p' & E' & l & ->).
    { pose proof (autoDetect_lists p _ w E) as H. by destruct (parse_devices payload) as [|d [|]]. }
    eexists. intros Hs. split; [apply (Henough 1); [lia | done | exact E']|]. split; [done|]. by exists c'.
  - eexists. split; [done|]. by eexists.
  - eexists. split; [done|]. eexists [_; _]. cbn. by rewrite <- app_assoc.
Qed.

(** Flags after the paths: the usage text gives [-s <serial>] after the paths of
    push and pull, but the flags end at the first path, so whatever follows the
    two paths - a serial, a mode - is ignored and the program behaves as if it
    were not there. *)
Theorem cli_trailing_flags_ignored name command a b extra p :
  command = str "push" \/ command = str "pull" -> flag_name a = None ->
  main ParseDuration DurationString Decode Encode client xl x (name :: command :: a :: b :: extra) p =
  main ParseDuration DurationString Decode Encode client xl x [name; command; a; b] p.
Proof.
  intros Hc Ha. destruct Hc as [->| ->].
  - rewrite !run_push. unfold handlePush. by rewrite !(prog_bind_Going _ _ _ _ _ (ParseFlags_positional _ _ _ _ _ Ha)).
  - rewrite !run_pull. unfold handlePull. by rewrite !(prog_bind_Going _ _ _ _ _ (ParseFlags_positional _ _ _ _ _ Ha)).
Qed.

Lemma Create_ok path p :
  denied p !! path = None ->
  must "Failed to create local file: " (Create path) p =
    (Going tt, mkProc (net p) (<[path := inl []]> (files p)) (denied p) (disk p) (printed p)).
Proof. intros H. unfold must, mbind, prog_bind, Create. by rewrite H. Qed.

(** Copying a download that ends properly onto a disk with room for it. *)
Lemma Copy_ok path h p data w :
  on_conn h readData (net p) = (Ok (data, None), w) -> (length data <= disk p)%nat ->
  must "Failed to write file: " (Copy path h) p =
    (Going tt, mkProc w (<[path := inl data]> (files p)) (denied p) (disk p - length data)%nat (printed p)).
Proof.
  intros E Hl. unfold must, mbind, prog_bind, Copy, mbind, prog_bind, call. rewrite E. unfold fill_file. cbn [disk net files denied printed].
  rewrite decide_False by lia. rewrite Nat.min_l by done. by rewrite take_ge.
Qed.

(** C25. [pull] end to end: with one device listed and a device that sends the file
    in any chunks - the OKAY of the listing and that of the device selection each
    delivered by the first [Read], everything after them, which may share their
    segments, in any fragmentation - [pull remote local] detects the device,
    asks that device - selected by its serial - for the remote path, stores
    exactly the file's content under the local path and nothing else, reports
    success and ends with status 0.  (The file can be created and the disk has
    room for it.) *)
Theorem cli_pull_end_to_end name remote localPath p c1 tl d s c2 evs chs ts :
  flag_name remote = None -> row_wf (device_row d) ->
  dials_to client (net p) c1 -> ctx_SetDeadline xl = None ->
  zlen (table tab [device_row d] ++ [newline]) <= 65535 ->
  answers tl c1 StatusOkay (frame (table tab [device_row d] ++ [newline]) ++ s) ->
  dials_to client (ListDevices client xl (net p)).2 c2 ->
  replies c2 StatusOkay evs ->
  Forall (fun ch => zlen ch < 2 ^ 32) chs -> feeds [] evs (StatusOkay ++ file_wire chs ts) ->
  denied p !! localPath = None -> (length (concat chs) <= disk p)%nat ->
  exists p' c1' c2',
    main ParseDuration DurationString Decode Encode client xl x [name; str "pull"; remote; localPath] p = (Going tt, p') /\
    files p' = <[localPath := inl (concat chs)]> (files p) /\
    last (printed p') = Some (Printed (str "File pulled successfully" ++ [newline])) /\
    conns (net p') = conns (net p) ++ [c1'; c2'] /\ conn_closed c1' = true /\
    written c2' = written c2 ++ frame (str "host:transport:" ++ Serial d) ++ frame (str "sync:")
                    ++ SYNC_RECV ++ PutUint32 (zlen remote) ++ remote.
Proof.
  intros Hrem Hd Hd1 Hx Hl Ha Hd2 Hr Hch Hf Hden Hdisk.
  destruct (ListDevices_ok client tl xl (net p) c1 _ s Hd1 Hx Hl Ha) as (w1 & c1' & E1 & Hw1 & Hcl1).
  rewrite E1 in Hd2. cbn [snd] in Hd2.
  change [device_row d] with (device_row <$> [d]) in E1. rewrite parse_devices_table in E1 by (done || by apply Forall_singleton).
  pose proof (autoDetect_lists p [d] w1 E1) as Edet. cbn [Serial] in Edet.
  destruct (Device_Pull_file client (DeviceWithSerial (Serial d)) remote w1 c2 evs chs ts Hd2 Hr Hch Hf)
    as (w2 & w3 & c2' & E2 & E3 & Hw3 & _ & Hwr).
  rewrite run_pull. unfold handlePull.
  rewrite (prog_bind_Going _ _ _ _ _ (ParseFlags_positional _ _ _ _ _ Hrem)), serial_default.
  rewrite (prog_bind_Going _ _ _ _ _ Edet).
  rewrite Printf_bind.
  erewrite prog_bind_Going by (apply must_call_Ok; exact E2).
  erewrite prog_bind_Going by (apply Create_ok; exact Hden).
  erewrite prog_bind_Going by (apply Copy_ok; [exact E3 | exact Hdisk]).
  eexists _, c1', c2'. split; [done|]. cbn [files printed net]. split_and!; [|apply last_snoc| |done|exact Hwr].
  - cbn [with_net files]. by rewrite insert_insert_eq.
  - by rewrite Hw3, Hw1, <- app_assoc.
Qed.
End properties.

(** ** Instances *)

Definition ex_duration (s : bytes) : outcome Z := Err (NumSyntax s).
Definition ex_text (n : Z) : bytes := fmt_d n.
Definition ex_decode (s : bytes) : bytes + goerror := inl s.
Definition ex_encode (s : bytes) : bytes * option goerror := (s, None).

Definition ex_main : list bytes -> prog unit :=
  main ex_duration ex_text ex_decode ex_encode ex_client Background Background.

Definition ex_proc (cs : list conn) : proc := mkProc (mkWorld (inl <$> cs) [] [] []) ∅ ∅ 100 [].

Lemma ex_proc_dials c cs : dials_to ex_client (net (ex_proc (c :: cs))) c.
Proof. eexists. split; [reflexivity | reflexivity]. Qed.

Definition ex_pixel : DeviceInfo := mkDeviceInfo (str "P6") (str "device").

(** The server's answer to host:devices. *)
Definition ex_listing (l : list DeviceInfo) : conn :=
  mkConn [RChunk StatusOkay; RChunk (frame (table tab (device_row <$> l) ++ [newline]))] [] [] false.

Definition ex_file_conn : conn :=
  mkConn [RChunk StatusOkay; RChunk StatusOkay; RChunk (file_wire [str "he"; str "llo"] 7)] [] [] false.

Lemma ex_listing_answers l :
  answers [] (ex_listing l) StatusOkay (frame (table tab (device_row <$> l) ++ [newline]) ++ []).
Proof.
  eexists. split; [split_and!; reflexivity|].
  exact (feeds_chunk [] _ [] [] (feeds_done [])).
Qed.

Definition ex_screenshot : list bytes := [str "-o"; str "x.png"].

Lemma ex_screenshot_parsed :
  exists f, Parse ex_duration screenshot_flags ex_screenshot = Some (Parsed f []) /\ get_string (str "s") f = [].
Proof. eexists. split; [vm_compute; reflexivity | vm_compute; reflexivity]. Qed.

Lemma cli_ambiguous_device_witness :
  exists p', ex_main (str "basic" :: str "screenshot" :: ex_screenshot) (ex_proc [ex_listing ex_devices]) = (Exited 1, p') /\
    files p' = ∅ /\ exists c', conns (net p') = [c'] /\ conn_closed c' = true.
Proof.
  destruct (cli_ambiguous_device ex_duration ex_text ex_decode ex_encode ex_client Background Background
    (str "basic") (str "screenshot") ex_screenshot screenshot_flags 0 (ex_proc [ex_listing ex_devices])
    (ex_listing ex_devices) [] ex_devices_payload []) as (p' & H).
  - reflexivity.
  - apply ex_proc_dials.
  - reflexivity.
  - vm_compute. discriminate.
  - apply (ex_listing_answers ex_devices).
  - vm_compute. discriminate.
  - destruct ex_screenshot_parsed as (f & Ef & Hs). rewrite Ef in H. exists p'. apply H. exact Hs.
Defined.

Lemma cli_trailing_flags_ignored_witness :
  ex_main [str "basic"; str "push"; str "a"; str "/b"; str "-s"; str "P6"] (ex_proc [ex_listing ex_devices])
  = ex_main [str "basic"; str "push"; str "a"; str "/b"] (ex_proc [ex_listing ex_devices]).
Proof.
  apply (cli_trailing_flags_ignored ex_duration ex_text ex_decode ex_encode ex_client Background Background).
  - left. reflexivity.
  - reflexivity.
Defined.

Lemma cli_pull_end_to_end_witness :
  exists p' c1 c2, ex_main [str "basic"; str "pull"; str "/f"; str "f"] (ex_proc [ex_listing [ex_pixel]; ex_file_conn])
    = (Going tt, p') /\ files p' = {[ str "f" := inl (str "hello") ]} /\ conns (net p') = [c1; c2].
Proof.
  destruct (cli_pull_end_to_end ex_duration ex_text ex_decode ex_encode ex_client Background Background
    (str "basic") (str "/f") (str "f") (ex_proc [ex_listing [ex_pixel]; ex_file_conn]) (ex_listing [ex_pixel]) []
    ex_pixel [] ex_file_conn [RChunk StatusOkay; RChunk (file_wire [str "he"; str "llo"] 7)] [str "he"; str "llo"] 7)
    as (p' & c1 & c2 & E & Hf & _ & Hc & _).
  - reflexivity.
  - split; [discriminate|]. repeat constructor.
  - apply ex_proc_dials.
  - reflexivity.
  - vm_compute. discriminate.
  - apply (ex_listing_answers [ex_pixel]).
  - eexists. split; vm_compute; reflexivity.
  - split_and!; reflexivity.
  - repeat constructor.
  - exact (feeds_chunk [] StatusOkay _ _ (feeds_chunk [] (file_wire [str "he"; str "llo"] 7) [] [] (feeds_done []))).
  - reflexivity.
  - vm_compute. lia.
  - exists p', c1, c2. split; [exact E|]. split; [exact Hf | exact Hc].
Defined.
